(* ===== verification/_CoqProject ===== *)
-Q . S2P
Prelude.v
Proto.v
Text.v
Network.v
Quorum.v
Inflights.v
Progress.v
Tracker.v
Util.v
Storage.v
Unstable.v
Log.v
ConfChange.v
ReadOnly.v
Raft.v
RaftStep.v
RaftRel.v
RaftSafety.v
RaftRepl.v
RaftLive.v
RaftInv.v
RaftDisk.v
RaftQuota.v
RaftAck.v
LogTree.v
History.v
NodeCommit.v
RawNode.v
Describe.v
Interaction.v
Commands.v
Node.v
Cluster.v
RaftLimit.v
NodeLog.v
ClusterLog.v
ClusterCommit.v
InteractionSafety.v
CommandSafety.v
