(* ===== verification/Prelude.v ===== *)
(** * A verified model of the raft library

    The program (src/) is the Go library go.etcd.io/raft/v3: the consensus
    module of a replicated state machine.  An application owns the network and
    the disk; the library is a deterministic state machine that consumes
    messages and ticks and produces a [Ready] with messages to send, entries
    and state to store, and committed entries to apply.  This library of Rocq
    files translates that state machine and proves what makes it correct.

    ** The parts of the program and where they are modelled

    - Shared foundations, this file: uint64 arithmetic with its wrap-around
      ([+!], [-!]), the [outcome] monad (a Go call returns or panics), the type
      [result] for Go's [(T, error)], slices and their bounds checks, and the
      tactics and hint databases that the other files use.
    - Proto.v: the messages of raftpb/ (raft.pb.go, confchange.go, util.go) with
      their optional fields.  The protobuf runtime is not part of the source: it
      is the class [Protobuf] with its documented laws [ProtobufLaws], and
      [sample_Protobuf] shows that the laws can hold.
    - Text.v: the textual form of configuration changes (raftpb/confchange.go),
      with what it uses of the packages strings and strconv.
    - Quorum.v: quorum/ (majority.go, joint.go, quorum.go): committed index and
      vote counting of majority and joint configurations.
    - Inflights.v, Progress.v, Tracker.v: tracker/: the window of messages in
      flight, the leader's view of one follower, and of all of them.
    - Util.v: util.go, types.go and small predicates of node.go.
    - Storage.v: storage.go: the interface [Storage] as a class, its contract
      [StorageLaws] (against which the log is verified) and [MemoryStorage],
      which is proved to satisfy it.
    - Unstable.v, Log.v: log_unstable.go and log.go: the part of the log that is
      not stored yet, and the joined log with its commit and apply positions.
    - ConfChange.v: confchange/ (confchange.go, restore.go) and
      raftpb/confstate.go: changes of the configuration.
    - ReadOnly.v: read_only.go: pending linearizable reads.
    - Raft.v, RaftStep.v: raft.go.  [raft] is the state of a node, [RM] the
      monad of its methods; every method and message handler is one definition
      ([stepLeader] and [Step], which are long in the source, are split along
      their cases), up to [raft_Step], the ticks and [newRaft].
    - RaftRel.v, RaftSafety.v, RaftRepl.v, RaftLive.v, RaftInv.v, RaftDisk.v,
      RaftQuota.v, RaftAck.v: the theory of a node: relational reasoning about
      methods, what no step can do, replication, the start of an election, the
      invariant of its roles and its log, what of its log is stored, the quota of
      uncommitted entries, and what it acknowledges to others.
    - RawNode.v: rawnode.go, bootstrap.go, status.go: the interface that an
      application drives.
    - Describe.v: what is printed: the [String] and [Describe] functions of all
      packages and the JSON of a status, with the formatting of the package fmt
      ([%d], [%x], [%q] and so on).  Which code points above 255 are printable and
      the text of decoding errors are the class [TextTables].
    - Node.v: node.go: the goroutine that serves a [RawNode] over channels.  One
      pass of [run]'s loop is [run_top] (what it prepares) and [run_case] (the
      channel it serves); the methods of [Node] are the other ends.
    - Cluster.v: nodes ([RawNode]s with their storage and append thread) around
      a network, as a transition system; the contract of doc.go for the
      application is part of its steps.  RaftLimit.v: one node under every
      sequence of calls of an application ([run_ops]), with size limits of 0.
    - LogTree.v, NodeLog.v, ClusterLog.v: the logs of a cluster as paths of one
      tree of entries, what a node keeps true of its log in that tree, and the
      cluster over synchronous storage, whose contract is [log_contract];
      [mem_run] is an application on MemoryStorage that keeps to it.
    - History.v, NodeCommit.v, ClusterCommit.v: elections, acknowledgements and
      commitment as a history without code, what a node knows of the history, and
      the cluster with it, whose contract is [commit_contract].
    - Interaction.v, Commands.v: the interaction environment of rafttest/
      (interaction_env.go and its handlers), an application of the library whose
      nodes append the data of committed entries to a state: its operations, and
      the commands as text that a data-driven test is made of.  The functions of
      the package datadriven that scan arguments are the class [Datadriven].
    - InteractionSafety.v, CommandSafety.v: the environment is simulated by the
      cluster of ClusterCommit.v, and the text of a command by its operation.
    - Network.v: rafttest/network.go: the network of the tests, with the codec of
      messages as the class [MessageCodec] and random numbers as arguments.

    A node calls the log, the log its storage and its unstable part; the tracker
    calls the quorum code; the configuration changer rewrites the tracker's
    configuration; [RawNode] hands the work of a node to the application and
    steps the answers back into it; the goroutine of node.go serializes the
    application's calls of [RawNode]; nodes reach each other only through the
    messages that the application carries.

    ** Conventions

    A Go method [T.m] is [T_m]; a pointer field that may be nil is an [option];
    a uint64 is a [Z] whose arithmetic wraps; a Go [int] (counters, lengths,
    ticks) is a plain [Z], and conversions from uint64 are written [go_int].  A
    Go map is a [gmap], a set of ids a [gset] (in tracker.Config an [option]
    of one, since nil and empty differ there).  A loop over a Go map is a loop
    over the keys in sorted order; the places where the source's random order
    could matter are proved to be independent of it ([quorum_order_independent],
    and the configuration changes, whose result is characterised as a set).
    Mutation of a shared pointer (the progress of a follower) is an update of
    the map that holds it.  Logging and tracing do nothing, except that what a
    log line evaluates is kept where that can panic.  The random generator is
    the list of numbers it is going to draw ([raft_rands]).

    Fuel: [send_all_loop] (the loop that sends appends until nothing is left) is
    proved to need at most [send_fuel] iterations; [raftLog_scan] runs with as
    much fuel as the range has entries, each page being non-empty;
    [raftLog_allEntries] takes the number of retries as an argument, and
    [env_Stabilize] the number of rounds (what is proved of it holds for any).
    [format_uint] writes up to 20 digits, [format_hex] 16, which is enough for a
    uint64; [skip_all] and [quote_loop] take away at least one byte a turn.  [Step]
    calls itself through [appliedTo]; [Step_unfold] shows that the recursion is
    one level deep.  All other recursion is structural.

    ** What the theorems show

    - Clusters: over every run, with crashes, restarts, lost, duplicated,
      reordered and forged messages (short of forged votes), two leaders of one
      term are the same node ([election_safety]), every node acts by the role
      it has ([nodes_in_order]), and, where hard state is stored before messages
      are sent, logs that share an entry agree up to it ([log_matching]), two
      nodes that hold an index committed hold the same entry at it
      ([state_machine_safety]), and a leader has all that was committed before
      ([leader_completeness]).  The last two are proved for a fixed configuration
      and for logs with a common start: no snapshots, no compaction, indexes below
      2^63, a Ready stored before its messages are sent.  Hard state and entries of
      a Ready are stored in one step there: a crash in between is not covered.
      With asynchronous writes
      a term may be led twice, and all this fails ([async_writes_diverge]).
    - The interaction environment: whatever text of commands a data-driven test
      is made of, within that contract, the states that two nodes have applied
      are prefixes of each other ([histories_agree]).  This composes the whole
      development, from the parsing of the text to the quorums.
    - One step of a node: terms, votes and commit index only move forward, a
      vote is given once per term and only to an up-to-date candidate, a leader
      has won a majority of both halves of the configuration, and whatever
      vouches for durable state waits for it ([Step_safe], [Step_vote_granted],
      [Step_leader_elected], [Step_unfold]); no committed entry is replaced
      and a leader only appends ([Step_keeps_committed], [Leader_append_only]);
      the payload that a leader counts as uncommitted stays below the limit or a
      single proposal ([uncommitted_bounded]).  A node that hears nothing starts an
      election when its timeout has passed ([election_timeout_campaigns]).  With
      size limits of 0, which are documented to be usable, a node never applies
      anything ([zero_size_limit_applies_nothing]).
    - Quorums: two won elections share a voter, an election meets every
      commitment, the committed index is what a majority acknowledged; after a
      change of configuration the quorums of old and new overlap.
    - The log: [maybeAppend] keeps logs matching, [slice] and [scan] read the
      joined log, committed entries are handed out in order, as soon as they may be
      and within the size limit, and persisting entries changes nothing that is
      visible.
    - Replication: the commit rule, the content of append messages, the answer
      of a follower, one full round, which leaves the entries of both logs equal,
      and the termination of the send loop.
    - Components: the inflight window is a queue, a follower's match index stays
      below its next one, storage returns what was appended, a restored
      configuration is the one that was saved, a read is released only when a
      quorum has confirmed it; the network of the tests keeps the order of what
      it delivers within bounded queues ([network_queues]).
    - Text: configuration changes read back as they were printed
      ([ConfChanges_roundtrip]); the picture of a quorum shows the order of the
      indexes ([MajorityConfig_Describe_spec]); a Ready prints as empty exactly
      when there is nothing in it, which is so when [HasReady] says no
      ([DescribeReady_spec], [HasReady_false_empty]).
    - The application interface: a Ready hands out all work once, hands term,
      vote, entries and snapshot to storage before anything that vouches for them
      is sent, and acknowledging storage makes the log stable; the goroutine of
      node.go keeps the order of Ready and Advance and is a sequence of calls of
      [RawNode]; a proposal that is reported as accepted was stepped without an
      error ([Propose_nil_accepted]).

    ** What is not modelled

    - logger.go: output only; what a log line evaluates is kept where that can
      panic.  state_trace.go: a hook behind a build tag that reports the state and
      does not change it.
    - The generated code of raft.pb.go other than types, getters and names: it
      registers the types with the protobuf runtime, which is a parameter.
    - [RawNode.WithProgress], a callback that reads the progress map.
    - rafttest/node.go and the logger of the interaction environment: a goroutine
      with a real-time ticker that drives a [Node], and output; cmd/ and tools.
    - What the interaction environment prints: its effect on the nodes, not its
      transcript, is the subject.
    - Data races and the mutex of [MemoryStorage]: the library is used by one
      goroutine at a time.  The mutex of the network of the tests is modelled, by
      the events into which it splits a send and a receipt.
    - Values of the enumerations of raft.pb.go that have no name (Go's are open
      int32 types).

    ** What could follow

    The cluster theorems for changes of the configuration and for snapshots: the
    steps of a node are proved for them ([confchange_quorums_overlap],
    [Step_keeps_committed]), the history of a cluster is not. *)
From stdpp Require Export base gmap sets list sorting strings.
From Stdlib Require Export ZArith Lia.


#[global] Open Scope Z_scope.

(** ** Machine integers

    Go's [uint64] is a [Z] in [[0, 2^64)]; addition and subtraction wrap
    around, exactly as in the source.  Go's [int] (loop counters, tick
    counters, buffer sizes) is a plain [Z]. *)

Abbreviation two64 := 18446744073709551616%Z (only parsing).
Abbreviation MaxUint64 := 18446744073709551615%Z (only parsing).

Definition is_u64 (z : Z) : Prop := 0 <= z < two64.

Definition add64 (a b : Z) : Z := (a + b) mod two64.

Definition sub64 (a b : Z) : Z := (a - b) mod two64.

(** The conversion [int(x)] of a uint64. *)
Definition go_int (x : Z) : Z := if x <? 9223372036854775808 then x else x - two64.

Declare Scope u64_scope.
Delimit Scope u64_scope with u64.
Notation "a +! b" := (add64 a b) (at level 50, left associativity) : u64_scope.
Notation "a -! b" := (sub64 a b) (at level 50, left associativity) : u64_scope.
#[global] Open Scope u64_scope.

(** ** The outcome monad

    A Go computation either returns ([Ok]) or panics ([Panic]).  Go's
    [(T, error)] results are the separate type [result]: an error is a value
    that the caller inspects, a panic aborts the whole step. *)

Inductive outcome (A : Type) : Type :=
| Ok (a : A)
| Panic (why : string).

Arguments Ok {A} a.
Arguments Panic {A} why.

#[export] Instance outcome_ret : MRet outcome := fun A a => Ok a.
#[export] Instance outcome_bind : MBind outcome :=
  fun A B f m => match m with Ok a => f a | Panic w => Panic w end.

(** The errors that the modelled packages return. *)
Inductive error : Type :=
| ErrCompacted
| ErrSnapOutOfDate
| ErrUnavailable
| ErrSnapshotTemporarilyUnavailable
| ErrProposalDropped
| ErrStepLocalMsg
| ErrStepPeerNotFound
| ErrStopped
| errBreak
| ErrText (s : string).

#[export] Instance error_eq_dec : EqDecision error.
Proof. solve_decision. Defined.

Inductive result (A : Type) : Type :=
| Val (a : A)
| Err (e : error).

Arguments Val {A} a.
Arguments Err {A} e.

(** ** Slices

    [go_index] is [l[i]], [go_from] is [l[lo:]], [go_slice] is [l[lo:hi]];
    all panic out of range. *)

Definition len {A} (l : list A) : Z := Z.of_nat (length l).

Definition go_index {A} (l : list A) (i : Z) : outcome A :=
  if i <? 0 then Panic "index out of range"
  else match l !! Z.to_nat i with
       | Some a => Ok a
       | None => Panic "index out of range"
       end.

Definition go_slice {A} (l : list A) (lo hi : Z) : outcome (list A) :=
  if (0 <=? lo) && (lo <=? hi) && (hi <=? len l)
  then Ok (take (Z.to_nat (hi - lo)) (drop (Z.to_nat lo) l))
  else Panic "slice bounds out of range".

Definition go_from {A} (l : list A) (lo : Z) : outcome (list A) :=
  go_slice l lo (len l).

(** [slices.Sort] on a [[]uint64]. *)
Definition sort64 (l : list Z) : list Z := merge_sort Z.le l.

(** ** Generic automation *)

Create HintDb raft.
Create Rewrite HintDb raft.

Lemma bind_Ok {A B} (m : outcome A) (f : A → outcome B) b :
  (m ≫= f) = Ok b ↔ ∃ a, m = Ok a ∧ f a = Ok b.
Proof. destruct m; cbn; split; [eauto|by intros (?&[= ->]&?)|done|by intros (?&?&?)]. Qed.

Lemma Ok_inj {A} (a b : A) : Ok a = Ok b → a = b.
Proof. by injection 1. Qed.

(** [go_inv H] peels the binds of a successful run [H : _ = Ok _]. *)
Ltac go_inv H :=
  let a := fresh "r" in
  let E := fresh "E" in
  first
    [ apply Ok_inj in H
    | discriminate H
    | apply bind_Ok in H; destruct H as (a & E & H) ].

Lemma add64_small a b : 0 <= a + b < two64 → a +! b = a + b.
Proof. intros. by apply Z.mod_small. Qed.

Lemma sub64_small a b : 0 <= a - b < two64 → a -! b = a - b.
Proof. intros. by apply Z.mod_small. Qed.

Lemma sub64_wrap a b : is_u64 a → is_u64 b → a < b → a -! b = a - b + two64.
Proof.
  unfold is_u64, sub64. intros.
  symmetry. apply (Z.mod_unique _ _ (-1)); lia.
Qed.

Lemma add64_u64 a b : is_u64 (a +! b).
Proof. apply Z.mod_pos_bound. lia. Qed.

Lemma sub64_u64 a b : is_u64 (a -! b).
Proof. apply Z.mod_pos_bound. lia. Qed.

#[export] Hint Resolve add64_u64 sub64_u64 : raft.

(** [u64_norm] turns wrapping operations into exact ones whenever linear
    arithmetic shows that they do not wrap. *)
Ltac u64_norm :=
  repeat match goal with
  | |- context [add64 ?a ?b] => rewrite (add64_small a b) by lia
  | |- context [sub64 ?a ?b] => rewrite (sub64_small a b) by lia
  | H : context [add64 ?a ?b] |- _ => rewrite (add64_small a b) in H by lia
  | H : context [sub64 ?a ?b] |- _ => rewrite (sub64_small a b) in H by lia
  end.

Ltac lia64 := unfold is_u64 in *; u64_norm; lia.

(** Case analysis on the boolean comparisons of the code. *)
Ltac zcase :=
  match goal with
  | |- context [?a <? ?b] => destruct (Z.ltb_spec a b)
  | |- context [?a <=? ?b] => destruct (Z.leb_spec a b)
  | |- context [?a =? ?b] => destruct (Z.eqb_spec a b)
  end.

Ltac zcase_in H :=
  match type of H with
  | context [?a <? ?b] => destruct (Z.ltb_spec a b)
  | context [?a <=? ?b] => destruct (Z.leb_spec a b)
  | context [?a =? ?b] => destruct (Z.eqb_spec a b)
  end.

(** ** Lists *)

Lemma len_nonneg {A} (l : list A) : 0 <= len l.
Proof. unfold len. lia. Qed.

Lemma filter_all {A} (P : A → Prop) `{!∀ x, Decision (P x)} l : Forall P l → filter P l = l.
Proof. induction 1; [done|]. rewrite filter_cons_True by done. congruence. Qed.

Lemma filter_none {A} (P : A → Prop) `{!∀ x, Decision (P x)} l : Forall (fun x => ¬ P x) l → filter P l = [].
Proof. induction 1; [done|]. by rewrite filter_cons_False. Qed.

Lemma len_nil {A} : len (@nil A) = 0.
Proof. done. Qed.

Lemma len_cons {A} (a : A) l : len (a :: l) = len l + 1.
Proof. unfold len. cbn [length]. lia. Qed.

Lemma len_app {A} (l k : list A) : len (l ++ k) = len l + len k.
Proof. unfold len. rewrite length_app. lia. Qed.

Lemma len_take {A} (l : list A) n : 0 <= n <= len l → len (take (Z.to_nat n) l) = n.
Proof. unfold len. rewrite length_take. lia. Qed.

Lemma len_drop {A} (l : list A) n : 0 <= n <= len l → len (drop (Z.to_nat n) l) = len l - n.
Proof. unfold len. rewrite length_drop. lia. Qed.

Lemma len_zero {A} (l : list A) : len l = 0 → l = [].
Proof. unfold len. destruct l; cbn; [done|lia]. Qed.

Lemma go_slice_Ok {A} (l : list A) lo hi :
  0 <= lo <= hi → hi <= len l →
  go_slice l lo hi = Ok (take (Z.to_nat (hi - lo)) (drop (Z.to_nat lo) l)).
Proof. intros. unfold go_slice. repeat zcase; cbn; done || lia. Qed.

Lemma go_from_Ok {A} (l : list A) lo :
  0 <= lo <= len l → go_from l lo = Ok (drop (Z.to_nat lo) l).
Proof.
  intros. unfold go_from. rewrite go_slice_Ok by lia. f_equal.
  apply take_ge. rewrite length_drop. unfold len. lia.
Qed.

Lemma go_index_Ok {A} (l : list A) i a :
  0 <= i → l !! Z.to_nat i = Some a → go_index l i = Ok a.
Proof. intros ? Hl. unfold go_index. rewrite Hl. by zcase; [lia|]. Qed.

Lemma go_index_inv {A} (l : list A) i a :
  go_index l i = Ok a → 0 <= i < len l ∧ l !! Z.to_nat i = Some a.
Proof.
  unfold go_index, len. zcase; [done|]. destruct (l !! _) eqn:E; [|done].
  intros [= ->]. apply lookup_lt_Some in E as ?. split; [lia|done].
Qed.

Lemma sort64_perm l : sort64 l ≡ₚ l.
Proof. apply merge_sort_Permutation. Qed.

Lemma sort64_sorted l : StronglySorted Z.le (sort64 l).
Proof. apply StronglySorted_merge_sort; apply _. Qed.

Lemma length_sort64 l : length (sort64 l) = length l.
Proof. by rewrite sort64_perm. Qed.

#[export] Hint Resolve len_nonneg sort64_perm sort64_sorted : raft.
#[export] Hint Rewrite @len_nil @len_cons @len_app length_sort64 : raft.
