(* ===== verification/Proto.v ===== *)
(** * The protocol data types (src/raftpb)

    Enumerations and message structures of raft.pb.go with their getters, the
    [Ensure*] helpers of util.go and the configuration-change helpers of
    confchange.go.  Every optional protobuf field is an [option], exactly as
    the generated structs hold pointers; the getters supply the zero value.
    Encoding, decoding and sizing of messages belong to the protobuf runtime,
    which is not part of the repository: they are the fields of the class
    [Protobuf]. *)
From S2P Require Import Prelude.
From Stdlib Require Import Strings.Byte.

Abbreviation bytes := (list Byte.byte).

(** Bytes as numbers. *)
Definition byte_of_Z (z : Z) : Byte.byte := default Byte.x00 (Byte.of_N (Z.to_N (z mod 256))).

Definition Z_of_byte (b : Byte.byte) : Z := Z.of_N (Byte.to_N b).

Lemma Z_of_byte_of_Z z : Z_of_byte (byte_of_Z z) = z mod 256.
Proof.
  unfold Z_of_byte, byte_of_Z. pose proof (Z.mod_pos_bound z 256 ltac:(lia)).
  destruct (Byte.of_N (Z.to_N (z mod 256))) as [b|] eqn:E; cbn.
  - apply Byte.to_of_N in E. rewrite E. lia.
  - apply Byte.of_N_None_iff in E. lia.
Qed.

Inductive EntryType : Type := EntryNormal | EntryConfChange | EntryConfChangeV2.

#[export] Instance EntryType_eq_dec : EqDecision EntryType.
Proof. solve_decision. Defined.

Inductive MessageType : Type :=
| MsgHup | MsgBeat | MsgProp | MsgApp | MsgAppResp | MsgVote | MsgVoteResp
| MsgSnap | MsgHeartbeat | MsgHeartbeatResp | MsgUnreachable | MsgSnapStatus
| MsgCheckQuorum | MsgTransferLeader | MsgTimeoutNow | MsgReadIndex
| MsgReadIndexResp | MsgPreVote | MsgPreVoteResp | MsgStorageAppend
| MsgStorageAppendResp | MsgStorageApply | MsgStorageApplyResp | MsgForgetLeader.

(** The numbers of the enumeration ([int(msgt)]). *)
Definition MessageType_num (t : MessageType) : Z :=
  match t with
  | MsgHup => 0 | MsgBeat => 1 | MsgProp => 2 | MsgApp => 3 | MsgAppResp => 4
  | MsgVote => 5 | MsgVoteResp => 6 | MsgSnap => 7 | MsgHeartbeat => 8
  | MsgHeartbeatResp => 9 | MsgUnreachable => 10 | MsgSnapStatus => 11
  | MsgCheckQuorum => 12 | MsgTransferLeader => 13 | MsgTimeoutNow => 14
  | MsgReadIndex => 15 | MsgReadIndexResp => 16 | MsgPreVote => 17
  | MsgPreVoteResp => 18 | MsgStorageAppend => 19 | MsgStorageAppendResp => 20
  | MsgStorageApply => 21 | MsgStorageApplyResp => 22 | MsgForgetLeader => 23
  end.

Definition mt_eqb (a b : MessageType) : bool :=
  MessageType_num a =? MessageType_num b.

Inductive ConfChangeTransition : Type :=
| ConfChangeTransitionAuto
| ConfChangeTransitionJointImplicit
| ConfChangeTransitionJointExplicit
| ConfChangeTransitionUnknown (n : Z).

Inductive ConfChangeType : Type :=
| ConfChangeAddNode
| ConfChangeRemoveNode
| ConfChangeUpdateNode
| ConfChangeAddLearnerNode
| ConfChangeTypeUnknown (n : Z).

Record Entry : Type := mkEntry {
  Entry_Term : option Z;
  Entry_Index : option Z;
  Entry_Type : option EntryType;
  Entry_Data : option bytes;
}.

Definition set_Entry_Term (v : option Z) (r : Entry) : Entry :=
  mkEntry v (Entry_Index r) (Entry_Type r) (Entry_Data r).

Definition set_Entry_Index (v : option Z) (r : Entry) : Entry :=
  mkEntry (Entry_Term r) v (Entry_Type r) (Entry_Data r).

#[export] Instance byte_eq_dec : EqDecision Byte.byte := Byte.byte_eq_dec.

#[export] Instance Entry_eq_dec : EqDecision Entry.
Proof. solve_decision. Defined.

Definition Entry0 : Entry := mkEntry None None None None.

Definition Entry_GetTerm (x : Entry) : Z := default 0 (Entry_Term x).
Definition Entry_GetIndex (x : Entry) : Z := default 0 (Entry_Index x).
Definition Entry_GetType (x : Entry) : EntryType := default EntryNormal (Entry_Type x).
Definition Entry_GetData (x : Entry) : bytes := default [] (Entry_Data x).

Record ConfState : Type := mkConfState {
  ConfState_Voters : list Z;
  ConfState_Learners : list Z;
  ConfState_VotersOutgoing : list Z;
  ConfState_LearnersNext : list Z;
  ConfState_AutoLeave : option bool;
}.

Definition set_ConfState_AutoLeave (v : option bool) (r : ConfState) : ConfState :=
  mkConfState (ConfState_Voters r) (ConfState_Learners r) (ConfState_VotersOutgoing r)
    (ConfState_LearnersNext r) v.

#[export] Instance ConfState_eq_dec : EqDecision ConfState.
Proof. solve_decision. Defined.

Definition ConfState0 : ConfState := mkConfState [] [] [] [] None.

Definition ConfState_GetAutoLeave (x : ConfState) : bool := default false (ConfState_AutoLeave x).

Record SnapshotMetadata : Type := mkSnapshotMetadata {
  SnapshotMetadata_ConfState : option ConfState;
  SnapshotMetadata_Index : option Z;
  SnapshotMetadata_Term : option Z;
}.

Definition set_SnapshotMetadata_ConfState (v : option ConfState) (r : SnapshotMetadata) : SnapshotMetadata :=
  mkSnapshotMetadata v (SnapshotMetadata_Index r) (SnapshotMetadata_Term r).

Definition set_SnapshotMetadata_Index (v : option Z) (r : SnapshotMetadata) : SnapshotMetadata :=
  mkSnapshotMetadata (SnapshotMetadata_ConfState r) v (SnapshotMetadata_Term r).

Definition set_SnapshotMetadata_Term (v : option Z) (r : SnapshotMetadata) : SnapshotMetadata :=
  mkSnapshotMetadata (SnapshotMetadata_ConfState r) (SnapshotMetadata_Index r) v.

Record Snapshot : Type := mkSnapshot {
  Snapshot_Data : option bytes;
  Snapshot_Metadata : option SnapshotMetadata;
}.

Definition set_Snapshot_Data (v : option bytes) (r : Snapshot) : Snapshot :=
  mkSnapshot v (Snapshot_Metadata r).

Definition set_Snapshot_Metadata (v : option SnapshotMetadata) (r : Snapshot) : Snapshot :=
  mkSnapshot (Snapshot_Data r) v.

#[export] Instance SnapshotMetadata_eq_dec : EqDecision SnapshotMetadata.
Proof. solve_decision. Defined.

#[export] Instance Snapshot_eq_dec : EqDecision Snapshot.
Proof. solve_decision. Defined.

(** The getters are nil-safe: [sp.GetMetadata().GetIndex()] on a nil snapshot
    or nil metadata is zero. *)
Definition SnapshotMetadata_GetIndex (x : option SnapshotMetadata) : Z :=
  default 0 (m ← x; SnapshotMetadata_Index m).

Definition SnapshotMetadata_GetTerm (x : option SnapshotMetadata) : Z :=
  default 0 (m ← x; SnapshotMetadata_Term m).

Definition SnapshotMetadata_GetConfState (x : option SnapshotMetadata) : option ConfState :=
  m ← x; SnapshotMetadata_ConfState m.

Definition Snapshot_GetMetadata (x : option Snapshot) : option SnapshotMetadata :=
  s ← x; Snapshot_Metadata s.

#[global] Arguments SnapshotMetadata_GetIndex : simpl never.
#[global] Arguments SnapshotMetadata_GetTerm : simpl never.
#[global] Arguments Snapshot_GetMetadata : simpl never.

Abbreviation snap_index s := (SnapshotMetadata_GetIndex (Snapshot_GetMetadata s)).
Abbreviation snap_term s := (SnapshotMetadata_GetTerm (Snapshot_GetMetadata s)).

Inductive Message : Type := mkMessage {
  Message_Type : option MessageType;
  Message_To : option Z;
  Message_From : option Z;
  Message_Term : option Z;
  Message_LogTerm : option Z;
  Message_Index : option Z;
  Message_Entries : list Entry;
  Message_Commit : option Z;
  Message_Vote : option Z;
  Message_Snapshot : option Snapshot;
  Message_Reject : option bool;
  Message_RejectHint : option Z;
  Message_Context : option bytes;
  Message_Responses : list Message;
}.

Definition set_Message_Type (v : option MessageType) (r : Message) : Message :=
  mkMessage v (Message_To r) (Message_From r) (Message_Term r) (Message_LogTerm r)
    (Message_Index r) (Message_Entries r) (Message_Commit r) (Message_Vote r)
    (Message_Snapshot r) (Message_Reject r) (Message_RejectHint r) (Message_Context r)
    (Message_Responses r).

Definition set_Message_To (v : option Z) (r : Message) : Message :=
  mkMessage (Message_Type r) v (Message_From r) (Message_Term r) (Message_LogTerm r)
    (Message_Index r) (Message_Entries r) (Message_Commit r) (Message_Vote r)
    (Message_Snapshot r) (Message_Reject r) (Message_RejectHint r) (Message_Context r)
    (Message_Responses r).

Definition set_Message_From (v : option Z) (r : Message) : Message :=
  mkMessage (Message_Type r) (Message_To r) v (Message_Term r) (Message_LogTerm r)
    (Message_Index r) (Message_Entries r) (Message_Commit r) (Message_Vote r)
    (Message_Snapshot r) (Message_Reject r) (Message_RejectHint r) (Message_Context r)
    (Message_Responses r).

Definition set_Message_Term (v : option Z) (r : Message) : Message :=
  mkMessage (Message_Type r) (Message_To r) (Message_From r) v (Message_LogTerm r)
    (Message_Index r) (Message_Entries r) (Message_Commit r) (Message_Vote r)
    (Message_Snapshot r) (Message_Reject r) (Message_RejectHint r) (Message_Context r)
    (Message_Responses r).

Definition set_Message_LogTerm (v : option Z) (r : Message) : Message :=
  mkMessage (Message_Type r) (Message_To r) (Message_From r) (Message_Term r) v
    (Message_Index r) (Message_Entries r) (Message_Commit r) (Message_Vote r)
    (Message_Snapshot r) (Message_Reject r) (Message_RejectHint r) (Message_Context r)
    (Message_Responses r).

Definition set_Message_Index (v : option Z) (r : Message) : Message :=
  mkMessage (Message_Type r) (Message_To r) (Message_From r) (Message_Term r)
    (Message_LogTerm r) v (Message_Entries r) (Message_Commit r) (Message_Vote r)
    (Message_Snapshot r) (Message_Reject r) (Message_RejectHint r) (Message_Context r)
    (Message_Responses r).

Definition set_Message_Entries (v : list Entry) (r : Message) : Message :=
  mkMessage (Message_Type r) (Message_To r) (Message_From r) (Message_Term r)
    (Message_LogTerm r) (Message_Index r) v (Message_Commit r) (Message_Vote r)
    (Message_Snapshot r) (Message_Reject r) (Message_RejectHint r) (Message_Context r)
    (Message_Responses r).

Definition set_Message_Commit (v : option Z) (r : Message) : Message :=
  mkMessage (Message_Type r) (Message_To r) (Message_From r) (Message_Term r)
    (Message_LogTerm r) (Message_Index r) (Message_Entries r) v (Message_Vote r)
    (Message_Snapshot r) (Message_Reject r) (Message_RejectHint r) (Message_Context r)
    (Message_Responses r).

Definition set_Message_Vote (v : option Z) (r : Message) : Message :=
  mkMessage (Message_Type r) (Message_To r) (Message_From r) (Message_Term r)
    (Message_LogTerm r) (Message_Index r) (Message_Entries r) (Message_Commit r) v
    (Message_Snapshot r) (Message_Reject r) (Message_RejectHint r) (Message_Context r)
    (Message_Responses r).

Definition set_Message_Snapshot (v : option Snapshot) (r : Message) : Message :=
  mkMessage (Message_Type r) (Message_To r) (Message_From r) (Message_Term r)
    (Message_LogTerm r) (Message_Index r) (Message_Entries r) (Message_Commit r)
    (Message_Vote r) v (Message_Reject r) (Message_RejectHint r) (Message_Context r)
    (Message_Responses r).

Definition set_Message_Reject (v : option bool) (r : Message) : Message :=
  mkMessage (Message_Type r) (Message_To r) (Message_From r) (Message_Term r)
    (Message_LogTerm r) (Message_Index r) (Message_Entries r) (Message_Commit r)
    (Message_Vote r) (Message_Snapshot r) v (Message_RejectHint r) (Message_Context r)
    (Message_Responses r).

Definition set_Message_RejectHint (v : option Z) (r : Message) : Message :=
  mkMessage (Message_Type r) (Message_To r) (Message_From r) (Message_Term r)
    (Message_LogTerm r) (Message_Index r) (Message_Entries r) (Message_Commit r)
    (Message_Vote r) (Message_Snapshot r) (Message_Reject r) v (Message_Context r)
    (Message_Responses r).

Definition set_Message_Context (v : option bytes) (r : Message) : Message :=
  mkMessage (Message_Type r) (Message_To r) (Message_From r) (Message_Term r)
    (Message_LogTerm r) (Message_Index r) (Message_Entries r) (Message_Commit r)
    (Message_Vote r) (Message_Snapshot r) (Message_Reject r) (Message_RejectHint r) v
    (Message_Responses r).

Definition set_Message_Responses (v : list Message) (r : Message) : Message :=
  mkMessage (Message_Type r) (Message_To r) (Message_From r) (Message_Term r)
    (Message_LogTerm r) (Message_Index r) (Message_Entries r) (Message_Commit r)
    (Message_Vote r) (Message_Snapshot r) (Message_Reject r) (Message_RejectHint r)
    (Message_Context r) v.

Definition Message0 : Message :=
  mkMessage None None None None None None [] None None None None None None [].

Definition Message_GetType (x : Message) : MessageType := default MsgHup (Message_Type x).
Definition Message_GetTo (x : Message) : Z := default 0 (Message_To x).
Definition Message_GetFrom (x : Message) : Z := default 0 (Message_From x).
Definition Message_GetTerm (x : Message) : Z := default 0 (Message_Term x).
Definition Message_GetLogTerm (x : Message) : Z := default 0 (Message_LogTerm x).
Definition Message_GetIndex (x : Message) : Z := default 0 (Message_Index x).
Definition Message_GetCommit (x : Message) : Z := default 0 (Message_Commit x).
Definition Message_GetVote (x : Message) : Z := default 0 (Message_Vote x).
Definition Message_GetReject (x : Message) : bool := default false (Message_Reject x).
Definition Message_GetRejectHint (x : Message) : Z := default 0 (Message_RejectHint x).
Definition Message_GetEntries (x : Message) : list Entry := Message_Entries x.
Definition Message_GetSnapshot (x : Message) : option Snapshot := Message_Snapshot x.
Definition Message_GetContext (x : Message) : option bytes := Message_Context x.
Definition Message_GetResponses (x : Message) : list Message := Message_Responses x.

(** A message literal [&pb.Message{Type: t, To: to, ...}] starts from
    [Msg t to] and sets its further fields. *)
Definition Msg (t : MessageType) (to : option Z) : Message :=
  set_Message_To to (set_Message_Type (Some t) Message0).

Record HardState : Type := mkHardState {
  HardState_Term : option Z;
  HardState_Vote : option Z;
  HardState_Commit : option Z;
}.

#[export] Instance HardState_eq_dec : EqDecision HardState.
Proof. solve_decision. Defined.

Definition HardState_GetTerm (x : option HardState) : Z := default 0 (h ← x; HardState_Term h).

Definition HardState_GetVote (x : option HardState) : Z := default 0 (h ← x; HardState_Vote h).

Definition HardState_GetCommit (x : option HardState) : Z := default 0 (h ← x; HardState_Commit h).

Record ConfChange : Type := mkConfChange {
  ConfChange_Type : option ConfChangeType;
  ConfChange_NodeId : option Z;
  ConfChange_Context : option bytes;
  ConfChange_Id : option Z;
}.

Record ConfChangeSingle : Type := mkConfChangeSingle {
  ConfChangeSingle_Type : option ConfChangeType;
  ConfChangeSingle_NodeId : option Z;
}.

Record ConfChangeV2 : Type := mkConfChangeV2 {
  ConfChangeV2_Transition : option ConfChangeTransition;
  ConfChangeV2_Changes : list ConfChangeSingle;
  ConfChangeV2_Context : option bytes;
}.

Definition ConfChange_GetType (x : ConfChange) : ConfChangeType := default ConfChangeAddNode (ConfChange_Type x).
Definition ConfChange_GetNodeId (x : ConfChange) : Z := default 0 (ConfChange_NodeId x).
Definition ConfChangeSingle_GetType (x : ConfChangeSingle) : ConfChangeType := default ConfChangeAddNode (ConfChangeSingle_Type x).
Definition ConfChangeSingle_GetNodeId (x : ConfChangeSingle) : Z := default 0 (ConfChangeSingle_NodeId x).
Definition ConfChangeV2_GetTransition (x : ConfChangeV2) : ConfChangeTransition := default ConfChangeTransitionAuto (ConfChangeV2_Transition x).
Definition ConfChangeV2_GetChanges (x : ConfChangeV2) : list ConfChangeSingle := ConfChangeV2_Changes x.

(** The [ConfChangeI] interface with its two implementations. *)
Inductive ConfChangeI : Type :=
| CC1 (c : ConfChange)
| CC2 (c : ConfChangeV2).

Definition ConfChange_AsV2 (c : ConfChange) : ConfChangeV2 :=
  mkConfChangeV2 None
    [mkConfChangeSingle (Some (ConfChange_GetType c)) (Some (ConfChange_GetNodeId c))]
    (ConfChange_Context c).

Definition ConfChange_AsV1 (c : ConfChange) : option ConfChange := Some c.

Definition ConfChangeV2_AsV2 (c : ConfChangeV2) : ConfChangeV2 := c.

Definition ConfChangeV2_AsV1 (c : ConfChangeV2) : option ConfChange := None.

Definition AsV2 (c : ConfChangeI) : ConfChangeV2 :=
  match c with CC1 c => ConfChange_AsV2 c | CC2 c => ConfChangeV2_AsV2 c end.

Definition AsV1 (c : ConfChangeI) : option ConfChange :=
  match c with CC1 c => ConfChange_AsV1 c | CC2 c => ConfChangeV2_AsV1 c end.

(** [EnterJoint] returns (autoLeave, ok). *)
Definition ConfChangeV2_EnterJoint (c : ConfChangeV2) : outcome (bool * bool) :=
  if match ConfChangeV2_GetTransition c with ConfChangeTransitionAuto => false | _ => true end
     || (1 <? len (ConfChangeV2_Changes c))
  then match ConfChangeV2_GetTransition c with
       | ConfChangeTransitionAuto => Ok (true, true)
       | ConfChangeTransitionJointImplicit => Ok (true, true)
       | ConfChangeTransitionJointExplicit => Ok (false, true)
       | ConfChangeTransitionUnknown _ => Panic "unknown transition"
       end
  else Ok (false, false).

Definition ConfChangeV2_LeaveJoint (c : ConfChangeV2) : bool :=
  match ConfChangeV2_GetTransition c with ConfChangeTransitionAuto => true | _ => false end
  && (len (ConfChangeV2_GetChanges c) =? 0).

(** [EnsureConfState], [EnsureSnapshotMetadata], [EnsureSnapshot] fill in nil
    pointers; the argument is the possibly nil pointer. *)
Definition EnsureConfState (cs : option ConfState) : ConfState :=
  let cs := default ConfState0 cs in
  match ConfState_AutoLeave cs with
  | None => set_ConfState_AutoLeave (Some false) cs
  | Some _ => cs
  end.

Definition EnsureSnapshotMetadata (m : option SnapshotMetadata) : SnapshotMetadata :=
  let m := default (mkSnapshotMetadata None None None) m in
  mkSnapshotMetadata (Some (EnsureConfState (SnapshotMetadata_ConfState m)))
    (Some (default 0 (SnapshotMetadata_Index m)))
    (Some (default 0 (SnapshotMetadata_Term m))).

Definition EnsureSnapshot (s : option Snapshot) : Snapshot :=
  let s := default (mkSnapshot None None) s in
  set_Snapshot_Metadata (Some (EnsureSnapshotMetadata (Snapshot_Metadata s))) s.

(** ** The protobuf runtime

    [proto_Size], [Marshal] and [Unmarshal] come from the package
    google.golang.org/protobuf.  [Unmarshal] fails with [None].  The laws are
    the documented ones: a size is a non-negative [int], and decoding what was
    encoded gives the value back; the empty input decodes to the empty
    message. *)
Class Protobuf : Type := {
  proto_Size : Entry → Z;
  Marshal_ConfChange : ConfChange → bytes;
  Unmarshal_ConfChange : bytes → option ConfChange;
  Marshal_ConfChangeV2 : ConfChangeV2 → bytes;
  Unmarshal_ConfChangeV2 : bytes → option ConfChangeV2;
}.

Class ProtobufLaws (P : Protobuf) : Prop := {
  proto_Size_range : ∀ e, 0 <= proto_Size e < 9223372036854775808;
  Unmarshal_Marshal_ConfChange : ∀ c, Unmarshal_ConfChange (Marshal_ConfChange c) = Some c;
  Unmarshal_Marshal_ConfChangeV2 : ∀ c, Unmarshal_ConfChangeV2 (Marshal_ConfChangeV2 c) = Some c;
  Unmarshal_ConfChangeV2_nil : Unmarshal_ConfChangeV2 [] = Some (mkConfChangeV2 None [] None);
}.

(** [MarshalConfChange]: the entry type and the encoded data ([None] is nil
    data); the argument is the possibly nil interface value. *)
Definition MarshalConfChange `{Protobuf} (c : option ConfChangeI) : EntryType * option bytes :=
  match c with
  | None => (EntryConfChangeV2, None)
  | Some c =>
      match AsV1 c with
      | Some ccv1 => (EntryConfChange, Some (Marshal_ConfChange ccv1))
      | None => (EntryConfChangeV2, Some (Marshal_ConfChangeV2 (AsV2 c)))
      end
  end.

Lemma mt_eqb_spec a b : reflect (a = b) (mt_eqb a b).
Proof. destruct a, b; cbn; constructor; congruence. Qed.

Lemma mt_eqb_eq a b : mt_eqb a b = true ↔ a = b.
Proof. symmetry. apply (reflect_iff _ _ (mt_eqb_spec a b)). Qed.

(** ** A concrete runtime

    An instance of the class, used to show that its laws can hold: entries take
    ten bytes plus their payload (capped), and messages are encoded through
    their numbering ([Countable]), one byte per bit. *)

#[export] Instance ConfChangeType_eq_dec : EqDecision ConfChangeType.
Proof. solve_decision. Defined.
#[export] Instance ConfChangeTransition_eq_dec : EqDecision ConfChangeTransition.
Proof. solve_decision. Defined.
#[export] Instance ConfChange_eq_dec : EqDecision ConfChange.
Proof. solve_decision. Defined.
#[export] Instance ConfChangeSingle_eq_dec : EqDecision ConfChangeSingle.
Proof. solve_decision. Defined.
#[export] Instance ConfChangeV2_eq_dec : EqDecision ConfChangeV2.
Proof. solve_decision. Defined.

#[export] Instance byte_countable : Countable Byte.byte.
Proof. apply (inj_countable Byte.to_N Byte.of_N). apply Byte.of_to_N. Defined.

#[export] Instance ConfChangeType_countable : Countable ConfChangeType.
Proof.
  apply (inj_countable'
    (fun t => match t with
              | ConfChangeAddNode => inl 0 | ConfChangeRemoveNode => inl 1
              | ConfChangeUpdateNode => inl 2 | ConfChangeAddLearnerNode => inl 3
              | ConfChangeTypeUnknown n => inr n end)
    (fun c => match c with
              | inl 0 => ConfChangeAddNode | inl 1 => ConfChangeRemoveNode
              | inl 2 => ConfChangeUpdateNode | inl _ => ConfChangeAddLearnerNode
              | inr n => ConfChangeTypeUnknown n end)).
  by intros [].
Defined.

#[export] Instance ConfChangeTransition_countable : Countable ConfChangeTransition.
Proof.
  apply (inj_countable'
    (fun t => match t with
              | ConfChangeTransitionAuto => inl 0 | ConfChangeTransitionJointImplicit => inl 1
              | ConfChangeTransitionJointExplicit => inl 2
              | ConfChangeTransitionUnknown n => inr n end)
    (fun c => match c with
              | inl 0 => ConfChangeTransitionAuto | inl 1 => ConfChangeTransitionJointImplicit
              | inl _ => ConfChangeTransitionJointExplicit
              | inr n => ConfChangeTransitionUnknown n end)).
  by intros [].
Defined.

#[export] Instance ConfChange_countable : Countable ConfChange.
Proof.
  apply (inj_countable'
    (fun c => (ConfChange_Type c, ConfChange_NodeId c, ConfChange_Context c, ConfChange_Id c))
    (fun '(a, b, c, d) => mkConfChange a b c d)).
  by intros [].
Defined.

#[export] Instance ConfChangeSingle_countable : Countable ConfChangeSingle.
Proof.
  apply (inj_countable' (fun c => (ConfChangeSingle_Type c, ConfChangeSingle_NodeId c))
    (fun '(a, b) => mkConfChangeSingle a b)).
  by intros [].
Defined.

#[export] Instance ConfChangeV2_countable : Countable ConfChangeV2.
Proof.
  apply (inj_countable'
    (fun c => (ConfChangeV2_Transition c, ConfChangeV2_Changes c, ConfChangeV2_Context c))
    (fun '(a, b, c) => mkConfChangeV2 a b c)).
  by intros [].
Defined.

Fixpoint pos_to_bytes (p : positive) : bytes :=
  match p with
  | xH => [Byte.x02]
  | xO p => Byte.x00 :: pos_to_bytes p
  | xI p => Byte.x01 :: pos_to_bytes p
  end.

Fixpoint bytes_to_pos (l : bytes) : positive :=
  match l with
  | Byte.x00 :: l => xO (bytes_to_pos l)
  | Byte.x01 :: l => xI (bytes_to_pos l)
  | _ => xH
  end.

Lemma bytes_to_pos_to_bytes p : bytes_to_pos (pos_to_bytes p) = p.
Proof. induction p; cbn; congruence. Qed.

Definition sample_Protobuf : Protobuf := {|
  proto_Size e := 10 + Z.min (len (default [] (Entry_Data e))) 1000000;
  Marshal_ConfChange c := pos_to_bytes (encode c);
  Unmarshal_ConfChange b := decode (bytes_to_pos b);
  Marshal_ConfChangeV2 c := pos_to_bytes (encode c);
  Unmarshal_ConfChangeV2 b :=
    match b with
    | [] => Some (mkConfChangeV2 None [] None)
    | _ => decode (bytes_to_pos b)
    end;
|}.

Lemma sample_ProtobufLaws : ProtobufLaws sample_Protobuf.
Proof.
  split; cbn.
  - intros e. pose proof (len_nonneg (default [] (Entry_Data e))). lia.
  - intros c. by rewrite bytes_to_pos_to_bytes, decode_encode.
  - intros c. pose proof (bytes_to_pos_to_bytes (encode c)) as E.
    destruct (pos_to_bytes (encode c)) eqn:Eb; [by destruct (encode c)|].
    by rewrite E, decode_encode.
  - done.
Qed.

