(* ===== verification/Text.v ===== *)
(** * The textual form of configuration changes (src/raftpb/confchange.go)

    [ConfChangesFromString] and [ConfChangesToString], with what they use of the
    Go standard library: [strings.TrimSpace], [strings.Split] at spaces,
    [strconv.ParseUint] and decimal output.  A string is its bytes in UTF-8. *)
From S2P Require Import Prelude Proto.

(** ** Strings *)

Fixpoint strip_prefix (p s : bytes) : option bytes :=
  match p, s with
  | [], _ => Some s
  | b :: p, c :: s => if Byte.eqb b c then strip_prefix p s else None
  | _ :: _, [] => None
  end.

(** The encodings of the code points for which [unicode.IsSpace] holds. *)
Definition space_encodings : list bytes :=
  [[Byte.x09]; [Byte.x0a]; [Byte.x0b]; [Byte.x0c]; [Byte.x0d]; [Byte.x20]; [Byte.xc2; Byte.x85]; [Byte.xc2; Byte.xa0];
   [Byte.xe1; Byte.x9a; Byte.x80];
   [Byte.xe2; Byte.x80; Byte.x80]; [Byte.xe2; Byte.x80; Byte.x81]; [Byte.xe2; Byte.x80; Byte.x82]; [Byte.xe2; Byte.x80; Byte.x83];
   [Byte.xe2; Byte.x80; Byte.x84]; [Byte.xe2; Byte.x80; Byte.x85]; [Byte.xe2; Byte.x80; Byte.x86]; [Byte.xe2; Byte.x80; Byte.x87];
   [Byte.xe2; Byte.x80; Byte.x88]; [Byte.xe2; Byte.x80; Byte.x89]; [Byte.xe2; Byte.x80; Byte.x8a]; [Byte.xe2; Byte.x80; Byte.xa8];
   [Byte.xe2; Byte.x80; Byte.xa9]; [Byte.xe2; Byte.x80; Byte.xaf]; [Byte.xe2; Byte.x81; Byte.x9f]; [Byte.xe3; Byte.x80; Byte.x80]].

(** The rest of [s] after the first of [encs] that it starts with. *)
Fixpoint skip_one (encs : list bytes) (s : bytes) : option bytes :=
  match encs with
  | [] => None
  | p :: encs => match strip_prefix p s with Some s => Some s | None => skip_one encs s end
  end.

(** Every turn takes away at least one byte. *)
Fixpoint skip_all (fuel : nat) (encs : list bytes) (s : bytes) : bytes :=
  match fuel with
  | O => s
  | S fuel => match skip_one encs s with Some s => skip_all fuel encs s | None => s end
  end.

Definition TrimSpace (s : bytes) : bytes :=
  let s := skip_all (length s) space_encodings s in
  rev (skip_all (length s) (map (@rev _) space_encodings) (rev s)).

(** [strings.Split(s, sep)] for a separator of one byte. *)
Fixpoint Split (s : bytes) (sep : Byte.byte) : list bytes :=
  match s with
  | [] => [[]]
  | c :: s =>
      if Byte.eqb c sep then [] :: Split s sep
      else match Split s sep with
           | t :: ts => (c :: t) :: ts
           | [] => [[c]]
           end
  end.

(** ** Numbers *)

Definition ErrSyntax : error := ErrText "invalid syntax".
Definition ErrRange : error := ErrText "value out of range".

(** The loop of [ParseUint] in base 10, with 64 bits. *)
Fixpoint ParseUint_loop (n : Z) (s : bytes) : result Z :=
  match s with
  | [] => Val n
  | c :: s =>
      let d := Z_of_byte c - 48 in
      if (d <? 0) || (9 <? d) then Err ErrSyntax
      else if MaxUint64 / 10 + 1 <=? n then Err ErrRange
      else
        let n := (n * 10) mod two64 in
        let n1 := n +! d in
        if (n1 <? n) || (MaxUint64 <? n1) then Err ErrRange else ParseUint_loop n1 s
  end.

Definition ParseUint (s : bytes) : result Z :=
  match s with [] => Err ErrSyntax | _ => ParseUint_loop 0 s end.

(** [%d] for a [uint64]: the digits are written from the last one on, and 20 are
    enough. *)
Fixpoint format_loop (fuel : nat) (n : Z) (buf : bytes) : bytes :=
  match fuel with
  | O => buf
  | S fuel =>
      let buf := byte_of_Z (48 + n mod 10) :: buf in
      if n <? 10 then buf else format_loop fuel (n / 10) buf
  end.

Definition format_uint (n : Z) : bytes := format_loop 20 n [].

(** ** Configuration changes *)

Definition letter_type (c : Byte.byte) : option ConfChangeType :=
  match c with
  | Byte.x76 => Some ConfChangeAddNode
  | Byte.x6c => Some ConfChangeAddLearnerNode
  | Byte.x72 => Some ConfChangeRemoveNode
  | Byte.x75 => Some ConfChangeUpdateNode
  | _ => None
  end.

Definition ConfChange_token (tok : bytes) : result ConfChangeSingle :=
  match tok with
  | c :: d :: ds =>
      match letter_type c with
      | None => Err (ErrText "unknown input")
      | Some t =>
          match ParseUint (d :: ds) with
          | Err x => Err x
          | Val id => Val (mkConfChangeSingle (Some t) (Some id))
          end
      end
  | _ => Err (ErrText "unknown token")
  end.

Fixpoint ConfChange_tokens (toks : list bytes) : result (list ConfChangeSingle) :=
  match toks with
  | [] => Val []
  | tok :: toks =>
      match ConfChange_token tok with
      | Err x => Err x
      | Val cc => match ConfChange_tokens toks with Err x => Err x | Val ccs => Val (cc :: ccs) end
      end
  end.

Definition ConfChangesFromString (s : bytes) : result (list ConfChangeSingle) :=
  let toks := Split (TrimSpace s) Byte.x20 in
  let toks := match toks with [] :: _ => [] | _ => toks end in
  ConfChange_tokens toks.

Definition type_letter (t : ConfChangeType) : bytes :=
  match t with
  | ConfChangeAddNode => [Byte.x76]
  | ConfChangeAddLearnerNode => [Byte.x6c]
  | ConfChangeRemoveNode => [Byte.x72]
  | ConfChangeUpdateNode => [Byte.x75]
  | ConfChangeTypeUnknown _ => [Byte.x75; Byte.x6e; Byte.x6b; Byte.x6e; Byte.x6f; Byte.x77; Byte.x6e]
  end.

Fixpoint ConfChanges_write (i : Z) (ccs : list ConfChangeSingle) : bytes :=
  match ccs with
  | [] => []
  | cc :: ccs =>
      (if 0 <? i then [Byte.x20] else []) ++ type_letter (ConfChangeSingle_GetType cc)
        ++ format_uint (ConfChangeSingle_GetNodeId cc) ++ ConfChanges_write (i + 1) ccs
  end.

Definition ConfChangesToString (ccs : list ConfChangeSingle) : bytes := ConfChanges_write 0 ccs.

(** ** Printing and reading back *)

Definition is_digit (c : Byte.byte) : bool := (0 <=? Z_of_byte c - 48) && (Z_of_byte c - 48 <=? 9).

Lemma ParseUint_loop_app n s1 s2 :
  ParseUint_loop n (s1 ++ s2) = match ParseUint_loop n s1 with Val m => ParseUint_loop m s2 | Err x => Err x end.
Proof.
  revert n. induction s1 as [|c s1 IH]; intros n; [done|]. cbn [ParseUint_loop app]. destruct (_ || _); [done|]. destruct (_ <=? _); [done|].
  cbn zeta. destruct (_ || _); [done|]. apply IH.
Qed.

Lemma digit_value k : 0 <= k <= 9 → Z_of_byte (byte_of_Z (48 + k)) - 48 = k.
Proof. intros Hk. rewrite Z_of_byte_of_Z, Z.mod_small by lia. lia. Qed.

(** One more digit. *)
Lemma ParseUint_digit n k :
  0 <= n → 0 <= k <= 9 → n * 10 + k <= MaxUint64 → ParseUint_loop n [byte_of_Z (48 + k)] = Val (n * 10 + k).
Proof.
  intros Hn Hk Hm. cbn [ParseUint_loop]. rewrite digit_value by done. rewrite (proj2 (Z.ltb_ge k 0)), (proj2 (Z.ltb_ge 9 k)) by lia. cbn [orb].
  change (MaxUint64 / 10 + 1) with 1844674407370955162. rewrite (proj2 (Z.leb_gt 1844674407370955162 n)) by lia. cbn zeta. rewrite Z.mod_small by lia.
  rewrite add64_small by lia. repeat zcase; done || lia.
Qed.

Lemma format_loop_spec fuel n buf :
  (0 < fuel)%nat → 0 <= n < 10 ^ Z.of_nat fuel → n <= MaxUint64 →
  ∃ ds, format_loop fuel n buf = ds ++ buf ∧ ds ≠ [] ∧ forallb is_digit ds = true ∧ ParseUint_loop 0 ds = Val n.
Proof.
  revert n buf. induction fuel as [|fuel IH]; intros n buf Hf Hn Hm; [lia|]. cbn [format_loop]. set (c := byte_of_Z (48 + n mod 10)).
  pose proof (Z.mod_pos_bound n 10 ltac:(lia)) as Hk. pose proof (Z.div_mod n 10 ltac:(lia)) as Hdm.
  assert (is_digit c = true) as Hc by (unfold is_digit, c; rewrite digit_value by lia; lia).
  zcase.
  - exists [c]. split; [done|]. split; [done|]. split; [by cbn; rewrite Hc|].
    unfold c. rewrite ParseUint_digit by lia. rewrite Z.mod_small by lia. done.
  - rewrite Nat2Z.inj_succ, Z.pow_succ_r in Hn by lia. destruct fuel as [|fuel]; [cbn in Hn; lia|].
    destruct (IH (n / 10) (c :: buf)) as (ds & E & Hne & Hd & Hp); [lia| |lia|].
    { split; [apply Z.div_pos; lia|]. apply Z.div_lt_upper_bound; lia. }
    exists (ds ++ [c]). rewrite E, <- app_assoc. split; [done|]. split; [by destruct ds|].
    split; [rewrite forallb_app, Hd; cbn; by rewrite Hc|]. rewrite ParseUint_loop_app, Hp. unfold c. rewrite ParseUint_digit by lia. f_equal. lia.
Qed.

(** Reading a printed number. *)
Lemma format_uint_spec n :
  is_u64 n → format_uint n ≠ [] ∧ forallb is_digit (format_uint n) = true ∧ ParseUint (format_uint n) = Val n.
Proof.
  intros Hn. destruct (format_loop_spec 20 n []) as (ds & E & Hne & Hd & Hp); [lia|unfold is_u64 in Hn; lia|unfold is_u64 in Hn; lia|].
  unfold format_uint. rewrite E, app_nil_r. split_and!; try done. by destruct ds.
Qed.

Lemma Split_app t s sep :
  forallb (fun c => negb (Byte.eqb c sep)) t = true →
  Split (t ++ s) sep = match Split s sep with u :: us => (t ++ u) :: us | [] => [t] end.
Proof.
  induction t as [|c t IH]; cbn; [intros _; by destruct s as [|b s]; [|cbn; destruct (Byte.eqb b sep); [|destruct (Split s sep)]]|].
  rewrite andb_true_iff. intros [Hc Ht]. destruct (Byte.eqb c sep); [done|]. rewrite IH by done. by destruct (Split s sep).
Qed.

Lemma digit_no_space c : is_digit c = true → negb (Byte.eqb c Byte.x20) = true.
Proof. by destruct c. Qed.

Lemma digit_not_last c s : is_digit c = true → skip_one (map (@rev _) space_encodings) (c :: s) = None.
Proof. destruct c; done || (intros _; reflexivity). Qed.

Definition known_change (cc : ConfChangeSingle) : bool :=
  match ConfChangeSingle_GetType cc with ConfChangeTypeUnknown _ => false | _ => true end &&
  (0 <=? ConfChangeSingle_GetNodeId cc) && (ConfChangeSingle_GetNodeId cc <=? MaxUint64).

Definition change_token (cc : ConfChangeSingle) : bytes :=
  type_letter (ConfChangeSingle_GetType cc) ++ format_uint (ConfChangeSingle_GetNodeId cc).

(** What a change means, with its fields filled in. *)
Definition full_change (cc : ConfChangeSingle) : ConfChangeSingle :=
  mkConfChangeSingle (Some (ConfChangeSingle_GetType cc)) (Some (ConfChangeSingle_GetNodeId cc)).

Lemma change_token_spec cc :
  known_change cc = true →
  ConfChange_token (change_token cc) = Val (full_change cc) ∧
  forallb (fun c => negb (Byte.eqb c Byte.x20)) (change_token cc) = true ∧
  (∀ s, skip_one space_encodings (change_token cc ++ s) = None) ∧
  ∃ t d, change_token cc = t ++ [d] ∧ is_digit d = true.
Proof.
  unfold known_change. rewrite !andb_true_iff. intros [[Ht H0] H1].
  destruct (format_uint_spec (ConfChangeSingle_GetNodeId cc)) as (Hne & Hd & Hp); [unfold is_u64; lia|].
  assert (∃ c, type_letter (ConfChangeSingle_GetType cc) = [c] ∧ letter_type c = Some (ConfChangeSingle_GetType cc)) as (c & Hc & Hl)
    by (destruct (ConfChangeSingle_GetType cc); try done; eexists; split; reflexivity).
  unfold change_token. rewrite Hc. set (ds := format_uint _) in *. cbn [app]. split_and!.
  - destruct ds as [|d ds]; [done|]. cbn [ConfChange_token]. by rewrite Hl, Hp.
  - cbn. apply andb_true_iff. split; [by destruct c|]. rewrite forallb_forall in Hd |- *. intros x Hx. by apply digit_no_space, Hd.
  - intros s. destruct c; done || reflexivity.
  - destruct ds as [|d ds _] using rev_ind; [done|]. exists (c :: ds), d. split; [done|]. rewrite forallb_app in Hd. apply andb_true_iff in Hd as [_ Hd]. cbn in Hd.
    by rewrite andb_true_r in Hd.
Qed.

Lemma write_split i ccs :
  0 < i → forallb known_change ccs = true → Split (ConfChanges_write i ccs) Byte.x20 = [] :: map change_token ccs.
Proof.
  revert i. induction ccs as [|cc ccs IH]; intros i Hi; [done|]. cbn [forallb ConfChanges_write]. rewrite andb_true_iff. intros [Hc Hcs].
  rewrite (proj2 (Z.ltb_lt 0 i)) by done. cbn [app Split map]. change (Byte.eqb Byte.x20 Byte.x20) with true. cbn iota.
  rewrite app_assoc. fold (change_token cc). rewrite Split_app by (by apply change_token_spec). rewrite IH by (done || lia). by rewrite app_nil_r.
Qed.

Lemma write_first cc ccs :
  ConfChangesToString (cc :: ccs) = change_token cc ++ ConfChanges_write 1 ccs.
Proof. unfold ConfChangesToString, change_token. cbn. by rewrite <- app_assoc. Qed.

Lemma write_last cc ccs :
  known_change cc = true → forallb known_change ccs = true → ∃ t d, ConfChangesToString (cc :: ccs) = t ++ [d] ∧ is_digit d = true.
Proof.
  intros Hc Hcs. rewrite write_first. assert (∀ i, ccs ≠ [] → ∃ t d, ConfChanges_write i ccs = t ++ [d] ∧ is_digit d = true) as Hw.
  { clear Hc cc. induction ccs as [|cc ccs IH]; [done|]. intros i _. cbn [forallb] in Hcs. apply andb_true_iff in Hcs as [Hc Hcs].
    cbn [ConfChanges_write]. rewrite (app_assoc (type_letter _)). fold (change_token cc). destruct ccs as [|cc' ccs].
    - destruct (change_token_spec cc Hc) as (_ & _ & _ & t & d & -> & Hd). cbn [ConfChanges_write]. rewrite app_nil_r, app_assoc. eauto.
    - destruct (IH Hcs (i + 1)) as (t & d & -> & Hd); [done|]. rewrite !app_assoc. eauto. }
  destruct ccs as [|cc' ccs].
  - destruct (change_token_spec cc Hc) as (_ & _ & _ & t & d & -> & Hd). cbn [ConfChanges_write]. rewrite app_nil_r. eauto.
  - destruct (Hw 1) as (t & d & -> & Hd); [done|]. rewrite app_assoc. eauto.
Qed.

Lemma skip_none fuel encs s : skip_one encs s = None → skip_all fuel encs s = s.
Proof. destruct fuel; cbn; [done|]. by intros ->. Qed.

Lemma TrimSpace_none s t d :
  skip_one space_encodings s = None → s = t ++ [d] → is_digit d = true → TrimSpace s = s.
Proof.
  intros H1 -> Hd. unfold TrimSpace. rewrite (skip_none _ _ _ H1). rewrite rev_unit. rewrite skip_none by (by apply digit_not_last). cbn. by rewrite rev_involutive.
Qed.

(** Printing known changes and reading them back. *)
Lemma ConfChanges_print_read ccs :
  forallb known_change ccs = true → ConfChangesFromString (ConfChangesToString ccs) = Val (map full_change ccs).
Proof.
  destruct ccs as [|cc ccs]; [done|]. cbn [forallb]. rewrite andb_true_iff. intros [Hc Hcs].
  destruct (write_last cc ccs Hc Hcs) as (t & d & Et & Hd). pose proof (change_token_spec cc Hc) as (Hp & Hsp & Hsk & t0 & d0 & E0 & _).
  unfold ConfChangesFromString. rewrite (TrimSpace_none _ t d); [|by rewrite write_first|done|done]. rewrite write_first.
  rewrite Split_app, write_split by (done || lia). rewrite app_nil_r. rewrite E0 at 1.
  assert (∃ c s, t0 ++ [d0] = c :: s) as (c & s & ->) by (destruct t0; eexists _, _; reflexivity).
  assert (∀ l, forallb known_change l = true → ConfChange_tokens (map change_token l) = Val (map full_change l)) as Hl.
  { clear. intros l. induction l as [|x l IH]; [done|]. cbn [forallb map ConfChange_tokens]. rewrite andb_true_iff. intros [Hx Hl].
    destruct (change_token_spec x Hx) as (-> & _). by rewrite IH. }
  apply (Hl (cc :: ccs)). cbn [forallb]. by rewrite Hc, Hcs.
Qed.

(** *** What is read *)

Lemma ParseUint_loop_range n s m : 0 <= n <= MaxUint64 → ParseUint_loop n s = Val m → 0 <= m <= MaxUint64.
Proof.
  revert n. induction s as [|c s IH]; intros n Hn; cbn [ParseUint_loop]; [by intros [= <-]|]. destruct (_ || _); [done|]. destruct (_ <=? _); [done|].
  cbn zeta. destruct (_ || _) eqn:Eo; [done|]. apply IH. pose proof (add64_u64 ((n * 10) mod two64) (Z_of_byte c - 48)) as Hu. unfold is_u64 in Hu. lia.
Qed.

Lemma ConfChange_token_known tok cc : ConfChange_token tok = Val cc → known_change cc = true ∧ full_change cc = cc.
Proof.
  destruct tok as [|c [|d ds]]; try done. cbn [ConfChange_token]. destruct (letter_type c) as [t|] eqn:El; [|done].
  destruct (ParseUint (d :: ds)) as [id|] eqn:Ep; [|done]. intros [= <-]. split; [|done].
  apply ParseUint_loop_range in Ep; [|lia]. unfold known_change. cbn. rewrite !(proj2 (Z.leb_le _ _)) by lia. rewrite !andb_true_r.
  by destruct c; try done; injection El as <-.
Qed.

Lemma ConfChange_tokens_known toks ccs :
  ConfChange_tokens toks = Val ccs → forallb known_change ccs = true ∧ map full_change ccs = ccs.
Proof.
  revert ccs. induction toks as [|tok toks IH]; intros ccs; cbn [ConfChange_tokens]; [by intros [= <-]|].
  destruct (ConfChange_token tok) as [cc|] eqn:E; [|done]. apply ConfChange_token_known in E as [Hk Hf].
  destruct (ConfChange_tokens toks) as [l|]; [|done]. intros [= <-]. destruct (IH l eq_refl) as [Hl Hm]. cbn. by rewrite Hk, Hl, Hf, Hm.
Qed.

(** C22. The textual form of configuration changes round-trips: changes of known
    types that are printed are read back as they are (fields that are not set
    come back with their defaults), and whatever text is accepted, in whatever
    spacing and with whatever leading zeros, stands for changes of known types
    with ids in range that print to a text with the same meaning. *)
Theorem ConfChanges_roundtrip (ccs : list ConfChangeSingle) (s : bytes) :
  (forallb known_change ccs = true → ConfChangesFromString (ConfChangesToString ccs) = Val (map full_change ccs)) ∧
  (ConfChangesFromString s = Val ccs →
     forallb known_change ccs = true ∧ ConfChangesFromString (ConfChangesToString ccs) = Val ccs).
Proof.
  split; [apply ConfChanges_print_read|]. intros E. apply ConfChange_tokens_known in E as [Hk Hf]. split; [done|].
  by rewrite ConfChanges_print_read, Hf.
Qed.

Definition text_changes : list ConfChangeSingle :=
  [mkConfChangeSingle None (Some 1); mkConfChangeSingle (Some ConfChangeAddLearnerNode) (Some 18446744073709551615)].

(** Spaces, a tab, a no-break space, and leading zeros. *)
Definition text_input : bytes :=
  [Byte.x20; Byte.xc2; Byte.xa0; Byte.x76; Byte.x30; Byte.x37; Byte.x20; Byte.x72; Byte.x33; Byte.x09].

Lemma ConfChanges_roundtrip_witness :
  ConfChangesFromString (ConfChangesToString text_changes) = Val (map full_change text_changes) ∧
  ∃ ccs, ConfChangesFromString text_input = Val ccs ∧ length ccs = 2%nat ∧ ConfChangesFromString (ConfChangesToString ccs) = Val ccs.
Proof.
  split; [apply (ConfChanges_roundtrip text_changes text_input); vm_compute; reflexivity|].
  exists [mkConfChangeSingle (Some ConfChangeAddNode) (Some 7); mkConfChangeSingle (Some ConfChangeRemoveNode) (Some 3)].
  split; [vm_compute; reflexivity|]. split; [reflexivity|].
  apply (ConfChanges_roundtrip _ text_input). vm_compute. reflexivity.
Defined.

(** Text that is refused. *)
Example ConfChanges_refused :
  ConfChangesFromString [Byte.x76] = Err (ErrText "unknown token") ∧
  ConfChangesFromString [Byte.x78; Byte.x31] = Err (ErrText "unknown input") ∧
  ConfChangesFromString [Byte.x76; Byte.x31; Byte.x20; Byte.x20; Byte.x72; Byte.x32] = Err (ErrText "unknown token") ∧
  ConfChangesFromString (Byte.x76 :: format_uint 18446744073709551615 ++ [Byte.x30]) = Err ErrRange.
Proof. vm_compute. split_and!; reflexivity. Qed.
