(* ===== verification/Network.v ===== *)
(** * The network of the tests (src/rafttest/network.go)

    Every node has a queue of received messages.  [send] looks up the queue of
    the receiver and the settings of the connection under the mutex, and goes on
    without it: it may drop or delay the message, and puts a copy of it into the
    queue unless that is full.  Other operations may come in between, so that a
    send is two events here.  In the same way [recvFrom] hands out a channel under
    the mutex, and its caller receives from it later, whatever has become of the
    connection.  Rates are finite float64 numbers, taken as
    rationals; the source of random numbers is a parameter. *)
From Stdlib Require Import QArith.
From S2P Require Import Prelude Proto.

(** [proto.Marshal] and [proto.Unmarshal] on messages; [None] is an error. *)
Class MessageCodec : Type := {
  Marshal_Message : Message → option bytes;
  Unmarshal_Message : bytes → option Message;
}.

(** Decoding what was encoded gives an equal message. *)
Class MessageCodecLaws (C : MessageCodec) : Prop := {
  Unmarshal_Marshal_Message : ∀ m b, Marshal_Message m = Some b → Unmarshal_Message b = Some m;
}.

Abbreviation conn := (Z * Z)%type.   (* from, to *)

Record delay : Type := mkdelay { delay_d : Z; delay_rate : Q }.

Record raftNetwork : Type := mkraftNetwork {
  net_rand : nat;                    (* numbers drawn so far *)
  net_disconnected : gmap Z bool;
  net_dropmap : gmap conn Q;
  net_delaymap : gmap conn delay;
  net_recvQueues : gmap Z (list Message);
}.

(** The capacity of a queue. *)
Definition queue_cap : Z := 1024.

Definition newRaftNetwork (nodes : list Z) : raftNetwork :=
  mkraftNetwork 0 ∅ ∅ ∅ (foldl (fun qs n => <[n := []]> qs) ∅ nodes).

Section network.
Context `{MessageCodec}.
Context (Float64 : nat → Q).   (* the number drawn by the k-th call *)
Implicit Types rn : raftNetwork.

Definition set_net_rand (k : nat) rn : raftNetwork :=
  mkraftNetwork k (net_disconnected rn) (net_dropmap rn) (net_delaymap rn) (net_recvQueues rn).

Definition set_net_recvQueues (qs : gmap Z (list Message)) rn : raftNetwork :=
  mkraftNetwork (net_rand rn) (net_disconnected rn) (net_dropmap rn) (net_delaymap rn) qs.

(** The channel that [send] and [recvFrom] see: nil when the node is
    disconnected or unknown. *)
Definition open_queue rn (id : Z) : bool :=
  match net_recvQueues rn !! id with
  | None => false
  | Some _ => negb (default false (net_disconnected rn !! id))
  end.

(** A send after it has released the mutex. *)
Record pending_send : Type := mkpending_send {
  ps_msg : Message;
  ps_to : bool;       (* a channel was found *)
  ps_drop : Q;
  ps_delay : delay;
}.

Definition send_begin (m : Message) rn : pending_send :=
  let c := (Message_GetFrom m, Message_GetTo m) in
  mkpending_send m (open_queue rn (Message_GetTo m)) (default 0%Q (net_dropmap rn !! c))
    (default (mkdelay 0 0%Q) (net_delaymap rn !! c)).

(** [x != 0 && rand.Float64() < rate]: a number is drawn when [x] is not zero. *)
Definition chance (x : bool) (rate : Q) rn : bool * raftNetwork :=
  if x then (negb (Qle_bool rate (Float64 (net_rand rn))), set_net_rand (S (net_rand rn)) rn) else (false, rn).

(** The copy that is put into the channel. *)
Definition copy_message (m : Message) : outcome Message :=
  match Marshal_Message m with
  | None => Panic "proto: Marshal"
  | Some b => match Unmarshal_Message b with None => Panic "proto: Unmarshal" | Some m => Ok m end
  end.

Definition enqueue (id : Z) (m : Message) rn : raftNetwork :=
  match net_recvQueues rn !! id with
  | Some q => if len q <? queue_cap then set_net_recvQueues (<[id := q ++ [m]]> (net_recvQueues rn)) rn else rn
  | None => rn
  end.

Definition send_finish (p : pending_send) rn : outcome raftNetwork :=
  if negb (ps_to p) then Ok rn
  else
    let '(dropped, rn) := chance (negb (Qeq_bool (ps_drop p) 0)) (ps_drop p) rn in
    if (dropped : bool) then Ok rn
    else
      let '(delayed, rn) := chance (negb (delay_d (ps_delay p) =? 0)) (delay_rate (ps_delay p)) rn in
      rn ← (if (delayed : bool) then
              if delay_d (ps_delay p) <=? 0 then Panic "invalid argument to Int63n"
              else Ok (set_net_rand (S (net_rand rn)) rn)
            else Ok rn);
      cm ← copy_message (ps_msg p);
      Ok (enqueue (Message_GetTo (ps_msg p)) cm rn).

(** A send that is not interrupted. *)
Definition network_send (m : Message) rn : outcome raftNetwork := send_finish (send_begin m rn) rn.

(** The channel of a node, named by the node; [None] is the nil channel. *)
Definition network_recvFrom (from : Z) rn : option Z := if open_queue rn from then Some from else None.

(** Receiving from the channel of a node, which the receiver holds; [None] when
    it blocks. *)
Definition channel_receive (id : Z) rn : option (Message * raftNetwork) :=
  match net_recvQueues rn !! id with
  | Some (m :: q) => Some (m, set_net_recvQueues (<[id := q]> (net_recvQueues rn)) rn)
  | _ => None
  end.

Definition network_drop (from to : Z) (rate : Q) rn : raftNetwork :=
  mkraftNetwork (net_rand rn) (net_disconnected rn) (<[(from, to) := rate]> (net_dropmap rn)) (net_delaymap rn) (net_recvQueues rn).

Definition network_delay (from to d : Z) (rate : Q) rn : raftNetwork :=
  mkraftNetwork (net_rand rn) (net_disconnected rn) (net_dropmap rn) (<[(from, to) := mkdelay d rate]> (net_delaymap rn)) (net_recvQueues rn).

Definition network_disconnect (id : Z) rn : raftNetwork :=
  mkraftNetwork (net_rand rn) (<[id := true]> (net_disconnected rn)) (net_dropmap rn) (net_delaymap rn) (net_recvQueues rn).

Definition network_connect (id : Z) rn : raftNetwork :=
  mkraftNetwork (net_rand rn) (<[id := false]> (net_disconnected rn)) (net_dropmap rn) (net_delaymap rn) (net_recvQueues rn).

(** ** Runs *)

(** What happens in a network, in the order in which it takes effect. *)
Inductive net_event : Type :=
  | ESend (m : Message)                     (* a send starts, and releases the mutex *)
  | EFinish (k : nat)                       (* the k-th of the started sends ends *)
  | ERecvFrom (id : Z)                      (* recvFrom hands out a channel *)
  | EReceive (k : nat)                      (* a receipt from the k-th channel handed out *)
  | EDrop (from to : Z) (rate : Q)
  | EDelay (from to d : Z) (rate : Q)
  | EDisconnect (id : Z)
  | EConnect (id : Z).

(** The network with the sends that are under way and the channels that were
    handed out to receivers, and what has been sent and received so far. *)
Record net_state : Type := mknet_state {
  ns_net : raftNetwork;
  ns_pending : list pending_send;
  ns_channels : list (option Z);
  ns_sent : list Message;
  ns_received : list (Z * Message);
}.

Definition on_net (f : raftNetwork → raftNetwork) (st : net_state) : net_state :=
  mknet_state (f (ns_net st)) (ns_pending st) (ns_channels st) (ns_sent st) (ns_received st).

(** [None] when the event is not possible, or panics. *)
Definition net_do (e : net_event) (st : net_state) : option net_state :=
  match e with
  | ESend m => Some (mknet_state (ns_net st) (ns_pending st ++ [send_begin m (ns_net st)]) (ns_channels st) (ns_sent st) (ns_received st))
  | EFinish k =>
      p ← ns_pending st !! k;
      match send_finish p (ns_net st) with
      | Ok rn => Some (mknet_state rn (delete k (ns_pending st)) (ns_channels st) (ns_sent st ++ [ps_msg p]) (ns_received st))
      | Panic _ => None
      end
  | ERecvFrom id =>
      Some (mknet_state (ns_net st) (ns_pending st) (ns_channels st ++ [network_recvFrom id (ns_net st)]) (ns_sent st) (ns_received st))
  | EReceive k =>
      c ← ns_channels st !! k;
      id ← c;
      x ← channel_receive id (ns_net st);
      Some (mknet_state x.2 (ns_pending st) (ns_channels st) (ns_sent st) (ns_received st ++ [(id, x.1)]))
  | EDrop from to rate => Some (on_net (network_drop from to rate) st)
  | EDelay from to d rate => Some (on_net (network_delay from to d rate) st)
  | EDisconnect id => Some (on_net (network_disconnect id) st)
  | EConnect id => Some (on_net (network_connect id) st)
  end.

Fixpoint net_run (es : list net_event) (st : net_state) : option net_state :=
  match es with
  | [] => Some st
  | e :: es => st ← net_do e st; net_run es st
  end.

Definition net_start (nodes : list Z) : net_state := mknet_state (newRaftNetwork nodes) [] [] [] [].

Definition received_by (id : Z) (st : net_state) : list Message := (filter (fun x => x.1 = id) (ns_received st)).*2.

Definition sent_to (id : Z) (st : net_state) : list Message := filter (fun m => Message_GetTo m = id) (ns_sent st).

(** Queues do not overflow, and a node has received, or will receive, messages
    that were sent to it, in the order in which they were sent, none twice. *)
Definition net_inv (st : net_state) : Prop :=
  ∀ id q, net_recvQueues (ns_net st) !! id = Some q →
    len q <= queue_cap ∧ received_by id st ++ q `sublist_of` sent_to id st.

Lemma newRaftNetwork_queues nodes id q : net_recvQueues (newRaftNetwork nodes) !! id = Some q → q = [].
Proof.
  cbn. assert (∀ (qs : gmap Z (list Message)), (∀ q, qs !! id = Some q → q = []) →
    foldl (fun qs n => <[n := []]> qs) qs nodes !! id = Some q → q = []) as Hg.
  { induction nodes as [|n nodes IH]; intros qs Hq; cbn; [apply Hq|]. apply IH. intros q0.
    rewrite lookup_insert_Some. intros [[_ <-]|[_ ?]]; [done|by apply Hq]. }
  apply Hg. intros q0. by rewrite lookup_empty.
Qed.

Context `{!MessageCodecLaws _}.

(** What a send does to the queues. *)
Lemma send_finish_queues p rn rn' :
  send_finish p rn = Ok rn' →
  net_recvQueues rn' = net_recvQueues rn ∨
  ∃ q, net_recvQueues rn !! Message_GetTo (ps_msg p) = Some q ∧ len q < queue_cap ∧
    net_recvQueues rn' = <[Message_GetTo (ps_msg p) := q ++ [ps_msg p]]> (net_recvQueues rn).
Proof.
  assert (∀ x rate rn, net_recvQueues (chance x rate rn).2 = net_recvQueues rn) as Hch by (by intros [] rate rn0).
  unfold send_finish. destruct (negb _); [intros [= <-]; by left|].
  pose proof (Hch (negb (Qeq_bool (ps_drop p) 0)) (ps_drop p) rn) as H1. destruct (chance _ _ rn) as [dr rn1]. cbn in H1. rewrite <- H1. clear H1.
  destruct dr; [intros [= <-]; by left|].
  pose proof (Hch (negb (delay_d (ps_delay p) =? 0)) (delay_rate (ps_delay p)) rn1) as H2. destruct (chance _ _ rn1) as [de rn2]. cbn in H2. rewrite <- H2. clear H2.
  intros (rn3 & E3 & E)%bind_Ok. assert (net_recvQueues rn3 = net_recvQueues rn2) as <-
    by (destruct de; [destruct (_ <=? _); [done|]|]; by injection E3 as <-).
  apply bind_Ok in E as (cm & Ec & [= <-]). unfold copy_message in Ec. destruct (Marshal_Message (ps_msg p)) as [b|] eqn:Eb; [|done].
  rewrite (Unmarshal_Marshal_Message _ _ Eb) in Ec. injection Ec as <-. unfold enqueue. destruct (net_recvQueues rn3 !! _) as [q|] eqn:Eq; [|by left].
  zcase; [|by left]. right. exists q. split_and!; [done|lia|done].
Qed.

Lemma net_inv_do e st st' : net_inv st → net_do e st = Some st' → net_inv st'.
Proof.
  intros Hi. destruct e as [m|k|id|k| | | |]; cbn [net_do]; try (intros [= <-]; exact Hi).
  - intros (p & Hp & E)%bind_Some. destruct (send_finish p (ns_net st)) as [rn'|] eqn:Es; [|done]. injection E as <-.
    intros id q. cbn. unfold sent_to, received_by. cbn. rewrite filter_app. fold (received_by id st) (sent_to id st). set (t := Message_GetTo (ps_msg p)).
    assert (∀ q0, net_recvQueues (ns_net st) !! id = Some q0 → len q0 <= queue_cap ∧
      received_by id st ++ q0 `sublist_of` sent_to id st ++ filter (fun m => Message_GetTo m = id) [ps_msg p]) as Hk.
    { intros q0 Hq0. destruct (Hi id q0 Hq0). split; [done|]. by apply sublist_inserts_r. }
    apply send_finish_queues in Es as [->|(q1 & Hq1 & Hlt & ->)]; [apply Hk|].
    rewrite lookup_insert_Some. intros [[<- <-]|[Hne Hq]]; [|by apply Hk]. destruct (Hi _ _ Hq1) as [Hc Hs]. split.
    + rewrite len_app, len_cons, len_nil. lia.
    + rewrite filter_cons_True, filter_nil by done. rewrite app_assoc. by apply sublist_app.
  - intros (c & _ & (id & _ & ([m rn'] & E & [= <-])%bind_Some)%bind_Some)%bind_Some. unfold channel_receive in E.
    destruct (net_recvQueues (ns_net st) !! id) as [[|m0 q0]|] eqn:Eq; try done. injection E as -> <-.
    intros id' q. cbn. unfold received_by. cbn. rewrite filter_app, fmap_app. fold (received_by id' st).
    rewrite lookup_insert_Some. intros [[<- <-]|[Hne Hq]].
    + destruct (Hi _ _ Eq) as [Hc Hs]. rewrite len_cons in Hc. split; [lia|]. rewrite filter_cons_True, filter_nil by done. cbn. by rewrite <- app_assoc.
    + destruct (Hi _ _ Hq) as [Hc Hs]. split; [done|]. rewrite filter_cons_False, filter_nil by (cbn; congruence). cbn. by rewrite app_nil_r.
Qed.

Lemma net_inv_run es st st' : net_inv st → net_run es st = Some st' → net_inv st'.
Proof.
  revert st. induction es as [|e es IH]; intros st Hi; cbn [net_run]; [by intros [= <-]|].
  intros (st1 & E & E')%bind_Some. eapply IH; [|exact E']. by eapply net_inv_do.
Qed.

(** C31. The test network over every interleaving of sends, receipts and settings:
    no queue holds more than 1024 messages, and what a node has received,
    together with what waits for it, is a subsequence of the messages that were
    sent to it, in the order in which the sends took effect; so messages may be
    lost but are neither made up, duplicated, changed nor misdirected. *)
Theorem network_queues nodes es st id q :
  net_run es (net_start nodes) = Some st → net_recvQueues (ns_net st) !! id = Some q →
  len q <= queue_cap ∧ received_by id st ++ q `sublist_of` sent_to id st.
Proof.
  intros E Hq. assert (net_inv (net_start nodes)) as H0.
  { intros i q0 ->%newRaftNetwork_queues. split; [done|]. apply sublist_nil_l. }
  exact (net_inv_run _ _ _ H0 E id q Hq).
Qed.

(** What a send that is not interrupted does with a message that can be
    encoded: with an open connection without loss or delay and room in the queue
    exactly this message is added at its end; nothing is added for a receiver
    that is unknown, disconnected, or has 1024 messages waiting. *)
Theorem network_send_spec m b rn :
  Marshal_Message m = Some b →
  net_dropmap rn !! (Message_GetFrom m, Message_GetTo m) = None →
  net_delaymap rn !! (Message_GetFrom m, Message_GetTo m) = None →
  network_send m rn = Ok
    match net_recvQueues rn !! Message_GetTo m with
    | Some q => if negb (default false (net_disconnected rn !! Message_GetTo m)) && (len q <? queue_cap)
                then set_net_recvQueues (<[Message_GetTo m := q ++ [m]]> (net_recvQueues rn)) rn else rn
    | None => rn
    end.
Proof.
  intros Hb Hd Hl. unfold network_send, send_begin, send_finish. rewrite Hd, Hl. cbn [ps_to ps_msg ps_drop ps_delay default].
  unfold open_queue. destruct (net_recvQueues rn !! Message_GetTo m) as [q|] eqn:Eq; [|done].
  destruct (default false (net_disconnected rn !! Message_GetTo m)); [done|]. cbn.
  unfold copy_message. rewrite Hb, (Unmarshal_Marshal_Message _ _ Hb). cbn.
  change (chance (negb (Qeq_bool 0 0)) 0 rn) with (false, rn). unfold enqueue. rewrite Eq. by destruct (len q <? queue_cap).
Qed.

End network.

(** ** An example *)

(** Numbered heartbeats from node 1 to node 2. *)
Definition net_beat (i : Z) : Message :=
  mkMessage (Some MsgHeartbeat) (Some 2) (Some 1) None None (Some i) [] None None None None None None [].

Definition sample_codec : MessageCodec := {|
  Marshal_Message := fun m =>
    match m with
    | mkMessage (Some MsgHeartbeat) (Some 2) (Some 1) None None (Some i) [] None None None None None None [] =>
        if (0 <=? i) && (i <? 256) then Some [byte_of_Z i] else None
    | _ => None
    end;
  Unmarshal_Message := fun b => match b with [c] => Some (net_beat (Z_of_byte c)) | _ => None end;
|}.

Lemma sample_codec_laws : MessageCodecLaws sample_codec.
Proof.
  split. intros m b. cbn. repeat (case_match; try done). intros [= <-].
  match goal with Hi : (0 <=? ?i) && (?i <? 256) = true |- _ => rewrite Z_of_byte_of_Z, (Z.mod_small i) by lia end. done.
Qed.

#[local] Existing Instances sample_codec sample_codec_laws.

(** The second send overtakes the first one, which arrives although its receiver
    is disconnected by then; a third one does not.  The receiver got its channel
    before the disconnection and receives from it afterwards; the channel it asks
    for while it is disconnected is nil. *)
Definition net_events : list net_event :=
  [ERecvFrom 2; ESend (net_beat 1); ESend (net_beat 2); EFinish 1; EDisconnect 2; EFinish 0; ESend (net_beat 3); EFinish 0; ERecvFrom 2; EReceive 0].

Lemma network_queues_witness :
  ∃ st q, net_run (fun _ => 0%Q) net_events (net_start [1; 2]) = Some st ∧ net_recvQueues (ns_net st) !! 2 = Some q ∧
    ns_channels st = [Some 2; None] ∧ received_by 2 st = [net_beat 2] ∧ q = [net_beat 1] ∧ len q <= queue_cap ∧
    received_by 2 st ++ q `sublist_of` sent_to 2 st.
Proof.
  destruct (net_run (fun _ => 0%Q) net_events (net_start [1; 2])) as [st|] eqn:E; [|vm_compute in E; discriminate E].
  destruct (net_recvQueues (ns_net st) !! 2) as [q|] eqn:Eq; [|vm_compute in E; injection E as <-; vm_compute in Eq; discriminate Eq].
  exists st, q. split; [reflexivity|]. split; [exact Eq|].
  split; [vm_compute in E; injection E as <-; reflexivity|].
  split; [vm_compute in E; injection E as <-; vm_compute; reflexivity|].
  split; [vm_compute in E; injection E as <-; vm_compute in Eq; injection Eq as <-; reflexivity|].
  apply (network_queues (fun _ => 0%Q) [1; 2] net_events st 2 q); [exact E|exact Eq].
Defined.

Lemma network_send_spec_witness :
  network_send (fun _ => 0%Q) (net_beat 1) (newRaftNetwork [1; 2]) =
    Ok (set_net_recvQueues (<[2 := [net_beat 1]]> (net_recvQueues (newRaftNetwork [1; 2]))) (newRaftNetwork [1; 2])).
Proof. apply (network_send_spec (fun _ => 0%Q) (net_beat 1) [Byte.x01] (newRaftNetwork [1; 2])); vm_compute; reflexivity. Defined.
