(* ===== verification/Quorum.v ===== *)
(** * Quorum arithmetic (src/quorum)

    Majority and joint configurations, their committed index and vote
    results.  A [MajorityConfig] (a Go map used as a set) is a [gset Z].
    Ranging over a Go map visits the keys in an unspecified order, so the loops
    are functions of an enumeration of the keys; the theorems show that the
    result does not depend on it. *)
From S2P Require Import Prelude.

(** ** Data *)

Abbreviation MajorityConfig := (gset Z).

Abbreviation JointConfig := (gset Z * gset Z)%type.

Inductive VoteResult : Type := VotePending | VoteLost | VoteWon.

#[export] Instance VoteResult_eq_dec : EqDecision VoteResult.
Proof. solve_decision. Defined.

(** [AckedIndexer] is an interface with several implementations: a plain map
    of indexes, the progress map of the tracker and the acknowledgements of
    the read-only queue. *)
Class AckedIndexer (L : Type) : Type := AckedIndex : L → Z → option Z.

#[export] Instance mapAckIndexer : AckedIndexer (gmap Z Z) := fun m id => m !! id.

(** ** Operations *)

Definition MajorityConfig_Slice (c : MajorityConfig) : list Z := sort64 (elements c).

(** The loop that fills the slice of observed indexes from the right. *)
Fixpoint fill_acked {L} `{AckedIndexer L} (l : L) (ids : list Z) (srt : list Z) (i : nat) : list Z :=
  match ids with
  | [] => srt
  | id :: ids =>
      match AckedIndex l id with
      | Some idx => fill_acked l ids (<[i := idx]> srt) (i - 1)
      | None => fill_acked l ids srt i
      end
  end.

(** The body of [CommittedIndex] for the enumeration [ids] of the voters. *)
Definition CommittedIndex_of {L} `{AckedIndexer L} (ids : list Z) (l : L) : Z :=
  let n := length ids in
  if Nat.eqb n 0 then MaxUint64
  else
    let srt := sort64 (fill_acked l ids (replicate n 0) (n - 1)) in
    let pos := (n - (n / 2 + 1))%nat in
    default 0 (srt !! pos).

Definition MajorityConfig_CommittedIndex {L} `{AckedIndexer L} (c : MajorityConfig) (l : L) : Z :=
  CommittedIndex_of (elements c) l.

(** The counting loop of [VoteResult]: (votes for yes, missing votes). *)
Fixpoint count_votes (votes : gmap Z bool) (ids : list Z) : nat * nat :=
  match ids with
  | [] => (0, 0)%nat
  | id :: ids =>
      let '(yes, missing) := count_votes votes ids in
      match votes !! id with
      | None => (yes, S missing)
      | Some true => (S yes, missing)
      | Some false => (yes, missing)
      end
  end.

Definition VoteResult_of (ids : list Z) (votes : gmap Z bool) : VoteResult :=
  if Nat.eqb (length ids) 0 then VoteWon
  else
    let '(votedCnt, missing) := count_votes votes ids in
    let q := (length ids / 2 + 1)%nat in
    if (q <=? votedCnt)%nat then VoteWon
    else if (q <=? votedCnt + missing)%nat then VotePending
    else VoteLost.

Definition MajorityConfig_VoteResult (c : MajorityConfig) (votes : gmap Z bool) : VoteResult :=
  VoteResult_of (elements c) votes.

Definition JointConfig_IDs (c : JointConfig) : gset Z := c.1 ∪ c.2.

Definition JointConfig_CommittedIndex {L} `{AckedIndexer L} (c : JointConfig) (l : L) : Z :=
  let idx0 := MajorityConfig_CommittedIndex c.1 l in
  let idx1 := MajorityConfig_CommittedIndex c.2 l in
  if idx0 <? idx1 then idx0 else idx1.

Definition JointConfig_VoteResult (c : JointConfig) (votes : gmap Z bool) : VoteResult :=
  let r1 := MajorityConfig_VoteResult c.1 votes in
  let r2 := MajorityConfig_VoteResult c.2 votes in
  if bool_decide (r1 = r2) then r1
  else if bool_decide (r1 = VoteLost) || bool_decide (r2 = VoteLost) then VoteLost
  else VotePending.

(** ** Reference notions

    A set [q] of nodes is a majority of the voters [c] when it holds more than
    half of them; the empty configuration is satisfied by convention. *)

Definition majority (c q : gset Z) : Prop :=
  c = ∅ ∨ (size c / 2 + 1 <= size (q ∩ c))%nat.

Definition joint_majority (c : JointConfig) (q : gset Z) : Prop :=
  majority c.1 q ∧ majority c.2 q.

#[export] Instance majority_dec c q : Decision (majority c q).
Proof. unfold majority. apply _. Defined.

(** The voters known to have acknowledged index [k] (no report counts as 0). *)
Definition acked_ge {L} `{AckedIndexer L} (l : L) (c : gset Z) (k : Z) : gset Z :=
  filter (λ id, k <= default 0 (AckedIndex l id)) c.

Definition voted_yes (votes : gmap Z bool) (c : gset Z) : gset Z :=
  filter (λ id, votes !! id = Some true) c.

Definition may_vote_yes (votes : gmap Z bool) (c : gset Z) : gset Z :=
  filter (λ id, votes !! id ≠ Some false) c.

(** ** Quorum intersection *)

Lemma majority_intersect c q1 q2 :
  c ≠ ∅ → majority c q1 → majority c q2 → ∃ id, id ∈ c ∧ id ∈ q1 ∧ id ∈ q2.
Proof.
  intros Hc [?|H1] [?|H2]; [done..|].
  destruct (decide (q1 ∩ c ## q2 ∩ c)) as [Hd|Hd].
  - exfalso. apply size_union in Hd.
    assert (size (q1 ∩ c ∪ q2 ∩ c) <= size c)%nat by (apply subseteq_size; set_solver).
    pose proof (Nat.div_mod_eq (size c) 2). pose proof (Nat.mod_upper_bound (size c) 2). lia.
  - apply dec_stable. intros Hn. apply Hd. intros x ??. apply Hn. exists x. set_solver.
Qed.

Lemma majority_mono c q q' : q ∩ c ⊆ q' → majority c q → majority c q'.
Proof.
  intros Hq [->|H]; [by left|right].
  etrans; [exact H|]. apply subseteq_size. set_solver.
Qed.

(** ** Counting lemmas *)

(** The number of listed nodes satisfying a boolean test. *)
Definition countb (f : Z → bool) (ids : list Z) : nat :=
  length (filter (λ id, f id = true) ids).

Lemma countb_perm f ids ids' : ids ≡ₚ ids' → countb f ids = countb f ids'.
Proof. intros H. unfold countb. by rewrite H. Qed.

Lemma countb_cons f id ids : countb f (id :: ids) = ((if f id then 1 else 0) + countb f ids)%nat.
Proof. unfold countb. rewrite filter_cons. by destruct (f id). Qed.

Lemma countb_mono (f g : Z → bool) ids :
  (∀ id, id ∈ ids → f id = true → g id = true) → (countb f ids <= countb g ids)%nat.
Proof.
  induction ids as [|id ids IH]; intros H; [done|].
  rewrite !countb_cons. specialize (IH ltac:(set_solver)).
  specialize (H id ltac:(set_solver)). destruct (f id), (g id); naive_solver lia.
Qed.

Lemma countb_size (P : Z → Prop) `{!∀ x, Decision (P x)} (c : gset Z) :
  countb (λ id, bool_decide (P id)) (elements c) = size (filter P c).
Proof.
  rewrite <- (list_to_set_elements_L (filter P c)).
  rewrite size_list_to_set by apply NoDup_elements.
  apply Permutation_length. apply NoDup_Permutation.
  - apply NoDup_filter, NoDup_elements.
  - apply NoDup_elements.
  - intros x. rewrite list_elem_of_filter, !elem_of_elements, elem_of_filter, bool_decide_eq_true.
    done.
Qed.

Lemma size_filter_inter (P : Z → Prop) `{!∀ x, Decision (P x)} (c : gset Z) :
  size (filter P c ∩ c) = size (filter P c).
Proof. f_equal. set_solver. Qed.

Lemma count_votes_fst votes ids :
  (count_votes votes ids).1 = countb (λ id, bool_decide (votes !! id = Some true)) ids.
Proof.
  induction ids as [|id ids IH]; [done|]. rewrite countb_cons, <- IH. cbn.
  destruct (count_votes votes ids) as [y m]; cbn.
  destruct (votes !! id) as [[]|]; done.
Qed.

Lemma count_votes_sum votes ids :
  ((count_votes votes ids).1 + (count_votes votes ids).2)%nat =
  countb (λ id, bool_decide (votes !! id ≠ Some false)) ids.
Proof.
  induction ids as [|id ids IH]; [done|]. rewrite countb_cons, <- IH. cbn.
  destruct (count_votes votes ids) as [y m]; cbn.
  destruct (votes !! id) as [[]|]; cbn; case_bool_decide; simplify_eq/=; lia || naive_solver.
Qed.

Lemma elements_nil (c : gset Z) : length (elements c) = 0%nat ↔ c = ∅.
Proof.
  rewrite length_zero_iff_nil. split; [|intros ->; apply elements_empty].
  intros H. apply set_eq. intros x. rewrite <- elem_of_elements, H. set_solver.
Qed.

Lemma length_elements (c : gset Z) : length (elements c) = size c.
Proof. done. Qed.

(** ** The committed index *)

Lemma fill_acked_perm {L} `{AckedIndexer L} (l : L) ids i done :
  (length ids <= i)%nat →
  fill_acked l ids (replicate i 0 ++ done) (i - 1) ≡ₚ
  (default 0 ∘ AckedIndex l <$> ids) ++ replicate (i - length ids) 0 ++ done.
Proof.
  revert i done. induction ids as [|id ids IH]; intros i done Hi.
  { cbn. by rewrite Nat.sub_0_r. }
  destruct i as [|i]; [cbn in Hi; lia|]. cbn [fill_acked length] in *.
  cbn [fmap list_fmap app compose].
  destruct (AckedIndex l id) as [x|]; cbn [default].
  - replace (S i - 1)%nat with i by lia. rewrite replicate_S_end, <- app_assoc.
    rewrite insert_app_r_alt by (rewrite length_replicate; lia).
    rewrite length_replicate, Nat.sub_diag. cbn [app insert list_insert].
    rewrite IH by lia. cbn [Nat.sub]. by rewrite !(assoc (++)), <- Permutation_middle.
  - rewrite IH by lia. replace (S i - length ids)%nat with (S (S i - S (length ids))) by lia.
    cbn [replicate app]. by rewrite <- Permutation_middle.
Qed.

(** The sorted slice holds exactly the acknowledged indexes, zero for a voter
    without a report. *)
Lemma fill_acked_all {L} `{AckedIndexer L} (l : L) ids :
  fill_acked l ids (replicate (length ids) 0) (length ids - 1) ≡ₚ
  (default 0 ∘ AckedIndex l <$> ids).
Proof.
  pose proof (fill_acked_perm l ids (length ids) [] ltac:(lia)) as Hp.
  by rewrite Nat.sub_diag, !app_nil_r in Hp.
Qed.

Lemma length_filter_all (P : Z → Prop) `{!∀ x, Decision (P x)} (l : list Z) :
  (∀ x, x ∈ l → P x) → length (filter P l) = length l.
Proof.
  induction l as [|x l IH]; intros HP; [done|]. rewrite filter_cons.
  rewrite decide_True by (apply HP; set_solver). cbn. rewrite IH; [done|set_solver].
Qed.

Lemma length_filter_fmap (f : Z → Z) k ids :
  length (filter (λ x, k <= x) (f <$> ids)) = countb (λ id, bool_decide (k <= f id)) ids.
Proof.
  induction ids as [|id ids IH]; [done|]. rewrite countb_cons, <- IH.
  rewrite fmap_cons, filter_cons. repeat case_decide; repeat case_bool_decide; done.
Qed.

(** In a sorted list, the element at position [p] is at least [k] exactly when
    at least [length l - p] elements are. *)
Lemma sorted_rank (l : list Z) p x k :
  StronglySorted Z.le l → l !! p = Some x →
  (k <= x ↔ (length l - p <= length (filter (λ y, (k <= y)%Z) l))%nat).
Proof.
  intros Hs. revert p. induction Hs as [|y l Hs IH Hy]; intros p Hp; [done|].
  rewrite Forall_forall in Hy.
  assert (k <= y → length (filter (λ y, k <= y) l) = length l) as Hall.
  { intros Hk. apply length_filter_all. intros z Hz%Hy. lia. }
  pose proof (length_filter (λ y, k <= y) l).
  destruct p as [|p]; cbn in Hp; rewrite filter_cons; cbn [length].
  - simplify_eq. case_decide as Hk; cbn [length]; [rewrite Hall by done|]; split; lia || done.
  - rewrite (IH p Hp). case_decide as Hk; [|done].
    cbn [length]. rewrite Hall by done. apply lookup_lt_Some in Hp. lia.
Qed.

Lemma CommittedIndex_of_spec {L} `{AckedIndexer L} (l : L) ids k :
  ids ≠ [] →
  k <= CommittedIndex_of ids l ↔
  (length ids / 2 + 1 <= countb (λ id, bool_decide (k <= default 0 (AckedIndex l id))%Z) ids)%nat.
Proof.
  intros Hne. unfold CommittedIndex_of.
  assert (0 < length ids)%nat by (destruct ids; cbn; [done|lia]).
  rewrite (proj2 (Nat.eqb_neq _ _)) by lia.
  set (srt := sort64 _).
  assert (srt ≡ₚ (default 0 ∘ AckedIndex l <$> ids)) as Hp.
  { unfold srt. rewrite sort64_perm. apply fill_acked_all. }
  assert (length srt = length ids) as Hlen by (rewrite Hp; apply length_fmap).
  pose proof (Nat.div_mod_eq (length ids) 2). pose proof (Nat.mod_upper_bound (length ids) 2).
  set (pos := (length ids - (length ids / 2 + 1))%nat).
  destruct (lookup_lt_is_Some_2 srt pos) as [x Hx]; [lia|].
  rewrite Hx. cbn [default]. rewrite (sorted_rank srt pos x k (sort64_sorted _) Hx).
  change (λ id, bool_decide _) with (λ id, bool_decide (k <= (default 0 ∘ AckedIndex l) id)).
  rewrite <- length_filter_fmap, Hp, length_fmap. lia.
Qed.

(** Majority configurations do not depend on the enumeration order of the Go
    map they are stored in. *)
Lemma CommittedIndex_of_perm {L} `{AckedIndexer L} (l : L) ids ids' :
  ids ≡ₚ ids' → CommittedIndex_of ids l = CommittedIndex_of ids' l.
Proof.
  intros Hp. destruct (decide (ids = [])) as [->|Hne].
  { by apply Permutation_nil in Hp as ->. }
  assert (ids' ≠ []) by (intros ->; by apply Permutation_nil_r in Hp).
  assert (∀ k, k <= CommittedIndex_of ids l ↔ k <= CommittedIndex_of ids' l) as Hk.
  { intros k. rewrite !CommittedIndex_of_spec by done. by rewrite (countb_perm _ _ _ Hp), Hp. }
  apply Z.le_antisymm; apply Hk; lia.
Qed.

Lemma VoteResult_of_perm votes ids ids' :
  ids ≡ₚ ids' → VoteResult_of ids votes = VoteResult_of ids' votes.
Proof.
  intros Hp. unfold VoteResult_of. rewrite <- (Permutation_length Hp). destruct (Nat.eqb _ 0); [done|].
  pose proof (count_votes_fst votes ids) as H1. pose proof (count_votes_sum votes ids) as H2.
  pose proof (count_votes_fst votes ids') as H1'. pose proof (count_votes_sum votes ids') as H2'.
  rewrite (countb_perm _ _ _ Hp), <- H1' in H1. rewrite (countb_perm _ _ _ Hp), <- H2' in H2.
  destruct (count_votes votes ids) as [y m], (count_votes votes ids') as [y' m']; cbn in *.
  assert (m = m') by lia. by subst.
Qed.

(** The committed index of a non-empty majority configuration is the largest
    index acknowledged by a majority. *)
Lemma MajorityConfig_CommittedIndex_spec {L} `{AckedIndexer L} (c : MajorityConfig) (l : L) k :
  c ≠ ∅ → k <= MajorityConfig_CommittedIndex c l ↔ majority c (acked_ge l c k).
Proof.
  intros Hc. unfold MajorityConfig_CommittedIndex.
  rewrite CommittedIndex_of_spec by (intros ?%length_zero_iff_nil%elements_nil; done).
  unfold majority, acked_ge. rewrite size_filter_inter, <- countb_size, length_elements.
  naive_solver.
Qed.

Lemma MajorityConfig_CommittedIndex_empty {L} `{AckedIndexer L} (l : L) :
  MajorityConfig_CommittedIndex ∅ l = MaxUint64.
Proof. done. Qed.

(** The same for every configuration, within the range of a uint64. *)
Lemma MajorityConfig_CommittedIndex_ge {L} `{AckedIndexer L} (c : MajorityConfig) (l : L) k :
  k <= MaxUint64 → k <= MajorityConfig_CommittedIndex c l ↔ majority c (acked_ge l c k).
Proof.
  intros Hk. destruct (decide (c = ∅)) as [->|Hc].
  - split; [by left|done].
  - by apply MajorityConfig_CommittedIndex_spec.
Qed.

Lemma majority_filter (c : gset Z) (P : Z → Prop) `{!∀ x, Decision (P x)} :
  c ≠ ∅ →
  majority c (filter P c) ↔
  (size c / 2 + 1 <= countb (λ id, bool_decide (P id)) (elements c))%nat.
Proof. intros. unfold majority. rewrite size_filter_inter, countb_size. naive_solver. Qed.

(** A vote is won when a majority has voted yes, still pending when a majority
    may yet vote yes, and lost otherwise. *)
Lemma MajorityConfig_VoteResult_spec (c : MajorityConfig) votes :
  MajorityConfig_VoteResult c votes =
    if decide (majority c (voted_yes votes c)) then VoteWon
    else if decide (majority c (may_vote_yes votes c)) then VotePending
    else VoteLost.
Proof.
  unfold MajorityConfig_VoteResult, VoteResult_of, voted_yes, may_vote_yes.
  destruct (Nat.eqb_spec (length (elements c)) 0) as [He|He].
  { rewrite decide_True; [done|left; by apply elements_nil]. }
  assert (c ≠ ∅) as Hc by (intros ?%elements_nil; done).
  pose proof (majority_filter c (λ id, votes !! id = Some true) Hc) as Hy.
  pose proof (majority_filter c (λ id, votes !! id ≠ Some false) Hc) as Hm.
  cbn beta in Hy, Hm. rewrite <- count_votes_fst in Hy. rewrite <- count_votes_sum in Hm.
  rewrite length_elements. destruct (count_votes votes (elements c)) as [y m]; cbn [fst snd] in *.
  case_decide as Ha; rewrite Hy in Ha;
    [|case_decide as Hb; rewrite Hm in Hb];
    destruct (Nat.leb_spec (size c / 2 + 1) y), (Nat.leb_spec (size c / 2 + 1) (y + m)); done || lia.
Qed.

Lemma MajorityConfig_VoteWon (c : MajorityConfig) votes :
  MajorityConfig_VoteResult c votes = VoteWon ↔ majority c (voted_yes votes c).
Proof. rewrite MajorityConfig_VoteResult_spec. repeat case_decide; naive_solver. Qed.

Lemma may_vote_yes_majority (c : gset Z) votes :
  majority c (voted_yes votes c) → majority c (may_vote_yes votes c).
Proof.
  apply majority_mono. intros x. unfold voted_yes, may_vote_yes.
  rewrite elem_of_intersection, !elem_of_filter. naive_solver.
Qed.

Lemma MajorityConfig_VoteLost (c : MajorityConfig) votes :
  MajorityConfig_VoteResult c votes = VoteLost ↔ ¬ majority c (may_vote_yes votes c).
Proof.
  rewrite MajorityConfig_VoteResult_spec. pose proof (may_vote_yes_majority c votes).
  repeat case_decide; naive_solver.
Qed.

(** ** Joint configurations *)

Lemma JointConfig_VoteWon (c : JointConfig) votes :
  JointConfig_VoteResult c votes = VoteWon ↔
  majority c.1 (voted_yes votes c.1) ∧ majority c.2 (voted_yes votes c.2).
Proof.
  rewrite <- !MajorityConfig_VoteWon. unfold JointConfig_VoteResult.
  destruct (MajorityConfig_VoteResult c.1 votes), (MajorityConfig_VoteResult c.2 votes);
    cbn; naive_solver.
Qed.

Lemma JointConfig_VoteLost (c : JointConfig) votes :
  JointConfig_VoteResult c votes = VoteLost ↔
  ¬ majority c.1 (may_vote_yes votes c.1) ∨ ¬ majority c.2 (may_vote_yes votes c.2).
Proof.
  rewrite <- !MajorityConfig_VoteLost. unfold JointConfig_VoteResult.
  destruct (MajorityConfig_VoteResult c.1 votes), (MajorityConfig_VoteResult c.2 votes);
    cbn; naive_solver.
Qed.

(** Sample data for the witnesses. *)
Definition ex_votes1 : gmap Z bool := list_to_map [(1,true);(2,true)].
Definition ex_votes2 : gmap Z bool := list_to_map [(2,true);(3,true);(1,false)].
Definition ex_voters : gset Z := {[1;2;3]}.
Definition ex_acks : gmap Z Z := list_to_map [(1,5);(2,4);(3,0)].

Lemma ex_voters_ne : ex_voters ≠ ∅.
Proof. intros Hc. apply (f_equal size) in Hc. vm_compute in Hc. discriminate. Qed.

(** C23. The joint committed index is the largest index that a majority of each
    non-empty half has acknowledged; a voter that has not reported counts as
    having acknowledged 0.  An empty half imposes no condition (its committed
    index is the maximal uint64). *)
Theorem JointConfig_CommittedIndex_spec {L} `{AckedIndexer L} (c : JointConfig) (l : L) k :
  k <= MaxUint64 →
  k <= JointConfig_CommittedIndex c l ↔
  majority c.1 (acked_ge l c.1 k) ∧ majority c.2 (acked_ge l c.2 k).
Proof.
  intros Hk. unfold JointConfig_CommittedIndex.
  rewrite <- !MajorityConfig_CommittedIndex_ge by done. zcase; lia.
Qed.

Lemma JointConfig_CommittedIndex_spec_witness :
  3 <= JointConfig_CommittedIndex ({[1;2;3]}, {[3;4]})
         (list_to_map [(1,5);(2,3);(3,4);(4,9)] : gmap Z Z).
Proof.
  apply JointConfig_CommittedIndex_spec; [lia|].
  split; apply (bool_decide_unpack _); vm_compute; exact I.
Defined.

(** C14. Election safety at the level of quorums: when two vote tallies over the
    same joint configuration are both won, and its incoming half is not empty,
    some voter of the incoming half voted yes in both. *)
Theorem JointConfig_two_wins_share_voter (c : JointConfig) votes1 votes2 :
  c.1 ≠ ∅ →
  JointConfig_VoteResult c votes1 = VoteWon →
  JointConfig_VoteResult c votes2 = VoteWon →
  ∃ id, id ∈ c.1 ∧ votes1 !! id = Some true ∧ votes2 !! id = Some true.
Proof.
  intros Hc [H1 _]%JointConfig_VoteWon [H2 _]%JointConfig_VoteWon.
  destruct (majority_intersect _ _ _ Hc H1 H2) as (id & ? & Hy1 & Hy2).
  apply elem_of_filter in Hy1, Hy2. naive_solver.
Qed.

Lemma JointConfig_two_wins_share_voter_witness :
  ∃ id, id ∈ ex_voters ∧ ex_votes1 !! id = Some true ∧ ex_votes2 !! id = Some true.
Proof.
  apply (JointConfig_two_wins_share_voter (ex_voters, ∅) ex_votes1 ex_votes2);
    [apply ex_voters_ne|vm_compute; reflexivity..].
Defined.

(** Leader completeness at the level of quorums: if index [k] is jointly
    committed and an election over the same configuration is won, a voter that
    acknowledged [k] voted for the winner. *)
Theorem JointConfig_win_meets_commit {L} `{AckedIndexer L} (c : JointConfig) (l : L) votes k :
  c.1 ≠ ∅ → k <= JointConfig_CommittedIndex c l → k <= MaxUint64 →
  JointConfig_VoteResult c votes = VoteWon →
  ∃ id, id ∈ c.1 ∧ k <= default 0 (AckedIndex l id) ∧ votes !! id = Some true.
Proof.
  intros Hc Hk Hmax [Hw _]%JointConfig_VoteWon.
  apply JointConfig_CommittedIndex_spec in Hk as [Hk _]; [|done].
  destruct (majority_intersect _ _ _ Hc Hk Hw) as (id & ? & Ha & Hy).
  apply elem_of_filter in Ha, Hy. naive_solver.
Qed.

Lemma JointConfig_win_meets_commit_witness :
  ∃ id, id ∈ ex_voters ∧ 4 <= default 0 (AckedIndex ex_acks id) ∧ ex_votes2 !! id = Some true.
Proof.
  apply (JointConfig_win_meets_commit (ex_voters, ∅) ex_acks ex_votes2 4);
    [apply ex_voters_ne|vm_compute; congruence..|vm_compute; reflexivity].
Defined.

(** C39. Go's map iteration order is unspecified; the committed index and the
    vote result computed in any enumeration of the voters are the same. *)
Theorem quorum_order_independent {L} `{AckedIndexer L} (c : MajorityConfig) (l : L) votes ids :
  ids ≡ₚ elements c →
  CommittedIndex_of ids l = MajorityConfig_CommittedIndex c l ∧
  VoteResult_of ids votes = MajorityConfig_VoteResult c votes.
Proof. intros Hp. split; [by apply CommittedIndex_of_perm|by apply VoteResult_of_perm]. Qed.

Lemma quorum_order_independent_witness :
  CommittedIndex_of [3;1;2] ex_acks = MajorityConfig_CommittedIndex ex_voters ex_acks ∧
  VoteResult_of [3;1;2] ex_votes2 = MajorityConfig_VoteResult ex_voters ex_votes2.
Proof.
  apply (quorum_order_independent ex_voters ex_acks ex_votes2 [3;1;2]).
  apply (bool_decide_unpack _). vm_compute. exact I.
Defined.
