(* ===== verification/Inflights.v ===== *)
(** * In-flight append messages (src/tracker/inflights.go)

    [Inflights] is a ring buffer that grows on demand.  The refinement theorems
    relate it to a plain queue of (last index, byte size) pairs. *)
From S2P Require Import Prelude.

Record inflight : Type := mkinflight {
  inflight_index : Z;
  inflight_bytes : Z;
}.

Record Inflights : Type := mkInflights {
  Inflights_start : Z;
  Inflights_count : Z;
  Inflights_bytes : Z;
  Inflights_size : Z;
  Inflights_maxBytes : Z;
  Inflights_buffer : list inflight;
}.

Definition set_Inflights_buffer (v : list inflight) (r : Inflights) : Inflights :=
  mkInflights (Inflights_start r) (Inflights_count r) (Inflights_bytes r)
    (Inflights_size r) (Inflights_maxBytes r) v.

#[export] Instance inflight_eq_dec : EqDecision inflight.
Proof. solve_decision. Defined.

#[export] Instance Inflights_eq_dec : EqDecision Inflights.
Proof. solve_decision. Defined.

(** ** Operations *)

Definition NewInflights (size maxBytes : Z) : Inflights :=
  mkInflights 0 0 0 size maxBytes [].

(** A deep copy: the same value. *)
Definition Inflights_Clone (ins : Inflights) : Inflights :=
  mkInflights (Inflights_start ins) (Inflights_count ins) (Inflights_bytes ins)
    (Inflights_size ins) (Inflights_maxBytes ins) ([] ++ Inflights_buffer ins).

Definition Inflights_Full (ins : Inflights) : bool :=
  (Inflights_count ins =? Inflights_size ins)
  || (negb (Inflights_maxBytes ins =? 0) && (Inflights_maxBytes ins <=? Inflights_bytes ins)).

Definition Inflights_Count (ins : Inflights) : Z := Inflights_count ins.

Definition Inflights_grow (ins : Inflights) : Inflights :=
  let newSize := len (Inflights_buffer ins) * 2 in
  let newSize :=
    if newSize =? 0 then 1
    else if Inflights_size ins <? newSize then Inflights_size ins
    else newSize in
  let n := Z.to_nat newSize in
  set_Inflights_buffer
    (take n (Inflights_buffer ins)
       ++ replicate (n - length (Inflights_buffer ins)) (mkinflight 0 0)) ins.

Definition Inflights_Add (ins : Inflights) (index bytes : Z) : outcome Inflights :=
  if Inflights_Full ins then Panic "cannot add into a Full inflights"
  else
    let next := Inflights_start ins + Inflights_count ins in
    let size := Inflights_size ins in
    let next := if size <=? next then next - size else next in
    let ins := if len (Inflights_buffer ins) <=? next then Inflights_grow ins else ins in
    _ ← go_index (Inflights_buffer ins) next;
    Ok (mkInflights (Inflights_start ins) (Inflights_count ins + 1)
          (Inflights_bytes ins +! bytes) (Inflights_size ins) (Inflights_maxBytes ins)
          (<[Z.to_nat next := mkinflight index bytes]> (Inflights_buffer ins))).

(** The scan of [FreeLE]: at most [n] further messages, from buffer position
    [idx]; returns (new position, freed messages, freed bytes). *)
Fixpoint FreeLE_loop (n : nat) (ins : Inflights) (to idx i bytes : Z) : outcome (Z * Z * Z) :=
  match n with
  | O => Ok (idx, i, bytes)
  | S n =>
      x ← go_index (Inflights_buffer ins) idx;
      if to <? inflight_index x then Ok (idx, i, bytes)
      else
        let idx' := idx + 1 in
        let idx' := if Inflights_size ins <=? idx' then idx' - Inflights_size ins else idx' in
        FreeLE_loop n ins to idx' (i + 1) (bytes +! inflight_bytes x)
  end.

Definition Inflights_FreeLE (ins : Inflights) (to : Z) : outcome Inflights :=
  if Inflights_count ins =? 0 then Ok ins
  else
    x ← go_index (Inflights_buffer ins) (Inflights_start ins);
    if to <? inflight_index x then Ok ins
    else
      '(idx, i, bytes) ←
        FreeLE_loop (Z.to_nat (Inflights_count ins)) ins to (Inflights_start ins) 0 0;
      let count := Inflights_count ins - i in
      Ok (mkInflights (if count =? 0 then 0 else idx) count (Inflights_bytes ins -! bytes)
            (Inflights_size ins) (Inflights_maxBytes ins) (Inflights_buffer ins)).

Definition Inflights_reset (ins : Inflights) : Inflights :=
  mkInflights 0 0 0 (Inflights_size ins) (Inflights_maxBytes ins) (Inflights_buffer ins).

(** ** The abstract queue *)

(** The messages in flight, oldest first. *)
Definition window (ins : Inflights) : list inflight :=
  take (Z.to_nat (Inflights_count ins))
    (drop (Z.to_nat (Inflights_start ins)) (Inflights_buffer ins ++ Inflights_buffer ins)).

Definition total_bytes (w : list inflight) : Z := foldr Z.add 0 (inflight_bytes <$> w).

(** Removing acknowledged messages from the front of a queue. *)
Fixpoint free_le (to : Z) (w : list inflight) : list inflight :=
  match w with
  | [] => []
  | x :: w' => if to <? inflight_index x then w else free_le to w'
  end.

(** The representation invariant: positions are in range, the live part of the
    buffer wraps around only once the buffer has its full size, and [bytes] is
    the total size of the live messages. *)
Record Inflights_shape (ins : Inflights) : Prop := mkInflights_shape {
  iwf_start : 0 <= Inflights_start ins;
  iwf_start_size : Inflights_start ins < Inflights_size ins ∨ Inflights_start ins = 0;
  iwf_count : 0 <= Inflights_count ins <= Inflights_size ins;
  iwf_len : len (Inflights_buffer ins) <= Inflights_size ins;
  iwf_wrap : Inflights_start ins + Inflights_count ins <= len (Inflights_buffer ins)
             ∨ len (Inflights_buffer ins) = Inflights_size ins;
}.

Definition Inflights_wf (ins : Inflights) : Prop :=
  Inflights_shape ins ∧ Inflights_bytes ins = total_bytes (window ins) mod two64.

(** The buffer position of the [k]-th live message. *)
Definition ring_pos (ins : Inflights) (k : Z) : Z :=
  let p := Inflights_start ins + k in
  if Inflights_size ins <=? p then p - Inflights_size ins else p.

Lemma window_lookup ins k :
  Inflights_shape ins → 0 <= k < Inflights_count ins →
  0 <= ring_pos ins k < len (Inflights_buffer ins) ∧
  window ins !! Z.to_nat k = Inflights_buffer ins !! Z.to_nat (ring_pos ins k).
Proof.
  intros [Hs Hss Hc Hl Hw] Hk. unfold window, ring_pos, len in *.
  rewrite lookup_take_lt by lia. rewrite lookup_drop. zcase.
  - split; [lia|]. rewrite lookup_app_r by lia. f_equal. lia.
  - split; [lia|]. rewrite lookup_app_l by lia. f_equal. lia.
Qed.

Lemma length_window ins : Inflights_shape ins → len (window ins) = Inflights_count ins.
Proof.
  intros [Hs Hss Hc Hl Hw]. unfold window, len in *.
  rewrite length_take, length_drop, length_app. lia.
Qed.

Lemma window_get ins k :
  Inflights_shape ins → 0 <= k < Inflights_count ins →
  ∃ x, window ins !! Z.to_nat k = Some x ∧
       go_index (Inflights_buffer ins) (ring_pos ins k) = Ok x.
Proof.
  intros Hwf Hk. destruct (window_lookup ins k Hwf Hk) as [Hr Hx].
  pose proof (length_window ins Hwf) as Hlen. unfold len in *.
  destruct (lookup_lt_is_Some_2 (window ins) (Z.to_nat k)) as [x E]; [lia|].
  exists x. split; [done|]. apply go_index_Ok; [lia|]. by rewrite <- Hx.
Qed.

Lemma total_bytes_app w1 w2 : total_bytes (w1 ++ w2) = total_bytes w1 + total_bytes w2.
Proof. unfold total_bytes. rewrite fmap_app, foldr_app. induction w1; cbn in *; lia. Qed.

Lemma window_ext ins w :
  Inflights_shape ins → len w = Inflights_count ins →
  (∀ k, 0 <= k < Inflights_count ins →
     w !! Z.to_nat k = Inflights_buffer ins !! Z.to_nat (ring_pos ins k)) →
  window ins = w.
Proof.
  intros Hwf Hlen Hw. pose proof (length_window ins Hwf) as Hlw. unfold len in *.
  apply list_eq. intros i. destruct (decide (i < length w)%nat) as [Hi|Hi].
  - replace i with (Z.to_nat (Z.of_nat i)) by lia.
    rewrite Hw by lia. apply window_lookup; [done|lia].
  - rewrite !lookup_ge_None_2 by lia. done.
Qed.

(** Growing keeps the content and makes room at the first free position. *)
Lemma grow_shape ins :
  Inflights_shape ins → len (Inflights_buffer ins) < Inflights_size ins →
  Inflights_shape (Inflights_grow ins) ∧ window (Inflights_grow ins) = window ins ∧
  len (Inflights_buffer ins) < len (Inflights_buffer (Inflights_grow ins)).
Proof.
  intros Hsh Hlt. pose proof Hsh as [Hs Hss Hc Hl Hw].
  assert (Inflights_buffer (Inflights_grow ins) =
    Inflights_buffer ins ++
    replicate (Z.to_nat (len (Inflights_buffer (Inflights_grow ins)) - len (Inflights_buffer ins)))
      (mkinflight 0 0) ∧
    len (Inflights_buffer ins) < len (Inflights_buffer (Inflights_grow ins)) <= Inflights_size ins)
    as [Hb Hlen].
  { unfold Inflights_grow, len in *; cbn. rewrite !length_app, length_take, length_replicate.
    repeat zcase; (split; [|lia]); rewrite take_ge by lia; do 2 f_equal; lia. }
  assert (Inflights_shape (Inflights_grow ins)) as Hsh'.
  { assert (Inflights_start (Inflights_grow ins) = Inflights_start ins) by done.
    assert (Inflights_count (Inflights_grow ins) = Inflights_count ins) by done.
    assert (Inflights_size (Inflights_grow ins) = Inflights_size ins) by done.
    generalize dependent (Inflights_grow ins). intros g **. split; lia. }
  split; [done|]. split; [|lia]. symmetry. apply window_ext; [|by rewrite (length_window _ Hsh')|].
  - done.
  - intros k Hk. rewrite (proj2 (window_lookup _ k Hsh' Hk)).
    destruct (window_lookup _ k Hsh Hk) as [Hr _].
    change (ring_pos (Inflights_grow ins) k) with (ring_pos ins k).
    rewrite Hb. unfold len in *. rewrite lookup_app_l by lia. done.
Qed.

Lemma Add_ok ins index bytes :
  Inflights_wf ins → Inflights_Full ins = false →
  ∃ ins', Inflights_Add ins index bytes = Ok ins' ∧ Inflights_wf ins' ∧
    Inflights_size ins' = Inflights_size ins ∧ Inflights_maxBytes ins' = Inflights_maxBytes ins ∧
    window ins' = window ins ++ [mkinflight index bytes].
Proof.
  intros [Hsh Hby] Hfull. unfold Inflights_Add. rewrite Hfull.
  apply orb_false_iff in Hfull as [Hcs%Z.eqb_neq _].
  pose proof Hsh as [Hs Hss Hc Hl Hw].
  change (if Inflights_size ins <=? _ then _ else _) with (ring_pos ins (Inflights_count ins)).
  set (next := ring_pos ins (Inflights_count ins)).
  set (g := if len (Inflights_buffer ins) <=? next then Inflights_grow ins else ins).
  assert (Inflights_shape g ∧ window g = window ins ∧ 0 <= next < len (Inflights_buffer g) ∧
    Inflights_start g = Inflights_start ins ∧ Inflights_count g = Inflights_count ins ∧
    Inflights_size g = Inflights_size ins ∧ Inflights_bytes g = Inflights_bytes ins ∧
    Inflights_maxBytes g = Inflights_maxBytes ins)
    as (Hg & Hwg & Hnext & Hgs & Hgc & Hgz & Hgb & Hgm).
  { unfold g, next, ring_pos. repeat zcase; try lia;
      try (destruct (grow_shape ins Hsh) as (?&?&?); [lia|]); split_and!; done || lia. }
  destruct (lookup_lt_is_Some_2 (Inflights_buffer g) (Z.to_nat next)) as [y Hy];
    [unfold len in *; lia|].
  rewrite (go_index_Ok _ _ y) by (done || lia). cbn [mbind outcome_bind].
  set (ins' := mkInflights _ _ _ _ _ _). exists ins'.
  pose proof Hg as [Gs Gss Gc Gl Gw].
  assert (Inflights_shape ins') as Hsh'.
  { unfold next, ring_pos in Hnext. zcase_in Hnext;
      unfold ins'; split; cbn; unfold len in *; rewrite ?length_insert; lia. }
  assert (window ins' = window ins ++ [mkinflight index bytes]) as Hwin.
  { apply window_ext; [done| |].
    - rewrite len_app, length_window by done. cbn. rewrite Hgc. done.
    - intros k Hk. cbn in Hk |- *.
      assert (ring_pos ins' k = ring_pos ins k) as ->
        by (unfold ins', ring_pos; cbn; by rewrite Hgs, Hgz).
      pose proof (length_window ins Hsh) as Hlw. unfold len in *.
      destruct (decide (k = Inflights_count ins)) as [->|Hne].
      + rewrite lookup_app_r by lia. rewrite list_lookup_insert_eq by (unfold next in *; lia).
        by replace (_ - _)%nat with 0%nat by lia.
      + rewrite lookup_app_l by lia. rewrite list_lookup_insert_ne.
        * rewrite <- Hwg.
          assert (ring_pos ins k = ring_pos g k) as -> by (unfold ring_pos; by rewrite Hgs, Hgz).
          apply window_lookup; [done|lia].
        * unfold next, ring_pos. repeat zcase; lia. }
  split; [done|]. split; [split; [done|]|split; [done|split; [done|done]]].
  rewrite Hwin, total_bytes_app. cbn. rewrite Hgb, Hby. unfold add64. rewrite Z.add_0_r.
  apply Z.add_mod_idemp_l. lia.
Qed.

(** The scan stops at the first message beyond [to]; [w] is the part of the
    window still to be scanned. *)
Lemma FreeLE_loop_ok ins to n i bytes w :
  Inflights_shape ins → 0 <= i → i + Z.of_nat n = Inflights_count ins →
  w = drop (Z.to_nat i) (window ins) → is_u64 bytes →
  FreeLE_loop n ins to (ring_pos ins i) i bytes =
    let j := i + (len w - len (free_le to w)) in
    Ok (ring_pos ins j, j, (bytes + (total_bytes w - total_bytes (free_le to w))) mod two64).
Proof.
  intros Hsh. pose proof Hsh as [Hs Hss Hc Hl Hw].
  revert i bytes w. induction n as [|n IH]; intros i bytes w Hi Hn -> Hb; cbn [FreeLE_loop].
  - rewrite drop_ge by (pose proof (length_window ins Hsh); unfold len in *; lia).
    cbn. rewrite Z.add_0_r, Z.sub_diag, Z.add_0_r. by rewrite Z.mod_small.
  - destruct (window_get ins i Hsh) as (x & Hx & ->); [lia|]. cbn [mbind outcome_bind].
    rewrite (drop_S _ x) by done. cbn [free_le]. destruct (Z.ltb_spec to (inflight_index x)).
    + cbn. rewrite !Z.sub_diag, !Z.add_0_r. by rewrite Z.mod_small.
    + replace (if Inflights_size ins <=? _ then _ else _) with (ring_pos ins (i + 1))
        by (unfold ring_pos; repeat zcase; lia).
      rewrite (IH (i + 1) _ (drop (S (Z.to_nat i)) (window ins))); [|lia|lia|f_equal; lia|].
      * cbn zeta. rewrite len_cons. unfold total_bytes at 3. cbn [fmap list_fmap foldr].
        fold (total_bytes (drop (S (Z.to_nat i)) (window ins))).
        replace (i + 1 + _) with
          (i + (len (drop (S (Z.to_nat i)) (window ins)) + 1
             - len (free_le to (drop (S (Z.to_nat i)) (window ins))))) by lia.
        do 2 f_equal. unfold add64. rewrite Z.add_mod_idemp_l by lia. f_equal. lia.
      * apply add64_u64.
Qed.

Lemma free_le_drop to w : ∃ j, free_le to w = drop j w ∧ (j <= length w)%nat.
Proof.
  induction w as [|x w (j & IH & Hj)]; cbn [free_le]; [by exists 0%nat|].
  zcase; [exists 0%nat; cbn; split; [done|lia]|exists (S j); cbn; split; [done|lia]].
Qed.

(** Moving the start of the window forward. *)
Lemma window_advance ins j bytes :
  Inflights_shape ins → 0 <= j <= Inflights_count ins →
  let ins' := mkInflights (if Inflights_count ins - j =? 0 then 0 else ring_pos ins j)
                (Inflights_count ins - j) bytes (Inflights_size ins) (Inflights_maxBytes ins)
                (Inflights_buffer ins) in
  Inflights_shape ins' ∧ window ins' = drop (Z.to_nat j) (window ins).
Proof.
  intros Hsh Hj ins'. pose proof Hsh as [Hs Hss Hc Hl Hw].
  assert (Inflights_shape ins') as Hsh'.
  { unfold ins', ring_pos. split; cbn; repeat zcase; lia. }
  split; [done|]. pose proof (length_window _ Hsh) as Hlw.
  apply window_ext; [done|unfold len in *; rewrite length_drop; cbn; lia|].
  intros k Hk. cbn in Hk |- *. rewrite lookup_drop.
  replace (Z.to_nat j + Z.to_nat k)%nat with (Z.to_nat (j + k)) by lia.
  rewrite (proj2 (window_lookup ins (j + k) Hsh ltac:(lia))).
  f_equal. f_equal. unfold ins', ring_pos; cbn. repeat zcase; lia.
Qed.

Lemma FreeLE_ok ins to :
  Inflights_wf ins →
  ∃ ins', Inflights_FreeLE ins to = Ok ins' ∧ Inflights_wf ins' ∧
    Inflights_size ins' = Inflights_size ins ∧ Inflights_maxBytes ins' = Inflights_maxBytes ins ∧
    window ins' = free_le to (window ins).
Proof.
  intros [Hsh Hby]. unfold Inflights_FreeLE. pose proof (length_window _ Hsh) as Hlw.
  pose proof Hsh as [Hs Hss Hc Hl Hw].
  destruct (Z.eqb_spec (Inflights_count ins) 0) as [H0|H0].
  { exists ins. rewrite (len_zero (window ins)) by lia. done. }
  destruct (window_get ins 0 Hsh) as (x & Hx & Hgx); [lia|].
  assert (ring_pos ins 0 = Inflights_start ins) as Hr0
    by (unfold ring_pos; zcase; lia).
  rewrite Hr0 in Hgx. rewrite Hgx. cbn [mbind outcome_bind].
  assert (∃ w, window ins = x :: w) as [w Ew]
    by (change (Z.to_nat 0) with 0%nat in Hx;
        destruct (window ins) as [|? w]; [done|exists w; cbn in Hx; congruence]).
  destruct (Z.ltb_spec to (inflight_index x)) as [Hlt|Hge].
  { exists ins. rewrite Ew. cbn [free_le]. rewrite (proj2 (Z.ltb_lt _ _)) by lia.
    rewrite <- Ew. done. }
  rewrite <- Hr0, (FreeLE_loop_ok ins to _ 0 0 (window ins)) by (done || lia || (unfold is_u64; lia)).
  cbn zeta. cbn [mbind outcome_bind]. rewrite !Z.add_0_l.
  destruct (free_le_drop to (window ins)) as (j & Hj & Hjl). unfold len in Hlw.
  replace (len (window ins) - len (free_le to (window ins))) with (Z.of_nat j)
    by (rewrite Hj; unfold len; rewrite length_drop; lia).
  edestruct (window_advance ins (Z.of_nat j)) as [Hsh' Hw']; [done|lia|].
  eexists. split; [done|]. split; [split; [exact Hsh'|]|].
  - rewrite Hw', Nat2Z.id, <- Hj. cbn. rewrite Hby. unfold sub64.
    rewrite <- Zminus_mod. f_equal. lia.
  - split; [done|]. split; [done|]. by rewrite Hw', Nat2Z.id, Hj.
Qed.

(** C36. [Inflights] implements a bounded queue: adding to a window that is not
    full appends at the back, [FreeLE] removes the acknowledged prefix, [reset]
    empties it and [Count] is its length; the representation invariant is
    preserved and none of the operations panics. *)
Theorem Inflights_refines_queue ins :
  Inflights_wf ins →
  Inflights_Count ins = len (window ins) ∧
  (∀ index bytes, Inflights_Full ins = false →
     ∃ ins', Inflights_Add ins index bytes = Ok ins' ∧ Inflights_wf ins' ∧
       window ins' = window ins ++ [mkinflight index bytes]) ∧
  (∀ to, ∃ ins', Inflights_FreeLE ins to = Ok ins' ∧ Inflights_wf ins' ∧
     window ins' = free_le to (window ins)) ∧
  Inflights_wf (Inflights_reset ins) ∧ window (Inflights_reset ins) = [].
Proof.
  intros Hwf. pose proof Hwf as [Hsh Hb]. pose proof Hsh as [Hs Hss Hc Hl Hw].
  split_and!.
  - symmetry. by apply length_window.
  - intros index bytes Hf. destruct (Add_ok ins index bytes Hwf Hf) as (?&?&?&_&_&?); eauto.
  - intros to. destruct (FreeLE_ok ins to Hwf) as (?&?&?&_&_&?); eauto.
  - split; [|done]. pose proof (len_nonneg (Inflights_buffer ins)). split; cbn; lia.
  - done.
Qed.

Definition ex_inflights : Inflights :=
  mkInflights 2 2 30 3 0 [mkinflight 7 20; mkinflight 4 1; mkinflight 5 10].

Lemma Inflights_refines_queue_witness :
  window ex_inflights = [mkinflight 5 10; mkinflight 7 20] ∧
  (∃ ins', Inflights_Add ex_inflights 9 1 = Ok ins' ∧ Inflights_wf ins' ∧
     window ins' = window ex_inflights ++ [mkinflight 9 1]).
Proof.
  split; [vm_compute; reflexivity|].
  apply (Inflights_refines_queue ex_inflights); [|vm_compute; reflexivity].
  split; [split|]; vm_compute; auto; try split; congruence.
Defined.

(** A window whose indexes increase is freed exactly up to [to]. *)
Lemma free_le_filter to w :
  StronglySorted (λ x y, inflight_index x <= inflight_index y) w →
  free_le to w = filter (λ x, to < inflight_index x) w.
Proof.
  induction 1 as [|x w Hs IH Hx]; [done|]. cbn [free_le]. rewrite filter_cons.
  rewrite Forall_forall in Hx. destruct (Z.ltb_spec to (inflight_index x)); case_decide; try lia.
  - f_equal. clear -Hx H. induction w as [|y w IHw]; [done|]. rewrite filter_cons.
    rewrite decide_True by (specialize (Hx y ltac:(set_solver)); lia). f_equal. apply IHw.
    set_solver.
  - done.
Qed.
