(* ===== verification/Progress.v ===== *)
(** * Replication progress of one follower (src/tracker/progress.go, state.go)

    The leader's view of a follower: a small state machine (probe, replicate,
    snapshot) with the match and next indexes and the flow-control window. *)
From S2P Require Import Prelude Inflights.

Inductive ProgressStateType : Type := StateProbe | StateReplicate | StateSnapshot.

#[export] Instance ProgressStateType_eq_dec : EqDecision ProgressStateType.
Proof. solve_decision. Defined.

Definition ps_eqb (a b : ProgressStateType) : bool := bool_decide (a = b).

Record Progress : Type := mkProgress {
  Progress_Match : Z;
  Progress_Next : Z;
  Progress_sentCommit : Z;
  Progress_State : ProgressStateType;
  Progress_PendingSnapshot : Z;
  Progress_RecentActive : bool;
  Progress_MsgAppFlowPaused : bool;
  Progress_Inflights : Inflights;
  Progress_IsLearner : bool;
}.

Definition set_Progress_Match (v : Z) (r : Progress) : Progress :=
  mkProgress v (Progress_Next r) (Progress_sentCommit r) (Progress_State r)
    (Progress_PendingSnapshot r) (Progress_RecentActive r) (Progress_MsgAppFlowPaused r)
    (Progress_Inflights r) (Progress_IsLearner r).

Definition set_Progress_Next (v : Z) (r : Progress) : Progress :=
  mkProgress (Progress_Match r) v (Progress_sentCommit r) (Progress_State r)
    (Progress_PendingSnapshot r) (Progress_RecentActive r) (Progress_MsgAppFlowPaused r)
    (Progress_Inflights r) (Progress_IsLearner r).

Definition set_Progress_sentCommit (v : Z) (r : Progress) : Progress :=
  mkProgress (Progress_Match r) (Progress_Next r) v (Progress_State r)
    (Progress_PendingSnapshot r) (Progress_RecentActive r) (Progress_MsgAppFlowPaused r)
    (Progress_Inflights r) (Progress_IsLearner r).

Definition set_Progress_State (v : ProgressStateType) (r : Progress) : Progress :=
  mkProgress (Progress_Match r) (Progress_Next r) (Progress_sentCommit r) v
    (Progress_PendingSnapshot r) (Progress_RecentActive r) (Progress_MsgAppFlowPaused r)
    (Progress_Inflights r) (Progress_IsLearner r).

Definition set_Progress_PendingSnapshot (v : Z) (r : Progress) : Progress :=
  mkProgress (Progress_Match r) (Progress_Next r) (Progress_sentCommit r)
    (Progress_State r) v (Progress_RecentActive r) (Progress_MsgAppFlowPaused r)
    (Progress_Inflights r) (Progress_IsLearner r).

Definition set_Progress_RecentActive (v : bool) (r : Progress) : Progress :=
  mkProgress (Progress_Match r) (Progress_Next r) (Progress_sentCommit r)
    (Progress_State r) (Progress_PendingSnapshot r) v (Progress_MsgAppFlowPaused r)
    (Progress_Inflights r) (Progress_IsLearner r).

Definition set_Progress_MsgAppFlowPaused (v : bool) (r : Progress) : Progress :=
  mkProgress (Progress_Match r) (Progress_Next r) (Progress_sentCommit r)
    (Progress_State r) (Progress_PendingSnapshot r) (Progress_RecentActive r) v
    (Progress_Inflights r) (Progress_IsLearner r).

Definition set_Progress_Inflights (v : Inflights) (r : Progress) : Progress :=
  mkProgress (Progress_Match r) (Progress_Next r) (Progress_sentCommit r)
    (Progress_State r) (Progress_PendingSnapshot r) (Progress_RecentActive r)
    (Progress_MsgAppFlowPaused r) v (Progress_IsLearner r).

Definition set_Progress_IsLearner (v : bool) (r : Progress) : Progress :=
  mkProgress (Progress_Match r) (Progress_Next r) (Progress_sentCommit r)
    (Progress_State r) (Progress_PendingSnapshot r) (Progress_RecentActive r)
    (Progress_MsgAppFlowPaused r) (Progress_Inflights r) v.

#[export] Instance Progress_eq_dec : EqDecision Progress.
Proof. solve_decision. Defined.

(** ** Operations *)

Definition Progress_ResetState (state : ProgressStateType) (pr : Progress) : Progress :=
  let pr := set_Progress_MsgAppFlowPaused false pr in
  let pr := set_Progress_PendingSnapshot 0 pr in
  let pr := set_Progress_State state pr in
  set_Progress_Inflights (Inflights_reset (Progress_Inflights pr)) pr.

Definition Progress_BecomeProbe (pr : Progress) : Progress :=
  let pr :=
    if ps_eqb (Progress_State pr) StateSnapshot then
      let pendingSnapshot := Progress_PendingSnapshot pr in
      let pr := Progress_ResetState StateProbe pr in
      set_Progress_Next (Z.max (Progress_Match pr +! 1) (pendingSnapshot +! 1)) pr
    else
      let pr := Progress_ResetState StateProbe pr in
      set_Progress_Next (Progress_Match pr +! 1) pr in
  set_Progress_sentCommit (Z.min (Progress_sentCommit pr) (Progress_Next pr -! 1)) pr.

Definition Progress_BecomeReplicate (pr : Progress) : Progress :=
  let pr := Progress_ResetState StateReplicate pr in
  set_Progress_Next (Progress_Match pr +! 1) pr.

Definition Progress_BecomeSnapshot (snapshoti : Z) (pr : Progress) : Progress :=
  let pr := Progress_ResetState StateSnapshot pr in
  let pr := set_Progress_PendingSnapshot snapshoti pr in
  let pr := set_Progress_Next (snapshoti +! 1) pr in
  set_Progress_sentCommit snapshoti pr.

Definition Progress_SentEntries (entries bytes : Z) (pr : Progress) : outcome Progress :=
  match Progress_State pr with
  | StateReplicate =>
      pr ← (if 0 <? entries then
              let pr := set_Progress_Next (Progress_Next pr +! entries) pr in
              ins ← Inflights_Add (Progress_Inflights pr) (Progress_Next pr -! 1) bytes;
              Ok (set_Progress_Inflights ins pr)
            else Ok pr);
      Ok (set_Progress_MsgAppFlowPaused (Inflights_Full (Progress_Inflights pr)) pr)
  | StateProbe =>
      if 0 <? entries then Ok (set_Progress_MsgAppFlowPaused true pr) else Ok pr
  | StateSnapshot => Panic "sending append in unhandled state"
  end.

Definition Progress_CanBumpCommit (index : Z) (pr : Progress) : bool :=
  (Progress_sentCommit pr <? index) && (Progress_sentCommit pr <? Progress_Next pr -! 1).

Definition Progress_SentCommit (commit : Z) (pr : Progress) : Progress :=
  set_Progress_sentCommit commit pr.

Definition Progress_MaybeUpdate (n : Z) (pr : Progress) : bool * Progress :=
  if n <=? Progress_Match pr then (false, pr)
  else
    let pr := set_Progress_Match n pr in
    let pr := set_Progress_Next (Z.max (Progress_Next pr) (n +! 1)) pr in
    (true, set_Progress_MsgAppFlowPaused false pr).

Definition Progress_MaybeDecrTo (rejected matchHint : Z) (pr : Progress) : bool * Progress :=
  if ps_eqb (Progress_State pr) StateReplicate then
    if rejected <=? Progress_Match pr then (false, pr)
    else
      let pr := set_Progress_Next (Progress_Match pr +! 1) pr in
      (true, set_Progress_sentCommit (Z.min (Progress_sentCommit pr) (Progress_Next pr -! 1)) pr)
  else if negb (Progress_Next pr -! 1 =? rejected) then (false, pr)
  else
    let pr := set_Progress_Next
                (Z.max (Z.min rejected (matchHint +! 1)) (Progress_Match pr +! 1)) pr in
    let pr := set_Progress_sentCommit (Z.min (Progress_sentCommit pr) (Progress_Next pr -! 1)) pr in
    (true, set_Progress_MsgAppFlowPaused false pr).

Definition Progress_IsPaused (pr : Progress) : bool :=
  match Progress_State pr with
  | StateProbe => Progress_MsgAppFlowPaused pr
  | StateReplicate => Progress_MsgAppFlowPaused pr
  | StateSnapshot => true
  end.

(** ** The invariant and the state machine of a progress *)

(** [0 <= Match < Next], all indexes fit into a uint64, and the window is
    well-formed. *)
Record Progress_inv (pr : Progress) : Prop := mkProgress_inv {
  pi_match : 0 <= Progress_Match pr < Progress_Next pr;
  pi_next : Progress_Next pr <= MaxUint64;
  pi_pending : 0 <= Progress_PendingSnapshot pr < MaxUint64;
  pi_inflights : Inflights_wf (Progress_Inflights pr);
}.

(** One call of an operation of [Progress] by the leader.  The side conditions
    say that log positions stay below the largest uint64, and that entries are
    only sent to a replicating follower whose window is not full, as
    [maybeSendAppend] checks. *)
Inductive progress_step : Progress → Progress → Prop :=
| step_BecomeProbe pr : progress_step pr (Progress_BecomeProbe pr)
| step_BecomeReplicate pr : progress_step pr (Progress_BecomeReplicate pr)
| step_BecomeSnapshot pr i :
    Progress_Match pr <= i < MaxUint64 → progress_step pr (Progress_BecomeSnapshot i pr)
| step_SentEntries pr n bytes pr' :
    0 <= n → Progress_Next pr + n <= MaxUint64 →
    Progress_SentEntries n bytes pr = Ok pr' → progress_step pr pr'
| step_SentCommit pr i : progress_step pr (Progress_SentCommit i pr)
| step_MaybeUpdate pr n :
    0 <= n < MaxUint64 → progress_step pr (Progress_MaybeUpdate n pr).2
| step_MaybeDecrTo pr rejected hint :
    0 <= rejected <= MaxUint64 → 0 <= hint < MaxUint64 →
    progress_step pr (Progress_MaybeDecrTo rejected hint pr).2
| step_FreeLE pr to ins :
    Inflights_FreeLE (Progress_Inflights pr) to = Ok ins →
    progress_step pr (set_Progress_Inflights ins pr)
| step_set_active pr b : progress_step pr (set_Progress_RecentActive b pr)
| step_set_paused pr b : progress_step pr (set_Progress_MsgAppFlowPaused b pr)
| step_set_learner pr b : progress_step pr (set_Progress_IsLearner b pr)
| step_snap_failed pr : progress_step pr (set_Progress_PendingSnapshot 0 pr).

(** The progress of a follower at a leader that has just been elected
    ([raft.reset]), and of a newly added node ([Changer.initProgress]). *)
Inductive progress_init : Progress → Prop :=
| init_reset m last size maxb learner :
    0 <= m <= last → last < MaxUint64 → 0 <= size →
    progress_init (mkProgress m (last +! 1) 0 StateProbe 0 false false
                     (NewInflights size maxb) learner)
| init_added last size maxb learner :
    0 <= last < MaxUint64 → 0 <= size →
    progress_init (mkProgress 0 (Z.max last 1) 0 StateProbe 0 true false
                     (NewInflights size maxb) learner).

Lemma NewInflights_wf size maxb : 0 <= size → Inflights_wf (NewInflights size maxb).
Proof. intros. split; [|done]. split; cbn; unfold len; cbn; lia. Qed.

Lemma reset_wf ins : Inflights_wf ins → Inflights_wf (Inflights_reset ins).
Proof.
  intros [[Hs Hss Hc Hl Hw] _]. pose proof (len_nonneg (Inflights_buffer ins)).
  split; [|done]. split; cbn; lia.
Qed.

#[export] Hint Resolve NewInflights_wf reset_wf : raft.

Lemma SentEntries_inv n bytes pr pr' :
  0 <= n → Progress_Next pr + n <= MaxUint64 → Progress_inv pr →
  Progress_SentEntries n bytes pr = Ok pr' → Progress_inv pr'.
Proof.
  intros Hn Hb [Hm Hx Hp Hi] H. unfold Progress_SentEntries in H.
  destruct (Progress_State pr); [|go_inv H|done].
  - destruct (0 <? n); go_inv H; subst pr'; done.
  - go_inv H. subst pr'. destruct (0 <? n); go_inv E; [|by subst].
    destruct (Inflights_Full (Progress_Inflights pr)) eqn:Ef.
    { unfold Inflights_Add in E0. cbn in E0. by rewrite Ef in E0. }
    edestruct Add_ok as (ins & Hadd & ? & _); [exact Hi|exact Ef|].
    cbn in E0. rewrite Hadd in E0. go_inv E0. go_inv E. subst. split; cbn; u64_norm; done || lia.
Qed.

Lemma progress_step_inv pr pr' : progress_step pr pr' → Progress_inv pr → Progress_inv pr'.
Proof.
  intros Hstep Hinv. pose proof Hinv as [Hm Hx Hp Hi].
  destruct Hstep; try (by eapply SentEntries_inv); try (split; cbn; auto with raft lia; fail).
  - unfold Progress_BecomeProbe. destruct (ps_eqb _ _); split; cbn; auto with raft; u64_norm; lia.
  - split; cbn; auto with raft; u64_norm; lia.
  - split; cbn; auto with raft; u64_norm; lia.
  - unfold Progress_MaybeUpdate. zcase; [done|]. split; cbn; auto; u64_norm; lia.
  - unfold Progress_MaybeDecrTo. destruct (ps_eqb _ _); repeat zcase; cbn [negb snd]; try done;
      split; cbn; auto; u64_norm; lia.
  - destruct (FreeLE_ok _ to Hi) as (ins' & E & ? & _). rewrite E in H. go_inv H. subst.
    split; cbn; auto.
Qed.

Lemma progress_init_inv pr : progress_init pr → Progress_inv pr.
Proof. destruct 1; split; cbn; auto with raft; u64_norm; lia. Qed.

(** C37. In every progress that the leader's operations can reach from a fresh
    one, [Match] is strictly below [Next] (so that [Next >= 1]), [Next] fits
    into a uint64 and the in-flight window is well-formed. *)
Theorem Progress_match_below_next pr0 pr :
  progress_init pr0 → rtc progress_step pr0 pr →
  0 <= Progress_Match pr < Progress_Next pr ∧ Progress_Next pr <= MaxUint64 ∧
  Inflights_wf (Progress_Inflights pr).
Proof.
  intros Hinit%progress_init_inv Hsteps.
  assert (Progress_inv pr) as [? ? ? ?]; [|done].
  induction Hsteps as [|x y z Hxy _ IH]; [done|]. apply IH. by eapply progress_step_inv.
Qed.

Definition ex_progress : Progress :=
  mkProgress 0 8 0 StateProbe 0 false false (NewInflights 4 0) false.

Lemma Progress_match_below_next_witness :
  let pr := Progress_BecomeReplicate (Progress_MaybeUpdate 5 ex_progress).2 in
  0 <= Progress_Match pr < Progress_Next pr ∧ Progress_Next pr <= MaxUint64 ∧
  Inflights_wf (Progress_Inflights pr).
Proof.
  apply (Progress_match_below_next ex_progress).
  - apply (init_reset 0 7 4 0 false); lia.
  - eapply rtc_l; [apply (step_MaybeUpdate _ 5); lia|].
    eapply rtc_l; [apply step_BecomeReplicate|]. apply rtc_refl.
Defined.

(** A rejection of an append is either stale, and changes nothing, or it
    lowers [Next] (never to or below [Match]) and unpauses a probed follower.
    Outside StateReplicate the genuine rejection is the one for [Next - 1];
    it strictly lowers [Next] unless [Next] is already [Match + 1], so
    repeated probing converges. *)
Theorem Progress_MaybeDecrTo_spec pr rejected hint :
  Progress_inv pr → 0 <= rejected <= MaxUint64 → 0 <= hint < MaxUint64 →
  let '(changed, pr') := Progress_MaybeDecrTo rejected hint pr in
  if changed then
    Progress_Match pr' = Progress_Match pr ∧
    Progress_Match pr' < Progress_Next pr' <= Progress_Next pr ∧
    Progress_sentCommit pr' < Progress_Next pr' ∧
    (if ps_eqb (Progress_State pr) StateReplicate
     then Progress_Match pr < rejected ∧ Progress_Next pr' = Progress_Match pr + 1
     else rejected = Progress_Next pr - 1 ∧ Progress_MsgAppFlowPaused pr' = false ∧
          Progress_Next pr' = Z.max (Z.min rejected (hint + 1)) (Progress_Match pr + 1) ∧
          (Progress_Next pr' < Progress_Next pr ∨ Progress_Next pr = Progress_Match pr + 1))
  else
    pr' = pr ∧
    (if ps_eqb (Progress_State pr) StateReplicate
     then rejected <= Progress_Match pr
     else rejected ≠ Progress_Next pr - 1).
Proof.
  intros [Hm Hx Hp Hi] Hr Hh. unfold Progress_MaybeDecrTo.
  destruct (ps_eqb (Progress_State pr) StateReplicate) eqn:Es;
    repeat zcase; cbn [negb]; rewrite ?Es; cbn;
    rewrite ?(sub64_small (Progress_Next pr) 1) in * by lia;
    split_and!; try done; u64_norm; lia.
Qed.

Lemma Progress_MaybeDecrTo_spec_witness :
  let '(changed, pr') := Progress_MaybeDecrTo 7 3 ex_progress in
  if changed then
    Progress_Match pr' = Progress_Match ex_progress ∧
    Progress_Match pr' < Progress_Next pr' <= Progress_Next ex_progress ∧
    Progress_sentCommit pr' < Progress_Next pr' ∧
    (if ps_eqb (Progress_State ex_progress) StateReplicate
     then Progress_Match ex_progress < 7 ∧ Progress_Next pr' = Progress_Match ex_progress + 1
     else 7 = Progress_Next ex_progress - 1 ∧ Progress_MsgAppFlowPaused pr' = false ∧
          Progress_Next pr' = Z.max (Z.min 7 (3 + 1)) (Progress_Match ex_progress + 1) ∧
          (Progress_Next pr' < Progress_Next ex_progress
           ∨ Progress_Next ex_progress = Progress_Match ex_progress + 1))
  else
    pr' = ex_progress ∧
    (if ps_eqb (Progress_State ex_progress) StateReplicate
     then 7 <= Progress_Match ex_progress
     else 7 ≠ Progress_Next ex_progress - 1).
Proof.
  apply (Progress_MaybeDecrTo_spec ex_progress 7 3); [|lia|lia].
  apply progress_init_inv. apply (init_reset 0 7 4 0 false); lia.
Defined.

(** A stale rejection of the probe that preceded a snapshot lowers [Next] while
    the progress stays in StateSnapshot, so the documented equation
    [Next == PendingSnapshot + 1] does not survive it. *)
Example snapshot_next_can_regress :
  let pr := (Progress_MaybeDecrTo 7 2 (Progress_BecomeSnapshot 7 ex_progress)).2 in
  Progress_State pr = StateSnapshot ∧ Progress_PendingSnapshot pr = 7 ∧ Progress_Next pr = 3.
Proof. vm_compute. auto. Qed.
