(* ===== verification/Tracker.v ===== *)
(** * The progress tracker (src/tracker/tracker.go)

    The active configuration, the progress of every member and the votes of the
    current election. *)
From S2P Require Import Prelude Proto Quorum Inflights Progress.

(** ** Data *)

(** A Go map used as a set; [None] is the nil map, which the configuration
    changer distinguishes from the empty one. *)
Abbreviation goset := (option (gset Z)).

(** The elements; reading a nil map finds nothing. *)
Definition gs (m : goset) : gset Z := default ∅ m.

Record Config : Type := mkConfig {
  Config_Voters : goset * goset;
  Config_AutoLeave : bool;
  Config_Learners : goset;
  Config_LearnersNext : goset;
}.

Definition set_Config_Voters (v : goset * goset) (r : Config) : Config :=
  mkConfig v (Config_AutoLeave r) (Config_Learners r) (Config_LearnersNext r).

Definition set_Config_AutoLeave (v : bool) (r : Config) : Config :=
  mkConfig (Config_Voters r) v (Config_Learners r) (Config_LearnersNext r).

Definition set_Config_Learners (v : goset) (r : Config) : Config :=
  mkConfig (Config_Voters r) (Config_AutoLeave r) v (Config_LearnersNext r).

Definition set_Config_LearnersNext (v : goset) (r : Config) : Config :=
  mkConfig (Config_Voters r) (Config_AutoLeave r) (Config_Learners r) v.

#[export] Instance Config_eq_dec : EqDecision Config.
Proof. solve_decision. Defined.

Definition Config0 : Config := mkConfig (None, None) false None None.

(** The voters as seen by the quorum package. *)
Definition Config_joint (c : Config) : JointConfig := (gs (Config_Voters c).1, gs (Config_Voters c).2).

(** [Config.Clone] copies the voters and learners; the [AutoLeave] flag is not
    copied and is false in the clone. *)
Definition Config_Clone (c : Config) : Config :=
  let clone (m : goset) : goset := m in
  mkConfig (clone (Config_Voters c).1, clone (Config_Voters c).2) false
    (clone (Config_Learners c)) (clone (Config_LearnersNext c)).

Record ProgressTracker : Type := mkProgressTracker {
  ProgressTracker_Config : Config;
  ProgressTracker_Progress : gmap Z Progress;
  ProgressTracker_Votes : gmap Z bool;
  ProgressTracker_MaxInflight : Z;
  ProgressTracker_MaxInflightBytes : Z;
}.

Definition set_ProgressTracker_Config (v : Config) (r : ProgressTracker) : ProgressTracker :=
  mkProgressTracker v (ProgressTracker_Progress r) (ProgressTracker_Votes r)
    (ProgressTracker_MaxInflight r) (ProgressTracker_MaxInflightBytes r).

Definition set_ProgressTracker_Progress (v : gmap Z Progress) (r : ProgressTracker) : ProgressTracker :=
  mkProgressTracker (ProgressTracker_Config r) v (ProgressTracker_Votes r)
    (ProgressTracker_MaxInflight r) (ProgressTracker_MaxInflightBytes r).

Definition set_ProgressTracker_Votes (v : gmap Z bool) (r : ProgressTracker) : ProgressTracker :=
  mkProgressTracker (ProgressTracker_Config r) (ProgressTracker_Progress r) v
    (ProgressTracker_MaxInflight r) (ProgressTracker_MaxInflightBytes r).

(** ** Operations *)

Definition MakeProgressTracker (maxInflight maxBytes : Z) : ProgressTracker :=
  mkProgressTracker (mkConfig (Some ∅, None) false None None) ∅ ∅ maxInflight maxBytes.

Definition ProgressTracker_Voters (p : ProgressTracker) : JointConfig :=
  Config_joint (ProgressTracker_Config p).

Definition ProgressTracker_ConfState (p : ProgressTracker) : ConfState :=
  let c := ProgressTracker_Config p in
  mkConfState
    (MajorityConfig_Slice (gs (Config_Voters c).1))
    (MajorityConfig_Slice (gs (Config_Learners c)))
    (MajorityConfig_Slice (gs (Config_Voters c).2))
    (MajorityConfig_Slice (gs (Config_LearnersNext c)))
    (Some (Config_AutoLeave c)).

Definition ProgressTracker_IsSingleton (p : ProgressTracker) : bool :=
  let v := ProgressTracker_Voters p in
  Nat.eqb (size v.1) 1 && Nat.eqb (size v.2) 0.

#[export] Instance matchAckIndexer : AckedIndexer (gmap Z Progress) :=
  fun l id => match l !! id with
              | None => None
              | Some pr => Some (Progress_Match pr)
              end.

Definition ProgressTracker_Committed (p : ProgressTracker) : Z :=
  JointConfig_CommittedIndex (ProgressTracker_Voters p) (ProgressTracker_Progress p).

(** The identifiers in the order in which [Visit] calls its closure. *)
Definition Visit_ids (p : ProgressTracker) : list Z :=
  sort64 (elements (dom (ProgressTracker_Progress p))).

(** [Visit] with a closure that updates a state [S] and may panic. *)
Fixpoint Visit_loop {S} (f : Z → S → outcome S) (ids : list Z) (s : S) : outcome S :=
  match ids with
  | [] => Ok s
  | id :: ids => s ← f id s; Visit_loop f ids s
  end.

Definition ProgressTracker_Visit {S} (p : ProgressTracker) (f : Z → S → outcome S) (s : S) :
    outcome S :=
  Visit_loop f (Visit_ids p) s.

(** [Visit] with a closure that only overwrites the progress it is given. *)
Definition Visit_update (p : ProgressTracker) (f : Z → Progress → Progress) : ProgressTracker :=
  set_ProgressTracker_Progress
    (foldl (fun m id => alter (f id) id m) (ProgressTracker_Progress p) (Visit_ids p)) p.

(** The closure of [QuorumActive]: the activity of a non-learner is its vote. *)
Definition QuorumActive_visit (P : gmap Z Progress) (votes : gmap Z bool) (id : Z) : gmap Z bool :=
  match P !! id with
  | Some pr => if Progress_IsLearner pr then votes else <[id := Progress_RecentActive pr]> votes
  | None => votes
  end.

Definition ProgressTracker_QuorumActive (p : ProgressTracker) : bool :=
  let votes := foldl (QuorumActive_visit (ProgressTracker_Progress p)) ∅ (Visit_ids p) in
  bool_decide (JointConfig_VoteResult (ProgressTracker_Voters p) votes = VoteWon).

Definition ProgressTracker_VoterNodes (p : ProgressTracker) : list Z :=
  sort64 (elements (JointConfig_IDs (ProgressTracker_Voters p))).

Definition ProgressTracker_LearnerNodes (p : ProgressTracker) : list Z :=
  let l := gs (Config_Learners (ProgressTracker_Config p)) in
  if Nat.eqb (size l) 0 then [] else sort64 (elements l).

Definition ProgressTracker_ResetVotes (p : ProgressTracker) : ProgressTracker :=
  set_ProgressTracker_Votes ∅ p.

Definition ProgressTracker_RecordVote (id : Z) (v : bool) (p : ProgressTracker) : ProgressTracker :=
  match ProgressTracker_Votes p !! id with
  | Some _ => p
  | None => set_ProgressTracker_Votes (<[id := v]> (ProgressTracker_Votes p)) p
  end.

(** [TallyVotes]: (granted, rejected, result). *)
Definition ProgressTracker_TallyVotes (p : ProgressTracker) : Z * Z * VoteResult :=
  let '(granted, rejected) :=
    foldl (fun '(granted, rejected) '(id, pr) =>
             if Progress_IsLearner pr then (granted, rejected)
             else match ProgressTracker_Votes p !! id with
                  | None => (granted, rejected)
                  | Some true => (granted + 1, rejected)
                  | Some false => (granted, rejected + 1)
                  end) (0, 0) (map_to_list (ProgressTracker_Progress p)) in
  (granted, rejected, JointConfig_VoteResult (ProgressTracker_Voters p) (ProgressTracker_Votes p)).

(** ** Visiting *)

Lemma elem_of_Visit_ids p id :
  id ∈ Visit_ids p ↔ is_Some (ProgressTracker_Progress p !! id).
Proof. unfold Visit_ids. by rewrite sort64_perm, elem_of_elements, elem_of_dom. Qed.

Lemma NoDup_Visit_ids p : NoDup (Visit_ids p).
Proof. unfold Visit_ids. rewrite sort64_perm. apply NoDup_elements. Qed.

Lemma foldl_alter_lookup (f : Z → Progress → Progress) ids (m : gmap Z Progress) id :
  NoDup ids →
  foldl (fun m id => alter (f id) id m) m ids !! id =
  if decide (id ∈ ids) then f id <$> m !! id else m !! id.
Proof.
  intros Hnd. revert m. induction Hnd as [|x ids Hx Hnd IH]; intros m.
  { by rewrite decide_False by set_solver. }
  cbn. rewrite IH. destruct (decide (x = id)) as [->|Hne].
  - rewrite decide_False, decide_True by set_solver. by rewrite lookup_alter_eq.
  - rewrite lookup_alter_ne by done. repeat case_decide; set_solver.
Qed.

(** [Visit] reaches every progress exactly once. *)
Lemma Visit_update_lookup p f id :
  ProgressTracker_Progress (Visit_update p f) !! id = f id <$> ProgressTracker_Progress p !! id.
Proof.
  unfold Visit_update; cbn. rewrite foldl_alter_lookup by apply NoDup_Visit_ids.
  case_decide as Hid; [done|]. rewrite elem_of_Visit_ids in Hid.
  by apply eq_None_not_Some in Hid as ->.
Qed.

(** The votes that [QuorumActive] collects. *)
Definition active_votes (p : ProgressTracker) : gmap Z bool :=
  omap (fun pr => if Progress_IsLearner pr then None else Some (Progress_RecentActive pr))
    (ProgressTracker_Progress p).

Lemma QuorumActive_visit_lookup P ids m id :
  NoDup ids →
  foldl (QuorumActive_visit P) m ids !! id =
  if decide (id ∈ ids) then
    match P !! id with
    | Some pr => if Progress_IsLearner pr then m !! id else Some (Progress_RecentActive pr)
    | None => m !! id
    end
  else m !! id.
Proof.
  intros Hnd. revert m. induction Hnd as [|x ids Hx Hnd IH]; intros m.
  { by rewrite decide_False by set_solver. }
  cbn. rewrite IH. unfold QuorumActive_visit. destruct (decide (x = id)) as [->|Hne].
  - rewrite decide_False, decide_True by set_solver.
    destruct (P !! id) as [pr|]; [|done].
    destruct (Progress_IsLearner pr); [done|]. by rewrite lookup_insert_eq.
  - assert (QuorumActive_visit P m x !! id = m !! id) as Hm.
    { unfold QuorumActive_visit. destruct (P !! x) as [pr|]; [|done].
      destruct (Progress_IsLearner pr); [done|]. by rewrite lookup_insert_ne. }
    unfold QuorumActive_visit in Hm. rewrite Hm. repeat case_decide; set_solver.
Qed.

Lemma QuorumActive_votes p :
  foldl (QuorumActive_visit (ProgressTracker_Progress p)) ∅ (Visit_ids p) = active_votes p.
Proof.
  apply map_eq. intros id. unfold active_votes.
  rewrite QuorumActive_visit_lookup by apply NoDup_Visit_ids. rewrite lookup_omap, lookup_empty.
  destruct (ProgressTracker_Progress p !! id) as [pr|] eqn:E; cbn.
  - rewrite decide_True by (apply elem_of_Visit_ids; eauto). done.
  - by case_decide.
Qed.

(** The members that are recently active and not learners. *)
Definition active_members (p : ProgressTracker) (c : gset Z) : gset Z :=
  voted_yes (active_votes p) c.

Lemma elem_of_active_members p c id :
  id ∈ active_members p c ↔
  id ∈ c ∧ ∃ pr, ProgressTracker_Progress p !! id = Some pr ∧
    Progress_RecentActive pr = true ∧ Progress_IsLearner pr = false.
Proof.
  unfold active_members, voted_yes, active_votes. rewrite elem_of_filter, lookup_omap.
  destruct (ProgressTracker_Progress p !! id) as [pr|]; cbn.
  - destruct (Progress_IsLearner pr) eqn:El; (split; [intros [Ha ?]|intros (?&?&Ha&?&?)]);
      try discriminate Ha; apply (inj Some) in Ha; subst; try congruence;
      split; eauto; congruence.
  - naive_solver.
Qed.

(** [QuorumActive] holds exactly when a majority of each half of the
    configuration consists of recently active non-learners: what CheckQuorum
    needs to keep its leader. *)
Theorem QuorumActive_spec p :
  ProgressTracker_QuorumActive p = true ↔
  majority (ProgressTracker_Voters p).1 (active_members p (ProgressTracker_Voters p).1) ∧
  majority (ProgressTracker_Voters p).2 (active_members p (ProgressTracker_Voters p).2).
Proof.
  unfold ProgressTracker_QuorumActive. rewrite QuorumActive_votes, bool_decide_eq_true.
  apply JointConfig_VoteWon.
Qed.

(** ** Votes *)

(** Recording votes one after the other. *)
Definition record_votes (vs : list (Z * bool)) (p : ProgressTracker) : ProgressTracker :=
  foldl (fun p '(id, v) => ProgressTracker_RecordVote id v p) p vs.

Lemma RecordVote_config id v p :
  ProgressTracker_Config (ProgressTracker_RecordVote id v p) = ProgressTracker_Config p.
Proof. unfold ProgressTracker_RecordVote. by destruct (_ !! id). Qed.

Lemma RecordVote_keeps id v p id' b :
  ProgressTracker_Votes p !! id' = Some b →
  ProgressTracker_Votes (ProgressTracker_RecordVote id v p) !! id' = Some b.
Proof.
  intros Hb. unfold ProgressTracker_RecordVote. destruct (ProgressTracker_Votes p !! id) eqn:E; [done|].
  cbn. rewrite lookup_insert_ne; [done|]. intros ->. congruence.
Qed.

Lemma record_votes_keeps vs p :
  ProgressTracker_Config (record_votes vs p) = ProgressTracker_Config p ∧
  ∀ id b, ProgressTracker_Votes p !! id = Some b →
          ProgressTracker_Votes (record_votes vs p) !! id = Some b.
Proof.
  revert p. induction vs as [|[id v] vs IH]; intros p; [done|].
  change (record_votes ((id, v) :: vs) p) with (record_votes vs (ProgressTracker_RecordVote id v p)).
  destruct (IH (ProgressTracker_RecordVote id v p)) as [-> Hk].
  rewrite RecordVote_config. split; [done|]. intros. by apply Hk, RecordVote_keeps.
Qed.

(** Votes are final: a vote that was recorded is never overwritten, and once
    the election is won or lost no later vote changes the outcome. *)
Theorem recorded_votes_are_final vs p :
  (∀ id b, ProgressTracker_Votes p !! id = Some b →
           ProgressTracker_Votes (record_votes vs p) !! id = Some b) ∧
  ((ProgressTracker_TallyVotes p).2 ≠ VotePending →
   (ProgressTracker_TallyVotes (record_votes vs p)).2 = (ProgressTracker_TallyVotes p).2).
Proof.
  destruct (record_votes_keeps vs p) as [Hc Hk]. split; [done|].
  assert (∀ p, (ProgressTracker_TallyVotes p).2 =
            JointConfig_VoteResult (ProgressTracker_Voters p) (ProgressTracker_Votes p)) as Ht.
  { intros q. unfold ProgressTracker_TallyVotes. by destruct (foldl _ _ _). }
  rewrite !Ht. unfold ProgressTracker_Voters. rewrite Hc.
  set (c := Config_joint _). set (v := ProgressTracker_Votes p) in *.
  set (v' := ProgressTracker_Votes (record_votes vs p)) in *.
  assert (∀ d : gset Z, majority d (voted_yes v d) → majority d (voted_yes v' d)) as Hyes.
  { intros d. apply majority_mono. intros x. unfold voted_yes.
    rewrite elem_of_intersection, !elem_of_filter. naive_solver. }
  assert (∀ d : gset Z, majority d (may_vote_yes v' d) → majority d (may_vote_yes v d)) as Hmay.
  { intros d. apply majority_mono. intros x. unfold may_vote_yes.
    rewrite elem_of_intersection, !elem_of_filter. naive_solver. }
  destruct (JointConfig_VoteResult c v) eqn:E; [done| |]; intros _.
  - apply JointConfig_VoteLost in E. apply JointConfig_VoteLost. naive_solver.
  - apply JointConfig_VoteWon in E. apply JointConfig_VoteWon. naive_solver.
Qed.
