(* ===== verification/Util.v ===== *)
(** * Helpers and small types (src/util.go, src/types.go)

    Message classes, entry sizes and size limits, entry identifiers and log
    slices, and the emptiness tests of node.go. *)
From S2P Require Import Prelude Proto.

(** ** Constants of raft.go *)

Definition None_id : Z := 0.

Definition LocalAppendThread : Z := MaxUint64.

Definition LocalApplyThread : Z := MaxUint64 - 1.

Definition noLimit : Z := MaxUint64.

(** ** Message classes *)

Definition IsLocalMsg (t : MessageType) : bool :=
  match t with
  | MsgHup | MsgBeat | MsgUnreachable | MsgSnapStatus | MsgCheckQuorum
  | MsgStorageAppend | MsgStorageAppendResp | MsgStorageApply | MsgStorageApplyResp => true
  | _ => false
  end.

Definition IsResponseMsg (t : MessageType) : bool :=
  match t with
  | MsgAppResp | MsgVoteResp | MsgHeartbeatResp | MsgUnreachable | MsgReadIndexResp
  | MsgPreVoteResp | MsgStorageAppendResp | MsgStorageApplyResp => true
  | _ => false
  end.

Definition IsLocalMsgTarget (id : Z) : bool :=
  (id =? LocalAppendThread) || (id =? LocalApplyThread).

Definition voteRespMsgType (t : MessageType) : outcome MessageType :=
  match t with
  | MsgVote => Ok MsgVoteResp
  | MsgPreVote => Ok MsgPreVoteResp
  | _ => Panic "not a vote message"
  end.

(** ** Entry identifiers and log slices *)

Record entryID : Type := mkentryID {
  entryID_term : Z;
  entryID_index : Z;
}.

#[export] Instance entryID_eq_dec : EqDecision entryID.
Proof. solve_decision. Defined.

Definition pbEntryID (e : Entry) : entryID := mkentryID (Entry_GetTerm e) (Entry_GetIndex e).

Record logSlice : Type := mklogSlice {
  logSlice_term : Z;
  logSlice_prev : entryID;
  logSlice_entries : list Entry;
}.

Definition logSlice_lastIndex (s : logSlice) : Z :=
  entryID_index (logSlice_prev s) +! len (logSlice_entries s).

Definition logSlice_lastEntryID (s : logSlice) : entryID :=
  match last (logSlice_entries s) with
  | Some e => pbEntryID e
  | None => logSlice_prev s
  end.

(** The loop of [valid]: the identifier of the last entry, or [None] when two
    neighbours are not consistent. *)
Fixpoint valid_loop (prev : entryID) (ents : list Entry) : option entryID :=
  match ents with
  | [] => Some prev
  | e :: ents =>
      let id := pbEntryID e in
      if (entryID_term id <? entryID_term prev)
         || negb (entryID_index id =? entryID_index prev +! 1)
      then None
      else valid_loop id ents
  end.

(** [valid] returns nil ([true]) or an error ([false]). *)
Definition logSlice_valid (s : logSlice) : bool :=
  match valid_loop (logSlice_prev s) (logSlice_entries s) with
  | None => false
  | Some prev => negb (logSlice_term s <? entryID_term prev)
  end.

(** ** Emptiness tests (node.go) *)

Definition isHardStateEqual (a b : option HardState) : bool :=
  (HardState_GetTerm a =? HardState_GetTerm b) &&
  (HardState_GetVote a =? HardState_GetVote b) &&
  (HardState_GetCommit a =? HardState_GetCommit b).

Definition emptyState : option HardState := Some (mkHardState None None None).

Definition IsEmptyHardState (st : option HardState) : bool :=
  match st with None => true | Some _ => isHardStateEqual st emptyState end.

Definition IsEmptySnap (sp : option Snapshot) : bool := snap_index sp =? 0.

(** ** Sizes *)

Section sizes.
Context `{Protobuf}.

Definition entsSize (ents : list Entry) : Z :=
  foldl (fun size e => size +! proto_Size e) 0 ents.

(** The loop of [limitSize] over the entries after the first. *)
Fixpoint limitSize_loop (ents : list Entry) (size maxSize : Z) : list Entry :=
  match ents with
  | [] => []
  | e :: ents =>
      let size := size +! proto_Size e in
      if maxSize <? size then [] else e :: limitSize_loop ents size maxSize
  end.

Definition limitSize (ents : list Entry) (maxSize : Z) : list Entry :=
  match ents with
  | [] => []
  | e :: rest => e :: limitSize_loop rest (proto_Size e) maxSize
  end.

Definition payloadSize (e : Entry) : Z := len (Entry_GetData e).

Definition payloadsSize (ents : list Entry) : Z :=
  foldl (fun s e => s +! payloadSize e) 0 ents.

(** [extend] differs from [append] only in how it allocates. *)
Definition extend (dst vals : list Entry) : list Entry := dst ++ vals.

(** ** Lemmas *)

(** The exact (unbounded) size of a list of entries. *)
Definition total_size (ents : list Entry) : Z := foldr Z.add 0 (proto_Size <$> ents).

Context {Laws : ProtobufLaws _}.

Lemma total_size_nil : total_size [] = 0.
Proof. done. Qed.

Lemma total_size_cons e ents : total_size (e :: ents) = proto_Size e + total_size ents.
Proof. done. Qed.

Lemma total_size_nonneg ents : 0 <= total_size ents.
Proof.
  induction ents as [|e ents IH]; [done|]. pose proof (proto_Size_range e).
  unfold total_size in *; cbn; lia.
Qed.

Lemma total_size_app l k : total_size (l ++ k) = total_size l + total_size k.
Proof. unfold total_size. rewrite fmap_app, foldr_app. induction l; cbn in *; lia. Qed.

Lemma entsSize_from ents s :
  0 <= s → s + total_size ents < two64 →
  foldl (fun size e => size +! proto_Size e) s ents = s + total_size ents.
Proof.
  revert s. induction ents as [|e ents IH]; intros s Hs Hb; [unfold total_size; cbn; lia|].
  pose proof (proto_Size_range e). pose proof (total_size_nonneg ents).
  change (total_size (e :: ents)) with (proto_Size e + total_size ents) in *.
  cbn. rewrite add64_small by lia. rewrite IH; lia.
Qed.

Lemma entsSize_total ents : total_size ents < two64 → entsSize ents = total_size ents.
Proof. intros. unfold entsSize. rewrite entsSize_from; lia. Qed.

Lemma limitSize_prefix ents maxSize : limitSize ents maxSize `prefix_of` ents.
Proof.
  destruct ents as [|e ents]; [done|]. apply prefix_cons. generalize (proto_Size e).
  induction ents as [|e' ents IH]; intros s; cbn; [done|]. zcase; [apply prefix_nil|apply prefix_cons, IH].
Qed.

Lemma limitSize_loop_spec ents s maxSize :
  0 <= s → s + total_size ents < two64 →
  ∃ n, limitSize_loop ents s maxSize = take n ents ∧ (n <= length ents)%nat ∧
       (n = 0%nat ∨ s + total_size (take n ents) <= maxSize) ∧
       (n = length ents ∨ maxSize < s + total_size (take (S n) ents)).
Proof.
  revert s. induction ents as [|e ents IH]; intros s Hs Hb; [exists 0%nat; cbn; auto|].
  pose proof (proto_Size_range e). pose proof (total_size_nonneg ents).
  rewrite total_size_cons in Hb.
  cbn [limitSize_loop]. rewrite add64_small by lia. zcase.
  - exists 0%nat. cbn [length]. split; [done|]. split; [lia|]. split; [by left|right].
    rewrite firstn_cons, firstn_O, total_size_cons, total_size_nil. lia.
  - destruct (IH (s + proto_Size e)) as (n & -> & Hn & Ha & Hc); [lia|lia|].
    exists (S n). cbn [length]. rewrite !firstn_cons, !total_size_cons.
    split; [done|]. split; [lia|]. split; [right|].
    + destruct Ha as [->|]; [rewrite firstn_O, total_size_nil|]; lia.
    + destruct Hc as [->|]; [by left|right]. lia.
Qed.

Lemma limitSize_spec ents maxSize :
  total_size ents < two64 → ents ≠ [] →
  ∃ n, limitSize ents maxSize = take n ents ∧ (1 <= n <= length ents)%nat ∧
       (n = 1%nat ∨ total_size (take n ents) <= maxSize) ∧
       (n = length ents ∨ maxSize < total_size (take (S n) ents)).
Proof.
  intros Hb Hne. destruct ents as [|e ents]; [done|]. cbn [limitSize].
  pose proof (proto_Size_range e). rewrite total_size_cons in Hb.
  destruct (limitSize_loop_spec ents (proto_Size e) maxSize) as (n & -> & Hn & Ha & Hc); [lia|lia|].
  exists (S n). cbn [length]. rewrite !firstn_cons, !total_size_cons.
  split; [done|]. split; [lia|]. split.
  - destruct Ha as [->|]; [by left|right; lia].
  - destruct Hc as [->|]; [by left|right; lia].
Qed.

End sizes.

(** [limitSize] returns the longest prefix of the entries whose total
    encoded size is within the limit, except that a non-empty input always
    yields at least its first entry. *)
Theorem limitSize_longest_prefix `{Protobuf, !ProtobufLaws _} ents maxSize :
  total_size ents < two64 → ents ≠ [] →
  ∃ n, limitSize ents maxSize = take n ents ∧ (1 <= n <= length ents)%nat ∧
       (n = 1%nat ∨ entsSize (take n ents) <= maxSize) ∧
       (∀ m, (n < m <= length ents)%nat → maxSize < entsSize (take m ents)).
Proof.
  intros Hb Hne. destruct (limitSize_spec ents maxSize Hb Hne) as (n & Hn & [Hl Hl'] & H1 & H2).
  assert (∀ m, total_size (take m ents) < two64) as Hm.
  { intros m. rewrite <- (take_drop m ents), total_size_app in Hb.
    pose proof (total_size_nonneg (drop m ents)). lia. }
  exists n. rewrite entsSize_total by done. split_and!; try done.
  intros m Hnm. rewrite entsSize_total by done. destruct H2 as [->|H2]; [lia|].
  replace m with (S n + (m - S n))%nat by lia.
  rewrite <- (take_take_drop ents (S n) (m - S n)), total_size_app.
  pose proof (total_size_nonneg (take (m - S n) (drop (S n) ents))). lia.
Qed.

#[local] Existing Instances sample_Protobuf sample_ProtobufLaws.

Definition ex_entry (term index : Z) : Entry := mkEntry (Some term) (Some index) None None.

Lemma limitSize_longest_prefix_witness :
  ∃ n, limitSize [ex_entry 1 1; ex_entry 1 2; ex_entry 1 3] 25 =
       take n [ex_entry 1 1; ex_entry 1 2; ex_entry 1 3] ∧ (1 <= n <= 3)%nat ∧
       (n = 1%nat ∨ entsSize (take n [ex_entry 1 1; ex_entry 1 2; ex_entry 1 3]) <= 25) ∧
       (∀ m, (n < m <= 3)%nat →
             25 < entsSize (take m [ex_entry 1 1; ex_entry 1 2; ex_entry 1 3])).
Proof.
  apply (limitSize_longest_prefix [ex_entry 1 1; ex_entry 1 2; ex_entry 1 3] 25);
    [vm_compute; reflexivity|discriminate].
Defined.

(** [logSlice.valid] accepts exactly the well-formed slices of its
    documentation: the entries are contiguous after [prev] (in uint64
    arithmetic) and the terms, from [prev] through the entries up to the leader
    term, never regress. *)
Theorem logSlice_valid_spec s :
  is_u64 (entryID_index (logSlice_prev s)) →
  logSlice_valid s = true ↔
  (∀ i e, logSlice_entries s !! i = Some e →
     Entry_GetIndex e = entryID_index (logSlice_prev s) +! (Z.of_nat i + 1)) ∧
  Sorted Z.le (entryID_term (logSlice_prev s) ::
               (Entry_GetTerm <$> logSlice_entries s) ++ [logSlice_term s]).
Proof.
  destruct s as [term prev ents]; cbn. unfold logSlice_valid; cbn.
  revert prev. induction ents as [|e ents IH]; intros prev Hp; cbn [valid_loop fmap list_fmap app].
  { rewrite negb_true_iff, Z.ltb_ge. split.
    - intros. split; [done|]. repeat constructor. done.
    - intros [_ Hs]. apply Sorted_inv in Hs as [_ Hs]. by inversion Hs. }
  assert (∀ i, entryID_index (pbEntryID e) = entryID_index prev +! 1 →
    entryID_index (pbEntryID e) +! (Z.of_nat i + 1) =
    entryID_index prev +! (Z.of_nat (S i) + 1)) as Hshift.
  { intros i ->. unfold add64. rewrite Z.add_mod_idemp_l by lia. f_equal. lia. }
  destruct (Z.ltb_spec (entryID_term (pbEntryID e)) (entryID_term prev)) as [Hlt|Hge]; cbn [orb].
  { split; [done|]. intros [_ Hs]. apply Sorted_inv in Hs as [_ Hs]. inversion Hs. cbn in *. lia. }
  destruct (Z.eqb_spec (entryID_index (pbEntryID e)) (entryID_index prev +! 1)) as [Hi|Hi]; cbn [negb].
  - rewrite (IH (pbEntryID e)) by (rewrite Hi; apply add64_u64).
    split; intros [Hidx Hs]; split.
    + intros [|i] e' He; cbn in He; [simplify_eq; exact Hi|]. rewrite <- Hshift by done. by apply Hidx.
    + constructor; [exact Hs|]. constructor. exact Hge.
    + intros i e' He. rewrite Hshift by done. by apply (Hidx (S i)).
    + apply Sorted_inv in Hs as [Hs _]. exact Hs.
  - split; [done|]. intros [Hidx _]. specialize (Hidx 0%nat e eq_refl). done.
Qed.

Lemma logSlice_valid_spec_witness :
  logSlice_valid (mklogSlice 3 (mkentryID 1 4) [ex_entry 1 5; ex_entry 3 6]) = true ∧
  Sorted Z.le [1; 1; 3; 3].
Proof.
  split; [vm_compute; reflexivity|].
  apply (logSlice_valid_spec (mklogSlice 3 (mkentryID 1 4) [ex_entry 1 5; ex_entry 3 6]));
    [unfold is_u64; cbn; lia|vm_compute; reflexivity].
Defined.

