(* ===== verification/Storage.v ===== *)
(** * Stable storage (src/storage.go)

    [Storage] is the interface through which the log reads what the application
    has persisted; [StorageLaws] states what its documentation promises.  The
    in-memory implementation [MemoryStorage] is modelled in full (its call
    statistics and its mutex apart: every method runs under the lock) and shown
    to satisfy the laws. *)
From S2P Require Import Prelude Proto Util.

(** ** The interface *)

Class Storage (S : Type) : Type := {
  st_InitialState : S → result (option HardState * ConfState);
  st_Entries : S → Z → Z → Z → outcome (result (list Entry));
  st_Term : S → Z → outcome (result Z);
  st_LastIndex : S → result Z;
  st_FirstIndex : S → result Z;
  st_Snapshot : S → result Snapshot;
}.

(** ** Abstract logs

    A log without a prefix: the index and term of the last discarded entry and
    the entries that follow it. *)

Record slog : Type := mkslog { sl_base : Z; sl_term : Z; sl_ents : list Entry }.

Definition contiguous (base : Z) (ents : list Entry) : Prop :=
  ∀ i e, ents !! i = Some e → Entry_GetIndex e = base + 1 + Z.of_nat i.

Definition slog_last (g : slog) : Z := sl_base g + len (sl_ents g).

Definition slog_wf (g : slog) : Prop :=
  0 <= sl_base g ∧ slog_last g < MaxUint64 ∧ contiguous (sl_base g) (sl_ents g).

(** The term at an index of the log or at its base. *)
Definition slog_term (g : slog) (i : Z) : option Z :=
  if i <? sl_base g then None
  else if i =? sl_base g then Some (sl_term g)
  else Entry_GetTerm <$> sl_ents g !! Z.to_nat (i - sl_base g - 1).

(** The entry of a log at an index. *)
Definition slog_at (g : slog) (i : Z) : option Entry :=
  if sl_base g <? i then sl_ents g !! Z.to_nat (i - sl_base g - 1) else None.

Definition slog_range (g : slog) (lo hi : Z) : list Entry :=
  take (Z.to_nat (hi - lo)) (drop (Z.to_nat (lo - sl_base g - 1)) (sl_ents g)).

(** What the log expects of an implementation, in its well-formed states. *)
Class StorageLaws (S : Type) `{Protobuf} `{!Storage S} : Type := {
  st_ok : S → Prop;
  st_view : S → slog;
  st_view_wf s : st_ok s → slog_wf (st_view s);
  st_FirstIndex_ok s : st_ok s → st_FirstIndex s = Val (sl_base (st_view s) + 1);
  st_LastIndex_ok s : st_ok s → st_LastIndex s = Val (slog_last (st_view s));
  st_Term_ok s i t : st_ok s → slog_term (st_view s) i = Some t → st_Term s i = Ok (Val t);
  st_Entries_compacted s lo hi max : st_ok s → 0 <= lo <= sl_base (st_view s) →
    st_Entries s lo hi max = Ok (Err ErrCompacted);
  st_Entries_ok s lo hi max : st_ok s → sl_base (st_view s) < lo < hi →
    hi <= slog_last (st_view s) + 1 → total_size (slog_range (st_view s) lo hi) < two64 →
    ∃ n, st_Entries s lo hi max = Ok (Val (take n (slog_range (st_view s) lo hi))) ∧
      (1 <= n <= Z.to_nat (hi - lo))%nat ∧
      (n = 1%nat ∨ total_size (take n (slog_range (st_view s) lo hi)) <= max);
  st_Entries_prefix s lo hi max ents : st_ok s → sl_base (st_view s) < lo < hi →
    hi <= slog_last (st_view s) + 1 → st_Entries s lo hi max = Ok (Val ents) →
    ents `prefix_of` slog_range (st_view s) lo hi;
}.

(** ** MemoryStorage *)

Record MemoryStorage : Type := mkMemoryStorage {
  ms_hardState : option HardState;
  ms_snapshot : option Snapshot;
  ms_ents : list Entry;  (* ents[i] has raft log position i + ents[0].Index *)
}.

Definition NewMemoryStorage : MemoryStorage :=
  mkMemoryStorage None (Some (EnsureSnapshot None)) [Entry0].

Definition ms_InitialState (ms : MemoryStorage) : result (option HardState * ConfState) :=
  let cs := SnapshotMetadata_GetConfState (Snapshot_GetMetadata (ms_snapshot ms)) in
  Val (ms_hardState ms, EnsureConfState cs).

Definition ms_SetHardState (st : option HardState) (ms : MemoryStorage) : MemoryStorage :=
  mkMemoryStorage st (ms_snapshot ms) (ms_ents ms).

(** [ms.ents[0].GetIndex()]; the slice is never empty. *)
Definition ms_offset (ms : MemoryStorage) : Z := default 0 (Entry_GetIndex <$> head (ms_ents ms)).

Definition ms_lastIndex (ms : MemoryStorage) : Z := ms_offset ms +! len (ms_ents ms) -! 1.

Definition ms_firstIndex (ms : MemoryStorage) : Z := ms_offset ms +! 1.

Definition ms_LastIndex (ms : MemoryStorage) : result Z := Val (ms_lastIndex ms).

Definition ms_FirstIndex (ms : MemoryStorage) : result Z := Val (ms_firstIndex ms).

Definition ms_Term (ms : MemoryStorage) (i : Z) : outcome (result Z) :=
  let offset := ms_offset ms in
  if i <? offset then Ok (Err ErrCompacted)
  else if len (ms_ents ms) <=? go_int (i -! offset) then Ok (Err ErrUnavailable)
  else e ← go_index (ms_ents ms) (i -! offset); Ok (Val (Entry_GetTerm e)).

Definition ms_Entries `{Protobuf} (ms : MemoryStorage) (lo hi maxSize : Z) :
    outcome (result (list Entry)) :=
  let offset := ms_offset ms in
  if lo <=? offset then Ok (Err ErrCompacted)
  else if ms_lastIndex ms +! 1 <? hi then Panic "entries' hi is out of bound lastindex"
  else if len (ms_ents ms) =? 1 then Ok (Err ErrUnavailable)
  else
    ents ← go_slice (ms_ents ms) (lo -! offset) (hi -! offset);
    Ok (Val (limitSize ents maxSize)).

(** [Snapshot] also normalises the stored snapshot; a nil snapshot reads as the
    zero one. *)
Definition ms_Snapshot (ms : MemoryStorage) : result Snapshot :=
  Val (EnsureSnapshot (ms_snapshot ms)).

Definition ms_ApplySnapshot (snap : option Snapshot) (ms : MemoryStorage) :
    result unit * MemoryStorage :=
  let snap := EnsureSnapshot snap in
  let msIndex := snap_index (ms_snapshot ms) in
  let snapIndex := snap_index (Some snap) in
  if negb (msIndex =? 0) && (snapIndex <=? msIndex) then (Err ErrSnapOutOfDate, ms)
  else
    (Val tt, mkMemoryStorage (ms_hardState ms) (Some snap)
       [mkEntry (Some (snap_term (Some snap))) (Some (snap_index (Some snap))) None None]).

Definition ms_CreateSnapshot (i : Z) (cs : option ConfState) (data : option bytes)
    (ms : MemoryStorage) : outcome (result Snapshot * MemoryStorage) :=
  if i <=? snap_index (ms_snapshot ms) then Ok (Err ErrSnapOutOfDate, ms)
  else
    let offset := ms_offset ms in
    if ms_lastIndex ms <? i then Panic "snapshot is out of bound lastindex"
    else
      let md := EnsureSnapshotMetadata (Snapshot_GetMetadata (ms_snapshot ms)) in
      e ← go_index (ms_ents ms) (i -! offset);
      let md := set_SnapshotMetadata_Index (Some i) md in
      let md := set_SnapshotMetadata_Term (Some (Entry_GetTerm e)) md in
      let md := match cs with
                | Some cs => set_SnapshotMetadata_ConfState (Some cs) md
                | None => md
                end in
      let snap := mkSnapshot data (Some md) in
      Ok (Val snap, mkMemoryStorage (ms_hardState ms) (Some snap) (ms_ents ms)).

Definition ms_Compact (compactIndex : Z) (ms : MemoryStorage) :
    outcome (result unit * MemoryStorage) :=
  let offset := ms_offset ms in
  if compactIndex <=? offset then Ok (Err ErrCompacted, ms)
  else if ms_lastIndex ms <? compactIndex then Panic "compact is out of bound lastindex"
  else
    let i := compactIndex -! offset in
    e ← go_index (ms_ents ms) i;
    rest ← go_from (ms_ents ms) (i +! 1);
    Ok (Val tt, mkMemoryStorage (ms_hardState ms) (ms_snapshot ms)
          (mkEntry (Some (Entry_GetTerm e)) (Some (Entry_GetIndex e)) None None :: rest)).

Definition ms_Append (entries : list Entry) (ms : MemoryStorage) : outcome MemoryStorage :=
  match entries with
  | [] => Ok ms
  | e0 :: _ =>
      let first := ms_firstIndex ms in
      let last := Entry_GetIndex e0 +! len entries -! 1 in
      if last <? first then Ok ms
      else
        entries ← (if Entry_GetIndex e0 <? first
                   then go_from entries (first -! Entry_GetIndex e0)
                   else Ok entries);
        e0 ← go_index entries 0;
        let offset := Entry_GetIndex e0 -! ms_offset ms in
        let set_ents ents := mkMemoryStorage (ms_hardState ms) (ms_snapshot ms) ents in
        if offset <? len (ms_ents ms) then
          keep ← go_slice (ms_ents ms) 0 offset;
          Ok (set_ents (keep ++ entries))
        else if offset =? len (ms_ents ms) then Ok (set_ents (ms_ents ms ++ entries))
        else Panic "missing log entry"
  end.

#[export] Instance MemoryStorage_Storage `{Protobuf} : Storage MemoryStorage := {|
  st_InitialState := ms_InitialState;
  st_Entries := ms_Entries;
  st_Term := ms_Term;
  st_LastIndex := ms_LastIndex;
  st_FirstIndex := ms_FirstIndex;
  st_Snapshot := ms_Snapshot;
|}.

(** ** Abstract logs: lemmas *)

Lemma contiguous_cons base e ents :
  contiguous base (e :: ents) ↔ Entry_GetIndex e = base + 1 ∧ contiguous (base + 1) ents.
Proof.
  split.
  - intros Hc. split.
    + rewrite (Hc 0%nat e) by done. lia.
    + intros i e' He. rewrite (Hc (S i) e') by done. lia.
  - intros [He Hc] [|i] e' H; cbn in H; [simplify_eq; lia|]. rewrite (Hc i e') by done. lia.
Qed.

Lemma contiguous_app base l k :
  contiguous base (l ++ k) ↔ contiguous base l ∧ contiguous (base + len l) k.
Proof.
  revert base. induction l as [|e l IH]; intros base; cbn [app].
  - rewrite len_nil, Z.add_0_r. split; [split; [done|done]|by intros []].
  - rewrite !contiguous_cons, IH, len_cons.
    replace (base + 1 + len l) with (base + (len l + 1)) by lia. tauto.
Qed.

Lemma contiguous_take base n l : contiguous base l → contiguous base (take n l).
Proof. intros Hc. rewrite <- (take_drop n l), contiguous_app in Hc. by destruct Hc. Qed.

Lemma contiguous_drop base n l :
  (n <= length l)%nat → contiguous base l → contiguous (base + Z.of_nat n) (drop n l).
Proof.
  intros Hn Hc. rewrite <- (take_drop n l), contiguous_app in Hc. destruct Hc as [_ Hc].
  unfold len in Hc. rewrite length_take in Hc. by replace (Z.of_nat (n `min` length l)) with (Z.of_nat n) in Hc by lia.
Qed.

Lemma contiguous_nil base : contiguous base [].
Proof. intros i e H. done. Qed.

#[export] Hint Resolve contiguous_take contiguous_nil : raft.

Lemma slog_range_length g lo hi :
  sl_base g < lo <= hi → hi <= slog_last g + 1 → len (slog_range g lo hi) = hi - lo.
Proof.
  intros. unfold slog_range, slog_last, len in *. rewrite length_take, length_drop. lia.
Qed.

Lemma slog_term_bounds g i t :
  slog_term g i = Some t → sl_base g <= i <= slog_last g.
Proof.
  unfold slog_term, slog_last, len. repeat zcase; [done|pose proof (Nat2Z.is_nonneg (length (sl_ents g))); lia|].
  destruct (_ !! _) eqn:E; [|done]. apply lookup_lt_Some in E. lia.
Qed.

Lemma slog_term_some g i :
  sl_base g <= i <= slog_last g → is_Some (slog_term g i).
Proof.
  unfold slog_term, slog_last, len. intros. repeat zcase; [lia|eauto|].
  destruct (lookup_lt_is_Some_2 (sl_ents g) (Z.to_nat (i - sl_base g - 1))) as [e ->]; [lia|].
  cbn. eauto.
Qed.

(** ** MemoryStorage: invariant and laws *)

(** The log held by a storage: the first entry is the dummy that records the
    index and term of the last compacted one. *)
Definition ms_view (ms : MemoryStorage) : slog :=
  match ms_ents ms with
  | [] => mkslog 0 0 []
  | d :: es => mkslog (Entry_GetIndex d) (Entry_GetTerm d) es
  end.

(** A storage is well-formed when its slice is not empty, its entries are
    contiguous and its indexes stay below the largest uint64. *)
Definition ms_ok (ms : MemoryStorage) : Prop :=
  ms_ents ms ≠ [] ∧ slog_wf (ms_view ms) ∧ len (ms_ents ms) < 9223372036854775808.

Lemma ms_ok_inv ms :
  ms_ok ms → ∃ d es, ms_ents ms = d :: es ∧
    ms_view ms = mkslog (Entry_GetIndex d) (Entry_GetTerm d) es ∧
    0 <= Entry_GetIndex d ∧ Entry_GetIndex d + len es < MaxUint64 ∧
    contiguous (Entry_GetIndex d) es ∧ len es + 1 < 9223372036854775808 ∧
    ms_offset ms = Entry_GetIndex d ∧ ms_firstIndex ms = Entry_GetIndex d + 1 ∧
    ms_lastIndex ms = Entry_GetIndex d + len es.
Proof.
  intros (Hne & Hwf & Hl). unfold ms_firstIndex, ms_lastIndex, ms_offset, ms_view in *.
  destruct (ms_ents ms) as [|d es]; [done|]. exists d, es.
  destruct Hwf as (?&?&?). unfold slog_last in *; cbn in *. rewrite len_cons in *.
  pose proof (len_nonneg es). split_and!; try done; u64_norm; lia.
Qed.

Ltac ms_destruct H :=
  let d := fresh "d" in let es := fresh "es" in
  destruct (ms_ok_inv _ H) as (d & es & ?Eents & ?Eview & ?Hd0 & ?Hdl & ?Hcont & ?Hlen & ?Hoff & ?Hfi & ?Hla).

Lemma ms_Term_ok ms i t :
  ms_ok ms → slog_term (ms_view ms) i = Some t → ms_Term ms i = Ok (Val t).
Proof.
  intros Hok Ht. pose proof (slog_term_bounds _ _ _ Ht) as Hb.
  ms_destruct Hok. rewrite Eview in Hb, Ht. unfold slog_last in Hb; cbn in Hb.
  unfold ms_Term. rewrite Hoff, Eents. rewrite (proj2 (Z.ltb_ge _ _)) by lia.
  rewrite sub64_small by lia. unfold go_int. rewrite (proj2 (Z.ltb_lt _ _)) by lia.
  rewrite len_cons. rewrite (proj2 (Z.leb_gt _ _)) by lia.
  unfold slog_term in Ht; cbn in Ht. zcase_in Ht; [done|]. zcase_in Ht.
  - subst. simplify_eq. by rewrite Z.sub_diag.
  - destruct (es !! _) as [e|] eqn:E; [|done]. cbn in Ht. simplify_eq.
    rewrite (go_index_Ok _ _ e); [done|lia|].
    replace (Z.to_nat (i - Entry_GetIndex d)) with (S (Z.to_nat (i - Entry_GetIndex d - 1))) by lia.
    done.
Qed.

Lemma ms_Entries_ok `{Protobuf, !ProtobufLaws _} ms lo hi max :
  ms_ok ms → sl_base (ms_view ms) < lo < hi → hi <= slog_last (ms_view ms) + 1 →
  ms_Entries ms lo hi max = Ok (Val (limitSize (slog_range (ms_view ms) lo hi) max)).
Proof.
  intros Hok Hlo Hhi. ms_destruct Hok. rewrite Eview in *. unfold slog_last in Hhi; cbn in *.
  unfold ms_Entries. rewrite Hoff, Hla, Eents. rewrite (proj2 (Z.leb_gt _ _)) by lia.
  rewrite add64_small by lia. rewrite (proj2 (Z.ltb_ge _ _)) by lia.
  rewrite len_cons. rewrite (proj2 (Z.eqb_neq _ _)) by lia.
  rewrite !sub64_small by lia. rewrite go_slice_Ok by (rewrite ?len_cons; lia).
  cbn [mbind outcome_bind]. do 3 f_equal. unfold slog_range; cbn.
  replace (Z.to_nat (lo - Entry_GetIndex d)) with (S (Z.to_nat (lo - Entry_GetIndex d - 1))) by lia.
  cbn. f_equal. lia.
Qed.

(** MemoryStorage discharges the laws of the interface. *)
#[export, refine] Instance MemoryStorage_Laws `{Protobuf, !ProtobufLaws _} :
    StorageLaws MemoryStorage := {| st_ok := ms_ok; st_view := ms_view |}.
Proof.
  - by intros s (_ & ? & _).
  - intros s Hok. ms_destruct Hok. cbn. unfold ms_FirstIndex. by rewrite Hfi, Eview.
  - intros s Hok. ms_destruct Hok. cbn. unfold ms_LastIndex. by rewrite Hla, Eview.
  - intros. by apply ms_Term_ok.
  - intros s lo hi max Hok Hlo. ms_destruct Hok. rewrite Eview in Hlo. cbn in *. unfold ms_Entries.
    rewrite Hoff. by rewrite (proj2 (Z.leb_le _ _)) by lia.
  - intros s lo hi max Hok Hlo Hhi Hsz.
    cbn [st_Entries MemoryStorage_Storage]. rewrite ms_Entries_ok by done.
    pose proof (slog_range_length (ms_view s) lo hi ltac:(lia) ltac:(lia)) as Hlen. unfold len in Hlen.
    destruct (limitSize_spec (slog_range (ms_view s) lo hi) max) as (n & -> & Hn & Hmax & _); [done| |].
    { intros E. rewrite E in Hlen. cbn in Hlen. lia. }
    exists n. split; [done|]. split; [lia|done].
  - intros s lo hi max ents Hok Hlo Hhi. cbn [st_Entries MemoryStorage_Storage]. rewrite ms_Entries_ok by done.
    intros [= <-]. apply limitSize_prefix.
Defined.

(** ** MemoryStorage: what the writers do *)

(** Writing entries that follow index [p]: the existing entries after [p] are
    discarded, and so are new entries that are already compacted. *)
Definition slog_append (g : slog) (p : Z) (entries : list Entry) : slog :=
  if p + len entries <=? sl_base g then g
  else mkslog (sl_base g) (sl_term g)
         (take (Z.to_nat (Z.max p (sl_base g) - sl_base g)) (sl_ents g)
            ++ drop (Z.to_nat (sl_base g - p)) entries).

Lemma slog_append_wf g p entries :
  slog_wf g → 0 <= p <= slog_last g → contiguous p entries → p + len entries < MaxUint64 →
  slog_wf (slog_append g p entries).
Proof.
  intros (Hb & Hl & Hc) Hp Hce Hpl. unfold slog_append. zcase; [done|].
  unfold slog_wf, slog_last in *; cbn in *. unfold len in *. rewrite length_app, length_take, length_drop.
  split; [done|]. split; [lia|]. apply contiguous_app. split; [auto with raft|].
  unfold len. rewrite length_take.
  replace (sl_base g + _) with (p + Z.of_nat (Z.to_nat (sl_base g - p))) by lia.
  apply contiguous_drop; [lia|done].
Qed.

Lemma ms_Append_view ms p entries :
  ms_ok ms → entries ≠ [] → contiguous p entries →
  0 <= p <= slog_last (ms_view ms) → p + len entries < MaxUint64 →
  len (ms_ents ms) + len entries < 9223372036854775808 →
  ∃ ms', ms_Append entries ms = Ok ms' ∧ ms_ok ms' ∧
    ms_view ms' = slog_append (ms_view ms) p entries ∧ ms_snapshot ms' = ms_snapshot ms.
Proof.
  intros Hok Hne Hce Hp Hpl Hlb.
  pose proof (slog_append_wf (ms_view ms) p entries ltac:(by destruct Hok as (_&?&_)) Hp Hce Hpl) as Hwf'.
  destruct entries as [|e0 entries]; [done|].
  assert (Entry_GetIndex e0 = p + 1) as He0 by (rewrite (Hce 0%nat e0) by done; lia).
  ms_destruct Hok. unfold ms_Append. rewrite Hfi, He0. revert Hwf'. rewrite Eview in *.
  unfold slog_append, slog_last in *. cbn [sl_base sl_term sl_ents] in *.
  pose proof (len_nonneg entries). rewrite !len_cons in *. rewrite Eents in *.
  rewrite len_cons in *. rewrite (add64_small (p + 1)), sub64_small by lia.
  destruct (Z.ltb_spec (p + 1 + (len entries + 1) - 1) (Entry_GetIndex d + 1)) as [Hall|Hsome].
  { intros _. rewrite (proj2 (Z.leb_le _ _)) by lia. exists ms. split_and!; done. }
  rewrite (proj2 (Z.leb_gt _ _)) by lia. intros Hwf'.
  set (k := Z.max 0 (Entry_GetIndex d - p)).
  assert ((if p + 1 <? Entry_GetIndex d + 1
           then go_from (e0 :: entries) (Entry_GetIndex d + 1 -! (p + 1)) else Ok (e0 :: entries))
          = Ok (drop (Z.to_nat k) (e0 :: entries))) as ->.
  { unfold k. zcase.
    - rewrite sub64_small by lia. rewrite go_from_Ok by (rewrite len_cons; lia).
      do 2 f_equal. lia.
    - by replace (Z.to_nat _) with 0%nat by lia. }
  cbn [mbind outcome_bind].
  assert (Z.to_nat k < length (e0 :: entries))%nat as Hk by (cbn; unfold len, k in *; lia).
  destruct (lookup_lt_is_Some_2 _ _ Hk) as [e1 He1].
  assert (Entry_GetIndex e1 = p + 1 + k) as Hie1 by (rewrite (Hce _ _ He1); unfold k; lia).
  rewrite (go_index_Ok _ _ e1); [|lia|by rewrite lookup_drop, Nat.add_0_r].
  cbn [mbind outcome_bind]. rewrite Hoff, Hie1. rewrite (sub64_small (p + 1 + k)) by (unfold k; lia).
  replace (Z.to_nat (Entry_GetIndex d - p)) with (Z.to_nat k) in Hwf' |- * by (unfold k; lia).
  set (m := Z.max p (Entry_GetIndex d) - Entry_GetIndex d) in *.
  replace (p + 1 + k - Entry_GetIndex d) with (m + 1) by (unfold k, m; lia).
  assert (∀ es', es' = take (Z.to_nat m) es ++ drop (Z.to_nat k) (e0 :: entries) →
    ∃ ms' : MemoryStorage,
      Ok (mkMemoryStorage (ms_hardState ms) (ms_snapshot ms) (d :: es')) = Ok ms' ∧ ms_ok ms' ∧
      ms_view ms' = mkslog (Entry_GetIndex d) (Entry_GetTerm d)
        (take (Z.to_nat m) es ++ drop (Z.to_nat k) (e0 :: entries)) ∧
      ms_snapshot ms' = ms_snapshot ms) as Hfin.
  { intros es' ->. eexists. split; [done|]. split; [|done]. split; [done|]. split; [done|].
    cbn [ms_ents]. rewrite len_cons. unfold len in *. rewrite length_app, length_take, length_drop.
    cbn [length]. lia. }
  destruct (Z.ltb_spec (m + 1) (len es + 1)).
  - rewrite go_slice_Ok by (rewrite ?len_cons; unfold m in *; lia). cbn [mbind outcome_bind].
    rewrite Z.sub_0_r. change (Z.to_nat 0) with 0%nat. rewrite drop_0.
    replace (Z.to_nat (m + 1)) with (S (Z.to_nat m)) by (unfold m; lia).
    cbn [take app]. by apply Hfin.
  - pose proof (len_nonneg es). rewrite (proj2 (Z.eqb_eq _ _)) by (unfold m in *; lia). cbn [app]. apply Hfin.
    rewrite take_ge; [done|]. unfold len in *. lia.
Qed.

(** C38. Appending contiguous entries to a MemoryStorage: existing entries from
    the first new index on are replaced, already compacted ones are skipped,
    everything before is kept, and reading the written range back (without a
    size limit) returns exactly the written entries. *)
Theorem ms_Append_roundtrip `{Protobuf, !ProtobufLaws _} ms p entries :
  ms_ok ms → entries ≠ [] → contiguous p entries →
  sl_base (ms_view ms) <= p <= slog_last (ms_view ms) → p + len entries < MaxUint64 →
  len (ms_ents ms) + len entries < 9223372036854775808 → total_size entries < two64 →
  ∃ ms', ms_Append entries ms = Ok ms' ∧ ms_ok ms' ∧
    ms_Entries ms' (p + 1) (p + len entries + 1) noLimit = Ok (Val entries) ∧
    ms_lastIndex ms' = p + len entries ∧
    (∀ i, i <= p → slog_term (ms_view ms') i = slog_term (ms_view ms) i).
Proof.
  intros Hok Hne Hce Hp Hpl Hlb Hsz. pose proof (proj1 (proj1 (proj2 Hok))) as Hb0.
  destruct (ms_Append_view ms p entries) as (ms' & E & Hok' & Hv & _); try done; [lia|].
  exists ms'. split; [done|]. split; [done|].
  assert (0 < len entries) by (destruct entries; [done|rewrite len_cons; pose proof (len_nonneg entries); lia]).
  assert (ms_view ms' = mkslog (sl_base (ms_view ms)) (sl_term (ms_view ms))
    (take (Z.to_nat (p - sl_base (ms_view ms))) (sl_ents (ms_view ms)) ++ entries)) as Hv'.
  { rewrite Hv. unfold slog_append. rewrite (proj2 (Z.leb_gt _ _)) by lia.
    rewrite Z.max_l by lia. by replace (Z.to_nat (sl_base _ - p)) with 0%nat by lia. }
  unfold slog_last, len in Hp.
  assert (length (take (Z.to_nat (p - sl_base (ms_view ms))) (sl_ents (ms_view ms)))
          = Z.to_nat (p - sl_base (ms_view ms))) as Hlt by (rewrite length_take; lia).
  assert (slog_last (ms_view ms') = p + len entries) as Hlast.
  { rewrite Hv'. unfold slog_last; cbn. rewrite len_app. unfold len at 1. rewrite Hlt. lia. }
  split; [|split].
  - rewrite ms_Entries_ok; [|done|rewrite Hv'; cbn; lia|rewrite Hlast; lia].
    assert (slog_range (ms_view ms') (p + 1) (p + len entries + 1) = entries) as ->.
    { rewrite Hv'. unfold slog_range; cbn. replace (p + 1 - _ - 1) with (p - sl_base (ms_view ms)) by lia.
      rewrite <- Hlt at 1. rewrite drop_app_length. apply take_ge. unfold len. lia. }
    do 2 f_equal. destruct (limitSize_spec entries noLimit Hsz Hne) as (n & -> & Hn & _ & [->|Hbig]).
    + by rewrite take_ge.
    + rewrite <- (take_drop (S n) entries), total_size_app in Hsz.
      pose proof (total_size_nonneg (drop (S n) entries)). unfold noLimit in *. lia.
  - ms_destruct Hok'. rewrite <- Hlast, Eview. done.
  - intros i Hi. rewrite Hv'. unfold slog_term; cbn. repeat zcase; [done|done|].
    f_equal. rewrite lookup_app_l by lia. apply lookup_take_lt. lia.
Qed.

#[local] Existing Instances sample_Protobuf sample_ProtobufLaws.

(** A storage compacted to (index 5, term 1) that holds the entries 6 to 8. *)
Definition ex_storage : MemoryStorage :=
  mkMemoryStorage None (Some (EnsureSnapshot None))
    [ex_entry 1 5; ex_entry 1 6; ex_entry 2 7; ex_entry 2 8].

Lemma contiguous_check base ents :
  forallb (fun '(i, e) => Entry_GetIndex e =? base + 1 + Z.of_nat i) (imap pair ents) = true →
  contiguous base ents.
Proof.
  rewrite forallb_forall. intros Hf i e He.
  specialize (Hf (i, e)). apply Z.eqb_eq. apply Hf. apply list_elem_of_In.
  apply list_elem_of_lookup. exists i. by rewrite list_lookup_imap, He.
Qed.

Lemma ex_storage_ok : ms_ok ex_storage.
Proof.
  split; [done|]. split; [|done]. split; [done|]. split; [done|].
  apply contiguous_check. vm_compute. reflexivity.
Qed.

Lemma ms_Append_roundtrip_witness :
  ∃ ms', ms_Append [ex_entry 3 7; ex_entry 3 8; ex_entry 3 9] ex_storage = Ok ms' ∧ ms_ok ms' ∧
    ms_Entries ms' 7 10 noLimit = Ok (Val [ex_entry 3 7; ex_entry 3 8; ex_entry 3 9]) ∧
    ms_lastIndex ms' = 9 ∧
    (∀ i, i <= 6 → slog_term (ms_view ms') i = slog_term (ms_view ex_storage) i).
Proof.
  apply (ms_Append_roundtrip ex_storage 6 [ex_entry 3 7; ex_entry 3 8; ex_entry 3 9]);
    [apply ex_storage_ok|discriminate|apply contiguous_check; vm_compute; reflexivity
    |vm_compute; split; congruence|vm_compute; reflexivity..].
Defined.

Lemma ms_Compact_view ms ci :
  ms_ok ms → sl_base (ms_view ms) < ci <= slog_last (ms_view ms) →
  ∃ ms' t, ms_Compact ci ms = Ok (Val tt, ms') ∧ ms_ok ms' ∧
    slog_term (ms_view ms) ci = Some t ∧
    ms_view ms' = mkslog ci t (drop (Z.to_nat (ci - sl_base (ms_view ms))) (sl_ents (ms_view ms))) ∧
    ms_snapshot ms' = ms_snapshot ms.
Proof.
  intros Hok Hci. ms_destruct Hok. rewrite Eview in *. unfold slog_last in Hci; cbn in Hci.
  unfold ms_Compact. rewrite Hoff, Hla, Eents. rewrite (proj2 (Z.leb_gt _ _)) by lia.
  rewrite (proj2 (Z.ltb_ge _ _)) by lia. rewrite sub64_small by lia.
  destruct (slog_term_some (mkslog (Entry_GetIndex d) (Entry_GetTerm d) es) ci) as [t Ht];
    [unfold slog_last; cbn; lia|].
  pose proof Ht as Ht'. unfold slog_term in Ht'; cbn in Ht'.
  rewrite (proj2 (Z.ltb_ge _ _)), (proj2 (Z.eqb_neq _ _)) in Ht' by lia.
  destruct (es !! _) as [e|] eqn:E in Ht'; [|done]. cbn in Ht'. simplify_eq.
  rewrite (go_index_Ok _ _ e); [|lia|].
  2:{ replace (Z.to_nat (ci - Entry_GetIndex d)) with (S (Z.to_nat (ci - Entry_GetIndex d - 1))) by lia.
      done. }
  cbn [mbind outcome_bind]. rewrite add64_small by lia.
  rewrite go_from_Ok by (rewrite len_cons; lia). cbn [mbind outcome_bind].
  replace (Z.to_nat (ci - Entry_GetIndex d + 1)) with (S (Z.to_nat (ci - Entry_GetIndex d))) by lia.
  cbn [drop].
  assert (Entry_GetIndex e = ci) as Hie by (rewrite (Hcont _ _ E); lia).
  eexists _, _. split; [done|]. rewrite Hie. cbn [ms_snapshot].
  assert (len (drop (Z.to_nat (ci - Entry_GetIndex d)) es) = len es - (ci - Entry_GetIndex d)) as Hld
    by (rewrite len_drop; lia).
  split_and!; try done. split; [done|]. split.
  - split; [cbn; lia|]. unfold ms_view; cbn. unfold slog_last; cbn. rewrite Hld. split; [lia|].
    replace ci with (Entry_GetIndex d + Z.of_nat (Z.to_nat (ci - Entry_GetIndex d))) at 1 by lia.
    apply contiguous_drop; [unfold len in *; lia|done].
  - cbn [ms_ents]. rewrite len_cons. lia.
Qed.

(** Compaction drops exactly the entries up to the compact index, keeps the
    term at that index for later matching, and leaves every later entry
    readable as before. *)
Theorem ms_Compact_keeps_tail ms ci :
  ms_ok ms → sl_base (ms_view ms) < ci <= slog_last (ms_view ms) →
  ∃ ms', ms_Compact ci ms = Ok (Val tt, ms') ∧ ms_ok ms' ∧
    ms_firstIndex ms' = ci + 1 ∧ ms_lastIndex ms' = ms_lastIndex ms ∧
    (∀ i, ci <= i → slog_term (ms_view ms') i = slog_term (ms_view ms) i) ∧
    (∀ lo hi, ci < lo → slog_range (ms_view ms') lo hi = slog_range (ms_view ms) lo hi).
Proof.
  intros Hok Hci. destruct (ms_Compact_view ms ci Hok Hci) as (ms' & t & E & Hok' & Ht & Hv & _).
  exists ms'. unfold slog_last in Hci. split; [done|]. split; [done|]. split_and!.
  - ms_destruct Hok'. rewrite Hv in Eview. injection Eview as -> _ _. done.
  - ms_destruct Hok. ms_destruct Hok'. rewrite Hla0, Hla.
    rewrite Eview in *. cbn in *. rewrite Hv in Eview0. injection Eview0 as <- _ <-.
    rewrite len_drop by lia. lia.
  - intros i Hi. rewrite Hv. unfold slog_term; cbn. repeat zcase; try lia.
    + subst. rewrite <- Ht. unfold slog_term.
      by rewrite (proj2 (Z.ltb_ge _ _)), (proj2 (Z.eqb_neq _ _)) by lia.
    + rewrite lookup_drop. do 2 f_equal. lia.
  - intros lo hi Hlo. rewrite Hv. unfold slog_range; cbn. rewrite drop_drop. do 2 f_equal. lia.
Qed.

Lemma ms_Compact_keeps_tail_witness :
  ∃ ms', ms_Compact 7 ex_storage = Ok (Val tt, ms') ∧ ms_ok ms' ∧
    ms_firstIndex ms' = 8 ∧ ms_lastIndex ms' = ms_lastIndex ex_storage ∧
    (∀ i, 7 <= i → slog_term (ms_view ms') i = slog_term (ms_view ex_storage) i) ∧
    (∀ lo hi, 7 < lo → slog_range (ms_view ms') lo hi = slog_range (ms_view ex_storage) lo hi).
Proof.
  apply (ms_Compact_keeps_tail ex_storage 7); [apply ex_storage_ok|vm_compute; split; congruence].
Defined.
