(* ===== verification/Unstable.v ===== *)
(** * The unstable part of the log (src/log_unstable.go)

    Entries and a snapshot that have not yet been written to stable storage. *)
From S2P Require Import Prelude Proto Util Storage.

Record unstable : Type := mkunstable {
  unstable_snapshot : option Snapshot;
  unstable_entries : list Entry;
  unstable_offset : Z;
  unstable_snapshotInProgress : bool;
  unstable_offsetInProgress : Z;
}.

Definition set_unstable_snapshot (v : option Snapshot) (r : unstable) : unstable :=
  mkunstable v (unstable_entries r) (unstable_offset r) (unstable_snapshotInProgress r)
    (unstable_offsetInProgress r).

Definition set_unstable_entries (v : list Entry) (r : unstable) : unstable :=
  mkunstable (unstable_snapshot r) v (unstable_offset r) (unstable_snapshotInProgress r)
    (unstable_offsetInProgress r).

Definition set_unstable_offset (v : Z) (r : unstable) : unstable :=
  mkunstable (unstable_snapshot r) (unstable_entries r) v (unstable_snapshotInProgress
    r) (unstable_offsetInProgress r).

Definition set_unstable_snapshotInProgress (v : bool) (r : unstable) : unstable :=
  mkunstable (unstable_snapshot r) (unstable_entries r) (unstable_offset r) v
    (unstable_offsetInProgress r).

Definition set_unstable_offsetInProgress (v : Z) (r : unstable) : unstable :=
  mkunstable (unstable_snapshot r) (unstable_entries r) (unstable_offset r)
    (unstable_snapshotInProgress r) v.

(** ** Operations *)

Definition unstable_maybeFirstIndex (u : unstable) : option Z :=
  match unstable_snapshot u with
  | Some s => Some (snap_index (Some s) +! 1)
  | None => None
  end.

Definition unstable_maybeLastIndex (u : unstable) : option Z :=
  if negb (len (unstable_entries u) =? 0) then
    Some (unstable_offset u +! len (unstable_entries u) -! 1)
  else match unstable_snapshot u with
       | Some s => Some (snap_index (Some s))
       | None => None
       end.

Definition unstable_maybeTerm (u : unstable) (i : Z) : outcome (option Z) :=
  if i <? unstable_offset u then
    match unstable_snapshot u with
    | Some s => if snap_index (Some s) =? i then Ok (Some (snap_term (Some s))) else Ok None
    | None => Ok None
    end
  else match unstable_maybeLastIndex u with
       | None => Ok None
       | Some last =>
           if last <? i then Ok None
           else e ← go_index (unstable_entries u) (i -! unstable_offset u);
                Ok (Some (Entry_GetTerm e))
       end.

Definition unstable_nextEntries (u : unstable) : outcome (list Entry) :=
  let inProgress := go_int (unstable_offsetInProgress u -! unstable_offset u) in
  if len (unstable_entries u) =? inProgress then Ok []
  else go_from (unstable_entries u) inProgress.

Definition unstable_nextSnapshot (u : unstable) : option Snapshot :=
  match unstable_snapshot u with
  | None => None
  | Some s => if unstable_snapshotInProgress u then None else Some s
  end.

Definition unstable_acceptInProgress (u : unstable) : unstable :=
  let u := match last (unstable_entries u) with
           | Some e => set_unstable_offsetInProgress (Entry_GetIndex e +! 1) u
           | None => u
           end in
  match unstable_snapshot u with
  | Some _ => set_unstable_snapshotInProgress true u
  | None => u
  end.

(** [shrinkEntriesArray] only replaces the backing array of the slice; the
    entries stay the same. *)
Definition unstable_shrinkEntriesArray (u : unstable) : unstable :=
  if len (unstable_entries u) =? 0 then set_unstable_entries [] u
  else set_unstable_entries (unstable_entries u) u.

Definition unstable_stableTo (id : entryID) (u : unstable) : outcome unstable :=
  gt ← unstable_maybeTerm u (entryID_index id);
  match gt with
  | None => Ok u
  | Some gt =>
      if entryID_index id <? unstable_offset u then Ok u
      else if negb (gt =? entryID_term id) then Ok u
      else
        let num := go_int (entryID_index id +! 1 -! unstable_offset u) in
        ents ← go_from (unstable_entries u) num;
        let u := set_unstable_entries ents u in
        let u := set_unstable_offset (entryID_index id +! 1) u in
        let u := set_unstable_offsetInProgress
                   (Z.max (unstable_offsetInProgress u) (unstable_offset u)) u in
        Ok (unstable_shrinkEntriesArray u)
  end.

Definition unstable_stableSnapTo (i : Z) (u : unstable) : unstable :=
  match unstable_snapshot u with
  | Some s =>
      if snap_index (Some s) =? i
      then set_unstable_snapshotInProgress false (set_unstable_snapshot None u)
      else u
  | None => u
  end.

Definition unstable_restore (s : Snapshot) (u : unstable) : unstable :=
  let u := set_unstable_offset (snap_index (Some s) +! 1) u in
  let u := set_unstable_offsetInProgress (unstable_offset u) u in
  let u := set_unstable_entries [] u in
  let u := set_unstable_snapshot (Some s) u in
  set_unstable_snapshotInProgress false u.

Definition unstable_mustCheckOutOfBounds (u : unstable) (lo hi : Z) : outcome unit :=
  if hi <? lo then Panic "invalid unstable.slice"
  else
    let upper := unstable_offset u +! len (unstable_entries u) in
    if (lo <? unstable_offset u) || (upper <? hi) then Panic "unstable.slice out of bound"
    else Ok tt.

Definition unstable_slice (u : unstable) (lo hi : Z) : outcome (list Entry) :=
  _ ← unstable_mustCheckOutOfBounds u lo hi;
  go_slice (unstable_entries u) (lo -! unstable_offset u) (hi -! unstable_offset u).

Definition unstable_truncateAndAppend (ents : list Entry) (u : unstable) : outcome unstable :=
  e0 ← go_index ents 0;
  let fromIndex := Entry_GetIndex e0 in
  if fromIndex =? unstable_offset u +! len (unstable_entries u) then
    Ok (set_unstable_entries (unstable_entries u ++ ents) u)
  else if fromIndex <=? unstable_offset u then
    let u := set_unstable_entries ents u in
    let u := set_unstable_offset fromIndex u in
    Ok (set_unstable_offsetInProgress (unstable_offset u) u)
  else
    keep ← unstable_slice u (unstable_offset u) fromIndex;
    let u := set_unstable_entries (keep ++ ents) u in
    Ok (set_unstable_offsetInProgress (Z.min (unstable_offsetInProgress u) fromIndex) u).

(** ** Invariant *)

(** Index [i] is held by the unstable entries. *)
Definition unstable_entry (u : unstable) (i : Z) : option Entry :=
  if i <? unstable_offset u then None
  else unstable_entries u !! Z.to_nat (i - unstable_offset u).

(** [entries[i]] has log position [offset + i]; the in-progress mark lies inside
    the entries; a pending snapshot ends before them. *)
Record unstable_wf (u : unstable) : Prop := mkunstable_wf {
  uwf_offset : 1 <= unstable_offset u;
  uwf_bound : unstable_offset u + len (unstable_entries u) <= MaxUint64;
  uwf_len : len (unstable_entries u) < 9223372036854775808;
  uwf_contig : contiguous (unstable_offset u - 1) (unstable_entries u);
  uwf_progress : unstable_offset u <= unstable_offsetInProgress u
                 <= unstable_offset u + len (unstable_entries u);
  uwf_snap : ∀ s, unstable_snapshot u = Some s → 0 <= snap_index (Some s) < unstable_offset u;
  uwf_snapip : unstable_snapshot u = None → unstable_snapshotInProgress u = false;
}.

Lemma last_index_contiguous base ents e :
  contiguous base ents → last ents = Some e → Entry_GetIndex e = base + len ents.
Proof.
  intros Hc Hl. rewrite last_lookup in Hl. rewrite (Hc _ _ Hl).
  apply lookup_lt_Some in Hl. unfold len. lia.
Qed.

Lemma maybeLastIndex_ok u :
  unstable_wf u →
  unstable_maybeLastIndex u =
    match unstable_entries u with
    | [] => (fun s => snap_index (Some s)) <$> unstable_snapshot u
    | _ => Some (unstable_offset u + len (unstable_entries u) - 1)
    end.
Proof.
  intros [Ho Hb Hl Hc Hp Hs Hsi]. unfold unstable_maybeLastIndex.
  destruct (unstable_entries u) as [|e es]; [by destruct (unstable_snapshot u)|].
  rewrite len_cons in *. pose proof (len_nonneg es).
  rewrite (proj2 (Z.eqb_neq _ _)) by lia. cbn [negb]. f_equal. u64_norm. lia.
Qed.

Lemma maybeTerm_ok u i :
  unstable_wf u → 0 <= i <= MaxUint64 →
  unstable_maybeTerm u i =
    Ok (if i <? unstable_offset u then
          match unstable_snapshot u with
          | Some s => if snap_index (Some s) =? i then Some (snap_term (Some s)) else None
          | None => None
          end
        else Entry_GetTerm <$> unstable_entry u i).
Proof.
  intros Hwf Hi. pose proof Hwf as [Ho Hb Hl Hc Hp Hs Hsi]. unfold unstable_maybeTerm, unstable_entry.
  destruct (Z.ltb_spec i (unstable_offset u)) as [Hlt|Hge].
  { destruct (unstable_snapshot u); [by zcase|done]. }
  rewrite (maybeLastIndex_ok u Hwf).
  destruct (unstable_entries u) as [|e es] eqn:Ee.
  { destruct (unstable_snapshot u) as [s|] eqn:Es; [|done]. specialize (Hs s eq_refl).
    cbn [fmap option_fmap option_map]. by rewrite (proj2 (Z.ltb_lt (snap_index (Some s)) i)) by lia. }
  rewrite <- Ee in *. zcase.
  - rewrite lookup_ge_None_2; [done|]. unfold len in *. lia.
  - rewrite sub64_small by lia.
    destruct (lookup_lt_is_Some_2 (unstable_entries u) (Z.to_nat (i - unstable_offset u))) as [e' He'];
      [unfold len in *; lia|].
    rewrite (go_index_Ok _ _ e') by (done || lia). cbn. by rewrite He'.
Qed.

Lemma unstable_slice_ok u lo hi :
  unstable_wf u → unstable_offset u <= lo <= hi →
  hi <= unstable_offset u + len (unstable_entries u) →
  unstable_slice u lo hi =
    Ok (take (Z.to_nat (hi - lo)) (drop (Z.to_nat (lo - unstable_offset u)) (unstable_entries u))).
Proof.
  intros [Ho Hb Hl Hc Hp Hs Hsi] Hlo Hhi. unfold unstable_slice, unstable_mustCheckOutOfBounds.
  rewrite (proj2 (Z.ltb_ge hi lo)) by lia. rewrite add64_small by lia.
  rewrite (proj2 (Z.ltb_ge lo _)), (proj2 (Z.ltb_ge _ hi)) by lia. cbn [orb mbind outcome_bind].
  rewrite !sub64_small by lia. rewrite go_slice_Ok by lia. do 3 f_equal. lia.
Qed.

Lemma acceptInProgress_wf u :
  unstable_wf u →
  unstable_wf (unstable_acceptInProgress u) ∧
  unstable_entries (unstable_acceptInProgress u) = unstable_entries u ∧
  unstable_offset (unstable_acceptInProgress u) = unstable_offset u ∧
  unstable_snapshot (unstable_acceptInProgress u) = unstable_snapshot u.
Proof.
  intros [Ho Hb Hl Hc Hp Hs Hsi]. unfold unstable_acceptInProgress.
  destruct (last (unstable_entries u)) as [e|] eqn:E.
  - apply (last_index_contiguous _ _ _ Hc) in E. cbn.
    destruct (unstable_snapshot u) eqn:Es; (split; [split; cbn; rewrite ?Es; try done; u64_norm; lia|done]).
  - cbn. destruct (unstable_snapshot u) eqn:Es; (split; [split; cbn; rewrite ?Es; done|done]).
Qed.

Lemma stableSnapTo_wf i u : unstable_wf u → unstable_wf (unstable_stableSnapTo i u).
Proof.
  intros Hwf. pose proof Hwf as [Ho Hb Hl Hc Hp Hs Hsi]. unfold unstable_stableSnapTo.
  destruct (unstable_snapshot u); [|done]. zcase; [|done]. split; cbn; done.
Qed.

Lemma restore_wf s u :
  0 <= snap_index (Some s) < MaxUint64 → unstable_wf (unstable_restore s u).
Proof.
  intros Hi.
  assert (unstable_restore s u = mkunstable (Some s) [] (snap_index (Some s) + 1) false
            (snap_index (Some s) + 1)) as -> by (rewrite <- !add64_small by lia; reflexivity).
  split; cbn [unstable_offset unstable_entries unstable_snapshot unstable_offsetInProgress
    unstable_snapshotInProgress]; rewrite ?len_nil; auto with raft; try lia.
  intros s' [= <-]. lia.
Qed.

Lemma truncateAndAppend_ok u p ents :
  unstable_wf u → ents ≠ [] → contiguous p ents → 0 <= p →
  p + 1 <= unstable_offset u + len (unstable_entries u) →
  p + len ents < MaxUint64 →
  len (unstable_entries u) + len ents < 9223372036854775808 →
  (∀ s, unstable_snapshot u = Some s → snap_index (Some s) <= p) →
  ∃ u', unstable_truncateAndAppend ents u = Ok u' ∧ unstable_wf u' ∧
    unstable_offset u' = Z.min (unstable_offset u) (p + 1) ∧
    unstable_entries u' =
      take (Z.to_nat (p + 1 - unstable_offset u)) (unstable_entries u) ++ ents ∧
    unstable_offsetInProgress u' = Z.min (unstable_offsetInProgress u) (p + 1) ∧
    unstable_snapshot u' = unstable_snapshot u ∧
    unstable_snapshotInProgress u' = unstable_snapshotInProgress u.
Proof.
  intros Hwf Hne Hce Hp0 Hgap Hpl Hlb Hsn. pose proof Hwf as [Ho Hb Hl Hc Hp Hs Hsi].
  assert (∃ e0 es, ents = e0 :: es) as (e0 & es & Ee) by (destruct ents; [done|eauto]).
  assert (Entry_GetIndex e0 = p + 1) as He0 by (rewrite (Hce 0%nat e0) by (by subst); lia).
  assert (0 < len ents) by (subst; rewrite len_cons; pose proof (len_nonneg es); lia).
  unfold unstable_truncateAndAppend. rewrite (go_index_Ok _ _ e0) by (by subst).
  cbn [mbind outcome_bind]. rewrite He0. rewrite add64_small by lia.
  destruct (Z.eqb_spec (p + 1) (unstable_offset u + len (unstable_entries u))) as [Heq|Hneq].
  - eexists. split; [done|]. cbn. rewrite Heq. split.
    { split; cbn; rewrite ?len_app; try done; try lia. apply contiguous_app. split; [done|].
      by replace (unstable_offset u - 1 + _) with p by lia. }
    split; [lia|]. split; [|split; [lia|done]]. f_equal. rewrite take_ge; [done|]. unfold len. lia.
  - destruct (Z.leb_spec (p + 1) (unstable_offset u)) as [Hle|Hgt].
    + eexists. split; [done|]. cbn. split.
      { split; cbn; try done; try lia.
        - by replace (p + 1 - 1) with p by lia.
        - intros s Es. specialize (Hsn s Es). specialize (Hs s Es). lia. }
      split; [lia|]. split; [|split; [lia|done]].
      by replace (Z.to_nat (p + 1 - unstable_offset u)) with 0%nat by lia.
    + rewrite unstable_slice_ok by (done || lia). cbn [mbind outcome_bind].
      rewrite Z.sub_diag. change (Z.to_nat 0) with 0%nat. rewrite drop_0.
      assert (len (take (Z.to_nat (p + 1 - unstable_offset u)) (unstable_entries u))
              = p + 1 - unstable_offset u) as Hlt by (rewrite len_take; lia).
      eexists. split; [done|]. cbn. split.
      { split; cbn; rewrite ?len_app, ?Hlt; try done; try lia.
        apply contiguous_app. split; [auto with raft|]. rewrite Hlt.
        by replace (unstable_offset u - 1 + _) with p by lia. }
      split; [lia|]. done.
Qed.

(** Truncate-and-append: entries at the first new index and above are
    replaced by the new ones, unstable entries below are kept, and exactly the
    entries that were already being written and are still there stay marked as
    in progress, so the replaced ones are handed out again. *)
Theorem truncateAndAppend_spec u p ents :
  unstable_wf u → ents ≠ [] → contiguous p ents → 0 <= p →
  p + 1 <= unstable_offset u + len (unstable_entries u) →
  p + len ents < MaxUint64 →
  len (unstable_entries u) + len ents < 9223372036854775808 →
  (∀ s, unstable_snapshot u = Some s → snap_index (Some s) <= p) →
  ∃ u', unstable_truncateAndAppend ents u = Ok u' ∧ unstable_wf u' ∧
    (∀ i, p < i → unstable_entry u' i = ents !! Z.to_nat (i - p - 1)) ∧
    (∀ i, i <= p → unstable_entry u' i = unstable_entry u i) ∧
    unstable_maybeLastIndex u' = Some (p + len ents) ∧
    unstable_offsetInProgress u' = Z.min (unstable_offsetInProgress u) (p + 1).
Proof.
  intros Hwf Hne Hce Hp0 Hgap Hpl Hlb Hsn.
  destruct (truncateAndAppend_ok u p ents) as (u' & E & Hwf' & Ho' & He' & Hp' & _); try done.
  exists u'. split; [done|]. split; [done|].
  pose proof Hwf as [Ho Hb Hl Hc Hp Hs Hsi].
  set (k := Z.to_nat (p + 1 - unstable_offset u)) in *.
  assert (length (take k (unstable_entries u)) = k) as Hk.
  { rewrite length_take. unfold len, k in *. lia. }
  split_and!.
  - intros i Hi. unfold unstable_entry. rewrite Ho', He'. rewrite (proj2 (Z.ltb_ge _ _)) by lia.
    rewrite lookup_app_r by (rewrite Hk; unfold k; lia). rewrite Hk. f_equal. unfold k. lia.
  - intros i Hi. unfold unstable_entry. rewrite Ho', He'. repeat zcase; try lia; try done.
    rewrite lookup_app_l by (rewrite Hk; unfold k; lia).
    rewrite lookup_take_lt by (unfold k; lia). f_equal. lia.
  - rewrite maybeLastIndex_ok by done. rewrite Ho', He'.
    destruct (take k (unstable_entries u) ++ ents) as [|x l] eqn:El.
    { apply (f_equal length) in El. rewrite length_app in El. destruct ents; [done|]. cbn in El. lia. }
    rewrite <- El, len_app. unfold len at 1. rewrite Hk. f_equal. unfold k. lia.
  - done.
Qed.

Definition ex_unstable : unstable :=
  mkunstable None [ex_entry 1 5; ex_entry 1 6; ex_entry 2 7] 5 false 7.

Lemma ex_unstable_wf : unstable_wf ex_unstable.
Proof.
  split; cbn; try done; try (unfold len; cbn; lia). apply contiguous_check. vm_compute. reflexivity.
Qed.

Lemma truncateAndAppend_spec_witness :
  ∃ u', unstable_truncateAndAppend [ex_entry 3 6] ex_unstable = Ok u' ∧ unstable_wf u' ∧
    (∀ i, 5 < i → unstable_entry u' i = [ex_entry 3 6] !! Z.to_nat (i - 5 - 1)) ∧
    (∀ i, i <= 5 → unstable_entry u' i = unstable_entry ex_unstable i) ∧
    unstable_maybeLastIndex u' = Some 6 ∧ unstable_offsetInProgress u' = 6.
Proof.
  apply (truncateAndAppend_spec ex_unstable 5 [ex_entry 3 6]);
    [apply ex_unstable_wf|discriminate|apply contiguous_check; vm_compute; reflexivity
    |vm_compute; congruence..|discriminate].
Defined.

Lemma unstable_shrinkEntriesArray_id v : unstable_shrinkEntriesArray v = v.
Proof.
  destruct v as [? es ? ? ?]. unfold unstable_shrinkEntriesArray; cbn. zcase; [|done].
  by rewrite (len_zero es).
Qed.

(** Either nothing changes, or the acknowledged entry is present and the entries
    up to it are dropped. *)
Lemma stableTo_ok u id :
  unstable_wf u → 0 <= entryID_index id < MaxUint64 →
  ∃ u', unstable_stableTo id u = Ok u' ∧ unstable_wf u' ∧
    ((u' = u ∧ Entry_GetTerm <$> unstable_entry u (entryID_index id) ≠ Some (entryID_term id)) ∨
     (Entry_GetTerm <$> unstable_entry u (entryID_index id) = Some (entryID_term id) ∧
      unstable_offset u <= entryID_index id < unstable_offset u + len (unstable_entries u) ∧
      unstable_offset u' = entryID_index id + 1 ∧ unstable_snapshot u' = unstable_snapshot u ∧
      unstable_entries u' =
        drop (Z.to_nat (entryID_index id + 1 - unstable_offset u)) (unstable_entries u))).
Proof.
  intros Hwf Hi. pose proof Hwf as [Ho Hb Hl Hc Hp Hs Hsi]. unfold unstable_stableTo.
  rewrite maybeTerm_ok by (done || lia). cbn [mbind outcome_bind].
  set (i := entryID_index id) in *.
  destruct (Z.ltb_spec i (unstable_offset u)) as [Hlt|Hge].
  { exists u. split; [by destruct (unstable_snapshot u); [zcase|]|]. split; [done|]. left. split; [done|].
    unfold unstable_entry. by rewrite (proj2 (Z.ltb_lt _ _)) by lia. }
  destruct (unstable_entry u i) as [e|] eqn:Ee; cbn [fmap option_fmap option_map].
  2:{ exists u. split_and!; auto. }
  destruct (Z.eqb_spec (Entry_GetTerm e) (entryID_term id)) as [Ht|Ht]; cbn [negb].
  2:{ exists u. split_and!; auto. left. split; [done|congruence]. }
  unfold unstable_entry in Ee. rewrite (proj2 (Z.ltb_ge _ _)) in Ee by lia.
  apply lookup_lt_Some in Ee. rewrite add64_small by lia. unfold len in *.
  rewrite sub64_small by lia. unfold go_int. rewrite (proj2 (Z.ltb_lt _ _)) by lia.
  rewrite go_from_Ok by (unfold len; lia). cbn [mbind outcome_bind].
  set (ents := drop (Z.to_nat (i + 1 - unstable_offset u)) (unstable_entries u)).
  rewrite unstable_shrinkEntriesArray_id. eexists. split; [done|].
  assert (Z.of_nat (length ents) = unstable_offset u + Z.of_nat (length (unstable_entries u)) - (i + 1)) as Hle
    by (unfold ents; rewrite length_drop; lia).
  split; [|right; split_and!; cbn; try done; try lia; congruence].
  split; cbn; unfold len; try lia; try done.
  - unfold ents.
    replace (i + 1 - 1) with (unstable_offset u - 1 + Z.of_nat (Z.to_nat (i + 1 - unstable_offset u))) by lia.
    apply contiguous_drop; [lia|done].
  - intros s Es. specialize (Hs s Es). lia.
Qed.

(** [stableTo] either leaves the unstable log as it is, or the entry with
    exactly the given index and term is there and the entries up to it, and
    only those, are dropped: a stale acknowledgement whose entry was replaced
    in the meantime never removes anything. *)
Theorem stableTo_spec u id :
  unstable_wf u → 0 <= entryID_index id < MaxUint64 →
  ∃ u', unstable_stableTo id u = Ok u' ∧ unstable_wf u' ∧
    (∀ i, entryID_index id < i → unstable_entry u' i = unstable_entry u i) ∧
    (if decide (Entry_GetTerm <$> unstable_entry u (entryID_index id) = Some (entryID_term id))
     then unstable_offset u' = entryID_index id + 1 ∧ unstable_snapshot u' = unstable_snapshot u
     else u' = u).
Proof.
  intros Hwf Hi.
  destruct (stableTo_ok u id Hwf Hi) as (u' & E & Hwf' & [[-> Hne]|(Ht & Hr & Ho' & Hs' & He')]).
  - exists u. split_and!; try done. by rewrite decide_False.
  - exists u'. split; [done|]. split; [done|]. rewrite decide_True by done. split; [|done].
    intros j Hj. unfold unstable_entry. rewrite Ho', He'.
    rewrite (proj2 (Z.ltb_ge _ _)), (proj2 (Z.ltb_ge _ _)) by lia.
    rewrite lookup_drop. f_equal. lia.
Qed.

Lemma stableTo_spec_witness :
  ∃ u', unstable_stableTo (mkentryID 1 6) ex_unstable = Ok u' ∧ unstable_wf u' ∧
    (∀ i, 6 < i → unstable_entry u' i = unstable_entry ex_unstable i) ∧
    (if decide (Entry_GetTerm <$> unstable_entry ex_unstable 6 = Some 1)
     then unstable_offset u' = 7 ∧ unstable_snapshot u' = unstable_snapshot ex_unstable
     else u' = ex_unstable).
Proof.
  apply (stableTo_spec ex_unstable (mkentryID 1 6)); [apply ex_unstable_wf|vm_compute; split; congruence].
Defined.
