(* ===== verification/Log.v ===== *)
(** * The log (src/log.go)

    [raftLog] joins the entries in stable storage with the unstable ones and
    keeps the committed, applying and applied positions.  It is parametric in
    the storage implementation. *)
From S2P Require Import Prelude Proto Util Storage Unstable.

Record raftLog (S : Type) : Type := mkraftLog {
  raftLog_storage : S;
  raftLog_unstable : unstable;
  raftLog_committed : Z;
  raftLog_applying : Z;
  raftLog_applied : Z;
  raftLog_maxApplyingEntsSize : Z;
  raftLog_applyingEntsSize : Z;
  raftLog_applyingEntsPaused : bool;
}.
Arguments mkraftLog {S}.
Arguments raftLog_storage {S} _.
Arguments raftLog_unstable {S} _.
Arguments raftLog_committed {S} _.
Arguments raftLog_applying {S} _.
Arguments raftLog_applied {S} _.
Arguments raftLog_maxApplyingEntsSize {S} _.
Arguments raftLog_applyingEntsSize {S} _.
Arguments raftLog_applyingEntsPaused {S} _.

Definition set_raftLog_storage {S} (v : S) (r : raftLog S) : raftLog S :=
  mkraftLog v (raftLog_unstable r) (raftLog_committed r) (raftLog_applying r)
    (raftLog_applied r) (raftLog_maxApplyingEntsSize r) (raftLog_applyingEntsSize r)
    (raftLog_applyingEntsPaused r).

Definition set_raftLog_unstable {S} (v : unstable) (r : raftLog S) : raftLog S :=
  mkraftLog (raftLog_storage r) v (raftLog_committed r) (raftLog_applying r)
    (raftLog_applied r) (raftLog_maxApplyingEntsSize r) (raftLog_applyingEntsSize r)
    (raftLog_applyingEntsPaused r).

Definition set_raftLog_committed {S} (v : Z) (r : raftLog S) : raftLog S :=
  mkraftLog (raftLog_storage r) (raftLog_unstable r) v (raftLog_applying r)
    (raftLog_applied r) (raftLog_maxApplyingEntsSize r) (raftLog_applyingEntsSize r)
    (raftLog_applyingEntsPaused r).

Definition set_raftLog_applying {S} (v : Z) (r : raftLog S) : raftLog S :=
  mkraftLog (raftLog_storage r) (raftLog_unstable r) (raftLog_committed r) v
    (raftLog_applied r) (raftLog_maxApplyingEntsSize r) (raftLog_applyingEntsSize r)
    (raftLog_applyingEntsPaused r).

Definition set_raftLog_applied {S} (v : Z) (r : raftLog S) : raftLog S :=
  mkraftLog (raftLog_storage r) (raftLog_unstable r) (raftLog_committed r)
    (raftLog_applying r) v (raftLog_maxApplyingEntsSize r) (raftLog_applyingEntsSize r)
    (raftLog_applyingEntsPaused r).

Definition set_raftLog_applyingEntsSize {S} (v : Z) (r : raftLog S) : raftLog S :=
  mkraftLog (raftLog_storage r) (raftLog_unstable r) (raftLog_committed r)
    (raftLog_applying r) (raftLog_applied r) (raftLog_maxApplyingEntsSize r) v
    (raftLog_applyingEntsPaused r).

Definition set_raftLog_applyingEntsPaused {S} (v : bool) (r : raftLog S) : raftLog S :=
  mkraftLog (raftLog_storage r) (raftLog_unstable r) (raftLog_committed r)
    (raftLog_applying r) (raftLog_applied r) (raftLog_maxApplyingEntsSize r)
    (raftLog_applyingEntsSize r) v.

(** ** Operations

    A storage error other than [ErrCompacted] and [ErrUnavailable] is a panic in
    the source ([panic(err)]), and so it is here. *)

Section raftLog_ops.
Context {S : Type} `{Protobuf} `{!Storage S}.

Definition newLogWithSize (storage : S) (maxApplyingEntsSize : Z) : outcome (raftLog S) :=
  match st_FirstIndex storage with
  | Err _ => Panic "FirstIndex"
  | Val firstIndex =>
      match st_LastIndex storage with
      | Err _ => Panic "LastIndex"
      | Val lastIndex =>
          Ok (mkraftLog storage
                (mkunstable None [] (lastIndex +! 1) false (lastIndex +! 1))
                (firstIndex -! 1) (firstIndex -! 1) (firstIndex -! 1)
                maxApplyingEntsSize 0 false)
      end
  end.

Definition newLog (storage : S) : outcome (raftLog S) := newLogWithSize storage noLimit.

Definition raftLog_nextUnstableEnts (l : raftLog S) : outcome (list Entry) :=
  unstable_nextEntries (raftLog_unstable l).

Definition raftLog_hasNextUnstableEnts (l : raftLog S) : outcome bool :=
  ents ← raftLog_nextUnstableEnts l; Ok (0 <? len ents).

Definition raftLog_hasNextOrInProgressUnstableEnts (l : raftLog S) : bool :=
  0 <? len (unstable_entries (raftLog_unstable l)).

Definition raftLog_maxAppliableIndex (allowUnstable : bool) (l : raftLog S) : Z :=
  let hi := raftLog_committed l in
  if negb allowUnstable then Z.min hi (unstable_offset (raftLog_unstable l) -! 1) else hi.

Definition raftLog_nextUnstableSnapshot (l : raftLog S) : option Snapshot :=
  unstable_nextSnapshot (raftLog_unstable l).

Definition raftLog_hasNextUnstableSnapshot (l : raftLog S) : bool :=
  match unstable_nextSnapshot (raftLog_unstable l) with Some _ => true | None => false end.

Definition raftLog_hasNextOrInProgressSnapshot (l : raftLog S) : bool :=
  match unstable_snapshot (raftLog_unstable l) with Some _ => true | None => false end.

Definition raftLog_hasNextCommittedEnts (allowUnstable : bool) (l : raftLog S) : bool :=
  if raftLog_applyingEntsPaused l then false
  else if raftLog_hasNextOrInProgressSnapshot l then false
  else
    let lo := raftLog_applying l +! 1 in
    let hi := raftLog_maxAppliableIndex allowUnstable l +! 1 in
    lo <? hi.

Definition raftLog_snapshot (l : raftLog S) : result Snapshot :=
  match unstable_snapshot (raftLog_unstable l) with
  | Some s => Val s
  | None => st_Snapshot (raftLog_storage l)
  end.

Definition raftLog_firstIndex (l : raftLog S) : outcome Z :=
  match unstable_maybeFirstIndex (raftLog_unstable l) with
  | Some i => Ok i
  | None =>
      match st_FirstIndex (raftLog_storage l) with
      | Val index => Ok index
      | Err _ => Panic "FirstIndex"
      end
  end.

Definition raftLog_lastIndex (l : raftLog S) : outcome Z :=
  match unstable_maybeLastIndex (raftLog_unstable l) with
  | Some i => Ok i
  | None =>
      match st_LastIndex (raftLog_storage l) with
      | Val i => Ok i
      | Err _ => Panic "LastIndex"
      end
  end.

Definition raftLog_commitTo (tocommit : Z) (l : raftLog S) : outcome (raftLog S) :=
  if raftLog_committed l <? tocommit then
    last ← raftLog_lastIndex l;
    if last <? tocommit then Panic "tocommit is out of range"
    else Ok (set_raftLog_committed tocommit l)
  else Ok l.

Definition raftLog_appliedTo (i size : Z) (l : raftLog S) : outcome (raftLog S) :=
  if (raftLog_committed l <? i) || (i <? raftLog_applied l) then Panic "applied is out of range"
  else
    let l := set_raftLog_applied i l in
    let l := set_raftLog_applying (Z.max (raftLog_applying l) i) l in
    let l := if size <? raftLog_applyingEntsSize l
             then set_raftLog_applyingEntsSize (raftLog_applyingEntsSize l -! size) l
             else set_raftLog_applyingEntsSize 0 l in
    Ok (set_raftLog_applyingEntsPaused
          (raftLog_maxApplyingEntsSize l <=? raftLog_applyingEntsSize l) l).

Definition raftLog_acceptApplying (i size : Z) (allowUnstable : bool) (l : raftLog S) :
    outcome (raftLog S) :=
  if raftLog_committed l <? i then Panic "applying is out of range"
  else
    let l := set_raftLog_applying i l in
    let l := set_raftLog_applyingEntsSize (raftLog_applyingEntsSize l +! size) l in
    Ok (set_raftLog_applyingEntsPaused
          ((raftLog_maxApplyingEntsSize l <=? raftLog_applyingEntsSize l)
           || (i <? raftLog_maxAppliableIndex allowUnstable l)) l).

Definition raftLog_stableTo (id : entryID) (l : raftLog S) : outcome (raftLog S) :=
  u ← unstable_stableTo id (raftLog_unstable l);
  Ok (set_raftLog_unstable u l).

Definition raftLog_stableSnapTo (i : Z) (l : raftLog S) : raftLog S :=
  set_raftLog_unstable (unstable_stableSnapTo i (raftLog_unstable l)) l.

Definition raftLog_acceptUnstable (l : raftLog S) : raftLog S :=
  set_raftLog_unstable (unstable_acceptInProgress (raftLog_unstable l)) l.

Definition raftLog_term (l : raftLog S) (i : Z) : outcome (result Z) :=
  t ← unstable_maybeTerm (raftLog_unstable l) i;
  match t with
  | Some t => Ok (Val t)
  | None =>
      first ← raftLog_firstIndex l;
      if i +! 1 <? first then Ok (Err ErrCompacted)
      else
        last ← raftLog_lastIndex l;
        if last <? i then Ok (Err ErrUnavailable)
        else
          r ← st_Term (raftLog_storage l) i;
          match r with
          | Val t => Ok (Val t)
          | Err ErrCompacted => Ok (Err ErrCompacted)
          | Err ErrUnavailable => Ok (Err ErrUnavailable)
          | Err _ => Panic "Term"
          end
  end.

Definition raftLog_lastEntryID (l : raftLog S) : outcome entryID :=
  index ← raftLog_lastIndex l;
  r ← raftLog_term l index;
  match r with
  | Val t => Ok (mkentryID t index)
  | Err _ => Panic "unexpected error when getting the last term"
  end.

Definition raftLog_isUpToDate (their : entryID) (l : raftLog S) : outcome bool :=
  our ← raftLog_lastEntryID l;
  Ok ((entryID_term our <? entryID_term their)
      || ((entryID_term their =? entryID_term our) && (entryID_index our <=? entryID_index their))).

Definition raftLog_matchTerm (id : entryID) (l : raftLog S) : outcome bool :=
  r ← raftLog_term l (entryID_index id);
  match r with
  | Err _ => Ok false
  | Val t => Ok (t =? entryID_term id)
  end.

Definition raftLog_maybeCommit (at_ : entryID) (l : raftLog S) : outcome (bool * raftLog S) :=
  ok ← (if negb (entryID_term at_ =? 0) && (raftLog_committed l <? entryID_index at_)
        then raftLog_matchTerm at_ l else Ok false);
  if (ok : bool) then
    l ← raftLog_commitTo (entryID_index at_) l;
    Ok (true, l)
  else Ok (false, l).

Definition raftLog_restore (s : Snapshot) (l : raftLog S) : raftLog S :=
  let l := set_raftLog_committed (snap_index (Some s)) l in
  set_raftLog_unstable (unstable_restore s (raftLog_unstable l)) l.

Definition raftLog_zeroTermOnOutOfBounds (r : result Z) : outcome Z :=
  match r with
  | Val t => Ok t
  | Err ErrCompacted => Ok 0
  | Err ErrUnavailable => Ok 0
  | Err _ => Panic "unexpected error"
  end.

(** [findConflict]; the log line it prints evaluates [lastIndex] and [term],
    which are kept because they may panic. *)
Fixpoint raftLog_findConflict (l : raftLog S) (ents : list Entry) : outcome Z :=
  match ents with
  | [] => Ok 0
  | e :: ents =>
      let id := pbEntryID e in
      m ← raftLog_matchTerm id l;
      if (m : bool) then raftLog_findConflict l ents
      else
        last ← raftLog_lastIndex l;
        _ ← (if entryID_index id <=? last
             then r ← raftLog_term l (entryID_index id); raftLog_zeroTermOnOutOfBounds r
             else Ok 0);
        Ok (entryID_index id)
  end.

(** The loop of [findConflictByTerm] counts [index] down to 0; the number of
    iterations is the recursion argument. *)
Fixpoint findConflictByTerm_loop (l : raftLog S) (index : nat) (term : Z) : outcome (Z * Z) :=
  match index with
  | O => Ok (0, 0)
  | Datatypes.S index' =>
      r ← raftLog_term l (Z.of_nat index);
      match r with
      | Err _ => Ok (Z.of_nat index, 0)
      | Val ourTerm =>
          if ourTerm <=? term then Ok (Z.of_nat index, ourTerm)
          else findConflictByTerm_loop l index' term
      end
  end.

Definition raftLog_findConflictByTerm (l : raftLog S) (index term : Z) : outcome (Z * Z) :=
  findConflictByTerm_loop l (Z.to_nat index) term.

Definition raftLog_append (ents : list Entry) (l : raftLog S) : outcome (Z * raftLog S) :=
  match ents with
  | [] => last ← raftLog_lastIndex l; Ok (last, l)
  | e0 :: _ =>
      let after := Entry_GetIndex e0 -! 1 in
      if after <? raftLog_committed l then Panic "after is out of range"
      else
        u ← unstable_truncateAndAppend ents (raftLog_unstable l);
        let l := set_raftLog_unstable u l in
        last ← raftLog_lastIndex l;
        Ok (last, l)
  end.

(** [maybeAppend] returns [(lastnewi, true)] as [Some lastnewi] and
    [(0, false)] as [None]. *)
Definition raftLog_maybeAppend (a : logSlice) (committed : Z) (l : raftLog S) :
    outcome (option Z * raftLog S) :=
  m ← raftLog_matchTerm (logSlice_prev a) l;
  if negb m then Ok (None, l)
  else
    let prev := entryID_index (logSlice_prev a) in
    let lastnewi := prev +! len (logSlice_entries a) in
    ci ← raftLog_findConflict l (logSlice_entries a);
    l ← (if ci =? 0 then Ok l
         else if ci <=? raftLog_committed l then Panic "conflict with committed entry"
         else
           let offset := prev +! 1 in
           if len (logSlice_entries a) <? ci -! offset then Panic "index is out of range"
           else
             ents ← go_from (logSlice_entries a) (ci -! offset);
             r ← raftLog_append ents l;
             Ok (snd r));
    l ← raftLog_commitTo (Z.min committed lastnewi) l;
    Ok (Some lastnewi, l).

Definition raftLog_mustCheckOutOfBounds (l : raftLog S) (lo hi : Z) : outcome (option error) :=
  if hi <? lo then Panic "invalid slice"
  else
    fi ← raftLog_firstIndex l;
    if lo <? fi then Ok (Some ErrCompacted)
    else
      last ← raftLog_lastIndex l;
      let length := last +! 1 -! fi in
      if fi +! length <? hi then Panic "slice out of bound" else Ok None.

Definition raftLog_slice (l : raftLog S) (lo hi maxSize : Z) : outcome (result (list Entry)) :=
  err ← raftLog_mustCheckOutOfBounds l lo hi;
  match err with
  | Some e => Ok (Err e)
  | None =>
      let u := raftLog_unstable l in
      if lo =? hi then Ok (Val [])
      else if unstable_offset u <=? lo then
        ents ← unstable_slice u lo hi;
        Ok (Val (limitSize ents maxSize))
      else
        let cut := Z.min hi (unstable_offset u) in
        r ← st_Entries (raftLog_storage l) lo cut maxSize;
        match r with
        | Err ErrCompacted => Ok (Err ErrCompacted)
        | Err ErrUnavailable => Panic "entries unavailable from storage"
        | Err _ => Panic "Entries"
        | Val ents =>
            if hi <=? unstable_offset u then Ok (Val ents)
            else if len ents <? cut -! lo then Ok (Val ents)
            else
              let size := entsSize ents in
              if maxSize <=? size then Ok (Val ents)
              else
                us ← unstable_slice u (unstable_offset u) hi;
                let us := limitSize us (maxSize -! size) in
                if (len us =? 1) && (maxSize <? size +! entsSize us) then Ok (Val ents)
                else Ok (Val (extend ents us))
        end
  end.

Definition raftLog_entries (l : raftLog S) (i maxSize : Z) : outcome (result (list Entry)) :=
  last ← raftLog_lastIndex l;
  if last <? i then Ok (Val [])
  else raftLog_slice l i (last +! 1) maxSize.

(** [allEntries] retries when a compaction races with it; [fuel] bounds the
    number of attempts. *)
Fixpoint raftLog_allEntries (fuel : nat) (l : raftLog S) : outcome (list Entry) :=
  match fuel with
  | O => Panic "out of fuel"
  | Datatypes.S fuel =>
      first ← raftLog_firstIndex l;
      r ← raftLog_entries l first noLimit;
      match r with
      | Val ents => Ok ents
      | Err ErrCompacted => raftLog_allEntries fuel l
      | Err _ => Panic "allEntries"
      end
  end.

Definition raftLog_nextCommittedEnts (allowUnstable : bool) (l : raftLog S) : outcome (list Entry) :=
  if raftLog_applyingEntsPaused l then Ok []
  else if raftLog_hasNextOrInProgressSnapshot l then Ok []
  else
    let lo := raftLog_applying l +! 1 in
    let hi := raftLog_maxAppliableIndex allowUnstable l +! 1 in
    if hi <=? lo then Ok []
    else
      let maxSize := raftLog_maxApplyingEntsSize l -! raftLog_applyingEntsSize l in
      if maxSize <=? 0 then Panic "applying entry size not positive"
      else
        r ← raftLog_slice l lo hi maxSize;
        match r with
        | Val ents => Ok ents
        | Err _ => Panic "unexpected error when getting unapplied entries"
        end.

(** [scan] with a callback that updates a state [A]; a callback error stops the
    scan.  Every page advances [lo], so [hi - lo] pages are enough. *)
Fixpoint scan_loop {A} (l : raftLog S) (fuel : nat) (lo hi pageSize : Z)
    (v : list Entry → A → A * option error) (a : A) : outcome (A * option error) :=
  if lo <? hi then
    match fuel with
    | O => Panic "out of fuel"
    | Datatypes.S fuel =>
        r ← raftLog_slice l lo hi pageSize;
        match r with
        | Err e => Ok (a, Some e)
        | Val ents =>
            if len ents =? 0 then Ok (a, Some (ErrText "got 0 entries"))
            else
              match v ents a with
              | (a, Some e) => Ok (a, Some e)
              | (a, None) => scan_loop l fuel (lo +! len ents) hi pageSize v a
              end
        end
    end
  else Ok (a, None).

Definition raftLog_scan {A} (l : raftLog S) (lo hi pageSize : Z)
    (v : list Entry → A → A * option error) (a : A) : outcome (A * option error) :=
  scan_loop l (Z.to_nat (hi - lo)) lo hi pageSize v a.

End raftLog_ops.


(** ** The log as one sequence

    Below the unstable offset the log is read from storage, from the offset on
    from the unstable entries; a pending snapshot hides everything up to its
    index. *)

Section raftLog_view.
Context {S : Type} `{Protobuf, !ProtobufLaws _} `{!Storage S} `{!StorageLaws S}.

Definition log_base (l : raftLog S) : Z :=
  match unstable_snapshot (raftLog_unstable l) with
  | Some s => snap_index (Some s)
  | None => sl_base (st_view (raftLog_storage l))
  end.

Definition log_base_term (l : raftLog S) : Z :=
  match unstable_snapshot (raftLog_unstable l) with
  | Some s => snap_term (Some s)
  | None => sl_term (st_view (raftLog_storage l))
  end.

Definition log_stable (l : raftLog S) : list Entry :=
  match unstable_snapshot (raftLog_unstable l) with
  | Some _ => []
  | None => take (Z.to_nat (unstable_offset (raftLog_unstable l) - log_base l - 1))
              (sl_ents (st_view (raftLog_storage l)))
  end.

Definition log_view (l : raftLog S) : slog :=
  mkslog (log_base l) (log_base_term l)
    (log_stable l ++ unstable_entries (raftLog_unstable l)).

(** There is no gap between storage and the unstable entries, or the unstable
    entries follow the pending snapshot; the positions are ordered. *)
Record log_wf (l : raftLog S) : Prop := mklog_wf {
  lwf_storage : st_ok (raftLog_storage l);
  lwf_unstable : unstable_wf (raftLog_unstable l);
  lwf_gap :
    match unstable_snapshot (raftLog_unstable l) with
    | Some s => unstable_offset (raftLog_unstable l) = snap_index (Some s) + 1
    | None => sl_base (st_view (raftLog_storage l)) < unstable_offset (raftLog_unstable l)
                <= slog_last (st_view (raftLog_storage l)) + 1
              ∧ (unstable_entries (raftLog_unstable l) = [] →
                 unstable_offset (raftLog_unstable l) = slog_last (st_view (raftLog_storage l)) + 1)
    end;
  lwf_committed : log_base l <= raftLog_committed l <= slog_last (log_view l);
  lwf_applied : 0 <= raftLog_applied l <= raftLog_applying l;
  lwf_applying : raftLog_applying l <= raftLog_committed l;
}.

Lemma log_stable_len l :
  log_wf l → len (log_stable l) = unstable_offset (raftLog_unstable l) - log_base l - 1.
Proof.
  intros [Hst Hu Hgap _ _ _]. unfold log_stable, log_base. destruct (unstable_snapshot _) as [s|].
  - rewrite Hgap, len_nil. lia.
  - unfold slog_last in Hgap. rewrite len_take; lia.
Qed.

Lemma log_view_last l :
  log_wf l →
  slog_last (log_view l) =
  unstable_offset (raftLog_unstable l) + len (unstable_entries (raftLog_unstable l)) - 1.
Proof.
  intros Hwf. unfold slog_last, log_view; cbn. rewrite len_app, log_stable_len by done. lia.
Qed.

Lemma log_base_bounds l :
  log_wf l → 0 <= log_base l < unstable_offset (raftLog_unstable l).
Proof.
  intros Hwf. pose proof Hwf as [Hst [Ho Hb Hl Hc Hp Hs Hsi] Hgap _ _ _]. unfold log_base.
  destruct (unstable_snapshot _) as [s|]; [by apply Hs|].
  destruct (st_view_wf _ Hst). lia.
Qed.

Lemma log_view_wf l : log_wf l → slog_wf (log_view l).
Proof.
  intros Hwf. pose proof (log_base_bounds l Hwf) as Hbb. pose proof (log_view_last l Hwf) as Hla.
  pose proof (log_stable_len l Hwf) as Hsl.
  pose proof Hwf as [Hst Hu Hgap _ _ _]. pose proof Hu as [Ho Hb Hl Hc Hp Hs Hsi].
  split; [cbn; lia|]. split; [lia|]. cbn. apply contiguous_app. rewrite Hsl. split.
  - destruct (st_view_wf _ Hst) as (Hb0 & Hl0 & Hc0).
    unfold log_stable, log_base in *. destruct (unstable_snapshot _); auto with raft.
  - by replace (log_base l + _) with (unstable_offset (raftLog_unstable l) - 1) by lia.
Qed.

End raftLog_view.

Ltac log_facts Hwf :=
  let l := match type of Hwf with log_wf ?l => l end in
  pose proof (log_base_bounds l Hwf) as ?Hbb; pose proof (log_view_last l Hwf) as ?Hla;
  pose proof (log_stable_len l Hwf) as ?Hsl;
  pose proof Hwf as [?Hst ?Hu ?Hgap ?Hcom ?Happ ?Happl];
  pose proof (lwf_unstable l Hwf) as [?Ho ?Hb ?Hl ?Hc ?Hp ?Hs ?Hsi];
  pose proof (len_nonneg (unstable_entries (raftLog_unstable l))).

(** [agrees g p k e]: the term of [g] at the position of entry [k] of a slice
    after [p] is the term of [e]. *)
Abbreviation log_last l := (slog_last (log_view l)).
Abbreviation agrees g p k e := (slog_term g (p + 1 + Z.of_nat k) = Some (Entry_GetTerm e)).

Section raftLog_lemmas.
Context {S : Type} `{Protobuf, !ProtobufLaws _} `{!Storage S} `{!StorageLaws S}.

Lemma firstIndex_ok l : log_wf l → raftLog_firstIndex l = Ok (log_base l + 1).
Proof.
  intros Hwf. log_facts Hwf. unfold raftLog_firstIndex, unstable_maybeFirstIndex, log_base in *.
  destruct (unstable_snapshot _) as [s|]; [by rewrite add64_small by lia|].
  by rewrite st_FirstIndex_ok.
Qed.

Lemma lastIndex_ok l : log_wf l → raftLog_lastIndex l = Ok (log_last l).
Proof.
  intros Hwf. log_facts Hwf. unfold raftLog_lastIndex. rewrite maybeLastIndex_ok by done.
  destruct (unstable_entries _) as [|e es] eqn:Ee; [|f_equal; rewrite Hla; done].
  rewrite len_nil in Hla. destruct (unstable_snapshot _) as [s|] eqn:Es; cbn [fmap option_fmap option_map].
  - f_equal. lia.
  - rewrite st_LastIndex_ok by done. f_equal. destruct Hgap as [_ Hgap]. rewrite Hla, Hgap by done. lia.
Qed.

(** Reading a term of the joined log. *)
Lemma view_term_unstable l i :
  log_wf l → unstable_offset (raftLog_unstable l) <= i →
  slog_term (log_view l) i = Entry_GetTerm <$> unstable_entry (raftLog_unstable l) i.
Proof.
  intros Hwf Hi. log_facts Hwf. unfold slog_term, unstable_entry; cbn.
  rewrite !(proj2 (Z.ltb_ge _ _)), (proj2 (Z.eqb_neq _ _)) by lia. unfold len in Hsl.
  rewrite lookup_app_r by lia. do 2 f_equal. lia.
Qed.

Lemma view_term_stable l i :
  log_wf l → unstable_snapshot (raftLog_unstable l) = None → i < unstable_offset (raftLog_unstable l) →
  slog_term (log_view l) i = slog_term (st_view (raftLog_storage l)) i.
Proof.
  intros Hwf Es Hi. log_facts Hwf. unfold slog_term, log_view, log_base_term; cbn.
  revert Hsl. unfold log_stable, log_base in *. rewrite Es in *. intros Hsl. repeat zcase; try done.
  unfold len in Hsl. rewrite lookup_app_l by lia. by rewrite lookup_take_lt by lia.
Qed.

(** The answer of [term] as a function of the log. *)
Definition term_answer (g : slog) (i : Z) : result Z :=
  match slog_term g i with
  | Some t => Val t
  | None => if i <? sl_base g then Err ErrCompacted else Err ErrUnavailable
  end.

Lemma term_ok l i :
  log_wf l → 0 <= i < MaxUint64 → raftLog_term l i = Ok (term_answer (log_view l) i).
Proof.
  intros Hwf Hi. log_facts Hwf. unfold raftLog_term. rewrite maybeTerm_ok by (done || lia).
  cbn [mbind outcome_bind]. rewrite firstIndex_ok, lastIndex_ok by done.
  cbn [mbind outcome_bind]. rewrite add64_small by lia. unfold term_answer. cbn [sl_base log_view].
  destruct (Z.ltb_spec i (unstable_offset (raftLog_unstable l))) as [Hlt|Hge].
  - unfold log_base in *. destruct (unstable_snapshot _) as [s|] eqn:Es.
    + unfold slog_term; cbn. unfold log_base, log_base_term. rewrite Es. repeat zcase; try lia; done.
    + rewrite view_term_stable by done. destruct (slog_term (st_view _) i) as [t|] eqn:Et.
      * pose proof (slog_term_bounds _ _ _ Et). repeat zcase; try lia.
        by rewrite (st_Term_ok _ _ t) by done.
      * repeat zcase; try lia; try done.
        destruct (slog_term_some (st_view (raftLog_storage l)) i) as [? Ht]; [lia|congruence].
  - rewrite view_term_unstable by done.
    destruct (unstable_entry _ i) as [e|] eqn:Ee; cbn [fmap option_fmap option_map]; [done|].
    assert (log_last l < i).
    { unfold unstable_entry in Ee. rewrite (proj2 (Z.ltb_ge _ _)) in Ee by lia.
      apply lookup_ge_None in Ee. unfold len in Hla. lia. }
    repeat zcase; try lia; done.
Qed.

Lemma matchTerm_ok l id :
  log_wf l → 0 <= entryID_index id < MaxUint64 →
  raftLog_matchTerm id l =
    Ok (bool_decide (slog_term (log_view l) (entryID_index id) = Some (entryID_term id))).
Proof.
  intros Hwf Hi. unfold raftLog_matchTerm. rewrite term_ok by done. unfold term_answer.
  cbn [mbind outcome_bind]. destruct (slog_term _ _) as [t|].
  - f_equal. zcase; [subst; by rewrite bool_decide_true|rewrite bool_decide_false; congruence].
  - by destruct (_ <? _).
Qed.

Lemma log_last_bound l : log_wf l → 0 <= log_last l < MaxUint64.
Proof.
  intros Hwf. destruct (log_view_wf l Hwf) as (? & ? & _).
  pose proof (log_base_bounds l Hwf). pose proof (lwf_committed l Hwf). lia.
Qed.

Lemma lastEntryID_ok l :
  log_wf l → ∃ t, raftLog_lastEntryID l = Ok (mkentryID t (log_last l)) ∧
    slog_term (log_view l) (log_last l) = Some t.
Proof.
  intros Hwf. pose proof (log_last_bound l Hwf). unfold raftLog_lastEntryID.
  rewrite lastIndex_ok by done. cbn [mbind outcome_bind]. rewrite term_ok by done.
  pose proof (lwf_committed l Hwf).
  destruct (slog_term_some (log_view l) (log_last l)) as [t Ht]; [cbn [sl_base log_view]; lia|].
  exists t. unfold term_answer. by rewrite Ht.
Qed.

(** Ranges of the joined log. *)
Lemma view_range_unstable l lo hi :
  log_wf l → unstable_offset (raftLog_unstable l) <= lo <= hi →
  slog_range (log_view l) lo hi =
  take (Z.to_nat (hi - lo))
    (drop (Z.to_nat (lo - unstable_offset (raftLog_unstable l))) (unstable_entries (raftLog_unstable l))).
Proof.
  intros Hwf Hlo. log_facts Hwf. unfold slog_range; cbn. f_equal. unfold len in Hsl.
  rewrite drop_app_ge by lia. f_equal. lia.
Qed.

Lemma view_range_split l lo hi :
  log_wf l → unstable_snapshot (raftLog_unstable l) = None →
  log_base l < lo < unstable_offset (raftLog_unstable l) → lo <= hi →
  slog_range (log_view l) lo hi =
  slog_range (st_view (raftLog_storage l)) lo (Z.min hi (unstable_offset (raftLog_unstable l)))
  ++ take (Z.to_nat (hi - unstable_offset (raftLog_unstable l))) (unstable_entries (raftLog_unstable l)).
Proof.
  intros Hwf Es Hlo Hhi. log_facts Hwf. unfold slog_range; cbn. unfold len in Hsl.
  rewrite drop_app_le by lia. rewrite take_app, length_drop.
  replace (Z.to_nat (hi - lo) - _)%nat with (Z.to_nat (hi - unstable_offset (raftLog_unstable l))) by lia.
  f_equal. unfold log_stable, log_base in *. rewrite Es in *.
  rewrite !take_drop_commute, take_take. do 2 f_equal. lia.
Qed.

Lemma total_size_prefix l k : total_size (l ++ k) < two64 → total_size l < two64 ∧ total_size k < two64.
Proof.
  rewrite total_size_app. pose proof (total_size_nonneg l). pose proof (total_size_nonneg k). lia.
Qed.

Lemma mustCheckOutOfBounds_ok l lo hi :
  log_wf l → log_base l < lo <= hi → hi <= log_last l + 1 →
  raftLog_mustCheckOutOfBounds l lo hi = Ok None.
Proof.
  intros Hwf Hlo Hhi. pose proof (log_last_bound l Hwf). pose proof (log_base_bounds l Hwf).
  unfold raftLog_mustCheckOutOfBounds. rewrite firstIndex_ok, lastIndex_ok by done.
  cbn [mbind outcome_bind]. rewrite (proj2 (Z.ltb_ge hi lo)), (proj2 (Z.ltb_ge lo _)) by lia.
  u64_norm. by rewrite (proj2 (Z.ltb_ge _ _)) by lia.
Qed.

(** A non-empty result that is a prefix of the requested range and within the
    limit, unless it is a single entry. *)
Definition slice_answer (range : list Entry) (maxSize : Z) (r : outcome (result (list Entry))) : Prop :=
  ∃ n, r = Ok (Val (take n range)) ∧ (1 <= n <= length range)%nat ∧
       (n = 1%nat ∨ total_size (take n range) <= maxSize).

Lemma slice_answer_limit range maxSize :
  total_size range < two64 → range ≠ [] →
  slice_answer range maxSize (Ok (Val (limitSize range maxSize))).
Proof.
  intros Hs Hne. destruct (limitSize_spec range maxSize Hs Hne) as (n & -> & Hn & Hm & _).
  exists n. done.
Qed.

(** Joining a complete stable part with limited unstable entries. *)
Lemma slice_answer_join sts us maxSize :
  total_size (sts ++ us) < two64 → sts ≠ [] → us ≠ [] → maxSize < two64 → entsSize sts < maxSize →
  slice_answer (sts ++ us) maxSize
    (let us := limitSize us (maxSize -! entsSize sts) in
     if (len us =? 1) && (maxSize <? entsSize sts +! entsSize us) then Ok (Val sts)
     else Ok (Val (extend sts us))).
Proof.
  intros Hs Hsts Hus Hmax Hlt. destruct (total_size_prefix _ _ Hs) as [Hs1 Hs2].
  rewrite total_size_app in Hs. rewrite (entsSize_total sts) in * by done.
  pose proof (total_size_nonneg sts). rewrite sub64_small by lia.
  destruct (limitSize_spec us (maxSize - total_size sts) Hs2 Hus) as (n & -> & Hn & Hm & _).
  assert (total_size (take n us) < two64 ∧ total_size (take n us) <= total_size us) as [Ht1 Ht2].
  { rewrite <- (take_drop n us) in Hs2 at 1. apply total_size_prefix in Hs2 as [? _]. split; [done|].
    rewrite <- (take_drop n us) at 2. rewrite total_size_app. pose proof (total_size_nonneg (drop n us)). lia. }
  pose proof (total_size_nonneg (take n us)).
  cbn zeta. rewrite entsSize_total by done. rewrite add64_small by lia.
  assert (length sts ≠ 0)%nat by (by destruct sts).
  destruct ((_ =? _) && _) eqn:Eb.
  - exists (length sts). rewrite take_app_length, length_app. split_and!; [done|lia|lia|].
    right. lia.
  - exists (length sts + n)%nat. rewrite take_app_add, length_app. split_and!; [done|lia|lia|].
    right. rewrite total_size_app. destruct Hm as [->|Hm]; [|lia].
    unfold len in Eb. rewrite length_take in Eb.
    replace (1 `min` length us)%nat with 1%nat in Eb by lia. cbn in Eb. apply Z.ltb_ge in Eb. lia.
Qed.

Lemma slice_ok l lo hi maxSize :
  log_wf l → log_base l < lo < hi → hi <= log_last l + 1 → 0 <= maxSize < two64 →
  total_size (slog_range (log_view l) lo hi) < two64 →
  slice_answer (slog_range (log_view l) lo hi) maxSize (raftLog_slice l lo hi maxSize).
Proof.
  intros Hwf Hlo Hhi Hmax Hsz. log_facts Hwf. unfold raftLog_slice.
  rewrite mustCheckOutOfBounds_ok by (done || lia). cbn [mbind outcome_bind].
  rewrite (proj2 (Z.eqb_neq lo hi)) by lia.
  assert (slog_range (log_view l) lo hi ≠ []) as Hne.
  { intros E. pose proof (slog_range_length (log_view l) lo hi) as Hlen. rewrite E in Hlen.
    cbn [sl_base log_view] in Hlen. rewrite len_nil in Hlen. lia. }
  destruct (Z.leb_spec (unstable_offset (raftLog_unstable l)) lo) as [Hge|Hlt].
  { rewrite unstable_slice_ok by (done || lia). cbn [mbind outcome_bind].
    rewrite <- view_range_unstable by (done || lia). by apply slice_answer_limit. }
  assert (unstable_snapshot (raftLog_unstable l) = None) as Es.
  { destruct (unstable_snapshot _) as [s|] eqn:Es; [|done]. unfold log_base in *. rewrite Es in *. lia. }
  rewrite view_range_split in * by (done || lia).
  set (off := unstable_offset (raftLog_unstable l)) in *.
  set (v := st_view (raftLog_storage l)) in *.
  assert (log_base l = sl_base v) as Hbase by (unfold log_base; by rewrite Es).
  rewrite Es in Hgap. destruct Hgap as [Hgap _].
  destruct (total_size_prefix _ _ Hsz) as [Hs1 Hs2].
  destruct (st_Entries_ok (raftLog_storage l) lo (Z.min hi off) maxSize) as (n & -> & Hn & Hm);
    [done|fold v; lia|fold v; lia|done|]. fold v in Hm |- *. cbn [mbind outcome_bind].
  set (sts := slog_range v lo (Z.min hi off)) in *.
  assert (len sts = Z.min hi off - lo) as Hlen by (apply slog_range_length; lia).
  assert (length sts = Z.to_nat (Z.min hi off - lo)) as Hlen' by (unfold len in Hlen; lia).
  assert (slice_answer (sts ++ take (Z.to_nat (hi - off)) (unstable_entries (raftLog_unstable l))) maxSize
            (Ok (Val (take n sts)))) as Hpre.
  { exists n. rewrite take_app_le by lia. rewrite length_app. split_and!; [done|lia|lia|done]. }
  destruct (Z.leb_spec hi off); [done|]. rewrite Z.min_r in * by lia. rewrite sub64_small by lia.
  destruct (Z.ltb_spec (len (take n sts)) (off - lo)) as [|Hfull]; [done|].
  unfold len in Hfull. rewrite length_take in Hfull. rewrite (take_ge sts) in Hpre |- * by lia.
  destruct (Z.leb_spec maxSize (entsSize sts)); [done|]. rewrite unstable_slice_ok by (done || lia). cbn [mbind outcome_bind].
  rewrite Z.sub_diag. change (Z.to_nat 0) with 0%nat. rewrite drop_0. fold off.
  apply slice_answer_join; [done| | |lia|done].
  - intros E. rewrite E in Hlen'. cbn in Hlen'. lia.
  - intros E. apply (f_equal length) in E. rewrite length_take in E. unfold len in *. cbn in E. lia.
Qed.

(** Whatever the sizes, what [slice] returns are entries of the log from [lo] on. *)
Lemma slice_prefix l lo hi maxSize ents :
  log_wf l → lo < hi → hi <= log_last l + 1 → raftLog_slice l lo hi maxSize = Ok (Val ents) →
  log_base l < lo ∧ ents `prefix_of` slog_range (log_view l) lo hi.
Proof.
  intros Hwf Hlo Hhi. log_facts Hwf. unfold raftLog_slice.
  destruct (Z.le_gt_cases lo (log_base l)) as [Hlob|Hlob].
  { unfold raftLog_mustCheckOutOfBounds. rewrite (proj2 (Z.ltb_ge _ _)) by lia. rewrite firstIndex_ok by done.
    cbn [mbind outcome_bind]. by rewrite (proj2 (Z.ltb_lt _ _)) by lia. }
  intros E. split; [done|]. revert E. rewrite mustCheckOutOfBounds_ok by (done || lia). cbn [mbind outcome_bind].
  rewrite (proj2 (Z.eqb_neq lo hi)) by lia.
  destruct (Z.leb_spec (unstable_offset (raftLog_unstable l)) lo) as [Hge|Hlt].
  { rewrite unstable_slice_ok by (done || lia). cbn [mbind outcome_bind].
    rewrite <- view_range_unstable by (done || lia). intros [= <-]. apply limitSize_prefix. }
  assert (unstable_snapshot (raftLog_unstable l) = None) as Es.
  { destruct (unstable_snapshot _) as [s|] eqn:Es; [|done]. unfold log_base in *. rewrite Es in *. lia. }
  rewrite view_range_split by (done || lia). set (off := unstable_offset (raftLog_unstable l)) in *.
  set (v := st_view (raftLog_storage l)) in *.
  assert (log_base l = sl_base v) as Hbase by (unfold log_base; by rewrite Es).
  rewrite Es in Hgap. destruct Hgap as [Hgap _]. intros (res & E & E')%bind_Ok.
  destruct res as [st|[]]; try done. apply st_Entries_prefix in E; [|done|fold v; lia|fold v; lia]. fold v in E.
  assert (∀ us, Ok (Val st) = Ok (Val ents) → ents `prefix_of` slog_range v lo (Z.min hi off) ++ us) as Hpre.
  { intros us [= <-]. etrans; [exact E|by apply prefix_app_r]. }
  destruct (Z.leb_spec hi off); [by apply Hpre|]. rewrite Z.min_r in * by lia. rewrite sub64_small in E' by lia.
  destruct (Z.ltb_spec (len st) (off - lo)) as [|Hfull]; [by apply Hpre|].
  destruct (_ <=? _) in E'; [by apply Hpre|]. rewrite unstable_slice_ok in E' by (done || lia). cbn [mbind outcome_bind] in E'.
  destruct (_ && _) in E'; [by apply Hpre|]. injection E' as <-.
  assert (len (slog_range v lo off) = off - lo) as Hlen by (apply slog_range_length; lia).
  destruct E as [k Ek]. rewrite Ek, len_app in Hlen. assert (k = []) as ->.
  { pose proof (len_nonneg k). destruct k; [done|]. rewrite len_cons in *. pose proof (len_nonneg k). lia. }
  rewrite app_nil_r in Ek. rewrite Ek. unfold extend. apply prefix_app. rewrite Z.sub_diag. change (Z.to_nat 0) with 0%nat.
  rewrite drop_0. apply limitSize_prefix.
Qed.

(** ** Positions *)

Lemma set_committed_wf l c :
  log_wf l → raftLog_committed l <= c <= log_last l → log_wf (set_raftLog_committed c l).
Proof.
  intros [Hst Hu Hgap Hcom Happ Happl] Hc. split; try done.
  - change (log_base l <= c <= log_last l). lia.
  - cbn. lia.
Qed.

Lemma commitTo_ok l c :
  log_wf l → c <= log_last l →
  raftLog_commitTo c l = Ok (set_raftLog_committed (Z.max (raftLog_committed l) c) l) ∧
  log_wf (set_raftLog_committed (Z.max (raftLog_committed l) c) l).
Proof.
  intros Hwf Hc. pose proof (lwf_committed l Hwf). unfold raftLog_commitTo. split.
  - zcase.
    + rewrite lastIndex_ok by done. cbn [mbind outcome_bind]. rewrite (proj2 (Z.ltb_ge _ _)) by lia.
      do 2 f_equal. lia.
    + rewrite Z.max_l by lia. by destruct l.
  - apply set_committed_wf; [done|lia].
Qed.

Lemma appliedTo_ok l i size :
  log_wf l → raftLog_applied l <= i <= raftLog_committed l →
  ∃ l', raftLog_appliedTo i size l = Ok l' ∧ log_wf l' ∧ log_view l' = log_view l ∧
    raftLog_committed l' = raftLog_committed l ∧ raftLog_applied l' = i ∧
    raftLog_applying l' = Z.max (raftLog_applying l) i.
Proof.
  intros [Hst Hu Hgap Hcom Happ Happl] Hi. unfold raftLog_appliedTo.
  rewrite !(proj2 (Z.ltb_ge _ _)) by lia. cbn [orb]. cbn zeta.
  eexists. split; [done|]. repeat zcase; (split; [split; cbn; try done; lia|done]).
Qed.

Lemma acceptApplying_ok l i size allow :
  log_wf l → raftLog_applying l <= i <= raftLog_committed l →
  ∃ l', raftLog_acceptApplying i size allow l = Ok l' ∧ log_wf l' ∧ log_view l' = log_view l ∧
    raftLog_committed l' = raftLog_committed l ∧ raftLog_applied l' = raftLog_applied l ∧
    raftLog_applying l' = i.
Proof.
  intros [Hst Hu Hgap Hcom Happ Happl] Hi. unfold raftLog_acceptApplying.
  rewrite (proj2 (Z.ltb_ge _ _)) by lia. eexists. split; [done|].
  split; [split; cbn; try done; lia|done].
Qed.

(** ** Appending *)

Lemma append_ok l p ents :
  log_wf l → ents ≠ [] → contiguous p ents → raftLog_committed l <= p <= log_last l →
  p + len ents < MaxUint64 →
  len (unstable_entries (raftLog_unstable l)) + len ents < 9223372036854775808 →
  ∃ u', raftLog_append ents l = Ok (p + len ents, set_raftLog_unstable u' l) ∧
    log_wf (set_raftLog_unstable u' l) ∧
    log_view (set_raftLog_unstable u' l) = slog_append (log_view l) p ents ∧
    unstable_snapshot u' = unstable_snapshot (raftLog_unstable l).
Proof.
  intros Hwf Hne Hce Hp Hpl Hlb. log_facts Hwf.
  assert (0 < len ents) as Hlen by (destruct ents; [done|rewrite len_cons; pose proof (len_nonneg ents); lia]).
  destruct (truncateAndAppend_ok (raftLog_unstable l) p ents)
    as (u' & E & Hu' & Ho' & He' & Hip' & Hs' & _); try done; try lia.
  { intros s Es. unfold log_base in *. rewrite Es in *. lia. }
  exists u'. set (l' := set_raftLog_unstable u' l).
  assert (log_base l' = log_base l) as Hbase by (unfold log_base; cbn; by rewrite Hs').
  assert (log_view l' = slog_append (log_view l) p ents) as Hview.
  { unfold slog_append, log_view at 1; cbn [sl_base sl_term sl_ents log_view].
    rewrite (proj2 (Z.leb_gt _ _)) by lia. rewrite Hbase, Z.max_l by lia.
    replace (Z.to_nat (log_base l - p)) with 0%nat by lia. rewrite drop_0. f_equal.
    { unfold log_base_term; cbn. by rewrite Hs'. }
    unfold log_stable at 1. change (raftLog_unstable l') with u'.
    change (raftLog_storage l') with (raftLog_storage l).
    rewrite Hs', He', Ho', Hbase, app_assoc. f_equal. rewrite take_app. unfold len in Hsl.
    f_equal; [|f_equal; lia]. unfold log_stable, log_base in *.
    destruct (unstable_snapshot _) as [s|] eqn:Es; [by rewrite take_nil|].
    rewrite take_take. f_equal. lia. }
  assert (log_wf l') as Hwf'.
  { split; cbn [raftLog_storage raftLog_unstable raftLog_committed raftLog_applied raftLog_applying l'
      set_raftLog_unstable]; try done.
    - rewrite Hs', Ho'. unfold log_base in *. destruct (unstable_snapshot _) as [s|] eqn:Es; [lia|].
      split; [lia|]. intros En. apply (f_equal length) in En. rewrite He', length_app in En.
      unfold len in Hlen. cbn in En. lia.
    - rewrite Hbase, Hview. unfold slog_append; cbn [sl_base log_view].
      rewrite (proj2 (Z.leb_gt _ _)) by lia. unfold slog_last; cbn [sl_base sl_ents].
      rewrite len_app. unfold len. rewrite length_drop. pose proof (len_nonneg ents).
      unfold slog_last, len in *. cbn [sl_ents sl_base log_view] in *. rewrite length_take. lia. }
  split; [|done]. unfold raftLog_append. destruct ents as [|e0 es]; [done|].
  rewrite (Hce 0%nat e0) by done. rewrite sub64_small by lia. rewrite (proj2 (Z.ltb_ge _ _)) by lia.
  rewrite E. cbn [mbind outcome_bind]. fold l'. rewrite lastIndex_ok by done. cbn [mbind outcome_bind].
  do 2 f_equal. rewrite (log_view_last l' Hwf'). unfold l'; cbn [raftLog_unstable set_raftLog_unstable].
  rewrite Ho', He', len_app. unfold len in *. rewrite length_take. lia.
Qed.

Lemma findConflict_ok l p ents :
  log_wf l → contiguous p ents → 0 <= p → p + len ents < MaxUint64 →
  (raftLog_findConflict l ents = Ok 0 ∧ ∀ k e, ents !! k = Some e → agrees (log_view l) p k e) ∨
  (∃ k e, raftLog_findConflict l ents = Ok (p + 1 + Z.of_nat k) ∧ ents !! k = Some e ∧
     ¬ agrees (log_view l) p k e ∧
     ∀ j e, (j < k)%nat → ents !! j = Some e → agrees (log_view l) p j e).
Proof.
  intros Hwf. revert p. induction ents as [|e ents IH]; intros p Hce Hp Hpl; [by left|].
  apply contiguous_cons in Hce as [Hie Hce]. rewrite len_cons in Hpl. pose proof (len_nonneg ents).
  cbn [raftLog_findConflict]. rewrite matchTerm_ok by (done || (cbn; lia)).
  cbn [pbEntryID entryID_index entryID_term mbind outcome_bind]. rewrite Hie.
  case_bool_decide as Hm.
  - destruct (IH (p + 1) Hce ltac:(lia) ltac:(lia)) as [[E Hall]|(k & e' & E & He' & Hne & Hall)].
    + left. split; [done|]. intros [|k] e' He'; cbn in He'; [simplify_eq; by rewrite Z.add_0_r|].
      replace (p + 1 + Z.of_nat (Datatypes.S k)) with (p + 1 + 1 + Z.of_nat k) by lia. by apply Hall.
    + right. exists (Datatypes.S k), e'.
      replace (p + 1 + Z.of_nat (Datatypes.S k)) with (p + 1 + 1 + Z.of_nat k) by lia.
      split_and!; try done. intros [|j] e'' Hj Hje; cbn in Hje; [simplify_eq; by rewrite Z.add_0_r|].
      replace (p + 1 + Z.of_nat (Datatypes.S j)) with (p + 1 + 1 + Z.of_nat j) by lia.
      apply Hall; [lia|done].
  - right. exists 0%nat, e. rewrite Z.add_0_r. split_and!; try done; [|intros; lia].
    rewrite lastIndex_ok by done. cbn [mbind outcome_bind]. zcase; [|done].
    rewrite term_ok by (done || lia). cbn [mbind outcome_bind]. unfold term_answer.
    destruct (slog_term _ _); [done|]. by destruct (_ <? _).
Qed.

(** What an append after a matching entry leaves of the old log and what it
    writes. *)
Lemma slog_append_term_old g p ents i :
  sl_base g <= p <= slog_last g → i <= p → slog_term (slog_append g p ents) i = slog_term g i.
Proof.
  intros Hp Hi. unfold slog_append. zcase; [done|]. unfold slog_term; cbn. repeat zcase; try done.
  unfold slog_last, len in Hp. rewrite lookup_app_l by (rewrite length_take; lia).
  by rewrite lookup_take_lt by lia.
Qed.

Lemma slog_append_term_new g p ents k e :
  sl_base g <= p <= slog_last g → ents !! k = Some e → agrees (slog_append g p ents) p k e.
Proof.
  intros Hp He. apply lookup_lt_Some in He as Hk. unfold slog_append, slog_last, len in *.
  zcase; [lia|]. unfold slog_term; cbn. repeat zcase; try lia.
  rewrite lookup_app_r by (rewrite length_take; lia). rewrite lookup_drop, length_take.
  replace (Z.to_nat (sl_base g - p) + _)%nat with k by lia. by rewrite He.
Qed.

Lemma slog_append_at g p ents i : sl_base g <= p <= slog_last g → i <= p → slog_at (slog_append g p ents) i = slog_at g i.
Proof.
  intros Hp Hi. unfold slog_append. zcase; [done|]. unfold slog_at. cbn. zcase; [|done].
  unfold slog_last, len in Hp. rewrite lookup_app_l by (rewrite length_take; lia). by rewrite lookup_take_lt by lia.
Qed.

Lemma slog_append_at_new g p ents k e :
  sl_base g <= p <= slog_last g → ents !! k = Some e → slog_at (slog_append g p ents) (p + 1 + Z.of_nat k) = Some e.
Proof.
  intros Hp He. apply lookup_lt_Some in He as Hk. unfold slog_append, slog_last, len in *.
  zcase; [lia|]. unfold slog_at; cbn. zcase; [|lia].
  rewrite lookup_app_r by (rewrite length_take; lia). rewrite lookup_drop, length_take.
  by replace (Z.to_nat (sl_base g - p) + _)%nat with k by lia.
Qed.

(** The term at an index is that of the entry there. *)
Lemma slog_term_at g i : sl_base g < i → slog_term g i = Entry_GetTerm <$> slog_at g i.
Proof.
  intros Hi. unfold slog_term, slog_at.
  by rewrite (proj2 (Z.ltb_lt (sl_base g) i)), (proj2 (Z.ltb_ge i _)), (proj2 (Z.eqb_neq i _)) by lia.
Qed.

Lemma slog_append_base g p ents : sl_base (slog_append g p ents) = sl_base g.
Proof. unfold slog_append. by zcase. Qed.

Lemma slog_append_last g p ents :
  sl_base g <= p <= slog_last g → slog_last (slog_append g p ents) = p + len ents ∨ ents = [].
Proof.
  intros Hp. destruct ents as [|e es]; [by right|left]. unfold slog_append, slog_last, len in *. cbn in *.
  zcase; [lia|]. cbn. rewrite length_app, length_take, length_drop. cbn. lia.
Qed.

(** [maybeAppend] when nothing conflicts below the commit index. *)
Lemma maybeAppend_ok l a committed :
  let p := entryID_index (logSlice_prev a) in
  log_wf l → 0 <= p → contiguous p (logSlice_entries a) →
  p + len (logSlice_entries a) < MaxUint64 →
  len (unstable_entries (raftLog_unstable l)) + len (logSlice_entries a) < 9223372036854775808 →
  slog_term (log_view l) p = Some (entryID_term (logSlice_prev a)) →
  (∀ k e, logSlice_entries a !! k = Some e → p + 1 + Z.of_nat k <= raftLog_committed l →
     agrees (log_view l) p k e) →
  ∃ l', raftLog_maybeAppend a committed l = Ok (Some (p + len (logSlice_entries a)), l') ∧ log_wf l' ∧
    raftLog_committed l' = Z.max (raftLog_committed l) (Z.min committed (p + len (logSlice_entries a))) ∧
    raftLog_applied l' = raftLog_applied l ∧ raftLog_applying l' = raftLog_applying l ∧
    raftLog_storage l' = raftLog_storage l ∧
    (log_view l' = log_view l ∧ p + len (logSlice_entries a) <= log_last l ∨
     ∃ k, (k < length (logSlice_entries a))%nat ∧
       raftLog_committed l <= p + Z.of_nat k <= log_last l ∧
       log_view l' = slog_append (log_view l) (p + Z.of_nat k) (drop k (logSlice_entries a)) ∧
       ∀ e, logSlice_entries a !! k = Some e → ¬ agrees (log_view l) p k e) ∧
    (∀ k e, logSlice_entries a !! k = Some e → agrees (log_view l') p k e).
Proof.
  set (ents := logSlice_entries a). intros p Hwf Hp Hce Hpl Hlb Hm Hnc.
  pose proof (slog_term_bounds _ _ _ Hm) as Hpb. cbn [sl_base log_view] in Hpb.
  unfold raftLog_maybeAppend. fold ents p. rewrite matchTerm_ok by (done || (fold p; pose proof (len_nonneg ents); lia)).
  fold p. rewrite bool_decide_true by done. cbn [mbind outcome_bind negb].
  pose proof (len_nonneg ents). rewrite add64_small by lia.
  destruct (findConflict_ok l p ents Hwf Hce Hp Hpl) as [[E Hall]|(k & e & E & He & Hne & Hall)].
  - rewrite E. cbn [mbind outcome_bind Z.eqb].
    assert (p + len ents <= log_last l) as Hle.
    { destruct (last ents) as [e|] eqn:El; [|apply last_None in El; rewrite El, len_nil; lia].
      rewrite last_lookup in El. specialize (Hall _ _ El). apply slog_term_bounds in Hall.
      apply lookup_lt_Some in El. unfold len. lia. }
    destruct (commitTo_ok l (Z.min committed (p + len ents)) Hwf) as [-> Hwf']; [lia|].
    eexists. split; [done|]. split; [done|]. split_and!; try done. by left.
  - rewrite E. cbn [mbind outcome_bind]. apply lookup_lt_Some in He as Hk.
    rewrite (proj2 (Z.eqb_neq _ _)) by lia.
    assert (raftLog_committed l < p + 1 + Z.of_nat k) as Hck.
    { destruct (Z.lt_ge_cases (raftLog_committed l) (p + 1 + Z.of_nat k)); [done|].
      destruct Hne. by apply Hnc. }
    rewrite (proj2 (Z.leb_gt _ _)) by lia. unfold len in *. u64_norm.
    rewrite (proj2 (Z.ltb_ge _ _)) by lia. rewrite go_from_Ok by (unfold len; lia).
    cbn [mbind outcome_bind]. replace (Z.to_nat (p + 1 + Z.of_nat k - (p + 1))) with k by lia.
    assert (p + Z.of_nat k <= log_last l) as Hkl.
    { destruct k as [|k]; [lia|]. destruct (lookup_lt_is_Some_2 ents k) as [e' He']; [lia|].
      specialize (Hall k e' ltac:(lia) He'). apply slog_term_bounds in Hall. lia. }
    destruct (append_ok l (p + Z.of_nat k) (drop k ents)) as (u' & Ea & Hwf' & Hv' & _); try done.
    { intros Ed. apply (f_equal length) in Ed. rewrite length_drop in Ed. cbn in Ed. lia. }
    { apply contiguous_drop; [lia|done]. }
    { lia. }
    { unfold len. rewrite length_drop. lia. }
    { unfold len. rewrite length_drop. lia. }
    rewrite Ea. cbn [mbind outcome_bind snd].
    pose proof (lwf_committed l Hwf).
    assert (log_base l <= p + Z.of_nat k <= log_last l) as Hpk by lia.
    assert (log_last (set_raftLog_unstable u' l) = p + Z.of_nat (length ents)) as Hlast'.
    { rewrite Hv'. destruct (slog_append_last (log_view l) (p + Z.of_nat k) (drop k ents) Hpk) as [->|Ed].
      - unfold len. rewrite length_drop. lia.
      - apply (f_equal length) in Ed. rewrite length_drop in Ed. cbn in Ed. lia. }
    destruct (commitTo_ok _ (Z.min committed (p + Z.of_nat (length ents))) Hwf') as [-> Hwf''];
      [rewrite Hlast'; lia|].
    eexists. split; [done|]. split; [done|]. split_and!; try done.
    + right. exists k. split_and!; [done|lia..|done|]. intros e' He'. rewrite He in He'. by injection He' as <-.
    + intros j e' He'. change (agrees (log_view (set_raftLog_unstable u' l)) p j e'). rewrite Hv'.
      destruct (decide (j < k)%nat) as [Hjk|Hjk].
      * rewrite slog_append_term_old by (done || lia). by apply Hall.
      * replace (p + 1 + Z.of_nat j) with (p + Z.of_nat k + 1 + Z.of_nat (j - k)) by lia.
        apply slog_append_term_new; [done|]. rewrite lookup_drop. by replace (k + (j - k))%nat with j by lia.
Qed.

(** ** Snapshots and acknowledgements from storage *)

Lemma newLog_ok (st : S) max :
  st_ok st → ∃ l, newLogWithSize st max = Ok l ∧ log_wf l ∧ log_view l = st_view st ∧
    raftLog_applied l = sl_base (st_view st) ∧ raftLog_committed l = sl_base (st_view st).
Proof.
  intros Hst. destruct (st_view_wf st Hst) as (Hb & Hl & Hc). pose proof (len_nonneg (sl_ents (st_view st))).
  unfold newLogWithSize. rewrite st_FirstIndex_ok, st_LastIndex_ok by done.
  unfold slog_last in *. rewrite !sub64_small, add64_small by lia.
  replace (sl_base (st_view st) + 1 - 1) with (sl_base (st_view st)) by lia.
  eexists. split; [done|].
  match goal with |- log_wf ?l ∧ _ => assert (log_view l = st_view st) as Hv end.
  { unfold log_view, log_base, log_base_term, log_stable, log_base; cbn. rewrite app_nil_r, take_ge.
    - by destruct (st_view st).
    - unfold len. lia. }
  split; [|by rewrite Hv]. split; cbn [raftLog_storage raftLog_unstable raftLog_committed raftLog_applied
    raftLog_applying unstable_snapshot unstable_offset unstable_entries]; try done; try lia.
  - split; cbn; rewrite ?len_nil; auto with raft; try lia; done.
  - unfold slog_last. split; [lia|done].
  - rewrite Hv. unfold log_base, slog_last; cbn. lia.
Qed.

Lemma log_restore_ok l s :
  log_wf l → raftLog_committed l <= snap_index (Some s) < MaxUint64 →
  log_wf (raftLog_restore s l) ∧
  log_view (raftLog_restore s l) = mkslog (snap_index (Some s)) (snap_term (Some s)) [].
Proof.
  intros Hwf Hi. log_facts Hwf. split; [|done]. split; cbn; try done; try lia.
  - apply restore_wf. lia.
  - by rewrite add64_small by lia.
  - unfold log_base, log_view, slog_last; cbn. rewrite len_nil. lia.
Qed.

(** What the application owes before it acknowledges that the log is stable up
    to an entry: storage holds the log up to it, and nothing behind it when it
    is the last entry. *)
Definition stable_contract (l : raftLog S) (index : Z) : Prop :=
  let v := st_view (raftLog_storage l) in
  index <= slog_last v ∧
  take (Z.to_nat (index - log_base l)) (sl_ents v) =
    take (Z.to_nat (index - log_base l)) (sl_ents (log_view l)) ∧
  (index = log_last l → slog_last v = index).

Lemma log_stableTo_ok l id :
  log_wf l → unstable_snapshot (raftLog_unstable l) = None → 0 <= entryID_index id < MaxUint64 →
  stable_contract l (entryID_index id) →
  ∃ l', raftLog_stableTo id l = Ok l' ∧ log_wf l' ∧ log_view l' = log_view l ∧
    raftLog_storage l' = raftLog_storage l ∧ raftLog_committed l' = raftLog_committed l.
Proof.
  intros Hwf Es Hi (Hc1 & Hc2 & Hc3). log_facts Hwf. unfold raftLog_stableTo.
  destruct (stableTo_ok (raftLog_unstable l) id Hu Hi)
    as (u' & -> & Hu' & [[-> _]|(_ & Hr & Ho' & Hs' & He')]); cbn [mbind outcome_bind].
  { exists (set_raftLog_unstable (raftLog_unstable l) l). by destruct l. }
  eexists. split; [done|].
  match goal with |- log_wf ?l ∧ _ => set (l' := l) end.
  assert (log_base l = sl_base (st_view (raftLog_storage l))) as Hbase by (unfold log_base; by rewrite Es).
  assert (log_base l' = log_base l) as Hbase' by (unfold log_base; cbn; by rewrite Hs').
  rewrite Es in Hgap. destruct Hgap as [Hgap _]. unfold len in Hsl.
  assert (log_view l' = log_view l) as Hv.
  { unfold log_view. rewrite Hbase'. f_equal; [unfold log_base_term; cbn; by rewrite Hs'|].
    unfold log_stable at 1. change (raftLog_unstable l') with u'.
    change (raftLog_storage l') with (raftLog_storage l).
    rewrite Hs', Es, Ho', Hbase', He'.
    replace (entryID_index id + 1 - log_base l - 1) with (entryID_index id - log_base l) by lia.
    rewrite Hc2. cbn [sl_ents log_view]. rewrite take_app, take_ge by lia. rewrite <- app_assoc. f_equal.
    rewrite <- (take_drop (Z.to_nat (entryID_index id + 1 - unstable_offset (raftLog_unstable l)))
                  (unstable_entries (raftLog_unstable l))) at 3.
    f_equal. f_equal. lia. }
  split; [|done]. split; cbn [raftLog_storage raftLog_unstable raftLog_committed raftLog_applied
    raftLog_applying l' set_raftLog_unstable]; try done.
  - rewrite Hs', Es, Ho'. split; [lia|]. rewrite He'. intros Ed. apply (f_equal length) in Ed.
    rewrite length_drop in Ed. cbn in Ed. unfold len in *. rewrite Hc3; lia.
  - fold l'. rewrite Hbase', Hv. done.
Qed.

Lemma log_stableSnapTo_ok l s :
  log_wf l → unstable_snapshot (raftLog_unstable l) = Some s →
  sl_base (st_view (raftLog_storage l)) = snap_index (Some s) →
  sl_term (st_view (raftLog_storage l)) = snap_term (Some s) →
  (unstable_entries (raftLog_unstable l) = [] → sl_ents (st_view (raftLog_storage l)) = []) →
  log_wf (raftLog_stableSnapTo (snap_index (Some s)) l) ∧
  log_view (raftLog_stableSnapTo (snap_index (Some s)) l) = log_view l.
Proof.
  intros Hwf Es Hb Ht He. log_facts Hwf. rewrite Es in Hgap.
  assert (log_view (raftLog_stableSnapTo (snap_index (Some s)) l) = log_view l) as Hv.
  { unfold log_view, log_base, log_base_term, log_stable, log_base, raftLog_stableSnapTo,
      unstable_stableSnapTo; cbn. rewrite Es, Z.eqb_refl; cbn. rewrite Hb, Ht, Hgap.
    by replace (snap_index (Some s) + 1 - snap_index (Some s) - 1) with 0 by lia. }
  split; [|done]. split; rewrite ?Hv; try done.
  - by apply stableSnapTo_wf.
  - unfold raftLog_stableSnapTo, unstable_stableSnapTo; cbn. rewrite Es, Z.eqb_refl; cbn.
    rewrite Hb, Hgap. unfold slog_last. rewrite Hb. pose proof (len_nonneg (sl_ents (st_view (raftLog_storage l)))).
    split; [lia|]. intros E. rewrite He by done. rewrite len_nil. lia.
  - change (sl_base (log_view (raftLog_stableSnapTo (snap_index (Some s)) l))
            <= raftLog_committed l <= log_last l). rewrite Hv. done.
Qed.

(** ** Handing out committed entries *)

(** The size bookkeeping: application is paused as soon as the outstanding size
    reaches the limit. *)
Definition log_size_ok (l : raftLog S) : Prop :=
  0 <= raftLog_applyingEntsSize l ∧ 0 <= raftLog_maxApplyingEntsSize l < two64 ∧
  (raftLog_applyingEntsPaused l = false → raftLog_applyingEntsSize l < raftLog_maxApplyingEntsSize l).

Lemma maxAppliableIndex_ok l allow :
  log_wf l → raftLog_maxAppliableIndex allow l =
    if allow then raftLog_committed l
    else Z.min (raftLog_committed l) (unstable_offset (raftLog_unstable l) - 1).
Proof.
  intros Hwf. log_facts Hwf. unfold raftLog_maxAppliableIndex. destruct allow; [done|]. cbn.
  by rewrite sub64_small by lia.
Qed.

Lemma slog_range_contiguous g lo hi :
  slog_wf g → sl_base g < lo <= slog_last g + 1 → contiguous (lo - 1) (slog_range g lo hi).
Proof.
  intros (Hb & Hl & Hc) Hlo. unfold slog_range. apply contiguous_take. unfold slog_last, len in Hlo.
  replace (lo - 1) with (sl_base g + Z.of_nat (Z.to_nat (lo - sl_base g - 1))) by lia.
  apply contiguous_drop; [lia|done].
Qed.

Lemma findConflictByTerm_loop_ok l index term :
  log_wf l → Z.of_nat index < MaxUint64 →
  ∃ gi gt, findConflictByTerm_loop l index term = Ok (gi, gt) ∧ 0 <= gi <= Z.of_nat index ∧
    (slog_term (log_view l) gi = Some gt ∧ gt <= term ∨
     gt = 0 ∧ (gi = 0 ∨ slog_term (log_view l) gi = None)) ∧
    (∀ j, gi < j <= Z.of_nat index → ∃ t, slog_term (log_view l) j = Some t ∧ term < t).
Proof.
  intros Hwf. induction index as [|index IH]; intros Hi.
  { exists 0, 0. split_and!; try done; lia. }
  cbn [findConflictByTerm_loop]. rewrite term_ok by (done || lia). unfold term_answer.
  cbn [mbind outcome_bind]. destruct (slog_term _ _) as [t|] eqn:Et.
  - zcase.
    + exists (Z.of_nat (Datatypes.S index)), t. split_and!; try done; try lia. by left.
    + destruct IH as (gi & gt & -> & Hgi & Hg & Hj); [lia|]. exists gi, gt. split_and!; try done; try lia.
      intros j Hjr. destruct (decide (j = Z.of_nat (Datatypes.S index))) as [->|]; [eauto|]. apply Hj. lia.
  - exists (Z.of_nat (Datatypes.S index)), 0.
    destruct (_ <? _); (split_and!; [done|lia|lia|right; auto|intros; lia]).
Qed.
End raftLog_lemmas.

(** ** What the log guarantees *)

Section raftLog_claims.
Context {S : Type} `{Protobuf, !ProtobufLaws _} `{!Storage S} `{!StorageLaws S}.

(** The two branches of [maybeAppend] that append nothing. *)
Lemma maybeAppend_reject l a c :
  let p := entryID_index (logSlice_prev a) in
  log_wf l → 0 <= p < MaxUint64 → slog_term (log_view l) p ≠ Some (entryID_term (logSlice_prev a)) →
  raftLog_maybeAppend a c l = Ok (None, l).
Proof.
  intros p Hwf Hp Hm. unfold raftLog_maybeAppend. rewrite matchTerm_ok by (done || (fold p; lia)).
  fold p. by rewrite bool_decide_false.
Qed.

Lemma maybeAppend_conflict l a c :
  let p := entryID_index (logSlice_prev a) in
  let ents := logSlice_entries a in
  log_wf l → 0 <= p → contiguous p ents → p + len ents < MaxUint64 →
  slog_term (log_view l) p = Some (entryID_term (logSlice_prev a)) →
  (∃ k e, ents !! k = Some e ∧ p + 1 + Z.of_nat k <= raftLog_committed l ∧ ¬ agrees (log_view l) p k e) →
  ∃ why, raftLog_maybeAppend a c l = Panic why.
Proof.
  intros p ents Hwf Hp Hce Hpl Hm (k & e & He & Hk & Hne). pose proof (len_nonneg ents). unfold raftLog_maybeAppend.
  rewrite matchTerm_ok by (done || (fold p; lia)). fold p ents. rewrite bool_decide_true by done.
  cbn [mbind outcome_bind negb].
  destruct (findConflict_ok l p ents Hwf Hce Hp Hpl) as [[_ Hall]|(k' & e' & -> & He' & Hne' & Hall)].
  { destruct Hne. by apply Hall. }
  assert (k' <= k)%nat as Hkk.
  { destruct (decide (k < k')%nat) as [Hlt|]; [|lia]. destruct Hne. by apply Hall. }
  cbn [mbind outcome_bind]. rewrite (proj2 (Z.eqb_neq _ _)), (proj2 (Z.leb_le _ _)) by lia. cbn. eauto.
Qed.

(** C16. [maybeAppend] maintains log matching.  Without a matching previous
    entry it changes nothing.  When an entry at or below the commit index would
    be replaced it panics.  Otherwise the log afterwards agrees with every entry
    of the slice, everything up to the previous entry and up to the commit
    index is untouched, a slice that is already there removes nothing, and the
    commit index becomes the maximum of its old value and what the slice
    justifies. *)
Theorem maybeAppend_log_matching (l : raftLog S) (a : logSlice) (c : Z) :
  let p := entryID_index (logSlice_prev a) in
  let ents := logSlice_entries a in
  log_wf l → 0 <= p → contiguous p ents → p + len ents < MaxUint64 →
  len (unstable_entries (raftLog_unstable l)) + len ents < 9223372036854775808 →
  (slog_term (log_view l) p ≠ Some (entryID_term (logSlice_prev a)) →
     raftLog_maybeAppend a c l = Ok (None, l)) ∧
  (slog_term (log_view l) p = Some (entryID_term (logSlice_prev a)) →
   (∃ k e, ents !! k = Some e ∧ p + 1 + Z.of_nat k <= raftLog_committed l ∧ ¬ agrees (log_view l) p k e) →
     ∃ why, raftLog_maybeAppend a c l = Panic why) ∧
  (slog_term (log_view l) p = Some (entryID_term (logSlice_prev a)) →
   (∀ k e, ents !! k = Some e → p + 1 + Z.of_nat k <= raftLog_committed l → agrees (log_view l) p k e) →
     ∃ l', raftLog_maybeAppend a c l = Ok (Some (p + len ents), l') ∧ log_wf l' ∧
       raftLog_committed l' = Z.max (raftLog_committed l) (Z.min c (p + len ents)) ∧
       (∀ k e, ents !! k = Some e → agrees (log_view l') p k e) ∧
       (∀ i, i <= Z.max p (raftLog_committed l) →
          slog_term (log_view l') i = slog_term (log_view l) i) ∧
       ((∀ k e, ents !! k = Some e → agrees (log_view l) p k e) → log_view l' = log_view l)).
Proof.
  intros p ents Hwf Hp Hce Hpl Hlb. pose proof (len_nonneg ents). split_and!.
  - intros Hm. apply maybeAppend_reject; [done| |done]. fold p. lia.
  - intros Hm Hc. by apply maybeAppend_conflict.
  - intros Hm Hnc.
    destruct (maybeAppend_ok l a c) as (l' & E & Hwf' & Hc' & _ & _ & _ & Hv & Hag); try done.
    pose proof (lwf_committed l Hwf). pose proof (slog_term_bounds _ _ _ Hm) as Hpb.
    exists l'. split_and!; try done.
    + intros i Hi. destruct Hv as [[-> _]|(k & Hk & Hpk & -> & _)]; [done|].
      apply slog_append_term_old; cbn [sl_base log_view] in *; fold p; lia.
    + intros Hall. destruct Hv as [[-> _]|(k & Hk & _ & _ & Hne)]; [done|].
      destruct (lookup_lt_is_Some_2 ents k Hk) as [e He]. destruct (Hne e He). by apply Hall.
Qed.

(** C35. [slice] reads the joined log: for a range that the log holds it
    returns, without an error, a non-empty prefix of exactly that range, within
    the size limit unless it is a single entry, wherever the border between
    storage and unstable entries runs; a range that starts in the compacted
    part gives [ErrCompacted]. *)
Theorem raftLog_slice_spec (l : raftLog S) lo hi maxSize :
  log_wf l → 0 <= lo < hi → hi <= log_last l + 1 → 0 <= maxSize < two64 →
  total_size (slog_range (log_view l) lo hi) < two64 →
  (lo <= log_base l → raftLog_slice l lo hi maxSize = Ok (Err ErrCompacted)) ∧
  (log_base l < lo →
     ∃ n, raftLog_slice l lo hi maxSize = Ok (Val (take n (slog_range (log_view l) lo hi))) ∧
       (1 <= n)%nat ∧ Z.of_nat n <= hi - lo ∧
       (n = 1%nat ∨ total_size (take n (slog_range (log_view l) lo hi)) <= maxSize) ∧
       contiguous (lo - 1) (take n (slog_range (log_view l) lo hi))).
Proof.
  intros Hwf Hlo Hhi Hmax Hsz. split; intros Hb.
  - unfold raftLog_slice, raftLog_mustCheckOutOfBounds. rewrite (proj2 (Z.ltb_ge _ _)) by lia.
    rewrite firstIndex_ok by done. cbn [mbind outcome_bind]. by rewrite (proj2 (Z.ltb_lt _ _)) by lia.
  - destruct (slice_ok l lo hi maxSize) as (n & E & Hn & Hm); try done; [lia|].
    pose proof (slog_range_length (log_view l) lo hi) as Hlen. cbn [sl_base log_view] in Hlen.
    unfold len in Hlen. exists n. split_and!; try done; try lia. apply contiguous_take.
    apply slog_range_contiguous; [by apply log_view_wf|cbn; lia].
Qed.

(** [findConflictByTerm] skips no possible match: it returns a guess at or
    below the given index, whose term is returned and does not exceed the given
    term (or is unknown, reported as 0), and no index between the guess and the
    given one can agree with a log whose terms there do not exceed the given
    term. *)
Theorem findConflictByTerm_spec (l : raftLog S) index term :
  log_wf l → 0 <= index < MaxUint64 →
  ∃ gi gt, raftLog_findConflictByTerm l index term = Ok (gi, gt) ∧ 0 <= gi <= index ∧
    (slog_term (log_view l) gi = Some gt ∧ gt <= term ∨
     gt = 0 ∧ (gi = 0 ∨ slog_term (log_view l) gi = None)) ∧
    (∀ (other : slog) j, (∀ i t, i <= index → slog_term other i = Some t → t <= term) →
       gi < j <= index → slog_term (log_view l) j ≠ slog_term other j).
Proof.
  intros Hwf Hi. destruct (findConflictByTerm_loop_ok l (Z.to_nat index) term) as (gi & gt & E & Hgi & Hg & Hj);
    [done|lia|]. rewrite Z2Nat.id in * by lia.
  exists gi, gt. split_and!; try done; try lia. intros other j Hle Hjr Heq.
  destruct (Hj j Hjr) as (t & Ht & Hlt). rewrite Ht in Heq. specialize (Hle j t ltac:(lia) (eq_sym Heq)). lia.
Qed.

(** The last index that may be handed out: the commit index, and only what is
    in storage unless entries may be applied before they are stored. *)
Definition appliable (allow : bool) (l : raftLog S) : Z :=
  if allow then raftLog_committed l else Z.min (raftLog_committed l) (unstable_offset (raftLog_unstable l) - 1).

(** What is to be handed out next: entries that follow the applying position
    without a gap, up to [appliable]; some if there are any and nothing holds
    them back (a pause, a pending snapshot); and no more than one entry or than
    what the size limit leaves. *)
Record committed_batch (allow : bool) (l : raftLog S) (ents : list Entry) : Prop := mkcommitted_batch {
  cb_next : contiguous (raftLog_applying l) ents;
  cb_log : ents `prefix_of` slog_range (log_view l) (raftLog_applying l + 1) (appliable allow l + 1);
  cb_some : ents ≠ [] ↔ raftLog_applyingEntsPaused l = false ∧ unstable_snapshot (raftLog_unstable l) = None ∧
              raftLog_applying l < appliable allow l;
  cb_size : len ents <= 1 ∨ total_size ents <= raftLog_maxApplyingEntsSize l - raftLog_applyingEntsSize l;
}.

Lemma committed_batch_nil allow l :
  ¬ (raftLog_applyingEntsPaused l = false ∧ unstable_snapshot (raftLog_unstable l) = None ∧
     raftLog_applying l < appliable allow l) → committed_batch allow l [].
Proof. intros Hn. split; [auto with raft|apply prefix_nil|by split|left; rewrite len_nil; lia]. Qed.

Lemma slog_range_prefix g lo hi h : hi <= h → slog_range g lo hi `prefix_of` slog_range g lo h.
Proof.
  intros Hh. unfold slog_range. destruct (decide (lo <= hi)).
  - replace (Z.to_nat (h - lo)) with (Z.to_nat (hi - lo) + Z.to_nat (h - hi))%nat by lia.
    rewrite <- take_take_drop. by apply prefix_app_r.
  - replace (Z.to_nat (hi - lo)) with 0%nat by lia. apply prefix_nil.
Qed.

(** What is handed out is within bounds. *)
Lemma committed_batch_bound allow l ents :
  log_wf l → log_base l <= raftLog_applying l → committed_batch allow l ents →
  ents ≠ [] → raftLog_applying l + len ents <= appliable allow l.
Proof.
  intros Hwf Hb [_ Hp Hs _] Hne. log_facts Hwf. apply Hs in Hne as (_ & _ & Hlt). apply prefix_length in Hp.
  assert (appliable allow l <= log_last l) by (unfold appliable; destruct allow; lia).
  pose proof (slog_range_length (log_view l) (raftLog_applying l + 1) (appliable allow l + 1)) as Hlen.
  cbn [sl_base log_view] in Hlen. unfold len in *. lia.
Qed.

Lemma nextCommittedEnts_ok (l : raftLog S) (allow : bool) :
  log_wf l → log_size_ok l → log_base l <= raftLog_applying l →
  total_size (slog_range (log_view l) (raftLog_applying l + 1) (log_last l + 1)) < two64 →
  ∃ ents, raftLog_nextCommittedEnts allow l = Ok ents ∧ committed_batch allow l ents ∧
    (raftLog_hasNextCommittedEnts allow l = true ↔ ents ≠ []) ∧
    raftLog_applying l + len ents <= raftLog_committed l.
Proof.
  intros Hwf (Hs1 & Hs2 & Hs3) Hb Hsz. log_facts Hwf. pose proof (log_last_bound l Hwf).
  assert (appliable allow l <= raftLog_committed l) as Hhi by (unfold appliable; destruct allow; lia).
  assert (∀ P : Prop, (¬ P → committed_batch allow l []) → (¬ P) →
    ∃ ents, Ok [] = Ok ents ∧ committed_batch allow l ents ∧ (false = true ↔ ents ≠ []) ∧
      raftLog_applying l + len ents <= raftLog_committed l) as Hnil.
  { intros P Hn HP. exists []. rewrite len_nil. split_and!; [done|by apply Hn|done|lia]. }
  unfold raftLog_nextCommittedEnts, raftLog_hasNextCommittedEnts, raftLog_hasNextOrInProgressSnapshot.
  destruct (raftLog_applyingEntsPaused l) eqn:Epa; [eapply Hnil; [apply committed_batch_nil|intros (? & _); congruence]|].
  destruct (unstable_snapshot (raftLog_unstable l)) eqn:Esn; [eapply Hnil; [apply committed_batch_nil|intros (_ & ? & _); congruence]|].
  rewrite maxAppliableIndex_ok by done. fold (appliable allow l). set (hi := appliable allow l) in *.
  assert (0 <= hi) as Hhi0 by (unfold hi, appliable; destruct allow; lia).
  specialize (Hs3 eq_refl). u64_norm. destruct (Z.leb_spec (hi + 1) (raftLog_applying l + 1)) as [Hle|Hlt].
  { rewrite (proj2 (Z.ltb_ge _ _)) by lia. eapply Hnil; [apply committed_batch_nil|]. intros (_ & _ & ?). lia. }
  rewrite (proj2 (Z.ltb_lt _ _)) by lia. rewrite (proj2 (Z.leb_gt _ _)) by lia.
  destruct (slice_ok l (raftLog_applying l + 1) (hi + 1) (raftLog_maxApplyingEntsSize l - raftLog_applyingEntsSize l))
    as (n & -> & Hn & Hm); [done|lia|lia|lia| |].
  { destruct (slog_range_prefix (log_view l) (raftLog_applying l + 1) (hi + 1) (log_last l + 1)) as [k Ek]; [lia|].
    rewrite Ek in Hsz. by apply total_size_prefix in Hsz as [? _]. }
  cbn [mbind outcome_bind]. eexists. split; [done|].
  set (range := slog_range (log_view l) (raftLog_applying l + 1) (hi + 1)) in *.
  assert (len range = hi - raftLog_applying l) as Hlr.
  { unfold range. rewrite slog_range_length; cbn [sl_base log_view]; lia. }
  assert (len (take n range) = Z.of_nat n) as Hln by (unfold len; rewrite length_take; lia).
  unfold len in Hlr. assert (take n range ≠ []) as Hne by (intros E; rewrite E, len_nil in Hln; lia).
  rewrite Hln. split_and!; [|done|lia]. split; [|apply prefix_take|split; [intros _; split_and!; [done|done|unfold hi in *; lia]|done]|rewrite Hln; destruct Hm as [->|]; [left; lia|by right]].
  apply contiguous_take. unfold range.
  replace (raftLog_applying l) with (raftLog_applying l + 1 - 1) at 1 by lia.
  apply slog_range_contiguous; [by apply log_view_wf|cbn; lia].
Qed.

(** C32. Handing out committed entries: [nextCommittedEnts] returns the entries
    of the log that follow the applying position without a gap, never beyond
    the commit index nor, unless allowed, beyond stable storage; it returns
    something exactly when there is such an entry and neither a pause nor a
    pending snapshot holds it back, which is also what [hasNextCommittedEnts]
    says; what it returns is a single entry or fits into what the limit leaves
    ([committed_batch]); and accepting it moves the applying position past
    exactly these entries, so that none is handed out twice or skipped. *)
Theorem nextCommittedEnts_in_order (l : raftLog S) (allow : bool) :
  log_wf l → log_size_ok l → log_base l <= raftLog_applying l →
  total_size (slog_range (log_view l) (raftLog_applying l + 1) (log_last l + 1)) < two64 →
  ∃ ents, raftLog_nextCommittedEnts allow l = Ok ents ∧
    committed_batch allow l ents ∧
    (raftLog_hasNextCommittedEnts allow l = true ↔ ents ≠ []) ∧
    (ents ≠ [] → raftLog_applying l + len ents <= appliable allow l) ∧
    (ents ≠ [] → ∀ size, ∃ l',
       raftLog_acceptApplying (raftLog_applying l + len ents) size allow l = Ok l' ∧ log_wf l' ∧
       raftLog_applying l' = raftLog_applying l + len ents).
Proof.
  intros Hwf Hs Hb Hsz. destruct (nextCommittedEnts_ok l allow Hwf Hs Hb Hsz) as (ents & E & Hc & Hh & Hle).
  exists ents. split_and!; try done; [by apply committed_batch_bound|]. intros _ size. pose proof (len_nonneg ents).
  destruct (acceptApplying_ok l (raftLog_applying l + len ents) size allow) as (l' & ? & ? & _ & _ & _ & ?);
    [done|lia|]. eauto.
Qed.

End raftLog_claims.

(** ** Scanning *)

Section raftLog_scan_claims.
Context {S : Type} `{Protobuf, !ProtobufLaws _} `{!Storage S} `{!StorageLaws S}.

Lemma slog_range_app g lo mid hi :
  sl_base g < lo <= mid → mid <= hi →
  slog_range g lo hi = slog_range g lo mid ++ slog_range g mid hi.
Proof.
  intros Hlo Hhi. unfold slog_range.
  replace (Z.to_nat (hi - lo)) with (Z.to_nat (mid - lo) + Z.to_nat (hi - mid))%nat by lia.
  rewrite <- take_take_drop, drop_drop. do 3 f_equal. lia.
Qed.

Lemma scan_loop_ok {A} (l : raftLog S) (f : A → Entry → A) fuel lo hi pageSize a :
  log_wf l → log_base l < lo → hi <= log_last l + 1 → 0 <= pageSize < two64 →
  total_size (slog_range (log_view l) lo hi) < two64 → hi - lo <= Z.of_nat fuel →
  scan_loop l fuel lo hi pageSize (fun ents a => (foldl f a ents, None)) a =
    Ok (foldl f a (slog_range (log_view l) lo hi), None).
Proof.
  intros Hwf. revert lo a. induction fuel as [|fuel IH]; intros lo a Hlo Hhi Hp Hsz Hf;
    cbn [scan_loop]; destruct (Z.ltb_spec lo hi) as [Hlt|Hge]; try lia;
    try (unfold slog_range; by replace (Z.to_nat (hi - lo)) with 0%nat by lia).
  destruct (slice_ok l lo hi pageSize) as (n & -> & Hn & _); try done.
  cbn [mbind outcome_bind]. pose proof (slog_range_length (log_view l) lo hi) as Hlen.
  cbn [sl_base log_view] in Hlen. specialize (Hlen ltac:(lia) Hhi).
  pose proof (log_last_bound l Hwf). pose proof (log_base_bounds l Hwf).
  assert (len (take n (slog_range (log_view l) lo hi)) = Z.of_nat n) as Hln
    by (unfold len in *; rewrite length_take; lia).
  unfold len in Hlen. rewrite Hln. rewrite (proj2 (Z.eqb_neq _ _)) by lia. u64_norm.
  assert (take n (slog_range (log_view l) lo hi) = slog_range (log_view l) lo (lo + Z.of_nat n)) as Htake.
  { unfold slog_range. rewrite take_take. f_equal. lia. }
  rewrite Htake. rewrite (slog_range_app (log_view l) lo (lo + Z.of_nat n) hi) in Hsz |- * by (cbn; lia).
  apply total_size_prefix in Hsz as [_ Hsz]. rewrite foldl_app. apply IH; lia || done.
Qed.

(** [scan] terminates and visits every entry of the range exactly once and
    in order, whatever the page size: folding a function over the pages gives
    the fold over the whole range. *)
Theorem scan_visits_range {A} (l : raftLog S) (f : A → Entry → A) lo hi pageSize a :
  log_wf l → log_base l < lo → hi <= log_last l + 1 → 0 <= pageSize < two64 →
  total_size (slog_range (log_view l) lo hi) < two64 →
  raftLog_scan l lo hi pageSize (fun ents a => (foldl f a ents, None)) a =
    Ok (foldl f a (slog_range (log_view l) lo hi), None).
Proof. intros. apply scan_loop_ok; try done. lia. Qed.

End raftLog_scan_claims.

(** ** Persisting to a MemoryStorage *)

Section raftLog_memory.
Context `{Protobuf, !ProtobufLaws _}.

(** Writing all unstable entries to storage leaves the joined log as it is. *)
Lemma persist_ok (l : raftLog MemoryStorage) :
  log_wf l → unstable_snapshot (raftLog_unstable l) = None →
  unstable_entries (raftLog_unstable l) ≠ [] →
  len (ms_ents (raftLog_storage l)) + len (unstable_entries (raftLog_unstable l)) < 9223372036854775808 →
  ∃ ms', ms_Append (unstable_entries (raftLog_unstable l)) (raftLog_storage l) = Ok ms' ∧
    log_wf (set_raftLog_storage ms' l) ∧ log_view (set_raftLog_storage ms' l) = log_view l ∧
    stable_contract (set_raftLog_storage ms' l) (log_last l).
Proof.
  intros Hwf Es Hne Hlb. log_facts Hwf. rewrite Es in Hgap. cbn in Hgap. destruct Hgap as [Hgap _].
  set (off := unstable_offset (raftLog_unstable l)) in *.
  set (ents := unstable_entries (raftLog_unstable l)) in *.
  assert (0 < len ents) as Hlen by (destruct ents; [done|rewrite len_cons; pose proof (len_nonneg ents); lia]).
  destruct (ms_Append_view (raftLog_storage l) (off - 1) ents) as (ms' & E & Hok' & Hv' & _); try done; [lia..|].
  assert (log_base l = sl_base (ms_view (raftLog_storage l))) as Hbase by (unfold log_base; by rewrite Es).
  assert (ms_view ms' = mkslog (log_base l) (sl_term (ms_view (raftLog_storage l))) (log_stable l ++ ents)) as Hv.
  { rewrite Hv'. unfold slog_append. rewrite (proj2 (Z.leb_gt _ _)) by lia. rewrite <- Hbase.
    rewrite Z.max_l by lia. replace (Z.to_nat (log_base l - (off - 1))) with 0%nat by lia. rewrite drop_0.
    f_equal. unfold log_stable. rewrite Es. do 2 f_equal. fold off. lia. }
  set (l' := set_raftLog_storage ms' l).
  assert (log_base l' = log_base l) as Hbase'.
  { unfold log_base at 1. change (raftLog_unstable l') with (raftLog_unstable l). rewrite Es.
    change (st_view (raftLog_storage l')) with (ms_view ms'). by rewrite Hv. }
  assert (log_view l' = log_view l) as Hview.
  { unfold log_view. rewrite Hbase'. unfold log_base_term, log_stable at 1.
    change (raftLog_unstable l') with (raftLog_unstable l). rewrite Es, Hbase'.
    change (st_view (raftLog_storage l')) with (ms_view ms'). rewrite Hv. cbn [sl_term sl_ents]. f_equal.
    f_equal. fold off. unfold len in Hsl. rewrite take_app_le by lia. apply take_ge. lia. }
  assert (slog_last (ms_view ms') = log_last l) as Hlast.
  { rewrite Hv. unfold slog_last, log_view; cbn. done. }
  exists ms'. split; [done|]. fold l'. split; [|split; [done|]].
  - split; rewrite ?Hview, ?Hbase'; [exact Hok'|exact Hu| |exact Hcom|exact Happ|exact Happl].
    change (raftLog_unstable l') with (raftLog_unstable l). rewrite Es. fold off ents.
    change (st_view (raftLog_storage l')) with (ms_view ms'). rewrite Hlast, Hla.
    rewrite Hv. cbn [sl_base]. split; [lia|done].
  - unfold stable_contract. change (st_view (raftLog_storage l')) with (ms_view ms').
    rewrite Hview, Hlast. split_and!; try done. by rewrite Hv.
Qed.

Lemma persist_ack_ok (l : raftLog MemoryStorage) (id : entryID) :
  log_wf l → unstable_snapshot (raftLog_unstable l) = None →
  pbEntryID <$> last (unstable_entries (raftLog_unstable l)) = Some id →
  len (ms_ents (raftLog_storage l)) + len (unstable_entries (raftLog_unstable l)) < 9223372036854775808 →
  ∃ ms' l', ms_Append (unstable_entries (raftLog_unstable l)) (raftLog_storage l) = Ok ms' ∧
    raftLog_stableTo id (set_raftLog_storage ms' l) = Ok l' ∧
    log_wf (set_raftLog_storage ms' l) ∧ log_view (set_raftLog_storage ms' l) = log_view l ∧
    log_wf l' ∧ log_view l' = log_view l ∧
    unstable_entries (raftLog_unstable l') = [].
Proof.
  intros Hwf Es Hlast Hlb.
  destruct (last (unstable_entries (raftLog_unstable l))) as [e|] eqn:El; [|done]. cbn in Hlast. simplify_eq.
  log_facts Hwf. pose proof (last_index_contiguous _ _ _ Hc El) as Hie.
  assert (unstable_entries (raftLog_unstable l) ≠ []) as Hne by (intros E; by rewrite E in El).
  destruct (persist_ok l Hwf Es Hne Hlb) as (ms' & E & Hwf1 & Hv1 & Hcon).
  assert (Entry_GetIndex e = log_last l) as Hil by lia. pose proof (log_last_bound l Hwf).
  exists ms'. destruct (log_stableTo_ok (set_raftLog_storage ms' l) (pbEntryID e))
    as (l' & Est & Hwf' & Hv' & _ & _); try done; [cbn; lia|cbn; by rewrite Hil|].
  exists l'. split_and!; try done; [by rewrite Hv'|].
  revert Est. unfold raftLog_stableTo.
  destruct (stableTo_ok (raftLog_unstable l) (pbEntryID e)) as (u' & Eu & _ & Hcase); [done|cbn; lia|].
  cbn [raftLog_unstable set_raftLog_storage]. rewrite Eu. cbn [mbind outcome_bind]. intros [= <-]. cbn.
  destruct Hcase as [[-> Hno]|(_ & _ & _ & _ & ->)].
  - rewrite last_lookup in El. apply lookup_lt_Some in El as Hlt. unfold len in *.
    destruct Hno. cbn. rewrite Hil, <- view_term_unstable by (done || lia). unfold slog_term; cbn.
    rewrite (proj2 (Z.ltb_ge _ _)), (proj2 (Z.eqb_neq _ _)) by lia.
    rewrite lookup_app_r by lia.
    replace (Z.to_nat _ - _)%nat with (pred (length (unstable_entries (raftLog_unstable l)))) by lia.
    by rewrite El.
  - apply drop_ge. cbn. unfold len in *. lia.
Qed.

(** The id of the last entry while some are unstable. *)
Lemma lastEntryID_unstable (l : raftLog MemoryStorage) e :
  log_wf l → last (unstable_entries (raftLog_unstable l)) = Some e →
  raftLog_lastEntryID l = Ok (pbEntryID e) ∧ Entry_GetIndex e = log_last l.
Proof.
  intros Hwf El. log_facts Hwf. pose proof (last_index_contiguous _ _ _ Hc El) as Hie.
  destruct (lastEntryID_ok l Hwf) as (t & -> & Ht). rewrite last_lookup in El.
  apply lookup_lt_Some in El as Hlt. unfold len in *.
  rewrite view_term_unstable in Ht by (done || lia). unfold unstable_entry in Ht. rewrite (proj2 (Z.ltb_ge _ _)) in Ht by lia.
  replace (Z.to_nat _) with (pred (length (unstable_entries (raftLog_unstable l)))) in Ht by lia.
  rewrite El in Ht. injection Ht as <-. split; [|lia]. unfold pbEntryID. do 2 f_equal. lia.
Qed.

(** Persisting the unstable entries and acknowledging the last of them:
    the joined log is unchanged, the well-formedness invariant holds at every
    step, and nothing stays unstable. *)
Theorem persist_cycle (l : raftLog MemoryStorage) (id : entryID) :
  log_wf l → unstable_snapshot (raftLog_unstable l) = None →
  pbEntryID <$> last (unstable_entries (raftLog_unstable l)) = Some id →
  len (ms_ents (raftLog_storage l)) + len (unstable_entries (raftLog_unstable l)) < 9223372036854775808 →
  ∃ ms' l', ms_Append (unstable_entries (raftLog_unstable l)) (raftLog_storage l) = Ok ms' ∧
    raftLog_stableTo id (set_raftLog_storage ms' l) = Ok l' ∧
    log_wf (set_raftLog_storage ms' l) ∧ log_view (set_raftLog_storage ms' l) = log_view l ∧
    log_wf l' ∧ log_view l' = log_view l ∧
    unstable_entries (raftLog_unstable l') = [].
Proof. apply persist_ack_ok. Qed.

End raftLog_memory.

(** ** Concrete instances *)

#[local] Existing Instances sample_Protobuf sample_ProtobufLaws.

(** Storage holds 6 to 8 (compacted at 5), the entries 9 and 10 are unstable. *)
Definition ex_log : raftLog MemoryStorage :=
  mkraftLog ex_storage (mkunstable None [ex_entry 2 9; ex_entry 3 10] 9 false 9) 7 6 6 noLimit 0 false.

Lemma ex_log_wf : log_wf ex_log.
Proof.
  split; [apply ex_storage_ok| |vm_compute; intuition congruence..].
  split; try (vm_compute; intuition congruence). apply contiguous_check. vm_compute. reflexivity.
Qed.

Definition ex_slice : logSlice := mklogSlice 4 (mkentryID 2 8) [ex_entry 2 9; ex_entry 4 10; ex_entry 4 11].

Lemma maybeAppend_log_matching_witness :
  ∃ l', raftLog_maybeAppend ex_slice 10 ex_log = Ok (Some 11, l') ∧ raftLog_committed l' = 10 ∧
    slog_term (log_view l') 9 = Some 2 ∧ slog_term (log_view l') 10 = Some 4.
Proof.
  destruct (maybeAppend_log_matching ex_log ex_slice 10) as (_ & _ & Hm);
    [apply ex_log_wf|vm_compute; congruence|apply contiguous_check; vm_compute; reflexivity
    |vm_compute; reflexivity..|].
  destruct Hm as (l' & E & _ & Hc & Ha & _); [vm_compute; reflexivity| |].
  - intros k e He Hk. change (8 + 1 + Z.of_nat k <= 7) in Hk. lia.
  - exists l'. split; [exact E|]. split; [exact Hc|].
    split; [apply (Ha 0%nat _ eq_refl)|apply (Ha 1%nat _ eq_refl)].
Defined.

Lemma raftLog_slice_spec_witness :
  ∃ n, raftLog_slice ex_log 7 11 25 = Ok (Val (take n (slog_range (log_view ex_log) 7 11))) ∧ (1 <= n)%nat.
Proof.
  destruct (raftLog_slice_spec ex_log 7 11 25) as [_ Hs];
    [apply ex_log_wf|vm_compute; intuition congruence..|vm_compute; reflexivity|].
  destruct Hs as (n & E & Hn & _); [vm_compute; reflexivity|]. exists n. split; [exact E|exact Hn].
Defined.

Lemma findConflictByTerm_spec_witness :
  ∃ gi gt, raftLog_findConflictByTerm ex_log 10 2 = Ok (gi, gt) ∧ 0 <= gi <= 10.
Proof.
  destruct (findConflictByTerm_spec ex_log 10 2) as (gi & gt & E & H & _);
    [apply ex_log_wf|vm_compute; intuition congruence|]. exists gi, gt. split; [exact E|exact H].
Defined.

Lemma nextCommittedEnts_in_order_witness :
  ∃ ents, raftLog_nextCommittedEnts true ex_log = Ok ents ∧ contiguous 6 ents ∧ ents ≠ [].
Proof.
  destruct (nextCommittedEnts_in_order ex_log true) as (ents & E & Hc & [Hn _] & _);
    [apply ex_log_wf|vm_compute; intuition congruence..|].
  exists ents. split; [exact E|]. split; [exact (cb_next _ _ _ Hc)|]. apply Hn. vm_compute. reflexivity.
Defined.

Lemma scan_visits_range_witness :
  raftLog_scan ex_log 7 11 25 (fun ents a => (foldl (fun n _ => n + 1) a ents, None)) 0 = Ok (4, None).
Proof.
  rewrite (scan_visits_range ex_log (fun n _ => n + 1) 7 11 25 0);
    [vm_compute; reflexivity|apply ex_log_wf|vm_compute; intuition congruence..].
Defined.

Lemma persist_cycle_witness :
  ∃ ms' l', ms_Append [ex_entry 2 9; ex_entry 3 10] ex_storage = Ok ms' ∧
    raftLog_stableTo (mkentryID 3 10) (set_raftLog_storage ms' ex_log) = Ok l' ∧
    log_wf l' ∧ log_view l' = log_view ex_log ∧ unstable_entries (raftLog_unstable l') = [].
Proof.
  destruct (persist_cycle ex_log (mkentryID 3 10)) as (ms' & l' & E1 & E2 & _ & _ & Hwf & Hv & Hu);
    [apply ex_log_wf|vm_compute; reflexivity..|].
  exists ms', l'. split; [exact E1|]. split; [exact E2|]. split; [exact Hwf|]. split; [exact Hv|exact Hu].
Defined.
