(* ===== verification/ConfChange.v ===== *)
(** * Configuration changes (src/confchange)

    [Changer] computes the configuration and the progress map that follow from
    a change; [Restore] rebuilds both from a [ConfState].  Go maps that may be
    nil are [goset]s: writing to a nil map panics, deleting from one does
    nothing. *)
From S2P Require Import Prelude Proto Quorum Inflights Progress Tracker.

Abbreviation ProgressMap := (gmap Z Progress).

Record Changer : Type := mkChanger {
  Changer_Tracker : ProgressTracker;
  Changer_LastIndex : Z;
}.

(** ** Maps *)

(** [m[id] = struct{}{}] *)
Definition map_add (m : goset) (id : Z) : outcome goset :=
  match m with
  | None => Panic "assignment to entry in nil map"
  | Some s => Ok (Some ({[id]} ∪ s))
  end.

(** [delete(m, id)] *)
Definition map_delete (m : goset) (id : Z) : goset := (fun s => s ∖ {[id]}) <$> m.

Definition nilAwareAdd (m : goset) (id : Z) : goset :=
  let s := match m with None => ∅ | Some s => s end in
  Some ({[id]} ∪ s).

Definition nilAwareDelete (m : goset) (id : Z) : goset :=
  match m with
  | None => None
  | Some s =>
      let s := s ∖ {[id]} in
      if Nat.eqb (size s) 0 then None else Some s
  end.

(** The count of the symmetric difference. *)
Definition symdiff (l r : gset Z) : Z :=
  Z.of_nat (size (l ∖ r)) + Z.of_nat (size (r ∖ l)).

Definition incoming (cfg : Config) : goset := (Config_Voters cfg).1.

Definition outgoing (cfg : Config) : goset := (Config_Voters cfg).2.

Definition set_incoming (m : goset) (cfg : Config) : Config :=
  set_Config_Voters (m, outgoing cfg) cfg.

Definition set_outgoing (m : goset) (cfg : Config) : Config :=
  set_Config_Voters (incoming cfg, m) cfg.

Definition joint (cfg : Config) : bool := negb (Nat.eqb (size (gs (outgoing cfg))) 0).

(** ** Invariants that are checked at run time *)

Definition all_in (f : Z → bool) (s : gset Z) : bool := forallb f (elements s).

Definition has_progress (trk : ProgressMap) (id : Z) : bool :=
  match trk !! id with Some _ => true | None => false end.

Definition is_learner (trk : ProgressMap) (id : Z) : bool :=
  match trk !! id with Some pr => Progress_IsLearner pr | None => false end.

(** [None] is the nil error; which error is returned depends on the iteration
    order of Go's maps only through the identifier it prints. *)
Definition checkInvariants (cfg : Config) (trk : ProgressMap) : option error :=
  if negb (all_in (has_progress trk) (JointConfig_IDs (Config_joint cfg)))
     || negb (all_in (has_progress trk) (gs (Config_Learners cfg)))
     || negb (all_in (has_progress trk) (gs (Config_LearnersNext cfg)))
  then Some (ErrText "no progress")
  else if negb (all_in (fun id => bool_decide (id ∈ gs (outgoing cfg)) && negb (is_learner trk id))
                  (gs (Config_LearnersNext cfg)))
  then Some (ErrText "bad entry in LearnersNext")
  else if negb (all_in (fun id => bool_decide (id ∉ gs (outgoing cfg)) && bool_decide (id ∉ gs (incoming cfg))
                                  && is_learner trk id)
                  (gs (Config_Learners cfg)))
  then Some (ErrText "bad entry in Learners")
  else if negb (joint cfg) then
    if match outgoing cfg with Some _ => true | None => false end
    then Some (ErrText "cfg.Voters[1] must be nil when not joint")
    else if match Config_LearnersNext cfg with Some _ => true | None => false end
    then Some (ErrText "cfg.LearnersNext must be nil when not joint")
    else if Config_AutoLeave cfg
    then Some (ErrText "AutoLeave must be false when not joint")
    else None
  else None.

Definition checkAndReturn (cfg : Config) (trk : ProgressMap) : result (Config * ProgressMap) :=
  match checkInvariants cfg trk with
  | Some e => Err e
  | None => Val (cfg, trk)
  end.

(** The progress map is copied by value: only [IsLearner] is changed by the
    changer, and never on the tracker's own copy. *)
Definition Changer_checkAndCopy (c : Changer) : result (Config * ProgressMap) :=
  checkAndReturn (Config_Clone (ProgressTracker_Config (Changer_Tracker c)))
    (ProgressTracker_Progress (Changer_Tracker c)).

(** ** Single changes *)

Definition Changer_initProgress (c : Changer) (id : Z) (isLearner : bool)
    (st : Config * ProgressMap) : outcome (Config * ProgressMap) :=
  let '(cfg, trk) := st in
  cfg ← (if negb isLearner
         then m ← map_add (incoming cfg) id; Ok (set_incoming m cfg)
         else Ok (set_Config_Learners (nilAwareAdd (Config_Learners cfg) id) cfg));
  Ok (cfg, <[id := mkProgress 0 (Z.max (Changer_LastIndex c) 1) 0 StateProbe 0 true false
                     (NewInflights (ProgressTracker_MaxInflight (Changer_Tracker c))
                        (ProgressTracker_MaxInflightBytes (Changer_Tracker c))) isLearner]> trk).

Definition Changer_makeVoter (c : Changer) (id : Z) (st : Config * ProgressMap) :
    outcome (Config * ProgressMap) :=
  let '(cfg, trk) := st in
  match trk !! id with
  | None => Changer_initProgress c id false (cfg, trk)
  | Some pr =>
      let trk := <[id := set_Progress_IsLearner false pr]> trk in
      let cfg := set_Config_Learners (nilAwareDelete (Config_Learners cfg) id) cfg in
      let cfg := set_Config_LearnersNext (nilAwareDelete (Config_LearnersNext cfg) id) cfg in
      m ← map_add (incoming cfg) id;
      Ok (set_incoming m cfg, trk)
  end.

Definition Changer_remove (c : Changer) (id : Z) (st : Config * ProgressMap) : Config * ProgressMap :=
  let '(cfg, trk) := st in
  match trk !! id with
  | None => (cfg, trk)
  | Some _ =>
      let cfg := set_incoming (map_delete (incoming cfg) id) cfg in
      let cfg := set_Config_Learners (nilAwareDelete (Config_Learners cfg) id) cfg in
      let cfg := set_Config_LearnersNext (nilAwareDelete (Config_LearnersNext cfg) id) cfg in
      if negb (bool_decide (id ∈ gs (outgoing cfg))) then (cfg, delete id trk) else (cfg, trk)
  end.

Definition Changer_makeLearner (c : Changer) (id : Z) (st : Config * ProgressMap) :
    outcome (Config * ProgressMap) :=
  let '(cfg, trk) := st in
  match trk !! id with
  | None => Changer_initProgress c id true (cfg, trk)
  | Some pr =>
      if Progress_IsLearner pr then Ok (cfg, trk)
      else
        let '(cfg, trk) := Changer_remove c id (cfg, trk) in
        if bool_decide (id ∈ gs (outgoing cfg)) then
          Ok (set_Config_LearnersNext (nilAwareAdd (Config_LearnersNext cfg) id) cfg, <[id := pr]> trk)
        else
          Ok (set_Config_Learners (nilAwareAdd (Config_Learners cfg) id) cfg,
              <[id := set_Progress_IsLearner true pr]> trk)
  end.

(** The loop of [apply]. *)
Fixpoint apply_loop (c : Changer) (ccs : list ConfChangeSingle) (st : Config * ProgressMap) :
    outcome (result (Config * ProgressMap)) :=
  match ccs with
  | [] => Ok (Val st)
  | cc :: ccs =>
      let id := ConfChangeSingle_GetNodeId cc in
      if id =? 0 then apply_loop c ccs st
      else
        match ConfChangeSingle_GetType cc with
        | ConfChangeAddNode => st ← Changer_makeVoter c id st; apply_loop c ccs st
        | ConfChangeAddLearnerNode => st ← Changer_makeLearner c id st; apply_loop c ccs st
        | ConfChangeRemoveNode => apply_loop c ccs (Changer_remove c id st)
        | ConfChangeUpdateNode => apply_loop c ccs st
        | ConfChangeTypeUnknown _ => Ok (Err (ErrText "unexpected conf type"))
        end
  end.

Definition Changer_apply (c : Changer) (ccs : list ConfChangeSingle) (st : Config * ProgressMap) :
    outcome (result (Config * ProgressMap)) :=
  r ← apply_loop c ccs st;
  match r with
  | Err e => Ok (Err e)
  | Val (cfg, trk) =>
      if Nat.eqb (size (gs (incoming cfg))) 0 then Ok (Err (ErrText "removed all voters"))
      else Ok (Val (cfg, trk))
  end.

(** ** Transitions *)

Definition Changer_Simple (c : Changer) (ccs : list ConfChangeSingle) :
    outcome (result (Config * ProgressMap)) :=
  match Changer_checkAndCopy c with
  | Err e => Ok (Err e)
  | Val (cfg, trk) =>
      if joint cfg then Ok (Err (ErrText "can't apply simple config change in joint config"))
      else
        r ← Changer_apply c ccs (cfg, trk);
        match r with
        | Err e => Ok (Err e)
        | Val (cfg, trk) =>
            if 1 <? symdiff (gs (incoming (ProgressTracker_Config (Changer_Tracker c)))) (gs (incoming cfg))
            then Ok (Err (ErrText "more than one voter changed without entering joint config"))
            else Ok (checkAndReturn cfg trk)
        end
  end.

Definition Changer_EnterJoint (c : Changer) (autoLeave : bool) (ccs : list ConfChangeSingle) :
    outcome (result (Config * ProgressMap)) :=
  match Changer_checkAndCopy c with
  | Err e => Ok (Err e)
  | Val (cfg, trk) =>
      if joint cfg then Ok (Err (ErrText "config is already joint"))
      else if Nat.eqb (size (gs (incoming cfg))) 0
      then Ok (Err (ErrText "can't make a zero-voter config joint"))
      else
        let cfg := set_outgoing (Some (gs (incoming cfg))) cfg in
        r ← Changer_apply c ccs (cfg, trk);
        match r with
        | Err e => Ok (Err e)
        | Val (cfg, trk) => Ok (checkAndReturn (set_Config_AutoLeave autoLeave cfg) trk)
        end
  end.

(** [for id := range cfg.LearnersNext] of [LeaveJoint]. *)
Fixpoint leave_learners (ids : list Z) (st : Config * ProgressMap) : outcome (Config * ProgressMap) :=
  match ids with
  | [] => Ok st
  | id :: ids =>
      let '(cfg, trk) := st in
      let cfg := set_Config_Learners (nilAwareAdd (Config_Learners cfg) id) cfg in
      match trk !! id with
      | None => Panic "nil pointer dereference"
      | Some pr => leave_learners ids (cfg, <[id := set_Progress_IsLearner true pr]> trk)
      end
  end.

(** [for id := range outgoing(cfg.Voters)] of [LeaveJoint]. *)
Definition leave_outgoing (cfg : Config) (trk : ProgressMap) : ProgressMap :=
  foldl (fun trk id =>
           let isVoter := bool_decide (id ∈ gs (incoming cfg)) in
           let isLearner := bool_decide (id ∈ gs (Config_Learners cfg)) in
           if negb isVoter && negb isLearner then delete id trk else trk)
    trk (elements (gs (outgoing cfg))).

Definition Changer_LeaveJoint (c : Changer) : outcome (result (Config * ProgressMap)) :=
  match Changer_checkAndCopy c with
  | Err e => Ok (Err e)
  | Val (cfg, trk) =>
      if negb (joint cfg) then Ok (Err (ErrText "can't leave a non-joint config"))
      else
        st ← leave_learners (elements (gs (Config_LearnersNext cfg))) (cfg, trk);
        let '(cfg, trk) := st in
        let cfg := set_Config_LearnersNext None cfg in
        let trk := leave_outgoing cfg trk in
        let cfg := set_outgoing None cfg in
        let cfg := set_Config_AutoLeave false cfg in
        Ok (checkAndReturn cfg trk)
  end.

(** ** Restoring *)

Definition single (t : ConfChangeType) (id : Z) : ConfChangeSingle :=
  mkConfChangeSingle (Some t) (Some id).

(** (out, in) *)
Definition toConfChangeSingle (cs : ConfState) : list ConfChangeSingle * list ConfChangeSingle :=
  (single ConfChangeAddNode <$> ConfState_VotersOutgoing cs,
   (single ConfChangeRemoveNode <$> ConfState_VotersOutgoing cs)
   ++ (single ConfChangeAddNode <$> ConfState_Voters cs)
   ++ (single ConfChangeAddLearnerNode <$> ConfState_Learners cs)
   ++ (single ConfChangeAddLearnerNode <$> ConfState_LearnersNext cs)).

Fixpoint chain (chg : Changer)
    (ops : list (Changer → outcome (result (Config * ProgressMap)))) :
    outcome (result (Config * ProgressMap)) :=
  match ops with
  | [] => Ok (Val (ProgressTracker_Config (Changer_Tracker chg), ProgressTracker_Progress (Changer_Tracker chg)))
  | op :: ops =>
      r ← op chg;
      match r with
      | Err e => Ok (Err e)
      | Val (cfg, trk) =>
          chain (mkChanger (set_ProgressTracker_Progress trk
                              (set_ProgressTracker_Config cfg (Changer_Tracker chg)))
                   (Changer_LastIndex chg)) ops
      end
  end.

Definition Restore (chg : Changer) (cs : ConfState) : outcome (result (Config * ProgressMap)) :=
  let '(out, inc) := toConfChangeSingle cs in
  let simple (cc : ConfChangeSingle) := fun chg => Changer_Simple chg [cc] in
  let ops :=
    if len out =? 0 then simple <$> inc
    else (simple <$> out) ++ [fun chg => Changer_EnterJoint chg (ConfState_GetAutoLeave cs) inc] in
  chain chg ops.

(** [ConfState.Equivalent] on non-nil inputs: nil error is [true]. *)
Definition ConfState_Equivalent (cs1 cs2 : ConfState) : bool :=
  let norm (c : ConfState) :=
    mkConfState (sort64 (ConfState_Voters c)) (sort64 (ConfState_Learners c))
      (sort64 (ConfState_VotersOutgoing c)) (sort64 (ConfState_LearnersNext c))
      (Some (ConfState_GetAutoLeave c)) in
  bool_decide (norm cs1 = norm cs2).

(** ** Abstract configurations

    What the changes mean on four plain sets. *)

Record aconf : Type := mkaconf {
  ac_in : gset Z;
  ac_out : gset Z;
  ac_learn : gset Z;
  ac_next : gset Z;
}.

Definition abs (cfg : Config) : aconf :=
  mkaconf (gs (incoming cfg)) (gs (outgoing cfg)) (gs (Config_Learners cfg)) (gs (Config_LearnersNext cfg)).

Definition a_voter (id : Z) (a : aconf) : aconf :=
  mkaconf ({[id]} ∪ ac_in a) (ac_out a) (ac_learn a ∖ {[id]}) (ac_next a ∖ {[id]}).

Definition a_remove (id : Z) (a : aconf) : aconf :=
  mkaconf (ac_in a ∖ {[id]}) (ac_out a) (ac_learn a ∖ {[id]}) (ac_next a ∖ {[id]}).

(** A member that is still an outgoing voter is only staged as a learner. *)
Definition a_learner (id : Z) (a : aconf) : aconf :=
  if decide (id ∈ ac_out a)
  then mkaconf (ac_in a ∖ {[id]}) (ac_out a) (ac_learn a) ({[id]} ∪ ac_next a)
  else mkaconf (ac_in a ∖ {[id]}) (ac_out a) ({[id]} ∪ ac_learn a) (ac_next a).

Definition a_change (a : aconf) (cc : ConfChangeSingle) : aconf :=
  let id := ConfChangeSingle_GetNodeId cc in
  if id =? 0 then a
  else match ConfChangeSingle_GetType cc with
       | ConfChangeAddNode => a_voter id a
       | ConfChangeAddLearnerNode => a_learner id a
       | ConfChangeRemoveNode => a_remove id a
       | _ => a
       end.

(** The consistency of a configuration and its progress map, of which
    [checkInvariants] tests a part. *)
Record conf_wf (cfg : Config) (trk : ProgressMap) : Prop := mkconf_wf {
  cw_in : incoming cfg ≠ None;
  cw_dom : ∀ id, id ∈ dom trk ↔
    id ∈ gs (incoming cfg) ∨ id ∈ gs (outgoing cfg) ∨ id ∈ gs (Config_Learners cfg);
  cw_learner : ∀ id, is_learner trk id = true ↔ id ∈ gs (Config_Learners cfg);
  cw_disjoint : ∀ id, id ∈ gs (Config_Learners cfg) →
    (id ∉ gs (incoming cfg)) ∧ (id ∉ gs (outgoing cfg));
  cw_next : ∀ id, id ∈ gs (Config_LearnersNext cfg) →
    id ∈ gs (outgoing cfg) ∧ id ∉ gs (incoming cfg);
  cw_nil : outgoing cfg ≠ Some ∅ ∧ Config_Learners cfg ≠ Some ∅ ∧ Config_LearnersNext cfg ≠ Some ∅;
}.

Lemma gs_nilAwareAdd m id : gs (nilAwareAdd m id) = {[id]} ∪ gs m.
Proof. by destruct m. Qed.

Lemma gs_nilAwareDelete m id : gs (nilAwareDelete m id) = gs m ∖ {[id]}.
Proof.
  destruct m as [s|]; cbn; [|set_solver]. destruct (Nat.eqb_spec (size (s ∖ {[id]})) 0) as [E|E]; [|done].
  apply size_empty_inv in E. cbn. set_solver.
Qed.

Lemma gs_map_delete m id : gs (map_delete m id) = gs m ∖ {[id]}.
Proof. destruct m; cbn; set_solver. Qed.

Lemma nilAwareAdd_not_empty m id : nilAwareAdd m id ≠ Some ∅.
Proof. unfold nilAwareAdd. intros [= E]. set_solver. Qed.

Lemma nilAwareDelete_not_empty m id : m ≠ Some ∅ → nilAwareDelete m id ≠ Some ∅.
Proof.
  intros Hm. destruct m as [s|]; cbn; [|done].
  destruct (Nat.eqb_spec (size (s ∖ {[id]})) 0) as [E|E]; [done|]. intros [= E']. rewrite E', size_empty in E. done.
Qed.

#[export] Hint Resolve nilAwareAdd_not_empty nilAwareDelete_not_empty : raft.
Create Rewrite HintDb confchange.
#[export] Hint Rewrite gs_nilAwareAdd gs_nilAwareDelete gs_map_delete : confchange.

Lemma is_learner_insert trk id pr i :
  is_learner (<[id := pr]> trk) i = if decide (i = id) then Progress_IsLearner pr else is_learner trk i.
Proof.
  unfold is_learner. case_decide; [subst; by rewrite lookup_insert_eq|by rewrite lookup_insert_ne].
Qed.

Lemma is_learner_delete trk id i :
  is_learner (delete id trk) i = if decide (i = id) then false else is_learner trk i.
Proof.
  unfold is_learner. case_decide; [subst; by rewrite lookup_delete_eq|by rewrite lookup_delete_ne].
Qed.

Lemma has_progress_dom trk id : has_progress trk id = true ↔ id ∈ dom trk.
Proof. unfold has_progress. rewrite elem_of_dom. destruct (trk !! id); split; done. Qed.

Lemma all_in_true f (s : gset Z) : all_in f s = true ↔ ∀ id, id ∈ s → f id = true.
Proof.
  unfold all_in. rewrite forallb_forall. split; intros Hf id Hid; apply Hf.
  - apply list_elem_of_In. by apply elem_of_elements.
  - apply list_elem_of_In in Hid. by apply elem_of_elements.
Qed.

Lemma size_zero (s : gset Z) : Nat.eqb (size s) 0 = bool_decide (s = ∅).
Proof.
  destruct (Nat.eqb_spec (size s) 0) as [E|E].
  - apply size_empty_inv in E. rewrite bool_decide_true; [done|]. set_solver.
  - rewrite bool_decide_false; [done|]. intros ->. by rewrite size_empty in E.
Qed.

Lemma joint_spec cfg trk : conf_wf cfg trk → joint cfg = false ↔ outgoing cfg = None.
Proof.
  intros [_ _ _ _ _ (Ho & _)]. unfold joint. rewrite size_zero, negb_false_iff, bool_decide_eq_true.
  destruct (outgoing cfg) as [s|]; cbn; [|done]. split; [|done]. intros ->. done.
Qed.

Lemma conf_wf_next_nil cfg trk : conf_wf cfg trk → outgoing cfg = None → Config_LearnersNext cfg = None.
Proof.
  intros [_ _ _ _ Hn (_ & _ & He)] Ho. rewrite Ho in Hn. destruct (Config_LearnersNext cfg) as [s|]; [|done].
  destruct He. f_equal. apply set_eq. intros x. split; [|set_solver]. intros Hx. destruct (Hn x Hx) as [? _]. set_solver.
Qed.

(** The run-time check passes on well-formed configurations. *)
Lemma checkInvariants_ok cfg trk :
  conf_wf cfg trk → (outgoing cfg = None → Config_AutoLeave cfg = false) → checkInvariants cfg trk = None.
Proof.
  intros Hwf Hal. pose proof Hwf as [Hin Hdom Hl Hd Hn Hnil]. unfold checkInvariants.
  assert (all_in (has_progress trk) (JointConfig_IDs (Config_joint cfg)) = true) as ->.
  { apply all_in_true. intros id Hid. apply has_progress_dom, Hdom. unfold JointConfig_IDs in Hid. set_solver. }
  assert (all_in (has_progress trk) (gs (Config_Learners cfg)) = true) as ->.
  { apply all_in_true. intros id Hid. apply has_progress_dom, Hdom. auto. }
  assert (all_in (has_progress trk) (gs (Config_LearnersNext cfg)) = true) as ->.
  { apply all_in_true. intros id Hid. apply has_progress_dom, Hdom. naive_solver. }
  assert (all_in (fun id => bool_decide (id ∈ gs (outgoing cfg)) && negb (is_learner trk id))
            (gs (Config_LearnersNext cfg)) = true) as ->.
  { apply all_in_true. intros id Hid. destruct (Hn id Hid) as [Ho Hi]. rewrite bool_decide_true by done. cbn.
    apply negb_true_iff, not_true_iff_false. rewrite Hl. intros HL. by destruct (Hd id HL). }
  match goal with |- context [all_in ?f ?s] => assert (all_in f s = true) as -> end.
  { apply all_in_true. intros id Hid. destruct (Hd id Hid) as [Hi Ho].
    rewrite !bool_decide_true by done. cbn. by apply Hl. }
  cbn. destruct (joint cfg) eqn:Ej; [done|]. cbn. apply (joint_spec _ _ Hwf) in Ej. rewrite Ej.
  by rewrite (conf_wf_next_nil _ _ Hwf Ej), (Hal Ej).
Qed.

#[local] Arguments gs : simpl never.
#[local] Arguments nilAwareAdd : simpl never.
#[local] Arguments nilAwareDelete : simpl never.
#[local] Arguments map_delete : simpl never.

(** ** Single changes keep the configuration consistent *)

(** The result of one change: consistent, with the four sets as stated, and
    neither the outgoing half nor [AutoLeave] touched. *)
Definition conf_step (cfg : Config) (r : Config * ProgressMap) (a : aconf) : Prop :=
  conf_wf r.1 r.2 ∧ abs r.1 = a ∧ Config_AutoLeave r.1 = Config_AutoLeave cfg ∧
  outgoing r.1 = outgoing cfg.

Lemma not_in_dom cfg trk id :
  conf_wf cfg trk → trk !! id = None →
  (id ∉ gs (incoming cfg)) ∧ (id ∉ gs (outgoing cfg)) ∧ (id ∉ gs (Config_Learners cfg)) ∧
  (id ∉ gs (Config_LearnersNext cfg)).
Proof.
  intros [_ Hdom _ _ Hn _] Hi. apply not_elem_of_dom in Hi. specialize (Hdom id). specialize (Hn id).
  split_and!; try done; tauto.
Qed.

Lemma in_dom (trk : ProgressMap) id pr : trk !! id = Some pr → id ∈ dom trk.
Proof. intros. apply elem_of_dom. eauto. Qed.

(** A goal about one member [i], from the old facts about it. *)
Ltac member_solve Hwf id i :=
  let Hd1 := fresh in let Hd2 := fresh in let Hd3 := fresh in let Hd4 := fresh in
  pose proof (cw_dom _ _ Hwf i) as Hd1; pose proof (cw_learner _ _ Hwf i) as Hd2;
  pose proof (cw_disjoint _ _ Hwf i) as Hd3; pose proof (cw_next _ _ Hwf i) as Hd4;
  unfold set_incoming, incoming, outgoing in *; cbn in *;
  rewrite ?is_learner_insert, ?is_learner_delete, ?dom_insert_L, ?dom_delete_L;
  rewrite ?gs_nilAwareAdd, ?gs_nilAwareDelete, ?gs_map_delete;
  rewrite ?elem_of_union, ?elem_of_difference, ?elem_of_singleton;
  destruct (decide (i = id)) as [->|]; cbn; intuition congruence.

Lemma makeVoter_ok c id cfg trk :
  conf_wf cfg trk →
  ∃ r, Changer_makeVoter c id (cfg, trk) = Ok r ∧ conf_step cfg r (a_voter id (abs cfg)).
Proof.
  intros Hwf. destruct (cw_nil _ _ Hwf) as (Hn1 & Hn2 & Hn3). pose proof (cw_in _ _ Hwf) as Hin.
  assert (∃ m, map_add (incoming cfg) id = Ok m ∧ m ≠ None ∧ gs m = {[id]} ∪ gs (incoming cfg))
    as (m & Em & Hm & Hgm) by (destruct (incoming cfg); [eexists; by cbn|done]).
  unfold Changer_makeVoter. destruct (trk !! id) as [pr|] eqn:Et.
  - apply in_dom in Et.
    change (incoming (set_Config_LearnersNext _ _)) with (incoming cfg). rewrite Em. cbn [mbind outcome_bind].
    eexists. split; [done|]. unfold conf_step; cbn. split_and!; try done.
    + split; cbn; try done; auto with raft; intros i; cbn; rewrite ?Hgm; member_solve Hwf id i.
    + unfold abs, a_voter; cbn. by rewrite !gs_nilAwareDelete, Hgm.
  - destruct (not_in_dom _ _ _ Hwf Et) as (H1 & H2 & H3 & H4). unfold Changer_initProgress.
    cbn [negb]. rewrite Em. cbn [mbind outcome_bind].
    eexists. split; [done|]. unfold conf_step; cbn. split_and!; try done.
    + split; cbn; try done; intros i; cbn; rewrite ?Hgm; member_solve Hwf id i.
    + unfold abs, a_voter; cbn. rewrite Hgm. f_equal; set_solver +H1 H2 H3 H4.
Qed.

Lemma remove_ok c id cfg trk :
  conf_wf cfg trk → conf_step cfg (Changer_remove c id (cfg, trk)) (a_remove id (abs cfg)).
Proof.
  intros Hwf. destruct (cw_nil _ _ Hwf) as (Hn1 & Hn2 & Hn3). pose proof (cw_in _ _ Hwf) as Hin.
  unfold Changer_remove. destruct (trk !! id) as [pr|] eqn:Et.
  - apply in_dom in Et. assert (map_delete (incoming cfg) id ≠ None) by (by destruct (incoming cfg)).
    cbn [outgoing set_Config_LearnersNext set_Config_Learners set_incoming Config_Voters set_Config_Voters
      snd Config_Learners Config_LearnersNext].
    case_bool_decide as Ho; change (outgoing _) with (outgoing cfg) in Ho; cbn [negb];
      unfold conf_step; cbn; (split_and!; [|by unfold abs, a_remove; cbn; rewrite !gs_nilAwareDelete, gs_map_delete|done..]);
      split; cbn; try done; auto with raft; intros i; member_solve Hwf id i.
  - destruct (not_in_dom _ _ _ Hwf Et) as (H1 & H2 & H3 & H4).
    unfold conf_step; cbn. split_and!; try done. unfold abs, a_remove; cbn. f_equal; set_solver +H1 H2 H3 H4.
Qed.

Lemma set_readd (X : gset Z) id : {[id]} ∪ X ∖ {[id]} = {[id]} ∪ X.
Proof.
  apply set_eq. intros x. rewrite !elem_of_union, elem_of_difference, elem_of_singleton.
  destruct (decide (x = id)); tauto.
Qed.

Lemma set_minus_absent (X : gset Z) id : id ∉ X → X ∖ {[id]} = X.
Proof. set_solver. Qed.

Lemma makeLearner_ok c id cfg trk :
  conf_wf cfg trk →
  ∃ r, Changer_makeLearner c id (cfg, trk) = Ok r ∧ conf_step cfg r (a_learner id (abs cfg)).
Proof.
  intros Hwf. destruct (cw_nil _ _ Hwf) as (Hn1 & Hn2 & Hn3). pose proof (cw_in _ _ Hwf) as Hin.
  pose proof (cw_next _ _ Hwf id) as HN. pose proof (cw_disjoint _ _ Hwf id) as HL.
  unfold Changer_makeLearner, a_learner. destruct (trk !! id) as [pr|] eqn:Et.
  - destruct (Progress_IsLearner pr) eqn:El.
    { assert (id ∈ gs (Config_Learners cfg)) as Hl
        by (apply (cw_learner _ _ Hwf); unfold is_learner; by rewrite Et).
      destruct (HL Hl) as [H1 H2]. eexists. split; [done|]. rewrite decide_False by done.
      unfold conf_step; cbn. split_and!; try done. unfold abs; cbn. f_equal; set_solver +H1 H2 Hl. }
    assert (id ∉ gs (Config_Learners cfg)) as Hl.
    { rewrite <- (cw_learner _ _ Hwf). unfold is_learner. by rewrite Et, El. }
    destruct (remove_ok c id cfg trk Hwf) as (Hwf1 & Habs & Hal & Hout).
    destruct (Changer_remove c id (cfg, trk)) as [cfg1 trk1]. cbn [fst snd] in *.
    destruct (cw_nil _ _ Hwf1) as (Hm1 & Hm2 & Hm3). pose proof (cw_in _ _ Hwf1) as Hin1.
    injection Habs as H1 H2 H3 H4.
    assert (id ∉ gs (incoming cfg1)) by (rewrite H1; cbn; set_solver).
    assert (id ∉ gs (Config_Learners cfg1)) by (rewrite H3; set_solver +).
    assert (id ∉ gs (Config_LearnersNext cfg1)) by (rewrite H4; set_solver +).
    change (ac_out (abs cfg)) with (gs (outgoing cfg)). rewrite <- H2.
    case_bool_decide as Ho.
    + rewrite decide_True by done. eexists. split; [done|]. unfold conf_step; cbn. split_and!; try done.
      * split; cbn; try done; auto with raft; intros i; member_solve Hwf1 id i.
      * unfold abs; cbn. rewrite gs_nilAwareAdd.
        change (gs (outgoing (set_Config_LearnersNext _ _))) with (gs (outgoing cfg1)).
        change (gs (incoming (set_Config_LearnersNext _ _))) with (gs (incoming cfg1)).
        rewrite H1, H3, H4; cbn. by rewrite set_readd, (set_minus_absent (gs (Config_Learners cfg))).
    + rewrite decide_False by done. eexists. split; [done|]. unfold conf_step; cbn. split_and!; try done.
      * split; cbn; try done; auto with raft; intros i; member_solve Hwf1 id i.
      * unfold abs; cbn. rewrite gs_nilAwareAdd.
        change (gs (outgoing (set_Config_Learners _ _))) with (gs (outgoing cfg1)).
        change (gs (incoming (set_Config_Learners _ _))) with (gs (incoming cfg1)).
        rewrite H1, H3, H4; cbn. rewrite H2 in Ho; cbn in Ho.
        rewrite set_readd, (set_minus_absent (gs (Config_LearnersNext cfg))); [done|tauto].
  - destruct (not_in_dom _ _ _ Hwf Et) as (H1 & H2 & H3 & H4). unfold Changer_initProgress.
    rewrite decide_False by done. eexists. split; [done|]. unfold conf_step; cbn. split_and!; try done.
    + split; cbn; try done; auto with raft; intros i; member_solve Hwf id i.
    + unfold abs; cbn. rewrite gs_nilAwareAdd. f_equal. set_solver +H1.
Qed.

(** ** Applying several changes *)

Definition known_type (cc : ConfChangeSingle) : bool :=
  (ConfChangeSingle_GetNodeId cc =? 0) ||
  match ConfChangeSingle_GetType cc with ConfChangeTypeUnknown _ => false | _ => true end.

Lemma apply_loop_ok c ccs cfg trk :
  conf_wf cfg trk → forallb known_type ccs = true →
  ∃ r, apply_loop c ccs (cfg, trk) = Ok (Val r) ∧ conf_step cfg r (foldl a_change (abs cfg) ccs).
Proof.
  revert cfg trk. induction ccs as [|cc ccs IH]; intros cfg trk Hwf Hk.
  { eexists. split; [done|]. done. }
  cbn in Hk. apply andb_true_iff in Hk as [Hk Hks]. cbn [apply_loop foldl].
  assert (∀ r a, conf_step cfg r a →
    ∃ r', apply_loop c ccs r = Ok (Val r') ∧ conf_step cfg r' (foldl a_change a ccs)) as Hnext.
  { intros [cfg1 trk1] a (Hwf1 & <- & Hal & Hout). cbn in *.
    destruct (IH cfg1 trk1 Hwf1 Hks) as (r' & -> & (? & ? & ? & ?)). eexists. split; [done|].
    unfold conf_step. split_and!; try done; congruence. }
  unfold a_change at 2. unfold known_type in Hk.
  destruct (Z.eqb_spec (ConfChangeSingle_GetNodeId cc) 0) as [E|E]; [by apply Hnext|].
  destruct (ConfChangeSingle_GetType cc); try done.
  - destruct (makeVoter_ok c (ConfChangeSingle_GetNodeId cc) cfg trk Hwf) as (r & -> & Hr).
    cbn [mbind outcome_bind]. by apply Hnext.
  - apply Hnext. by apply remove_ok.
  - by apply Hnext.
  - destruct (makeLearner_ok c (ConfChangeSingle_GetNodeId cc) cfg trk Hwf) as (r & -> & Hr).
    cbn [mbind outcome_bind]. by apply Hnext.
Qed.

Lemma apply_loop_unknown c ccs cfg trk :
  conf_wf cfg trk → forallb known_type ccs = false →
  ∃ e, apply_loop c ccs (cfg, trk) = Ok (Err e).
Proof.
  revert cfg trk. induction ccs as [|cc ccs IH]; intros cfg trk Hwf Hk; [done|].
  cbn in Hk. unfold known_type in Hk at 1. cbn [apply_loop].
  destruct (Z.eqb_spec (ConfChangeSingle_GetNodeId cc) 0) as [E|E]; [by apply IH|].
  destruct (ConfChangeSingle_GetType cc); cbn in Hk; try by eauto.
  - destruct (makeVoter_ok c (ConfChangeSingle_GetNodeId cc) cfg trk Hwf) as ([cfg1 trk1] & -> & (Hwf1 & _)).
    by apply IH.
  - destruct (remove_ok c (ConfChangeSingle_GetNodeId cc) cfg trk Hwf) as (Hwf1 & _).
    destruct (Changer_remove _ _ _). by apply IH.
  - destruct (makeLearner_ok c (ConfChangeSingle_GetNodeId cc) cfg trk Hwf) as ([cfg1 trk1] & -> & (Hwf1 & _)).
    by apply IH.
Qed.

(** ** Transitions *)

(** What a tracker holds between changes. *)
Definition tracker_wf (p : ProgressTracker) : Prop :=
  conf_wf (ProgressTracker_Config p) (ProgressTracker_Progress p) ∧
  (outgoing (ProgressTracker_Config p) = None → Config_AutoLeave (ProgressTracker_Config p) = false).

Abbreviation cc_config c := (ProgressTracker_Config (Changer_Tracker c)).
Abbreviation cc_progress c := (ProgressTracker_Progress (Changer_Tracker c)).

Lemma Clone_eq cfg : Config_Clone cfg = set_Config_AutoLeave false cfg.
Proof. destruct cfg as [[? ?] ? ? ?]. done. Qed.

Lemma Clone_wf cfg trk : conf_wf cfg trk → conf_wf (Config_Clone cfg) trk.
Proof. rewrite Clone_eq. intros []. by split. Qed.

Lemma checkAndCopy_ok c :
  tracker_wf (Changer_Tracker c) →
  Changer_checkAndCopy c = Val (set_Config_AutoLeave false (cc_config c), cc_progress c).
Proof.
  intros [Hwf _]. unfold Changer_checkAndCopy, checkAndReturn. rewrite <- Clone_eq.
  by rewrite checkInvariants_ok by (try apply Clone_wf; done).
Qed.

(** The tracker after a transition. *)
Definition cc_update (c : Changer) (cfg : Config) (trk : ProgressMap) : ProgressTracker :=
  set_ProgressTracker_Progress trk (set_ProgressTracker_Config cfg (Changer_Tracker c)).

Lemma size_nonempty (s : gset Z) : Nat.eqb (size s) 0 = false ↔ s ≠ ∅.
Proof. rewrite size_zero, bool_decide_eq_false. done. Qed.

Lemma apply_ok c ccs cfg trk :
  conf_wf cfg trk →
  ∃ r, Changer_apply c ccs (cfg, trk) = Ok r ∧
    match r with
    | Val r => conf_step cfg r (foldl a_change (abs cfg) ccs) ∧
               forallb known_type ccs = true ∧ ac_in (foldl a_change (abs cfg) ccs) ≠ ∅
    | Err _ => forallb known_type ccs = false ∨ ac_in (foldl a_change (abs cfg) ccs) = ∅
    end.
Proof.
  intros Hwf. unfold Changer_apply. destruct (forallb known_type ccs) eqn:Ek.
  - destruct (apply_loop_ok c ccs cfg trk Hwf Ek) as ([cfg1 trk1] & -> & Hs). cbn [mbind outcome_bind].
    pose proof Hs as (_ & Ha & _). cbn in Ha.
    change (gs (incoming cfg1)) with (ac_in (abs cfg1)).
    destruct (Nat.eqb (size (ac_in (abs cfg1))) 0) eqn:E.
    + rewrite size_zero, bool_decide_eq_true, Ha in E. eexists. split; [done|]. by right.
    + apply size_nonempty in E. eexists. split; [done|]. by rewrite Ha in E.
  - destruct (apply_loop_unknown c ccs cfg trk Hwf Ek) as (e & ->). eexists. split; [done|]. by left.
Qed.

Lemma checkAndReturn_ok cfg trk :
  conf_wf cfg trk → (outgoing cfg = None → Config_AutoLeave cfg = false) →
  checkAndReturn cfg trk = Val (cfg, trk).
Proof. intros. unfold checkAndReturn. by rewrite checkInvariants_ok. Qed.

Lemma set_AutoLeave_wf b cfg trk : conf_wf cfg trk → conf_wf (set_Config_AutoLeave b cfg) trk.
Proof. intros []. by split. Qed.

(** The conditions under which [Simple] accepts the changes. *)
Definition simple_accepts (c : Changer) (ccs : list ConfChangeSingle) : Prop :=
  let a := abs (cc_config c) in
  let a' := foldl a_change a ccs in
  outgoing (cc_config c) = None ∧ forallb known_type ccs = true ∧ ac_in a' ≠ ∅ ∧
  symdiff (ac_in a) (ac_in a') <= 1.

Lemma Simple_ok c ccs :
  tracker_wf (Changer_Tracker c) →
  ∃ r, Changer_Simple c ccs = Ok r ∧
    match r with
    | Val (cfg, trk) => simple_accepts c ccs ∧ conf_wf cfg trk ∧ Config_AutoLeave cfg = false ∧
        outgoing cfg = None ∧ abs cfg = foldl a_change (abs (cc_config c)) ccs
    | Err _ => ¬ simple_accepts c ccs
    end.
Proof.
  intros Htw. pose proof Htw as [Hwf Hal]. unfold Changer_Simple. rewrite checkAndCopy_ok by done.
  pose proof (joint_spec _ _ (set_AutoLeave_wf false _ _ Hwf)) as Hj.
  change (outgoing (set_Config_AutoLeave false (cc_config c))) with (outgoing (cc_config c)) in Hj.
  destruct (joint _) eqn:Ej.
  { eexists. split; [done|]. intros (Ho & _). apply Hj in Ho. done. }
  assert (outgoing (cc_config c) = None) as Ho by tauto.
  destruct (apply_ok c ccs _ _ (set_AutoLeave_wf false _ _ Hwf)) as (r & -> & Hr). cbn [mbind outcome_bind].
  change (abs (set_Config_AutoLeave false (cc_config c))) with (abs (cc_config c)) in Hr.
  destruct r as [[cfg1 trk1]|e].
  - destruct Hr as ((Hwf1 & Ha & Hal1 & Hout1) & Hk & Hne). cbn [fst snd] in *.
    change (outgoing (set_Config_AutoLeave false (cc_config c))) with (outgoing (cc_config c)) in Hout1.
    rewrite Ho in Hout1.
    change (gs (incoming cfg1)) with (ac_in (abs cfg1)). rewrite Ha.
    change (gs (incoming (cc_config c))) with (ac_in (abs (cc_config c))).
    destruct (Z.ltb_spec 1 (symdiff (ac_in (abs (cc_config c)))
      (ac_in (foldl a_change (abs (cc_config c)) ccs)))) as [Hlt|Hge].
    + eexists. split; [done|]. intros (_ & _ & _ & ?). lia.
    + rewrite checkAndReturn_ok by (done || (intros; done)). eexists. split; [done|]. by split_and!.
  - eexists. split; [done|]. intros (_ & ? & ? & _). destruct Hr; congruence.
Qed.

Definition enter_accepts (c : Changer) (ccs : list ConfChangeSingle) : Prop :=
  let a := abs (cc_config c) in
  outgoing (cc_config c) = None ∧ ac_in a ≠ ∅ ∧ forallb known_type ccs = true ∧
  ac_in (foldl a_change (mkaconf (ac_in a) (ac_in a) (ac_learn a) (ac_next a)) ccs) ≠ ∅.

Lemma EnterJoint_ok c al ccs :
  tracker_wf (Changer_Tracker c) →
  let a := abs (cc_config c) in
  ∃ r, Changer_EnterJoint c al ccs = Ok r ∧
    match r with
    | Val (cfg, trk) => enter_accepts c ccs ∧ conf_wf cfg trk ∧ Config_AutoLeave cfg = al ∧
        outgoing cfg = Some (ac_in a) ∧
        abs cfg = foldl a_change (mkaconf (ac_in a) (ac_in a) (ac_learn a) (ac_next a)) ccs
    | Err _ => ¬ enter_accepts c ccs
    end.
Proof.
  intros Htw a. pose proof Htw as [Hwf Hal]. unfold Changer_EnterJoint. rewrite checkAndCopy_ok by done.
  pose proof (joint_spec _ _ (set_AutoLeave_wf false _ _ Hwf)) as Hj.
  change (outgoing (set_Config_AutoLeave false (cc_config c))) with (outgoing (cc_config c)) in Hj.
  destruct (joint _) eqn:Ej.
  { eexists. split; [done|]. intros (Ho & _). apply Hj in Ho. done. }
  assert (outgoing (cc_config c) = None) as Ho by tauto.
  change (incoming (set_Config_AutoLeave false (cc_config c))) with (incoming (cc_config c)).
  change (gs (incoming (cc_config c))) with (ac_in a).
  destruct (Nat.eqb (size (ac_in a)) 0) eqn:E0.
  { rewrite size_zero, bool_decide_eq_true in E0. eexists. split; [done|]. intros (_ & ? & _). done. }
  apply size_nonempty in E0.
  set (cfg0 := set_outgoing (Some (ac_in a)) (set_Config_AutoLeave false (cc_config c))).
  assert (conf_wf cfg0 (cc_progress c)) as Hwf0.
  { pose proof (conf_wf_next_nil _ _ Hwf Ho) as Hnn. destruct (cw_nil _ _ Hwf) as (Hn1 & Hn2 & Hn3).
    split; cbn; try done; [apply (cw_in _ _ Hwf)| | | | |].
    - intros i. pose proof (cw_dom _ _ Hwf i) as Hd. rewrite Ho in Hd. unfold a; cbn in *. set_solver +Hd.
    - intros i. apply (cw_learner _ _ Hwf).
    - intros i Hi. destruct (cw_disjoint _ _ Hwf i Hi) as [? _]. done.
    - intros i. rewrite Hnn. set_solver +.
    - split_and!; try done. intros [= ?]. done. }
  destruct (apply_ok c ccs cfg0 _ Hwf0) as (r & -> & Hr). cbn [mbind outcome_bind].
  change (abs cfg0) with (mkaconf (ac_in a) (ac_in a) (ac_learn a) (ac_next a)) in Hr.
  destruct r as [[cfg1 trk1]|e].
  - destruct Hr as ((Hwf1 & Ha & Hal1 & Hout1) & Hk & Hne). cbn in Hwf1, Ha, Hout1.
    change (outgoing cfg0) with (Some (ac_in a)) in Hout1.
    rewrite checkAndReturn_ok; [|by apply set_AutoLeave_wf|].
    2:{ change (outgoing (set_Config_AutoLeave al cfg1)) with (outgoing cfg1). by rewrite Hout1. }
    eexists. split; [done|]. cbn. split_and!; try done. by apply set_AutoLeave_wf.
  - eexists. split; [done|]. intros (_ & _ & Hk & Hi). destruct Hr as [Hr|Hr]; [congruence|by apply Hi].
Qed.

(** [LeaveJoint] moves the staged learners over. *)
Lemma leave_learners_ok ids cfg trk :
  (∀ id, id ∈ ids → id ∈ dom trk) → Config_Learners cfg ≠ Some ∅ →
  ∃ cfg' trk', leave_learners ids (cfg, trk) = Ok (cfg', trk') ∧
    Config_Voters cfg' = Config_Voters cfg ∧
    gs (Config_Learners cfg') = list_to_set ids ∪ gs (Config_Learners cfg) ∧
    Config_Learners cfg' ≠ Some ∅ ∧ dom trk' = dom trk ∧
    ∀ i, is_learner trk' i = true ↔ is_learner trk i = true ∨ i ∈ ids.
Proof.
  revert cfg trk. induction ids as [|id ids IH]; intros cfg trk Hd Hl.
  { exists cfg, trk. split_and!; try done; [set_solver +|]. intros i. set_solver +. }
  cbn [leave_learners]. destruct (trk !! id) as [pr|] eqn:Et.
  2:{ apply not_elem_of_dom in Et. destruct Et. apply Hd. set_solver +. }
  destruct (IH (set_Config_Learners (nilAwareAdd (Config_Learners cfg) id) cfg)
              (<[id := set_Progress_IsLearner true pr]> trk)) as (cfg' & trk' & E & Hv & Hg & Hne & Hdom & Hlr).
  { intros i Hi. rewrite dom_insert_L. apply elem_of_union_r. apply Hd. set_solver +Hi. }
  { apply nilAwareAdd_not_empty. }
  exists cfg', trk'. split_and!; try done.
  - rewrite Hg. cbn. rewrite gs_nilAwareAdd. set_solver +.
  - rewrite Hdom, dom_insert_L. apply in_dom in Et. set_solver +Et.
  - intros i. rewrite Hlr, is_learner_insert, elem_of_cons. case_decide; [subst; cbn; tauto|tauto].
Qed.

Lemma leave_outgoing_dom cfg trk i :
  i ∈ dom (leave_outgoing cfg trk) ↔
  i ∈ dom trk ∧ (i ∈ gs (outgoing cfg) → i ∈ gs (incoming cfg) ∨ i ∈ gs (Config_Learners cfg)).
Proof.
  unfold leave_outgoing. rewrite <- (elem_of_elements (gs (outgoing cfg))).
  revert trk. induction (elements (gs (outgoing cfg))) as [|id ids IH]; intros trk; cbn; [set_solver +|].
  rewrite IH, elem_of_cons. repeat case_bool_decide; cbn; rewrite ?dom_delete_L; set_solver.
Qed.

Lemma leave_outgoing_lookup cfg trk i :
  leave_outgoing cfg trk !! i =
  if decide (i ∈ dom (leave_outgoing cfg trk)) then trk !! i else None.
Proof.
  case_decide as Hd; [|by apply not_elem_of_dom].
  unfold leave_outgoing in *. revert trk Hd.
  induction (elements (gs (outgoing cfg))) as [|id ids IH]; intros trk; [done|]. cbn.
  intros Hd. rewrite IH by done. destruct (negb _ && negb _) eqn:E; [|done].
  destruct (decide (i = id)) as [->|]; [|by rewrite lookup_delete_ne].
  exfalso. apply elem_of_dom in Hd as [pr Hpr]. rewrite IH in Hpr by (apply elem_of_dom; eauto).
  by rewrite lookup_delete_eq in Hpr.
Qed.

Lemma LeaveJoint_ok c :
  tracker_wf (Changer_Tracker c) →
  ∃ r, Changer_LeaveJoint c = Ok r ∧
    match r with
    | Val (cfg, trk) => outgoing (cc_config c) ≠ None ∧ conf_wf cfg trk ∧ Config_AutoLeave cfg = false ∧
        outgoing cfg = None ∧
        abs cfg = mkaconf (ac_in (abs (cc_config c))) ∅
                    (ac_next (abs (cc_config c)) ∪ ac_learn (abs (cc_config c))) ∅
    | Err _ => outgoing (cc_config c) = None
    end.
Proof.
  intros Htw. pose proof Htw as [Hwf Hal]. unfold Changer_LeaveJoint. rewrite checkAndCopy_ok by done.
  pose proof (joint_spec _ _ (set_AutoLeave_wf false _ _ Hwf)) as Hj.
  change (outgoing (set_Config_AutoLeave false (cc_config c))) with (outgoing (cc_config c)) in Hj.
  destruct (joint _) eqn:Ej; cbn [negb]; [|eexists; split; [done|]; tauto].
  assert (outgoing (cc_config c) ≠ None) as Ho by (intros E; apply Hj in E; done).
  set (cfg0 := set_Config_AutoLeave false (cc_config c)).
  destruct (leave_learners_ok (elements (gs (Config_LearnersNext cfg0))) cfg0 (cc_progress c))
    as (cfg1 & trk1 & -> & Hv & Hg & Hne & Hdom & Hlr).
  { intros id Hid. apply elem_of_elements in Hid. apply (cw_dom _ _ Hwf). destruct (cw_next _ _ Hwf id Hid). auto. }
  { apply (cw_nil _ _ Hwf). }
  cbn [mbind outcome_bind]. set (cfg2 := set_Config_LearnersNext None cfg1).
  assert (incoming cfg2 = incoming (cc_config c)) as Hin2 by (unfold incoming; cbn; by rewrite Hv).
  assert (outgoing cfg2 = outgoing (cc_config c)) as Hout2 by (unfold outgoing; cbn; by rewrite Hv).
  assert (∀ i, i ∈ gs (Config_Learners cfg2) ↔
            i ∈ gs (Config_LearnersNext (cc_config c)) ∨ i ∈ gs (Config_Learners (cc_config c))) as Hl2.
  { intros i. cbn. rewrite Hg, elem_of_union, elem_of_list_to_set, elem_of_elements. done. }
  set (cfg3 := set_Config_AutoLeave false (set_outgoing None cfg2)).
  assert (incoming cfg3 = incoming (cc_config c)) as Hin3 by done.
  assert (conf_wf cfg3 (leave_outgoing cfg2 trk1)) as Hwf3.
  { split; rewrite ?Hin3; try done.
    - apply (cw_in _ _ Hwf).
    - intros i. rewrite leave_outgoing_dom, Hdom, Hin2, Hout2, (cw_dom _ _ Hwf).
      change (Config_Learners cfg3) with (Config_Learners cfg2). change (gs (outgoing cfg3)) with (∅ : gset Z).
      rewrite Hl2. pose proof (cw_next _ _ Hwf i). set_solver.
    - intros i. change (Config_Learners cfg3) with (Config_Learners cfg2). rewrite Hl2.
      pose proof (Hlr i) as Hli. rewrite elem_of_elements in Hli.
      change (Config_LearnersNext cfg0) with (Config_LearnersNext (cc_config c)) in Hli.
      unfold is_learner at 1. rewrite leave_outgoing_lookup.
      pose proof (leave_outgoing_dom cfg2 trk1 i) as Hd. rewrite Hdom, Hl2, (cw_dom _ _ Hwf) in Hd.
      rewrite (cw_learner _ _ Hwf) in Hli. unfold is_learner in Hli.
      pose proof (cw_next _ _ Hwf i). pose proof (cw_dom _ _ Hwf i) as Hd'. rewrite <- Hdom in Hd'.
      case_decide as Hdec; [tauto|]. split; [done|]. intros Hc. destruct Hdec. tauto.
    - intros i. change (Config_Learners cfg3) with (Config_Learners cfg2). rewrite Hl2.
      pose proof (cw_disjoint _ _ Hwf i). pose proof (cw_next _ _ Hwf i).
      change (gs (outgoing cfg3)) with (∅ : gset Z). set_solver. }
  rewrite checkAndReturn_ok by done. eexists. split; [done|]. split_and!; try done.
  unfold abs. rewrite Hin3. cbn. f_equal. apply set_eq. intros i. rewrite elem_of_union. apply Hl2.
Qed.

(** ** What the changer guarantees *)

(** The three ways to leave a configuration. *)
Inductive conf_transition (c : Changer) (cfg : Config) (trk : ProgressMap) : Prop :=
| by_simple ccs : Changer_Simple c ccs = Ok (Val (cfg, trk)) → conf_transition c cfg trk
| by_enter al ccs : Changer_EnterJoint c al ccs = Ok (Val (cfg, trk)) → conf_transition c cfg trk
| by_leave : Changer_LeaveJoint c = Ok (Val (cfg, trk)) → conf_transition c cfg trk.

(** C20. On a consistent tracker the changer never panics and its final
    consistency check never fires: each transition succeeds exactly under its
    documented conditions, and the result is again consistent (progress for
    exactly the members, learners flagged exactly when they are in Learners,
    staged learners only among outgoing voters, nil sets outside joint
    configurations). *)
Theorem Changer_consistent c al ccs :
  tracker_wf (Changer_Tracker c) →
  (∃ r, Changer_Simple c ccs = Ok r ∧ ((∃ e, r = Err e) ↔ ¬ simple_accepts c ccs)) ∧
  (∃ r, Changer_EnterJoint c al ccs = Ok r ∧ ((∃ e, r = Err e) ↔ ¬ enter_accepts c ccs)) ∧
  (∃ r, Changer_LeaveJoint c = Ok r ∧ ((∃ e, r = Err e) ↔ outgoing (cc_config c) = None)) ∧
  (∀ cfg trk, conf_transition c cfg trk → tracker_wf (cc_update c cfg trk)).
Proof.
  intros Htw. split_and!.
  - destruct (Simple_ok c ccs Htw) as (r & E & Hr). exists r. split; [done|].
    destruct r as [[cfg trk]|e]; (split; [intros [e' ?]; done|intros ?; try by eauto]). tauto.
  - destruct (EnterJoint_ok c al ccs Htw) as (r & E & Hr). exists r. split; [done|].
    destruct r as [[cfg trk]|e]; (split; [intros [e' ?]; done|intros ?; try by eauto]). tauto.
  - destruct (LeaveJoint_ok c Htw) as (r & E & Hr). exists r. split; [done|].
    destruct r as [[cfg trk]|e]; (split; [intros [e' ?]; done|intros ?; try by eauto]). tauto.
  - intros cfg trk [ccs' E|al' ccs' E|E].
    + destruct (Simple_ok c ccs' Htw) as (r & E' & Hr). rewrite E in E'. simplify_eq.
      destruct Hr as (_ & ? & ? & _). by split.
    + destruct (EnterJoint_ok c al' ccs' Htw) as (r & E' & Hr). rewrite E in E'. simplify_eq.
      destruct Hr as (_ & ? & ? & Ho & _). split; [done|]. cbn. by rewrite Ho.
    + destruct (LeaveJoint_ok c Htw) as (r & E' & Hr). rewrite E in E'. simplify_eq.
      destruct Hr as (_ & ? & ? & _). by split.
Qed.

Lemma majorities_of_neighbours (c c' q q' : gset Z) :
  symdiff c c' <= 1 → c ≠ ∅ → c' ≠ ∅ → majority c q → majority c' q' →
  ∃ id, id ∈ q ∧ id ∈ q'.
Proof.
  intros Hd Hc Hc' [?|H1] [?|H2]; [done..|]. unfold symdiff in Hd.
  set (A := c ∩ c').
  assert (size c = size A + size (c ∖ c'))%nat as E1.
  { unfold A. rewrite <- size_union by set_solver +. f_equal. apply set_eq. intros x.
    destruct (decide (x ∈ c')); set_solver. }
  assert (size c' = size A + size (c' ∖ c))%nat as E2.
  { unfold A. rewrite <- size_union by set_solver +. f_equal. apply set_eq. intros x.
    destruct (decide (x ∈ c)); set_solver. }
  assert (size (q ∩ c) <= size (q ∩ A) + size (c ∖ c'))%nat as F1.
  { etrans; [|apply Nat.eq_le_incl, size_union; unfold A; set_solver +]. apply subseteq_size. intros x.
    unfold A. destruct (decide (x ∈ c')); set_solver. }
  assert (size (q' ∩ c') <= size (q' ∩ A) + size (c' ∖ c))%nat as F2.
  { etrans; [|apply Nat.eq_le_incl, size_union; unfold A; set_solver +]. apply subseteq_size. intros x.
    unfold A. destruct (decide (x ∈ c)); set_solver. }
  destruct (decide (q ∩ A ## q' ∩ A)) as [Hdis|Hdis].
  - exfalso. apply size_union in Hdis.
    assert (size (q ∩ A ∪ q' ∩ A) <= size A)%nat by (apply subseteq_size; set_solver +).
    pose proof (Nat.div_mod_eq (size c) 2). pose proof (Nat.mod_upper_bound (size c) 2).
    pose proof (Nat.div_mod_eq (size c') 2). pose proof (Nat.mod_upper_bound (size c') 2). lia.
  - apply dec_stable. intros Hn. apply Hdis. intros x ??. apply Hn. exists x. set_solver.
Qed.

(** C19. No configuration change lets two disjoint quorums decide: any quorum of
    the configuration before a transition and any quorum of the one after it
    share a member. *)
Theorem confchange_quorums_overlap c cfg trk q q' :
  tracker_wf (Changer_Tracker c) → gs (incoming (cc_config c)) ≠ ∅ →
  conf_transition c cfg trk →
  joint_majority (Config_joint (cc_config c)) q → joint_majority (Config_joint cfg) q' →
  ∃ id, id ∈ q ∧ id ∈ q'.
Proof.
  intros Htw Hne [ccs E|al ccs E|E] [Hq1 Hq2] [Hq1' Hq2'].
  - destruct (Simple_ok c ccs Htw) as (r & E' & Hr). rewrite E in E'. simplify_eq.
    destruct Hr as ((_ & _ & Hne' & Hsym) & _ & _ & _ & Ha). rewrite <- Ha in Hsym, Hne'.
    by apply (majorities_of_neighbours (gs (incoming (cc_config c))) (gs (incoming cfg))).
  - destruct (EnterJoint_ok c al ccs Htw) as (r & E' & Hr). rewrite E in E'. simplify_eq.
    destruct Hr as (_ & _ & _ & Ho & _). cbn [snd Config_joint] in Hq2'.
    change ((Config_Voters cfg).2) with (outgoing cfg) in Hq2'. rewrite Ho in Hq2'.
    destruct (majority_intersect (gs (incoming (cc_config c))) q q') as (id & _ & ? & ?); eauto.
  - destruct (LeaveJoint_ok c Htw) as (r & E' & Hr). rewrite E in E'. simplify_eq.
    destruct Hr as (_ & _ & _ & _ & Ha). injection Ha as Ha _ _. cbn [fst Config_joint] in Hq1'.
    change ((Config_Voters cfg).1) with (incoming cfg) in Hq1'. rewrite Ha in Hq1'.
    destruct (majority_intersect (gs (incoming (cc_config c))) q q') as (id & _ & ? & ?); eauto.
Qed.

(** ** Restoring a configuration *)

Lemma fold_voters ids a :
  0 ∉ ids →
  foldl a_change a (single ConfChangeAddNode <$> ids) =
  mkaconf (ac_in a ∪ list_to_set ids) (ac_out a) (ac_learn a ∖ list_to_set ids) (ac_next a ∖ list_to_set ids).
Proof.
  revert a. induction ids as [|id ids IH]; intros a Hz; cbn.
  { destruct a. cbn. f_equal; set_solver +. }
  rewrite IH by set_solver +Hz. unfold a_change; cbn. rewrite (proj2 (Z.eqb_neq id 0)) by set_solver +Hz.
  unfold a_voter; cbn. f_equal; set_solver +.
Qed.

Lemma fold_removes ids a :
  0 ∉ ids →
  foldl a_change a (single ConfChangeRemoveNode <$> ids) =
  mkaconf (ac_in a ∖ list_to_set ids) (ac_out a) (ac_learn a ∖ list_to_set ids) (ac_next a ∖ list_to_set ids).
Proof.
  revert a. induction ids as [|id ids IH]; intros a Hz; cbn.
  { destruct a. cbn. f_equal; set_solver +. }
  rewrite IH by set_solver +Hz. unfold a_change; cbn. rewrite (proj2 (Z.eqb_neq id 0)) by set_solver +Hz.
  unfold a_remove; cbn. f_equal; set_solver +.
Qed.

Lemma fold_learners ids a :
  0 ∉ ids → (∀ id, id ∈ ids → id ∉ ac_out a) →
  foldl a_change a (single ConfChangeAddLearnerNode <$> ids) =
  mkaconf (ac_in a ∖ list_to_set ids) (ac_out a) (list_to_set ids ∪ ac_learn a) (ac_next a).
Proof.
  revert a. induction ids as [|id ids IH]; intros a Hz Ho; cbn.
  { destruct a. cbn. f_equal; set_solver +. }
  unfold a_change at 2; cbn. rewrite (proj2 (Z.eqb_neq id 0)) by set_solver +Hz.
  assert (id ∉ ac_out a) by (apply Ho; set_solver +).
  unfold a_learner. rewrite decide_False by done. rewrite IH; cbn; [|set_solver +Hz|].
  - f_equal; set_solver +.
  - intros i Hi. apply Ho. set_solver +Hi.
Qed.

Lemma fold_staged ids a :
  0 ∉ ids → (∀ id, id ∈ ids → id ∈ ac_out a) →
  foldl a_change a (single ConfChangeAddLearnerNode <$> ids) =
  mkaconf (ac_in a ∖ list_to_set ids) (ac_out a) (ac_learn a) (list_to_set ids ∪ ac_next a).
Proof.
  revert a. induction ids as [|id ids IH]; intros a Hz Ho; cbn.
  { destruct a. cbn. f_equal; set_solver +. }
  unfold a_change at 2; cbn. rewrite (proj2 (Z.eqb_neq id 0)) by set_solver +Hz.
  assert (id ∈ ac_out a) by (apply Ho; set_solver +).
  unfold a_learner. rewrite decide_True by done. rewrite IH; cbn; [|set_solver +Hz|].
  - f_equal; set_solver +.
  - intros i Hi. apply Ho. set_solver +Hi.
Qed.

(** Each change of the list is acceptable to [Simple] on its own. *)
Fixpoint steps_ok (a : aconf) (ccs : list ConfChangeSingle) : Prop :=
  match ccs with
  | [] => True
  | cc :: ccs => known_type cc = true ∧ ac_in (a_change a cc) ≠ ∅ ∧
                 symdiff (ac_in a) (ac_in (a_change a cc)) <= 1 ∧ steps_ok (a_change a cc) ccs
  end.

Lemma steps_ok_app a l k : steps_ok a (l ++ k) ↔ steps_ok a l ∧ steps_ok (foldl a_change a l) k.
Proof. revert a. induction l as [|cc l IH]; intros a; cbn; [tauto|]. rewrite IH. tauto. Qed.

Lemma symdiff_add (s : gset Z) id : symdiff s ({[id]} ∪ s) <= 1.
Proof.
  unfold symdiff. replace (s ∖ ({[id]} ∪ s)) with (∅ : gset Z) by set_solver +. rewrite size_empty.
  assert (size (({[id]} ∪ s) ∖ s) <= size ({[id]} : gset Z))%nat by (apply subseteq_size; set_solver +).
  rewrite size_singleton in *. lia.
Qed.

Lemma symdiff_same (s : gset Z) : symdiff s s = 0.
Proof. unfold symdiff. by rewrite difference_diag_L, size_empty. Qed.

Lemma steps_ok_voters ids a : 0 ∉ ids → steps_ok a (single ConfChangeAddNode <$> ids).
Proof.
  revert a. induction ids as [|id ids IH]; intros a Hz; [done|]. cbn [fmap list_fmap steps_ok].
  assert (a_change a (single ConfChangeAddNode id) = a_voter id a) as ->.
  { unfold a_change; cbn. by rewrite (proj2 (Z.eqb_neq id 0)) by set_solver +Hz. }
  unfold known_type; cbn. rewrite orb_true_r. split_and!; [done|set_solver +|apply symdiff_add|]. apply IH. set_solver +Hz.
Qed.

Lemma steps_ok_learners ids a :
  0 ∉ ids → (∀ id, id ∈ ids → id ∉ ac_in a) → ac_in a ≠ ∅ →
  steps_ok a (single ConfChangeAddLearnerNode <$> ids).
Proof.
  revert a. induction ids as [|id ids IH]; intros a Hz Hi Hne; [done|]. cbn.
  assert (ac_in (a_change a (single ConfChangeAddLearnerNode id)) = ac_in a) as E.
  { unfold a_change; cbn. rewrite (proj2 (Z.eqb_neq id 0)) by set_solver +Hz. unfold a_learner.
    assert (id ∉ ac_in a) by (apply Hi; set_solver +). case_decide; cbn; by apply set_minus_absent. }
  rewrite E, symdiff_same. unfold known_type; cbn. rewrite orb_true_r. split_and!; try done; try lia.
  apply IH; rewrite ?E; [set_solver +Hz| |done]. intros i Hin. apply Hi. set_solver +Hin.
Qed.

(** A run of single simple changes. *)
Lemma chain_simple chg ccs rest :
  tracker_wf (Changer_Tracker chg) → outgoing (cc_config chg) = None →
  steps_ok (abs (cc_config chg)) ccs →
  ∃ chg', chain chg (((fun cc chg => Changer_Simple chg [cc]) <$> ccs) ++ rest) = chain chg' rest ∧
    tracker_wf (Changer_Tracker chg') ∧ outgoing (cc_config chg') = None ∧
    Config_AutoLeave (cc_config chg') = false ∧
    abs (cc_config chg') = foldl a_change (abs (cc_config chg)) ccs.
Proof.
  revert chg. induction ccs as [|cc ccs IH]; intros chg Htw Ho Hs.
  { exists chg. split_and!; try done. by apply Htw. }
  destruct Hs as (Hk & Hne & Hsd & Hs). cbn [fmap list_fmap app chain].
  destruct (Simple_ok chg [cc] Htw) as (r & -> & Hr). cbn [mbind outcome_bind].
  destruct r as [[cfg trk]|e].
  - destruct Hr as (_ & Hwf & Hal & Ho' & Ha). cbn in Ha.
    destruct (IH (mkChanger (cc_update chg cfg trk) (Changer_LastIndex chg))) as (chg' & E & H1 & H2 & H3 & H4).
    + by split.
    + done.
    + cbn. by rewrite Ha.
    + exists chg'. split_and!; try done. rewrite H4. cbn. by rewrite Ha.
  - destruct Hr. split_and!; try done. cbn. by rewrite Hk.
Qed.

(** The configurations that a [ConfState] can describe. *)
Record restorable (cs : ConfState) : Prop := mkrestorable {
  rs_nonzero : 0 ∉ ConfState_Voters cs ++ ConfState_Learners cs ++ ConfState_VotersOutgoing cs ++ ConfState_LearnersNext cs;
  rs_voters : ConfState_Voters cs ≠ [];
  rs_learners : ∀ id, id ∈ ConfState_Learners cs →
    (id ∉ ConfState_Voters cs) ∧ (id ∉ ConfState_VotersOutgoing cs);
  rs_next : ∀ id, id ∈ ConfState_LearnersNext cs →
    (id ∈ ConfState_VotersOutgoing cs) ∧ (id ∉ ConfState_Voters cs);
  rs_auto : ConfState_VotersOutgoing cs = [] → ConfState_GetAutoLeave cs = false;
}.

Definition abs_of (cs : ConfState) : aconf :=
  mkaconf (list_to_set (ConfState_Voters cs)) (list_to_set (ConfState_VotersOutgoing cs))
    (list_to_set (ConfState_Learners cs)) (list_to_set (ConfState_LearnersNext cs)).

Definition empty_conf : Config := mkConfig (Some ∅, None) false None None.

Lemma empty_tracker_wf p :
  ProgressTracker_Config p = empty_conf → ProgressTracker_Progress p = ∅ → tracker_wf p.
Proof.
  intros Hc Hp. unfold tracker_wf. rewrite Hc, Hp. split; [|done].
  split; cbn; try done. intros i. rewrite dom_empty_L. set_solver +.
Qed.

Lemma list_to_set_nonempty (l : list Z) : l ≠ [] → (list_to_set l : gset Z) ≠ ∅.
Proof. destruct l; [done|]. cbn. set_solver +. Qed.

Lemma Restore_ok chg cs :
  cc_config chg = empty_conf → cc_progress chg = ∅ → restorable cs →
  ∃ cfg trk, Restore chg cs = Ok (Val (cfg, trk)) ∧ conf_wf cfg trk ∧ abs cfg = abs_of cs ∧
    Config_AutoLeave cfg = ConfState_GetAutoLeave cs.
Proof.
  intros Hc Hp [Hz Hv Hl Hn Ha]. pose proof (empty_tracker_wf _ Hc Hp) as Htw.
  rewrite !not_elem_of_app in Hz. destruct Hz as (Hzv & Hzl & Hzo & Hzn).
  pose proof (list_to_set_nonempty _ Hv) as Hvne.
  unfold Restore, toConfChangeSingle. unfold len. rewrite length_fmap.
  destruct (ConfState_VotersOutgoing cs) as [|o os] eqn:Eo; cbn [length].
  - assert (ConfState_LearnersNext cs = []) as En.
    { destruct (ConfState_LearnersNext cs) as [|x xs]; [done|]. destruct (Hn x) as [Hx _]; [by constructor|]. by apply not_elem_of_nil in Hx. }
    rewrite En. change (Z.of_nat 0 =? 0) with true. cbn [fmap list_fmap app]. rewrite app_nil_r.
    destruct (chain_simple chg ((single ConfChangeAddNode <$> ConfState_Voters cs)
      ++ (single ConfChangeAddLearnerNode <$> ConfState_Learners cs)) []) as (chg' & E & Htw' & Ho' & Hal' & Ha').
    + done.
    + by rewrite Hc.
    + rewrite Hc, steps_ok_app. split; [by apply steps_ok_voters|]. rewrite fold_voters by done. cbn.
      apply steps_ok_learners; [done| |cbn; set_solver +Hvne]. intros id Hid. cbn.
      destruct (Hl id Hid). set_solver.
    + rewrite app_nil_r in E. rewrite E. cbn [chain]. eexists _, _. split; [done|]. split; [apply Htw'|]. split; [|rewrite Hal'; by rewrite Ha].
      rewrite Ha', Hc, foldl_app, fold_voters, fold_learners by (cbn; set_solver). unfold abs_of. rewrite Eo, En; cbn.
      f_equal; [|set_solver +..]. apply set_eq. intros x. specialize (Hl x). set_solver.
  - rewrite (proj2 (Z.eqb_neq _ _)) by lia. rewrite <- Eo in *.
    destruct (chain_simple chg (single ConfChangeAddNode <$> ConfState_VotersOutgoing cs)
      [fun chg => Changer_EnterJoint chg (ConfState_GetAutoLeave cs)
        ((single ConfChangeRemoveNode <$> ConfState_VotersOutgoing cs)
         ++ (single ConfChangeAddNode <$> ConfState_Voters cs)
         ++ (single ConfChangeAddLearnerNode <$> ConfState_Learners cs)
         ++ (single ConfChangeAddLearnerNode <$> ConfState_LearnersNext cs))])
      as (chg' & -> & Htw' & Ho' & Hal' & Ha').
    + done.
    + by rewrite Hc.
    + by apply steps_ok_voters.
    + rewrite Hc, fold_voters in Ha' by done. cbn in Ha'.
      set (O := list_to_set (ConfState_VotersOutgoing cs) : gset Z) in *.
      assert (foldl a_change (mkaconf (ac_in (abs (cc_config chg'))) (ac_in (abs (cc_config chg')))
                (ac_learn (abs (cc_config chg'))) (ac_next (abs (cc_config chg'))))
        ((single ConfChangeRemoveNode <$> ConfState_VotersOutgoing cs)
         ++ (single ConfChangeAddNode <$> ConfState_Voters cs)
         ++ (single ConfChangeAddLearnerNode <$> ConfState_Learners cs)
         ++ (single ConfChangeAddLearnerNode <$> ConfState_LearnersNext cs)) = abs_of cs) as Hfold.
      { rewrite Ha'; cbn. rewrite !foldl_app, fold_removes, fold_voters by done. cbn. fold O.
        rewrite (fold_learners (ConfState_Learners cs)); [|done|cbn; intros i Hi; destruct (Hl i Hi); set_solver].
        rewrite fold_staged; [|done|cbn; intros i Hi; destruct (Hn i Hi); set_solver]. cbn.
        unfold abs_of. fold O. f_equal; [|set_solver +..]. apply set_eq. intros x. specialize (Hl x). specialize (Hn x).
        set_solver. }
      cbn [chain].
      destruct (EnterJoint_ok chg' (ConfState_GetAutoLeave cs)
        ((single ConfChangeRemoveNode <$> ConfState_VotersOutgoing cs)
         ++ (single ConfChangeAddNode <$> ConfState_Voters cs)
         ++ (single ConfChangeAddLearnerNode <$> ConfState_Learners cs)
         ++ (single ConfChangeAddLearnerNode <$> ConfState_LearnersNext cs)) Htw') as (r & -> & Hr).
      rewrite Hfold in Hr. cbn [mbind outcome_bind]. destruct r as [[cfg trk]|e].
      * destruct Hr as (_ & Hwf & Hal & _ & Habs). eexists _, _. by split_and!.
      * destruct Hr. split_and!; [done| | |by rewrite Hfold].
        { rewrite Ha'; cbn. unfold O. rewrite Eo. cbn. set_solver +. }
        { apply forallb_forall. intros cc Hcc. apply list_elem_of_In in Hcc. unfold known_type.
          rewrite !elem_of_app, !list_elem_of_fmap in Hcc.
          by destruct Hcc as [(?&->&_)|[(?&->&_)|[(?&->&_)|(?&->&_)]]]; rewrite orb_true_r. }
Qed.

Lemma goset_eq (m m' : goset) : m ≠ Some ∅ → m' ≠ Some ∅ → gs m = gs m' → m = m'.
Proof. destruct m as [s|], m' as [s'|]; unfold gs; cbn; intros ?? E; congruence. Qed.

(** A consistent configuration is determined by its four sets and its flag. *)
Lemma conf_eq cfg cfg' trk trk' :
  conf_wf cfg trk → conf_wf cfg' trk' → abs cfg = abs cfg' →
  Config_AutoLeave cfg = Config_AutoLeave cfg' → cfg = cfg'.
Proof.
  intros [Hi _ _ _ _ (Ho & Hl & Hn)] [Hi' _ _ _ _ (Ho' & Hl' & Hn')] [= E1 E2 E3 E4] Ha.
  destruct cfg as [[i o] al l n], cfg' as [[i' o'] al' l' n']. unfold incoming, outgoing in *. cbn in *. subst.
  rewrite (goset_eq o o'), (goset_eq l l'), (goset_eq n n') by done.
  destruct i as [i|], i' as [i'|]; try done. unfold gs in E1; cbn in E1. by subst.
Qed.

Lemma Slice_set (s : gset Z) : list_to_set (MajorityConfig_Slice s) = s.
Proof.
  unfold MajorityConfig_Slice. apply set_eq. intros x.
  by rewrite elem_of_list_to_set, sort64_perm, elem_of_elements.
Qed.

Lemma elem_of_Slice x (s : gset Z) : x ∈ MajorityConfig_Slice s ↔ x ∈ s.
Proof. unfold MajorityConfig_Slice. by rewrite sort64_perm, elem_of_elements. Qed.

Lemma ConfState_restorable p :
  tracker_wf p → gs (incoming (ProgressTracker_Config p)) ≠ ∅ → 0 ∉ dom (ProgressTracker_Progress p) →
  restorable (ProgressTracker_ConfState p).
Proof.
  intros [Hwf Hal] Hne Hz. pose proof (cw_dom _ _ Hwf 0) as Hd.
  split; cbn; change ((Config_Voters (ProgressTracker_Config p)).1) with (incoming (ProgressTracker_Config p));
    change ((Config_Voters (ProgressTracker_Config p)).2) with (outgoing (ProgressTracker_Config p)).
  - rewrite !not_elem_of_app, !elem_of_Slice. pose proof (cw_next _ _ Hwf 0). split_and!; tauto.
  - intros E. apply Hne. rewrite <- (Slice_set (gs (incoming _))), E. done.
  - intros id. rewrite !elem_of_Slice. apply (cw_disjoint _ _ Hwf).
  - intros id. rewrite !elem_of_Slice. apply (cw_next _ _ Hwf).
  - intros E. apply Hal. destruct (outgoing _) as [s|] eqn:Eo; [|done].
    destruct (cw_nil _ _ Hwf) as (Ho & _). rewrite Eo in Ho. destruct Ho. f_equal.
    rewrite <- (Slice_set s). cbn in E. unfold gs in E; cbn in E. by rewrite E.
Qed.

(** C21. Restoring the [ConfState] of a configuration into an empty tracker
    gives back exactly that configuration, joint or not, with its staged
    learners and its AutoLeave flag, together with a progress map for exactly
    its members; no step of the restoration is refused. *)
Theorem Restore_ConfState_roundtrip p chg :
  tracker_wf p → gs (incoming (ProgressTracker_Config p)) ≠ ∅ → 0 ∉ dom (ProgressTracker_Progress p) →
  cc_config chg = empty_conf → cc_progress chg = ∅ →
  ∃ trk, Restore chg (ProgressTracker_ConfState p) = Ok (Val (ProgressTracker_Config p, trk)) ∧
    dom trk = dom (ProgressTracker_Progress p) ∧
    ∀ id, is_learner trk id = is_learner (ProgressTracker_Progress p) id.
Proof.
  intros Htw Hne Hz Hc Hp.
  destruct (Restore_ok chg (ProgressTracker_ConfState p) Hc Hp) as (cfg & trk & E & Hwf & Ha & Hal);
    [by apply ConfState_restorable|]. destruct Htw as [Hwf0 _].
  assert (cfg = ProgressTracker_Config p) as ->.
  { apply (conf_eq _ _ _ _ Hwf Hwf0); [|done]. rewrite Ha. unfold abs_of; cbn. by rewrite !Slice_set. }
  exists trk. split_and!; [done| |].
  - apply set_eq. intros id. by rewrite (cw_dom _ _ Hwf), (cw_dom _ _ Hwf0).
  - intros id. apply eq_true_iff_eq. by rewrite (cw_learner _ _ Hwf), (cw_learner _ _ Hwf0).
Qed.

(** [Equivalent] compares the four lists up to order and a missing AutoLeave
    with false. *)
Lemma sort64_eq l k : sort64 l = sort64 k ↔ l ≡ₚ k.
Proof.
  split; intros E.
  - by rewrite <- (sort64_perm l), E, sort64_perm.
  - apply (StronglySorted_unique Z.le); [apply sort64_sorted..|]. by rewrite !sort64_perm.
Qed.

Lemma ConfState_Equivalent_spec cs1 cs2 :
  ConfState_Equivalent cs1 cs2 = true ↔
  (ConfState_Voters cs1 ≡ₚ ConfState_Voters cs2) ∧ (ConfState_Learners cs1 ≡ₚ ConfState_Learners cs2) ∧
  (ConfState_VotersOutgoing cs1 ≡ₚ ConfState_VotersOutgoing cs2) ∧
  (ConfState_LearnersNext cs1 ≡ₚ ConfState_LearnersNext cs2) ∧
  ConfState_GetAutoLeave cs1 = ConfState_GetAutoLeave cs2.
Proof.
  unfold ConfState_Equivalent. rewrite bool_decide_eq_true. rewrite <- !sort64_eq.
  split; [by intros [= -> -> -> -> ->]|by intros (-> & -> & -> & -> & ->)].
Qed.

(** ** Concrete instances *)

(** Voters 1, 2 and 3 with learner 4, built by the changer itself. *)
Definition ex_changer0 : Changer := mkChanger (MakeProgressTracker 8 0) 10.

Definition ex_cs : ConfState := mkConfState [1; 2; 3] [4] [] [] None.

Definition ex_changer : Changer :=
  match Restore ex_changer0 ex_cs with
  | Ok (Val (cfg, trk)) => mkChanger (cc_update ex_changer0 cfg trk) 10
  | _ => ex_changer0
  end.

Lemma ex_changer_wf : tracker_wf (Changer_Tracker ex_changer).
Proof.
  destruct (Restore_ok ex_changer0 ex_cs) as (cfg & trk & E & Hwf & _ & Hal); [done|done| |].
  - split; try (vm_compute; intuition congruence); cbn.
    + by apply (bool_decide_unpack _).
    + intros id Hid. apply list_elem_of_singleton in Hid as ->. by apply (bool_decide_unpack _).
    + intros id Hid. by apply not_elem_of_nil in Hid.
  - unfold ex_changer. rewrite E. split; [done|]. intros _. exact Hal.
Qed.

Lemma Changer_consistent_witness :
  ∃ r, Changer_LeaveJoint ex_changer = Ok r ∧ ∃ e, r = Err e.
Proof.
  destruct (Changer_consistent ex_changer false [] ex_changer_wf) as (_ & _ & (r & E & Hr) & _).
  exists r. split; [exact E|]. apply Hr. vm_compute. reflexivity.
Defined.

(** Adding voter 5: the old quorum (1 2) and the new quorum (2 3 5). *)
Lemma confchange_quorums_overlap_witness :
  ∃ cfg trk, Changer_Simple ex_changer [single ConfChangeAddNode 5] = Ok (Val (cfg, trk)) ∧
    ∃ id : Z, id ∈ ({[1; 2]} : gset Z) ∧ id ∈ ({[2; 3; 5]} : gset Z).
Proof.
  destruct (Changer_Simple ex_changer [single ConfChangeAddNode 5]) as [[[cfg trk]|]|] eqn:E;
    [|vm_compute in E; discriminate E..].
  exists cfg, trk. split; [reflexivity|].
  apply (confchange_quorums_overlap ex_changer cfg trk {[1; 2]} {[2; 3; 5]}).
  - apply ex_changer_wf.
  - vm_compute. discriminate.
  - by apply (by_simple _ _ _ [single ConfChangeAddNode 5]).
  - apply (bool_decide_unpack _). vm_compute. reflexivity.
  - assert (Config_joint cfg = ({[1; 2; 3; 5]}, ∅)) as ->.
    { transitivity (match Changer_Simple ex_changer [single ConfChangeAddNode 5] with
                    | Ok (Val (cfg, _)) => Config_joint cfg | _ => (∅, ∅) end); [by rewrite E|].
      vm_compute. reflexivity. }
    apply (bool_decide_unpack _). vm_compute. reflexivity.
Defined.

Lemma Restore_ConfState_roundtrip_witness :
  ∃ trk, Restore ex_changer0 (ProgressTracker_ConfState (Changer_Tracker ex_changer))
         = Ok (Val (cc_config ex_changer, trk)).
Proof.
  destruct (Restore_ConfState_roundtrip (Changer_Tracker ex_changer) ex_changer0) as (trk & E & _);
    [apply ex_changer_wf|vm_compute; discriminate|by apply (bool_decide_unpack _)|reflexivity..|].
  exists trk. exact E.
Defined.
