(* ===== verification/ReadOnly.v ===== *)
(** * The read-only queue (src/read_only.go)

    Linearizable reads wait here until a quorum has acknowledged a heartbeat
    that was sent after they arrived.  Requests are numbered from 1 in the order
    of their arrival; a heartbeat carries the number of the last one, encoded in
    eight bytes. *)
From S2P Require Import Prelude Proto Quorum.
From Stdlib Require Import Strings.Byte.

Inductive ReadOnlyOption : Type := ReadOnlySafe | ReadOnlyLeaseBased.

Record ReadState : Type := mkReadState {
  ReadState_Index : Z;
  ReadState_RequestCtx : option bytes;
}.

Record readIndexRequest : Type := mkreadIndexRequest {
  readIndexRequest_req : Message;
  readIndexRequest_index : Z;
}.

Record readOnly : Type := mkreadOnly {
  readOnly_option : ReadOnlyOption;
  readOnly_acks : gmap Z Z;
  readOnly_unconfirmedReads : list readIndexRequest;
  readOnly_confirmedReads : Z;
}.

Definition newReadOnly (option : ReadOnlyOption) : readOnly := mkreadOnly option ∅ [] 0.

Definition set_readOnly_acks (v : gmap Z Z) (r : readOnly) : readOnly :=
  mkreadOnly (readOnly_option r) v (readOnly_unconfirmedReads r) (readOnly_confirmedReads r).

(** ** [encoding/binary.LittleEndian] *)

Fixpoint put_le (n : nat) (x : Z) : bytes :=
  match n with
  | O => []
  | S n => byte_of_Z x :: put_le n (Z.shiftr x 8)
  end.

Fixpoint get_le (l : bytes) : Z :=
  match l with
  | [] => 0
  | b :: l => Z.lor (Z_of_byte b) (Z.shiftl (get_le l) 8)
  end.

Definition PutUint64 (x : Z) : bytes := put_le 8 x.

(** [Uint64] reads the first eight bytes and panics on a shorter slice. *)
Definition Uint64 (l : bytes) : outcome Z :=
  if len l <? 8 then Panic "index out of range" else Ok (get_le (take 8 l)).

(** ** Operations *)

Definition readOnly_addRequest (commitIndex : Z) (req : Message) (ro : readOnly) : readOnly :=
  mkreadOnly (readOnly_option ro) (readOnly_acks ro)
    (readOnly_unconfirmedReads ro ++ [mkreadIndexRequest req commitIndex]) (readOnly_confirmedReads ro).

Definition readOnly_recvAck (from : Z) (ctx : option bytes) (ro : readOnly) : outcome readOnly :=
  let ctx := default [] ctx in
  if negb (len ctx =? 0) then
    pos ← Uint64 ctx;
    Ok (set_readOnly_acks (<[from := Z.max (default 0 (readOnly_acks ro !! from)) pos]> (readOnly_acks ro)) ro)
  else Ok ro.

#[export] Instance readOnly_AckedIndex : AckedIndexer readOnly :=
  fun ro voterID => readOnly_acks ro !! voterID.

Definition readOnly_maybeAdvance (c : JointConfig) (ro : readOnly) :
    outcome (list readIndexRequest * readOnly) :=
  let newConfirmedReads := JointConfig_CommittedIndex c ro in
  if newConfirmedReads <=? readOnly_confirmedReads ro then Ok ([], ro)
  else
    let n := newConfirmedReads -! readOnly_confirmedReads ro in
    readStates ← go_slice (readOnly_unconfirmedReads ro) 0 n;
    rest ← go_from (readOnly_unconfirmedReads ro) n;
    Ok (readStates, mkreadOnly (readOnly_option ro) (readOnly_acks ro) rest newConfirmedReads).

(** [None] is the nil slice. *)
Definition readOnly_heartbeatCtx (ro : readOnly) : option bytes :=
  if len (readOnly_unconfirmedReads ro) =? 0 then None
  else
    let unconfirmedReadPosition := readOnly_confirmedReads ro +! len (readOnly_unconfirmedReads ro) in
    Some (PutUint64 unconfirmedReadPosition).

(** ** Encoding *)

Lemma get_put_le n x : 0 <= x < 2 ^ (8 * Z.of_nat n) → get_le (put_le n x) = x.
Proof.
  revert x. induction n as [|n IH]; intros x Hx; [cbn in *; lia|].
  assert (2 ^ (8 * Z.of_nat (S n)) = 256 * 2 ^ (8 * Z.of_nat n)) as Hp.
  { replace (8 * Z.of_nat (S n)) with (8 + 8 * Z.of_nat n) by lia. rewrite Z.pow_add_r by lia. lia. }
  cbn [put_le get_le]. rewrite Z_of_byte_of_Z. rewrite Z.shiftr_div_pow2 by lia. change (2 ^ 8) with 256.
  rewrite IH by (split; [apply Z.div_pos; lia|apply Z.div_lt_upper_bound; lia]).
  pose proof (Z.add_lor_land (x mod 256) (Z.shiftl (x / 256) 8)) as Hl.
  assert (Z.land (x mod 256) (Z.shiftl (x / 256) 8) = 0) as Hz.
  { change 256 with (2 ^ 8). rewrite <- Z.land_ones by lia. apply Z.bits_inj'. intros i Hi.
    rewrite Z.land_spec, Z.land_spec, Z.bits_0. destruct (Z.lt_ge_cases i 8).
    - by rewrite Z.shiftl_spec_low, andb_false_r.
    - rewrite Z.ones_spec_high by lia. by rewrite andb_false_r. }
  rewrite Hz, Z.shiftl_mul_pow2 in Hl by lia. rewrite Z.shiftl_mul_pow2 by lia.
  change (2 ^ 8) with 256 in *. pose proof (Z.div_mod x 256). lia.
Qed.

Lemma length_put_le n x : length (put_le n x) = n.
Proof. revert x. induction n; intros; cbn; congruence. Qed.

Lemma Uint64_PutUint64 x : is_u64 x → Uint64 (PutUint64 x) = Ok x.
Proof.
  intros Hx. unfold Uint64, PutUint64, len. rewrite length_put_le. cbn [Z.ltb Z.compare Z.of_nat].
  change (_ <? 8) with false. rewrite take_ge by (rewrite length_put_le; lia). f_equal.
  apply get_put_le. exact Hx.
Qed.

(** ** Confirmation *)

(** Acknowledged positions never exceed the number of requests, because they
    were taken from the queue; the total number of reads fits a uint64. *)
Record readOnly_wf (ro : readOnly) : Prop := mkreadOnly_wf {
  row_confirmed : 0 <= readOnly_confirmedReads ro;
  row_total : readOnly_confirmedReads ro + len (readOnly_unconfirmedReads ro) < MaxUint64;
  row_acks : ∀ id p, readOnly_acks ro !! id = Some p →
    0 <= p <= readOnly_confirmedReads ro + len (readOnly_unconfirmedReads ro);
}.

Lemma newReadOnly_wf opt : readOnly_wf (newReadOnly opt).
Proof. split; cbn; [lia|unfold len; cbn; lia|done]. Qed.

Lemma addRequest_wf i req ro :
  readOnly_wf ro → readOnly_confirmedReads ro + len (readOnly_unconfirmedReads ro) + 1 < MaxUint64 →
  readOnly_wf (readOnly_addRequest i req ro).
Proof.
  intros [Hc Ht Ha] Hb. unfold len in *.
  split; cbn; unfold len; rewrite ?length_app; cbn; [lia|lia|].
  intros id p Hp. specialize (Ha id p Hp). lia.
Qed.

(** The heartbeat context decodes to the position it stands for, and recording
    it keeps the queue well-formed. *)
Lemma recvAck_heartbeatCtx ro ro' from :
  readOnly_wf ro → readOnly_wf ro' →
  readOnly_confirmedReads ro + len (readOnly_unconfirmedReads ro) <=
    readOnly_confirmedReads ro' + len (readOnly_unconfirmedReads ro') →
  readOnly_unconfirmedReads ro ≠ [] →
  ∃ ro'', readOnly_recvAck from (readOnly_heartbeatCtx ro) ro' = Ok ro'' ∧ readOnly_wf ro'' ∧
    readOnly_acks ro'' = <[from := Z.max (default 0 (readOnly_acks ro' !! from))
      (readOnly_confirmedReads ro + len (readOnly_unconfirmedReads ro))]> (readOnly_acks ro').
Proof.
  intros [Hc Ht Ha] [Hc' Ht' Ha'] Hle Hne. unfold readOnly_heartbeatCtx, readOnly_recvAck.
  assert (0 < len (readOnly_unconfirmedReads ro)) as Hpos.
  { destruct (readOnly_unconfirmedReads ro); [done|]. rewrite len_cons. pose proof (len_nonneg l). lia. }
  rewrite (proj2 (Z.eqb_neq (len (readOnly_unconfirmedReads ro)) 0)) by lia. rewrite add64_small by lia. cbn [from_option id].
  assert (∀ x, len (PutUint64 x) = 8) as -> by (intros; unfold len, PutUint64; by rewrite length_put_le).
  cbn [negb Z.eqb].
  rewrite Uint64_PutUint64 by (unfold is_u64; lia). cbn [mbind outcome_bind].
  eexists. split; [done|]. split; [|done]. split; cbn; try done.
  intros id p. rewrite lookup_insert_Some. intros [[<- <-]|[_ Hp]]; [|by apply (Ha' id)].
  destruct (readOnly_acks ro' !! from) as [q|] eqn:E; cbn; [specialize (Ha' _ _ E)|]; lia.
Qed.

(** The members that have acknowledged position [p]. *)
Definition acked_reads (c : JointConfig) (ro : readOnly) (p : Z) : gset Z :=
  filter (λ id, p <= default 0 (readOnly_acks ro !! id)) (JointConfig_IDs c).

Lemma CommittedIndex_acked_reads c ro p :
  p <= MaxUint64 → p <= JointConfig_CommittedIndex c ro ↔ joint_majority c (acked_reads c ro p).
Proof.
  intros Hp. unfold JointConfig_CommittedIndex, joint_majority.
  assert (∀ h, h ⊆ JointConfig_IDs c →
    majority h (acked_ge ro h p) ↔ majority h (acked_reads c ro p)) as Hh.
  { intros h Hh. unfold acked_ge, acked_reads, AckedIndex, readOnly_AckedIndex.
    split; apply majority_mono; intros x; rewrite elem_of_intersection, !elem_of_filter; set_solver. }
  rewrite <- !Hh, <- !MajorityConfig_CommittedIndex_ge by (done || (unfold JointConfig_IDs; set_solver +)).
  zcase; lia.
Qed.

Lemma CommittedIndex_total c ro :
  readOnly_wf ro → c.1 ≠ ∅ →
  JointConfig_CommittedIndex c ro <= readOnly_confirmedReads ro + len (readOnly_unconfirmedReads ro).
Proof.
  intros [Hc Ht Ha] Hne. set (t := _ + _) in *.
  destruct (Z.le_gt_cases (JointConfig_CommittedIndex c ro) t) as [|Hgt]; [done|]. exfalso.
  assert (t + 1 <= JointConfig_CommittedIndex c ro) as Hle by lia.
  apply CommittedIndex_acked_reads in Hle as [Hm _]; [|lia].
  destruct (majority_intersect _ _ _ Hne Hm Hm) as (id & _ & Hid & _).
  apply elem_of_filter in Hid as [Hid _]. pose proof (len_nonneg (readOnly_unconfirmedReads ro)).
  destruct (readOnly_acks ro !! id) as [q|] eqn:E; cbn in Hid; [apply Ha in E|]; lia.
Qed.

(** C24. Reads are confirmed in their order of arrival, and a read is released
    exactly when a quorum has acknowledged a heartbeat sent at or after its
    arrival: [maybeAdvance] returns a prefix of the queue, the request at
    position [confirmed + k + 1] is in it if and only if a majority of each
    half has acknowledged that position, and the rest stays queued. *)
Theorem maybeAdvance_confirms_prefix c ro :
  readOnly_wf ro → c.1 ≠ ∅ →
  ∃ rss ro', readOnly_maybeAdvance c ro = Ok (rss, ro') ∧ readOnly_wf ro' ∧
    readOnly_unconfirmedReads ro = rss ++ readOnly_unconfirmedReads ro' ∧
    readOnly_confirmedReads ro' = readOnly_confirmedReads ro + len rss ∧
    (∀ k, (k < length (readOnly_unconfirmedReads ro))%nat →
       (k < length rss)%nat ↔
       joint_majority c (acked_reads c ro (readOnly_confirmedReads ro + Z.of_nat k + 1))).
Proof.
  intros Hwf Hne. pose proof (CommittedIndex_total c ro Hwf Hne) as Htot. pose proof Hwf as [Hc Ht Ha].
  unfold len in *. unfold readOnly_maybeAdvance. zcase.
  - exists [], ro. split_and!; try done; [cbn; lia|]. intros k Hk.
    rewrite <- CommittedIndex_acked_reads by lia. cbn. lia.
  - rewrite sub64_small by lia. rewrite go_slice_Ok, go_from_Ok by (unfold len; lia).
    cbn [mbind outcome_bind]. rewrite Z.sub_0_r. change (Z.to_nat 0) with 0%nat. rewrite drop_0.
    set (n := Z.to_nat (JointConfig_CommittedIndex c ro - readOnly_confirmedReads ro)).
    eexists _, _. split; [done|]. cbn [readOnly_unconfirmedReads readOnly_confirmedReads].
    unfold len. rewrite length_take, take_drop. split; [|split_and!; [done|lia|]].
    + split; cbn; unfold len; rewrite ?length_drop; try lia. intros id p Hp. apply Ha in Hp. lia.
    + intros k Hk. rewrite <- CommittedIndex_acked_reads by lia. lia.
Qed.

(** Two queued reads; nodes 1 and 2 have acknowledged the first. *)
Definition ex_readOnly : readOnly :=
  mkreadOnly ReadOnlySafe (list_to_map [(1, 2); (2, 1)])
    [mkreadIndexRequest Message0 7; mkreadIndexRequest Message0 8] 0.

Lemma maybeAdvance_confirms_prefix_witness :
  ∃ rss ro', readOnly_maybeAdvance ({[1; 2; 3]}, ∅) ex_readOnly = Ok (rss, ro') ∧
    (0 < length rss)%nat.
Proof.
  destruct (maybeAdvance_confirms_prefix ({[1; 2; 3]}, ∅) ex_readOnly) as (rss & ro' & E & _ & _ & _ & Hk).
  - split; [vm_compute; congruence|vm_compute; reflexivity|]. intros id p Hp.
    cbn [ex_readOnly readOnly_acks list_to_map foldr fst snd uncurry] in Hp.
    apply lookup_insert_Some in Hp as [[_ <-]|[_ Hp]]; [vm_compute; intuition congruence|].
    apply lookup_insert_Some in Hp as [[_ <-]|[_ Hp]]; [vm_compute; intuition congruence|done].
  - vm_compute. discriminate.
  - exists rss, ro'. split; [exact E|]. apply (Hk 0%nat); [vm_compute; lia|].
    apply (bool_decide_unpack _). vm_compute. exact I.
Defined.
