(* ===== verification/Raft.v ===== *)
(** * The consensus state machine: state and building blocks (src/raft.go)

    The state of one node, a monad for its methods, and everything below the
    message handlers: sending, the log, the roles, elections and reads.  Logging
    and tracing are left out; expressions that only a log line evaluates are
    kept where they can panic. *)
From S2P Require Import Prelude Proto Quorum Inflights Progress Tracker Util Storage.
From S2P Require Import Unstable Log ConfChange ReadOnly.

Inductive StateType : Type := StateFollower | StateCandidate | StateLeader | StatePreCandidate.

#[export] Instance StateType_eq_dec : EqDecision StateType.
Proof. solve_decision. Defined.

Definition st_eqb (a b : StateType) : bool := bool_decide (a = b).

Inductive CampaignType : Type := campaignPreElection | campaignElection | campaignTransfer.

(** The values that the function-typed fields [step] and [tick] take. *)
Inductive stepFunc : Type := stepFollower_f | stepCandidate_f | stepLeader_f.

Inductive tickFunc : Type := tickElection_f | tickHeartbeat_f.

(** The state of a node.  [rands] stands for the random number generator: the
    numbers that it is going to draw. *)
Record raft (S : Type) : Type := mkraft {
  raft_id : Z;
  raft_Term : Z;
  raft_Vote : Z;
  raft_readStates : list ReadState;
  raft_raftLog : raftLog S;
  raft_maxMsgSize : Z;
  raft_maxUncommittedSize : Z;
  raft_trk : ProgressTracker;
  raft_state : StateType;
  raft_isLearner : bool;
  raft_msgs : list Message;
  raft_msgsAfterAppend : list Message;
  raft_lead : Z;
  raft_leadTransferee : Z;
  raft_pendingConfIndex : Z;
  raft_disableConfChangeValidation : bool;
  raft_uncommittedSize : Z;
  raft_readOnly : readOnly;
  raft_electionElapsed : Z;
  raft_heartbeatElapsed : Z;
  raft_checkQuorum : bool;
  raft_preVote : bool;
  raft_heartbeatTimeout : Z;
  raft_electionTimeout : Z;
  raft_randomizedElectionTimeout : Z;
  raft_disableProposalForwarding : bool;
  raft_stepDownOnRemoval : bool;
  raft_tick : tickFunc;
  raft_step : stepFunc;
  raft_pendingReadIndexMessages : list Message;
  raft_rands : list Z;
}.
Arguments mkraft {S}.
Arguments raft_id {S} _.
Arguments raft_Term {S} _.
Arguments raft_Vote {S} _.
Arguments raft_readStates {S} _.
Arguments raft_raftLog {S} _.
Arguments raft_maxMsgSize {S} _.
Arguments raft_maxUncommittedSize {S} _.
Arguments raft_trk {S} _.
Arguments raft_state {S} _.
Arguments raft_isLearner {S} _.
Arguments raft_msgs {S} _.
Arguments raft_msgsAfterAppend {S} _.
Arguments raft_lead {S} _.
Arguments raft_leadTransferee {S} _.
Arguments raft_pendingConfIndex {S} _.
Arguments raft_disableConfChangeValidation {S} _.
Arguments raft_uncommittedSize {S} _.
Arguments raft_readOnly {S} _.
Arguments raft_electionElapsed {S} _.
Arguments raft_heartbeatElapsed {S} _.
Arguments raft_checkQuorum {S} _.
Arguments raft_preVote {S} _.
Arguments raft_heartbeatTimeout {S} _.
Arguments raft_electionTimeout {S} _.
Arguments raft_randomizedElectionTimeout {S} _.
Arguments raft_disableProposalForwarding {S} _.
Arguments raft_stepDownOnRemoval {S} _.
Arguments raft_tick {S} _.
Arguments raft_step {S} _.
Arguments raft_pendingReadIndexMessages {S} _.
Arguments raft_rands {S} _.

Definition set_raft_Term {S} (v : Z) (r : raft S) : raft S :=
  mkraft (raft_id r) v (raft_Vote r) (raft_readStates r) (raft_raftLog r)
    (raft_maxMsgSize r) (raft_maxUncommittedSize r) (raft_trk r) (raft_state r)
    (raft_isLearner r) (raft_msgs r) (raft_msgsAfterAppend r) (raft_lead r)
    (raft_leadTransferee r) (raft_pendingConfIndex r) (raft_disableConfChangeValidation
    r) (raft_uncommittedSize r) (raft_readOnly r) (raft_electionElapsed r)
    (raft_heartbeatElapsed r) (raft_checkQuorum r) (raft_preVote r)
    (raft_heartbeatTimeout r) (raft_electionTimeout r) (raft_randomizedElectionTimeout
    r) (raft_disableProposalForwarding r) (raft_stepDownOnRemoval r) (raft_tick r)
    (raft_step r) (raft_pendingReadIndexMessages r) (raft_rands r).

Definition set_raft_Vote {S} (v : Z) (r : raft S) : raft S :=
  mkraft (raft_id r) (raft_Term r) v (raft_readStates r) (raft_raftLog r)
    (raft_maxMsgSize r) (raft_maxUncommittedSize r) (raft_trk r) (raft_state r)
    (raft_isLearner r) (raft_msgs r) (raft_msgsAfterAppend r) (raft_lead r)
    (raft_leadTransferee r) (raft_pendingConfIndex r) (raft_disableConfChangeValidation
    r) (raft_uncommittedSize r) (raft_readOnly r) (raft_electionElapsed r)
    (raft_heartbeatElapsed r) (raft_checkQuorum r) (raft_preVote r)
    (raft_heartbeatTimeout r) (raft_electionTimeout r) (raft_randomizedElectionTimeout
    r) (raft_disableProposalForwarding r) (raft_stepDownOnRemoval r) (raft_tick r)
    (raft_step r) (raft_pendingReadIndexMessages r) (raft_rands r).

Definition set_raft_readStates {S} (v : list ReadState) (r : raft S) : raft S :=
  mkraft (raft_id r) (raft_Term r) (raft_Vote r) v (raft_raftLog r) (raft_maxMsgSize r)
    (raft_maxUncommittedSize r) (raft_trk r) (raft_state r) (raft_isLearner r)
    (raft_msgs r) (raft_msgsAfterAppend r) (raft_lead r) (raft_leadTransferee r)
    (raft_pendingConfIndex r) (raft_disableConfChangeValidation r) (raft_uncommittedSize
    r) (raft_readOnly r) (raft_electionElapsed r) (raft_heartbeatElapsed r)
    (raft_checkQuorum r) (raft_preVote r) (raft_heartbeatTimeout r)
    (raft_electionTimeout r) (raft_randomizedElectionTimeout r)
    (raft_disableProposalForwarding r) (raft_stepDownOnRemoval r) (raft_tick r)
    (raft_step r) (raft_pendingReadIndexMessages r) (raft_rands r).

Definition set_raft_raftLog {S} (v : raftLog S) (r : raft S) : raft S :=
  mkraft (raft_id r) (raft_Term r) (raft_Vote r) (raft_readStates r) v (raft_maxMsgSize
    r) (raft_maxUncommittedSize r) (raft_trk r) (raft_state r) (raft_isLearner r)
    (raft_msgs r) (raft_msgsAfterAppend r) (raft_lead r) (raft_leadTransferee r)
    (raft_pendingConfIndex r) (raft_disableConfChangeValidation r) (raft_uncommittedSize
    r) (raft_readOnly r) (raft_electionElapsed r) (raft_heartbeatElapsed r)
    (raft_checkQuorum r) (raft_preVote r) (raft_heartbeatTimeout r)
    (raft_electionTimeout r) (raft_randomizedElectionTimeout r)
    (raft_disableProposalForwarding r) (raft_stepDownOnRemoval r) (raft_tick r)
    (raft_step r) (raft_pendingReadIndexMessages r) (raft_rands r).

Definition set_raft_trk {S} (v : ProgressTracker) (r : raft S) : raft S :=
  mkraft (raft_id r) (raft_Term r) (raft_Vote r) (raft_readStates r) (raft_raftLog r)
    (raft_maxMsgSize r) (raft_maxUncommittedSize r) v (raft_state r) (raft_isLearner r)
    (raft_msgs r) (raft_msgsAfterAppend r) (raft_lead r) (raft_leadTransferee r)
    (raft_pendingConfIndex r) (raft_disableConfChangeValidation r) (raft_uncommittedSize
    r) (raft_readOnly r) (raft_electionElapsed r) (raft_heartbeatElapsed r)
    (raft_checkQuorum r) (raft_preVote r) (raft_heartbeatTimeout r)
    (raft_electionTimeout r) (raft_randomizedElectionTimeout r)
    (raft_disableProposalForwarding r) (raft_stepDownOnRemoval r) (raft_tick r)
    (raft_step r) (raft_pendingReadIndexMessages r) (raft_rands r).

Definition set_raft_state {S} (v : StateType) (r : raft S) : raft S :=
  mkraft (raft_id r) (raft_Term r) (raft_Vote r) (raft_readStates r) (raft_raftLog r)
    (raft_maxMsgSize r) (raft_maxUncommittedSize r) (raft_trk r) v (raft_isLearner r)
    (raft_msgs r) (raft_msgsAfterAppend r) (raft_lead r) (raft_leadTransferee r)
    (raft_pendingConfIndex r) (raft_disableConfChangeValidation r) (raft_uncommittedSize
    r) (raft_readOnly r) (raft_electionElapsed r) (raft_heartbeatElapsed r)
    (raft_checkQuorum r) (raft_preVote r) (raft_heartbeatTimeout r)
    (raft_electionTimeout r) (raft_randomizedElectionTimeout r)
    (raft_disableProposalForwarding r) (raft_stepDownOnRemoval r) (raft_tick r)
    (raft_step r) (raft_pendingReadIndexMessages r) (raft_rands r).

Definition set_raft_isLearner {S} (v : bool) (r : raft S) : raft S :=
  mkraft (raft_id r) (raft_Term r) (raft_Vote r) (raft_readStates r) (raft_raftLog r)
    (raft_maxMsgSize r) (raft_maxUncommittedSize r) (raft_trk r) (raft_state r) v
    (raft_msgs r) (raft_msgsAfterAppend r) (raft_lead r) (raft_leadTransferee r)
    (raft_pendingConfIndex r) (raft_disableConfChangeValidation r) (raft_uncommittedSize
    r) (raft_readOnly r) (raft_electionElapsed r) (raft_heartbeatElapsed r)
    (raft_checkQuorum r) (raft_preVote r) (raft_heartbeatTimeout r)
    (raft_electionTimeout r) (raft_randomizedElectionTimeout r)
    (raft_disableProposalForwarding r) (raft_stepDownOnRemoval r) (raft_tick r)
    (raft_step r) (raft_pendingReadIndexMessages r) (raft_rands r).

Definition set_raft_msgs {S} (v : list Message) (r : raft S) : raft S :=
  mkraft (raft_id r) (raft_Term r) (raft_Vote r) (raft_readStates r) (raft_raftLog r)
    (raft_maxMsgSize r) (raft_maxUncommittedSize r) (raft_trk r) (raft_state r)
    (raft_isLearner r) v (raft_msgsAfterAppend r) (raft_lead r) (raft_leadTransferee r)
    (raft_pendingConfIndex r) (raft_disableConfChangeValidation r) (raft_uncommittedSize
    r) (raft_readOnly r) (raft_electionElapsed r) (raft_heartbeatElapsed r)
    (raft_checkQuorum r) (raft_preVote r) (raft_heartbeatTimeout r)
    (raft_electionTimeout r) (raft_randomizedElectionTimeout r)
    (raft_disableProposalForwarding r) (raft_stepDownOnRemoval r) (raft_tick r)
    (raft_step r) (raft_pendingReadIndexMessages r) (raft_rands r).

Definition set_raft_msgsAfterAppend {S} (v : list Message) (r : raft S) : raft S :=
  mkraft (raft_id r) (raft_Term r) (raft_Vote r) (raft_readStates r) (raft_raftLog r)
    (raft_maxMsgSize r) (raft_maxUncommittedSize r) (raft_trk r) (raft_state r)
    (raft_isLearner r) (raft_msgs r) v (raft_lead r) (raft_leadTransferee r)
    (raft_pendingConfIndex r) (raft_disableConfChangeValidation r) (raft_uncommittedSize
    r) (raft_readOnly r) (raft_electionElapsed r) (raft_heartbeatElapsed r)
    (raft_checkQuorum r) (raft_preVote r) (raft_heartbeatTimeout r)
    (raft_electionTimeout r) (raft_randomizedElectionTimeout r)
    (raft_disableProposalForwarding r) (raft_stepDownOnRemoval r) (raft_tick r)
    (raft_step r) (raft_pendingReadIndexMessages r) (raft_rands r).

Definition set_raft_lead {S} (v : Z) (r : raft S) : raft S :=
  mkraft (raft_id r) (raft_Term r) (raft_Vote r) (raft_readStates r) (raft_raftLog r)
    (raft_maxMsgSize r) (raft_maxUncommittedSize r) (raft_trk r) (raft_state r)
    (raft_isLearner r) (raft_msgs r) (raft_msgsAfterAppend r) v (raft_leadTransferee r)
    (raft_pendingConfIndex r) (raft_disableConfChangeValidation r) (raft_uncommittedSize
    r) (raft_readOnly r) (raft_electionElapsed r) (raft_heartbeatElapsed r)
    (raft_checkQuorum r) (raft_preVote r) (raft_heartbeatTimeout r)
    (raft_electionTimeout r) (raft_randomizedElectionTimeout r)
    (raft_disableProposalForwarding r) (raft_stepDownOnRemoval r) (raft_tick r)
    (raft_step r) (raft_pendingReadIndexMessages r) (raft_rands r).

Definition set_raft_leadTransferee {S} (v : Z) (r : raft S) : raft S :=
  mkraft (raft_id r) (raft_Term r) (raft_Vote r) (raft_readStates r) (raft_raftLog r)
    (raft_maxMsgSize r) (raft_maxUncommittedSize r) (raft_trk r) (raft_state r)
    (raft_isLearner r) (raft_msgs r) (raft_msgsAfterAppend r) (raft_lead r) v
    (raft_pendingConfIndex r) (raft_disableConfChangeValidation r) (raft_uncommittedSize
    r) (raft_readOnly r) (raft_electionElapsed r) (raft_heartbeatElapsed r)
    (raft_checkQuorum r) (raft_preVote r) (raft_heartbeatTimeout r)
    (raft_electionTimeout r) (raft_randomizedElectionTimeout r)
    (raft_disableProposalForwarding r) (raft_stepDownOnRemoval r) (raft_tick r)
    (raft_step r) (raft_pendingReadIndexMessages r) (raft_rands r).

Definition set_raft_pendingConfIndex {S} (v : Z) (r : raft S) : raft S :=
  mkraft (raft_id r) (raft_Term r) (raft_Vote r) (raft_readStates r) (raft_raftLog r)
    (raft_maxMsgSize r) (raft_maxUncommittedSize r) (raft_trk r) (raft_state r)
    (raft_isLearner r) (raft_msgs r) (raft_msgsAfterAppend r) (raft_lead r)
    (raft_leadTransferee r) v (raft_disableConfChangeValidation r) (raft_uncommittedSize
    r) (raft_readOnly r) (raft_electionElapsed r) (raft_heartbeatElapsed r)
    (raft_checkQuorum r) (raft_preVote r) (raft_heartbeatTimeout r)
    (raft_electionTimeout r) (raft_randomizedElectionTimeout r)
    (raft_disableProposalForwarding r) (raft_stepDownOnRemoval r) (raft_tick r)
    (raft_step r) (raft_pendingReadIndexMessages r) (raft_rands r).

Definition set_raft_uncommittedSize {S} (v : Z) (r : raft S) : raft S :=
  mkraft (raft_id r) (raft_Term r) (raft_Vote r) (raft_readStates r) (raft_raftLog r)
    (raft_maxMsgSize r) (raft_maxUncommittedSize r) (raft_trk r) (raft_state r)
    (raft_isLearner r) (raft_msgs r) (raft_msgsAfterAppend r) (raft_lead r)
    (raft_leadTransferee r) (raft_pendingConfIndex r) (raft_disableConfChangeValidation
    r) v (raft_readOnly r) (raft_electionElapsed r) (raft_heartbeatElapsed r)
    (raft_checkQuorum r) (raft_preVote r) (raft_heartbeatTimeout r)
    (raft_electionTimeout r) (raft_randomizedElectionTimeout r)
    (raft_disableProposalForwarding r) (raft_stepDownOnRemoval r) (raft_tick r)
    (raft_step r) (raft_pendingReadIndexMessages r) (raft_rands r).

Definition set_raft_readOnly {S} (v : readOnly) (r : raft S) : raft S :=
  mkraft (raft_id r) (raft_Term r) (raft_Vote r) (raft_readStates r) (raft_raftLog r)
    (raft_maxMsgSize r) (raft_maxUncommittedSize r) (raft_trk r) (raft_state r)
    (raft_isLearner r) (raft_msgs r) (raft_msgsAfterAppend r) (raft_lead r)
    (raft_leadTransferee r) (raft_pendingConfIndex r) (raft_disableConfChangeValidation
    r) (raft_uncommittedSize r) v (raft_electionElapsed r) (raft_heartbeatElapsed r)
    (raft_checkQuorum r) (raft_preVote r) (raft_heartbeatTimeout r)
    (raft_electionTimeout r) (raft_randomizedElectionTimeout r)
    (raft_disableProposalForwarding r) (raft_stepDownOnRemoval r) (raft_tick r)
    (raft_step r) (raft_pendingReadIndexMessages r) (raft_rands r).

Definition set_raft_electionElapsed {S} (v : Z) (r : raft S) : raft S :=
  mkraft (raft_id r) (raft_Term r) (raft_Vote r) (raft_readStates r) (raft_raftLog r)
    (raft_maxMsgSize r) (raft_maxUncommittedSize r) (raft_trk r) (raft_state r)
    (raft_isLearner r) (raft_msgs r) (raft_msgsAfterAppend r) (raft_lead r)
    (raft_leadTransferee r) (raft_pendingConfIndex r) (raft_disableConfChangeValidation
    r) (raft_uncommittedSize r) (raft_readOnly r) v (raft_heartbeatElapsed r)
    (raft_checkQuorum r) (raft_preVote r) (raft_heartbeatTimeout r)
    (raft_electionTimeout r) (raft_randomizedElectionTimeout r)
    (raft_disableProposalForwarding r) (raft_stepDownOnRemoval r) (raft_tick r)
    (raft_step r) (raft_pendingReadIndexMessages r) (raft_rands r).

Definition set_raft_heartbeatElapsed {S} (v : Z) (r : raft S) : raft S :=
  mkraft (raft_id r) (raft_Term r) (raft_Vote r) (raft_readStates r) (raft_raftLog r)
    (raft_maxMsgSize r) (raft_maxUncommittedSize r) (raft_trk r) (raft_state r)
    (raft_isLearner r) (raft_msgs r) (raft_msgsAfterAppend r) (raft_lead r)
    (raft_leadTransferee r) (raft_pendingConfIndex r) (raft_disableConfChangeValidation
    r) (raft_uncommittedSize r) (raft_readOnly r) (raft_electionElapsed r) v
    (raft_checkQuorum r) (raft_preVote r) (raft_heartbeatTimeout r)
    (raft_electionTimeout r) (raft_randomizedElectionTimeout r)
    (raft_disableProposalForwarding r) (raft_stepDownOnRemoval r) (raft_tick r)
    (raft_step r) (raft_pendingReadIndexMessages r) (raft_rands r).

Definition set_raft_randomizedElectionTimeout {S} (v : Z) (r : raft S) : raft S :=
  mkraft (raft_id r) (raft_Term r) (raft_Vote r) (raft_readStates r) (raft_raftLog r)
    (raft_maxMsgSize r) (raft_maxUncommittedSize r) (raft_trk r) (raft_state r)
    (raft_isLearner r) (raft_msgs r) (raft_msgsAfterAppend r) (raft_lead r)
    (raft_leadTransferee r) (raft_pendingConfIndex r) (raft_disableConfChangeValidation
    r) (raft_uncommittedSize r) (raft_readOnly r) (raft_electionElapsed r)
    (raft_heartbeatElapsed r) (raft_checkQuorum r) (raft_preVote r)
    (raft_heartbeatTimeout r) (raft_electionTimeout r) v (raft_disableProposalForwarding
    r) (raft_stepDownOnRemoval r) (raft_tick r) (raft_step r)
    (raft_pendingReadIndexMessages r) (raft_rands r).

Definition set_raft_tick {S} (v : tickFunc) (r : raft S) : raft S :=
  mkraft (raft_id r) (raft_Term r) (raft_Vote r) (raft_readStates r) (raft_raftLog r)
    (raft_maxMsgSize r) (raft_maxUncommittedSize r) (raft_trk r) (raft_state r)
    (raft_isLearner r) (raft_msgs r) (raft_msgsAfterAppend r) (raft_lead r)
    (raft_leadTransferee r) (raft_pendingConfIndex r) (raft_disableConfChangeValidation
    r) (raft_uncommittedSize r) (raft_readOnly r) (raft_electionElapsed r)
    (raft_heartbeatElapsed r) (raft_checkQuorum r) (raft_preVote r)
    (raft_heartbeatTimeout r) (raft_electionTimeout r) (raft_randomizedElectionTimeout
    r) (raft_disableProposalForwarding r) (raft_stepDownOnRemoval r) v (raft_step r)
    (raft_pendingReadIndexMessages r) (raft_rands r).

Definition set_raft_step {S} (v : stepFunc) (r : raft S) : raft S :=
  mkraft (raft_id r) (raft_Term r) (raft_Vote r) (raft_readStates r) (raft_raftLog r)
    (raft_maxMsgSize r) (raft_maxUncommittedSize r) (raft_trk r) (raft_state r)
    (raft_isLearner r) (raft_msgs r) (raft_msgsAfterAppend r) (raft_lead r)
    (raft_leadTransferee r) (raft_pendingConfIndex r) (raft_disableConfChangeValidation
    r) (raft_uncommittedSize r) (raft_readOnly r) (raft_electionElapsed r)
    (raft_heartbeatElapsed r) (raft_checkQuorum r) (raft_preVote r)
    (raft_heartbeatTimeout r) (raft_electionTimeout r) (raft_randomizedElectionTimeout
    r) (raft_disableProposalForwarding r) (raft_stepDownOnRemoval r) (raft_tick r) v
    (raft_pendingReadIndexMessages r) (raft_rands r).

Definition set_raft_pendingReadIndexMessages {S} (v : list Message) (r : raft S) : raft S :=
  mkraft (raft_id r) (raft_Term r) (raft_Vote r) (raft_readStates r) (raft_raftLog r)
    (raft_maxMsgSize r) (raft_maxUncommittedSize r) (raft_trk r) (raft_state r)
    (raft_isLearner r) (raft_msgs r) (raft_msgsAfterAppend r) (raft_lead r)
    (raft_leadTransferee r) (raft_pendingConfIndex r) (raft_disableConfChangeValidation
    r) (raft_uncommittedSize r) (raft_readOnly r) (raft_electionElapsed r)
    (raft_heartbeatElapsed r) (raft_checkQuorum r) (raft_preVote r)
    (raft_heartbeatTimeout r) (raft_electionTimeout r) (raft_randomizedElectionTimeout
    r) (raft_disableProposalForwarding r) (raft_stepDownOnRemoval r) (raft_tick r)
    (raft_step r) v (raft_rands r).

Definition set_raft_rands {S} (v : list Z) (r : raft S) : raft S :=
  mkraft (raft_id r) (raft_Term r) (raft_Vote r) (raft_readStates r) (raft_raftLog r)
    (raft_maxMsgSize r) (raft_maxUncommittedSize r) (raft_trk r) (raft_state r)
    (raft_isLearner r) (raft_msgs r) (raft_msgsAfterAppend r) (raft_lead r)
    (raft_leadTransferee r) (raft_pendingConfIndex r) (raft_disableConfChangeValidation
    r) (raft_uncommittedSize r) (raft_readOnly r) (raft_electionElapsed r)
    (raft_heartbeatElapsed r) (raft_checkQuorum r) (raft_preVote r)
    (raft_heartbeatTimeout r) (raft_electionTimeout r) (raft_randomizedElectionTimeout
    r) (raft_disableProposalForwarding r) (raft_stepDownOnRemoval r) (raft_tick r)
    (raft_step r) (raft_pendingReadIndexMessages r) v.


(** ** A state monad for the methods of [raft]

    A method reads and updates the node and may panic. *)

Definition RM (S A : Type) : Type := raft S → outcome (A * raft S).

#[export] Instance RM_ret S : MRet (RM S) := fun A a r => Ok (a, r).
#[export] Instance RM_bind S : MBind (RM S) :=
  fun A B f m r => match m r with Ok (a, r) => f a r | Panic w => Panic w end.

Section monad.
Context {S : Type}.

Definition get : RM S (raft S) := fun r => Ok (r, r).

Definition gets {A} (f : raft S → A) : RM S A := fun r => Ok (f r, r).

Definition modify (f : raft S → raft S) : RM S unit := fun r => Ok (tt, f r).

Definition lift {A} (o : outcome A) : RM S A := fun r => a ← o; Ok (a, r).

Definition panic {A} (why : string) : RM S A := fun _ => Panic why.

Definition when (b : bool) (m : RM S unit) : RM S unit := if b then m else mret tt.

Fixpoint for_each {A} (f : A → RM S unit) (l : list A) : RM S unit :=
  match l with
  | [] => mret tt
  | a :: l => _ ← f a; for_each f l
  end.

(** The progress of a member; dereferencing a nil pointer panics. *)
Definition get_pr (id : Z) : RM S Progress :=
  r ← get;
  match ProgressTracker_Progress (raft_trk r) !! id with
  | Some pr => mret pr
  | None => panic "nil pointer dereference"
  end.

Definition put_pr (id : Z) (pr : Progress) : RM S unit :=
  modify (fun r => set_raft_trk (set_ProgressTracker_Progress
                                   (<[id := pr]> (ProgressTracker_Progress (raft_trk r))) (raft_trk r)) r).

Definition modify_pr (id : Z) (f : Progress → Progress) : RM S unit :=
  pr ← get_pr id; put_pr id (f pr).

(** A method of the log that updates it. *)
Definition on_log {A} (f : raftLog S → outcome (A * raftLog S)) : RM S A :=
  r ← get;
  x ← lift (f (raft_raftLog r));
  _ ← modify (set_raft_raftLog x.2);
  mret x.1.

Definition on_log_ (f : raftLog S → outcome (raftLog S)) : RM S unit :=
  r ← get;
  l ← lift (f (raft_raftLog r));
  modify (set_raft_raftLog l).

(** [r.trk.Visit] with a closure that works on the node. *)
Definition visit (f : Z → RM S unit) : RM S unit :=
  r ← get; for_each f (Visit_ids (raft_trk r)).

End monad.

(** ** Small methods *)

Section raft_ops.
Context {S : Type} `{Protobuf} `{!Storage S}.

Definition raft_hasLeader (r : raft S) : bool := negb (raft_lead r =? None_id).

Definition raft_hardState (r : raft S) : HardState :=
  mkHardState (Some (raft_Term r)) (Some (raft_Vote r)) (Some (raftLog_committed (raft_raftLog r))).

Definition raft_promotable (r : raft S) : bool :=
  match ProgressTracker_Progress (raft_trk r) !! raft_id r with
  | Some pr => negb (Progress_IsLearner pr) && negb (raftLog_hasNextOrInProgressSnapshot (raft_raftLog r))
  | None => false
  end.

Definition raft_pastElectionTimeout (r : raft S) : bool :=
  raft_randomizedElectionTimeout r <=? raft_electionElapsed r.

(** [globalRand.Intn(n)] draws the next number of the tape. *)
Definition Intn (n : Z) : RM S Z :=
  r ← get;
  _ ← modify (set_raft_rands (tail (raft_rands r)));
  mret (default 0 (head (raft_rands r)) mod n).

Definition raft_resetRandomizedElectionTimeout : RM S unit :=
  r ← get;
  v ← Intn (raft_electionTimeout r);
  modify (set_raft_randomizedElectionTimeout (raft_electionTimeout r + v)).

Definition raft_abortLeaderTransfer : RM S unit := modify (set_raft_leadTransferee None_id).

Definition raft_committedEntryInCurrentTerm : RM S bool :=
  r ← get;
  t ← lift (raftLog_term (raft_raftLog r) (raftLog_committed (raft_raftLog r)));
  t ← lift (raftLog_zeroTermOnOutOfBounds t);
  mret (t =? raft_Term r).

Definition raft_increaseUncommittedSize (ents : list Entry) : RM S bool :=
  r ← get;
  let s := payloadsSize ents in
  if (0 <? raft_uncommittedSize r) && (0 <? s)
     && (raft_maxUncommittedSize r <? raft_uncommittedSize r +! s)
  then mret false
  else _ ← modify (set_raft_uncommittedSize (raft_uncommittedSize r +! s)); mret true.

Definition raft_reduceUncommittedSize (s : Z) : RM S unit :=
  r ← get;
  if raft_uncommittedSize r <? s then modify (set_raft_uncommittedSize 0)
  else modify (set_raft_uncommittedSize (raft_uncommittedSize r -! s)).

Definition raft_loadState (state : HardState) : RM S unit :=
  r ← get;
  let commit := HardState_GetCommit (Some state) in
  last ← lift (raftLog_lastIndex (raft_raftLog r));
  if (commit <? raftLog_committed (raft_raftLog r)) || (last <? commit)
  then panic "state.commit is out of range"
  else
    _ ← modify (fun r => set_raft_raftLog (set_raftLog_committed commit (raft_raftLog r)) r);
    _ ← modify (set_raft_Term (HardState_GetTerm (Some state)));
    modify (set_raft_Vote (HardState_GetVote (Some state))).

(** ** Sending *)

Definition is_vote_type (t : MessageType) : bool :=
  match t with MsgVote | MsgVoteResp | MsgPreVote | MsgPreVoteResp => true | _ => false end.

(** Responses that have to wait until the state they rest on is durable. *)
Definition waits_for_append (t : MessageType) : bool :=
  match t with MsgAppResp | MsgVoteResp | MsgPreVoteResp => true | _ => false end.

Definition raft_send (m : Message) : RM S unit :=
  r ← get;
  let m := if Message_GetFrom m =? None_id then set_Message_From (Some (raft_id r)) m else m in
  let t := Message_GetType m in
  m ← (if is_vote_type t then
         if Message_GetTerm m =? 0 then panic "term should be set when sending" else mret m
       else if negb (Message_GetTerm m =? 0) then panic "term should not be set when sending"
       else if negb (mt_eqb t MsgProp) && negb (mt_eqb t MsgReadIndex)
       then mret (set_Message_Term (Some (raft_Term r)) m)
       else mret m);
  if waits_for_append t then
    modify (fun r => set_raft_msgsAfterAppend (raft_msgsAfterAppend r ++ [m]) r)
  else if Message_GetTo m =? raft_id r then panic "message should not be self-addressed when sending"
  else modify (fun r => set_raft_msgs (raft_msgs r ++ [m]) r).

Definition raft_maybeSendSnapshot (to : Z) : RM S bool :=
  pr ← get_pr to;
  if negb (Progress_RecentActive pr) then mret false
  else
    r ← get;
    match raftLog_snapshot (raft_raftLog r) with
    | Err ErrSnapshotTemporarilyUnavailable => mret false
    | Err _ => panic "snapshot"
    | Val snapshot =>
        if IsEmptySnap (Some snapshot) then panic "need non-empty snapshot"
        else
          let sindex := snap_index (Some snapshot) in
          _ ← lift (raftLog_firstIndex (raft_raftLog r));
          _ ← put_pr to (Progress_BecomeSnapshot sindex pr);
          _ ← raft_send (set_Message_Snapshot (Some snapshot) (Msg MsgSnap (Some to)));
          mret true
    end.

Definition raft_maybeSendAppend (to : Z) (sendIfEmpty : bool) : RM S bool :=
  pr ← get_pr to;
  if Progress_IsPaused pr then mret false
  else
    r ← get;
    let prevIndex := Progress_Next pr -! 1 in
    t ← lift (raftLog_term (raft_raftLog r) prevIndex);
    match t with
    | Err _ => raft_maybeSendSnapshot to
    | Val prevTerm =>
        ents ← (if negb (ps_eqb (Progress_State pr) StateReplicate)
                   || negb (Inflights_Full (Progress_Inflights pr))
                then lift (raftLog_entries (raft_raftLog r) (Progress_Next pr) (raft_maxMsgSize r))
                else mret (Val []));
        let ents_ := match ents with Val ents => ents | Err _ => [] end in
        if (len ents_ =? 0) && negb sendIfEmpty then mret false
        else
          match ents with
          | Err _ => raft_maybeSendSnapshot to
          | Val ents =>
              let committed := raftLog_committed (raft_raftLog r) in
              _ ← raft_send (set_Message_Index (Some prevIndex)
                     (set_Message_LogTerm (Some prevTerm)
                     (set_Message_Entries ents
                     (set_Message_Commit (Some committed) (Msg MsgApp (Some to))))));
              pr ← lift (Progress_SentEntries (len ents) (payloadsSize ents) pr);
              _ ← put_pr to (Progress_SentCommit committed pr);
              mret true
          end
    end.

Definition raft_sendAppend (to : Z) : RM S unit :=
  _ ← raft_maybeSendAppend to true; mret tt.

Definition raft_sendHeartbeat (to : Z) (ctx : option bytes) : RM S unit :=
  pr ← get_pr to;
  r ← get;
  let commit := Z.min (Progress_Match pr) (raftLog_committed (raft_raftLog r)) in
  _ ← raft_send (set_Message_Commit (Some commit)
         (set_Message_Context ctx (Msg MsgHeartbeat (Some to))));
  put_pr to (Progress_SentCommit commit pr).

Definition raft_bcastAppend : RM S unit :=
  visit (fun id => r ← get; if id =? raft_id r then mret tt else raft_sendAppend id).

Definition raft_bcastHeartbeatWithCtx (ctx : option bytes) : RM S unit :=
  visit (fun id => r ← get; if id =? raft_id r then mret tt else raft_sendHeartbeat id ctx).

Definition raft_bcastHeartbeat : RM S unit :=
  r ← get; raft_bcastHeartbeatWithCtx (readOnly_heartbeatCtx (raft_readOnly r)).

Definition raft_sendTimeoutNow (to : Z) : RM S unit := raft_send (Msg MsgTimeoutNow (Some to)).

(** ** Log *)

Definition raft_maybeCommit : RM S bool :=
  r ← get;
  on_log (raftLog_maybeCommit (mkentryID (raft_Term r) (ProgressTracker_Committed (raft_trk r)))).

(** The clones made by [appendEntry], from index [i] on. *)
Fixpoint clone_entries (term i : Z) (es : list Entry) : list Entry :=
  match es with
  | [] => []
  | e :: es => set_Entry_Index (Some i) (set_Entry_Term (Some term) e) :: clone_entries term (i +! 1) es
  end.

Definition raft_appendEntry (es : list Entry) : RM S bool :=
  r ← get;
  li ← lift (raftLog_lastIndex (raft_raftLog r));
  let cloned := clone_entries (raft_Term r) (li +! 1) es in
  ok ← raft_increaseUncommittedSize cloned;
  if negb ok then mret false
  else
    li ← on_log (raftLog_append cloned);
    _ ← raft_send (set_Message_Index (Some li) (Msg MsgAppResp (Some (raft_id r))));
    mret true.

(** ** Roles *)

(** The closure that [reset] runs on every progress. *)
Definition reset_progress (id : Z) : RM S unit :=
  r ← get;
  pr ← get_pr id;
  last ← lift (raftLog_lastIndex (raft_raftLog r));
  put_pr id (mkProgress (if id =? raft_id r then last else 0) (last +! 1) 0 StateProbe 0 false false
               (NewInflights (ProgressTracker_MaxInflight (raft_trk r))
                  (ProgressTracker_MaxInflightBytes (raft_trk r)))
               (Progress_IsLearner pr)).

Definition raft_reset (term : Z) : RM S unit :=
  r ← get;
  _ ← when (negb (raft_Term r =? term))
        (_ ← modify (set_raft_Term term); modify (set_raft_Vote None_id));
  _ ← modify (set_raft_lead None_id);
  _ ← modify (set_raft_electionElapsed 0);
  _ ← modify (set_raft_heartbeatElapsed 0);
  _ ← raft_resetRandomizedElectionTimeout;
  _ ← raft_abortLeaderTransfer;
  _ ← modify (fun r => set_raft_trk (ProgressTracker_ResetVotes (raft_trk r)) r);
  _ ← visit reset_progress;
  _ ← modify (set_raft_pendingConfIndex 0);
  _ ← modify (set_raft_uncommittedSize 0);
  modify (fun r => set_raft_readOnly (newReadOnly (readOnly_option (raft_readOnly r))) r).

Definition raft_becomeFollower (term lead : Z) : RM S unit :=
  _ ← modify (set_raft_step stepFollower_f);
  _ ← raft_reset term;
  _ ← modify (set_raft_tick tickElection_f);
  _ ← modify (set_raft_lead lead);
  modify (set_raft_state StateFollower).

Definition raft_becomeCandidate : RM S unit :=
  r ← get;
  if st_eqb (raft_state r) StateLeader then panic "invalid transition [leader -> candidate]"
  else
    _ ← modify (set_raft_step stepCandidate_f);
    _ ← raft_reset (raft_Term r +! 1);
    _ ← modify (set_raft_tick tickElection_f);
    _ ← modify (set_raft_Vote (raft_id r));
    modify (set_raft_state StateCandidate).

Definition raft_becomePreCandidate : RM S unit :=
  r ← get;
  if st_eqb (raft_state r) StateLeader then panic "invalid transition [leader -> pre-candidate]"
  else
    _ ← modify (set_raft_step stepCandidate_f);
    _ ← modify (fun r => set_raft_trk (ProgressTracker_ResetVotes (raft_trk r)) r);
    _ ← modify (set_raft_tick tickElection_f);
    _ ← modify (set_raft_lead None_id);
    modify (set_raft_state StatePreCandidate).

Definition raft_becomeLeader : RM S unit :=
  r ← get;
  if st_eqb (raft_state r) StateFollower then panic "invalid transition [follower -> leader]"
  else
    _ ← modify (set_raft_step stepLeader_f);
    _ ← raft_reset (raft_Term r);
    _ ← modify (set_raft_tick tickHeartbeat_f);
    _ ← modify (set_raft_lead (raft_id r));
    _ ← modify (set_raft_state StateLeader);
    _ ← modify_pr (raft_id r) (fun pr => set_Progress_RecentActive true (Progress_BecomeReplicate pr));
    r ← get;
    last ← lift (raftLog_lastIndex (raft_raftLog r));
    _ ← modify (set_raft_pendingConfIndex last);
    ok ← raft_appendEntry [Entry0];
    if negb ok then panic "empty entry was dropped" else mret tt.

(** ** Elections *)

Definition has_conf_change (ents : list Entry) : bool :=
  existsb (fun e => match Entry_GetType e with
                    | EntryConfChange | EntryConfChangeV2 => true
                    | EntryNormal => false end) ents.

Definition raft_hasUnappliedConfChanges : RM S bool :=
  r ← get;
  let l := raft_raftLog r in
  if raftLog_committed l <=? raftLog_applied l then mret false
  else
    res ← lift (raftLog_scan l (raftLog_applied l +! 1) (raftLog_committed l +! 1)
                  (raftLog_maxApplyingEntsSize l)
                  (fun ents found => if has_conf_change ents then (true, Some errBreak) else (found, None))
                  false);
    match res with
    | (found, None) => mret found
    | (found, Some errBreak) => mret found
    | (_, Some _) => panic "error scanning unapplied entries"
    end.

(** [[]byte(campaignTransfer)] *)
Definition campaignTransfer_bytes : bytes := String.list_byte_of_string "CampaignTransfer".

(** The body of the loop of [campaign] over the voters. *)
Definition campaign_send (t : CampaignType) (term : Z) (voteMsg : MessageType) (id : Z) : RM S unit :=
  r ← get;
  if id =? raft_id r then
    resp ← lift (voteRespMsgType voteMsg);
    raft_send (set_Message_Term (Some term) (Msg resp (Some id)))
  else
    last ← lift (raftLog_lastEntryID (raft_raftLog r));
    let ctx := match t with campaignTransfer => Some campaignTransfer_bytes | _ => None end in
    raft_send (set_Message_Term (Some term) (set_Message_Index (Some (entryID_index last))
      (set_Message_LogTerm (Some (entryID_term last)) (set_Message_Context ctx (Msg voteMsg (Some id)))))).

Definition raft_campaign (t : CampaignType) : RM S unit :=
  tv ← match t with
       | campaignPreElection =>
           _ ← raft_becomePreCandidate;
           r ← get; mret (raft_Term r +! 1, MsgPreVote)
       | _ =>
           _ ← raft_becomeCandidate;
           r ← get; mret (raft_Term r, MsgVote)
       end;
  r ← get;
  let ids := sort64 (elements (JointConfig_IDs (ProgressTracker_Voters (raft_trk r)))) in
  for_each (campaign_send t tv.1 tv.2) ids.

Definition raft_hup (t : CampaignType) : RM S unit :=
  r ← get;
  if st_eqb (raft_state r) StateLeader then mret tt
  else if negb (raft_promotable r) then mret tt
  else
    pending ← raft_hasUnappliedConfChanges;
    if (pending : bool) then mret tt else raft_campaign t.

Definition raft_poll (id : Z) (v : bool) : RM S (Z * Z * VoteResult) :=
  _ ← modify (fun r => set_raft_trk (ProgressTracker_RecordVote id v (raft_trk r)) r);
  r ← get;
  mret (ProgressTracker_TallyVotes (raft_trk r)).

(** ** Reads *)

(** The returned message has no receiver when the request was local. *)
Definition raft_responseToReadIndexReq (req : Message) (readIndex : Z) : RM S Message :=
  r ← get;
  if (Message_GetFrom req =? None_id) || (Message_GetFrom req =? raft_id r) then
    e ← lift (go_index (Message_GetEntries req) 0);
    _ ← modify (fun r => set_raft_readStates (raft_readStates r ++ [mkReadState readIndex (Entry_Data e)]) r);
    mret Message0
  else
    mret (set_Message_Index (Some readIndex)
            (set_Message_Entries (Message_GetEntries req) (Msg MsgReadIndexResp (Message_From req)))).

Definition answer_read (req : Message) (readIndex : Z) : RM S unit :=
  resp ← raft_responseToReadIndexReq req readIndex;
  if negb (Message_GetTo resp =? None_id) then raft_send resp else mret tt.

Definition sendMsgReadIndexResponse (m : Message) : RM S unit :=
  r ← get;
  match readOnly_option (raft_readOnly r) with
  | ReadOnlySafe =>
      let ro := readOnly_addRequest (raftLog_committed (raft_raftLog r)) m (raft_readOnly r) in
      ro ← lift (readOnly_recvAck (raft_id r) (readOnly_heartbeatCtx ro) ro);
      _ ← modify (set_raft_readOnly ro);
      raft_bcastHeartbeat
  | ReadOnlyLeaseBased => answer_read m (raftLog_committed (raft_raftLog r))
  end.

Definition releasePendingReadIndexMessages : RM S unit :=
  r ← get;
  if len (raft_pendingReadIndexMessages r) =? 0 then mret tt
  else
    ok ← raft_committedEntryInCurrentTerm;
    if negb ok then mret tt
    else
      let msgs := raft_pendingReadIndexMessages r in
      _ ← modify (set_raft_pendingReadIndexMessages []);
      for_each sendMsgReadIndexResponse msgs.

End raft_ops.

