(* ===== verification/RaftStep.v ===== *)
(** * The consensus state machine: message handlers (src/raft.go)

    Configuration switching, the handlers of the three roles, [Step], the
    ticks and the construction of a node. *)
From S2P Require Import Prelude Proto Quorum Inflights Progress Tracker Util Storage.
From S2P Require Import Unstable Log ConfChange ReadOnly Raft.

Section handlers.
Context {S : Type} `{Protobuf} `{!Storage S}.

(** ** Configuration *)

Definition raft_switchToConfig (cfg : Config) (trk : ProgressMap) : RM S ConfState :=
  _ ← modify (fun r => set_raft_trk (set_ProgressTracker_Progress trk
                         (set_ProgressTracker_Config cfg (raft_trk r))) r);
  r ← get;
  let cs := ProgressTracker_ConfState (raft_trk r) in
  let pr := ProgressTracker_Progress (raft_trk r) !! raft_id r in
  let ok := match pr with Some _ => true | None => false end in
  _ ← modify (set_raft_isLearner (match pr with Some pr => Progress_IsLearner pr | None => false end));
  r ← get;
  if (negb ok || raft_isLearner r) && st_eqb (raft_state r) StateLeader then
    _ ← when (raft_stepDownOnRemoval r) (raft_becomeFollower (raft_Term r) None_id);
    mret cs
  else if negb (st_eqb (raft_state r) StateLeader) || (len (ConfState_Voters cs) =? 0) then mret cs
  else
    changed ← raft_maybeCommit;
    _ ← (if (changed : bool) then raft_bcastAppend
         else visit (fun id => r ← get;
                if id =? raft_id r then mret tt
                else _ ← raft_maybeSendAppend id false; mret tt));
    r ← get;
    _ ← when (negb (bool_decide (raft_leadTransferee r ∈ JointConfig_IDs (ProgressTracker_Voters (raft_trk r))))
              && negb (raft_leadTransferee r =? 0)) raft_abortLeaderTransfer;
    mret cs.

Definition raft_applyConfChange (cc : ConfChangeV2) : RM S ConfState :=
  r ← get;
  last ← lift (raftLog_lastIndex (raft_raftLog r));
  let changer := mkChanger (raft_trk r) last in
  res ← (if ConfChangeV2_LeaveJoint cc then lift (Changer_LeaveJoint changer)
         else
           ej ← lift (ConfChangeV2_EnterJoint cc);
           if (ej.2 : bool) then lift (Changer_EnterJoint changer ej.1 (ConfChangeV2_Changes cc))
           else lift (Changer_Simple changer (ConfChangeV2_Changes cc)));
  match res with
  | Err _ => panic "applyConfChange"
  | Val (cfg, trk) => raft_switchToConfig cfg trk
  end.

(** ** Followers *)

Definition logSliceFromMsgApp (m : Message) : logSlice :=
  mklogSlice (Message_GetTerm m) (mkentryID (Message_GetLogTerm m) (Message_GetIndex m))
    (Message_GetEntries m).

Definition raft_handleAppendEntries (m : Message) : RM S unit :=
  r ← get;
  let a := logSliceFromMsgApp m in
  let resp := Msg MsgAppResp (Message_From m) in
  if entryID_index (logSlice_prev a) <? raftLog_committed (raft_raftLog r) then
    raft_send (set_Message_Index (Some (raftLog_committed (raft_raftLog r))) resp)
  else
    res ← on_log (raftLog_maybeAppend a (Message_GetCommit m));
    match res with
    | Some mlastIndex => raft_send (set_Message_Index (Some mlastIndex) resp)
    | None =>
        r ← get;
        t ← lift (raftLog_term (raft_raftLog r) (Message_GetIndex m));
        _ ← lift (raftLog_zeroTermOnOutOfBounds t);
        last ← lift (raftLog_lastIndex (raft_raftLog r));
        hint ← lift (raftLog_findConflictByTerm (raft_raftLog r) (Z.min (Message_GetIndex m) last)
                       (Message_GetLogTerm m));
        raft_send (set_Message_Index (Some (Message_GetIndex m)) (set_Message_Reject (Some true)
          (set_Message_RejectHint (Some hint.1) (set_Message_LogTerm (Some hint.2) resp))))
    end.

Definition raft_handleHeartbeat (m : Message) : RM S unit :=
  _ ← on_log_ (raftLog_commitTo (Message_GetCommit m));
  raft_send (set_Message_Context (Message_GetContext m) (Msg MsgHeartbeatResp (Message_From m))).

Definition raft_restore (s : Snapshot) : RM S bool :=
  r ← get;
  let sindex := snap_index (Some s) in
  if sindex <=? raftLog_committed (raft_raftLog r) then mret false
  else if negb (st_eqb (raft_state r) StateFollower) then
    _ ← raft_becomeFollower (raft_Term r +! 1) None_id;
    mret false
  else
    let cs := EnsureConfState (SnapshotMetadata_GetConfState (Snapshot_GetMetadata (Some s))) in
    let found := existsb (Z.eqb (raft_id r))
                   (ConfState_Voters cs ++ ConfState_Learners cs ++ ConfState_VotersOutgoing cs) in
    if negb found then mret false
    else
      let id := mkentryID (snap_term (Some s)) sindex in
      m ← lift (raftLog_matchTerm id (raft_raftLog r));
      if (m : bool) then
        _ ← lift (raftLog_lastEntryID (raft_raftLog r));
        _ ← on_log_ (raftLog_commitTo sindex);
        mret false
      else
        _ ← modify (fun r => set_raft_raftLog (raftLog_restore s (raft_raftLog r)) r);
        _ ← modify (fun r => set_raft_trk (MakeProgressTracker (ProgressTracker_MaxInflight (raft_trk r))
                                 (ProgressTracker_MaxInflightBytes (raft_trk r))) r);
        r ← get;
        last ← lift (raftLog_lastIndex (raft_raftLog r));
        res ← lift (Restore (mkChanger (raft_trk r) last) cs);
        match res with
        | Err _ => panic "unable to restore config"
        | Val (cfg, trk) =>
            cs' ← raft_switchToConfig cfg trk;
            if negb (ConfState_Equivalent cs cs') then panic "ConfStates not equivalent"
            else
              r ← get;
              _ ← lift (raftLog_lastEntryID (raft_raftLog r));
              mret true
        end.

Definition raft_handleSnapshot (m : Message) : RM S unit :=
  let s := EnsureSnapshot (Message_GetSnapshot m) in
  ok ← raft_restore s;
  r ← get;
  let resp := Msg MsgAppResp (Message_From m) in
  if (ok : bool) then
    last ← lift (raftLog_lastIndex (raft_raftLog r));
    raft_send (set_Message_Index (Some last) resp)
  else raft_send (set_Message_Index (Some (raftLog_committed (raft_raftLog r))) resp).

Definition forward_to_leader (m : Message) : RM S unit :=
  r ← get; raft_send (set_Message_To (Some (raft_lead r)) m).

(** What a follower does first with a message of its leader. *)
Definition hear_leader (m : Message) : RM S unit :=
  _ ← modify (set_raft_electionElapsed 0);
  modify (set_raft_lead (Message_GetFrom m)).

Definition stepFollower (m : Message) : RM S (option error) :=
  r ← get;
  match Message_GetType m with
  | MsgProp =>
      if raft_lead r =? None_id then mret (Some ErrProposalDropped)
      else if raft_disableProposalForwarding r then mret (Some ErrProposalDropped)
      else _ ← forward_to_leader m; mret None
  | MsgApp => _ ← hear_leader m; _ ← raft_handleAppendEntries m; mret None
  | MsgHeartbeat => _ ← hear_leader m; _ ← raft_handleHeartbeat m; mret None
  | MsgSnap => _ ← hear_leader m; _ ← raft_handleSnapshot m; mret None
  | MsgTransferLeader =>
      if raft_lead r =? None_id then mret None
      else _ ← forward_to_leader m; mret None
  | MsgForgetLeader =>
      match readOnly_option (raft_readOnly r) with
      | ReadOnlyLeaseBased => mret None
      | ReadOnlySafe =>
          _ ← when (negb (raft_lead r =? None_id)) (modify (set_raft_lead None_id)); mret None
      end
  | MsgTimeoutNow => _ ← raft_hup campaignTransfer; mret None
  | MsgReadIndex =>
      if raft_lead r =? None_id then mret None
      else _ ← forward_to_leader m; mret None
  | MsgReadIndexResp =>
      match Message_GetEntries m with
      | [e] =>
          _ ← modify (fun r => set_raft_readStates
                (raft_readStates r ++ [mkReadState (Message_GetIndex m) (Entry_Data e)]) r);
          mret None
      | _ => mret None
      end
  | _ => mret None
  end.

(** ** Candidates *)

Definition stepCandidate_vote (m : Message) : RM S unit :=
  res ← raft_poll (Message_GetFrom m) (negb (Message_GetReject m));
  r ← get;
  match res.2 with
  | VoteWon =>
      if st_eqb (raft_state r) StatePreCandidate then raft_campaign campaignElection
      else _ ← raft_becomeLeader; raft_bcastAppend
  | VoteLost => raft_becomeFollower (raft_Term r) None_id
  | VotePending => mret tt
  end.

Definition stepCandidate (m : Message) : RM S (option error) :=
  r ← get;
  let follow := raft_becomeFollower (Message_GetTerm m) (Message_GetFrom m) in
  match Message_GetType m with
  | MsgProp => mret (Some ErrProposalDropped)
  | MsgApp => _ ← follow; _ ← raft_handleAppendEntries m; mret None
  | MsgHeartbeat => _ ← follow; _ ← raft_handleHeartbeat m; mret None
  | MsgSnap => _ ← follow; _ ← raft_handleSnapshot m; mret None
  | MsgVoteResp =>
      if st_eqb (raft_state r) StatePreCandidate then mret None
      else _ ← stepCandidate_vote m; mret None
  | MsgPreVoteResp =>
      if st_eqb (raft_state r) StatePreCandidate then _ ← stepCandidate_vote m; mret None
      else mret None
  | _ => mret None
  end.

(** ** Leaders *)

Definition stepLeader_CheckQuorum : RM S unit :=
  r ← get;
  _ ← when (negb (ProgressTracker_QuorumActive (raft_trk r))) (raft_becomeFollower (raft_Term r) None_id);
  visit (fun id => r ← get;
           if negb (id =? raft_id r) then modify_pr id (set_Progress_RecentActive false) else mret tt).

(** The configuration change that a proposed entry carries. *)
Definition entry_conf_change (e : Entry) : outcome (option ConfChangeI) :=
  match Entry_GetType e with
  | EntryConfChange =>
      match Unmarshal_ConfChange (Entry_GetData e) with
      | Some c => Ok (Some (CC1 c))
      | None => Panic "Unmarshal"
      end
  | EntryConfChangeV2 =>
      match Unmarshal_ConfChangeV2 (Entry_GetData e) with
      | Some c => Ok (Some (CC2 c))
      | None => Panic "Unmarshal"
      end
  | EntryNormal => Ok None
  end.

(** Entry [i] of a proposal: a configuration change that is not acceptable now
    is replaced by an empty entry, an accepted one is remembered as pending. *)
Definition check_prop_entry (i : Z) (e : Entry) : RM S Entry :=
  r ← get;
  cc ← lift (entry_conf_change e);
  match cc with
  | None => mret e
  | Some cc =>
      let alreadyPending := raftLog_applied (raft_raftLog r) <? raft_pendingConfIndex r in
      let alreadyJoint := negb (Nat.eqb (size (gs (outgoing (ProgressTracker_Config (raft_trk r))))) 0) in
      let wantsLeaveJoint := len (ConfChangeV2_Changes (AsV2 cc)) =? 0 in
      let failedCheck := alreadyPending || (alreadyJoint && negb wantsLeaveJoint)
                         || (negb alreadyJoint && wantsLeaveJoint) in
      if failedCheck && negb (raft_disableConfChangeValidation r)
      then mret (mkEntry None None (Some EntryNormal) None)
      else
        last ← lift (raftLog_lastIndex (raft_raftLog r));
        _ ← modify (set_raft_pendingConfIndex (last +! i +! 1));
        mret e
  end.

Fixpoint check_prop_entries (i : Z) (es : list Entry) : RM S (list Entry) :=
  match es with
  | [] => mret []
  | e :: es =>
      e ← check_prop_entry i e;
      es ← check_prop_entries (i + 1) es;
      mret (e :: es)
  end.

Definition stepLeader_Prop (m : Message) : RM S (option error) :=
  r ← get;
  if len (Message_GetEntries m) =? 0 then panic "stepped empty MsgProp"
  else match ProgressTracker_Progress (raft_trk r) !! raft_id r with
  | None => mret (Some ErrProposalDropped)
  | Some _ =>
      if negb (raft_leadTransferee r =? None_id) then mret (Some ErrProposalDropped)
      else
        es ← check_prop_entries 0 (Message_GetEntries m);
        ok ← raft_appendEntry es;
        if negb ok then mret (Some ErrProposalDropped)
        else _ ← raft_bcastAppend; mret None
  end.

Definition stepLeader_ReadIndex (m : Message) : RM S unit :=
  r ← get;
  if ProgressTracker_IsSingleton (raft_trk r) then
    answer_read m (raftLog_committed (raft_raftLog r))
  else
    ok ← raft_committedEntryInCurrentTerm;
    if negb ok then
      modify (fun r => set_raft_pendingReadIndexMessages (raft_pendingReadIndexMessages r ++ [m]) r)
    else sendMsgReadIndexResponse m.

(** [for r.maybeSendAppend(to, false) {}]; [send_fuel] iterations are enough. *)
Fixpoint send_all_loop (fuel : nat) (to : Z) : RM S unit :=
  match fuel with
  | O => panic "out of fuel"
  | Datatypes.S fuel =>
      sent ← raft_maybeSendAppend to false;
      if (sent : bool) then send_all_loop fuel to else mret tt
  end.

Definition send_fuel (to : Z) (r : raft S) : nat :=
  match ProgressTracker_Progress (raft_trk r) !! to, raftLog_lastIndex (raft_raftLog r) with
  | Some pr, Ok last => Z.to_nat (last + 1 - Progress_Next pr) + 3
  | _, _ => 1
  end.

Definition send_all (to : Z) : RM S unit :=
  r ← get; send_all_loop (send_fuel to r) to.

Definition stepLeader_AppResp_reject (m : Message) : RM S unit :=
  let from := Message_GetFrom m in
  r ← get;
  nextProbeIdx ← (if 0 <? Message_GetLogTerm m
                  then x ← lift (raftLog_findConflictByTerm (raft_raftLog r) (Message_GetRejectHint m)
                                   (Message_GetLogTerm m)); mret x.1
                  else mret (Message_GetRejectHint m));
  pr ← get_pr from;
  let '(decreased, pr) := Progress_MaybeDecrTo (Message_GetIndex m) nextProbeIdx pr in
  _ ← put_pr from pr;
  if (decreased : bool) then
    _ ← when (ps_eqb (Progress_State pr) StateReplicate) (put_pr from (Progress_BecomeProbe pr));
    raft_sendAppend from
  else mret tt.

(** The switch on the state of a progress whose match index was confirmed. *)
Definition stepLeader_AppResp_state (m : Message) : RM S unit :=
  let from := Message_GetFrom m in
  pr ← get_pr from;
  match Progress_State pr with
  | StateProbe => put_pr from (Progress_BecomeReplicate pr)
  | StateSnapshot =>
      r ← get;
      first ← lift (raftLog_firstIndex (raft_raftLog r));
      if first <=? Progress_Match pr +! 1
      then put_pr from (Progress_BecomeReplicate (Progress_BecomeProbe pr))
      else mret tt
  | StateReplicate =>
      ins ← lift (Inflights_FreeLE (Progress_Inflights pr) (Message_GetIndex m));
      put_pr from (set_Progress_Inflights ins pr)
  end.

Definition stepLeader_AppResp_accept (m : Message) : RM S unit :=
  let from := Message_GetFrom m in
  pr ← get_pr from;
  let '(updated, pr) := Progress_MaybeUpdate (Message_GetIndex m) pr in
  _ ← put_pr from pr;
  if updated || ((Progress_Match pr =? Message_GetIndex m) && ps_eqb (Progress_State pr) StateProbe) then
    _ ← stepLeader_AppResp_state m;
    committed ← raft_maybeCommit;
    r ← get;
    _ ← (if (committed : bool) then
           _ ← releasePendingReadIndexMessages;
           raft_bcastAppend
         else if negb (raft_id r =? from) then
           pr ← get_pr from;
           if Progress_CanBumpCommit (raftLog_committed (raft_raftLog r)) pr
           then raft_sendAppend from else mret tt
         else mret tt);
    _ ← when (negb (raft_id r =? from)) (send_all from);
    r ← get;
    if from =? raft_leadTransferee r then
      pr ← get_pr from;
      last ← lift (raftLog_lastIndex (raft_raftLog r));
      if Progress_Match pr =? last then raft_sendTimeoutNow from else mret tt
    else mret tt
  else mret tt.

Definition stepLeader_AppResp (m : Message) : RM S unit :=
  _ ← modify_pr (Message_GetFrom m) (set_Progress_RecentActive true);
  if Message_GetReject m then stepLeader_AppResp_reject m else stepLeader_AppResp_accept m.

Definition stepLeader_HeartbeatResp (m : Message) : RM S unit :=
  let from := Message_GetFrom m in
  _ ← modify_pr from (fun pr => set_Progress_MsgAppFlowPaused false (set_Progress_RecentActive true pr));
  pr ← get_pr from;
  r ← get;
  last ← lift (raftLog_lastIndex (raft_raftLog r));
  _ ← when ((Progress_Match pr <? last) || ps_eqb (Progress_State pr) StateProbe) (raft_sendAppend from);
  r ← get;
  match readOnly_option (raft_readOnly r) with
  | ReadOnlyLeaseBased => mret tt
  | ReadOnlySafe =>
      if len (default [] (Message_GetContext m)) =? 0 then mret tt
      else
        ro ← lift (readOnly_recvAck from (Message_GetContext m) (raft_readOnly r));
        x ← lift (readOnly_maybeAdvance (ProgressTracker_Voters (raft_trk r)) ro);
        _ ← modify (set_raft_readOnly x.2);
        for_each (fun rs => answer_read (readIndexRequest_req rs) (readIndexRequest_index rs)) x.1
  end.

Definition stepLeader_SnapStatus (m : Message) : RM S unit :=
  let from := Message_GetFrom m in
  pr ← get_pr from;
  match Progress_State pr with
  | StateSnapshot =>
      let pr := if negb (Message_GetReject m) then Progress_BecomeProbe pr
                else Progress_BecomeProbe (set_Progress_PendingSnapshot 0 pr) in
      put_pr from (set_Progress_MsgAppFlowPaused true pr)
  | _ => mret tt
  end.

Definition stepLeader_Unreachable (m : Message) : RM S unit :=
  pr ← get_pr (Message_GetFrom m);
  when (ps_eqb (Progress_State pr) StateReplicate) (put_pr (Message_GetFrom m) (Progress_BecomeProbe pr)).

Definition stepLeader_TransferLeader (m : Message) : RM S unit :=
  let leadTransferee := Message_GetFrom m in
  pr ← get_pr leadTransferee;
  r ← get;
  let lastLeadTransferee := raft_leadTransferee r in
  if Progress_IsLearner pr then mret tt
  else if negb (lastLeadTransferee =? None_id) && (lastLeadTransferee =? leadTransferee) then mret tt
  else
    _ ← when (negb (lastLeadTransferee =? None_id)) raft_abortLeaderTransfer;
    if leadTransferee =? raft_id r then mret tt
    else
      _ ← modify (set_raft_electionElapsed 0);
      _ ← modify (set_raft_leadTransferee leadTransferee);
      last ← lift (raftLog_lastIndex (raft_raftLog r));
      if Progress_Match pr =? last then raft_sendTimeoutNow leadTransferee
      else raft_sendAppend leadTransferee.

(** Messages that need the progress of their sender; without one they are
    ignored. *)
Definition with_sender (m : Message) (k : RM S unit) : RM S (option error) :=
  r ← get;
  match ProgressTracker_Progress (raft_trk r) !! Message_GetFrom m with
  | None => mret None
  | Some _ => _ ← k; mret None
  end.

Definition stepLeader (m : Message) : RM S (option error) :=
  match Message_GetType m with
  | MsgBeat => _ ← raft_bcastHeartbeat; mret None
  | MsgCheckQuorum => _ ← stepLeader_CheckQuorum; mret None
  | MsgProp => stepLeader_Prop m
  | MsgReadIndex => _ ← stepLeader_ReadIndex m; mret None
  | MsgForgetLeader => mret None
  | MsgAppResp => with_sender m (stepLeader_AppResp m)
  | MsgHeartbeatResp => with_sender m (stepLeader_HeartbeatResp m)
  | MsgSnapStatus => with_sender m (stepLeader_SnapStatus m)
  | MsgUnreachable => with_sender m (stepLeader_Unreachable m)
  | MsgTransferLeader => with_sender m (stepLeader_TransferLeader m)
  | _ => mret None
  end.

(** ** Applied entries

    When a joint configuration with AutoLeave has been applied the leader
    proposes to leave it by stepping a message to itself: [rec] is [Step]. *)

(** [confChangeToMsg] (node.go). *)
Definition confChangeToMsg (c : option ConfChangeI) : Message :=
  let '(typ, data) := MarshalConfChange c in
  set_Message_Entries [mkEntry None None (Some typ) data] (set_Message_Type (Some MsgProp) Message0).

Definition raft_appliedTo_with (rec : Message → RM S (option error)) (index size : Z) : RM S unit :=
  r ← get;
  let newApplied := Z.max index (raftLog_applied (raft_raftLog r)) in
  _ ← on_log_ (raftLog_appliedTo newApplied size);
  r ← get;
  if Config_AutoLeave (ProgressTracker_Config (raft_trk r)) && (raft_pendingConfIndex r <=? newApplied)
     && st_eqb (raft_state r) StateLeader
  then _ ← rec (confChangeToMsg None); mret tt
  else mret tt.

Definition raft_appliedSnap_with (rec : Message → RM S (option error)) (snap : Snapshot) : RM S unit :=
  let index := snap_index (Some snap) in
  _ ← modify (fun r => set_raft_raftLog (raftLog_stableSnapTo index (raft_raftLog r)) r);
  raft_appliedTo_with rec index 0.

(** ** Step *)

Definition bytes_equal (a b : option bytes) : bool := bool_decide (default [] a = default [] b).

(** A message from a later term: whether to go on with it. *)
Definition Step_higher_term (m : Message) : RM S bool :=
  r ← get;
  let t := Message_GetType m in
  let is_vote := mt_eqb t MsgVote || mt_eqb t MsgPreVote in
  let force := bytes_equal (Message_GetContext m) (Some campaignTransfer_bytes) in
  let inLease := raft_checkQuorum r && negb (raft_lead r =? None_id)
                 && (raft_electionElapsed r <? raft_electionTimeout r) in
  if is_vote && (negb force && inLease) then
    _ ← lift (raftLog_lastEntryID (raft_raftLog r));
    mret false
  else if mt_eqb t MsgPreVote then mret true
  else if mt_eqb t MsgPreVoteResp && negb (Message_GetReject m) then mret true
  else if mt_eqb t MsgApp || mt_eqb t MsgHeartbeat || mt_eqb t MsgSnap then
    _ ← raft_becomeFollower (Message_GetTerm m) (Message_GetFrom m); mret true
  else
    _ ← raft_becomeFollower (Message_GetTerm m) None_id; mret true.

(** A message from an earlier term. *)
Definition Step_lower_term (rec : Message → RM S (option error)) (m : Message) : RM S unit :=
  r ← get;
  let t := Message_GetType m in
  if (raft_checkQuorum r || raft_preVote r) && (mt_eqb t MsgHeartbeat || mt_eqb t MsgApp) then
    raft_send (Msg MsgAppResp (Message_From m))
  else if mt_eqb t MsgPreVote then
    _ ← lift (raftLog_lastEntryID (raft_raftLog r));
    raft_send (set_Message_Term (Some (raft_Term r)) (set_Message_Reject (Some true)
                 (Msg MsgPreVoteResp (Message_From m))))
  else if mt_eqb t MsgStorageAppendResp then
    match Message_GetSnapshot m with
    | Some snap => raft_appliedSnap_with rec snap
    | None => mret tt
    end
  else mret tt.

Definition Step_StorageAppendResp (rec : Message → RM S (option error)) (m : Message) : RM S unit :=
  _ ← when (negb (Message_GetIndex m =? 0))
        (on_log_ (raftLog_stableTo (mkentryID (Message_GetLogTerm m) (Message_GetIndex m))));
  match Message_GetSnapshot m with
  | Some snap => raft_appliedSnap_with rec snap
  | None => mret tt
  end.

Definition Step_StorageApplyResp (rec : Message → RM S (option error)) (m : Message) : RM S unit :=
  match last (Message_GetEntries m) with
  | None => mret tt
  | Some e =>
      _ ← raft_appliedTo_with rec (Entry_GetIndex e) (entsSize (Message_GetEntries m));
      raft_reduceUncommittedSize (payloadsSize (Message_GetEntries m))
  end.

(** [MsgVote] and [MsgPreVote]. *)
Definition Step_Vote (m : Message) : RM S unit :=
  r ← get;
  let t := Message_GetType m in
  let canVote := (raft_Vote r =? Message_GetFrom m)
                 || ((raft_Vote r =? None_id) && (raft_lead r =? None_id))
                 || (mt_eqb t MsgPreVote && (raft_Term r <? Message_GetTerm m)) in
  _ ← lift (raftLog_lastEntryID (raft_raftLog r));
  let candLastID := mkentryID (Message_GetLogTerm m) (Message_GetIndex m) in
  ok ← (if canVote then lift (raftLog_isUpToDate candLastID (raft_raftLog r)) else mret false);
  resp ← lift (voteRespMsgType t);
  if (ok : bool) then
    _ ← raft_send (set_Message_Term (Message_Term m) (Msg resp (Message_From m)));
    when (mt_eqb t MsgVote)
      (_ ← modify (set_raft_electionElapsed 0); modify (set_raft_Vote (Message_GetFrom m)))
  else
    raft_send (set_Message_Term (Some (raft_Term r)) (set_Message_Reject (Some true)
                 (Msg resp (Message_From m)))).

(** [r.step(r, m)] *)
Definition run_step (f : stepFunc) (m : Message) : RM S (option error) :=
  match f with
  | stepFollower_f => stepFollower m
  | stepCandidate_f => stepCandidate m
  | stepLeader_f => stepLeader m
  end.

Definition Step_dispatch (rec : Message → RM S (option error)) (m : Message) : RM S (option error) :=
  r ← get;
  match Message_GetType m with
  | MsgHup =>
      _ ← raft_hup (if raft_preVote r then campaignPreElection else campaignElection); mret None
  | MsgStorageAppendResp => _ ← Step_StorageAppendResp rec m; mret None
  | MsgStorageApplyResp => _ ← Step_StorageApplyResp rec m; mret None
  | MsgVote | MsgPreVote => _ ← Step_Vote m; mret None
  | _ => run_step (raft_step r) m
  end.

Definition Step_with (rec : Message → RM S (option error)) (m : Message) : RM S (option error) :=
  r ← get;
  if Message_GetTerm m =? 0 then Step_dispatch rec m
  else if raft_Term r <? Message_GetTerm m then
    continue ← Step_higher_term m;
    if (continue : bool) then Step_dispatch rec m else mret None
  else if Message_GetTerm m <? raft_Term r then
    _ ← Step_lower_term rec m; mret None
  else Step_dispatch rec m.

(** The message that [appliedTo] steps never steps another one, so one level of
    recursion is all there is ([Step_unfold] in RaftRel.v). *)
Definition raft_Step : Message → RM S (option error) :=
  Step_with (Step_with (fun _ => panic "unreachable")).

Definition raft_appliedTo : Z → Z → RM S unit := raft_appliedTo_with raft_Step.

Definition raft_appliedSnap : Snapshot → RM S unit := raft_appliedSnap_with raft_Step.

(** ** Ticks *)

Definition raft_tickElection : RM S unit :=
  _ ← modify (fun r => set_raft_electionElapsed (raft_electionElapsed r + 1) r);
  r ← get;
  if raft_promotable r && raft_pastElectionTimeout r then
    _ ← modify (set_raft_electionElapsed 0);
    _ ← raft_Step (set_Message_From (Some (raft_id r)) (set_Message_Type (Some MsgHup) Message0));
    mret tt
  else mret tt.

Definition raft_tickHeartbeat : RM S unit :=
  _ ← modify (fun r => set_raft_heartbeatElapsed (raft_heartbeatElapsed r + 1) r);
  _ ← modify (fun r => set_raft_electionElapsed (raft_electionElapsed r + 1) r);
  r ← get;
  _ ← when (raft_electionTimeout r <=? raft_electionElapsed r)
        (_ ← modify (set_raft_electionElapsed 0);
         _ ← when (raft_checkQuorum r)
               (_ ← raft_Step (set_Message_From (Some (raft_id r)) (set_Message_Type (Some MsgCheckQuorum) Message0));
                mret tt);
         r ← get;
         when (st_eqb (raft_state r) StateLeader && negb (raft_leadTransferee r =? None_id))
           raft_abortLeaderTransfer);
  r ← get;
  if negb (st_eqb (raft_state r) StateLeader) then mret tt
  else if raft_heartbeatTimeout r <=? raft_heartbeatElapsed r then
    _ ← modify (set_raft_heartbeatElapsed 0);
    _ ← raft_Step (set_Message_From (Some (raft_id r)) (set_Message_Type (Some MsgBeat) Message0));
    mret tt
  else mret tt.

(** [r.tick()] *)
Definition raft_run_tick : RM S unit :=
  r ← get;
  match raft_tick r with
  | tickElection_f => raft_tickElection
  | tickHeartbeat_f => raft_tickHeartbeat
  end.

End handlers.

(** ** Configuration and construction of a node *)

Record RaftConfig (S : Type) : Type := mkRaftConfig {
  RaftConfig_ID : Z;
  RaftConfig_ElectionTick : Z;
  RaftConfig_HeartbeatTick : Z;
  RaftConfig_Storage : option S;
  RaftConfig_Applied : Z;
  RaftConfig_AsyncStorageWrites : bool;
  RaftConfig_MaxSizePerMsg : Z;
  RaftConfig_MaxCommittedSizePerReady : Z;
  RaftConfig_MaxUncommittedEntriesSize : Z;
  RaftConfig_MaxInflightMsgs : Z;
  RaftConfig_MaxInflightBytes : Z;
  RaftConfig_CheckQuorum : bool;
  RaftConfig_PreVote : bool;
  RaftConfig_ReadOnlyOption : ReadOnlyOption;
  RaftConfig_DisableProposalForwarding : bool;
  RaftConfig_DisableConfChangeValidation : bool;
  RaftConfig_StepDownOnRemoval : bool;
}.
Arguments mkRaftConfig {S}.
Arguments RaftConfig_ID {S} _.
Arguments RaftConfig_ElectionTick {S} _.
Arguments RaftConfig_HeartbeatTick {S} _.
Arguments RaftConfig_Storage {S} _.
Arguments RaftConfig_Applied {S} _.
Arguments RaftConfig_AsyncStorageWrites {S} _.
Arguments RaftConfig_MaxSizePerMsg {S} _.
Arguments RaftConfig_MaxCommittedSizePerReady {S} _.
Arguments RaftConfig_MaxUncommittedEntriesSize {S} _.
Arguments RaftConfig_MaxInflightMsgs {S} _.
Arguments RaftConfig_MaxInflightBytes {S} _.
Arguments RaftConfig_CheckQuorum {S} _.
Arguments RaftConfig_PreVote {S} _.
Arguments RaftConfig_ReadOnlyOption {S} _.
Arguments RaftConfig_DisableProposalForwarding {S} _.
Arguments RaftConfig_DisableConfChangeValidation {S} _.
Arguments RaftConfig_StepDownOnRemoval {S} _.

Section construct.
Context {S : Type} `{Protobuf} `{!Storage S}.

(** [validate] returns an error or the configuration with its defaults filled
    in (the source updates the configuration in place). *)
Definition Config_validate (c : RaftConfig S) : result (S * RaftConfig S) :=
  if RaftConfig_ID c =? None_id then Err (ErrText "cannot use none as id")
  else if IsLocalMsgTarget (RaftConfig_ID c) then Err (ErrText "cannot use local target as id")
  else if RaftConfig_HeartbeatTick c <=? 0 then Err (ErrText "heartbeat tick must be greater than 0")
  else if RaftConfig_ElectionTick c <=? RaftConfig_HeartbeatTick c
  then Err (ErrText "election tick must be greater than heartbeat tick")
  else match RaftConfig_Storage c with
  | None => Err (ErrText "storage cannot be nil")
  | Some storage =>
      let maxUncommitted := if RaftConfig_MaxUncommittedEntriesSize c =? 0 then noLimit
                            else RaftConfig_MaxUncommittedEntriesSize c in
      let maxCommitted := if RaftConfig_MaxCommittedSizePerReady c =? 0 then RaftConfig_MaxSizePerMsg c
                          else RaftConfig_MaxCommittedSizePerReady c in
      if RaftConfig_MaxInflightMsgs c <=? 0
      then Err (ErrText "max inflight messages must be greater than 0")
      else if negb (RaftConfig_MaxInflightBytes c =? 0)
              && (RaftConfig_MaxInflightBytes c <? RaftConfig_MaxSizePerMsg c)
      then Err (ErrText "max inflight bytes must be >= max message size")
      else
        let maxInflightBytes := if RaftConfig_MaxInflightBytes c =? 0 then noLimit
                                else RaftConfig_MaxInflightBytes c in
        if match RaftConfig_ReadOnlyOption c with ReadOnlyLeaseBased => true | ReadOnlySafe => false end
           && negb (RaftConfig_CheckQuorum c)
        then Err (ErrText "CheckQuorum must be enabled when ReadOnlyOption is ReadOnlyLeaseBased")
        else Val (storage,
          mkRaftConfig (RaftConfig_ID c) (RaftConfig_ElectionTick c) (RaftConfig_HeartbeatTick c)
            (RaftConfig_Storage c) (RaftConfig_Applied c) (RaftConfig_AsyncStorageWrites c)
            (RaftConfig_MaxSizePerMsg c) maxCommitted maxUncommitted (RaftConfig_MaxInflightMsgs c)
            maxInflightBytes (RaftConfig_CheckQuorum c) (RaftConfig_PreVote c)
            (RaftConfig_ReadOnlyOption c) (RaftConfig_DisableProposalForwarding c)
            (RaftConfig_DisableConfChangeValidation c) (RaftConfig_StepDownOnRemoval c))
  end.

(** The literal of [newRaft]; fields that are not set are zero, and the function
    fields are set by [becomeFollower] before they are used. *)
Definition raft_literal (c : RaftConfig S) (raftlog : raftLog S) (rands : list Z) : raft S :=
  mkraft (RaftConfig_ID c) 0 0 [] raftlog (RaftConfig_MaxSizePerMsg c)
    (RaftConfig_MaxUncommittedEntriesSize c)
    (MakeProgressTracker (RaftConfig_MaxInflightMsgs c) (RaftConfig_MaxInflightBytes c))
    StateFollower false [] [] None_id 0 0 (RaftConfig_DisableConfChangeValidation c) 0
    (newReadOnly (RaftConfig_ReadOnlyOption c)) 0 0 (RaftConfig_CheckQuorum c) (RaftConfig_PreVote c)
    (RaftConfig_HeartbeatTick c) (RaftConfig_ElectionTick c) 0
    (RaftConfig_DisableProposalForwarding c) (RaftConfig_StepDownOnRemoval c)
    tickElection_f stepFollower_f [] rands.

(** The rest of [newRaft], as methods of the new node. *)
Definition newRaft_init (c : RaftConfig S) (hs : option HardState) (cs : ConfState) : RM S unit :=
  r ← get;
  lastID ← lift (raftLog_lastEntryID (raft_raftLog r));
  res ← lift (Restore (mkChanger (raft_trk r) (entryID_index lastID)) cs);
  match res with
  | Err _ => panic "Restore"
  | Val (cfg, trk) =>
      cs' ← raft_switchToConfig cfg trk;
      if negb (ConfState_Equivalent cs cs') then panic "ConfStates not equivalent"
      else
        _ ← match hs with
            | Some st => when (negb (IsEmptyHardState (Some st))) (raft_loadState st)
            | None => mret tt
            end;
        _ ← when (0 <? RaftConfig_Applied c) (on_log_ (raftLog_appliedTo (RaftConfig_Applied c) 0));
        r ← get;
        raft_becomeFollower (raft_Term r) None_id
  end.

Definition newRaft (c : RaftConfig S) (rands : list Z) : outcome (raft S) :=
  match Config_validate c with
  | Err _ => Panic "invalid configuration"
  | Val (storage, c) =>
      raftlog ← newLogWithSize storage (RaftConfig_MaxCommittedSizePerReady c);
      match st_InitialState storage with
      | Err _ => Panic "InitialState"
      | Val (hs, cs) =>
          x ← newRaft_init c hs cs (raft_literal c raftlog rands);
          Ok x.2
      end
  end.

End construct.
