(* ===== verification/RaftRel.v ===== *)
(** * Reasoning about the methods of a node

    Every method is related to the states before and after it: [rel R m] says
    that each successful run of [m] relates them by [R].  For a preorder [R] the
    rule for sequences is compositional, so a property of the whole of [Step]
    follows from the same property of its building blocks.  At the end: the
    recursion of [Step] is one level deep. *)
From S2P Require Import Prelude Proto Quorum Inflights Progress Tracker Util Storage.
From S2P Require Import Unstable Log ConfChange ReadOnly Raft RaftStep.

Section rel.
Context {S : Type}.
Implicit Types r : raft S.

Definition rel {A} (R : raft S → raft S → Prop) (m : RM S A) : Prop :=
  ∀ r a r', m r = Ok (a, r') → R r r'.

Context (R : raft S → raft S → Prop) `{!PreOrder R}.

Lemma rel_ret {A} (a : A) : rel R (mret a).
Proof. intros r a' r' [= <- <-]. reflexivity. Qed.

Lemma rel_get : rel R get.
Proof. intros r a' r' [= <- <-]. reflexivity. Qed.

Lemma rel_panic {A} why : rel R (panic why : RM S A).
Proof. intros r a' r' [=]. Qed.

Lemma rel_lift {A} (o : outcome A) : rel R (lift o).
Proof. intros r a' r' E. unfold lift in E. destruct o; [|done]. injection E as _ <-. reflexivity. Qed.

Lemma rel_bind {A B} (m : RM S A) (k : A → RM S B) :
  rel R m → (∀ a, rel R (k a)) → rel R (m ≫= k).
Proof.
  intros Hm Hk r b r' E. unfold mbind, RM_bind in E. destruct (m r) as [[a r1]|] eqn:Em; [|done].
  etrans; [by eapply Hm|by eapply Hk].
Qed.

(** After [get] the continuation runs in the state that was read. *)
Lemma rel_get_bind {B} (k : raft S → RM S B) :
  (∀ r b r', k r r = Ok (b, r') → R r r') → rel R (get ≫= k).
Proof. intros Hk r b r' E. by eapply Hk. Qed.

Lemma rel_modify f : (∀ r, R r (f r)) → rel R (modify f).
Proof. intros Hf r a r' [= _ <-]. apply Hf. Qed.

Lemma rel_when b m : rel R m → rel R (when b m).
Proof. intros Hm. destruct b; [done|apply rel_ret]. Qed.

Lemma rel_for_each {A} (f : A → RM S unit) l : (∀ a, rel R (f a)) → rel R (for_each f l).
Proof. intros Hf. induction l; cbn; [apply rel_ret|]. apply rel_bind; auto. Qed.

Lemma rel_visit f : (∀ id, rel R (f id)) → rel R (visit f).
Proof. intros Hf. apply rel_bind; [apply rel_get|]. intros r. by apply rel_for_each. Qed.

Lemma rel_on_log {A} (f : raftLog S → outcome (A * raftLog S)) :
  (∀ r a l, f (raft_raftLog r) = Ok (a, l) → R r (set_raft_raftLog l r)) → rel R (on_log f).
Proof.
  intros Hf r a r' E. unfold on_log, get, lift, modify, mbind, RM_bind in E.
  destruct (f (raft_raftLog r)) as [[x l]|] eqn:El; [|done]. cbn in E. injection E as _ <-. by eapply Hf.
Qed.

Lemma rel_on_log_ (f : raftLog S → outcome (raftLog S)) :
  (∀ r l, f (raft_raftLog r) = Ok l → R r (set_raft_raftLog l r)) → rel R (on_log_ f).
Proof.
  intros Hf r a r' E. unfold on_log_, get, lift, modify, mbind, RM_bind in E.
  destruct (f (raft_raftLog r)) as [l|] eqn:El; [|done]. cbn in E. injection E as _ <-. by eapply Hf.
Qed.

End rel.

Lemma rel_weaken {S A} (R R' : raft S → raft S → Prop) (m : RM S A) :
  (∀ r r', R r r' → R' r r') → rel R m → rel R' m.
Proof. intros HR Hm r a r' E. apply HR. by eapply Hm. Qed.

(** Running a sequence. *)
Lemma run_bind {S A B} (m : RM S A) (k : A → RM S B) (r r' : raft S) b :
  (m ≫= k) r = Ok (b, r') ↔ ∃ a r1, m r = Ok (a, r1) ∧ k a r1 = Ok (b, r').
Proof.
  unfold mbind, RM_bind. split.
  - destruct (m r) as [[a r1]|]; [|done]. eauto.
  - intros (a & r1 & -> & E). done.
Qed.

(** [run_inv H] splits a successful run of a sequence into its steps. *)
Ltac run_inv H :=
  let a := fresh "x" in let r1 := fresh "r" in let E := fresh "E" in
  apply run_bind in H; destruct H as (a & r1 & E & H).

(** Running a sequence forward: [run_fwd] performs the first step of a method
    whose run is known. *)
Lemma run_ok {S A B} (m : RM S A) (k : A → RM S B) (r r1 : raft S) a :
  m r = Ok (a, r1) → (m ≫= k) r = k a r1.
Proof. intros E. unfold mbind, RM_bind. by rewrite E. Qed.

Lemma get_run {S} (r : raft S) : get r = Ok (r, r).
Proof. done. Qed.

Lemma lift_run {S A} (o : outcome A) (r : raft S) a : o = Ok a → lift o r = Ok (a, r).
Proof. intros ->. done. Qed.

Lemma modify_run {S} f (r : raft S) : modify f r = Ok (tt, f r).
Proof. done. Qed.

Lemma get_pr_run {S} (r : raft S) id pr :
  ProgressTracker_Progress (raft_trk r) !! id = Some pr → get_pr id r = Ok (pr, r).
Proof. intros E. unfold get_pr. rewrite (run_ok _ _ _ _ _ (get_run r)). by rewrite E. Qed.

Lemma on_log_run {S A} (f : raftLog S → outcome (A * raftLog S)) (r : raft S) a l :
  f (raft_raftLog r) = Ok (a, l) → on_log f r = Ok (a, set_raft_raftLog l r).
Proof. intros E. unfold on_log, get, lift, modify, mbind, RM_bind. by rewrite E. Qed.

Lemma on_log__run {S} (f : raftLog S → outcome (raftLog S)) (r : raft S) l :
  f (raft_raftLog r) = Ok l → on_log_ f r = Ok (tt, set_raft_raftLog l r).
Proof. intros E. unfold on_log_, get, lift, modify, mbind, RM_bind. by rewrite E. Qed.

Lemma on_log_inv {S A} (f : raftLog S → outcome (A * raftLog S)) (r r' : raft S) x :
  on_log f r = Ok (x, r') → ∃ l, r' = set_raft_raftLog l r ∧ f (raft_raftLog r) = Ok (x, l).
Proof.
  unfold on_log, get, lift, modify, mbind, RM_bind. destruct (f (raft_raftLog r)) as [[y l]|]; [|done].
  intros [= <- <-]. by exists l.
Qed.

Lemma on_log__inv {S} (f : raftLog S → outcome (raftLog S)) (r r' : raft S) u :
  on_log_ f r = Ok (u, r') → ∃ l, r' = set_raft_raftLog l r ∧ f (raft_raftLog r) = Ok l.
Proof.
  unfold on_log_, get, lift, modify, mbind, RM_bind. destruct (f (raft_raftLog r)) as [l|]; [|done].
  intros [= <-]. by exists l.
Qed.

Ltac run_fwd_with H := rewrite (run_ok _ _ _ _ _ H).

Ltac run_fwd :=
  lazymatch goal with
  | |- context [(get ≫= _) ?r] => rewrite (run_ok _ _ _ _ _ (get_run r))
  | |- context [(modify ?f ≫= _) ?r] => rewrite (run_ok _ _ _ _ _ (modify_run f r))
  | |- context [(mret ?a ≫= _) ?r] => rewrite (run_ok (mret a) _ r r a eq_refl)
  end.

Create HintDb rel.

(** [rel_auto] walks over a method. *)
Ltac rel_step :=
  lazymatch goal with
  | |- rel _ (mret _) => apply rel_ret; typeclasses eauto
  | |- rel _ get => apply rel_get; typeclasses eauto
  | |- rel _ (panic _) => apply rel_panic
  | |- rel _ (lift _) => apply rel_lift; typeclasses eauto
  | |- rel _ (when _ _) => apply rel_when; [typeclasses eauto|]
  | |- rel _ (for_each _ _) => apply rel_for_each; [typeclasses eauto|intros]
  | |- rel _ (visit _) => apply rel_visit; [typeclasses eauto|intros]
  | |- rel _ (_ ≫= _) => apply rel_bind; [typeclasses eauto| |intros]
  | |- rel _ (if ?b then _ else _) => destruct b
  | |- rel _ (let '(_, _) := ?x in _) => destruct x
  | |- rel _ (match ?x with _ => _ end) => destruct x
  end.

Ltac rel_auto :=
  repeat first [solve [eauto with rel nocore] | rel_step | progress cbn zeta].

(** ** Methods that touch only the progress tracker, the read queue or timers *)

Section same.
Context {S : Type}.

(** The votes recorded for a candidate. *)
Definition votes_of (r : raft S) : gmap Z bool := ProgressTracker_Votes (raft_trk r).

(** Everything that matters for elections and for the log is untouched, but for
    recorded votes, which may be forgotten. *)
Definition same (r r' : raft S) : Prop :=
  (∀ j, votes_of r' !! j = Some true → votes_of r !! j = Some true) ∧
  raft_id r' = raft_id r ∧ raft_Term r' = raft_Term r ∧ raft_Vote r' = raft_Vote r ∧
  raft_raftLog r' = raft_raftLog r ∧ raft_msgs r' = raft_msgs r ∧
  raft_msgsAfterAppend r' = raft_msgsAfterAppend r ∧ raft_state r' = raft_state r ∧
  raft_step r' = raft_step r.

#[export] Instance same_preorder : PreOrder same.
Proof.
  split; [by unfold same|]. unfold same. intros r1 r2 r3 (V1 & ? & ? & ? & ? & ? & ? & ? & ?) (V2 & ? & ? & ? & ? & ? & ? & ? & ?).
  split; [auto|]. split_and!; congruence.
Qed.

Lemma same_modify f : (∀ r, same r (f r)) → rel same (modify f).
Proof. apply rel_modify. Qed.

Lemma same_get_pr id : rel same (get_pr id).
Proof. unfold get_pr. rel_auto. Qed.

Lemma same_put_pr id pr : rel same (put_pr id pr).
Proof. by apply rel_modify. Qed.

Lemma same_modify_pr id f : rel same (modify_pr id f).
Proof. unfold modify_pr. apply rel_bind; [apply _|apply same_get_pr|intros; apply same_put_pr]. Qed.

End same.
#[export] Hint Resolve same_get_pr same_put_pr same_modify_pr : rel.
#[export] Hint Extern 1 (rel same (modify _)) => apply same_modify; done : rel.

(** What remains of a computation is built from methods that satisfy [R]. *)
Ltac rest_rel R E :=
  let Hm := fresh in
  lazymatch type of E with
  | ?m _ = _ => assert (rel R m) as Hm by rel_auto; by eapply Hm
  end.

(** [run_same E H]: the run [E] of a method leaves the core state untouched. *)
Ltac run_same E H :=
  lazymatch type of E with
  | ?m ?r = Ok (?a, ?r') =>
      assert (rel same m) as H by rel_auto; specialize (H r a r' E)
  end.

Lemma same_reset_progress {S} `{Protobuf} `{!Storage S} id : rel (@same S) (reset_progress id).
Proof. unfold reset_progress. rel_auto. Qed.
#[export] Hint Resolve same_reset_progress : rel.

Lemma same_resetRandomizedElectionTimeout {S} : rel (@same S) raft_resetRandomizedElectionTimeout.
Proof. unfold raft_resetRandomizedElectionTimeout, Intn. rel_auto. Qed.
#[export] Hint Resolve same_resetRandomizedElectionTimeout : rel.

Lemma same_abortLeaderTransfer {S} : rel (@same S) raft_abortLeaderTransfer.
Proof. by apply same_modify. Qed.
#[export] Hint Resolve same_abortLeaderTransfer : rel.

(** What [reset] does to term and vote; recorded votes are forgotten, the rest
    of the core state stays. *)
Lemma reset_effect {S} `{Protobuf} `{!Storage S} term (r r' : raft S) u :
  raft_reset term r = Ok (u, r') →
  same (if raft_Term r =? term then r else set_raft_Vote None_id (set_raft_Term term r)) r' ∧
  ∀ j, votes_of r' !! j ≠ Some true.
Proof.
  unfold raft_reset. intros E. run_inv E. run_inv E. injection E0 as <- <-.
  assert (∀ j, votes_of r' !! j ≠ Some true) as Hv.
  { do 6 run_inv E. injection E6 as _ <-. run_same E Hs. intros j Hj. by apply Hs in Hj. }
  split; [|exact Hv]. clear Hv. run_same E Hs. destruct (Z.eqb_spec (raft_Term r) term); cbn [negb when] in E1.
  - by injection E1 as _ <-.
  - injection E1 as _ <-. exact Hs.
Qed.

(** ** The recursion of [Step] *)

Section unfold.
Context {S : Type} `{Protobuf} `{!Storage S}.
Implicit Types r : raft S.

Lemma run_ext {A B} (m : RM S A) (k k' : A → RM S B) r :
  (∀ a r1, k a r1 = k' a r1) → (m ≫= k) r = (m ≫= k') r.
Proof. intros Hk. unfold mbind, RM_bind. destruct (m r) as [[a r1]|]; auto. Qed.

Lemma run_ext_l {A B} (m m' : RM S A) (k : A → RM S B) r : m r = m' r → (m ≫= k) r = (m' ≫= k) r.
Proof. intros Hm. unfold mbind, RM_bind. by rewrite Hm. Qed.

Section ext.
Context (rec rec' : Message → RM S (option error)).
Hypothesis Hrec : ∀ r, rec (confChangeToMsg None) r = rec' (confChangeToMsg None) r.

Lemma appliedTo_ext index size r : raft_appliedTo_with rec index size r = raft_appliedTo_with rec' index size r.
Proof.
  unfold raft_appliedTo_with. apply run_ext. intros r0 r1. apply run_ext. intros [] r2. apply run_ext.
  intros r3 r4. destruct (_ && _); [|done]. by apply run_ext_l.
Qed.

Lemma appliedSnap_ext s r : raft_appliedSnap_with rec s r = raft_appliedSnap_with rec' s r.
Proof. unfold raft_appliedSnap_with. apply run_ext. intros. apply appliedTo_ext. Qed.

Lemma Step_dispatch_ext m r : Step_dispatch rec m r = Step_dispatch rec' m r.
Proof.
  unfold Step_dispatch. apply run_ext. intros r0 r1. destruct (Message_GetType m); try done; apply run_ext_l.
  - unfold Step_StorageAppendResp. apply run_ext. intros _ r2.
    destruct (Message_GetSnapshot m); [apply appliedSnap_ext|done].
  - unfold Step_StorageApplyResp. destruct (last _); [|done]. apply run_ext_l, appliedTo_ext.
Qed.

Lemma Step_with_ext m r : Step_with rec m r = Step_with rec' m r.
Proof.
  unfold Step_with. apply run_ext. intros r0 r1. destruct (_ =? 0); [apply Step_dispatch_ext|].
  destruct (_ <? _).
  - apply run_ext. intros [] r2; [apply Step_dispatch_ext|done].
  - destruct (_ <? _); [|apply Step_dispatch_ext]. apply run_ext_l. unfold Step_lower_term.
    apply run_ext. intros r2 r3. destruct (_ && _); [done|]. destruct (mt_eqb _ _); [done|].
    destruct (mt_eqb _ _); [|done]. destruct (Message_GetSnapshot m); [apply appliedSnap_ext|done].
Qed.

End ext.

(** The proposal to leave a joint configuration does not step another message. *)
Lemma Step_leave_joint rec rec' r :
  Step_with rec (confChangeToMsg None) r = Step_with rec' (confChangeToMsg None) r.
Proof. unfold confChangeToMsg. by destruct (MarshalConfChange None). Qed.

(** [Step] calls itself through [appliedTo] (the leader proposes to leave a joint
    configuration as soon as it may), and this recursion is at most one
    deep: the definition that unrolls it once satisfies the recursive equation
    of the source, on every message and state. *)
Theorem Step_unfold (m : Message) r : raft_Step m r = Step_with raft_Step m r.
Proof. apply Step_with_ext. intros r1. apply Step_leave_joint. Qed.

End unfold.
