(* ===== verification/RaftSafety.v ===== *)
(** * Safety of one node (theorems about src/raft.go)

    What no message can do to a node: lower its term, change its vote within a
    term, take back a commit, or make it send a vote or an acknowledgement
    before the state behind it is durable. *)
From S2P Require Import Prelude Proto Quorum Inflights Progress Tracker Util Storage.
From S2P Require Import Unstable Log ConfChange ReadOnly Raft RaftStep RaftRel.

(** ** The relation *)

(** Messages that vouch for durable state: acknowledged entries and votes. *)
Definition promise (t : MessageType) : Prop := t = MsgAppResp ∨ t = MsgVoteResp ∨ t = MsgPreVoteResp.

(** Messages for immediate sending: no acknowledgement, no vote and no write to
    storage, and not to itself. *)
Definition msg_now (id : Z) (m : Message) : Prop :=
  ¬ promise (Message_GetType m) ∧ Message_GetType m ≠ MsgStorageAppend ∧ Message_GetTo m ≠ id.

Definition msg_later (m : Message) : Prop := promise (Message_GetType m).

Lemma waits_for_append_spec t : waits_for_append t = true ↔ promise t.
Proof. unfold promise. destruct t; cbn; naive_solver. Qed.

(** A vote response that grants the vote to a node. *)
Definition is_grant (m : Message) : Prop :=
  Message_GetType m = MsgVoteResp ∧ Message_GetReject m = false ∧ Message_GetTo m ≠ None_id.

(** The history of a node's votes, by term: what it must still stand by.  The
    entry of the current term is the vote that the node has recorded. *)
Definition hist_ok (h : gmap Z Z) (term vote : Z) : Prop :=
  (∀ t x, h !! t = Some x → t <= term) ∧ h !! term = if vote =? None_id then None else Some vote.

(** A granted vote is one of the node's history. *)
Definition grant_ok (id : Z) (h : gmap Z Z) (m : Message) : Prop :=
  is_grant m → Message_GetFrom m = id ∧ Message_GetTerm m ≠ 0 ∧ h !! Message_GetTerm m = Some (Message_GetTo m).

(** What the step in question may do beyond that: give the vote of a term to a
    node, make the node the leader of a term, or record the vote of a node for it. *)
Record grants : Type := mkgrants { g_vote : Z → Z → Prop; g_lead : Z → Prop; g_heard : Z → Z → Prop }.

Definition any_grants : grants := mkgrants (fun _ _ => True) (fun _ => True) (fun _ _ => True).

(** A request for a vote comes from the node itself, for a term it has reached. *)
Definition asks_ok (id term : Z) (m : Message) : Prop :=
  Message_GetType m = MsgVote → Message_GetFrom m = id ∧ Message_GetTerm m <= term.

(** A granted vote goes to the node itself or answers a request. *)
Definition answers (G : grants) (id : Z) (m : Message) : Prop :=
  is_grant m → Message_GetTo m = id ∨ g_vote G (Message_GetTerm m) (Message_GetTo m).

Record evolves {S} (G : grants) (r r' : raft S) : Prop := mkevolves {
  ev_id : raft_id r' = raft_id r;
  ev_term : raft_Term r <= raft_Term r';
  ev_vote : raft_Term r' = raft_Term r → raft_Vote r ≠ None_id → raft_Vote r' = raft_Vote r;
  ev_commit : raftLog_committed (raft_raftLog r) <= raftLog_committed (raft_raftLog r');
  ev_msgs : ∃ new, raft_msgs r' = raft_msgs r ++ new ∧ Forall (msg_now (raft_id r)) new ∧
    Forall (asks_ok (raft_id r) (raft_Term r')) new;
  ev_voted : raft_Vote r' = None_id ∨ raft_Vote r' = raft_id r ∨
    (raft_Vote r' = raft_Vote r ∧ raft_Term r' = raft_Term r) ∨ g_vote G (raft_Term r') (raft_Vote r');
  ev_lead : raft_state r' = StateLeader →
    (raft_state r = StateLeader ∧ raft_Term r' = raft_Term r) ∨ g_lead G (raft_Term r');
  ev_cand : raft_state r' = StateCandidate →
    (raft_state r = StateCandidate ∧ raft_Term r' = raft_Term r) ∨ raft_Term r < raft_Term r';
  ev_votes : raft_state r' = StateCandidate → ∀ j, votes_of r' !! j = Some true →
    (raft_state r = StateCandidate ∧ raft_Term r' = raft_Term r ∧ votes_of r !! j = Some true) ∨
    g_heard G (raft_Term r') j;
  ev_later : ∃ new, raft_msgsAfterAppend r' = raft_msgsAfterAppend r ++ new ∧ Forall msg_later new ∧
    Forall (answers G (raft_id r)) new ∧
    ∀ h, hist_ok h (raft_Term r) (raft_Vote r) → ∃ h', h ⊆ h' ∧ hist_ok h' (raft_Term r') (raft_Vote r') ∧
      Forall (grant_ok (raft_id r) h') new;
}.

Lemma grant_ok_mono id h h' m : h ⊆ h' → grant_ok id h m → grant_ok id h' m.
Proof. intros Hs Hg Hm. destruct (Hg Hm) as (? & ? & Hh). split_and!; [done..|]. by eapply lookup_weaken. Qed.

Lemma hist_ok_next h t v t' : hist_ok h t v → t < t' → hist_ok h t' None_id.
Proof.
  intros [Hb _] Hlt. split; [intros t0 x Hx; specialize (Hb _ _ Hx); lia|].
  destruct (h !! t') eqn:E; [|done]. specialize (Hb _ _ E). lia.
Qed.

Lemma hist_ok_vote h t v : hist_ok h t None_id ∨ hist_ok h t v → v ≠ None_id →
  ∃ h', h ⊆ h' ∧ hist_ok h' t v.
Proof.
  intros Hh Hv. pose proof (proj2 (Z.eqb_neq v None_id) Hv) as Ev.
  assert (h ⊆ <[t := v]> h) as Hs.
  { destruct Hh as [[_ E]|[_ E]]; [by apply insert_subseteq|]. rewrite Ev in E. by rewrite insert_id. }
  exists (<[t := v]> h). split; [done|].
  split; [|rewrite Ev; apply lookup_insert_eq]. intros t0 x.
  destruct (decide (t0 = t)) as [->|]; [lia|]. rewrite lookup_insert_ne by done.
  destruct Hh as [[Hb _]|[Hb _]]; apply Hb.
Qed.

Section evolves.
Context {S : Type} `{Protobuf} `{!Storage S}.
Context (G : grants).
Implicit Types r : raft S.

#[export] Instance evolves_preorder : PreOrder (@evolves S G).
Proof.
  split.
  - intros r. split; auto; try done; exists []; rewrite app_nil_r; [done|]. split_and!; [done..|]. eauto.
  - intros r1 r2 r3 [I1 T1 V1 C1 (m1 & M1 & F1 & Q1) D1 L1 N1 W1 (a1 & A1 & G1 & B1 & H1)]
      [I2 T2 V2 C2 (m2 & M2 & F2 & Q2) D2 L2 N2 W2 (a2 & A2 & G2 & B2 & H2)].
    split; [congruence|lia| |lia| | | | | |].
    + intros Ht Hv. rewrite V2; [|lia|]; rewrite V1 by (lia || done); done.
    + exists (m1 ++ m2). rewrite M2, M1, app_assoc. split; [done|]. rewrite I1 in F2, Q2.
      split; apply Forall_app; (split; [|done]); [done|]. eapply Forall_impl; [exact Q1|].
      intros m Hm Ht. destruct (Hm Ht). split; [done|lia].
    + destruct D2 as [?|[?|[[E1 E2]|?]]]; [auto|right; left; congruence| |auto]. rewrite E1, E2. done.
    + intros Hl. destruct (L2 Hl) as [[Hs E]|]; [rewrite E|]; auto.
    + intros Hc. destruct (N2 Hc) as [[Hs E]|]; [|right; lia]. destruct (N1 Hs) as [[? ?]|]; [left; split; [done|lia]|right; lia].
    + intros Hc j Hj. destruct (W2 Hc j Hj) as [(Hc2 & E & Hj2)|]; [|auto]. rewrite E. auto.
    + exists (a1 ++ a2). rewrite A2, A1, app_assoc. split; [done|]. split; [by apply Forall_app|].
      rewrite I1 in B2. split; [by apply Forall_app|]. intros h Hh. destruct (H1 h Hh) as (h1 & S1 & O1 & K1). destruct (H2 h1 O1) as (h2 & S2 & O2 & K2).
      exists h2. split_and!; [by trans h1|done|]. apply Forall_app. rewrite I1 in K2. split; [|done].
      eapply Forall_impl; [exact K1|]. intros m. by apply grant_ok_mono.
Qed.

(** Nothing is promised. *)
Lemma later_nothing (after after' : list Message) id t v t' v' :
  after' = after → (∀ h, hist_ok h t v → ∃ h', h ⊆ h' ∧ hist_ok h' t' v') →
  ∃ new, after' = after ++ new ∧ Forall msg_later new ∧ Forall (answers G id) new ∧
    ∀ h, hist_ok h t v → ∃ h', h ⊆ h' ∧ hist_ok h' t' v' ∧ Forall (grant_ok id h') new.
Proof.
  intros E Hh. exists []. rewrite app_nil_r. split_and!; [done|by apply Forall_nil..|].
  intros h Ho. destruct (Hh h Ho) as (h' & ? & ?). exists h'. auto.
Qed.

Lemma msgs_nothing (msgs msgs' : list Message) id t :
  msgs' = msgs → ∃ new, msgs' = msgs ++ new ∧ Forall (msg_now id) new ∧ Forall (asks_ok id t) new.
Proof. intros E. exists []. by rewrite app_nil_r. Qed.

Lemma same_evolves r r' : same r r' → evolves G r r'.
Proof.
  intros (W & I & T & V & L & M & A & St & _). split; try (rewrite ?T, ?L, ?St; by auto);
    [by apply msgs_nothing|]. apply later_nothing; [done|]. rewrite T, V. eauto.
Qed.

Lemma rel_same_evolves {A} (m : RM S A) : rel same m → rel (@evolves S G) m.
Proof. apply rel_weaken, same_evolves. Qed.

(** The fields that the relation speaks of. *)
Definition core (r : raft S) :=
  (raft_id r, raft_Term r, raft_Vote r, raftLog_committed (raft_raftLog r), raft_msgs r, raft_msgsAfterAppend r).

(** A change of these fields alone, and of the votes and the role in ways that
    the relation allows. *)
Lemma core_evolves_with r r' :
  core r' = core r → (raft_state r' = StateLeader → raft_state r = StateLeader) →
  (raft_state r' = StateCandidate → raft_state r = StateCandidate) →
  (raft_state r' = StateCandidate → ∀ j, votes_of r' !! j = Some true →
    (raft_state r = StateCandidate ∧ votes_of r !! j = Some true) ∨ g_heard G (raft_Term r) j) →
  evolves G r r'.
Proof.
  intros [= I T V L M A] Hl Hs Hv. split; try (rewrite ?T, ?L; by auto); [by apply msgs_nothing|rewrite T; naive_solver|].
  apply later_nothing; [done|]. rewrite T, V. eauto.
Qed.

Lemma core_evolves r r' :
  core r' = core r → (raft_state r' = StateLeader → raft_state r = StateLeader) →
  (raft_state r' = StateCandidate → raft_state r = StateCandidate) → votes_of r' = votes_of r →
  evolves G r r'.
Proof. intros Hc Hl Hs Hv. apply core_evolves_with; [done..|]. rewrite Hv. auto. Qed.

Lemma ev_modify f :
  (∀ r, core (f r) = core r) → (∀ r, raft_state (f r) = StateLeader → raft_state r = StateLeader) →
  (∀ r, raft_state (f r) = StateCandidate → raft_state r = StateCandidate) →
  (∀ r, votes_of (f r) = votes_of r) →
  rel (@evolves S G) (modify f).
Proof. intros Hf Hl Hs Hv. apply rel_modify. intros. apply core_evolves; auto. Qed.

(** Replacing the log by one that is committed at least as far. *)
Lemma ev_set_log r l :
  raftLog_committed (raft_raftLog r) <= raftLog_committed l → evolves G r (set_raft_raftLog l r).
Proof. intros Hl. split; auto; try done; [by apply msgs_nothing|]. apply later_nothing; [done|]. eauto. Qed.

Lemma commitTo_mono c (l l' : raftLog S) :
  raftLog_commitTo c l = Ok l' → raftLog_committed l <= raftLog_committed l'.
Proof.
  unfold raftLog_commitTo. zcase; [|by intros [= <-]]. destruct (raftLog_lastIndex l); cbn; [|done].
  zcase; [done|]. intros [= <-]. cbn. lia.
Qed.

Lemma append_committed es (l l' : raftLog S) i :
  raftLog_append es l = Ok (i, l') → raftLog_committed l' = raftLog_committed l.
Proof.
  unfold raftLog_append. destruct es as [|e es].
  - destruct (raftLog_lastIndex l); cbn; [|done]. by intros [= _ <-].
  - zcase; [done|]. destruct (unstable_truncateAndAppend _ _); cbn; [|done].
    destruct (raftLog_lastIndex _); cbn; [|done]. by intros [= _ <-].
Qed.

Lemma maybeAppend_mono a c (l l' : raftLog S) x :
  raftLog_maybeAppend a c l = Ok (x, l') → raftLog_committed l <= raftLog_committed l'.
Proof.
  unfold raftLog_maybeAppend. intros (m & _ & E)%bind_Ok. destruct m; cbn [negb] in E; [|by injection E as _ <-].
  apply bind_Ok in E as (ci & _ & E). apply bind_Ok in E as (l1 & E1 & E).
  apply bind_Ok in E as (l2 & E2 & E). injection E as _ <-. apply commitTo_mono in E2.
  assert (raftLog_committed l1 = raftLog_committed l) as Hc; [|lia].
  destruct (ci =? 0); [by injection E1 as <-|]. destruct (ci <=? _); [done|].
  destruct (_ <? _); [done|]. apply bind_Ok in E1 as (es & _ & E1). apply bind_Ok in E1 as ([i l3] & E3 & E1).
  injection E1 as <-. by apply append_committed in E3.
Qed.

Lemma maybeCommit_mono id (l l' : raftLog S) b :
  raftLog_maybeCommit id l = Ok (b, l') → raftLog_committed l <= raftLog_committed l'.
Proof.
  unfold raftLog_maybeCommit. intros (ok & _ & E)%bind_Ok. destruct ok; [|by injection E as _ <-].
  apply bind_Ok in E as (l1 & E1 & E). injection E as _ <-. by apply commitTo_mono in E1.
Qed.

Lemma appliedTo_committed i size (l l' : raftLog S) :
  raftLog_appliedTo i size l = Ok l' → raftLog_committed l' = raftLog_committed l.
Proof.
  unfold raftLog_appliedTo. destruct (_ || _); [done|]. intros [= <-]. cbn. by destruct (_ <? _).
Qed.

Lemma stableTo_committed id (l l' : raftLog S) :
  raftLog_stableTo id l = Ok l' → raftLog_committed l' = raftLog_committed l.
Proof. unfold raftLog_stableTo. destruct (unstable_stableTo _ _); cbn; [|done]. by intros [= <-]. Qed.

(** ** Sending *)

(** The message that is sent is [m] with sender and term filled in. *)
Definition filled (id : Z) (m x : Message) : Prop :=
  Message_GetType x = Message_GetType m ∧ Message_GetTo x = Message_GetTo m ∧
  Message_GetReject x = Message_GetReject m ∧
  Message_GetFrom x = (if Message_GetFrom m =? None_id then id else Message_GetFrom m) ∧
  (is_vote_type (Message_GetType m) = true → Message_GetTerm x = Message_GetTerm m ∧ Message_GetTerm m ≠ 0) ∧
  (Message_GetIndex x, Message_GetLogTerm x, Message_GetEntries x) =
    (Message_GetIndex m, Message_GetLogTerm m, Message_GetEntries m).

(** Sending changes nothing but the two message queues. *)
Lemma send_exact m r u r' :
  raft_send m r = Ok (u, r') → ∃ x, filled (raft_id r) m x ∧ Message_GetCommit x = Message_GetCommit m ∧
  (is_vote_type (Message_GetType m) = false → Message_GetType m ≠ MsgProp → Message_GetType m ≠ MsgReadIndex →
     Message_GetTerm x = raft_Term r) ∧
  ((promise (Message_GetType m) ∧ r' = set_raft_msgsAfterAppend (raft_msgsAfterAppend r ++ [x]) r) ∨
   (¬ promise (Message_GetType m) ∧ Message_GetTo m ≠ raft_id r ∧ r' = set_raft_msgs (raft_msgs r ++ [x]) r)).
Proof.
  unfold raft_send. intros E. run_inv E. injection E0 as <- <-.
  remember (if Message_GetFrom m =? None_id then set_Message_From (Some (raft_id r)) m else m) as m1 eqn:Em.
  assert (Message_GetType m1 = Message_GetType m ∧ Message_GetTo m1 = Message_GetTo m ∧
    Message_GetReject m1 = Message_GetReject m ∧ Message_GetTerm m1 = Message_GetTerm m ∧
    Message_GetFrom m1 = (if Message_GetFrom m =? None_id then raft_id r else Message_GetFrom m) ∧
    Message_GetCommit m1 = Message_GetCommit m ∧
    (Message_GetIndex m1, Message_GetLogTerm m1, Message_GetEntries m1) =
      (Message_GetIndex m, Message_GetLogTerm m, Message_GetEntries m))
    as (Ht & Hto & Hrej & Hte & Hf & Hc & Hlg) by (rewrite Em; by destruct (_ =? _)).
  clear Em. run_inv E. exists x.
  assert (r0 = r ∧ filled (raft_id r) m x ∧ Message_GetCommit x = Message_GetCommit m ∧
    (is_vote_type (Message_GetType m) = false → Message_GetType m ≠ MsgProp → Message_GetType m ≠ MsgReadIndex →
     Message_GetTerm x = raft_Term r)) as (-> & Hx & Hxc & Hxt).
  { unfold filled. rewrite <- Ht, <- Hto, <- Hrej, <- Hf, <- Hte, <- Hlg, <- Hc. clear -E0. revert E0.
    destruct (is_vote_type (Message_GetType m1)); destruct (Z.eqb_spec (Message_GetTerm m1) 0); cbn [negb];
      try done; [by intros [= <- <-]|]. destruct (mt_eqb_spec (Message_GetType m1) MsgProp);
      destruct (mt_eqb_spec (Message_GetType m1) MsgReadIndex); cbn [negb andb]; by intros [= <- <-]. }
  split_and!; [done..|]. destruct Hx as (_ & Hxto & _). rewrite Ht in E.
  rewrite <- waits_for_append_spec. destruct (waits_for_append (Message_GetType m)).
  - left. by injection E as _ <-.
  - right. rewrite Hxto in E. destruct (Z.eqb_spec (Message_GetTo m) (raft_id r)); [done|]. by injection E as _ <-.
Qed.

Lemma send_effect m r u r' :
  raft_send m r = Ok (u, r') → ∃ x, filled (raft_id r) m x ∧
  ((promise (Message_GetType m) ∧ r' = set_raft_msgsAfterAppend (raft_msgsAfterAppend r ++ [x]) r) ∨
   (¬ promise (Message_GetType m) ∧ Message_GetTo m ≠ raft_id r ∧ r' = set_raft_msgs (raft_msgs r ++ [x]) r)).
Proof. intros (x & ? & _ & _ & ?)%send_exact. by exists x. Qed.

(** A grant may be sent when it is what the node has voted; writes to storage
    are not sent this way. *)
Definition may_send (m : Message) (r : raft S) : Prop :=
  Message_GetType m ≠ MsgStorageAppend ∧
  (is_grant m → Message_GetFrom m = None_id ∧ Message_GetTerm m = raft_Term r ∧ Message_GetTo m = raft_Vote r ∧
     Message_GetTo m = raft_id r) ∧
  (Message_GetType m = MsgVote → Message_GetFrom m = None_id ∧ Message_GetTerm m = raft_Term r).

Lemma ev_send_at m r u r' : raft_send m r = Ok (u, r') → may_send m r → evolves G r r'.
Proof.
  intros E (Hsa & Hm & Hask). apply send_effect in E as (x & (Ht & Hto & Hrej & Hf & Hte & _) & [(Hp & ->)|(Hp & Hne & ->)]).
  - split; auto; try done; [by apply msgs_nothing|]. exists [x]. split_and!; [done|..].
    { apply Forall_singleton. unfold msg_later. by rewrite Ht. }
    { apply Forall_singleton. intros (Gt & Gr & Gto). left. rewrite Hto.
      apply Hm. unfold is_grant. rewrite <- Hrej, <- Hto, <- Ht. auto. }
    intros h Hh. exists h. split_and!; [done..|]. apply Forall_singleton. intros (Gt & Gr & Gto).
    rewrite Ht in Gt. destruct Hm as (Mf & Mt & Mv & _); [unfold is_grant; rewrite <- Hrej, <- Hto; auto|].
    rewrite Gt in Hte. destruct (Hte eq_refl) as [Et Enz]. rewrite Hf, Mf, Et. split_and!; [done..|].
    rewrite Hto in Gto. destruct Hh as [_ Hh]. rewrite Mt, Hh, Hto, Mv.
    rewrite (proj2 (Z.eqb_neq _ _)) by congruence. done.
  - split; auto; try done; [|by apply later_nothing; eauto].
    exists [x]. split; [done|]. split; apply Forall_singleton; [unfold msg_now; by rewrite Ht, Hto|].
    intros Hv. rewrite Ht in Hv. destruct (Hask Hv) as [Mf Mt]. rewrite Hv in Hte. destruct (Hte eq_refl) as [-> _].
    rewrite Hf, Mf, Mt. done.
Qed.

(** Messages other than votes, requests for them and writes. *)
Definition plain_type (t : MessageType) : bool :=
  match t with MsgVoteResp | MsgVote | MsgStorageAppend => false | _ => true end.

Lemma ev_send m : plain_type (Message_GetType m) = true → rel (@evolves S G) (raft_send m).
Proof.
  intros Hm r u r' E. eapply ev_send_at; [done|]. split_and!; [|intros [Ht _]|intros Ht]; intros; by destruct (Message_GetType m).
Qed.

Hint Extern 1 (rel (@evolves S G) (raft_send _)) => apply ev_send; reflexivity : rel.
Hint Resolve rel_same_evolves : rel.
Hint Extern 2 (rel (@evolves S G) (modify _)) => apply ev_modify; done : rel.

Lemma ev_maybeSendSnapshot to : rel (@evolves S G) (raft_maybeSendSnapshot to).
Proof. unfold raft_maybeSendSnapshot. rel_auto. Qed.
Hint Resolve ev_maybeSendSnapshot : rel.

Lemma ev_maybeSendAppend to b : rel (@evolves S G) (raft_maybeSendAppend to b).
Proof. unfold raft_maybeSendAppend. rel_auto. Qed.
Hint Resolve ev_maybeSendAppend : rel.

Lemma ev_sendAppend to : rel (@evolves S G) (raft_sendAppend to).
Proof. unfold raft_sendAppend. rel_auto. Qed.
Hint Resolve ev_sendAppend : rel.

Lemma ev_sendHeartbeat to ctx : rel (@evolves S G) (raft_sendHeartbeat to ctx).
Proof. unfold raft_sendHeartbeat. rel_auto. Qed.
Hint Resolve ev_sendHeartbeat : rel.

Lemma ev_bcastAppend : rel (@evolves S G) raft_bcastAppend.
Proof. unfold raft_bcastAppend. rel_auto. Qed.
Hint Resolve ev_bcastAppend : rel.

Lemma ev_bcastHeartbeat : rel (@evolves S G) raft_bcastHeartbeat.
Proof. unfold raft_bcastHeartbeat, raft_bcastHeartbeatWithCtx. rel_auto. Qed.
Hint Resolve ev_bcastHeartbeat : rel.

Lemma ev_sendTimeoutNow to : rel (@evolves S G) (raft_sendTimeoutNow to).
Proof. unfold raft_sendTimeoutNow. rel_auto. Qed.
Hint Resolve ev_sendTimeoutNow : rel.

Lemma ev_maybeCommit : rel (@evolves S G) raft_maybeCommit.
Proof.
  apply rel_bind; [apply _|apply rel_get, _|]. intros r0. apply rel_on_log. intros r b l E.
  by apply ev_set_log, (maybeCommit_mono _ _ _ _ E).
Qed.
Hint Resolve ev_maybeCommit : rel.

Lemma ev_committedEntryInCurrentTerm : rel (@evolves S G) raft_committedEntryInCurrentTerm.
Proof. unfold raft_committedEntryInCurrentTerm. rel_auto. Qed.
Hint Resolve ev_committedEntryInCurrentTerm : rel.

Lemma ev_increaseUncommittedSize es : rel (@evolves S G) (raft_increaseUncommittedSize es).
Proof. unfold raft_increaseUncommittedSize. rel_auto. Qed.
Hint Resolve ev_increaseUncommittedSize : rel.

Lemma ev_appendEntry es : rel (@evolves S G) (raft_appendEntry es).
Proof.
  unfold raft_appendEntry. rel_auto. apply rel_on_log. intros r i l E.
  apply ev_set_log. by rewrite (append_committed _ _ _ _ E).
Qed.
Hint Resolve ev_appendEntry : rel.

(** ** Roles *)

(** A reset to the current term. *)
Lemma ev_reset_same r u r' : raft_reset (raft_Term r) r = Ok (u, r') → evolves G r r'.
Proof. intros E. apply reset_effect in E as [E _]. rewrite Z.eqb_refl in E. by apply same_evolves. Qed.

Lemma becomeFollower_effect term lead r u r' :
  raft_becomeFollower term lead r = Ok (u, r') →
  same (set_raft_step stepFollower_f (set_raft_state StateFollower
         (if raft_Term r =? term then r else set_raft_Vote None_id (set_raft_Term term r)))) r'.
Proof.
  unfold raft_becomeFollower. intros E. run_inv E. injection E0 as _ <-. run_inv E.
  apply reset_effect in E0 as [(W & I & T & V & L & M & A & St & Sp) _]. do 2 (run_inv E). injection E0 as _ <-.
  injection E1 as _ <-. injection E as _ <-. unfold same. cbn.
  rewrite I, T, V, L, M, A, Sp. cbn in *. by destruct (_ =? _).
Qed.

Lemma becomeFollower_term term lead r u r' :
  raft_becomeFollower term lead r = Ok (u, r') →
  raft_Term r' = term ∧ raft_state r' = StateFollower ∧ raft_raftLog r' = raft_raftLog r.
Proof.
  intros E. apply becomeFollower_effect in E as (_ & _ & T & _ & L & _ & _ & St & _).
  rewrite T, L, St. cbn. destruct (Z.eqb_spec (raft_Term r) term); done.
Qed.

Lemma ev_becomeFollower term lead r u r' :
  raft_becomeFollower term lead r = Ok (u, r') → raft_Term r <= term → evolves G r r'.
Proof.
  intros E Ht. apply becomeFollower_effect in E. etrans; [|apply same_evolves, E].
  destruct (Z.eqb_spec (raft_Term r) term) as [|Hne];
    (split; cbn; auto; try done; try lia; [by apply msgs_nothing|apply later_nothing; [done|]; cbn; eauto]).
  intros h Hh. exists h. split; [done|]. eapply hist_ok_next; [done|lia].
Qed.

Lemma ev_becomeCandidate r u r' :
  raft_becomeCandidate r = Ok (u, r') → 0 <= raft_Term r < MaxUint64 → evolves G r r'.
Proof.
  unfold raft_becomeCandidate. intros E Ht. run_inv E. injection E0 as <- <-.
  destruct (st_eqb _ _); [done|]. run_inv E. injection E0 as _ <-. run_inv E.
  rewrite add64_small in E0 by lia. apply reset_effect in E0 as [E0 Hno]. cbn in E0.
  rewrite (proj2 (Z.eqb_neq _ _)) in E0 by lia. destruct E0 as (_ & I & T & V & L & M & A & _). cbn in *.
  run_inv E. run_inv E. injection E0 as _ <-. injection E1 as _ <-. injection E as _ <-.
  split; cbn; rewrite ?I, ?T, ?L, ?M, ?A; auto; try done; try lia;
    [by apply msgs_nothing|intros _ j Hj; by destruct (Hno j)|].
  apply later_nothing; [done|]. cbn. rewrite ?T. intros h Hh.
  destruct (decide (raft_id r = None_id)) as [->|Hid].
  - exists h. split; [done|]. eapply hist_ok_next; [done|lia].
  - apply hist_ok_vote; [left|done]. eapply hist_ok_next; [done|lia].
Qed.

(** The vote of a candidate is its own. *)
Lemma becomeCandidate_vote r u r' :
  raft_becomeCandidate r = Ok (u, r') → raft_Vote r' = raft_id r' ∧ raft_id r' = raft_id r.
Proof.
  unfold raft_becomeCandidate. intros E. run_inv E. injection E0 as <- <-.
  destruct (st_eqb _ _); [done|]. run_inv E. injection E0 as _ <-. run_inv E.
  apply reset_effect in E0 as [(_ & I & _) _]. do 2 run_inv E. injection E0 as _ <-.
  injection E1 as _ <-. injection E as _ <-. cbn. rewrite I. by destruct (_ =? _).
Qed.

Lemma ev_becomePreCandidate : rel (@evolves S G) raft_becomePreCandidate.
Proof.
  unfold raft_becomePreCandidate. apply rel_get_bind. intros r b r' E. destruct (st_eqb _ _); [done|].
  injection E as _ <-. by apply core_evolves_with.
Qed.
Hint Resolve ev_becomePreCandidate : rel.

Lemma ev_stepDown lead : rel (@evolves S G) (r ← get; raft_becomeFollower (raft_Term r) lead).
Proof. apply rel_get_bind. intros r b r' E. by eapply ev_becomeFollower. Qed.

(** Only a node that was granted leadership becomes the leader, and only from
    candidacy. *)
Lemma ev_becomeLeader r u r' :
  raft_becomeLeader r = Ok (u, r') →
  (raft_state r ≠ StateFollower → g_lead G (raft_Term r)) → evolves G r r'.
Proof.
  unfold raft_becomeLeader. intros E Hg. run_inv E. injection E0 as <- <-.
  unfold st_eqb in E. case_bool_decide as Hst; [done|]. specialize (Hg Hst).
  run_inv E. injection E0 as _ <-. run_inv E.
  change (raft_Term r) with (raft_Term (set_raft_step stepLeader_f r)) in E0.
  pose proof (reset_effect _ _ _ _ E0) as [(_ & _ & T & _) _]. rewrite Z.eqb_refl in T. cbn in T.
  apply ev_reset_same in E0. etrans; [|etrans; [exact E0|]]; [by apply core_evolves; auto|].
  do 3 (run_inv E). injection E1 as _ <-. injection E2 as _ <-. injection E3 as _ <-.
  match type of E with _ ?r2 = _ => trans r2 end.
  - split; cbn; rewrite ?T; auto; try done; [by apply msgs_nothing|apply later_nothing; eauto].
  - lazymatch type of E with ?m _ = _ => assert (rel (@evolves S G) m) as Hm by rel_auto end. by eapply Hm.
Qed.

(** ** Elections *)

(** A candidate asks for votes in its term, for which it has voted for itself;
    a pre-candidate asks for no vote yet. *)
Definition campaigning (term : Z) (vm : MessageType) (r : raft S) : Prop :=
  vm = MsgPreVote ∨ vm = MsgVote ∧ raft_Term r = term ∧ raft_Vote r = raft_id r.

Definition campaign_rel (term : Z) (vm : MessageType) (r r' : raft S) : Prop :=
  campaigning term vm r → evolves G r r' ∧ campaigning term vm r'.

Instance campaign_preorder term vm : PreOrder (campaign_rel term vm).
Proof.
  split; [by intros r Hc|]. intros r1 r2 r3 H1 H2 Hc. destruct (H1 Hc) as [He1 Hc1].
  destruct (H2 Hc1) as [He2 Hc2]. split; [by trans r2|done].
Qed.

Lemma campaign_send_rel t term vm id : rel (campaign_rel term vm) (campaign_send t term vm id).
Proof.
  apply rel_get_bind. intros r b r' E Hc.
  assert (∀ m r', raft_send m r = Ok (b, r') → may_send m r → evolves G r r' ∧ campaigning term vm r') as Hsend.
  { intros m r1 Es Hm. split; [by eapply ev_send_at|]. clear E.
    apply send_effect in Es as (x & _ & [(_ & ->)|(_ & _ & ->)]); exact Hc. }
  destruct (Z.eqb_spec id (raft_id r)) as [->|Hne]; run_inv E; apply bind_Ok in E0 as (y & Ey & [= <- <-]).
  - apply Hsend in E; [done|]. split; [by destruct Hc as [->|(-> & _)]; injection Ey as <-|].
    split; [|destruct Hc as [->|(-> & _)]; injection Ey as <-; done].
    intros (Ht & _ & _). cbn in Ht.
    destruct Hc as [->|(-> & Hte & Hv)]; [cbn in Ey; congruence|]. cbn. rewrite Hte, Hv. done.
  - apply Hsend in E; [done|]. destruct Hc as [->|(-> & Hte & _)]; (split_and!; [done|by intros (? & _)|done]).
Qed.

Lemma ev_campaign t r u r' :
  raft_campaign t r = Ok (u, r') → 0 <= raft_Term r < MaxUint64 → evolves G r r'.
Proof.
  unfold raft_campaign. intros E Ht. run_inv E. run_inv E. injection E1 as <- <-.
  assert (evolves G r r0 ∧ campaigning x.1 x.2 r0) as [He Hc].
  { unfold campaigning. destruct t; run_inv E0; run_inv E0; injection E2 as <- <-; injection E0 as <- <-;
      [split; [by eapply ev_becomePreCandidate|by left]|..];
      (split; [by eapply ev_becomeCandidate|right; apply becomeCandidate_vote in E1 as [? _]; done]). }
  trans r0; [done|]. apply (rel_for_each _ _ _ (campaign_send_rel t x.1 x.2)) in E.
  by apply E.
Qed.

Lemma same_hasUnappliedConfChanges : rel (@same S) raft_hasUnappliedConfChanges.
Proof. unfold raft_hasUnappliedConfChanges. rel_auto. Qed.
Hint Resolve same_hasUnappliedConfChanges : rel.

Lemma ev_hup t r u r' :
  raft_hup t r = Ok (u, r') → 0 <= raft_Term r < MaxUint64 → evolves G r r'.
Proof.
  unfold raft_hup. intros E Ht. run_inv E. injection E0 as <- <-.
  destruct (st_eqb _ _); [by injection E as _ <-|]. destruct (negb _); [by injection E as _ <-|].
  run_inv E. run_same E0 Hs. destruct x; [injection E as _ <-; by apply same_evolves|].
  trans r0; [by apply same_evolves|]. apply ev_campaign in E; [done|]. by destruct Hs as (_ & _ & -> & _).
Qed.

(** ** Reads *)

Lemma ev_answer_read req i : rel (@evolves S G) (answer_read req i).
Proof.
  intros r u r' E. unfold answer_read, raft_responseToReadIndexReq in E. run_inv E. run_inv E0.
  injection E1 as <- <-. destruct (_ || _).
  - run_inv E0. run_inv E0. apply bind_Ok in E1 as (? & _ & [= <- <-]). injection E2 as _ <-.
    injection E0 as <- <-. injection E as _ <-. by apply core_evolves.
  - injection E0 as <- <-. destruct (negb _); [|by injection E as _ <-].
    eapply ev_send; [|exact E]. done.
Qed.
Hint Resolve ev_answer_read : rel.

Lemma ev_sendMsgReadIndexResponse m : rel (@evolves S G) (sendMsgReadIndexResponse m).
Proof. unfold sendMsgReadIndexResponse. rel_auto. Qed.
Hint Resolve ev_sendMsgReadIndexResponse : rel.

Lemma ev_releasePendingReadIndexMessages : rel (@evolves S G) releasePendingReadIndexMessages.
Proof. unfold releasePendingReadIndexMessages. rel_auto. Qed.
Hint Resolve ev_releasePendingReadIndexMessages : rel.

(** ** Handlers *)

Lemma ev_switchToConfig cfg trk : rel (@evolves S G) (raft_switchToConfig cfg trk).
Proof.
  unfold raft_switchToConfig. apply rel_bind; [apply _|by apply ev_modify|intros _].
  apply rel_bind; [apply _|apply rel_get, _|intros r0].
  apply rel_bind; [apply _|by apply ev_modify|intros _].
  apply rel_get_bind. intros r b r' E. destruct (_ && _).
  - run_inv E. injection E as _ <-. destruct (raft_stepDownOnRemoval r); cbn in E0.
    + by eapply ev_becomeFollower.
    + by injection E0 as _ <-.
  - lazymatch type of E with ?m _ = _ => assert (rel (@evolves S G) m) as Hm by rel_auto end. by eapply Hm.
Qed.
Hint Resolve ev_switchToConfig : rel.

Lemma ev_applyConfChange cc : rel (@evolves S G) (raft_applyConfChange cc).
Proof. unfold raft_applyConfChange. rel_auto. Qed.

Lemma ev_handleAppendEntries m : rel (@evolves S G) (raft_handleAppendEntries m).
Proof.
  unfold raft_handleAppendEntries. rel_auto. apply rel_on_log. intros r b l E.
  by apply ev_set_log, (maybeAppend_mono _ _ _ _ _ E).
Qed.
Hint Resolve ev_handleAppendEntries : rel.

Lemma ev_commitTo c : rel (@evolves S G) (on_log_ (raftLog_commitTo c)).
Proof. apply rel_on_log_. intros r l E. by apply ev_set_log, (commitTo_mono _ _ _ E). Qed.
Hint Resolve ev_commitTo : rel.

Lemma ev_handleHeartbeat m : rel (@evolves S G) (raft_handleHeartbeat m).
Proof. unfold raft_handleHeartbeat. rel_auto. Qed.
Hint Resolve ev_handleHeartbeat : rel.

Ltac rest_evolves E :=
  let Hm := fresh in
  lazymatch type of E with
  | ?m _ = _ => assert (rel (@evolves S G) m) as Hm by rel_auto; by eapply Hm
  end.

Lemma ev_restore s r b r' :
  raft_restore s r = Ok (b, r') → 0 <= raft_Term r < MaxUint64 → evolves G r r'.
Proof.
  unfold raft_restore. intros E Ht. run_inv E. injection E0 as <- <-.
  destruct (Z.leb_spec (snap_index (Some s)) (raftLog_committed (raft_raftLog r))) as [Hle|Hgt];
    [by injection E as _ <-|].
  destruct (negb (st_eqb _ _)).
  { run_inv E. injection E as _ <-. eapply ev_becomeFollower; [done|]. rewrite add64_small; lia. }
  destruct (negb _); [by injection E as _ <-|]. run_inv E. apply bind_Ok in E0 as (? & _ & [= <- <-]).
  destruct x0; [rest_evolves E|]. run_inv E. injection E0 as _ <-.
  etrans; [apply (ev_set_log r (raftLog_restore s (raft_raftLog r))); cbn; lia|]. rest_evolves E.
Qed.

Lemma ev_handleSnapshot m r u r' :
  raft_handleSnapshot m r = Ok (u, r') → 0 <= raft_Term r < MaxUint64 → evolves G r r'.
Proof.
  unfold raft_handleSnapshot. intros E Ht. run_inv E. apply ev_restore in E0; [|done].
  etrans; [exact E0|]. rest_evolves E.
Qed.

Lemma ev_forward_to_leader m :
  plain_type (Message_GetType m) = true → rel (@evolves S G) (forward_to_leader m).
Proof. intros Ht. apply rel_get_bind. intros r. by apply ev_send. Qed.
Hint Extern 1 (rel (@evolves S G) (forward_to_leader _)) => apply ev_forward_to_leader; match goal with E : _ = _ |- _ => by rewrite E end : rel.

Lemma same_hear_leader m : rel (@same S) (hear_leader m).
Proof. unfold hear_leader. rel_auto. Qed.
Hint Resolve same_hear_leader : rel.

Lemma ev_stepFollower m r u r' :
  stepFollower m r = Ok (u, r') → 0 <= raft_Term r < MaxUint64 → evolves G r r'.
Proof.
  unfold stepFollower. intros E Ht. run_inv E. injection E0 as <- <-.
  destruct (Message_GetType m) eqn:Et; try rest_evolves E.
  - run_inv E. run_inv E. injection E as _ <-. run_same E0 Hc.
    trans r0; [by apply same_evolves|]. eapply ev_handleSnapshot; [done|]. by destruct Hc as (_ & _ & -> & _).
  - run_inv E. injection E as _ <-. by eapply ev_hup.
Qed.

(** ** Candidates *)

Lemma poll_effect id v r x r' :
  raft_poll id v r = Ok (x, r') →
  r' = set_raft_trk (ProgressTracker_RecordVote id v (raft_trk r)) r ∧
  x = ProgressTracker_TallyVotes (ProgressTracker_RecordVote id v (raft_trk r)).
Proof.
  unfold raft_poll. intros E. run_inv E. injection E0 as _ <-. run_inv E. injection E0 as <- <-.
  by injection E as <- <-.
Qed.

Definition vote_won (m : Message) (r : raft S) : Prop :=
  (ProgressTracker_TallyVotes
     (ProgressTracker_RecordVote (Message_GetFrom m) (negb (Message_GetReject m)) (raft_trk r))).2 = VoteWon.

(** Recording one more vote. *)
Lemma RecordVote_true id v (p : ProgressTracker) j :
  ProgressTracker_Votes (ProgressTracker_RecordVote id v p) !! j = Some true →
  ProgressTracker_Votes p !! j = Some true ∨ j = id ∧ v = true.
Proof.
  unfold ProgressTracker_RecordVote. destruct (ProgressTracker_Votes p !! id) eqn:E; [by left|]. cbn.
  destruct (decide (j = id)) as [->|]; [rewrite lookup_insert_eq|rewrite lookup_insert_ne by done; by left].
  intros [= ->]. by right.
Qed.

Lemma ev_stepCandidate_vote m r u r' :
  stepCandidate_vote m r = Ok (u, r') → 0 <= raft_Term r < MaxUint64 →
  (raft_state r = StateCandidate → Message_GetReject m = false → g_heard G (raft_Term r) (Message_GetFrom m)) →
  (raft_state r ≠ StateFollower → raft_state r ≠ StatePreCandidate → vote_won m r → g_lead G (raft_Term r)) →
  evolves G r r'.
Proof.
  unfold stepCandidate_vote. intros E Ht Hh Hg. run_inv E. apply poll_effect in E0 as [-> ->].
  match type of E with _ ?r1 = _ => trans r1 end.
  { apply core_evolves_with; [done..|]. intros Hs j Hj. apply RecordVote_true in Hj as [Hj|[-> Hj]]; [by left|].
    right. apply Hh; [done|]. by destruct (Message_GetReject m). }
  run_inv E. injection E0 as <- <-. unfold vote_won in Hg. destruct ((ProgressTracker_TallyVotes _).2).
  - by injection E as _ <-.
  - by eapply ev_becomeFollower.
  - unfold st_eqb in E. case_bool_decide as Hst; [by eapply ev_campaign|].
    run_inv E. trans r0; [|rest_evolves E]. eapply ev_becomeLeader; [done|]. cbn. auto.
Qed.

(** Messages of a leader carry the current term when they reach a candidate. *)
Definition leader_msg (t : MessageType) : bool :=
  match t with MsgApp | MsgHeartbeat | MsgSnap => true | _ => false end.

(** The vote that this message completes grants leadership. *)
Definition won_here (m : Message) (r : raft S) : Prop :=
  Message_GetType m = MsgVoteResp → raft_state r ≠ StateFollower → raft_state r ≠ StatePreCandidate →
  vote_won m r → g_lead G (raft_Term r).

(** The vote that this message carries is recorded by a candidate. *)
Definition heard_here (m : Message) (r : raft S) : Prop :=
  Message_GetType m = MsgVoteResp → raft_state r = StateCandidate → Message_GetReject m = false →
  g_heard G (raft_Term r) (Message_GetFrom m).

Lemma ev_stepCandidate m r u r' :
  stepCandidate m r = Ok (u, r') → 0 <= raft_Term r < MaxUint64 →
  (leader_msg (Message_GetType m) = true → Message_GetTerm m = raft_Term r) →
  won_here m r → heard_here m r → evolves G r r'.
Proof.
  unfold stepCandidate. intros E Ht Hm Hg Hh. run_inv E. injection E0 as <- <-.
  assert (∀ x r1, leader_msg (Message_GetType m) = true →
    raft_becomeFollower (Message_GetTerm m) (Message_GetFrom m) r = Ok (x, r1) →
    evolves G r r1 ∧ raft_Term r1 = raft_Term r) as Hf.
  { intros x r1 Hl Ef. rewrite Hm in Ef by done. split; [by eapply ev_becomeFollower|].
    by apply becomeFollower_term in Ef as [-> _]. }
  unfold won_here in Hg. unfold heard_here in Hh. destruct (Message_GetType m); try rest_evolves E.
  - run_inv E. apply Hf in E0 as [He _]; [|done]. etrans; [exact He|]. rest_evolves E.
  - destruct (st_eqb _ _); [by injection E as _ <-|]. run_inv E. injection E as _ <-.
    eapply ev_stepCandidate_vote; [done..|auto|]. by apply Hg.
  - run_inv E. apply Hf in E0 as [He Hte]; [|done]. etrans; [exact He|]. run_inv E. injection E as _ <-.
    eapply ev_handleSnapshot; [done|]. by rewrite Hte.
  - run_inv E. apply Hf in E0 as [He _]; [|done]. etrans; [exact He|]. rest_evolves E.
  - unfold st_eqb in E. case_bool_decide as Hst; [|by injection E as _ <-]. run_inv E. injection E as _ <-.
    eapply ev_stepCandidate_vote; [done..|congruence|done].
Qed.

(** ** Leaders *)

Lemma ev_stepLeader_CheckQuorum : rel (@evolves S G) stepLeader_CheckQuorum.
Proof.
  apply rel_get_bind. intros r b r' E. run_inv E. trans r0; [|rest_evolves E].
  destruct (negb _); cbn in E0; [by eapply ev_becomeFollower|by injection E0 as _ <-].
Qed.
Hint Resolve ev_stepLeader_CheckQuorum : rel.

Lemma ev_check_prop_entry i e : rel (@evolves S G) (check_prop_entry i e).
Proof. unfold check_prop_entry. rel_auto. Qed.
Hint Resolve ev_check_prop_entry : rel.

Lemma ev_check_prop_entries i es : rel (@evolves S G) (check_prop_entries i es).
Proof. revert i. induction es; intros i; cbn; rel_auto. Qed.
Hint Resolve ev_check_prop_entries : rel.

Lemma ev_stepLeader_Prop m : rel (@evolves S G) (stepLeader_Prop m).
Proof. unfold stepLeader_Prop. rel_auto. Qed.
Hint Resolve ev_stepLeader_Prop : rel.

Lemma ev_stepLeader_ReadIndex m : rel (@evolves S G) (stepLeader_ReadIndex m).
Proof. unfold stepLeader_ReadIndex. rel_auto. Qed.
Hint Resolve ev_stepLeader_ReadIndex : rel.

Lemma ev_send_all_loop fuel to : rel (@evolves S G) (send_all_loop fuel to).
Proof. induction fuel; cbn; rel_auto. Qed.
Hint Resolve ev_send_all_loop : rel.

Lemma ev_send_all to : rel (@evolves S G) (send_all to).
Proof. unfold send_all. rel_auto. Qed.
Hint Resolve ev_send_all : rel.

Lemma ev_stepLeader_AppResp m : rel (@evolves S G) (stepLeader_AppResp m).
Proof.
  unfold stepLeader_AppResp, stepLeader_AppResp_reject, stepLeader_AppResp_accept, stepLeader_AppResp_state.
  rel_auto.
Qed.
Hint Resolve ev_stepLeader_AppResp : rel.

Lemma ev_stepLeader_HeartbeatResp m : rel (@evolves S G) (stepLeader_HeartbeatResp m).
Proof. unfold stepLeader_HeartbeatResp. rel_auto. Qed.
Hint Resolve ev_stepLeader_HeartbeatResp : rel.

Lemma ev_stepLeader_SnapStatus m : rel (@evolves S G) (stepLeader_SnapStatus m).
Proof. unfold stepLeader_SnapStatus. rel_auto. Qed.
Hint Resolve ev_stepLeader_SnapStatus : rel.

Lemma ev_stepLeader_Unreachable m : rel (@evolves S G) (stepLeader_Unreachable m).
Proof. unfold stepLeader_Unreachable. rel_auto. Qed.
Hint Resolve ev_stepLeader_Unreachable : rel.

Lemma ev_stepLeader_TransferLeader m : rel (@evolves S G) (stepLeader_TransferLeader m).
Proof. unfold stepLeader_TransferLeader. rel_auto. Qed.
Hint Resolve ev_stepLeader_TransferLeader : rel.

Lemma ev_stepLeader m : rel (@evolves S G) (stepLeader m).
Proof. unfold stepLeader, with_sender. rel_auto. Qed.

(** ** Step *)

(** A message as another node, or this node itself, may send it: its term leaves
    room for the next one, and what only a leader sends carries a term. *)
Definition msg_wf (m : Message) : Prop :=
  0 <= Message_GetTerm m < MaxUint64 ∧
  (leader_msg (Message_GetType m) = true → Message_GetTerm m ≠ 0).

Abbreviation term_in_range r := (0 <= raft_Term r < MaxUint64).

Lemma ev_run_step f m r u r' :
  run_step f m r = Ok (u, r') → term_in_range r →
  (leader_msg (Message_GetType m) = true → Message_GetTerm m = raft_Term r) →
  won_here m r → heard_here m r → evolves G r r'.
Proof.
  intros E Ht Hm Hg Hh. destruct f; cbn in E;
    [by eapply ev_stepFollower|by eapply ev_stepCandidate|by eapply ev_stepLeader].
Qed.

(** The step that [appliedTo] takes. *)
Definition ev_rec (rec : Message → RM S (option error)) : Prop :=
  ∀ r u r', rec (confChangeToMsg None) r = Ok (u, r') → term_in_range r → evolves G r r'.

Lemma on_log_term f r u r' : on_log_ f r = Ok (u, r') → raft_Term r' = raft_Term r.
Proof.
  unfold on_log_. intros E. run_inv E. injection E0 as <- <-. run_inv E.
  apply bind_Ok in E0 as (? & _ & [= <- <-]). by injection E as _ <-.
Qed.

Lemma ev_appliedTo rec i size r u r' :
  ev_rec rec → raft_appliedTo_with rec i size r = Ok (u, r') → term_in_range r → evolves G r r'.
Proof.
  intros Hrec. unfold raft_appliedTo_with. intros E Ht. run_inv E. injection E0 as <- <-. run_inv E.
  pose proof (on_log_term _ _ _ _ E0) as Hte.
  trans r0.
  { eapply rel_on_log_; [|exact E0]. intros r1 l El. apply ev_set_log.
    by rewrite (appliedTo_committed _ _ _ _ El). }
  run_inv E. injection E1 as <- <-. destruct (_ && _ && _).
  - run_inv E. injection E as _ <-. eapply Hrec; [done|]. by rewrite Hte.
  - by injection E as _ <-.
Qed.

Lemma ev_appliedSnap rec s r u r' :
  ev_rec rec → raft_appliedSnap_with rec s r = Ok (u, r') → term_in_range r → evolves G r r'.
Proof.
  intros Hrec E Ht. unfold raft_appliedSnap_with in E. run_inv E. injection E0 as _ <-.
  etrans; [|by eapply ev_appliedTo]. by apply core_evolves.
Qed.

(** A vote that this message asks for may be granted if the log of the
    candidate is up to date. *)
Definition voted_here (m : Message) (r : raft S) : Prop :=
  Message_GetType m = MsgVote →
  raftLog_isUpToDate (mkentryID (Message_GetLogTerm m) (Message_GetIndex m)) (raft_raftLog r) = Ok true →
  g_vote G (Message_GetTerm m) (Message_GetFrom m).

(** A message of this term, or a local message. *)
Definition counted_now (m : Message) (r : raft S) : Prop :=
  Message_GetTerm m = 0 ∨ Message_GetTerm m = raft_Term r.

(** The recorded vote and the response that grants it. *)
Lemma ev_vote_granted (m x : Message) r :
  filled (raft_id r) (set_Message_Term (Message_Term m) (Msg MsgVoteResp (Message_From m))) x →
  counted_now m r → raft_Vote r = Message_GetFrom m ∨ raft_Vote r = None_id →
  g_vote G (Message_GetTerm m) (Message_GetFrom m) →
  evolves G r (set_raft_Vote (Message_GetFrom m) (set_raft_electionElapsed 0
    (set_raft_msgsAfterAppend (raft_msgsAfterAppend r ++ [x]) r))).
Proof.
  intros (Ht & Hto & Hrej & Hf & Hte & _) Hc Hv Hg.
  change (Message_GetTo (set_Message_Term _ _)) with (Message_GetFrom m) in Hto.
  change (Message_GetTerm (set_Message_Term _ _)) with (Message_GetTerm m) in Hte.
  destruct (Hte eq_refl) as [Et Enz]. assert (Message_GetTerm m = raft_Term r) as Er by (by destruct Hc).
  split; cbn; rewrite ?Er in Hg; auto; try done; [|by apply msgs_nothing|].
  { intros _ Hn. destruct Hv; congruence. }
  exists [x]. split_and!; [done|apply Forall_singleton; right; left; by rewrite Ht|..].
  { apply Forall_singleton. intros _. right. by rewrite Et, Er, Hto. }
  intros h Hh.
  destruct (decide (Message_GetFrom m = None_id)) as [E0|Hn].
  - exists h. split_and!; [done|destruct Hv as [Hv|Hv]; rewrite Hv in Hh; by rewrite ?E0 in *|].
    apply Forall_singleton. intros (_ & _ & Hg'). congruence.
  - destruct (hist_ok_vote h (raft_Term r) (Message_GetFrom m)) as (h' & Hs & Hok); [|done|].
    { destruct Hv as [Hv|Hv]; rewrite Hv in Hh; auto. }
    exists h'. split_and!; [done..|]. apply Forall_singleton. intros _. rewrite Hf, Et, Hto, Er.
    split_and!; [done|congruence|]. destruct Hok as [_ ->]. by rewrite (proj2 (Z.eqb_neq _ _)).
Qed.

Lemma ev_Step_Vote m r u r' :
  Step_Vote m r = Ok (u, r') → voted_here m r → (Message_GetType m = MsgVote → counted_now m r) → evolves G r r'.
Proof.
  unfold Step_Vote. intros E Hg Hnow. run_inv E. injection E0 as <- <-. run_inv E.
  apply bind_Ok in E0 as (? & _ & [= <- <-]). run_inv E.
  assert (r0 = r) as -> by (destruct (_ || _ || _) in E0; [apply bind_Ok in E0 as (? & _ & [= _ <-])|injection E0 as _ <-]; done).
  run_inv E. apply bind_Ok in E1 as (resp & Eresp & [= <- <-]).
  assert (resp = MsgVoteResp ∨ resp = MsgPreVoteResp) as Hrs
    by (clear -Eresp; destruct (Message_GetType m); cbn in Eresp; simplify_eq; auto).
  destruct x; [|eapply ev_send_at; [done|]; split_and!; [by destruct Hrs as [-> | ->]|by intros (_ & ? & _)|by destruct Hrs as [-> | ->]]].
  run_inv E. destruct (mt_eqb_spec (Message_GetType m) MsgVote) as [Et|Et]; cbn in E.
  - rewrite Et in E0, Eresp. cbn in E0, Eresp. rewrite orb_false_r in E0. injection Eresp as <-.
    destruct (_ || _) eqn:Ec in E0; [|done]. apply bind_Ok in E0 as (ok & Eu & [= ->]).
    assert (raft_Vote r = Message_GetFrom m ∨ raft_Vote r = None_id) as Hv.
    { destruct (Z.eqb_spec (raft_Vote r) (Message_GetFrom m)); [by left|].
      destruct (Z.eqb_spec (raft_Vote r) None_id); [by right|done]. }
    apply send_effect in E1 as (y & Hy & [(_ & ->)|(Hp & _)]); [|destruct Hp; right; by left].
    injection E as _ <-. eapply ev_vote_granted; eauto.
  - injection E as _ <-. eapply ev_send; [|exact E1]. destruct Hrs as [-> | ->]; [|done].
    by destruct (Message_GetType m).
Qed.

Lemma ev_stableTo id : rel (@evolves S G) (on_log_ (raftLog_stableTo id)).
Proof. apply rel_on_log_. intros r l E. apply ev_set_log. by rewrite (stableTo_committed _ _ _ E). Qed.
Hint Resolve ev_stableTo : rel.

Lemma ev_Step_dispatch rec m r u r' :
  ev_rec rec → Step_dispatch rec m r = Ok (u, r') → term_in_range r →
  (leader_msg (Message_GetType m) = true → Message_GetTerm m = raft_Term r) →
  won_here m r → heard_here m r → voted_here m r → (Message_GetType m = MsgVote → counted_now m r) → evolves G r r'.
Proof.
  intros Hrec E Ht Hm Hw Hh Hg Hnow. unfold Step_dispatch in E. run_inv E. injection E0 as <- <-.
  destruct (Message_GetType m) eqn:Et; try (by eapply ev_run_step; [done|done|rewrite Et|..]);
    run_inv E; injection E as _ <-.
  - by eapply ev_hup.
  - eapply ev_Step_Vote; eauto.
  - eapply ev_Step_Vote; [done..|]. congruence.
  - unfold Step_StorageAppendResp in E0. run_inv E0.
    assert (evolves G r r1 ∧ raft_Term r1 = raft_Term r) as [He Hte].
    { destruct (negb _); cbn in E; [split; [by eapply ev_stableTo|by eapply on_log_term]|by injection E as _ <-]. }
    trans r1; [done|]. destruct (Message_GetSnapshot m); [|by injection E0 as _ <-].
    eapply ev_appliedSnap; [done..|]. by rewrite Hte.
  - unfold Step_StorageApplyResp in E0. destruct (last _); [|by injection E0 as _ <-].
    run_inv E0. trans r1; [by eapply ev_appliedTo|]. unfold raft_reduceUncommittedSize in E0. rest_evolves E0.
Qed.

(** A message of a later term leaves the node alone or makes it a follower. *)
Lemma Step_higher_term_ev m r b r' :
  Step_higher_term m r = Ok (b, r') → raft_Term r < Message_GetTerm m →
  evolves G r r' ∧ (leader_msg (Message_GetType m) = true → raft_Term r' = Message_GetTerm m) ∧
  (r' = r ∧ (b = false ∨ Message_GetType m = MsgPreVote ∨ Message_GetType m = MsgPreVoteResp) ∨
   raft_Term r' = Message_GetTerm m ∧ raft_state r' = StateFollower ∧ raft_raftLog r' = raft_raftLog r).
Proof.
  unfold Step_higher_term. intros E Ht. run_inv E. injection E0 as <- <-.
  assert (∀ lead, (_ ← raft_becomeFollower (Message_GetTerm m) lead; mret true) r = Ok (b, r') →
    evolves G r r' ∧
    raft_Term r' = Message_GetTerm m ∧ raft_state r' = StateFollower ∧ raft_raftLog r' = raft_raftLog r) as Hf.
  { intros lead E'. run_inv E'. injection E' as _ <-. split; [eapply ev_becomeFollower; [done|lia]|].
    by apply becomeFollower_term in E0. }
  cbn zeta in E. remember (Message_GetType m) as t eqn:Et. clear Et.
  destruct ((mt_eqb t MsgVote || mt_eqb t MsgPreVote) && _) eqn:Ev.
  { run_inv E. apply bind_Ok in E0 as (? & _ & [= <- <-]). injection E as <- <-.
    apply andb_true_iff in Ev as [Ev _]. split; [done|]. destruct t; try done; (split; [done|by auto]). }
  clear Ev. destruct (mt_eqb_spec t MsgPreVote) as [Hpv|Hpv]; [injection E as _ <-; rewrite Hpv; split_and!; [done..|by auto]|].
  destruct (mt_eqb t MsgPreVoteResp && _) eqn:Ep.
  { injection E as _ <-. apply andb_true_iff in Ep as [Ep _]. split; [done|]. destruct t; try done; (split; [done|by auto]). }
  destruct (_ || _ || _); apply Hf in E as (? & ? & ? & ?); auto 7.
Qed.

Lemma ev_Step_lower_term rec m r u r' :
  ev_rec rec → Step_lower_term rec m r = Ok (u, r') → term_in_range r → evolves G r r'.
Proof.
  intros Hrec E Ht. unfold Step_lower_term in E. run_inv E. injection E0 as <- <-.
  destruct (_ && _); [rest_evolves E|]. destruct (mt_eqb _ _); [rest_evolves E|].
  destruct (mt_eqb _ _); [|by injection E as _ <-].
  destruct (Message_GetSnapshot m); [by eapply ev_appliedSnap|by injection E as _ <-].
Qed.

(** What the message may grant, given the state it meets. *)
Definition Step_conditions (m : Message) (r : raft S) : Prop :=
  (counted_now m r → won_here m r ∧ heard_here m r) ∧ voted_here m r.

Lemma ev_Step_with rec m r u r' :
  ev_rec rec → Step_with rec m r = Ok (u, r') → term_in_range r → msg_wf m →
  Step_conditions m r → evolves G r r'.
Proof.
  intros Hrec E Ht [Hm Hl] [Hw Hg]. unfold Step_with in E. run_inv E. injection E0 as <- <-.
  destruct (Z.eqb_spec (Message_GetTerm m) 0) as [Hz|Hz].
  { destruct Hw as [Hw Hh]; [by left|]. eapply ev_Step_dispatch; [done..| |done|done|done|by left].
    intros HL. by destruct (Hl HL). }
  destruct (Z.ltb_spec (raft_Term r) (Message_GetTerm m)) as [Hlt|Hge].
  - run_inv E. apply Step_higher_term_ev in E0 as (He & Hle & Hc); [|done].
    trans r0; [done|]. destruct x; [|by injection E as _ <-].
    eapply ev_Step_dispatch; [done..| | | | | |].
    + destruct Hc as [(-> & _)|(-> & _)]; done.
    + intros HL. by rewrite Hle.
    + intros Hvr. destruct Hc as [(_ & [?|[?|?]])|(_ & Hs & _)]; congruence.
    + intros Hvr Hcand. destruct Hc as [(_ & [?|[?|?]])|(_ & Hs & _)]; congruence.
    + unfold voted_here. destruct Hc as [(-> & _)|(_ & _ & ->)]; done.
    + intros Hv. destruct Hc as [(_ & [?|[?|?]])|(Hte & _)]; [congruence..|]. right. congruence.
  - destruct (Z.ltb_spec (Message_GetTerm m) (raft_Term r)) as [Hlt|Hge'].
    + run_inv E. injection E as _ <-. by eapply ev_Step_lower_term.
    + assert (counted_now m r) as Hc by (right; lia). destruct (Hw Hc) as [Hw' Hh].
      eapply ev_Step_dispatch; [done..|lia|done|done|done|done].
Qed.

Lemma confChangeToMsg_wf c : msg_wf (confChangeToMsg c) ∧ Message_GetType (confChangeToMsg c) = MsgProp.
Proof. unfold confChangeToMsg. destruct (MarshalConfChange c). done. Qed.

Lemma ev_rec_Step rec : ev_rec rec → ev_rec (Step_with rec).
Proof.
  intros Hrec r u r' E Ht. destruct (confChangeToMsg_wf None) as [Hw Hp].
  eapply ev_Step_with; [done..|]. split; [intros _; split; intros Ht'|intros Ht']; congruence.
Qed.

Lemma ev_rec_panic why : ev_rec (fun _ => panic why).
Proof. intros r u r' [=]. Qed.

Lemma ev_Step m r u r' :
  raft_Step m r = Ok (u, r') → term_in_range r → msg_wf m →
  Step_conditions m r → evolves G r r'.
Proof. intros E. eapply ev_Step_with; [|exact E]. apply ev_rec_Step, ev_rec_panic. Qed.

(** Local messages and others that carry no vote grant nothing. *)
Lemma ev_Step_other m r u r' :
  raft_Step m r = Ok (u, r') → term_in_range r → msg_wf m →
  Message_GetType m ≠ MsgVoteResp → Message_GetType m ≠ MsgVote → evolves G r r'.
Proof. intros E Ht Hm H1 H2. eapply ev_Step; [done..|]. by split; [intros _; split|]; intros ?. Qed.

(** ** Ticks *)

(** The periodic check of the quorum does not change the term. *)
Lemma CheckQuorum_term from r u r' :
  raft_Step (set_Message_From from (set_Message_Type (Some MsgCheckQuorum) Message0)) r = Ok (u, r') →
  raft_Term r' = raft_Term r.
Proof.
  unfold raft_Step, Step_with. intros E. run_inv E. injection E0 as <- <-. cbn in E. run_inv E. injection E0 as <- <-.
  destruct (raft_step r); cbn in E; [run_inv E; injection E0 as <- <-; by injection E as _ <-..|].
  unfold stepLeader in E. cbn in E. run_inv E. injection E as _ <-. unfold stepLeader_CheckQuorum in E0.
  run_inv E0. injection E as <- <-. run_inv E0.
  assert (raft_Term r1 = raft_Term r) as <-.
  { destruct (negb _); cbn in E; [by apply becomeFollower_term in E as [? _]|by injection E as _ <-]. }
  run_same E0 Hs. by destruct Hs as (_ & _ & -> & _).
Qed.

Lemma ev_tickElection r u r' : raft_tickElection r = Ok (u, r') → term_in_range r → evolves G r r'.
Proof.
  unfold raft_tickElection. intros E Ht. run_inv E. injection E0 as _ <-. run_inv E. injection E0 as <- <-.
  destruct (_ && _); [|injection E as _ <-; by apply core_evolves]. run_inv E. injection E0 as _ <-.
  run_inv E. injection E as _ <-. etrans; [|eapply ev_Step_other; [exact E0|done..]]. by apply core_evolves.
Qed.

Lemma ev_tickHeartbeat r u r' : raft_tickHeartbeat r = Ok (u, r') → term_in_range r → evolves G r r'.
Proof.
  unfold raft_tickHeartbeat. intros E Ht. run_inv E. injection E0 as _ <-. run_inv E. injection E0 as _ <-.
  run_inv E. injection E0 as <- <-. run_inv E.
  assert (evolves G r r0 ∧ raft_Term r0 = raft_Term r) as [He Hte].
  { destruct (_ <=? _); cbn [when] in E0; [|injection E0 as _ <-; split; [by apply core_evolves|done]].
    run_inv E0. injection E1 as _ <-. run_inv E0. run_inv E0. injection E2 as <- <-.
    assert (evolves G r r1 ∧ raft_Term r1 = raft_Term r) as [He Hte].
    { destruct (raft_checkQuorum _); cbn [when] in E1; [|injection E1 as _ <-; split; [by apply core_evolves|done]].
      run_inv E1. injection E1 as _ <-. split; [|by apply CheckQuorum_term in E2].
      etrans; [|eapply ev_Step_other; [exact E2|done..]]. by apply core_evolves. }
    run_same E0 Hs. split; [|by destruct Hs as (_ & _ & -> & _)]. etrans; [exact He|by apply same_evolves]. }
  trans r0; [done|]. run_inv E. injection E1 as <- <-. destruct (negb _); [by injection E as _ <-|].
  clear E0. destruct (_ <=? _); [|by injection E as _ <-]. run_inv E. injection E0 as _ <-.
  run_inv E. injection E as _ <-. etrans; [|eapply ev_Step_other; [exact E0|cbn; by rewrite Hte|done..]].
  by apply core_evolves.
Qed.

Lemma ev_run_tick r u r' : raft_run_tick r = Ok (u, r') → term_in_range r → evolves G r r'.
Proof.
  unfold raft_run_tick. intros E Ht. run_inv E. injection E0 as <- <-.
  destruct (raft_tick r); [by eapply ev_tickElection|by eapply ev_tickHeartbeat].
Qed.

End evolves.

(** ** What one step may do *)

Section claims.
Context {S : Type} `{Protobuf} `{!Storage S}.
Implicit Types r : raft S.

(** C6. Safety of a single step: whatever well-formed message [Step] handles
    without panicking, the node keeps its id, its term never decreases, its
    vote never changes within a term, the commit index never decreases, the
    queue for immediate sending grows only by messages to other nodes that
    promise nothing about durable state and are no writes to storage, and everything that does (append
    acknowledgements and votes) goes to the queue that waits for the append. *)
Theorem Step_safe (m : Message) r r' e :
  raft_Step m r = Ok (e, r') →
  0 <= raft_Term r < MaxUint64 → msg_wf m →
  raft_id r' = raft_id r ∧
  raft_Term r <= raft_Term r' ∧
  (raft_Term r' = raft_Term r → raft_Vote r ≠ None_id → raft_Vote r' = raft_Vote r) ∧
  raftLog_committed (raft_raftLog r) <= raftLog_committed (raft_raftLog r') ∧
  (∃ now, raft_msgs r' = raft_msgs r ++ now ∧ Forall (msg_now (raft_id r)) now) ∧
  (∃ later, raft_msgsAfterAppend r' = raft_msgsAfterAppend r ++ later ∧ Forall msg_later later).
Proof.
  intros E Ht Hm. apply (ev_Step any_grants) in E
    as [? ? ? ? (now & ? & ? & _) _ _ _ _ (later & ? & ? & _)]; [|done..]. split_and!; eauto.
Qed.

(** The last entry [cand] of another log is at least as up to date as that of [l]. *)
Definition up_to_date (cand : entryID) (l : raftLog S) : Prop :=
  ∃ last, raftLog_lastEntryID l = Ok last ∧
    (entryID_term last < entryID_term cand ∨
     entryID_term last = entryID_term cand ∧ entryID_index last <= entryID_index cand).

Lemma isUpToDate_spec cand l : raftLog_isUpToDate cand l = Ok true → up_to_date cand l.
Proof.
  unfold raftLog_isUpToDate. intros (last & E & [= Hu])%bind_Ok. exists last. split; [done|].
  destruct (Z.ltb_spec (entryID_term last) (entryID_term cand)); [by left|right].
  destruct (Z.eqb_spec (entryID_term cand) (entryID_term last)); [|done].
  destruct (Z.leb_spec (entryID_index last) (entryID_index cand)); done.
Qed.

(** C8. Votes are given only on request and only to candidates whose log is up
    to date: if after a step the node's vote in its current term is for another
    node and was not there before, then the step handled a [MsgVote] from that
    node, whose last entry is at least as up to date as the node's own log, and
    the node had either not voted in this term or was in an earlier one. *)
Theorem Step_vote_granted (m : Message) r r' e :
  raft_Step m r = Ok (e, r') →
  0 <= raft_Term r < MaxUint64 → msg_wf m →
  raft_Vote r' ≠ None_id → raft_Vote r' ≠ raft_id r →
  (raft_Term r' = raft_Term r → raft_Vote r' ≠ raft_Vote r) →
  Message_GetType m = MsgVote ∧ Message_GetFrom m = raft_Vote r' ∧
  up_to_date (mkentryID (Message_GetLogTerm m) (Message_GetIndex m)) (raft_raftLog r) ∧
  (raft_Term r < raft_Term r' ∨ raft_Vote r = None_id).
Proof.
  intros E Ht Hm Hn Hself Hnew.
  apply (ev_Step (mkgrants (fun _ v => Message_GetType m = MsgVote ∧ Message_GetFrom m = v ∧
    up_to_date (mkentryID (Message_GetLogTerm m) (Message_GetIndex m)) (raft_raftLog r))
    (fun _ => True) (fun _ _ => True))) in E as [_ T V _ _ D _ _ _ _]; try done.
  - destruct D as [?|[?|[[? ?]|(? & ? & ?)]]]; [done|done|by destruct Hnew|].
    split_and!; try done. destruct (decide (raft_Term r' = raft_Term r)) as [Et|]; [|left; lia].
    right. destruct (decide (raft_Vote r = None_id)); [done|]. destruct (Hnew Et). auto.
  - split; [done|]. intros Hty Hu. split_and!; try done. by apply isUpToDate_spec.
Qed.

(** The nodes of [c] whose vote for this candidate is recorded once [m] is. *)
Definition voters_for (m : Message) r (c : gset Z) : gset Z :=
  voted_yes (ProgressTracker_Votes
    (ProgressTracker_RecordVote (Message_GetFrom m) (negb (Message_GetReject m)) (raft_trk r))) c.

Lemma vote_won_majority m r :
  vote_won m r → let c := ProgressTracker_Voters (raft_trk r) in
  majority c.1 (voters_for m r c.1) ∧ majority c.2 (voters_for m r c.2).
Proof.
  unfold vote_won, ProgressTracker_TallyVotes, voters_for. intros Hw.
  pose proof (RecordVote_config (Message_GetFrom m) (negb (Message_GetReject m)) (raft_trk r)) as Hc.
  unfold ProgressTracker_Voters in *. rewrite <- Hc. apply JointConfig_VoteWon.
  by destruct (foldl _ _ _) in Hw.
Qed.

(** C7. Leaders are elected: a step makes a node the leader only when it is a
    candidate, the message is a vote response of the candidate's current term,
    and with it a majority of each half of the configuration has voted for the
    node; the term does not change. *)
Theorem Step_leader_elected (m : Message) r r' e :
  raft_Step m r = Ok (e, r') →
  0 <= raft_Term r < MaxUint64 → msg_wf m →
  raft_state r ≠ StateLeader → raft_state r' = StateLeader →
  let c := ProgressTracker_Voters (raft_trk r) in
  raft_state r = StateCandidate ∧ Message_GetType m = MsgVoteResp ∧ counted_now m r ∧
  majority c.1 (voters_for m r c.1) ∧ majority c.2 (voters_for m r c.2) ∧ raft_Term r' = raft_Term r.
Proof.
  intros E Ht Hm Hl Hl' c.
  apply (ev_Step (mkgrants (fun _ _ => True) (fun t => raft_state r = StateCandidate ∧
    Message_GetType m = MsgVoteResp ∧ counted_now m r ∧ vote_won m r ∧ t = raft_Term r) (fun _ _ => True)))
    in E as [_ _ _ _ _ _ L _ _]; try done.
  - destruct (L Hl') as [[? _]|(? & ? & ? & [? ?]%vote_won_majority & ?)]; [done|]. done.
  - split; [|done]. intros Hc. split; [|done]. intros Hty Hf Hp Hw. cbn. split_and!; try done. by destruct (raft_state r).
Qed.

End claims.

(** ** A node of a three-member cluster *)

#[local] Existing Instances sample_Protobuf sample_ProtobufLaws.

Definition ex_snapshot : Snapshot :=
  mkSnapshot None (Some (mkSnapshotMetadata (Some (mkConfState [1; 2; 3] [] [] [] None)) (Some 5) (Some 1))).

Definition ex_node_storage : MemoryStorage :=
  mkMemoryStorage (Some (mkHardState (Some 2) None (Some 7))) (Some ex_snapshot)
    [ex_entry 1 5; ex_entry 1 6; ex_entry 2 7; ex_entry 2 8].

Definition ex_config (maxSize : Z) : RaftConfig MemoryStorage :=
  mkRaftConfig 1 10 1 (Some ex_node_storage) 0 false maxSize 0 0 256 0 false false ReadOnlySafe
    false false false.

Definition Ok_or {A} (d : A) (o : outcome A) : A := match o with Ok a => a | Panic _ => d end.

(** A fresh follower. *)
Definition ex_follower : raft MemoryStorage :=
  Ok_or (raft_literal (ex_config noLimit) ex_log []) (newRaft (ex_config noLimit) []).

Definition ex_hup : Message := set_Message_From (Some 1) (set_Message_Type (Some MsgHup) Message0).

Definition ex_vote_resp (from : Z) : Message :=
  set_Message_Term (Some 3) (set_Message_From (Some from) (Msg MsgVoteResp (Some 1))).

Definition ex_step (m : Message) (r : raft MemoryStorage) : raft MemoryStorage :=
  Ok_or r (x ← raft_Step m r; Ok x.2).

(** It campaigns and has its own vote. *)
Definition ex_candidate : raft MemoryStorage := ex_step (ex_vote_resp 1) (ex_step ex_hup ex_follower).

Definition ex_leader : raft MemoryStorage := ex_step (ex_vote_resp 2) ex_candidate.

(** A request of node 2 for a vote in term 3. *)
Definition ex_vote : Message :=
  set_Message_Term (Some 3) (set_Message_From (Some 2) (set_Message_Index (Some 9)
    (set_Message_LogTerm (Some 2) (Msg MsgVote (Some 1))))).

Lemma Step_safe_witness :
  raft_Term ex_candidate = 3 ∧ raft_Term ex_candidate <= raft_Term ex_leader ∧
  raft_Vote ex_leader = raft_Vote ex_candidate.
Proof.
  destruct (Step_safe (ex_vote_resp 2) ex_candidate ex_leader None) as (_ & Ht & Hv & _);
    [vm_compute; reflexivity|vm_compute; intuition congruence..|].
  split; [vm_compute; reflexivity|]. split; [exact Ht|]. apply Hv; vm_compute; congruence.
Defined.

Lemma Step_vote_granted_witness :
  Message_GetFrom ex_vote = raft_Vote (ex_step ex_vote ex_follower) ∧
  up_to_date (mkentryID 2 9) (raft_raftLog ex_follower).
Proof.
  destruct (Step_vote_granted ex_vote ex_follower (ex_step ex_vote ex_follower) None) as (_ & Hf & Hu & _);
    [vm_compute; reflexivity|vm_compute; intuition congruence..|].
  split; [exact Hf|exact Hu].
Defined.

Lemma Step_leader_elected_witness :
  raft_state ex_leader = StateLeader ∧ majority {[1; 2; 3]} (voters_for (ex_vote_resp 2) ex_candidate {[1; 2; 3]}) ∧
  raft_Term ex_leader = raft_Term ex_candidate.
Proof.
  destruct (Step_leader_elected (ex_vote_resp 2) ex_candidate ex_leader None) as (_ & _ & _ & Hw & _ & Ht);
    [vm_compute; reflexivity|vm_compute; intuition congruence..|vm_compute; reflexivity|].
  split; [vm_compute; reflexivity|]. split; [|exact Ht].
  assert ((ProgressTracker_Voters (raft_trk ex_candidate)).1 = {[1; 2; 3]}) as Hv by (vm_compute; reflexivity).
  rewrite Hv in Hw. exact Hw.
Defined.
