(* ===== verification/RaftRepl.v ===== *)
(** * Replication (theorems about src/raft.go)

    The commit rule of the leader, the append messages it sends and the loop
    that sends them, and what a follower answers. *)
From S2P Require Import Prelude Proto Quorum Inflights Progress Tracker Util Storage.
From S2P Require Import Unstable Log ConfChange ReadOnly Raft RaftStep RaftRel.
From S2P Require Import RaftSafety.

Section replication.
Context {S : Type} `{Protobuf, !ProtobufLaws _} `{!Storage S} `{!StorageLaws S}.
Implicit Types r : raft S.

(** ** The commit rule *)

(** What a leader's log satisfies: terms never decrease along the log and never
    exceed the current term. *)
Definition leader_terms (g : slog) (term : Z) : Prop :=
  (∀ i j ti tj, i <= j → slog_term g i = Some ti → slog_term g j = Some tj → ti <= tj) ∧
  (∀ i t, slog_term g i = Some t → t <= term).

(** A majority of each half of the configuration has acknowledged [i]. *)
Definition quorum_acked (r : raft S) (i : Z) : Prop :=
  let c := ProgressTracker_Voters (raft_trk r) in
  let acks := ProgressTracker_Progress (raft_trk r) in
  majority c.1 (acked_ge acks c.1 i) ∧ majority c.2 (acked_ge acks c.2 i).

Lemma quorum_acked_committed r i :
  i <= MaxUint64 → quorum_acked r i ↔ i <= ProgressTracker_Committed (raft_trk r).
Proof.
  intros Hi. unfold quorum_acked, ProgressTracker_Committed, JointConfig_CommittedIndex.
  rewrite <- !MajorityConfig_CommittedIndex_ge by done. zcase; lia.
Qed.

Lemma log_maybeCommit_ok (l : raftLog S) (at_ : entryID) :
  log_wf l → entryID_term at_ ≠ 0 → 0 <= entryID_index at_ < MaxUint64 →
  let ok := (raftLog_committed l <? entryID_index at_)
            && bool_decide (slog_term (log_view l) (entryID_index at_) = Some (entryID_term at_)) in
  let l' := if ok then set_raftLog_committed (entryID_index at_) l else l in
  raftLog_maybeCommit at_ l = Ok (ok, l') ∧ log_wf l'.
Proof.
  intros Hwf Ht Hi. unfold raftLog_maybeCommit. rewrite (proj2 (Z.eqb_neq _ _)) by done. cbn [negb andb].
  destruct (Z.ltb_spec (raftLog_committed l) (entryID_index at_)) as [Hlt|Hge]; [|done].
  rewrite matchTerm_ok by done. cbn. case_bool_decide as Hm; [|done].
  pose proof (slog_term_bounds _ _ _ Hm) as Hb.
  destruct (commitTo_ok l (entryID_index at_) Hwf) as [-> Hwf']; [lia|]. rewrite Z.max_r in * by lia. done.
Qed.

(** C15. The commit rule: [maybeCommit] of a leader moves the commit index
    exactly to the largest index of its current term that a majority of both
    halves of the configuration has acknowledged.  It never panics, changes
    nothing but the commit index, reports whether it moved, and an entry of an
    earlier term is never committed by counting acknowledgements. *)
Theorem maybeCommit_quorum r :
  log_wf (raft_raftLog r) → raft_Term r ≠ 0 →
  leader_terms (log_view (raft_raftLog r)) (raft_Term r) →
  0 <= ProgressTracker_Committed (raft_trk r) <= log_last (raft_raftLog r) →
  ∃ b r' c, raft_maybeCommit r = Ok (b, r') ∧
    r' = set_raft_raftLog (set_raftLog_committed c (raft_raftLog r)) r ∧
    log_wf (raft_raftLog r') ∧
    raftLog_committed (raft_raftLog r) <= c ∧
    (b = true ↔ raftLog_committed (raft_raftLog r) < c) ∧
    (b = true → quorum_acked r c ∧ slog_term (log_view (raft_raftLog r)) c = Some (raft_Term r)) ∧
    (∀ i, i <= MaxUint64 → quorum_acked r i →
       slog_term (log_view (raft_raftLog r)) i = Some (raft_Term r) → i <= c).
Proof.
  intros Hwf Ht [Hmono Hmax] Hn. set (n := ProgressTracker_Committed (raft_trk r)) in *.
  pose proof (log_last_bound _ Hwf). pose proof (lwf_committed _ Hwf) as Hcom.
  destruct (log_maybeCommit_ok (raft_raftLog r) (mkentryID (raft_Term r) n)) as [E Hwf'];
    [done|done|cbn; lia|]. cbn [entryID_index entryID_term] in E, Hwf'.
  set (ok := (_ <? n) && _) in *. set (c := if ok then n else raftLog_committed (raft_raftLog r)).
  assert ((if ok then set_raftLog_committed n (raft_raftLog r) else raft_raftLog r)
          = set_raftLog_committed c (raft_raftLog r)) as El.
  { unfold c. destruct ok; [done|by destruct (raft_raftLog r)]. }
  rewrite El in E, Hwf'. exists ok, (set_raft_raftLog (set_raftLog_committed c (raft_raftLog r)) r), c.
  split; [unfold raft_maybeCommit, on_log, get, lift, modify, mbind, RM_bind; fold n; by rewrite E|].
  split; [done|]. split; [done|]. unfold c, ok.
  destruct (Z.ltb_spec (raftLog_committed (raft_raftLog r)) n) as [Hlt|Hge]; cbn [andb].
  - case_bool_decide as Hm.
    + split_and!; [lia|done| |]; [intros _; split; [apply quorum_acked_committed; lia|done]|].
      intros i Hi Hq _. by apply quorum_acked_committed in Hq.
    + split_and!; [lia|split; [done|lia]|done|]. intros i Hi Hq Hti.
      apply quorum_acked_committed in Hq; [|done]. fold n in Hq.
      destruct (Z.le_gt_cases i (raftLog_committed (raft_raftLog r))); [done|]. destruct Hm.
      destruct (slog_term_some (log_view (raft_raftLog r)) n) as [t Htn]; [cbn [sl_base log_view]; lia|].
      rewrite Htn. f_equal. specialize (Hmax _ _ Htn). specialize (Hmono _ _ _ _ Hq Hti Htn). lia.
  - split_and!; [lia|split; [done|lia]|done|]. intros i Hi Hq _. apply quorum_acked_committed in Hq; [|done].
    fold n in Hq. lia.
Qed.

(** ** Append messages *)

(** A request to another node that is sent at once. *)
Lemma send_now_ok m r :
  Message_From m = None → Message_Term m = None → is_vote_type (Message_GetType m) = false →
  waits_for_append (Message_GetType m) = false → Message_GetType m ≠ MsgProp →
  Message_GetType m ≠ MsgReadIndex → Message_GetTo m ≠ raft_id r →
  raft_send m r = Ok (tt, set_raft_msgs (raft_msgs r ++
    [set_Message_Term (Some (raft_Term r)) (set_Message_From (Some (raft_id r)) m)]) r).
Proof.
  intros Hf Ht Hv Hw Hp Hri Hto. unfold raft_send, get, modify, panic, mbind, RM_bind, mret, RM_ret.
  assert ((Message_GetFrom m =? None_id) = true) as -> by (unfold Message_GetFrom; by rewrite Hf).
  change (Message_GetType (set_Message_From (Some (raft_id r)) m)) with (Message_GetType m).
  change (Message_GetTerm (set_Message_From (Some (raft_id r)) m)) with (Message_GetTerm m).
  assert ((Message_GetTerm m =? 0) = true) as -> by (unfold Message_GetTerm; by rewrite Ht).
  rewrite Hv, Hw. cbn [negb].
  destruct (mt_eqb_spec (Message_GetType m) MsgProp), (mt_eqb_spec (Message_GetType m) MsgReadIndex); try done.
  cbn [negb andb].
  by rewrite (proj2 (Z.eqb_neq (Message_GetTo (set_Message_Term _ _)) (raft_id r))) by done.
Qed.

(** A member to which the leader may send: its progress is known and
    well-formed, and it is never ahead of the leader's log. *)
Record member (r : raft S) (to : Z) (pr : Progress) : Prop := mkmember {
  mb_log : log_wf (raft_raftLog r);
  mb_size : total_size (sl_ents (log_view (raft_raftLog r))) < two64;
  mb_max : 0 <= raft_maxMsgSize r < two64;
  mb_other : to ≠ raft_id r;
  mb_pr : ProgressTracker_Progress (raft_trk r) !! to = Some pr;
  mb_inv : Progress_inv pr;
  mb_next : Progress_Next pr <= log_last (raft_raftLog r) + 1;
}.

Definition set_member (to : Z) (pr : Progress) (r : raft S) : raft S :=
  set_raft_trk (set_ProgressTracker_Progress
    (<[to := pr]> (ProgressTracker_Progress (raft_trk r))) (raft_trk r)) r.

Definition append_msg (r : raft S) (to prev t : Z) (ents : list Entry) : Message :=
  set_Message_Term (Some (raft_Term r)) (set_Message_From (Some (raft_id r))
    (set_Message_Index (Some prev) (set_Message_LogTerm (Some t) (set_Message_Entries ents
      (set_Message_Commit (Some (raftLog_committed (raft_raftLog r))) (Msg MsgApp (Some to))))))).

Lemma slog_range_size g lo hi : total_size (sl_ents g) < two64 → total_size (slog_range g lo hi) < two64.
Proof.
  intros Hs. unfold slog_range. rewrite <- (take_drop (Z.to_nat (lo - sl_base g - 1)) (sl_ents g)) in Hs.
  apply total_size_prefix in Hs as [_ Hs].
  rewrite <- (take_drop (Z.to_nat (hi - lo)) (drop _ (sl_ents g))) in Hs. by apply total_size_prefix in Hs as [Hs _].
Qed.

(** The entries of an append message: nothing when the window is full or the
    follower has everything, otherwise a non-empty prefix of what it lacks. *)
Definition window_full (pr : Progress) : Prop :=
  Progress_State pr = StateReplicate ∧ Inflights_Full (Progress_Inflights pr) = true.

Lemma entries_to_send r to pr :
  member r to pr → log_base (raft_raftLog r) < Progress_Next pr →
  ∃ n, (if negb (ps_eqb (Progress_State pr) StateReplicate) || negb (Inflights_Full (Progress_Inflights pr))
        then raftLog_entries (raft_raftLog r) (Progress_Next pr) (raft_maxMsgSize r) else Ok (Val [])) =
    Ok (Val (take n (slog_range (log_view (raft_raftLog r)) (Progress_Next pr) (log_last (raft_raftLog r) + 1)))) ∧
    Z.of_nat n <= log_last (raft_raftLog r) + 1 - Progress_Next pr ∧
    (n = 0%nat ↔ Progress_Next pr = log_last (raft_raftLog r) + 1 ∨ window_full pr) ∧
    ((n <= 1)%nat ∨ total_size (take n (slog_range (log_view (raft_raftLog r)) (Progress_Next pr)
                                          (log_last (raft_raftLog r) + 1))) <= raft_maxMsgSize r).
Proof.
  intros [Hwf Hsz Hmx Hto Hpr Hinv Hnx] Hb. pose proof (log_last_bound _ Hwf).
  unfold window_full, ps_eqb.
  assert (Progress_State pr = StateReplicate ∧ Inflights_Full (Progress_Inflights pr) = true ∨
    (negb (bool_decide (Progress_State pr = StateReplicate)) || negb (Inflights_Full (Progress_Inflights pr)) = true
     ∧ ¬ (Progress_State pr = StateReplicate ∧ Inflights_Full (Progress_Inflights pr) = true))) as [[Hr Hf]|[-> Hnf]].
  { case_bool_decide; destruct (Inflights_Full _); cbn; naive_solver. }
  { rewrite bool_decide_true, Hf by done. exists 0%nat. split_and!; [done|lia|tauto|left; lia]. }
  unfold raftLog_entries. rewrite lastIndex_ok by done. cbn [mbind outcome_bind].
  destruct (Z.ltb_spec (log_last (raft_raftLog r)) (Progress_Next pr)) as [Hlt|Hge].
  { exists 0%nat. split_and!; [done|lia| |left; lia]. split; [left; lia|done]. }
  rewrite add64_small by lia.
  destruct (slice_ok (raft_raftLog r) (Progress_Next pr) (log_last (raft_raftLog r) + 1) (raft_maxMsgSize r))
    as (n & -> & Hn & Hm); [done|lia|lia|done|by apply slog_range_size|].
  exists n. pose proof (slog_range_length (log_view (raft_raftLog r)) (Progress_Next pr)
    (log_last (raft_raftLog r) + 1)) as Hlen. unfold len in Hlen. cbn [sl_base log_view] in Hlen.
  split_and!; [done|lia| |destruct Hm; [left; lia|by right]].
  split; [lia|]. intros [?|?]; [lia|done].
Qed.

(** What the progress looks like after [n] entries were sent. *)
Definition sent (n : nat) (pr pr' : Progress) : Prop :=
  Progress_inv pr' ∧ Progress_Match pr' = Progress_Match pr ∧ Progress_State pr' = Progress_State pr ∧
  Progress_Next pr' = match Progress_State pr with
                      | StateReplicate => Progress_Next pr + Z.of_nat n
                      | _ => Progress_Next pr end ∧
  (Progress_State pr = StateProbe → (0 < n)%nat → Progress_IsPaused pr' = true).

Lemma SentEntries_ok pr n bytes :
  Progress_inv pr → Progress_Next pr + Z.of_nat n <= MaxUint64 → Progress_IsPaused pr = false →
  ((0 < n)%nat → ¬ window_full pr) →
  ∃ pr', Progress_SentEntries (Z.of_nat n) bytes pr = Ok pr' ∧ sent n pr pr'.
Proof.
  intros Hinv Hb Hp Hw.
  assert (∃ pr', Progress_SentEntries (Z.of_nat n) bytes pr = Ok pr' ∧
    Progress_Match pr' = Progress_Match pr ∧ Progress_State pr' = Progress_State pr ∧
    Progress_Next pr' = match Progress_State pr with
                      | StateReplicate => Progress_Next pr + Z.of_nat n
                      | _ => Progress_Next pr end ∧
    (Progress_State pr = StateProbe → (0 < n)%nat → Progress_IsPaused pr' = true)) as (pr' & E & Hs).
  { pose proof Hinv as [Hm Hx _ Hi]. unfold Progress_SentEntries, Progress_IsPaused in *.
    destruct (Progress_State pr) eqn:Est; [| |done].
    - destruct (Z.ltb_spec 0 (Z.of_nat n)); eexists; (split; [done|]); cbn; rewrite ?Est; split_and!; try done; lia.
    - destruct (Z.ltb_spec 0 (Z.of_nat n)).
      + destruct (Inflights_Full (Progress_Inflights pr)) eqn:Ef; [destruct Hw; [lia|done]|].
        edestruct Add_ok as (ins & Hadd & _); [exact Hi|exact Ef|].
        cbn [Progress_Inflights set_Progress_Next]. rewrite Hadd. eexists. split; [done|]. cbn.
        u64_norm. rewrite Est. done.
      + eexists. split; [done|]. cbn. rewrite Est. split_and!; [done|done|lia|done]. }
  exists pr'. split; [done|]. split; [|done]. eapply SentEntries_inv; [| |done|done]; lia.
Qed.

Lemma take_len {A} n (l : list A) : Z.of_nat n <= len l → len (take n l) = Z.of_nat n.
Proof. unfold len. rewrite length_take. lia. Qed.

(** The run of [maybeSendAppend] for a follower whose next entry is in the log. *)
Lemma maybeSendAppend_ok r to pr (sendIfEmpty : bool) :
  member r to pr → log_base (raft_raftLog r) < Progress_Next pr → Progress_IsPaused pr = false →
  ∃ n t, slog_term (log_view (raft_raftLog r)) (Progress_Next pr - 1) = Some t ∧
    (n = 0%nat ↔ Progress_Next pr = log_last (raft_raftLog r) + 1 ∨ window_full pr) ∧
    let ents := take n (slog_range (log_view (raft_raftLog r)) (Progress_Next pr)
                          (log_last (raft_raftLog r) + 1)) in
    len ents = Z.of_nat n ∧ Z.of_nat n <= log_last (raft_raftLog r) + 1 - Progress_Next pr ∧
    ((n <= 1)%nat ∨ total_size ents <= raft_maxMsgSize r) ∧
    if (Nat.eqb n 0) && negb sendIfEmpty then raft_maybeSendAppend to sendIfEmpty r = Ok (false, r)
    else ∃ pr', sent n pr pr' ∧
      raft_maybeSendAppend to sendIfEmpty r =
        Ok (true, set_member to (Progress_SentCommit (raftLog_committed (raft_raftLog r)) pr')
                    (set_raft_msgs (raft_msgs r ++ [append_msg r to (Progress_Next pr - 1) t ents]) r)).
Proof.
  intros Hmb Hb Hp. pose proof Hmb as [Hwf Hsz Hmx Hto Hpr Hinv Hnx]. pose proof (log_last_bound _ Hwf).
  pose proof (log_base_bounds _ Hwf) as Hbb. pose proof (pi_match _ Hinv).
  destruct (slog_term_some (log_view (raft_raftLog r)) (Progress_Next pr - 1)) as [t Ht]; [cbn [sl_base log_view]; lia|].
  destruct (entries_to_send r to pr Hmb Hb) as (n & He & Hnl & Hn0 & Hnm). exists n, t.
  set (range := slog_range _ _ _) in *.
  assert (len (take n range) = Z.of_nat n) as Hlen.
  { apply take_len. unfold range. rewrite slog_range_length; cbn [sl_base log_view]; lia. }
  split; [done|]. split; [done|]. cbv zeta. split; [done|]. split; [done|]. split; [done|].
  unfold raft_maybeSendAppend. run_fwd_with (get_pr_run _ _ _ Hpr). rewrite Hp. run_fwd.
  rewrite sub64_small by lia. cbv zeta.
  assert (raftLog_term (raft_raftLog r) (Progress_Next pr - 1) = Ok (Val t)) as Et.
  { rewrite term_ok by (done || lia). unfold term_answer. by rewrite Ht. }
  run_fwd_with (lift_run _ r _ Et). cbn [lift].
  assert ((if negb (ps_eqb (Progress_State pr) StateReplicate) || negb (Inflights_Full (Progress_Inflights pr))
           then lift (raftLog_entries (raft_raftLog r) (Progress_Next pr) (raft_maxMsgSize r))
           else mret (Val [])) r = Ok (Val (take n range), r)) as Er.
  { destruct (_ || _); [by apply lift_run|]. by injection He as <-. }
  run_fwd_with Er. rewrite Hlen.
  replace (Z.of_nat n =? 0) with (Nat.eqb n 0) by (destruct n; done).
  destruct (_ && _) eqn:Eb; [done|].
  destruct (SentEntries_ok pr n (payloadsSize (take n range))) as (pr' & Es & Hs); try done; [lia| |].
  { intros Hn Hf. destruct Hn0 as [_ Hn0]. rewrite Hn0 in Hn by (by right). lia. }
  exists pr'. split; [done|].
  run_fwd_with (send_now_ok (set_Message_Index (Some (Progress_Next pr - 1)) (set_Message_LogTerm (Some t)
     (set_Message_Entries (take n range) (set_Message_Commit (Some (raftLog_committed (raft_raftLog r)))
       (Msg MsgApp (Some to)))))) r eq_refl eq_refl eq_refl eq_refl ltac:(done) ltac:(done) Hto).
  by run_fwd_with (lift_run _ (set_raft_msgs (raft_msgs r ++ [append_msg r to (Progress_Next pr - 1) t (take n range)]) r) _ Es).
Qed.


(** What the storage owes the leader when a snapshot is needed: a real one, or
    the answer that it is not ready yet. *)
Definition snapshot_ready (r : raft S) : Prop :=
  match raftLog_snapshot (raft_raftLog r) with
  | Val s => 0 < snap_index (Some s) < MaxUint64
  | Err e => e = ErrSnapshotTemporarilyUnavailable
  end.

Definition snap_msg (r : raft S) (to : Z) (s : Snapshot) : Message :=
  set_Message_Term (Some (raft_Term r)) (set_Message_From (Some (raft_id r))
    (set_Message_Snapshot (Some s) (Msg MsgSnap (Some to)))).

Lemma maybeSendSnapshot_ok r to pr :
  member r to pr → snapshot_ready r →
  raft_maybeSendSnapshot to r = Ok (false, r) ∨
  ∃ s, raftLog_snapshot (raft_raftLog r) = Val s ∧ Progress_RecentActive pr = true ∧
    raft_maybeSendSnapshot to r =
      Ok (true, set_raft_msgs (raft_msgs r ++ [snap_msg r to s])
                  (set_member to (Progress_BecomeSnapshot (snap_index (Some s)) pr) r)).
Proof.
  intros [Hwf Hsz Hmx Hto Hpr Hinv Hnx] Hsn. unfold raft_maybeSendSnapshot, snapshot_ready in *.
  run_fwd_with (get_pr_run _ _ _ Hpr). destruct (Progress_RecentActive pr); [|by left]. cbn [negb]. run_fwd.
  destruct (raftLog_snapshot (raft_raftLog r)) as [s|e]; [|left; by rewrite Hsn]. right. exists s.
  split; [done|]. split; [done|].
  assert (IsEmptySnap (Some s) = false) as -> by (unfold IsEmptySnap; apply Z.eqb_neq; lia).
  run_fwd_with (lift_run _ r _ (firstIndex_ok _ Hwf)). unfold put_pr. run_fwd. fold (set_member to
    (Progress_BecomeSnapshot (snap_index (Some s)) pr) r).
  by run_fwd_with (send_now_ok (set_Message_Snapshot (Some s) (Msg MsgSnap (Some to)))
    (set_member to (Progress_BecomeSnapshot (snap_index (Some s)) pr) r)
    eq_refl eq_refl eq_refl eq_refl ltac:(done) ltac:(done) Hto).
Qed.

(** A follower whose next entry was compacted gets a snapshot. *)
Lemma maybeSendAppend_compacted r to pr b :
  member r to pr → Progress_Next pr <= log_base (raft_raftLog r) → Progress_IsPaused pr = false →
  raft_maybeSendAppend to b r = raft_maybeSendSnapshot to r.
Proof.
  intros [Hwf Hsz Hmx Hto Hpr Hinv Hnx] Hb Hp. pose proof (log_last_bound _ Hwf).
  pose proof (log_base_bounds _ Hwf) as Hbb. pose proof (pi_match _ Hinv).
  unfold raft_maybeSendAppend. run_fwd_with (get_pr_run _ _ _ Hpr). rewrite Hp. run_fwd.
  rewrite sub64_small by lia.
  assert (raftLog_term (raft_raftLog r) (Progress_Next pr - 1) = Ok (Err ErrCompacted)) as Et.
  { rewrite term_ok by (done || (pose proof (lwf_committed _ Hwf); lia)). unfold term_answer, slog_term.
    cbn [sl_base log_view]. by rewrite (proj2 (Z.ltb_lt _ _)) by lia. }
  by run_fwd_with (lift_run _ r _ Et).
Qed.

Lemma maybeSendAppend_paused r to pr b :
  ProgressTracker_Progress (raft_trk r) !! to = Some pr → Progress_IsPaused pr = true →
  raft_maybeSendAppend to b r = Ok (false, r).
Proof. intros Hpr Hp. unfold raft_maybeSendAppend. run_fwd_with (get_pr_run _ _ _ Hpr). by rewrite Hp. Qed.

(** ** The send loop *)

(** An iteration that sends something either pauses the follower or moves its
    next index towards the end of the log. *)
Lemma maybeSendAppend_progress r to pr :
  member r to pr → snapshot_ready r →
  (∃ r', raft_maybeSendAppend to false r = Ok (false, r')) ∨
  ∃ r' pr', raft_maybeSendAppend to false r = Ok (true, r') ∧
    ProgressTracker_Progress (raft_trk r') !! to = Some pr' ∧
    (Progress_IsPaused pr' = true ∨
     member r' to pr' ∧ snapshot_ready r' ∧ raft_raftLog r' = raft_raftLog r ∧
     Progress_Next pr < Progress_Next pr').
Proof.
  intros Hmb Hsn. destruct (Progress_IsPaused pr) eqn:Hp.
  { left. exists r. apply maybeSendAppend_paused with pr; [apply Hmb|done]. }
  destruct (Z.le_gt_cases (Progress_Next pr) (log_base (raft_raftLog r))) as [Hb|Hb].
  - rewrite maybeSendAppend_compacted with (pr := pr) by done.
    destruct (maybeSendSnapshot_ok r to pr Hmb Hsn) as [E|(s & _ & _ & E)]; [by left; eauto|right].
    eexists _, _. split; [exact E|]. cbn. rewrite lookup_insert_eq. split; [done|]. by left.
  - destruct (maybeSendAppend_ok r to pr false Hmb Hb Hp) as (n & t & _ & Hn0 & Hlen & Hnl & _ & E).
    rewrite andb_true_r in E. destruct (Nat.eqb_spec n 0) as [Hn|Hn]; [left; by eauto|].
    destruct E as (pr' & (Hinv & Hm & Hst & Hnx & Hpa) & E). right. eexists _, _. split; [exact E|]. cbn.
    rewrite lookup_insert_eq. split; [done|]. destruct (Progress_State pr) eqn:Est.
    + left. apply Hpa; [done|lia].
    + right. destruct Hmb as [Hwf Hsz Hmx Hto Hpr _ _]. split; [|split; [done|split; [done|cbn; lia]]].
      split; try done; cbn; [by rewrite lookup_insert_eq|by destruct Hinv; split|lia].
    + unfold Progress_IsPaused in Hp. by rewrite Est in Hp.
Qed.

Lemma send_all_loop_ok fuel r to pr :
  member r to pr → snapshot_ready r →
  log_last (raft_raftLog r) + 1 - Progress_Next pr + 2 <= Z.of_nat fuel →
  ∃ r', ∀ k, send_all_loop (fuel + k) to r = Ok (tt, r').
Proof.
  revert r pr. induction fuel as [|fuel IH]; intros r pr Hmb Hsn Hf; [pose proof (mb_next _ _ _ Hmb); lia|].
  destruct (maybeSendAppend_progress r to pr Hmb Hsn) as [(r' & E)|(r' & pr' & E & Hpr' & Hc)].
  { exists r'. intros k. cbn [send_all_loop Nat.add]. by run_fwd_with E. }
  destruct Hc as [Hp|(Hmb' & Hsn' & Hl & Hnx)].
  - exists r'. intros k. cbn [send_all_loop Nat.add]. run_fwd_with E.
    pose proof (mb_next _ _ _ Hmb). destruct fuel as [|fuel]; [lia|]. cbn [send_all_loop Nat.add].
    by run_fwd_with (maybeSendAppend_paused r' to pr' false Hpr' Hp).
  - destruct (IH r' pr' Hmb' Hsn') as [r'' E'']; [rewrite Hl; lia|]. exists r''. intros k.
    cbn [send_all_loop Nat.add]. run_fwd_with E. apply E''.
Qed.

(** C33. The loop [for r.maybeSendAppend(to, false) {}] terminates: the leader
    finishes it without panicking, after at most as many iterations as there
    are entries that the follower lacks, plus two; giving it more iterations
    changes nothing. *)
Theorem send_all_terminates r to pr :
  member r to pr → snapshot_ready r →
  ∃ r', send_all to r = Ok (tt, r') ∧
    ∀ fuel, (send_fuel to r <= fuel)%nat → send_all_loop fuel to r = Ok (tt, r').
Proof.
  intros Hmb Hsn. pose proof Hmb as [Hwf _ _ _ Hpr _ Hnx].
  assert (send_fuel to r = (Z.to_nat (log_last (raft_raftLog r) + 1 - Progress_Next pr) + 3)%nat) as Hf.
  { unfold send_fuel. by rewrite Hpr, lastIndex_ok. }
  destruct (send_all_loop_ok (send_fuel to r) r to pr Hmb Hsn) as [r' E]; [rewrite Hf; lia|].
  exists r'. split; [unfold send_all; run_fwd; specialize (E 0%nat); by rewrite Nat.add_0_r in E|].
  intros fuel Hfuel. replace fuel with (send_fuel to r + (fuel - send_fuel to r))%nat by lia. apply E.
Qed.

(** C34. What the leader sends: for a follower that is not paused and whose next
    entry is still in the log, [maybeSendAppend] sends one [MsgApp] with the
    index and term of the entry before it, the commit index and a prefix of the
    missing entries: none exactly when nothing is missing or the window is full
    (then only on demand), more than one only within the size limit.  A
    replicating follower's next index advances past them, a probed follower is
    paused.  A follower whose next entry was compacted gets a snapshot, if it is
    active and one is available. *)
Theorem maybeSendAppend_spec r to pr (sendIfEmpty : bool) :
  member r to pr → snapshot_ready r → Progress_IsPaused pr = false →
  (log_base (raft_raftLog r) < Progress_Next pr →
   ∃ n t, slog_term (log_view (raft_raftLog r)) (Progress_Next pr - 1) = Some t ∧
    (n = 0%nat ↔ Progress_Next pr = log_last (raft_raftLog r) + 1 ∨ window_full pr) ∧
    let ents := take n (slog_range (log_view (raft_raftLog r)) (Progress_Next pr)
                          (log_last (raft_raftLog r) + 1)) in
    len ents = Z.of_nat n ∧ contiguous (Progress_Next pr - 1) ents ∧
    ((n <= 1)%nat ∨ total_size ents <= raft_maxMsgSize r) ∧
    if (Nat.eqb n 0) && negb sendIfEmpty then raft_maybeSendAppend to sendIfEmpty r = Ok (false, r)
    else ∃ pr', sent n pr pr' ∧
      raft_maybeSendAppend to sendIfEmpty r =
        Ok (true, set_member to (Progress_SentCommit (raftLog_committed (raft_raftLog r)) pr')
                    (set_raft_msgs (raft_msgs r ++ [append_msg r to (Progress_Next pr - 1) t ents]) r))) ∧
  (Progress_Next pr <= log_base (raft_raftLog r) →
   raft_maybeSendAppend to sendIfEmpty r = Ok (false, r) ∨
   ∃ s, raftLog_snapshot (raft_raftLog r) = Val s ∧ Progress_RecentActive pr = true ∧
     raft_maybeSendAppend to sendIfEmpty r =
       Ok (true, set_raft_msgs (raft_msgs r ++ [snap_msg r to s])
                   (set_member to (Progress_BecomeSnapshot (snap_index (Some s)) pr) r))).
Proof.
  intros Hmb Hsn Hp. split; intros Hb.
  - destruct (maybeSendAppend_ok r to pr sendIfEmpty Hmb Hb Hp) as (n & t & ? & ? & ? & ? & ? & ?).
    exists n, t. cbv zeta in *. split_and!; try done. apply contiguous_take.
    pose proof (mb_next _ _ _ Hmb). apply slog_range_contiguous; [apply log_view_wf, Hmb|].
    cbn [sl_base log_view]. lia.
  - rewrite maybeSendAppend_compacted with (pr := pr) by done. by apply maybeSendSnapshot_ok.
Qed.

(** ** The follower *)

(** A response that waits for the append. *)
Definition later (r : raft S) (m : Message) : raft S :=
  set_raft_msgsAfterAppend (raft_msgsAfterAppend r ++
    [set_Message_Term (Some (raft_Term r)) (set_Message_From (Some (raft_id r)) m)]) r.

Lemma send_AppResp_ok m r :
  Message_From m = None → Message_Term m = None → Message_GetType m = MsgAppResp →
  raft_send m r = Ok (tt, later r m).
Proof.
  intros Hf Ht Hty. unfold raft_send, get, modify, panic, mbind, RM_bind, mret, RM_ret.
  assert ((Message_GetFrom m =? None_id) = true) as -> by (unfold Message_GetFrom; by rewrite Hf).
  change (Message_GetType (set_Message_From (Some (raft_id r)) m)) with (Message_GetType m).
  change (Message_GetTerm (set_Message_From (Some (raft_id r)) m)) with (Message_GetTerm m).
  assert ((Message_GetTerm m =? 0) = true) as -> by (unfold Message_GetTerm; by rewrite Ht).
  by rewrite Hty.
Qed.

(** An append message that a node may get: positions fit, and the entries
    follow the previous one. *)
Definition append_wf (m : Message) (r : raft S) : Prop :=
  0 <= Message_GetIndex m ∧ contiguous (Message_GetIndex m) (Message_GetEntries m) ∧
  Message_GetIndex m + len (Message_GetEntries m) < MaxUint64 ∧
  len (unstable_entries (raftLog_unstable (raft_raftLog r))) + len (Message_GetEntries m)
    < 9223372036854775808.

(** The log [g'] holds the entries that follow [p] in a message: each is taken
    from the message, or was there before with the term that it has in the
    message.  Up to [p] nothing changes. *)
Definition takes_entries (p : Z) (ents : list Entry) (g g' : slog) : Prop :=
  sl_base g' = sl_base g ∧ (∀ i, i <= p → slog_at g' i = slog_at g i) ∧
  (∀ k e, ents !! k = Some e →
     slog_at g' (p + 1 + Z.of_nat k) = Some e ∨
     slog_at g' (p + 1 + Z.of_nat k) = slog_at g (p + 1 + Z.of_nat k) ∧ agrees g p k e).

(** The accepting branch. *)
Lemma handleAppend_accept (m : Message) r :
  let l := raft_raftLog r in
  let p := Message_GetIndex m in
  let ents := Message_GetEntries m in
  log_wf l → append_wf m r →
  raftLog_committed l <= p → slog_term (log_view l) p = Some (Message_GetLogTerm m) →
  ∃ l', raft_handleAppendEntries m r =
      Ok (tt, later (set_raft_raftLog l' r) (set_Message_Index (Some (p + len ents))
                                               (Msg MsgAppResp (Message_From m)))) ∧
    log_wf l' ∧
    raftLog_committed l' = Z.max (raftLog_committed l) (Z.min (Message_GetCommit m) (p + len ents)) ∧
    (∀ k e, ents !! k = Some e → agrees (log_view l') p k e) ∧
    (∀ i, i <= p → slog_term (log_view l') i = slog_term (log_view l) i) ∧
    takes_entries p ents (log_view l) (log_view l').
Proof.
  intros l p ents Hwf (Hp & Hce & Hpl & Hlb) Hge Hm. fold p ents l in Hp, Hce, Hpl, Hlb.
  unfold raft_handleAppendEntries, logSliceFromMsgApp. run_fwd. cbn [entryID_index logSlice_prev]. fold p l.
  rewrite (proj2 (Z.ltb_ge _ _)) by lia.
  destruct (maybeAppend_ok l (mklogSlice (Message_GetTerm m) (mkentryID (Message_GetLogTerm m) p) ents)
    (Message_GetCommit m)) as (l' & Ea & Hwf' & Hc' & _ & _ & _ & Hv & Hag); try done.
  { cbn. intros k e He Hk. lia. }
  cbn [logSlice_prev logSlice_entries entryID_index] in *.
  run_fwd_with (on_log_run _ r _ _ Ea). exists l'. split; [by apply send_AppResp_ok|].
  pose proof (slog_term_bounds _ _ _ Hm) as Hpb. cbn [sl_base log_view] in Hpb.
  split_and!; try done; destruct Hv as [[Ev _]|(k & Hk & Hpk & Ev & _)]; rewrite Ev in *.
  - done.
  - intros i Hi. apply slog_append_term_old; cbn [sl_base log_view]; lia.
  - split; [done|]. split; [done|]. intros j e He. right. split; [done|by apply Hag].
  - assert (sl_base (log_view l) <= p + Z.of_nat k <= log_last l) as Hb by (cbn [sl_base log_view]; lia).
    split; [apply slog_append_base|]. split; [intros i Hi; apply slog_append_at; [done|lia]|]. intros j e He. destruct (decide (j < k)%nat).
    + right. split; [apply slog_append_at; [done|lia]|]. rewrite <- (Hag j e He). symmetry. apply slog_append_term_old; [done|lia].
    + left. replace (p + 1 + Z.of_nat j) with (p + Z.of_nat k + 1 + Z.of_nat (j - k)) by lia.
      apply slog_append_at_new; [done|]. rewrite lookup_drop. by replace (k + (j - k))%nat with j by lia.
Qed.

(** C18. What a follower answers to an append message.  Below its commit index
    it acknowledges the commit index.  Without a matching previous entry it
    changes nothing and rejects, with a hint that skips no index at which the
    logs could agree.  Otherwise the log then agrees with all entries of
    the message, taking those that it did not have, and keeps everything up to
    the previous entry, the commit index moves at most to the last entry of the
    message, and that is the index it acknowledges. *)
Theorem handleAppendEntries_spec (m : Message) r :
  let l := raft_raftLog r in
  let p := Message_GetIndex m in
  let ents := Message_GetEntries m in
  let resp := Msg MsgAppResp (Message_From m) in
  log_wf l → append_wf m r →
  (p < raftLog_committed l →
     raft_handleAppendEntries m r = Ok (tt, later r (set_Message_Index (Some (raftLog_committed l)) resp))) ∧
  (raftLog_committed l <= p → slog_term (log_view l) p ≠ Some (Message_GetLogTerm m) →
     ∃ hi ht, raft_handleAppendEntries m r = Ok (tt, later r
         (set_Message_Index (Some p) (set_Message_Reject (Some true)
            (set_Message_RejectHint (Some hi) (set_Message_LogTerm (Some ht) resp))))) ∧
       0 <= hi <= Z.min p (log_last l) ∧
       (∀ (other : slog) j, (∀ i t, i <= p → slog_term other i = Some t → t <= Message_GetLogTerm m) →
          hi < j <= Z.min p (log_last l) → slog_term (log_view l) j ≠ slog_term other j)) ∧
  (raftLog_committed l <= p → slog_term (log_view l) p = Some (Message_GetLogTerm m) →
     ∃ l', raft_handleAppendEntries m r =
         Ok (tt, later (set_raft_raftLog l' r) (set_Message_Index (Some (p + len ents)) resp)) ∧
       log_wf l' ∧
       raftLog_committed l' = Z.max (raftLog_committed l) (Z.min (Message_GetCommit m) (p + len ents)) ∧
       (∀ k e, ents !! k = Some e → agrees (log_view l') p k e) ∧
       (∀ i, i <= p → slog_term (log_view l') i = slog_term (log_view l) i) ∧
       takes_entries p ents (log_view l) (log_view l')).
Proof.
  intros l p ents resp Hwf (Hp & Hce & Hpl & Hlb). pose proof (len_nonneg ents) as Hln. fold p ents l in Hp, Hce, Hpl, Hlb.
  pose proof (log_last_bound _ Hwf) as Hll. pose proof (lwf_committed _ Hwf) as Hcom.
  split_and!; [| |by apply handleAppend_accept].
  all: unfold raft_handleAppendEntries, logSliceFromMsgApp; run_fwd; cbn [entryID_index logSlice_prev]; fold p l resp.
  { intros Hlt. rewrite (proj2 (Z.ltb_lt _ _)) by done. by apply send_AppResp_ok. }
  intros Hge Hm. rewrite (proj2 (Z.ltb_ge _ _)) by done.
  assert (raftLog_maybeAppend (mklogSlice (Message_GetTerm m) (mkentryID (Message_GetLogTerm m) p) ents)
            (Message_GetCommit m) l = Ok (None, l)) as Ea.
  { unfold raftLog_maybeAppend. rewrite matchTerm_ok by (done || (cbn [entryID_index logSlice_prev]; lia)). by rewrite bool_decide_false. }
  run_fwd_with (on_log_run _ r _ _ Ea). run_fwd.
  replace (set_raft_raftLog l r) with r by (by destruct r). fold l.
  run_fwd_with (lift_run _ r _ (term_ok l p Hwf ltac:(lia))).
  assert (∃ t, raftLog_zeroTermOnOutOfBounds (term_answer (log_view l) p) = Ok t) as [tz Ez].
  { unfold term_answer. destruct (slog_term _ _); [by eexists|]. destruct (_ <? _); by eexists. }
  run_fwd_with (lift_run _ r _ Ez). run_fwd_with (lift_run _ r _ (lastIndex_ok l Hwf)).
  assert (0 <= Z.min p (log_last l)) as Hmin by lia.
  destruct (findConflictByTerm_loop_ok l (Z.to_nat (Z.min p (log_last l))) (Message_GetLogTerm m) Hwf)
    as (gi & gt & Ef & Hgi & _ & Hgt); [lia|].
  rewrite Z2Nat.id in Hgi, Hgt by done.
  assert (raftLog_findConflictByTerm l (Z.min p (log_last l)) (Message_GetLogTerm m) = Ok (gi, gt)) as Ef' by exact Ef.
  run_fwd_with (lift_run _ r _ Ef'). exists gi, gt. split; [by apply send_AppResp_ok|].
  split; [done|]. intros other j Ho Hj Heq. destruct (Hgt j Hj) as (t & Ht & Hlt).
  rewrite Ht in Heq. specialize (Ho j t ltac:(lia) (eq_sym Heq)). lia.
Qed.

(** ** One round of replication *)

Lemma slog_range_term g lo hi n k e :
  sl_base g < lo → take n (slog_range g lo hi) !! k = Some e →
  slog_term g (lo + Z.of_nat k) = Some (Entry_GetTerm e).
Proof.
  intros Hlo He. apply lookup_take_Some in He as [He _]. unfold slog_range in He.
  apply lookup_take_Some in He as [He _]. rewrite lookup_drop in He. unfold slog_term.
  rewrite (proj2 (Z.ltb_ge _ _)), (proj2 (Z.eqb_neq _ _)) by lia.
  replace (Z.to_nat (lo + Z.of_nat k - sl_base g - 1)) with (Z.to_nat (lo - sl_base g - 1) + k)%nat by lia.
  by rewrite He.
Qed.

Lemma slog_range_at g lo hi n k e :
  sl_base g < lo → take n (slog_range g lo hi) !! k = Some e → slog_at g (lo + Z.of_nat k) = Some e.
Proof.
  intros Hlo He. apply lookup_take_Some in He as [He _]. unfold slog_range in He.
  apply lookup_take_Some in He as [He _]. rewrite lookup_drop in He. unfold slog_at.
  rewrite (proj2 (Z.ltb_lt _ _)) by lia. rewrite <- He. f_equal. lia.
Qed.

(** Two logs that hold entries of the same term at an index hold the same entry
    there.  In a cluster this is so for all logs (log matching). *)
Definition entries_match (g h : slog) : Prop :=
  ∀ i e e', slog_at g i = Some e → slog_at h i = Some e' → Entry_GetTerm e = Entry_GetTerm e' → e = e'.

(** Taking the entries [ents] of the log [h], as far as terms agree, makes the
    entries agree. *)
Lemma takes_entries_match p ents lo (g g' h : slog) :
  takes_entries p ents g g' → entries_match g h →
  (∀ k e, ents !! k = Some e → slog_at h (p + 1 + Z.of_nat k) = Some e) →
  (∀ i, lo <= i <= p + len ents → slog_term g' i = slog_term h i) →
  ∀ i e, lo <= i <= p + len ents → sl_base g < i → slog_at h i = Some e → slog_at g' i = Some e.
Proof.
  intros (Hb & Hold & Hnew) Hm Hents Ht i e Hi Hbi He. specialize (Ht i Hi). rewrite slog_term_at in Ht by lia.
  assert (sl_base h < i) as Hbh by (unfold slog_at in He; revert He; zcase; done).
  rewrite (slog_term_at h), He in Ht by done. cbn in Ht.
  destruct (slog_at g' i) as [e'|] eqn:Eg; [|done]. injection Ht as Ht. f_equal.
  destruct (Z.le_gt_cases i p) as [Hle|Hgt]; [rewrite Hold in Eg by done; by apply (Hm i)|].
  destruct (lookup_lt_is_Some_2 ents (Z.to_nat (i - p - 1))) as [x Hx]; [unfold len in Hi; lia|].
  pose proof (Hents _ _ Hx) as Hhx. specialize (Hnew _ _ Hx).
  replace (p + 1 + Z.of_nat (Z.to_nat (i - p - 1))) with i in * by lia. rewrite He in Hhx. injection Hhx as ->.
  destruct Hnew as [Hnew|[Hnew _]]; rewrite Eg in Hnew; [by injection Hnew|by apply (Hm i)].
Qed.

(** C17. One round of replication: the append message that a leader sends to a
    follower, handled by a follower whose log agrees with the leader's from
    [lo] up to the entry before the follower's next index, is acknowledged (not
    rejected) to the leader, and after it the two logs agree from [lo] up to
    the acknowledged index, which is beyond the next index whenever entries
    were missing and the window had room.  The terms agree; and where the logs
    matched before ([entries_match]), every entry of the leader there is an entry
    of the follower, with its type and data, unless the follower has compacted
    it. *)
Theorem append_roundtrip (r f : raft S) (to : Z) (pr : Progress) (lo : Z) :
  member r to pr → Progress_IsPaused pr = false → log_base (raft_raftLog r) < Progress_Next pr →
  log_wf (raft_raftLog f) → raftLog_committed (raft_raftLog f) < Progress_Next pr →
  len (unstable_entries (raftLog_unstable (raft_raftLog f)))
    + (log_last (raft_raftLog r) + 1 - Progress_Next pr) < 9223372036854775808 →
  lo < Progress_Next pr →
  (∀ i, lo <= i < Progress_Next pr →
     slog_term (log_view (raft_raftLog f)) i = slog_term (log_view (raft_raftLog r)) i) →
  ∃ r' f' m resp,
    raft_maybeSendAppend to true r = Ok (true, r') ∧ raft_msgs r' = raft_msgs r ++ [m] ∧ Message_GetTo m = to ∧
    raft_handleAppendEntries m f = Ok (tt, f') ∧ log_wf (raft_raftLog f') ∧
    raft_msgsAfterAppend f' = raft_msgsAfterAppend f ++ [resp] ∧
    Message_GetType resp = MsgAppResp ∧ Message_GetTo resp = raft_id r ∧ Message_GetReject resp = false ∧
    (Progress_Next pr <= log_last (raft_raftLog r) → ¬ window_full pr →
       Progress_Next pr <= Message_GetIndex resp) ∧
    (∀ i, lo <= i <= Message_GetIndex resp →
       slog_term (log_view (raft_raftLog f')) i = slog_term (log_view (raft_raftLog r)) i) ∧
    (entries_match (log_view (raft_raftLog f)) (log_view (raft_raftLog r)) →
     ∀ i e, lo <= i <= Message_GetIndex resp → log_base (raft_raftLog f) < i →
       slog_at (log_view (raft_raftLog r)) i = Some e → slog_at (log_view (raft_raftLog f')) i = Some e).
Proof.
  intros Hmb Hp Hb Hwf Hcf Hsz Hlo Hag.
  destruct (maybeSendAppend_ok r to pr true Hmb Hb Hp) as (n & t & Ht & Hn0 & Hlen & Hnl & _ & E).
  pose proof Hmb as [Hwfr _ _ _ _ _ Hnx]. pose proof (log_last_bound _ Hwfr).
  rewrite andb_false_r in E. destruct E as (pr' & _ & E). cbv zeta in Hlen.
  pose proof (slog_range_contiguous (log_view (raft_raftLog r)) (Progress_Next pr)
    (log_last (raft_raftLog r) + 1) (log_view_wf _ Hwfr)) as Hcont. cbn [sl_base log_view] in Hcont.
  specialize (Hcont ltac:(lia)). set (ents := take n _) in *. set (m := append_msg _ _ _ _ _) in E.
  assert (Message_GetIndex m = Progress_Next pr - 1) as Hix by done.
  assert (Message_GetEntries m = ents) as Hen by done. pose proof (handleAppend_accept m f) as Ha.
  cbv zeta in Ha. unfold append_wf in Ha. rewrite Hix, Hen, Hlen in Ha.
  destruct Ha as (l' & Eh & Hwf' & _ & Hents & Hold & Htake); [done| |lia| |].
  { pose proof (log_base_bounds _ Hwfr). split_and!; try lia. by apply contiguous_take. }
  { rewrite Hag by lia. exact Ht. }
  assert (∀ i, lo <= i <= Progress_Next pr - 1 + Z.of_nat n →
    slog_term (log_view l') i = slog_term (log_view (raft_raftLog r)) i) as Hterms.
  { intros i Hi. destruct (Z.lt_ge_cases i (Progress_Next pr)) as [Hlt|Hge]; [rewrite Hold by lia; apply Hag; lia|].
    destruct (lookup_lt_is_Some_2 ents (Z.to_nat (i - Progress_Next pr))) as [e He]; [unfold len in Hlen; lia|].
    pose proof (Hents _ _ He) as Ha. apply slog_range_term in He; [|done].
    replace (Progress_Next pr - 1 + 1 + Z.of_nat (Z.to_nat (i - Progress_Next pr))) with i in Ha by lia.
    replace (Progress_Next pr + Z.of_nat (Z.to_nat (i - Progress_Next pr))) with i in He by lia.
    by rewrite Ha, He. }
  eexists _, _, m, _. split; [exact E|]. split; [done|]. split; [done|]. split; [exact Eh|]. split; [exact Hwf'|].
  split; [done|]. split_and!; [done..| | |]; cbn [Message_GetIndex Message_Index set_Message_Term set_Message_From
    set_Message_Index default from_option id].
  - intros Hne Hw. destruct (decide (n = 0%nat)) as [Hz|]; [apply Hn0 in Hz as [?|?]; [lia|done]|].
    lia.
  - exact Hterms.
  - intros Hmt i e Hi Hbi. rewrite <- Hlen in Hi, Hterms.
    apply (takes_entries_match _ _ lo _ _ _ Htake Hmt); try done.
    intros k x Hx. replace (Progress_Next pr - 1 + 1) with (Progress_Next pr) by lia. by eapply slog_range_at.
Qed.

End replication.

(** ** Concrete instances *)

#[local] Existing Instances sample_Protobuf sample_ProtobufLaws.

(** The terms of a log as a list. *)
Lemma leader_terms_check (g : slog) term :
  StronglySorted Z.le (sl_term g :: (Entry_GetTerm <$> sl_ents g)) →
  Forall (fun t => t <= term) (sl_term g :: (Entry_GetTerm <$> sl_ents g)) → leader_terms g term.
Proof.
  set (ts := _ :: _). intros Hs Hm.
  assert (∀ i t, slog_term g i = Some t → sl_base g <= i ∧ ts !! Z.to_nat (i - sl_base g) = Some t) as Hl.
  { intros i t Ht. pose proof (slog_term_bounds _ _ _ Ht). split; [lia|]. unfold slog_term in Ht.
    revert Ht. repeat zcase; [done|by subst; rewrite Z.sub_diag|]. intros Ht.
    replace (Z.to_nat (i - sl_base g)) with (Datatypes.S (Z.to_nat (i - sl_base g - 1))) by lia.
    unfold ts. rewrite lookup_cons_ne_0 by lia. cbn [pred]. by rewrite list_lookup_fmap. }
  split.
  - intros i j ti tj Hij [Hi Ti]%Hl [Hj Tj]%Hl. destruct (decide (i = j)) as [->|]; [by simplify_eq|].
    eapply (StronglySorted_app_1_elem_of Z.le (take (Z.to_nat (j - sl_base g)) ts) (drop (Z.to_nat (j - sl_base g)) ts));
      [by rewrite take_drop|..]; apply list_elem_of_lookup.
    + exists (Z.to_nat (i - sl_base g)). rewrite lookup_take_lt by lia. done.
    + exists 0%nat. by rewrite lookup_drop, Nat.add_0_r.
  - intros i t [_ Ht]%Hl. rewrite Forall_lookup in Hm. by apply Hm in Ht.
Qed.

Lemma ex_leader_log : log_wf (raft_raftLog ex_leader).
Proof.
  split; [| |vm_compute; intuition congruence..].
  - assert (raftLog_storage (raft_raftLog ex_leader) = ex_node_storage) as -> by (vm_compute; reflexivity).
    split; [done|]. split; [|done]. split; [done|]. split; [done|].
    apply contiguous_check. vm_compute. reflexivity.
  - split; try (vm_compute; intuition congruence). apply contiguous_check. vm_compute. reflexivity.
Qed.

Definition ex_pr (matched next : Z) : Progress :=
  mkProgress matched next 0 StateReplicate 0 true false (NewInflights 256 noLimit) false.

Lemma set_member_log to pr (r : raft MemoryStorage) : raft_raftLog (set_member to pr r) = raft_raftLog r.
Proof. done. Qed.

(** The leader when node 2 has acknowledged its first entry. *)
Definition ex_acked : raft MemoryStorage := set_member 1 (ex_pr 9 10) (set_member 2 (ex_pr 9 10) ex_leader).

Lemma maybeCommit_quorum_witness :
  ∃ b r' c, raft_maybeCommit ex_acked = Ok (b, r') ∧ raftLog_committed (raft_raftLog r') = c ∧
    slog_term (log_view (raft_raftLog ex_acked)) 9 = Some 3 ∧ 9 <= c.
Proof.
  destruct (maybeCommit_quorum ex_acked) as (b & r' & c & E & Hr & _ & _ & _ & _ & Hmax).
  - unfold ex_acked. rewrite !set_member_log. exact ex_leader_log.
  - vm_compute. congruence.
  - apply leader_terms_check; vm_compute; repeat constructor; congruence.
  - vm_compute. intuition congruence.
  - exists b, r', c. split; [exact E|]. split; [rewrite Hr; reflexivity|]. split; [vm_compute; reflexivity|].
    apply Hmax; [lia| |vm_compute; reflexivity].
    split; apply (bool_decide_unpack _); vm_compute; exact I.
Defined.

(** The leader when node 2 lacks its first entry. *)
Definition ex_sender : raft MemoryStorage := set_member 2 (ex_pr 8 9) ex_leader.

Lemma ex_member : member ex_sender 2 (ex_pr 8 9).
Proof.
  split; [unfold ex_sender; rewrite set_member_log; exact ex_leader_log|vm_compute; intuition congruence..| |vm_compute; congruence].
  split; [vm_compute; intuition congruence..|]. by apply NewInflights_wf.
Qed.

Lemma ex_snapshot_ready : snapshot_ready ex_sender.
Proof. vm_compute. intuition congruence. Qed.

Lemma maybeSendAppend_spec_witness :
  Progress_IsPaused (ex_pr 8 9) = false ∧
  ∃ n t, slog_term (log_view (raft_raftLog ex_sender)) 8 = Some t ∧ n ≠ 0%nat ∧
    ∃ pr', sent n (ex_pr 8 9) pr'.
Proof.
  split; [reflexivity|].
  destruct (maybeSendAppend_spec ex_sender 2 (ex_pr 8 9) true) as [Hs _];
    [apply ex_member|apply ex_snapshot_ready|reflexivity|].
  destruct Hs as (n & t & Ht & Hn & _ & _ & _ & Hr); [vm_compute; reflexivity|].
  exists n, t. split; [exact Ht|]. split.
  - intros Hz. apply Hn in Hz as [Hz|[_ Hz]]; vm_compute in Hz; discriminate.
  - rewrite andb_false_r in Hr. destruct Hr as (pr' & Hs & _). exists pr'. exact Hs.
Defined.

Lemma send_all_terminates_witness :
  ∃ r', send_all 2 ex_sender = Ok (tt, r').
Proof.
  destruct (send_all_terminates ex_sender 2 (ex_pr 8 9)) as (r' & E & _);
    [apply ex_member|apply ex_snapshot_ready|]. exists r'. exact E.
Defined.

Lemma ex_follower_log : log_wf (raft_raftLog ex_follower).
Proof.
  split; [| |vm_compute; intuition congruence..].
  - assert (raftLog_storage (raft_raftLog ex_follower) = ex_node_storage) as -> by (vm_compute; reflexivity).
    split; [done|]. split; [|done]. split; [done|]. split; [done|].
    apply contiguous_check. vm_compute. reflexivity.
  - split; vm_compute; intuition congruence.
Qed.

Definition ex_append : Message := append_msg ex_sender 2 8 2 [ex_entry 3 9].

Lemma handleAppendEntries_spec_witness :
  ∃ l', raft_handleAppendEntries ex_append ex_follower =
    Ok (tt, later (set_raft_raftLog l' ex_follower) (set_Message_Index (Some 9) (Msg MsgAppResp (Some 1)))) ∧
    slog_term (log_view l') 9 = Some 3.
Proof.
  destruct (handleAppendEntries_spec ex_append ex_follower) as (_ & _ & Ha).
  - apply ex_follower_log.
  - split; [vm_compute; congruence|]. split; [|vm_compute; intuition congruence].
    apply contiguous_check. vm_compute. reflexivity.
  - destruct Ha as (l' & E & _ & _ & He & _); [vm_compute; congruence|vm_compute; reflexivity|].
    exists l'. split; [exact E|]. exact (He 0%nat _ eq_refl).
Defined.

(** Logs whose entries at the indexes of the first are checked one by one. *)
Lemma entries_match_check (g h : slog) :
  Forall (fun k => slog_at g (sl_base g + 1 + Z.of_nat k) = slog_at h (sl_base g + 1 + Z.of_nat k)) (seq 0 (length (sl_ents g))) →
  entries_match g h.
Proof.
  intros Hall i e e' Hg Hh _. assert (Hg' := Hg). unfold slog_at in Hg. revert Hg. zcase; [|done]. intros Hg.
  apply lookup_lt_Some in Hg as Hlt. rewrite Forall_forall in Hall.
  specialize (Hall (Z.to_nat (i - sl_base g - 1)) ltac:(apply elem_of_seq; lia)).
  replace (sl_base g + 1 + Z.of_nat (Z.to_nat (i - sl_base g - 1))) with i in Hall by lia. congruence.
Qed.

Lemma append_roundtrip_witness :
  ∃ r' f' m resp,
    raft_maybeSendAppend 2 true ex_sender = Ok (true, r') ∧
    raft_handleAppendEntries m ex_follower = Ok (tt, f') ∧
    Message_GetReject resp = false ∧ 9 <= Message_GetIndex resp ∧
    slog_at (log_view (raft_raftLog f')) 9 = Some (ex_entry 3 9).
Proof.
  destruct (append_roundtrip ex_sender ex_follower 2 (ex_pr 8 9) 5)
    as (r' & f' & m & resp & Es & _ & _ & Eh & _ & _ & _ & _ & Hr & Hi & _ & He).
  - apply ex_member.
  - reflexivity.
  - vm_compute. reflexivity.
  - apply ex_follower_log.
  - vm_compute. reflexivity.
  - vm_compute. reflexivity.
  - vm_compute. reflexivity.
  - intros i Hi. change (5 <= i < 9) in Hi. assert (i = 5 ∨ i = 6 ∨ i = 7 ∨ i = 8) as Hc by lia.
    destruct Hc as [->|[->|[->| ->]]]; vm_compute; reflexivity.
  - assert (9 <= Message_GetIndex resp) as H9
      by (apply Hi; [vm_compute; congruence|]; intros [_ Hf]; vm_compute in Hf; discriminate).
    exists r', f', m, resp. split; [exact Es|]. split; [exact Eh|]. split; [exact Hr|]. split; [exact H9|].
    apply He; [|lia|vm_compute; reflexivity..]. apply entries_match_check. vm_compute. repeat constructor.
Defined.
