(* ===== verification/RaftLive.v ===== *)
(** * A node that hears nothing campaigns

    Progress of src/raft.go: a node that is not the leader counts ticks, and when
    its randomized election timeout has passed it campaigns, without a panic,
    and asks every other voter for its vote. *)
From S2P Require Import Prelude Proto Quorum Inflights Progress Tracker Util Storage.
From S2P Require Import Unstable Log ConfChange ReadOnly Raft RaftStep RaftRel RaftSafety RaftRepl.

Section live.
Context {S : Type} `{Protobuf, !ProtobufLaws _} `{!Storage S} `{!StorageLaws S}.
Implicit Types r : raft S.

(** ** Resetting a node *)

(** Resetting the progress of members changes nothing else. *)
Lemma reset_progress_ok ids r :
  log_wf (raft_raftLog r) → Forall (fun id => is_Some (ProgressTracker_Progress (raft_trk r) !! id)) ids →
  ∃ p, for_each reset_progress ids r = Ok (tt, set_raft_trk (set_ProgressTracker_Progress p (raft_trk r)) r).
Proof.
  intros Hwf. revert r Hwf. induction ids as [|id ids IH]; intros r Hwf Hids; cbn [for_each].
  { exists (ProgressTracker_Progress (raft_trk r)). by destruct r as [? ? ? ? ? ? ? []]. }
  apply Forall_cons in Hids as [[pr Hpr] Hids].
  assert (∃ pr', reset_progress id r = Ok (tt, set_raft_trk (set_ProgressTracker_Progress
            (<[id := pr']> (ProgressTracker_Progress (raft_trk r))) (raft_trk r)) r)) as [pr' E].
  { unfold reset_progress. run_fwd. run_fwd_with (get_pr_run r id pr Hpr).
    run_fwd_with (lift_run _ r _ (lastIndex_ok _ Hwf)). by eexists. }
  run_fwd_with E. clear E. match goal with |- context [for_each _ ids ?x] => destruct (IH x Hwf) as [p Ep] end.
  2: rewrite Ep; by exists p.
  - eapply Forall_impl; [exact Hids|]. intros j Hj. cbn. destruct (decide (j = id)) as [->|].
    + rewrite lookup_insert_eq. by eexists.
    + by rewrite lookup_insert_ne.
Qed.

Lemma reset_ok term r :
  log_wf (raft_raftLog r) →
  ∃ r', raft_reset term r = Ok (tt, r') ∧ ProgressTracker_Config (raft_trk r') = ProgressTracker_Config (raft_trk r) ∧
    raft_electionElapsed r' = 0 ∧ raft_preVote r' = raft_preVote r.
Proof.
  intros Hwf. unfold raft_reset. run_fwd.
  assert (∃ r1, when (negb (raft_Term r =? term)) (_ ← modify (set_raft_Term term); modify (set_raft_Vote None_id)) r = Ok (tt, r1) ∧
    raft_raftLog r1 = raft_raftLog r ∧ raft_trk r1 = raft_trk r ∧ raft_preVote r1 = raft_preVote r) as (r1 & E1 & L1 & T1 & V1)
    by (destruct (negb _); by eexists).
  run_fwd_with E1. do 3 run_fwd.
  erewrite (run_ok raft_resetRandomizedElectionTimeout); [|reflexivity].
  erewrite (run_ok raft_abortLeaderTransfer); [|reflexivity]. run_fwd.
  match goal with |- context [(visit reset_progress ≫= _) ?x] => set (r2 := x) end.
  destruct (reset_progress_ok (Visit_ids (raft_trk r2)) r2) as [p Ep].
  { subst r2. cbn. by rewrite L1. }
  { apply Forall_forall. intros id. apply elem_of_Visit_ids. }
  erewrite (run_ok (visit reset_progress)); [|exact Ep]. do 2 run_fwd. eexists. split; [reflexivity|].
  subst r2. cbn. by rewrite T1, V1.
Qed.

Lemma becomeCandidate_ok r :
  log_wf (raft_raftLog r) → raft_state r ≠ StateLeader →
  ∃ r', raft_becomeCandidate r = Ok (tt, r') ∧ raft_state r' = StateCandidate ∧ raft_Term r' = raft_Term r +! 1 ∧
    raft_Vote r' = raft_id r ∧ raft_id r' = raft_id r ∧ raft_raftLog r' = raft_raftLog r ∧ raft_msgs r' = raft_msgs r ∧
    raft_msgsAfterAppend r' = raft_msgsAfterAppend r ∧
    ProgressTracker_Config (raft_trk r') = ProgressTracker_Config (raft_trk r) ∧ raft_electionElapsed r' = 0.
Proof.
  intros Hwf Hl. unfold raft_becomeCandidate. run_fwd. unfold st_eqb. rewrite bool_decide_false by done. run_fwd.
  destruct (reset_ok (raft_Term r +! 1) (set_raft_step stepCandidate_f r) Hwf) as (r1 & E & Hc & He & _).
  run_fwd_with E. do 2 run_fwd. eexists. split; [reflexivity|]. cbn.
  destruct (reset_effect _ _ _ _ E) as [(_ & Hi & Ht & _ & Hlg & Hm & Ha & _) _].
  cbn in Hc. revert Hi Ht Hlg Hm Ha. cbn. destruct (Z.eqb_spec (raft_Term r) (raft_Term r +! 1)) as [Et|]; cbn; intros; split_and!; congruence.
Qed.

Lemma becomePreCandidate_ok r :
  raft_state r ≠ StateLeader →
  ∃ r', raft_becomePreCandidate r = Ok (tt, r') ∧ raft_state r' = StatePreCandidate ∧ raft_Term r' = raft_Term r ∧
    raft_Vote r' = raft_Vote r ∧ raft_id r' = raft_id r ∧ raft_raftLog r' = raft_raftLog r ∧ raft_msgs r' = raft_msgs r ∧
    raft_msgsAfterAppend r' = raft_msgsAfterAppend r ∧
    ProgressTracker_Config (raft_trk r') = ProgressTracker_Config (raft_trk r) ∧
    raft_electionElapsed r' = raft_electionElapsed r.
Proof.
  intros Hl. unfold raft_becomePreCandidate. run_fwd. unfold st_eqb. rewrite bool_decide_false by done.
  do 4 run_fwd. by eexists.
Qed.

(** ** Asking for votes *)

(** What a candidate sends to a voter: a request with the position of its last
    entry to another one, and its own vote to itself. *)
Definition vote_request (from : Z) (t : CampaignType) (term : Z) (voteMsg : MessageType) (last : entryID) (id : Z) : Message :=
  set_Message_From (Some from) (set_Message_Term (Some term) (set_Message_Index (Some (entryID_index last))
    (set_Message_LogTerm (Some (entryID_term last))
      (set_Message_Context (match t with campaignTransfer => Some campaignTransfer_bytes | _ => None end) (Msg voteMsg (Some id)))))).

Definition own_vote (from : Z) (term : Z) (resp : MessageType) : Message :=
  set_Message_From (Some from) (set_Message_Term (Some term) (Msg resp (Some from))).

Lemma send_vote_ok m r :
  Message_From m = None → Message_GetTerm m ≠ 0 → is_vote_type (Message_GetType m) = true →
  (waits_for_append (Message_GetType m) = false → Message_GetTo m ≠ raft_id r) →
  raft_send m r = Ok (tt, let m := set_Message_From (Some (raft_id r)) m in
    if waits_for_append (Message_GetType m) then set_raft_msgsAfterAppend (raft_msgsAfterAppend r ++ [m]) r
    else set_raft_msgs (raft_msgs r ++ [m]) r).
Proof.
  intros Hf Ht Hty Hto. unfold raft_send. run_fwd.
  assert ((Message_GetFrom m =? None_id) = true) as -> by (unfold Message_GetFrom; by rewrite Hf). cbv zeta.
  change (Message_GetType (set_Message_From (Some (raft_id r)) m)) with (Message_GetType m).
  change (Message_GetTerm (set_Message_From (Some (raft_id r)) m)) with (Message_GetTerm m).
  rewrite Hty, (proj2 (Z.eqb_neq _ _)) by done. run_fwd. destruct (waits_for_append (Message_GetType m)) eqn:Ew; [done|].
  change (Message_GetTo (set_Message_From (Some (raft_id r)) m)) with (Message_GetTo m).
  by rewrite (proj2 (Z.eqb_neq _ _)) by auto.
Qed.

Lemma campaign_sends t term voteMsg resp last ids r :
  voteRespMsgType voteMsg = Ok resp → term ≠ 0 → raftLog_lastEntryID (raft_raftLog r) = Ok last →
  for_each (campaign_send t term voteMsg) ids r =
    Ok (tt, set_raft_msgs (raft_msgs r ++ map (vote_request (raft_id r) t term voteMsg last) (filter (fun id => id ≠ raft_id r) ids))
          (set_raft_msgsAfterAppend (raft_msgsAfterAppend r ++
             map (fun _ => own_vote (raft_id r) term resp) (filter (fun id => id = raft_id r) ids)) r)).
Proof.
  intros Hv Ht. assert (is_vote_type voteMsg = true ∧ is_vote_type resp = true ∧ waits_for_append voteMsg = false ∧
    waits_for_append resp = true) as (V1 & V2 & W1 & W2) by (destruct voteMsg; try done; by injection Hv as <-).
  revert r. induction ids as [|id ids IH]; intros r Hl; cbn [for_each].
  { cbn. rewrite !app_nil_r. by destruct r. }
  rewrite !filter_cons. destruct (Z.eqb_spec id (raft_id r)) as [Ei|Ei].
  - rewrite decide_False by (intros Hn; by apply Hn). rewrite decide_True by done.
    assert (campaign_send t term voteMsg id r = Ok (tt, set_raft_msgsAfterAppend (raft_msgsAfterAppend r ++ [own_vote (raft_id r) term resp]) r)) as E.
    { unfold campaign_send. run_fwd. rewrite (proj2 (Z.eqb_eq _ _)) by done. run_fwd_with (lift_run _ r _ Hv).
      rewrite send_vote_ok by (done || (cbn; by rewrite W2)). cbn. rewrite W2. by subst id. }
    run_fwd_with E. rewrite IH by done. cbn. rewrite <- app_assoc. done.
  - rewrite decide_True by done. rewrite decide_False by done.
    assert (campaign_send t term voteMsg id r = Ok (tt, set_raft_msgs (raft_msgs r ++ [vote_request (raft_id r) t term voteMsg last id]) r)) as E.
    { unfold campaign_send. run_fwd. rewrite (proj2 (Z.eqb_neq _ _)) by done. run_fwd_with (lift_run _ r _ Hl).
      rewrite send_vote_ok by done. cbn. by rewrite W1. }
    run_fwd_with E. rewrite IH by done. cbn. rewrite <- app_assoc. done.
Qed.

(** The state [r'] of a node that has started to campaign in the state [r]: in a
    new term with a vote for itself, or, if that comes first, asking whether an
    election would be won; and the messages that it sends. *)
Record campaigns r r' : Prop := mkcampaigns {
  camp_state : if raft_preVote r
    then raft_state r' = StatePreCandidate ∧ raft_Term r' = raft_Term r ∧ raft_Vote r' = raft_Vote r
    else raft_state r' = StateCandidate ∧ raft_Term r' = raft_Term r + 1 ∧ raft_Vote r' = raft_id r;
  camp_log : raft_raftLog r' = raft_raftLog r;
  camp_asks : ∃ reqs t, raft_msgs r' = raft_msgs r ++ reqs ∧
    slog_term (log_view (raft_raftLog r)) (log_last (raft_raftLog r)) = Some t ∧
    ∀ m, m ∈ reqs ↔ ∃ id, id ∈ JointConfig_IDs (ProgressTracker_Voters (raft_trk r)) ∧ id ≠ raft_id r ∧
      m = vote_request (raft_id r) campaignElection (raft_Term r + 1) (if raft_preVote r then MsgPreVote else MsgVote)
            (mkentryID t (log_last (raft_raftLog r))) id;
  camp_self : raft_id r ∈ JointConfig_IDs (ProgressTracker_Voters (raft_trk r)) →
    own_vote (raft_id r) (raft_Term r + 1) (if raft_preVote r then MsgPreVoteResp else MsgVoteResp)
      ∈ raft_msgsAfterAppend r';
}.

Lemma campaign_ok r :
  log_wf (raft_raftLog r) → raft_state r ≠ StateLeader → 0 <= raft_Term r < MaxUint64 →
  ∃ r', raft_campaign (if raft_preVote r then campaignPreElection else campaignElection) r = Ok (tt, r') ∧ campaigns r r'.
Proof.
  intros Hwf Hl Ht. destruct (lastEntryID_ok _ Hwf) as (t & El & Et).
  assert (raft_Term r +! 1 = raft_Term r + 1) as Ea by (apply add64_small; lia).
  set (ty := if raft_preVote r then MsgPreVote else MsgVote).
  set (ct := if raft_preVote r then campaignPreElection else campaignElection).
  assert (∃ r1, match ct with
       | campaignPreElection => _ ← raft_becomePreCandidate; r ← get; mret (raft_Term r +! 1, MsgPreVote)
       | _ => _ ← raft_becomeCandidate; r ← get; mret (raft_Term r, MsgVote)
       end r = Ok ((raft_Term r + 1, ty), r1) ∧
     (if raft_preVote r then raft_state r1 = StatePreCandidate ∧ raft_Term r1 = raft_Term r ∧ raft_Vote r1 = raft_Vote r
      else raft_state r1 = StateCandidate ∧ raft_Term r1 = raft_Term r + 1 ∧ raft_Vote r1 = raft_id r) ∧
     raft_id r1 = raft_id r ∧ raft_raftLog r1 = raft_raftLog r ∧ raft_msgs r1 = raft_msgs r ∧
     ProgressTracker_Config (raft_trk r1) = ProgressTracker_Config (raft_trk r)) as (r1 & E1 & Hst & Hi & Hlog & Hm & Hc).
  { unfold ct, ty. destruct (raft_preVote r).
    - destruct (becomePreCandidate_ok r Hl) as (r1 & E & ? & Et1 & ? & ? & ? & ? & _ & ? & _). exists r1. run_fwd_with E.
      run_fwd. rewrite Et1, Ea. done.
    - destruct (becomeCandidate_ok r Hwf Hl) as (r1 & E & ? & Et1 & ? & ? & ? & ? & _ & ? & _). exists r1. run_fwd_with E.
      run_fwd. rewrite Et1, Ea. done. }
  unfold raft_campaign. fold ct. run_fwd_with E1. run_fwd. cbn [fst snd].
  rewrite (campaign_sends ct (raft_Term r + 1) ty (if raft_preVote r then MsgPreVoteResp else MsgVoteResp)
             (mkentryID t (log_last (raft_raftLog r)))); [|by unfold ty; destruct (raft_preVote r)|lia|by rewrite Hlog].
  eexists. split; [reflexivity|].
  assert (∀ id, id ∈ sort64 (elements (JointConfig_IDs (ProgressTracker_Voters (raft_trk r1)))) ↔
    id ∈ JointConfig_IDs (ProgressTracker_Voters (raft_trk r))) as Hids.
  { intros id. rewrite sort64_perm, elem_of_elements. unfold ProgressTracker_Voters. by rewrite Hc. }
  split.
  - exact Hst.
  - exact Hlog.
  - eexists _, t. cbn [raft_msgs set_raft_msgs]. rewrite Hm. split; [reflexivity|]. split; [done|]. intros m.
    rewrite list_elem_of_fmap. setoid_rewrite list_elem_of_filter. setoid_rewrite Hids. rewrite Hi.
    assert (∀ id, vote_request (raft_id r) ct (raft_Term r + 1) ty (mkentryID t (log_last (raft_raftLog r))) id =
      vote_request (raft_id r) campaignElection (raft_Term r + 1) ty (mkentryID t (log_last (raft_raftLog r))) id) as Hv
      by (intros id; unfold ct; by destruct (raft_preVote r)).
    setoid_rewrite Hv. naive_solver.
  - intros Hin. cbn [raft_msgsAfterAppend set_raft_msgs set_raft_msgsAfterAppend]. apply elem_of_app. right.
    apply list_elem_of_fmap. exists (raft_id r). rewrite Hi. split; [done|]. apply list_elem_of_filter.
    split; [done|]. by apply Hids.
Qed.

(** ** Ticks *)

Fixpoint raft_ticks (k : nat) r : outcome (raft S) :=
  match k with
  | O => Ok r
  | Datatypes.S k => r ← raft_ticks k r; x ← raft_run_tick r; Ok x.2
  end.

(** The step of a local message that starts an election. *)
Lemma Step_hup_ok r from :
  log_wf (raft_raftLog r) → raft_state r ≠ StateLeader → raft_promotable r = true →
  raftLog_committed (raft_raftLog r) <= raftLog_applied (raft_raftLog r) → 0 <= raft_Term r < MaxUint64 →
  ∃ r', raft_Step (set_Message_From from (set_Message_Type (Some MsgHup) Message0)) r = Ok (None, r') ∧ campaigns r r'.
Proof.
  intros Hwf Hl Hp Hc Ht. destruct (campaign_ok r Hwf Hl Ht) as (r' & E & Hr'). exists r'. split; [|done].
  unfold raft_Step, Step_with. run_fwd. cbn [Message_GetTerm set_Message_From set_Message_Type Message0 Message_Term default from_option].
  rewrite Z.eqb_refl. unfold Step_dispatch. run_fwd. cbn [Message_GetType set_Message_From set_Message_Type Message_Type default from_option].
  assert (raft_hup (if raft_preVote r then campaignPreElection else campaignElection) r = Ok (tt, r')) as Eh.
  { unfold raft_hup. run_fwd. unfold st_eqb. rewrite bool_decide_false, Hp by done. cbn [negb].
    rewrite (run_ok raft_hasUnappliedConfChanges _ r r false); [exact E|].
    unfold raft_hasUnappliedConfChanges. run_fwd. by rewrite (proj2 (Z.leb_le _ _)) by done. }
  unfold id at 1. by run_fwd_with Eh.
Qed.

(** It does not matter when the node starts to campaign. *)
Lemma campaigns_elapsed e r r' : campaigns (set_raft_electionElapsed e r) r' → campaigns r r'.
Proof. intros [? ? ? ?]. by split. Qed.

(** A tick before the timeout, and the one at which it has passed. *)
Lemma tickElection_ok r :
  log_wf (raft_raftLog r) → raft_state r ≠ StateLeader → raft_tick r = tickElection_f → raft_promotable r = true →
  raftLog_committed (raft_raftLog r) <= raftLog_applied (raft_raftLog r) → 0 <= raft_Term r < MaxUint64 →
  if raft_electionElapsed r + 1 <? raft_randomizedElectionTimeout r
  then raft_run_tick r = Ok (tt, set_raft_electionElapsed (raft_electionElapsed r + 1) r)
  else ∃ r', raft_run_tick r = Ok (tt, r') ∧ campaigns r r'.
Proof.
  intros Hwf Hl Htk Hp Hc Ht. unfold raft_run_tick. run_fwd. rewrite Htk. unfold raft_tickElection. do 2 run_fwd.
  change (raft_promotable (set_raft_electionElapsed (raft_electionElapsed r + 1) r)) with (raft_promotable r).
  rewrite Hp. cbn [andb]. unfold raft_pastElectionTimeout.
  cbn [raft_randomizedElectionTimeout raft_electionElapsed set_raft_electionElapsed].
  destruct (Z.ltb_spec (raft_electionElapsed r + 1) (raft_randomizedElectionTimeout r)).
  - by rewrite (proj2 (Z.leb_gt _ _)) by done.
  - rewrite (proj2 (Z.leb_le _ _)) by done. run_fwd. cbn [raft_id set_raft_electionElapsed].
    match goal with |- context [(raft_Step ?m ≫= _) ?x] => destruct (Step_hup_ok x (Some (raft_id r))) as (r' & E & Hr'); try done end.
    exists r'. run_fwd_with E. split; [done|]. by apply campaigns_elapsed in Hr'; apply campaigns_elapsed in Hr'.
Qed.

(** C30. A node that hears nothing campaigns.  A member that may be elected and is
    not the leader, with nothing left to apply, only counts the ticks before its
    randomized election timeout; the tick at which that has passed makes it
    start an election (or, with PreVote, ask for one), without a panic: it moves
    to the next term, votes for itself, and sends a request for a vote, with the
    position of its last entry, to exactly the other voters. *)
Theorem election_timeout_campaigns r :
  log_wf (raft_raftLog r) → raft_state r ≠ StateLeader → raft_tick r = tickElection_f → raft_promotable r = true →
  raftLog_committed (raft_raftLog r) <= raftLog_applied (raft_raftLog r) → 0 <= raft_Term r < MaxUint64 →
  let k := Z.to_nat (Z.max 1 (raft_randomizedElectionTimeout r - raft_electionElapsed r)) in
  (∀ j, (j < k)%nat → raft_ticks j r = Ok (set_raft_electionElapsed (raft_electionElapsed r + Z.of_nat j) r)) ∧
  ∃ r', raft_ticks k r = Ok r' ∧ campaigns r r'.
Proof.
  intros Hwf Hl Htk Hp Hc Ht k.
  assert (∀ j, (j < k)%nat → raft_ticks j r = Ok (set_raft_electionElapsed (raft_electionElapsed r + Z.of_nat j) r)) as Hj.
  { induction j as [|j IH]; intros Hlt; cbn [raft_ticks]; [rewrite Z.add_0_r; by destruct r|].
    rewrite IH by lia. cbn [mbind outcome_bind]. match goal with |- context [raft_run_tick ?x] => pose proof (tickElection_ok x) as Hx end.
    cbn [raft_randomizedElectionTimeout raft_electionElapsed set_raft_electionElapsed] in Hx.
    rewrite (proj2 (Z.ltb_lt _ _)) in Hx by lia. rewrite Hx by done. cbn. unfold set_raft_electionElapsed. cbn. do 2 f_equal. lia. }
  split; [exact Hj|]. assert (k = Datatypes.S (pred k)) as Ek by lia. rewrite Ek. cbn [raft_ticks].
  rewrite Hj by lia. cbn [mbind outcome_bind]. match goal with |- context [raft_run_tick ?x] => pose proof (tickElection_ok x) as Hx end.
  cbn [raft_randomizedElectionTimeout raft_electionElapsed set_raft_electionElapsed] in Hx.
  rewrite (proj2 (Z.ltb_ge _ _)) in Hx by lia. destruct Hx as (r' & E & Hr'); [done..|]. exists r'. rewrite E. split; [done|].
  by eapply campaigns_elapsed.
Qed.

End live.

(** ** A follower of a three-member cluster *)

#[local] Existing Instances sample_Protobuf sample_ProtobufLaws.

(** Everything that is committed has been applied. *)
Definition live_follower : raft MemoryStorage :=
  Ok_or ex_follower (newRaft (mkRaftConfig 1 10 1 (Some ex_node_storage) 7 false noLimit 0 0 256 0 false false
                                ReadOnlySafe false false false) [3]).

Lemma live_follower_log : log_wf (raft_raftLog live_follower).
Proof.
  split; [| |vm_compute; intuition congruence..].
  - assert (raftLog_storage (raft_raftLog live_follower) = ex_node_storage) as -> by (vm_compute; reflexivity).
    split; [done|]. split; [|done]. split; [done|]. split; [done|].
    apply contiguous_check. vm_compute. reflexivity.
  - split; vm_compute; intuition congruence.
Qed.

(** Its timeout is 13. *)
Lemma election_timeout_campaigns_witness :
  (∃ r, raft_ticks 12 live_follower = Ok r ∧ raft_state r = StateFollower) ∧
  ∃ r', raft_ticks 13 live_follower = Ok r' ∧ raft_state r' = StateCandidate ∧ raft_Term r' = 3 ∧
    vote_request 1 campaignElection 3 MsgVote (mkentryID 2 8) 2 ∈ raft_msgs r'.
Proof.
  destruct (election_timeout_campaigns live_follower) as [Hj (r' & E & [Hst _ (reqs & t & Em & Ht & Hr) _])];
    [exact live_follower_log|vm_compute; congruence|vm_compute; reflexivity..|vm_compute; congruence|vm_compute; intuition congruence|].
  split.
  - eexists. split; [apply (Hj 12%nat); vm_compute; lia|vm_compute; reflexivity].
  - exists r'. split; [exact E|]. vm_compute in Hst. destruct Hst as (Hs & Htm & _). split; [exact Hs|]. split; [exact Htm|].
    rewrite Em. apply elem_of_app. right. apply Hr. exists 2. split; [|split; [vm_compute; congruence|]].
    + apply (bool_decide_unpack _). vm_compute. exact I.
    + vm_compute in Ht. injection Ht as <-. vm_compute. reflexivity.
Defined.
