(* ===== verification/RaftInv.v ===== *)
(** * The state invariant of a node (theorems about src/raft.go)

    The role of a node agrees with the functions it steps and ticks with and
    with the leader it knows; its log stays well-formed, its committed entries
    are never replaced, and a leader only appends to its log. *)
From S2P Require Import Prelude Proto Quorum Inflights Progress Tracker Util Storage.
From S2P Require Import Unstable Log ConfChange ReadOnly Raft RaftStep RaftRel.
From S2P Require Import RaftSafety RaftRepl.

(** The fields [state], [step], [tick] and [lead] tell the same story. *)
Definition coherent {S} (r : raft S) : Prop :=
  match raft_state r with
  | StateFollower => raft_step r = stepFollower_f ∧ raft_tick r = tickElection_f
  | StateCandidate | StatePreCandidate =>
      raft_step r = stepCandidate_f ∧ raft_tick r = tickElection_f ∧ raft_lead r = None_id
  | StateLeader => raft_step r = stepLeader_f ∧ raft_tick r = tickHeartbeat_f ∧ raft_lead r = raft_id r
  end.

Section inv.
Context {S : Type} `{Protobuf, !ProtobufLaws _} `{!Storage S} `{!StorageLaws S}.
Implicit Types (r : raft S) (l : raftLog S).

(** ** Relations between logs *)

(** The log is the same but for the commit index and the positions of the
    application. *)
Definition log_same l l' : Prop :=
  log_wf l → log_wf l' ∧ log_view l' = log_view l ∧ raftLog_committed l <= raftLog_committed l' ∧
    raftLog_storage l' = raftLog_storage l.

(** Entries are only added at the end. *)
Definition log_grows l l' : Prop :=
  log_wf l → log_wf l' ∧ log_base l' = log_base l ∧ sl_ents (log_view l) `prefix_of` sl_ents (log_view l') ∧
    raftLog_committed l <= raftLog_committed l' ∧ raftLog_storage l' = raftLog_storage l.

(** What is committed stays; a snapshot may take its place. *)
Definition log_kept l l' : Prop :=
  log_wf l → log_wf l' ∧ log_base l <= log_base l' ∧ raftLog_committed l <= raftLog_committed l' ∧
    raftLog_storage l' = raftLog_storage l ∧
    ∀ i, log_base l' < i <= raftLog_committed l → slog_at (log_view l') i = slog_at (log_view l) i.

#[export] Instance log_same_preorder : PreOrder log_same.
Proof.
  split; [by intros l|]. intros l1 l2 l3 H1 H2 Hw. destruct (H1 Hw) as (W1 & V1 & C1 & S1).
  destruct (H2 W1) as (W2 & V2 & C2 & S2). split_and!; [done|congruence|lia|congruence].
Qed.

#[export] Instance log_grows_preorder : PreOrder log_grows.
Proof.
  split; [by intros l|]. intros l1 l2 l3 H1 H2 Hw. destruct (H1 Hw) as (W1 & B1 & P1 & C1 & S1).
  destruct (H2 W1) as (W2 & B2 & P2 & C2 & S2). split_and!; [done|congruence|by etrans|lia|congruence].
Qed.

#[export] Instance log_kept_preorder : PreOrder log_kept.
Proof.
  split; [by intros l|]. intros l1 l2 l3 H1 H2 Hw. destruct (H1 Hw) as (W1 & B1 & C1 & S1 & K1).
  destruct (H2 W1) as (W2 & B2 & C2 & S2 & K2). split_and!; [done|lia..|congruence|].
  intros i Hi. rewrite K2, K1 by lia. done.
Qed.

Lemma log_base_view l l' : log_view l' = log_view l → log_base l' = log_base l.
Proof. intros E. exact (f_equal sl_base E). Qed.

Lemma same_grows l l' : log_same l l' → log_grows l l'.
Proof.
  intros Hs Hw. destruct (Hs Hw) as (? & Hv & ? & ?). split_and!; [done|by apply log_base_view|by rewrite Hv|done..].
Qed.

Lemma grows_kept l l' : log_grows l l' → log_kept l l'.
Proof.
  intros Hg Hw. destruct (Hg Hw) as (? & Hb & [k Hp] & ? & ?). split_and!; [done|lia|done..|].
  intros i Hi. unfold slog_at. cbn [sl_base log_view]. rewrite Hb. zcase; [|done]. rewrite Hp.
  destruct Hw as [_ _ _ Hc _ _]. unfold slog_last, len in Hc. cbn [sl_base log_view] in Hc.
  apply lookup_app_l. lia.
Qed.

Lemma commitTo_same c l l' : raftLog_commitTo c l = Ok l' → log_same l l'.
Proof.
  unfold raftLog_commitTo. intros E Hw. revert E. zcase; [|by intros [= <-]].
  rewrite lastIndex_ok by done. cbn. zcase; [done|]. intros [= <-]. split_and!; [|done|cbn; lia|done].
  apply set_committed_wf; [done|lia].
Qed.

Lemma maybeCommit_same id l l' b : raftLog_maybeCommit id l = Ok (b, l') → log_same l l'.
Proof.
  unfold raftLog_maybeCommit. intros (ok & _ & E)%bind_Ok. destruct ok; [|by injection E as _ <-].
  apply bind_Ok in E as (l1 & E1 & E). injection E as _ <-. by apply commitTo_same in E1.
Qed.

Lemma appliedTo_same i size l l' :
  raftLog_appliedTo i size l = Ok l' → raftLog_applied l <= i → log_same l l'.
Proof.
  intros E Hi Hw. assert (i <= raftLog_committed l) as Hc.
  { revert E. unfold raftLog_appliedTo. by destruct (Z.ltb_spec (raftLog_committed l) i). }
  destruct (appliedTo_ok l i size Hw) as (l1 & E1 & W1 & V1 & C1 & _); [lia|].
  rewrite E in E1. injection E1 as <-. split_and!; [done..|lia|].
  revert E. unfold raftLog_appliedTo. destruct (_ || _); [done|]. intros [= <-]. by destruct (_ <? _).
Qed.

(** ** Append messages *)

(** The entries of an append message are those of a log after its position. *)
Definition slice_of (g : slog) (m : Message) : Prop :=
  Message_GetType m = MsgApp →
  slog_term g (Message_GetIndex m) = Some (Message_GetLogTerm m) ∧
  Message_GetEntries m `prefix_of` drop (Z.to_nat (Message_GetIndex m - sl_base g)) (sl_ents g).

Definition sends (g : slog) r r' : Prop :=
  ∃ new, raft_msgs r' = raft_msgs r ++ new ∧ Forall (slice_of g) new.

#[export] Instance sends_preorder g : PreOrder (sends g).
Proof.
  split; [intros r; exists []; by rewrite app_nil_r|]. intros r1 r2 r3 (n1 & E1 & H1) (n2 & E2 & H2).
  exists (n1 ++ n2). rewrite E2, E1, app_assoc. split; [done|by apply Forall_app].
Qed.

Lemma sends_nothing g r r' : raft_msgs r' = raft_msgs r → sends g r r'.
Proof. intros E. exists []. by rewrite app_nil_r. Qed.

(** A log that continues another has its slices. *)
Definition extends (g : slog) (new : list Entry) : slog := mkslog (sl_base g) (sl_term g) (sl_ents g ++ new).

Lemma slice_extends g new m : slice_of g m → slice_of (extends g new) m.
Proof.
  intros Hs Ht. destruct (Hs Ht) as [Hm [k Hk]]. pose proof (slog_term_bounds _ _ _ Hm) as Hb. split.
  - unfold slog_term in *. cbn. repeat zcase; try done. unfold slog_last, len in Hb. rewrite lookup_app_l by lia.
    revert Hm. repeat zcase; try lia. done.
  - exists (k ++ new). cbn. unfold slog_last, len in Hb. rewrite drop_app_le by lia. by rewrite Hk, app_assoc.
Qed.

Lemma sends_extends g new r r' : sends g r r' → sends (extends g new) r r'.
Proof.
  intros (ms & E & Hm). exists ms. split; [done|]. eapply Forall_impl; [exact Hm|]. intros m. apply slice_extends.
Qed.

(** ** Methods that leave role and log alone *)

Definition quiet r r' : Prop :=
  (coherent r → coherent r') ∧ log_same (raft_raftLog r) (raft_raftLog r') ∧
  (log_wf (raft_raftLog r) → sends (log_view (raft_raftLog r)) r r').

#[export] Instance quiet_preorder : PreOrder quiet.
Proof.
  split; [by intros r|]. intros r1 r2 r3 (C1 & L1 & S1) (C2 & L2 & S2). split_and!; [auto|by etrans|].
  intros Hw. destruct (L1 Hw) as (W1 & V1 & _). trans r2; [auto|]. rewrite <- V1. auto.
Qed.

Definition roles r := (raft_id r, raft_state r, raft_step r, raft_tick r, raft_lead r).

Lemma roles_coherent r r' : roles r' = roles r → coherent r → coherent r'.
Proof. unfold coherent. intros [= -> -> -> -> ->]. done. Qed.

Lemma roles_quiet r r' :
  roles r' = roles r → log_same (raft_raftLog r) (raft_raftLog r') → raft_msgs r' = raft_msgs r → quiet r r'.
Proof. intros Hr Hl Hm. split_and!; [by apply roles_coherent|done|]. intros _. by apply sends_nothing. Qed.

Lemma quiet_modify f :
  (∀ r, roles (f r) = roles r) → (∀ r, raft_raftLog (f r) = raft_raftLog r) →
  (∀ r, raft_msgs (f r) = raft_msgs r) → rel quiet (modify f).
Proof. intros Hf Hl Hm. apply rel_modify. intros r. apply roles_quiet; [done|by rewrite Hl|done]. Qed.

Hint Extern 2 (rel quiet (modify _)) => apply quiet_modify; done : rel.

Lemma quiet_get_pr id : rel quiet (get_pr id).
Proof. unfold get_pr. rel_auto. Qed.

Lemma quiet_put_pr id pr : rel quiet (put_pr id pr).
Proof. unfold put_pr. rel_auto. Qed.

Hint Resolve quiet_get_pr quiet_put_pr : rel.

Lemma quiet_modify_pr id f : rel quiet (modify_pr id f).
Proof. unfold modify_pr. rel_auto. Qed.

Lemma quiet_send_at m r u r' :
  raft_send m r = Ok (u, r') → (log_wf (raft_raftLog r) → slice_of (log_view (raft_raftLog r)) m) → quiet r r'.
Proof.
  intros E Hm. apply send_effect in E as (x & (Ht & _ & _ & _ & _ & [= Hi Hl He]) & [(_ & ->)|(_ & _ & ->)]);
    [by apply roles_quiet|]. split_and!; [by apply roles_coherent|done|].
  intros Hw. exists [x]. split; [done|]. apply Forall_singleton. unfold slice_of. rewrite Ht, Hi, Hl, He. by apply Hm.
Qed.

Lemma quiet_send m : Message_GetType m ≠ MsgApp → rel quiet (raft_send m).
Proof. intros Hm r u r' E. eapply quiet_send_at; [exact E|]. by intros _ ?. Qed.

Hint Resolve quiet_modify_pr : rel.
Hint Extern 1 (rel quiet (raft_send _)) => apply quiet_send; first [discriminate|congruence] : rel.

Lemma quiet_maybeSendSnapshot to : rel quiet (raft_maybeSendSnapshot to).
Proof. unfold raft_maybeSendSnapshot. rel_auto. Qed.
Hint Resolve quiet_maybeSendSnapshot : rel.

Lemma term_answer_inv l i t :
  log_wf l → is_u64 i → raftLog_term l i = Ok (Val t) → slog_term (log_view l) i = Some t.
Proof.
  intros Hw [H0 Hi] E. destruct (decide (i = MaxUint64)) as [->|].
  - revert E. pose proof (log_last_bound _ Hw). pose proof (log_base_bounds _ Hw). unfold raftLog_term.
    rewrite maybeTerm_ok by (apply Hw || lia). pose proof (lwf_unstable _ Hw) as [Ho Hb Hl Hc Hp Hs Hsi].
    pose proof (len_nonneg (unstable_entries (raftLog_unstable l))). unfold unstable_entry.
    rewrite (proj2 (Z.ltb_ge MaxUint64 (unstable_offset (raftLog_unstable l)))) by lia.
    rewrite lookup_ge_None_2 by (unfold len in *; lia).
    cbn [mbind outcome_bind fmap option_fmap option_map]. rewrite firstIndex_ok by done. cbn [mbind outcome_bind].
    change (MaxUint64 +! 1) with 0. by rewrite (proj2 (Z.ltb_lt _ _)) by lia.
  - rewrite term_ok in E by (done || lia). unfold term_answer in E. destruct (slog_term _ _); [|by destruct (_ <? _)].
    by injection E as ->.
Qed.

(** What [maybeSendAppend] reads is a slice of the log. *)
Lemma entries_slice l i n ents t :
  log_wf l → raftLog_entries l i n = Ok (Val ents) → slog_term (log_view l) (i -! 1) = Some t →
  ents `prefix_of` drop (Z.to_nat (i -! 1 - log_base l)) (sl_ents (log_view l)).
Proof.
  intros Hw E Ht. pose proof (log_last_bound _ Hw). pose proof (log_base_bounds _ Hw). revert E. unfold raftLog_entries.
  rewrite lastIndex_ok by done. cbn [mbind outcome_bind]. zcase; [intros [= <-]; apply prefix_nil|].
  rewrite add64_small by lia. intros E. apply slice_prefix in E as [Hb [k Hk]]; [|done|lia|lia].
  rewrite sub64_small by lia. unfold slog_range in Hk. cbn [sl_base log_view] in Hk.
  replace (i - 1 - log_base l) with (i - log_base l - 1) by lia.
  exists (k ++ drop (Z.to_nat (log_last l + 1 - i)) (drop (Z.to_nat (i - log_base l - 1)) (sl_ents (log_view l)))).
  by rewrite app_assoc, <- Hk, take_drop.
Qed.

Lemma quiet_maybeSendAppend to b : rel quiet (raft_maybeSendAppend to b).
Proof.
  unfold raft_maybeSendAppend. apply rel_bind; [apply _|auto with rel|]. intros pr.
  destruct (Progress_IsPaused pr); [apply rel_ret, _|]. apply rel_get_bind. intros r x r' E.
  run_inv E. apply bind_Ok in E0 as (t & Et & [= <- <-]). destruct t as [t|]; [|by eapply quiet_maybeSendSnapshot].
  run_inv E.
  assert (r0 = r ∧ ∀ ents, x0 = Val ents → log_wf (raft_raftLog r) → ents `prefix_of`
    drop (Z.to_nat (Progress_Next pr -! 1 - log_base (raft_raftLog r))) (sl_ents (log_view (raft_raftLog r)))) as [-> He].
  { destruct (_ || _).
    - apply bind_Ok in E0 as (e & Ee & [= <- <-]). split; [done|]. intros ents -> Hw.
      eapply entries_slice; [done..|]. apply term_answer_inv; [done|apply sub64_u64|done].
    - injection E0 as <- <-. split; [done|]. intros ents [= <-] _. apply prefix_nil. }
  destruct (_ && _); [by injection E as _ <-|]. destruct x0 as [ents|]; [|by eapply quiet_maybeSendSnapshot].
  run_inv E. apply quiet_send_at in E1.
  - etrans; [exact E1|]. lazymatch type of E with ?m _ = _ => assert (rel quiet m) as Hm by rel_auto; by eapply Hm end.
  - intros Hw _. split; [apply term_answer_inv; [done|apply sub64_u64|done]|]. by apply He.
Qed.
Hint Resolve quiet_maybeSendAppend : rel.

Lemma quiet_bcastAppend : rel quiet raft_bcastAppend.
Proof. unfold raft_bcastAppend, raft_sendAppend. rel_auto. Qed.

Lemma quiet_bcastHeartbeat : rel quiet raft_bcastHeartbeat.
Proof. unfold raft_bcastHeartbeat, raft_bcastHeartbeatWithCtx, raft_sendHeartbeat. rel_auto. Qed.

Lemma quiet_maybeCommit : rel quiet raft_maybeCommit.
Proof.
  apply rel_bind; [apply _|apply rel_get, _|]. intros r0. apply rel_on_log. intros r b l E.
  apply roles_quiet; [done| |done]. by eapply maybeCommit_same.
Qed.

Lemma quiet_commitTo c : rel quiet (on_log_ (raftLog_commitTo c)).
Proof. apply rel_on_log_. intros r l E. apply roles_quiet; [done| |done]. by eapply commitTo_same. Qed.

Lemma quiet_answer_read req i : rel quiet (answer_read req i).
Proof.
  intros r u r' E. unfold answer_read, raft_responseToReadIndexReq in E. run_inv E. run_inv E0.
  injection E1 as <- <-. destruct (_ || _).
  - run_inv E0. run_inv E0. apply bind_Ok in E1 as (? & _ & [= <- <-]). injection E2 as _ <-.
    injection E0 as <- <-. injection E as _ <-. by apply roles_quiet.
  - injection E0 as <- <-. destruct (negb _); [|by injection E as _ <-]. by eapply quiet_send; [|exact E].
Qed.
Hint Resolve quiet_bcastAppend quiet_bcastHeartbeat quiet_maybeCommit quiet_commitTo quiet_answer_read : rel.

Lemma quiet_sendMsgReadIndexResponse m : rel quiet (sendMsgReadIndexResponse m).
Proof. unfold sendMsgReadIndexResponse. rel_auto. Qed.
Hint Resolve quiet_sendMsgReadIndexResponse : rel.

Lemma quiet_committedEntryInCurrentTerm : rel quiet raft_committedEntryInCurrentTerm.
Proof. unfold raft_committedEntryInCurrentTerm. rel_auto. Qed.
Hint Resolve quiet_committedEntryInCurrentTerm : rel.

Lemma quiet_releasePendingReadIndexMessages : rel quiet releasePendingReadIndexMessages.
Proof. unfold releasePendingReadIndexMessages. rel_auto. Qed.
Hint Resolve quiet_releasePendingReadIndexMessages : rel.

(** ** Roles *)

(** [reset] changes no role but for the leader, and not the log. *)
Lemma reset_roles term r u r' :
  raft_reset term r = Ok (u, r') →
  roles r' = (raft_id r, raft_state r, raft_step r, raft_tick r, None_id) ∧ raft_raftLog r' = raft_raftLog r ∧
  raft_msgs r' = raft_msgs r.
Proof.
  pose (R r1 r2 := roles r2 = roles r1 ∧ raft_raftLog r2 = raft_raftLog r1 ∧ raft_msgs r2 = raft_msgs r1).
  assert (PreOrder R) as HR.
  { split; [done|]. intros ? ? ? (? & ? & ?) (? & ? & ?). split_and!; congruence. }
  assert (∀ f, (∀ r, R r (f r)) → rel R (modify f)) as Hm by (intros; by apply rel_modify).
  unfold raft_reset. intros E. do 3 run_inv E. injection E0 as <- <-. injection E2 as _ <-.
  assert (roles r1 = roles r ∧ raft_raftLog r1 = raft_raftLog r ∧ raft_msgs r1 = raft_msgs r) as (Hr0 & Hl0 & Hm0).
  { destruct (negb _); by injection E1 as _ <-. }
  lazymatch type of E with ?m _ = _ => assert (rel R m) as Hrel end.
  { unfold raft_resetRandomizedElectionTimeout, Intn, raft_abortLeaderTransfer, reset_progress, get_pr, put_pr.
    repeat first [solve [apply Hm; done] | rel_step | progress cbn zeta]. }
  destruct (Hrel _ _ _ E) as (-> & -> & ->). injection Hr0 as ? ? ? ? ?. cbn. split; [|done]. unfold roles. cbn. congruence.
Qed.

Lemma becomeFollower_roles term lead r u r' :
  raft_becomeFollower term lead r = Ok (u, r') →
  roles r' = (raft_id r, StateFollower, stepFollower_f, tickElection_f, lead) ∧ raft_raftLog r' = raft_raftLog r ∧
  raft_msgs r' = raft_msgs r.
Proof.
  unfold raft_becomeFollower. intros E. run_inv E. injection E0 as _ <-. run_inv E.
  apply reset_roles in E0 as [Hr [Hl Hm]]. injection Hr as ? ? ? ? ?. injection E as _ <-. cbn in *.
  unfold roles. cbn. split; [congruence|done].
Qed.

Lemma becomeFollower_inv term lead r u r' :
  raft_becomeFollower term lead r = Ok (u, r') →
  coherent r' ∧ raft_raftLog r' = raft_raftLog r ∧ raft_msgs r' = raft_msgs r ∧ raft_state r' = StateFollower.
Proof.
  intros [[= ? ? ? ? ?] [? ?]]%becomeFollower_roles. unfold coherent. split_and!; [|done..].
  by replace (raft_state r') with StateFollower.
Qed.

(** A change of role that leaves log and messages alone. *)
Lemma quiet_role r r' :
  coherent r' → raft_raftLog r' = raft_raftLog r → raft_msgs r' = raft_msgs r → quiet r r'.
Proof. intros Hc Hl Hm. split_and!; [done|by rewrite Hl|]. intros _. by apply sends_nothing. Qed.

Lemma quiet_becomeFollower term lead : rel quiet (raft_becomeFollower term lead).
Proof. intros r u r' (? & ? & ? & _)%becomeFollower_inv. by apply quiet_role. Qed.

Lemma quiet_becomeCandidate : rel quiet raft_becomeCandidate.
Proof.
  unfold raft_becomeCandidate. intros r u r' E. run_inv E. injection E0 as <- <-. destruct (st_eqb _ _); [done|].
  run_inv E. injection E0 as _ <-. run_inv E. apply reset_roles in E0 as (Hr & Hl & Hm). injection Hr as ? ? ? ? ?.
  injection E as _ <-. by apply quiet_role.
Qed.

Lemma quiet_becomePreCandidate : rel quiet raft_becomePreCandidate.
Proof.
  unfold raft_becomePreCandidate. intros r u r' E. run_inv E. injection E0 as <- <-. destruct (st_eqb _ _); [done|].
  injection E as _ <-. by apply quiet_role.
Qed.
Hint Resolve quiet_becomeFollower quiet_becomeCandidate quiet_becomePreCandidate : rel.

Lemma quiet_campaign t : rel quiet (raft_campaign t).
Proof.
  intros r u r' E. unfold raft_campaign in E. run_inv E. run_inv E. injection E1 as <- <-.
  assert (quiet r r0 ∧ (x.2 = MsgPreVote ∨ x.2 = MsgVote)) as [Hq Hx].
  { destruct t; run_inv E0; run_inv E0; injection E2 as <- <-; injection E0 as <- <-;
      (split; [|by auto]); [by eapply quiet_becomePreCandidate|by eapply quiet_becomeCandidate..]. }
  trans r0; [done|]. eapply rel_for_each in E; [exact E|apply _|]. intros id. clear E0 E Hq.
  apply rel_get_bind. intros r1 v r2 E. destruct (_ =? _); run_inv E; apply bind_Ok in E0 as (y & Ey & [= <- <-]); cbn zeta in E;
    (eapply quiet_send; [|exact E]); cbn.
  - destruct Hx as [Hx|Hx]; rewrite Hx in Ey; by injection Ey as <-.
  - by destruct Hx as [-> | ->].
Qed.
Hint Resolve quiet_campaign : rel.

Lemma quiet_hup t : rel quiet (raft_hup t).
Proof. unfold raft_hup, raft_hasUnappliedConfChanges. rel_auto. Qed.

Lemma quiet_switchToConfig cfg trk : rel quiet (raft_switchToConfig cfg trk).
Proof. unfold raft_switchToConfig, raft_abortLeaderTransfer. rel_auto. Qed.
Hint Resolve quiet_hup quiet_switchToConfig : rel.

Lemma quiet_applyConfChange cc : rel quiet (raft_applyConfChange cc).
Proof. unfold raft_applyConfChange. rel_auto. Qed.

(** ** Appending *)

(** Positions stay below 2^63. *)
Definition room (n : Z) l : Prop := log_last l + n < 9223372036854775808.

Lemma unstable_len l : log_wf l → len (unstable_entries (raftLog_unstable l)) <= log_last l.
Proof.
  intros Hw. pose proof (log_base_bounds _ Hw). unfold slog_last. cbn [log_view sl_base sl_ents].
  rewrite len_app. pose proof (len_nonneg (log_stable l)). lia.
Qed.

Lemma clone_entries_len t i es : len (clone_entries t i es) = len es.
Proof. revert i. induction es as [|e es IH]; intros i; [done|]. cbn [clone_entries]. by rewrite !len_cons, IH. Qed.

Lemma clone_entries_contiguous t i es :
  0 < i → i + len es <= MaxUint64 → contiguous (i - 1) (clone_entries t i es).
Proof.
  revert i. induction es as [|e es IH]; intros i Hi Hl; [apply contiguous_nil|]. cbn [clone_entries].
  rewrite len_cons in Hl. pose proof (len_nonneg es). rewrite add64_small by lia.
  apply contiguous_cons. split; [cbn; lia|]. replace (i - 1 + 1) with (i + 1 - 1) by lia. apply IH; lia.
Qed.

Lemma slog_append_end g ents : slog_append g (slog_last g) ents = extends g ents ∨ ents = [].
Proof.
  destruct ents as [|e ents]; [by right|left]. unfold slog_append, slog_last, extends. rewrite len_cons.
  pose proof (len_nonneg (sl_ents g)). pose proof (len_nonneg ents). zcase; [lia|].
  rewrite take_ge by (unfold len; lia). replace (Z.to_nat (sl_base g - _)) with 0%nat by lia. done.
Qed.

Lemma extends_nil g : extends g [] = g.
Proof. unfold extends. rewrite app_nil_r. by destruct g. Qed.

Lemma extends_app g a b : extends (extends g a) b = extends g (a ++ b).
Proof. unfold extends. cbn. by rewrite app_assoc. Qed.

Lemma clone_entries_term t i es : Forall (fun e => Entry_GetTerm e = t) (clone_entries t i es).
Proof. revert i. induction es as [|e es IH]; intros i; constructor; [done|apply IH]. Qed.

(** The log goes on with entries of term [t]. *)
Definition log_adds (t : Z) l l' : Prop :=
  log_wf l' ∧ raftLog_committed l <= raftLog_committed l' ∧ raftLog_storage l' = raftLog_storage l ∧
  ∃ new, log_view l' = extends (log_view l) new ∧ Forall (fun e => Entry_GetTerm e = t) new.

Lemma same_adds t l l' : log_wf l → log_same l l' → log_adds t l l'.
Proof. intros Hw Hs. destruct (Hs Hw) as (? & ? & ? & ?). split_and!; [done..|]. exists []. by rewrite extends_nil. Qed.

Lemma adds_grows t l l' : log_adds t l l' → log_grows l l'.
Proof.
  intros (Hw' & Hc & Hs & new & V & _) _. split_and!; [done| | |done..]; [exact (f_equal sl_base V)|].
  rewrite V. by apply prefix_app_r.
Qed.

Lemma append_adds l l' t es li :
  raftLog_append (clone_entries t (log_last l +! 1) es) l = Ok (li, l') → room (len es) l → log_wf l → log_adds t l l'.
Proof.
  intros E Hr Hw. pose proof (log_last_bound _ Hw). pose proof (len_nonneg es). unfold room in Hr.
  rewrite add64_small in E by lia. destruct es as [|e es].
  { cbn in E. rewrite lastIndex_ok in E by done. injection E as _ <-. by apply same_adds. }
  assert (contiguous (log_last l) (clone_entries t (log_last l + 1) (e :: es))) as Hc.
  { replace (log_last l) with (log_last l + 1 - 1) at 1 by lia. apply clone_entries_contiguous; lia. }
  pose proof (unstable_len _ Hw). pose proof (lwf_committed _ Hw).
  destruct (append_ok l (log_last l) (clone_entries t (log_last l + 1) (e :: es))) as (u' & E' & W & V & _);
    rewrite ?clone_entries_len; try done; try lia. rewrite E in E'. injection E' as _ ->.
  split_and!; [done..|]. eexists. split; [|apply (clone_entries_term t (log_last l + 1) (e :: es))].
  rewrite V. by destruct (slog_append_end (log_view l) (clone_entries t (log_last l + 1) (e :: es))).
Qed.

(** Methods that append at most [n] entries, of the term of the node. *)
Definition grows (n : Z) r r' : Prop :=
  (coherent r → coherent r') ∧
  (room n (raft_raftLog r) → log_wf (raft_raftLog r) →
    log_adds (raft_Term r) (raft_raftLog r) (raft_raftLog r') ∧ sends (log_view (raft_raftLog r')) r r').

Lemma quiet_grows n r r' : quiet r r' → grows n r r'.
Proof.
  intros (Hc & Hl & Hs). split; [done|]. intros _ Hw. split; [by apply same_adds|].
  destruct (Hl Hw) as (_ & -> & _). by apply Hs.
Qed.

Lemma room_same n l l' : log_wf l → log_same l l' → room n l → room n l'.
Proof. intros Hw Hs. destruct (Hs Hw) as (_ & Hv & _). unfold room. by rewrite Hv. Qed.

Lemma quiet_grows_trans n r1 r2 r3 : quiet r1 r2 → raft_Term r2 = raft_Term r1 → grows n r2 r3 → grows n r1 r3.
Proof.
  intros (C1 & L1 & S1) Ht [C2 L2]. split; [auto|]. intros Hr Hw. destruct (L1 Hw) as (W1 & V1 & K1 & P1).
  destruct L2 as [(W2 & K2 & P2 & new & V2 & F2) S2]; [exact (room_same _ _ _ Hw L1 Hr)|done|]. rewrite Ht in F2.
  split; [split_and!; [done|lia|congruence|]; exists new; (split; [by rewrite V2, V1|done])|].
  trans r2; [|done]. rewrite V2, V1. apply sends_extends. auto.
Qed.

Lemma grows_quiet_trans n r1 r2 r3 : grows n r1 r2 → quiet r2 r3 → grows n r1 r3.
Proof.
  intros [C1 L1] (C2 & L2 & S2). split; [auto|]. intros Hr Hw.
  destruct (L1 Hr Hw) as [(W1 & K1 & P1 & new & V1 & F1) S1]. destruct (L2 W1) as (W2 & V2 & K2 & P2).
  split; [split_and!; [done|lia|congruence|]; exists new; (split; [by rewrite V2, V1|done])|]. rewrite V2. trans r2; [done|]. by apply S2.
Qed.

Lemma appendEntry_grows es r ok r' :
  raft_appendEntry es r = Ok (ok, r') →
  roles r' = roles r ∧ grows (len es) r r'.
Proof.
  unfold raft_appendEntry. intros E. run_inv E. injection E0 as <- <-. run_inv E.
  apply bind_Ok in E0 as (li & Eli & [= <- <-]). run_inv E.
  assert (quiet r r0 ∧ roles r0 = roles r ∧ raft_raftLog r0 = raft_raftLog r ∧ raft_Term r0 = raft_Term r ∧
    raft_msgs r0 = raft_msgs r) as (Hq & Hr & Hl & HT & Hms).
  { revert E0. unfold raft_increaseUncommittedSize. intros E0. run_inv E0. injection E1 as <- <-.
    destruct (_ && _); injection E0 as _ <-; (split; [by apply roles_quiet|done]). }
  destruct x; cbn [negb] in E; [|injection E as _ <-; split; [done|by apply quiet_grows]].
  run_inv E. apply on_log_inv in E1 as (l & -> & El). run_inv E. injection E as _ <-.
  pose proof (quiet_send (set_Message_Index (Some x) (Msg MsgAppResp (Some (raft_id r)))) ltac:(done) _ _ _ E1) as Hs.
  assert (roles r1 = roles r0) as Hr1.
  { apply send_effect in E1 as (y & _ & [(_ & ->)|(_ & _ & ->)]); done. }
  split; [congruence|]. eapply grows_quiet_trans; [|exact Hs]. split.
  - apply roles_coherent. by rewrite <- Hr.
  - intros Hroom Hw. rewrite lastIndex_ok in Eli by done. injection Eli as <-. rewrite Hl in El. split.
    + by eapply append_adds.
    + by apply sends_nothing.
Qed.

Lemma becomeLeader_grows r u r' :
  raft_becomeLeader r = Ok (u, r') → grows 1 r r'.
Proof.
  unfold raft_becomeLeader. intros E. run_inv E. injection E0 as <- <-. destruct (st_eqb _ _); [done|].
  run_inv E. injection E0 as _ <-. run_inv E. pose proof (reset_effect _ _ _ _ E0) as [(_ & _ & HT & _) _].
  cbn in HT. rewrite Z.eqb_refl in HT. cbn in HT.
  apply reset_roles in E0 as (Hr & Hl & Hm). injection Hr as HI _ Hst _ _.
  do 3 run_inv E. injection E0 as _ <-. injection E1 as _ <-. injection E2 as _ <-. cbn in HI, Hst, Hl, Hm.
  run_inv E. lazymatch type of E0 with _ ?r2 = _ => assert (quiet r r2) as Hq by (apply quiet_role; cbn; rewrite ?HI, ?Hst; done) end.
  eapply quiet_grows_trans; [exact Hq|done|].
  assert (raft_Term r1 = raft_Term r0) as HT1.
  { run_same E0 Hs. by destruct Hs as (_ & _ & -> & _). }
  eapply quiet_grows_trans; [by eapply quiet_modify_pr|done|].
  run_inv E. injection E1 as <- <-. run_inv E. apply bind_Ok in E1 as (li & _ & [= <- <-]). run_inv E.
  injection E1 as _ <-. run_inv E. assert (r2 = r') as -> by (destruct (negb x6); [done|by injection E as _ <-]).
  apply appendEntry_grows in E1 as [Hro Hg]. exact Hg.
Qed.

(** ** Handlers *)

(** What a follower's log becomes on a message: unchanged, cut where it first
    disagrees with the entries of the message and continued with them, or
    replaced by a snapshot. *)
Definition spliced (g : slog) (prev prevTerm : Z) (ents : list Entry) (k : nat) (g' : slog) : Prop :=
  slog_term g prev = Some prevTerm ∧
  (∀ j e, (j < k)%nat → ents !! j = Some e → slog_term g (prev + 1 + Z.of_nat j) = Some (Entry_GetTerm e)) ∧
  (k < length ents)%nat ∧ prev + Z.of_nat k <= slog_last g ∧ g' = slog_append g (prev + Z.of_nat k) (drop k ents).

Definition takes (m : Message) (g g' : slog) : Prop :=
  g' = g ∨ sl_ents g' = [] ∨
  Message_GetType m = MsgApp ∧
    ∃ k, spliced g (Message_GetIndex m) (Message_GetLogTerm m) (Message_GetEntries m) k g'.

Lemma maybeAppend_kept a c l l' x :
  let p := entryID_index (logSlice_prev a) in
  raftLog_maybeAppend a c l = Ok (x, l') → 0 <= p → contiguous p (logSlice_entries a) →
  p + len (logSlice_entries a) < MaxUint64 → room (len (logSlice_entries a)) l → log_wf l →
  log_kept l l' ∧ (log_view l' = log_view l ∨
    ∃ k, spliced (log_view l) p (entryID_term (logSlice_prev a)) (logSlice_entries a) k (log_view l')).
Proof.
  intros p E Hp Hc Hb Hr Hw. pose proof (len_nonneg (logSlice_entries a)). unfold room in Hr.
  pose proof (unstable_len _ Hw). pose proof (lwf_committed _ Hw) as Hcom. pose proof (log_base_bounds _ Hw).
  destruct (decide (slog_term (log_view l) p = Some (entryID_term (logSlice_prev a)))) as [Hm|Hm].
  2: { rewrite (maybeAppend_reject l a c Hw) in E by (fold p; done || lia). injection E as _ <-. split; [done|by left]. }
  destruct (maybeAppend_ok l a c) as (l1 & E1 & W & C & _ & _ & St & V & Ha); try done; try (fold p; lia).
  { intros k e He Hk. apply dec_stable. intros Hn.
    destruct (maybeAppend_conflict l a c Hw Hp Hc Hb Hm) as [why Ep]; [by exists k, e|congruence]. }
  rewrite E in E1. injection E1 as _ <-. destruct V as [(V & _)|(k & Hk & Hpk & V & _)].
  - split; [|by left]. intros _. split_and!; [done|by rewrite (log_base_view _ _ V)|lia|done|by rewrite V].
  - fold p in Hpk. assert (log_base l' = log_base l) as Hbase.
    { change (sl_base (log_view l') = sl_base (log_view l)). by rewrite V, slog_append_base. }
    split.
    + intros _. split_and!; [done|lia..|done|]. intros i Hi. rewrite V. apply slog_append_at; cbn [sl_base log_view]; fold p; lia.
    + right. exists k. split_and!; try done; [|lia]. intros i e Hi He. specialize (Ha i e He). revert Ha.
      rewrite V. fold p. rewrite slog_append_term_old; [done|cbn [sl_base log_view]; lia|lia].
Qed.

Definition kept r r' : Prop :=
  (coherent r → coherent r') ∧ log_kept (raft_raftLog r) (raft_raftLog r').

Lemma quiet_kept r r' : quiet r r' → kept r r'.
Proof. intros (? & ? & _). split; [done|]. by apply grows_kept, same_grows. Qed.

(** What a node that is no leader does with a message. *)
Definition follows (m : Message) r r' : Prop :=
  kept r r' ∧
  (log_wf (raft_raftLog r) →
    takes m (log_view (raft_raftLog r)) (log_view (raft_raftLog r')) ∧ sends (log_view (raft_raftLog r')) r r').

Lemma quiet_follows m r r' : quiet r r' → follows m r r'.
Proof.
  intros Hq. split; [by apply quiet_kept|]. intros Hw. destruct Hq as (_ & Hl & Hs).
  destruct (Hl Hw) as (_ & -> & _). split; [by left|auto].
Qed.

Lemma follows_quiet m r1 r2 r3 : follows m r1 r2 → quiet r2 r3 → follows m r1 r3.
Proof.
  intros [[C1 K1] F1] Hq. destruct (quiet_kept _ _ Hq) as [C2 K2]. split; [split; [auto|by etrans]|].
  intros Hw. destruct (F1 Hw) as [T1 S1]. destruct (K1 Hw) as [W1 _]. destruct Hq as (_ & L2 & S2).
  destruct (L2 W1) as (_ & -> & _). split; [done|]. trans r2; auto.
Qed.

(** The node first changes its role. *)
Lemma quiet_follows_trans m r1 r2 r3 :
  quiet r1 r2 → raft_raftLog r2 = raft_raftLog r1 → raft_msgs r2 = raft_msgs r1 → follows m r2 r3 → follows m r1 r3.
Proof.
  intros (C1 & _ & _) Hl Hm [[C2 K2] F2]. rewrite Hl in *. split; [split; [auto|done]|].
  intros Hw. destruct (F2 Hw) as [T2 (new & E & Hs)]. split; [done|]. exists new. by rewrite E, Hm.
Qed.

(** An append or snapshot message with positions that fit, for a log with room. *)
Definition msg_log_ok (m : Message) r : Prop :=
  room (len (Message_GetEntries m) + 1) (raft_raftLog r) ∧
  (Message_GetType m = MsgApp →
    0 <= Message_GetIndex m ∧ contiguous (Message_GetIndex m) (Message_GetEntries m) ∧
    Message_GetIndex m + len (Message_GetEntries m) < MaxUint64) ∧
  (Message_GetType m = MsgSnap → snap_index (Message_GetSnapshot m) < MaxUint64).

Lemma room_le n n' l : n' <= n → room n l → room n' l.
Proof. unfold room. lia. Qed.

Lemma handleAppendEntries_follows m r u r' :
  raft_handleAppendEntries m r = Ok (u, r') → msg_log_ok m r → Message_GetType m = MsgApp → follows m r r'.
Proof.
  intros E (Hroom & Happ & _) Hty. destruct (Happ Hty) as (H0 & Hc & Hb). unfold raft_handleAppendEntries in E.
  run_inv E. injection E0 as <- <-. destruct (_ <? _).
  { apply quiet_follows. rest_rel quiet E. }
  run_inv E. apply on_log_inv in E0 as (l & -> & El). eapply (follows_quiet _ _ (set_raft_raftLog l r)); [|rest_rel quiet E].
  assert (log_wf (raft_raftLog r) → log_kept (raft_raftLog r) l ∧ takes m (log_view (raft_raftLog r)) (log_view l)) as Hk.
  { intros Hw. apply maybeAppend_kept in El as [? Hv]; [|done..|eapply room_le; [|exact Hroom]; cbn; lia|done].
    split; [done|]. destruct Hv as [?|?]; [by left|right; by right]. }
  split; [split; [done|]|]; intros Hw; destruct (Hk Hw) as [Hkept Ht]; [by apply Hkept|].
  split; [done|by apply sends_nothing].
Qed.

Lemma EnsureSnapshot_index s : snap_index (Some (EnsureSnapshot s)) = snap_index s.
Proof. by destruct s as [[d [[]|]]|]. Qed.

Lemma restore_follows m s r b r' :
  raft_restore s r = Ok (b, r') → snap_index (Some s) < MaxUint64 → follows m r r'.
Proof.
  unfold raft_restore. intros E Hs. run_inv E. injection E0 as <- <-.
  destruct (Z.leb_spec (snap_index (Some s)) (raftLog_committed (raft_raftLog r)));
    [injection E as _ <-; by apply quiet_follows|].
  destruct (negb (st_eqb _ _)); [apply quiet_follows; rest_rel quiet E|].
  destruct (negb _); [injection E as _ <-; by apply quiet_follows|].
  run_inv E. apply bind_Ok in E0 as (? & _ & [= <- <-]).
  destruct x0; [apply quiet_follows; rest_rel quiet E|]. run_inv E. injection E0 as _ <-.
  eapply (follows_quiet _ _ (set_raft_raftLog (raftLog_restore s (raft_raftLog r)) r)); [|rest_rel quiet E].
  assert (log_wf (raft_raftLog r) → log_wf (raftLog_restore s (raft_raftLog r)) ∧
    log_view (raftLog_restore s (raft_raftLog r)) = mkslog (snap_index (Some s)) (snap_term (Some s)) []) as Hr.
  { intros Hw. by apply log_restore_ok; [|lia]. }
  split; [split; [done|]|]; cbn [raft_raftLog set_raft_raftLog]; intros Hw; destruct (Hr Hw) as [W V].
  - assert (log_base (raftLog_restore s (raft_raftLog r)) = snap_index (Some s)) as Hb by exact (f_equal sl_base V).
    pose proof (lwf_committed _ Hw). split_and!; [done|rewrite Hb; lia|cbn; lia|done|]. intros i. rewrite Hb. lia.
  - rewrite V. split; [right; by left|by apply sends_nothing].
Qed.

Lemma handleSnapshot_follows m r u r' :
  raft_handleSnapshot m r = Ok (u, r') → snap_index (Message_GetSnapshot m) < MaxUint64 → follows m r r'.
Proof.
  unfold raft_handleSnapshot. intros E Hs. run_inv E. apply (restore_follows m) in E0; [|by rewrite EnsureSnapshot_index].
  eapply follows_quiet; [exact E0|]. rest_rel quiet E.
Qed.

(** A follower takes over the sender as its leader. *)
Lemma hear_leader_quiet m r u r' :
  hear_leader m r = Ok (u, r') → raft_state r = StateFollower →
  quiet r r' ∧ raft_raftLog r' = raft_raftLog r ∧ raft_msgs r' = raft_msgs r.
Proof.
  unfold hear_leader. intros E Hs. injection E as _ <-. split; [|done]. split_and!; [|done|].
  - unfold coherent. cbn. by rewrite Hs.
  - intros _. by apply sends_nothing.
Qed.

Lemma msg_log_ok_same m r r' :
  raft_raftLog r' = raft_raftLog r → msg_log_ok m r → msg_log_ok m r'.
Proof. unfold msg_log_ok. by intros ->. Qed.

(** The handlers of a leader's messages, after a change of role. *)
Lemma leader_msg_follows m (k : RM S unit) r r0 u r' :
  quiet r r0 → raft_raftLog r0 = raft_raftLog r → raft_msgs r0 = raft_msgs r → msg_log_ok m r →
  (k = raft_handleAppendEntries m ∧ Message_GetType m = MsgApp ∨ k = raft_handleSnapshot m ∧ Message_GetType m = MsgSnap ∨
   k = raft_handleHeartbeat m) →
  (_ ← k; mret (None : option error)) r0 = Ok (u, r') → follows m r r'.
Proof.
  intros Hq Hl Hms Hm Hk E. eapply quiet_follows_trans; [done..|]. run_inv E. injection E as _ <-.
  destruct Hk as [[-> Ht]|[[-> Ht]| ->]].
  - eapply handleAppendEntries_follows; [done|by eapply msg_log_ok_same|done].
  - eapply handleSnapshot_follows; [done|]. by apply Hm.
  - apply quiet_follows. unfold raft_handleHeartbeat in E0. rest_rel quiet E0.
Qed.

Lemma quiet_forward m : Message_GetType m ≠ MsgApp → rel quiet (forward_to_leader m).
Proof. intros Ht. apply rel_get_bind. intros r. by apply quiet_send. Qed.
Hint Extern 1 (rel quiet (forward_to_leader _)) => apply quiet_forward; congruence : rel.

Lemma stepFollower_follows m r u r' :
  stepFollower m r = Ok (u, r') → msg_log_ok m r → raft_state r = StateFollower → follows m r r'.
Proof.
  unfold stepFollower. intros E Hm Hs. run_inv E. injection E0 as <- <-.
  destruct (Message_GetType m) eqn:Ht.
  all: try (apply quiet_follows; rest_rel quiet E).
  all: try (run_inv E; destruct (hear_leader_quiet _ _ _ _ E0 Hs) as (Hq & Hl & Hms);
            eapply leader_msg_follows; [exact Hq|exact Hl|exact Hms|done| |exact E]; rewrite Ht; by auto).
  apply quiet_follows. destruct (readOnly_option _); [|by injection E as _ <-]. run_inv E. injection E as _ <-.
  destruct (negb _); injection E0 as _ <-; [|done]. split_and!; [|done|].
  - unfold coherent. cbn. by rewrite Hs.
  - intros _. by apply sends_nothing.
Qed.

(** ** Candidates and leaders *)

Lemma quiet_poll id v : rel quiet (raft_poll id v).
Proof. unfold raft_poll. rel_auto. Qed.

Lemma grows_kept_raft n r r' : grows n r r' → room n (raft_raftLog r) → kept r r'.
Proof.
  intros [? Hg] Hr. split; [done|]. intros Hw. destruct (Hg Hr Hw) as [Ha _]. exact (grows_kept _ _ (adds_grows _ _ _ Ha) Hw).
Qed.

(** The message completes an election that the node wins. *)
Definition wins (m : Message) r : Prop :=
  Message_GetType m = MsgVoteResp ∧ raft_state r = StateCandidate ∧ vote_won m r.

Lemma stepCandidate_vote_effect m r u r' :
  stepCandidate_vote m r = Ok (u, r') →
  quiet r r' ∨ grows 1 r r' ∧ raft_state r ≠ StatePreCandidate ∧ raft_state r ≠ StateFollower ∧ vote_won m r.
Proof.
  unfold stepCandidate_vote. intros E. run_inv E. pose proof (quiet_poll _ _ _ _ _ E0) as Hq.
  apply poll_effect in E0 as [-> ->]. run_inv E. injection E0 as <- <-. unfold vote_won.
  destruct ((ProgressTracker_TallyVotes _).2).
  - left. etrans; [exact Hq|]. rest_rel quiet E.
  - left. etrans; [exact Hq|]. rest_rel quiet E.
  - unfold st_eqb in E. case_bool_decide as Hp; [left; etrans; [exact Hq|]; rest_rel quiet E|]. right. run_inv E.
    split_and!; [|done| |done].
    + eapply quiet_grows_trans; [exact Hq|done|]. eapply grows_quiet_trans; [by eapply becomeLeader_grows|]. rest_rel quiet E.
    + intros Hf. unfold raft_becomeLeader in E0. run_inv E0. injection E1 as <- <-. cbn in E0. by rewrite Hf in E0.
Qed.

(** What a step makes of the log. *)
Definition effect (m : Message) r r' : Prop :=
  follows m r r' ∨ grows (len (Message_GetEntries m) + 1) r r' ∧ (raft_state r = StateLeader ∨ wins m r).

Lemma effect_kept m r r' : effect m r r' → msg_log_ok m r → kept r r'.
Proof. intros [[? _]|[Hg _]] [? _]; [done|by eapply grows_kept_raft]. Qed.

Lemma grows_le n n' r r' : n <= n' → grows n r r' → grows n' r r'.
Proof. intros Hn [? Hg]. split; [done|]. intros Hr. apply Hg. by eapply room_le. Qed.

Lemma stepCandidate_effect m r u r' :
  stepCandidate m r = Ok (u, r') → msg_log_ok m r → raft_state r ≠ StateLeader → effect m r r'.
Proof.
  unfold stepCandidate. intros E Hm Hl. run_inv E. injection E0 as <- <-. pose proof (len_nonneg (Message_GetEntries m)).
  assert (∀ (k : RM S unit), (_ ← raft_becomeFollower (Message_GetTerm m) (Message_GetFrom m); _ ← k; mret None) r = Ok (u, r') →
    (k = raft_handleAppendEntries m ∧ Message_GetType m = MsgApp ∨ k = raft_handleSnapshot m ∧ Message_GetType m = MsgSnap ∨
     k = raft_handleHeartbeat m) → effect m r r') as Hk.
  { intros k Ek Hk. left. run_inv Ek. pose proof (becomeFollower_inv _ _ _ _ _ E0) as (_ & ? & ? & _).
    apply quiet_becomeFollower in E0. by eapply leader_msg_follows. }
  destruct (Message_GetType m) eqn:Ht; try (left; injection E as _ <-; by apply quiet_follows).
  all: try (eapply Hk; [exact E|by auto]).
  - unfold st_eqb in E. case_bool_decide; [injection E as _ <-; left; by apply quiet_follows|]. run_inv E. injection E as _ <-.
    apply stepCandidate_vote_effect in E0 as [Hq|(Hg & ? & ? & ?)]; [left; by apply quiet_follows|right].
    split; [eapply grows_le; [|exact Hg]; lia|]. right. split_and!; [done| |done]. by destruct (raft_state r).
  - unfold st_eqb in E. case_bool_decide; [|injection E as _ <-; left; by apply quiet_follows]. run_inv E. injection E as _ <-.
    apply stepCandidate_vote_effect in E0 as [Hq|(Hg & ? & ? & ?)]; [left; by apply quiet_follows|done].
Qed.

Lemma quiet_check_prop_entries i es r es' r' :
  check_prop_entries i es r = Ok (es', r') → quiet r r' ∧ raft_Term r' = raft_Term r ∧ len es' = len es.
Proof.
  revert i r es' r'. induction es as [|e es IH]; intros i r es' r' E; cbn [check_prop_entries] in E.
  { injection E as <- <-. done. }
  run_inv E. assert (rel quiet (check_prop_entry i e)) as Hq by (unfold check_prop_entry; rel_auto).
  assert (rel same (check_prop_entry (S:=S) i e)) as Hs by (unfold check_prop_entry; rel_auto).
  pose proof (Hs _ _ _ E0) as (_ & _ & Ht & _). apply Hq in E0. run_inv E. apply IH in E1 as (Hq1 & Ht1 & Hn).
  injection E as <- <-. split_and!; [by etrans|congruence|]. by rewrite !len_cons, Hn.
Qed.

Lemma stepLeader_Prop_grows m r u r' :
  stepLeader_Prop m r = Ok (u, r') → grows (len (Message_GetEntries m)) r r'.
Proof.
  unfold stepLeader_Prop. intros E. run_inv E. injection E0 as <- <-. destruct (_ =? 0); [done|].
  destruct (_ !! _); [|injection E as _ <-; by apply quiet_grows].
  destruct (negb _); [injection E as _ <-; by apply quiet_grows|].
  run_inv E. apply quiet_check_prop_entries in E0 as (Hq & Ht & Hn). eapply quiet_grows_trans; [exact Hq|done|].
  run_inv E. apply appendEntry_grows in E0 as [_ Hg]. rewrite Hn in Hg.
  eapply grows_quiet_trans; [exact Hg|]. rest_rel quiet E.
Qed.

Lemma quiet_send_all_loop n to : rel quiet (send_all_loop n to).
Proof. induction n; cbn [send_all_loop]; rel_auto. Qed.
Hint Resolve quiet_send_all_loop quiet_poll : rel.

Lemma stepLeader_grows m r u r' :
  stepLeader m r = Ok (u, r') → grows (len (Message_GetEntries m)) r r'.
Proof.
  unfold stepLeader, with_sender. intros E.
  destruct (Message_GetType m); try (by eapply stepLeader_Prop_grows); apply quiet_grows;
    unfold stepLeader_CheckQuorum, stepLeader_ReadIndex, stepLeader_AppResp, stepLeader_AppResp_reject,
      stepLeader_AppResp_accept, stepLeader_AppResp_state, stepLeader_HeartbeatResp, stepLeader_SnapStatus,
      stepLeader_Unreachable, stepLeader_TransferLeader, send_all, raft_sendAppend, raft_sendTimeoutNow,
      raft_abortLeaderTransfer in E; rest_rel quiet E.
Qed.

(** ** Step *)

(** The message that [appliedTo] steps adds at most one entry. *)
Definition grows_rec (rec : Message → RM S (option error)) : Prop :=
  ∀ r u r', rec (confChangeToMsg None) r = Ok (u, r') → grows 1 r r'.

Lemma grows_rec_Step rec : grows_rec (Step_with rec).
Proof.
  intros r u r' E. unfold confChangeToMsg in E. destruct (MarshalConfChange None) as [typ data].
  unfold Step_with in E. run_inv E. injection E0 as <- <-. cbn [Message_GetTerm set_Message_Entries] in E.
  unfold Step_dispatch in E. run_inv E. injection E0 as <- <-. destruct (raft_step r); cbn in E.
  - unfold stepFollower in E. cbn in E. apply quiet_grows.
    run_inv E. injection E0 as <- <-. destruct (_ =? _); [by injection E as _ <-|].
    destruct (raft_disableProposalForwarding r); [by injection E as _ <-|]. run_inv E. injection E as _ <-.
    by eapply quiet_forward; [|exact E0].
  - unfold stepCandidate in E. cbn in E. apply quiet_grows. rest_rel quiet E.
  - by apply stepLeader_Prop_grows in E.
Qed.

Lemma grows_rec_panic why : grows_rec (fun _ => panic why).
Proof. intros r u r' [=]. Qed.

Lemma appliedTo_log i n r u r' :
  on_log_ (raftLog_appliedTo (Z.max i (raftLog_applied (raft_raftLog r))) n) r = Ok (u, r') →
  quiet r r' ∧ raft_state r' = raft_state r.
Proof.
  intros (l & -> & El)%on_log__inv. split; [|done]. apply roles_quiet; [done| |done].
  eapply appliedTo_same; [exact El|]. lia.
Qed.

Lemma appliedTo_grows rec i n r u r' :
  grows_rec rec → raft_appliedTo_with rec i n r = Ok (u, r') → grows 1 r r'.
Proof.
  intros Hrec E. unfold raft_appliedTo_with in E. run_inv E. injection E0 as <- <-. run_inv E.
  eapply (quiet_grows_trans _ _ r0); [|by eapply on_log_term|].
  { by apply appliedTo_log in E0 as [? _]. }
  run_inv E. injection E1 as <- <-. destruct (_ && _); [|injection E as _ <-; by apply quiet_grows].
  run_inv E. injection E as _ <-. by eapply Hrec.
Qed.

Lemma ApplyResp_grows rec m r u r' :
  grows_rec rec → Step_StorageApplyResp rec m r = Ok (u, r') → grows 1 r r'.
Proof.
  intros Hrec E. unfold Step_StorageApplyResp in E. destruct (last _); [|injection E as _ <-; by apply quiet_grows].
  run_inv E. eapply grows_quiet_trans; [by eapply appliedTo_grows|]. unfold raft_reduceUncommittedSize in E. rest_rel quiet E.
Qed.

(** A node that does not lead has nothing to propose. *)
Lemma appliedTo_quiet rec i n r u r' :
  raft_appliedTo_with rec i n r = Ok (u, r') → raft_state r ≠ StateLeader → quiet r r'.
Proof.
  intros E Hs. unfold raft_appliedTo_with in E. run_inv E. injection E0 as <- <-. run_inv E.
  apply appliedTo_log in E0 as [Hq Hst]. etrans; [exact Hq|]. run_inv E. injection E0 as <- <-. rewrite Hst in E.
  replace (st_eqb (raft_state r) StateLeader) with false in E by (by destruct (raft_state r)).
  rewrite andb_false_r in E. by injection E as _ <-.
Qed.

(** Applying entries is quiet, or the step of a leader. *)
Definition applies r r' : Prop := quiet r r' ∨ grows 1 r r' ∧ raft_state r = StateLeader.

Lemma appliedTo_applies rec i n r u r' :
  grows_rec rec → raft_appliedTo_with rec i n r = Ok (u, r') → applies r r'.
Proof.
  intros Hrec E. destruct (decide (raft_state r = StateLeader)) as [Hs|Hs].
  - right. split; [by eapply appliedTo_grows|done].
  - left. by eapply appliedTo_quiet.
Qed.

Lemma applies_quiet r1 r2 r3 : applies r1 r2 → quiet r2 r3 → applies r1 r3.
Proof. intros [H1|[H1 Hs]] H2; [left; by etrans|right]. split; [by eapply grows_quiet_trans|done]. Qed.

Lemma ApplyResp_applies rec m r u r' :
  grows_rec rec → Step_StorageApplyResp rec m r = Ok (u, r') → applies r r'.
Proof.
  intros Hrec E. unfold Step_StorageApplyResp in E. destruct (last _); [|injection E as _ <-; by left].
  run_inv E. eapply applies_quiet; [by eapply appliedTo_applies|]. unfold raft_reduceUncommittedSize in E. rest_rel quiet E.
Qed.

(** ** Acknowledgements of the storage *)

Definition with_snap (m : Message) l : raftLog S :=
  match Message_GetSnapshot m with Some s => raftLog_stableSnapTo (snap_index (Some s)) l | None => l end.

(** The application has stored what the message acknowledges: forgetting it in
    memory changes nothing that the node sees. *)
Definition ack_ok (m : Message) l : Prop :=
  log_same l (with_snap m l) ∧
  (Message_GetIndex m ≠ 0 → ∀ l1, raftLog_stableTo (mkentryID (Message_GetLogTerm m) (Message_GetIndex m)) l = Ok l1 →
     log_same l (with_snap m l1)).

(** Stored entries meet the contract. *)
Lemma ack_ok_entries m l :
  Message_GetSnapshot m = None → unstable_snapshot (raftLog_unstable l) = None →
  0 <= Message_GetIndex m < MaxUint64 → (Message_GetIndex m ≠ 0 → stable_contract l (Message_GetIndex m)) → ack_ok m l.
Proof.
  intros Hs Hu Hi Hc. unfold ack_ok, with_snap. rewrite Hs. split; [done|]. intros Hne l1 E Hw.
  destruct (log_stableTo_ok l (mkentryID (Message_GetLogTerm m) (Message_GetIndex m)) Hw Hu Hi (Hc Hne))
    as (l2 & E2 & W & V & St & C). rewrite E in E2. injection E2 as <-. split_and!; [done..|lia|done].
Qed.

Lemma appliedSnap_applies rec m s r u r' l :
  grows_rec rec → Message_GetSnapshot m = Some s → log_same l (with_snap m (raft_raftLog r)) →
  raft_appliedSnap_with rec s r = Ok (u, r') → applies (set_raft_raftLog l r) r'.
Proof.
  intros Hrec Hs Hl E. unfold with_snap in Hl. rewrite Hs in Hl. unfold raft_appliedSnap_with in E. run_inv E.
  injection E0 as _ <-. apply appliedTo_applies in E; [|done].
  assert (quiet (set_raft_raftLog l r) (set_raft_raftLog (raftLog_stableSnapTo (snap_index (Some s)) (raft_raftLog r)) r)) as Hq.
  { by apply roles_quiet. }
  destruct E as [E|[E Hst]]; [left; by etrans|right]. split; [|exact Hst]. by eapply quiet_grows_trans.
Qed.

Lemma set_same_log r : set_raft_raftLog (raft_raftLog r) r = r.
Proof. by destruct r. Qed.

Lemma AppendResp_applies rec m r u r' :
  grows_rec rec → ack_ok m (raft_raftLog r) → Step_StorageAppendResp rec m r = Ok (u, r') → applies r r'.
Proof.
  intros Hrec [Hs Hst] E. unfold Step_StorageAppendResp in E. run_inv E.
  assert (∃ l, r0 = set_raft_raftLog l r ∧ log_same (raft_raftLog r) (with_snap m l)) as (l & -> & Hl).
  { destruct (Z.eqb_spec (Message_GetIndex m) 0); cbn in E0.
    - injection E0 as _ <-. exists (raft_raftLog r). by rewrite set_same_log.
    - apply on_log__inv in E0 as (l & -> & El). exists l. auto. }
  destruct (Message_GetSnapshot m) as [s|] eqn:Es.
  - eapply (appliedSnap_applies _ m _ _ _ _ (raft_raftLog r)) in E; [|done..].
    change (set_raft_raftLog (raft_raftLog r) (set_raft_raftLog l r)) with (set_raft_raftLog (raft_raftLog r) r) in E.
    by rewrite set_same_log in E.
  - injection E as _ <-. left. apply roles_quiet; [done| |done]. unfold with_snap in Hl. by rewrite Es in Hl.
Qed.

Lemma quiet_Step_Vote m : rel quiet (Step_Vote m).
Proof.
  apply rel_get_bind. intros r u r' E. run_inv E. apply bind_Ok in E0 as (? & _ & [= <- <-]). run_inv E.
  assert (r0 = r) as -> by (destruct (_ || _ || _) in E0; [apply bind_Ok in E0 as (? & _ & [= _ <-])|injection E0 as _ <-]; done).
  run_inv E. apply bind_Ok in E1 as (resp & Eresp & [= <- <-]).
  assert (resp ≠ MsgApp) as Hrs by (intros ->; by destruct (Message_GetType m)).
  destruct x; [|by eapply quiet_send; [|exact E]]. run_inv E. eapply quiet_send in E1; [|done].
  etrans; [exact E1|]. rest_rel quiet E.
Qed.

(** A leader's step only appends. *)
Lemma leader_dispatch_grows rec m r u r' :
  grows_rec rec → Step_dispatch rec m r = Ok (u, r') → raft_step r = stepLeader_f →
  (Message_GetType m = MsgStorageAppendResp → ack_ok m (raft_raftLog r)) → grows (len (Message_GetEntries m) + 1) r r'.
Proof.
  intros Hrec E Hs Hty. pose proof (len_nonneg (Message_GetEntries m)). unfold Step_dispatch in E.
  run_inv E. injection E0 as <- <-. rewrite Hs in E.
  assert (∀ r', applies r r' → grows (len (Message_GetEntries m) + 1) r r') as Ha.
  { intros r1 [?|[Hg _]]; [by apply quiet_grows|]. eapply grows_le; [|exact Hg]. lia. }
  destruct (Message_GetType m); try (apply stepLeader_grows in E; eapply grows_le; [|exact E]; lia);
    run_inv E; injection E as _ <-.
  - apply quiet_grows. by eapply quiet_hup.
  - apply quiet_grows. by eapply quiet_Step_Vote.
  - apply quiet_grows. by eapply quiet_Step_Vote.
  - apply Ha. eapply AppendResp_applies; eauto.
  - apply Ha. by eapply ApplyResp_applies.
Qed.

Lemma coherent_follower r : coherent r → raft_step r = stepFollower_f → raft_state r = StateFollower.
Proof. unfold coherent. destruct (raft_state r); naive_solver congruence. Qed.

Lemma dispatch_effect rec m r u r' :
  grows_rec rec → Step_dispatch rec m r = Ok (u, r') → coherent r → msg_log_ok m r →
  (Message_GetType m = MsgStorageAppendResp → ack_ok m (raft_raftLog r)) → effect m r r'.
Proof.
  intros Hrec E Hc Hm Hty. pose proof (len_nonneg (Message_GetEntries m)). destruct (raft_step r) eqn:Hs.
  3: { right. split; [by eapply leader_dispatch_grows|]. left. unfold coherent in Hc. destruct (raft_state r); naive_solver congruence. }
  all: unfold Step_dispatch in E; run_inv E; injection E0 as <- <-; rewrite Hs in E.
  all: assert (raft_state r ≠ StateLeader) as Hnl
    by (intros Hl; unfold coherent in Hc; rewrite Hl in Hc; destruct Hc; congruence).
  all: assert (∀ r', applies r r' → quiet r r') as Ha by (intros r1 [?|[_ ?]]; done).
  all: destruct (Message_GetType m) eqn:Ht.
  all: first
    [ eapply stepCandidate_effect; [exact E|done|done]
    | left; eapply stepFollower_follows; [exact E|done|by apply coherent_follower]
    | idtac ]; run_inv E; injection E as _ <-; left.
  all: apply quiet_follows; first [by eapply quiet_hup|by eapply quiet_Step_Vote
    |apply Ha; by eapply ApplyResp_applies|apply Ha; eapply AppendResp_applies; eauto].
Qed.

Lemma higher_term_quiet m : rel quiet (Step_higher_term m).
Proof. unfold Step_higher_term. rel_auto. Qed.

(** Nothing is sent on the way to a later term. *)
Lemma higher_term_msgs m r b r' : Step_higher_term m r = Ok (b, r') → raft_msgs r' = raft_msgs r.
Proof.
  unfold Step_higher_term. intros E. run_inv E. injection E0 as <- <-.
  assert (∀ t lead, (_ ← raft_becomeFollower t lead; mret true) r = Ok (b, r') → raft_msgs r' = raft_msgs r) as Hf.
  { intros t lead E'. run_inv E'. injection E' as _ <-. by apply becomeFollower_inv in E0 as (_ & _ & ? & _). }
  cbn zeta in E. destruct (_ && (_ && _)); [run_inv E; apply bind_Ok in E0 as (? & _ & [= <- <-]); by injection E as _ <-|].
  destruct (mt_eqb _ _) in E; [by injection E as _ <-|]. destruct (_ && _) in E; [by injection E as _ <-|].
  destruct (_ || _ || _) in E; by eapply Hf.
Qed.

Lemma lower_term_applies rec m r u r' :
  grows_rec rec → Step_lower_term rec m r = Ok (u, r') →
  (Message_GetType m = MsgStorageAppendResp → ack_ok m (raft_raftLog r)) → applies r r'.
Proof.
  unfold Step_lower_term. intros Hrec E Hty. run_inv E. injection E0 as <- <-.
  destruct (_ && _); [left; rest_rel quiet E|]. destruct (mt_eqb _ MsgPreVote); [left; rest_rel quiet E|].
  destruct (mt_eqb_spec (Message_GetType m) MsgStorageAppendResp) as [Ht|Ht]; [|left; by injection E as _ <-].
  destruct (Hty Ht) as [Hs _]. destruct (Message_GetSnapshot m) as [s|] eqn:Es; [|left; by injection E as _ <-].
  eapply (appliedSnap_applies _ m _ _ _ _ (raft_raftLog r)) in E; [|done..]. by rewrite set_same_log in E.
Qed.

(** ** The roles, for every message *)

Definition coh r r' : Prop := coherent r → coherent r'.

#[export] Instance coh_preorder : PreOrder coh.
Proof. split; unfold coh; auto. Qed.

Lemma coh_quiet {A} (m : RM S A) : rel quiet m → rel coh m.
Proof. apply rel_weaken. by intros r r' [? _]. Qed.

Lemma coh_on_log {A} (f : raftLog S → outcome (A * raftLog S)) : rel coh (on_log f).
Proof. apply rel_on_log. intros r x l _. exact (roles_coherent r (set_raft_raftLog l r) eq_refl). Qed.

Lemma coh_on_log_ (f : raftLog S → outcome (raftLog S)) : rel coh (on_log_ f).
Proof. apply rel_on_log_. intros r l _. exact (roles_coherent r (set_raft_raftLog l r) eq_refl). Qed.

Lemma coh_modify f : (∀ r, roles (f r) = roles r) → rel coh (modify f).
Proof. intros Hf. apply rel_modify. intros r. exact (roles_coherent _ _ (Hf r)). Qed.

Lemma coh_send m : rel coh (raft_send m).
Proof.
  intros r u r' E. apply send_effect in E as (x & _ & [(_ & ->)|(_ & _ & ->)]);
    exact (roles_coherent r _ eq_refl).
Qed.

Hint Resolve coh_send coh_quiet coh_on_log coh_on_log_ quiet_Step_Vote quiet_applyConfChange higher_term_quiet : rel.
Hint Extern 2 (rel coh (modify _)) => apply coh_modify; done : rel.

Lemma coh_handleAppendEntries m : rel coh (raft_handleAppendEntries m).
Proof. unfold raft_handleAppendEntries. rel_auto. Qed.

Lemma coh_restore s : rel coh (raft_restore s).
Proof. unfold raft_restore. rel_auto. Qed.
Hint Resolve coh_handleAppendEntries coh_restore : rel.

Lemma coh_handleSnapshot m : rel coh (raft_handleSnapshot m).
Proof. unfold raft_handleSnapshot. rel_auto. Qed.
Hint Resolve coh_handleSnapshot : rel.

(** Methods that keep the roles in order, started from a state in which they are. *)
Lemma coh_stepFollower m r u r' :
  stepFollower m r = Ok (u, r') → raft_state r = StateFollower → coherent r → coherent r'.
Proof.
  unfold stepFollower. intros E Hs Hc. run_inv E. injection E0 as <- <-.
  assert (∀ (k : RM S unit), rel coh k → (_ ← hear_leader m; _ ← k; mret None) r = Ok (u, r') → coherent r') as Hk.
  { intros k Hk Ek. do 2 run_inv Ek. injection Ek as _ <-. destruct (hear_leader_quiet _ _ _ _ E0 Hs) as ((Hq & _) & _).
    eapply Hk; [exact E1|by apply Hq]. }
  destruct (Message_GetType m) eqn:Ht.
  all: try (revert Hc; unfold forward_to_leader in E; change (coh r r'); rest_rel coh E).
  all: try (eapply Hk; [|exact E]; unfold raft_handleHeartbeat; rel_auto).
  destruct (readOnly_option _); [|by injection E as _ <-]. run_inv E. injection E as _ <-.
  destruct (negb _); injection E0 as _ <-; [|done]. unfold coherent. cbn. rewrite Hs. unfold coherent in Hc. by rewrite Hs in Hc.
Qed.

Lemma coh_stepCandidate m : rel coh (stepCandidate m).
Proof.
  assert (rel coh (stepCandidate_vote m)) as Hv.
  { intros r u r' E. by apply stepCandidate_vote_effect in E as [[? _]|[[? _] _]]. }
  unfold stepCandidate, raft_handleHeartbeat. rel_auto.
Qed.

Lemma coh_run_step m r u r' : run_step (raft_step r) m r = Ok (u, r') → coherent r → coherent r'.
Proof.
  intros E Hc. destruct (raft_step r) eqn:Hs; cbn in E.
  - eapply coh_stepFollower; [done|by apply coherent_follower|done].
  - by eapply coh_stepCandidate.
  - apply stepLeader_grows in E as [Hg _]. auto.
Qed.

Lemma coh_appliedTo rec i n : grows_rec rec → rel coh (raft_appliedTo_with rec i n).
Proof. intros Hrec r u r' E. by apply appliedTo_grows in E as [? _]. Qed.

Lemma coh_appliedSnap rec s : grows_rec rec → rel coh (raft_appliedSnap_with rec s).
Proof. intros Hrec. pose proof coh_appliedTo. unfold raft_appliedSnap_with. rel_auto. Qed.

Lemma coh_Step_with rec m r u r' :
  grows_rec rec → Step_with rec m r = Ok (u, r') → coherent r → coherent r'.
Proof.
  intros Hrec. pose proof (coh_appliedSnap rec) as Ha.
  assert (∀ r, Step_dispatch rec m r = Ok (u, r') → coherent r → coherent r') as Hd.
  { clear r. intros r E Hc. unfold Step_dispatch in E. run_inv E. injection E0 as <- <-.
    destruct (Message_GetType m); try (by eapply coh_run_step); revert Hc; change (coh r r').
    - rest_rel coh E.
    - rest_rel coh E.
    - rest_rel coh E.
    - unfold Step_StorageAppendResp in E. rest_rel coh E.
    - run_inv E. injection E as _ <-. by apply ApplyResp_grows in E0 as [? _]. }
  unfold Step_with. intros E Hc. run_inv E. injection E0 as <- <-. destruct (_ =? 0); [by eapply Hd|].
  destruct (_ <? _).
  - run_inv E. apply higher_term_quiet in E0 as [Hq _]. destruct x; [eapply Hd; eauto|injection E as _ <-; auto].
  - destruct (_ <? _); [|by eapply Hd]. revert Hc. change (coh r r'). unfold Step_lower_term in E. rest_rel coh E.
Qed.

Lemma coh_Step m : rel coh (raft_Step m).
Proof. intros r u r' E Hc. by eapply coh_Step_with; [apply grows_rec_Step| |]. Qed.
Hint Resolve coh_Step : rel.

Lemma coh_run_tick : rel coh raft_run_tick.
Proof. unfold raft_run_tick, raft_tickElection, raft_tickHeartbeat, raft_abortLeaderTransfer. rel_auto. Qed.

Lemma coh_applyConfChange cc : rel coh (raft_applyConfChange cc).
Proof. apply coh_quiet, quiet_applyConfChange. Qed.

(** A new node is a follower. *)
Lemma newRaft_coherent (conf : RaftConfig S) rands r : newRaft conf rands = Ok r → coherent r.
Proof.
  unfold newRaft. destruct (Config_validate conf) as [[s c]|]; [|done]. intros (l & _ & E)%bind_Ok.
  destruct (st_InitialState s) as [[hs cs]|]; [|done]. apply bind_Ok in E as ([u r1] & E & [= <-]).
  unfold newRaft_init in E. do 3 run_inv E. destruct x1 as [[cf trk]|]; [|done]. run_inv E. destruct (negb _); [done|].
  do 3 run_inv E. by apply becomeFollower_inv in E as (? & _).
Qed.

(** ** The clock, and the step that wins an election *)

(** The messages that the clock sends to the node itself. *)
Definition clock_msg (m : Message) : Prop :=
  Message_GetTerm m = 0 ∧ (Message_GetType m = MsgHup ∨ Message_GetType m = MsgBeat ∨ Message_GetType m = MsgCheckQuorum).

Lemma quiet_clock m : clock_msg m → rel quiet (raft_Step (S:=S) m).
Proof.
  intros [Ht Hty] r u r' E. unfold raft_Step, Step_with at 1 in E. run_inv E. injection E0 as <- <-.
  rewrite Ht in E. cbn [Z.eqb] in E. unfold Step_dispatch in E. run_inv E. injection E0 as <- <-.
  destruct Hty as [Hty|[Hty|Hty]]; rewrite Hty in E.
  - run_inv E. injection E as _ <-. by eapply quiet_hup.
  - destruct (raft_step r); cbn [run_step] in E; [unfold stepFollower in E|unfold stepCandidate in E|unfold stepLeader in E];
      rewrite Hty in E; rest_rel quiet E.
  - destruct (raft_step r); cbn [run_step] in E; [unfold stepFollower in E|unfold stepCandidate in E|unfold stepLeader in E];
      rewrite Hty in E; unfold stepLeader_CheckQuorum in E; rest_rel quiet E.
Qed.

Lemma quiet_run_tick : rel quiet (raft_run_tick (S:=S)).
Proof.
  pose proof (fun m => quiet_clock m) as Hq.
  assert (∀ id, clock_msg (set_Message_From (Some id) (set_Message_Type (Some MsgHup) Message0))) as H1 by (split; [done|by auto]).
  assert (∀ id, clock_msg (set_Message_From (Some id) (set_Message_Type (Some MsgBeat) Message0))) as H2 by (split; [done|by auto]).
  assert (∀ id, clock_msg (set_Message_From (Some id) (set_Message_Type (Some MsgCheckQuorum) Message0))) as H3 by (split; [done|by auto]).
  unfold raft_run_tick, raft_tickElection, raft_tickHeartbeat, raft_abortLeaderTransfer. rel_auto.
Qed.

(** Sending changes neither the role nor the term. *)
Definition stays r r' : Prop := raft_state r' = raft_state r ∧ raft_Term r' = raft_Term r.

#[export] Instance stays_preorder : PreOrder stays.
Proof. split; [done|]. intros r1 r2 r3 [? ?] [? ?]. split; congruence. Qed.

Lemma stays_modify f : (∀ r, stays r (f r)) → rel stays (modify f).
Proof. apply rel_modify. Qed.

Hint Extern 1 (rel stays (modify _)) => apply stays_modify; done : rel.

Lemma stays_send m : rel stays (raft_send m).
Proof. intros r u r' (y & _ & [(_ & ->)|(_ & _ & ->)])%send_effect; done. Qed.

Lemma stays_modify_pr id f : rel stays (modify_pr id f).
Proof. unfold modify_pr, get_pr, put_pr. rel_auto. Qed.

Lemma stays_get_pr id : rel stays (get_pr id).
Proof. unfold get_pr. rel_auto. Qed.

Lemma stays_put_pr id pr : rel stays (put_pr id pr).
Proof. by apply stays_modify. Qed.
Hint Resolve stays_send stays_modify_pr stays_get_pr stays_put_pr : rel.

Lemma stays_maybeSendSnapshot to : rel stays (raft_maybeSendSnapshot to).
Proof. unfold raft_maybeSendSnapshot. rel_auto. Qed.
Hint Resolve stays_maybeSendSnapshot : rel.

Lemma stays_maybeSendAppend to b : rel stays (raft_maybeSendAppend to b).
Proof. unfold raft_maybeSendAppend. rel_auto. Qed.
Hint Resolve stays_maybeSendAppend : rel.

Lemma stays_bcastAppend : rel stays raft_bcastAppend.
Proof. unfold raft_bcastAppend, raft_sendAppend. rel_auto. Qed.

Lemma stays_appendEntry es : rel stays (raft_appendEntry es).
Proof. unfold raft_appendEntry, raft_increaseUncommittedSize, on_log. rel_auto. Qed.
Hint Resolve stays_appendEntry : rel.

Lemma stays_becomeLeader r u r' :
  raft_becomeLeader r = Ok (u, r') → raft_state r' = StateLeader ∧ raft_Term r' = raft_Term r.
Proof.
  unfold raft_becomeLeader. intros E. run_inv E. injection E0 as <- <-. destruct (st_eqb _ _); [done|].
  run_inv E. injection E0 as _ <-. run_inv E. pose proof (reset_effect _ _ _ _ E0) as [(_ & _ & HT & _) _].
  cbn in HT. rewrite Z.eqb_refl in HT. cbn in HT. do 3 run_inv E. injection E1 as _ <-. injection E2 as _ <-. injection E3 as _ <-.
  lazymatch type of E with ?m ?r1 = _ => assert (rel stays m) as Hm by rel_auto; apply Hm in E as [Hs Ht] end.
  cbn in Hs, Ht. split; [done|congruence].
Qed.

(** A candidate that counts the last vote it needs is the leader, with one more
    entry in its log. *)
Lemma win_step m r u r' :
  raft_Step m r = Ok (u, r') → coherent r → wins m r → counted_now m r →
  raft_state r' = StateLeader ∧ raft_Term r' = raft_Term r ∧ grows 1 r r'.
Proof.
  intros E Hc (Hty & Hst & Hw) Hn. unfold raft_Step, Step_with at 1 in E. run_inv E. injection E0 as <- <-.
  assert (Step_dispatch (Step_with (fun _ => panic "unreachable")) m r = Ok (u, r')) as Ed.
  { destruct (Z.eqb_spec (Message_GetTerm m) 0); [done|]. destruct Hn as [?|Hn]; [done|].
    rewrite Hn, Z.ltb_irrefl in E. done. }
  clear E. unfold coherent in Hc. rewrite Hst in Hc.
  unfold Step_dispatch in Ed. run_inv Ed. injection E as <- <-. rewrite Hty in Ed.
  destruct Hc as (Hs & _). rewrite Hs in Ed. cbn [run_step] in Ed. unfold stepCandidate in Ed. run_inv Ed. injection E as <- <-.
  rewrite Hty, Hst in Ed. cbn [st_eqb] in Ed. unfold st_eqb in Ed. rewrite bool_decide_eq_false_2 in Ed by done. run_inv Ed. injection Ed as _ <-.
  unfold stepCandidate_vote in E. run_inv E. pose proof (quiet_poll _ _ _ _ _ E0) as Hq.
  apply poll_effect in E0 as [-> ->]. run_inv E. injection E0 as <- <-. unfold vote_won in Hw. rewrite Hw in E.
  cbn [raft_state set_raft_trk] in E. unfold st_eqb in E. rewrite Hst, bool_decide_eq_false_2 in E by done. run_inv E.
  pose proof (stays_becomeLeader _ _ _ E0) as [Hs1 Ht1]. apply stays_bcastAppend in E as Hst2. destruct Hst2 as [Hs2 Ht2].
  split_and!; [congruence|by rewrite Ht2, Ht1|]. eapply quiet_grows_trans; [exact Hq|done|].
  eapply grows_quiet_trans; [by eapply becomeLeader_grows|by eapply quiet_bcastAppend].
Qed.

(** ** The theorems *)

(** The whole of a step: a follower's or a leader's, or an election won. *)
Lemma Step_effect m r u r' :
  raft_Step m r = Ok (u, r') → coherent r → msg_log_ok m r → (Message_GetType m = MsgStorageAppendResp → ack_ok m (raft_raftLog r)) →
  follows m r r' ∨
  grows (len (Message_GetEntries m) + 1) r r' ∧ (raft_state r = StateLeader ∨ wins m r ∧ counted_now m r).
Proof.
  intros E Hc Hm Hty. unfold raft_Step, Step_with at 1 in E. run_inv E. injection E0 as <- <-.
  pose proof (grows_rec_Step (fun _ => panic "unreachable")) as Hrec.
  assert (counted_now m r → Step_dispatch (Step_with (fun _ => panic "unreachable")) m r = Ok (u, r') →
    follows m r r' ∨
    grows (len (Message_GetEntries m) + 1) r r' ∧ (raft_state r = StateLeader ∨ wins m r ∧ counted_now m r)) as Hd.
  { intros Hn Ed. apply dispatch_effect in Ed as [?|(? & [?|?])]; auto. }
  destruct (Z.eqb_spec (Message_GetTerm m) 0); [apply Hd; [by left|done]|].
  destruct (Z.ltb_spec (raft_Term r) (Message_GetTerm m)) as [Hlt|Hge].
  - run_inv E. pose proof (higher_term_quiet _ _ _ _ E0) as Hq. destruct x; [|injection E as _ <-; left; by apply quiet_follows].
    pose proof (Step_higher_term_ev any_grants _ _ _ _ E0 Hlt) as (_ & _ & [(-> & Hx)|(HT & Hst & Hl)]).
    + apply dispatch_effect in E as [?|(? & [?|(? & _)])]; auto. destruct Hx as [|[|]]; congruence.
    + assert (raft_msgs r0 = raft_msgs r) as Hms by (by eapply higher_term_msgs).
      apply dispatch_effect in E as [Hf|(_ & [?|(_ & ? & _)])]; try congruence; try done.
      * left. by eapply quiet_follows_trans.
      * by apply Hq.
      * by eapply msg_log_ok_same.
      * rewrite Hl. done.
  - destruct (Z.ltb_spec (Message_GetTerm m) (raft_Term r)); [|apply Hd; [right; lia|done]]. run_inv E. injection E as _ <-.
    apply lower_term_applies in E0 as [?|[Hg ?]]; [left; by apply quiet_follows| |done..]. right. split; [|by left].
    eapply grows_le; [|exact Hg]. pose proof (len_nonneg (Message_GetEntries m)). lia.
Qed.

(** C9. Committed entries are never replaced.  Whatever message a node handles,
    its role stays in agreement with the functions it steps and ticks with, its
    log stays well-formed, it neither takes back a commit nor brings back
    compacted entries, and every entry that was committed is still in the log,
    unchanged, unless a snapshot now covers it.  (What the storage acknowledges
    must have been stored.) *)
Theorem Step_keeps_committed (m : Message) r r' e :
  raft_Step m r = Ok (e, r') →
  coherent r → log_wf (raft_raftLog r) → msg_log_ok m r →
  (Message_GetType m = MsgStorageAppendResp → ack_ok m (raft_raftLog r)) →
  let l := raft_raftLog r in
  let l' := raft_raftLog r' in
  coherent r' ∧ log_wf l' ∧ log_base l <= log_base l' ∧ raftLog_committed l <= raftLog_committed l' ∧
  ∀ i, log_base l' < i <= raftLog_committed l → slog_at (log_view l') i = slog_at (log_view l) i.
Proof.
  intros E Hc Hw Hm Hty l l'. assert (kept r r') as [Hc' Hk].
  { apply Step_effect in E as [[? _]|[Hg _]]; [done| |done..]. eapply grows_kept_raft; [exact Hg|apply Hm]. }
  destruct (Hk Hw) as (? & ? & ? & _ & ?). auto.
Qed.

(** A step that began by taking over the later term of a message does not end in an earlier one. *)
Lemma dispatch_term rec m r u r' :
  ev_rec any_grants rec → Step_dispatch rec m r = Ok (u, r') → raft_Term r = Message_GetTerm m → msg_wf m →
  raft_Term r <= raft_Term r'.
Proof.
  intros Hrec E Ht [Hr _]. eapply (ev_term any_grants). eapply ev_Step_dispatch; [exact Hrec|exact E|lia|..]; try done.
  intros _. by right.
Qed.

Lemma leader_step_grows m r u r' :
  raft_Step m r = Ok (u, r') → raft_Term r' = raft_Term r → raft_step r = stepLeader_f → msg_wf m →
  (Message_GetType m = MsgStorageAppendResp → ack_ok m (raft_raftLog r)) → grows (len (Message_GetEntries m) + 1) r r'.
Proof.
  intros E HT Hs Hm Hty. unfold raft_Step, Step_with at 1 in E. run_inv E. injection E0 as <- <-.
  pose proof (grows_rec_Step (fun _ => panic "unreachable")) as Hrec.
  destruct (_ =? 0); [by eapply leader_dispatch_grows|].
  destruct (Z.ltb_spec (raft_Term r) (Message_GetTerm m)) as [Hlt|_].
  - run_inv E. pose proof (higher_term_quiet _ _ _ _ E0) as Hq. destruct x; [|injection E as _ <-; by apply quiet_grows].
    apply (Step_higher_term_ev any_grants) in E0 as (_ & _ & [[-> _]|(Ht & _)]); [by eapply leader_dispatch_grows| |done].
    apply dispatch_term in E; [lia|by apply ev_rec_Step, ev_rec_panic|done..].
  - destruct (_ <? _); [|by eapply leader_dispatch_grows]. run_inv E. injection E as _ <-.
    apply lower_term_applies in E0 as [?|[Hg ?]]; [by apply quiet_grows| |done..].
    eapply grows_le; [|exact Hg]. pose proof (len_nonneg (Message_GetEntries m)). lia.
Qed.

(** C10. Leader append-only: handling a message in its term, a leader never
    changes or removes an entry of its log; it may only add entries at the end. *)
Theorem Leader_append_only (m : Message) r r' e :
  raft_Step m r = Ok (e, r') → raft_Term r' = raft_Term r → raft_state r = StateLeader →
  coherent r → log_wf (raft_raftLog r) → msg_wf m →
  room (len (Message_GetEntries m) + 1) (raft_raftLog r) →
  (Message_GetType m = MsgStorageAppendResp → ack_ok m (raft_raftLog r)) →
  log_base (raft_raftLog r') = log_base (raft_raftLog r) ∧
  sl_ents (log_view (raft_raftLog r)) `prefix_of` sl_ents (log_view (raft_raftLog r')).
Proof.
  intros E HT Hst Hc Hw Hm Hr Hty. unfold coherent in Hc. rewrite Hst in Hc. destruct Hc as [Hs _].
  eapply leader_step_grows in E as [_ Hg]; [|done..]. destruct (Hg Hr Hw) as [Ha _].
  by destruct (adds_grows _ _ _ Ha Hw) as (_ & ? & ? & _).
Qed.


End inv.

(** ** Witnesses *)

#[local] Existing Instances sample_Protobuf sample_ProtobufLaws.

(** A leader of term 3 replaces the uncommitted entry 8 of a follower. *)
Definition ex_overwrite : Message := append_msg ex_sender 2 7 2 [ex_entry 3 8].
Definition ex_stepped : raft MemoryStorage :=
  match raft_Step ex_overwrite ex_follower with Ok (_, r) => r | Panic _ => ex_follower end.

Lemma Step_keeps_committed_witness :
  raft_Term ex_stepped = 3 ∧ slog_term (log_view (raft_raftLog ex_follower)) 8 = Some 2 ∧
  slog_term (log_view (raft_raftLog ex_stepped)) 8 = Some 3 ∧
  coherent ex_stepped ∧ log_wf (raft_raftLog ex_stepped) ∧
  ∀ i, 5 < i <= 7 → slog_at (log_view (raft_raftLog ex_stepped)) i = slog_at (log_view (raft_raftLog ex_follower)) i.
Proof.
  destruct (Step_keeps_committed ex_overwrite ex_follower ex_stepped None) as (Hc & Hw & _ & _ & Hk).
  - vm_compute. reflexivity.
  - vm_compute. split; reflexivity.
  - apply ex_follower_log.
  - split; [vm_compute; reflexivity|]. split; [|vm_compute; intuition congruence]. intros _.
    split; [vm_compute; congruence|]. split; [|vm_compute; reflexivity]. apply contiguous_check. vm_compute. reflexivity.
  - intros Hty. vm_compute in Hty. discriminate Hty.
  - split; [vm_compute; reflexivity|]. split; [vm_compute; reflexivity|]. split; [vm_compute; reflexivity|].
    split; [exact Hc|]. split; [exact Hw|]. exact Hk.
Defined.

Definition ex_proposal : Message :=
  set_Message_Entries [mkEntry None None None (Some [Byte.x78])] (set_Message_Type (Some MsgProp) Message0).

Lemma Leader_append_only_witness :
  ∃ r', raft_Step ex_proposal ex_leader = Ok (None, r') ∧ log_last (raft_raftLog r') = 10 ∧
    sl_ents (log_view (raft_raftLog ex_leader)) `prefix_of` sl_ents (log_view (raft_raftLog r')).
Proof.
  destruct (raft_Step ex_proposal ex_leader) as [[[e|] r']|] eqn:E; try (vm_compute in E; discriminate E).
  exists r'. split; [reflexivity|].
  assert (raft_Term r' = 3 ∧ log_last (raft_raftLog r') = 10) as [Ht Hl].
  { vm_compute in E. injection E as <-. split; vm_compute; reflexivity. }
  split; [exact Hl|]. apply (Leader_append_only ex_proposal ex_leader r' None E).
  - rewrite Ht. vm_compute. reflexivity.
  - vm_compute. reflexivity.
  - vm_compute. split; [reflexivity|split; reflexivity].
  - apply ex_leader_log.
  - vm_compute. intuition congruence.
  - vm_compute. reflexivity.
  - intros Hty. vm_compute in Hty. discriminate Hty.
Defined.
