(* ===== verification/RaftDisk.v ===== *)
(** * What has been handed out is stored

    The application of a node takes the entries of a [Ready] and stores them
    before it goes on.  Then every entry of the unstable log that is marked as
    in progress is in storage, whatever messages the node handles in between. *)
From S2P Require Import Prelude Proto Quorum Inflights Progress Tracker Util Storage.
From S2P Require Import Unstable Log ConfChange ReadOnly Raft RaftStep RaftRel RaftInv.

Section held.
Context {S : Type} `{Protobuf} `{!Storage S} `{!StorageLaws S}.
Implicit Types (r : raft S) (l : raftLog S) (u : unstable) (g : slog).

(** No snapshot is pending, the entries in progress are in the log [g], and it
    ends with them when all are in progress. *)
Record stored_in g u : Prop := mkstored_in {
  si_snapshot : unstable_snapshot u = None;
  si_offset : 0 <= unstable_offset u;
  si_progress : unstable_offsetInProgress u <= unstable_offset u + len (unstable_entries u);
  si_entries : ∀ k, unstable_offset u <= k < unstable_offsetInProgress u → slog_at g k = unstable_entry u k;
  si_last : unstable_entries u ≠ [] → unstable_offsetInProgress u = unstable_offset u + len (unstable_entries u) →
    slog_last g = unstable_offsetInProgress u - 1;
}.

Definition held l : Prop := stored_in (st_view (raftLog_storage l)) (raftLog_unstable l).

Lemma truncate_held g ents u u' :
  unstable_truncateAndAppend ents u = Ok u' → Forall (fun e => 0 <= Entry_GetIndex e) ents → stored_in g u → stored_in g u'.
Proof.
  intros (e0 & E0 & E)%bind_Ok Hpos [Sn O P En La]. apply go_index_inv in E0 as [Hlen E0]. set (from := Entry_GetIndex e0) in *.
  revert E. cbn zeta. fold from. destruct (Z.eqb_spec from (unstable_offset u +! len (unstable_entries u))); [|zcase].
  - intros [= <-]. split; cbn; try done; rewrite ?len_app; try lia.
    intros k Hk. rewrite En by done. unfold unstable_entry. cbn. zcase; [lia|]. rewrite lookup_app_l; [done|]. unfold len in P. lia.
  - intros [= <-]. split; cbn; try done; try lia.
    rewrite Forall_forall in Hpos. apply Hpos. eapply list_elem_of_lookup_2, E0.
  - intros (keep & Ek & [= <-])%bind_Ok. unfold unstable_slice in Ek. apply bind_Ok in Ek as (? & Hck & Ek).
    assert (from < two64) as Hf.
    { revert Hck. unfold unstable_mustCheckOutOfBounds. zcase; [done|]. destruct (_ || _) eqn:Eo; [done|].
      apply orb_false_iff in Eo as [_ Eo%Z.ltb_ge]. pose proof (add64_u64 (unstable_offset u) (len (unstable_entries u))). unfold is_u64 in *. lia. }
    rewrite !sub64_small, Z.sub_diag in Ek by lia. unfold go_slice in Ek. destruct (_ && _) eqn:Eb; [|done]. injection Ek as <-.
    repeat rewrite andb_true_iff in Eb. destruct Eb as [_ Eb%Z.leb_le]. rewrite Z.sub_0_r, drop_0.
    set (j := Z.to_nat (from - unstable_offset u)). assert (len (take j (unstable_entries u)) = from - unstable_offset u) as Hn.
    { unfold len in *. rewrite length_take. subst j. lia. }
    split; cbn; try done; rewrite ?len_app, ?Hn; try lia.
    intros k Hk. rewrite En by lia. unfold unstable_entry. cbn. zcase; [lia|]. rewrite lookup_app_l by (unfold len in Hn; lia).
    rewrite lookup_take_lt; [done|]. subst j. lia.
Qed.

Lemma stableTo_held g id u u' :
  unstable_stableTo id u = Ok u' → entryID_index id < MaxUint64 → stored_in g u → stored_in g u'.
Proof.
  intros (gt & _ & E)%bind_Ok Hid Hs. destruct gt as [gt|]; [|by injection E as <-]. revert E. zcase; [by intros [= <-]|].
  destruct (negb _); [by intros [= <-]|]. intros (ents & Ee & [= <-])%bind_Ok. destruct Hs as [Sn O P En La].
  rewrite add64_small in Ee |- * by lia. rewrite sub64_small in Ee by lia.
  assert (0 <= entryID_index id + 1 - unstable_offset u <= len (unstable_entries u) ∧
    ents = drop (Z.to_nat (entryID_index id + 1 - unstable_offset u)) (unstable_entries u)) as [Hb ->].
  { revert Ee. unfold go_int. zcase; intros Ee; unfold go_from, go_slice in Ee; destruct (_ && _) eqn:Eb in Ee; try done;
      repeat rewrite andb_true_iff in Eb; destruct Eb as [[E1%Z.leb_le E2%Z.leb_le] _]; [|lia].
    split; [lia|]. injection Ee as <-. rewrite take_ge; [done|]. rewrite length_drop. unfold len in *. lia. }
  assert (∀ v : unstable, stored_in g v → stored_in g (unstable_shrinkEntriesArray v)) as Hshrink 
    by (intros [? [] ? ? ?] Hv; exact Hv).
  apply Hshrink. split; cbn; try done; [lia|rewrite len_drop; lia| |].
  - intros k Hk. rewrite En by lia. unfold unstable_entry. cbn. zcase; [lia|]. zcase; [lia|]. rewrite lookup_drop. f_equal. lia.
  - intros Hne. rewrite len_drop by lia. intros Hip. assert (len (unstable_entries u) ≠ entryID_index id + 1 - unstable_offset u) as Hn.
    { intros Hl. apply Hne. rewrite <- Hl. apply drop_ge. unfold len. lia. }
    rewrite La; [lia| |lia]. intros Hz. assert (len (unstable_entries u) = 0) by (by rewrite Hz). lia.
Qed.

(** Entries are only added at the end: those in progress stay in progress. *)
Definition tail_only u u' : Prop :=
  (unstable_offset u < unstable_offsetInProgress u →
     unstable_offset u' = unstable_offset u ∧ unstable_offsetInProgress u' = unstable_offsetInProgress u) ∧
  (unstable_offsetInProgress u <= unstable_offset u → unstable_offsetInProgress u' <= unstable_offset u').

#[export] Instance tail_only_preorder : PreOrder tail_only.
Proof.
  split; [by intros u|]. intros u1 u2 u3 [A1 B1] [A2 B2]. split; [|by auto].
  intros Hu. destruct (A1 Hu) as [E1 E2]. destruct A2 as [E3 E4]; [lia|]. lia.
Qed.

Lemma append_tail t i es l x l' :
  raftLog_lastIndex l = Ok i → raftLog_append (clone_entries t (i +! 1) es) l = Ok (x, l') → held l →
  tail_only (raftLog_unstable l) (raftLog_unstable l').
Proof.
  intros Hi E [Sn O P _ _]. destruct es as [|e es]; cbn [clone_entries raftLog_append] in E.
  { by apply bind_Ok in E as (y & _ & [= _ <-]). }
  revert E. cbn zeta. zcase; [done|]. intros (u & E & E')%bind_Ok. apply bind_Ok in E' as (y & _ & [= _ <-]).
  apply bind_Ok in E as (e0 & E0 & E). apply go_index_inv in E0 as [_ [= <-]]. cbn [raftLog_unstable set_raftLog_unstable].
  revert E. cbn zeta. change (Entry_GetIndex _) with (i +! 1). set (v := raftLog_unstable l) in *.
  destruct (Z.eqb_spec (i +! 1) (unstable_offset v +! len (unstable_entries v))) as [|Hne]; [by intros [= <-]|].
  assert (unstable_entries v = []) as Hv.
  { unfold raftLog_lastIndex, unstable_maybeLastIndex in Hi. fold v in Hi. revert Hi. destruct (Z.eqb_spec (len (unstable_entries v)) 0) as [Hz|];
      [intros _; by apply len_zero|]. cbn. intros [= <-]. exfalso. apply Hne. unfold add64, sub64. rewrite Zplus_mod_idemp_l, Z.sub_add. by apply Z.mod_mod. }
  assert (unstable_offsetInProgress v <= unstable_offset v) as Hp by (rewrite Hv, len_nil in P; lia).
  zcase; [intros [= <-]; split; cbn; lia|]. intros (keep & Ek & [= <-])%bind_Ok. split; cbn; lia.
Qed.

(** ** Methods of a node *)

Section methods.
Context (free : bool).   (* the log may be cut and acknowledged *)

(** Storage and log of the application's side stay as they are: entries that are
    handed out stay stored, and none is handed out to be applied. *)
Definition hands r r' : Prop :=
  let l := raft_raftLog r in let l' := raft_raftLog r' in
  (held l → held l' ∧ (free = false → tail_only (raftLog_unstable l) (raftLog_unstable l'))) ∧
  raftLog_applying l' = raftLog_applying l ∧ raftLog_storage l' = raftLog_storage l.

#[export] Instance hands_preorder : PreOrder hands.
Proof.
  split; [intros r; split; [by intros|done]|]. intros r1 r2 r3 (H1 & A1 & S1) (H2 & A2 & S2). split; [|split; congruence].
  intros Hh. destruct (H1 Hh) as [Hh1 T1]. destruct (H2 Hh1) as [Hh2 T2]. split; [done|]. intros Hf.
  etrans; [by apply T1|by apply T2].
Qed.

Lemma hands_log r r' : raft_raftLog r' = raft_raftLog r → hands r r'.
Proof. unfold hands. intros ->. split; [by intros|done]. Qed.

Lemma hands_modify f : (∀ r, raft_raftLog (f r) = raft_raftLog r) → rel hands (modify f).
Proof. intros Hf. apply rel_modify. intros r. by apply hands_log. Qed.
Hint Extern 2 (rel hands (modify _)) => apply hands_modify; done : rel.

Lemma hands_get_pr id : rel hands (get_pr id).
Proof. unfold get_pr. rel_auto. Qed.

Lemma hands_put_pr id pr : rel hands (put_pr id pr).
Proof. by apply hands_modify. Qed.
Hint Resolve hands_get_pr hands_put_pr : rel.

Lemma hands_modify_pr id f : rel hands (modify_pr id f).
Proof. unfold modify_pr. rel_auto. Qed.
Hint Resolve hands_modify_pr : rel.

Lemma commitTo_hands c l l' :
  raftLog_commitTo c l = Ok l' → raftLog_unstable l' = raftLog_unstable l ∧ raftLog_storage l' = raftLog_storage l ∧
  raftLog_applying l' = raftLog_applying l.
Proof. unfold raftLog_commitTo. zcase; [|by intros [= <-]]. intros (x & _ & E)%bind_Ok. revert E. zcase; [done|]. by intros [= <-]. Qed.

Lemma hands_same_unstable r l :
  raftLog_unstable l = raftLog_unstable (raft_raftLog r) → raftLog_storage l = raftLog_storage (raft_raftLog r) →
  raftLog_applying l = raftLog_applying (raft_raftLog r) → hands r (set_raft_raftLog l r).
Proof. intros Hu Hs Ha. unfold hands, held. cbn. rewrite Hu, Hs. split; [by intros|done]. Qed.

Lemma hands_commitTo c : rel hands (on_log_ (raftLog_commitTo c)).
Proof. apply rel_on_log_. intros r l (? & ? & ?)%commitTo_hands. by apply hands_same_unstable. Qed.

Lemma hands_maybeCommit_log id : rel hands (on_log (raftLog_maybeCommit id)).
Proof.
  apply rel_on_log. intros r b l (ok & _ & E)%bind_Ok. destruct ok; [|by injection E as _ <-].
  apply bind_Ok in E as (l1 & (? & ? & ?)%commitTo_hands & [= _ <-]). by apply hands_same_unstable.
Qed.

Lemma append_hands es l x l' :
  raftLog_append es l = Ok (x, l') → Forall (fun e => 0 <= Entry_GetIndex e) es →
  (held l → held l') ∧ raftLog_applying l' = raftLog_applying l ∧ raftLog_storage l' = raftLog_storage l.
Proof.
  unfold raftLog_append. destruct es as [|e es].
  - by intros (y & _ & [= _ <-])%bind_Ok.
  - cbn zeta. zcase; [done|]. intros (u & Eu & E)%bind_Ok Hp. apply bind_Ok in E as (y & _ & [= _ <-]). split; [|done].
    intros Hh. by eapply truncate_held.
Qed.

Lemma maybeAppend_hands a c l x l' :
  raftLog_maybeAppend a c l = Ok (x, l') → Forall (fun e => 0 <= Entry_GetIndex e) (logSlice_entries a) →
  (held l → held l') ∧ raftLog_applying l' = raftLog_applying l ∧ raftLog_storage l' = raftLog_storage l.
Proof.
  intros (m & _ & E)%bind_Ok Hp. destruct (negb m); [by injection E as _ <-|]. apply bind_Ok in E as (ci & _ & E).
  apply bind_Ok in E as (l1 & E1 & E). apply bind_Ok in E as (l2 & E2 & [= _ <-]). apply commitTo_hands in E2 as (U2 & S2 & A2).
  unfold held. rewrite U2, S2, A2. clear l2 U2 S2 A2.
  revert E1. destruct (Z.eqb_spec ci 0); [by intros [= <-]|]. zcase; [done|]. cbn zeta. zcase; [done|]. intros (ents & Ee & E1)%bind_Ok.
  apply bind_Ok in E1 as ([y l3] & E3 & [= <-]). eapply append_hands; [exact E3|].
  unfold go_from, go_slice in Ee. destruct (_ && _); [|done]. injection Ee as <-. by apply Forall_take, Forall_drop.
Qed.

Lemma appliedTo_held i n l l' : raftLog_appliedTo i n l = Ok l' → held l → held l'.
Proof. unfold raftLog_appliedTo. destruct (_ || _); [done|]. intros [= <-]. by destruct (_ <? _). Qed.

Hint Resolve hands_commitTo hands_maybeCommit_log : rel.

Lemma hands_send m : rel hands (raft_send m).
Proof. unfold raft_send. rel_auto. Qed.
Hint Resolve hands_send : rel.

Lemma hands_maybeSendSnapshot to : rel hands (raft_maybeSendSnapshot to).
Proof. unfold raft_maybeSendSnapshot. rel_auto. Qed.
Hint Resolve hands_maybeSendSnapshot : rel.

Lemma hands_maybeSendAppend to b : rel hands (raft_maybeSendAppend to b).
Proof. unfold raft_maybeSendAppend. rel_auto. Qed.
Hint Resolve hands_maybeSendAppend : rel.

Lemma hands_sendAppend to : rel hands (raft_sendAppend to).
Proof. unfold raft_sendAppend. rel_auto. Qed.

Lemma hands_sendHeartbeat to ctx : rel hands (raft_sendHeartbeat to ctx).
Proof. unfold raft_sendHeartbeat. rel_auto. Qed.
Hint Resolve hands_sendAppend hands_sendHeartbeat : rel.

Lemma hands_bcastAppend : rel hands raft_bcastAppend.
Proof. unfold raft_bcastAppend. rel_auto. Qed.

Lemma hands_bcastHeartbeatWithCtx ctx : rel hands (raft_bcastHeartbeatWithCtx ctx).
Proof. unfold raft_bcastHeartbeatWithCtx. rel_auto. Qed.
Hint Resolve hands_bcastAppend hands_bcastHeartbeatWithCtx : rel.

Lemma hands_bcastHeartbeat : rel hands raft_bcastHeartbeat.
Proof. unfold raft_bcastHeartbeat. rel_auto. Qed.

Lemma hands_maybeCommit : rel hands raft_maybeCommit.
Proof. unfold raft_maybeCommit. rel_auto. Qed.
Hint Resolve hands_bcastHeartbeat hands_maybeCommit : rel.

Lemma clone_entries_pos t i es : Forall (fun e => 0 <= Entry_GetIndex e) (clone_entries t (i +! 1) es).
Proof.
  revert i. induction es as [|e es IH]; intros i; constructor; [|apply IH]. cbn. pose proof (add64_u64 i 1). unfold is_u64 in *. lia.
Qed.

Lemma hands_appendEntry es : rel hands (raft_appendEntry es).
Proof.
  intros r x r' E. unfold raft_appendEntry in E. run_inv E. injection E0 as <- <-. run_inv E.
  apply bind_Ok in E0 as (li & Eli & [= <- <-]). run_inv E.
  assert (hands r r0 ∧ raft_raftLog r0 = raft_raftLog r) as [H0 Hl].
  { revert E0. unfold raft_increaseUncommittedSize. intros E0. run_inv E0. injection E1 as <- <-.
    destruct (_ && _); injection E0 as _ <-; (split; [by apply hands_log|done]). }
  destruct (negb _) in E; [by injection E as _ <-|]. run_inv E. apply on_log_inv in E1 as (l & -> & El). etrans; [exact H0|]. clear H0 E0.
  rewrite Hl in El. assert (hands r0 (set_raft_raftLog l r0)) as H1.
  { unfold hands. rewrite Hl. cbn. destruct (append_hands _ _ _ _ El) as [Hh Ha]; [apply clone_entries_pos|]. split; [|done].
    intros Hd. split; [auto|]. intros _. by eapply append_tail. }
  etrans; [exact H1|]. clear H1. rest_rel hands E.
Qed.
Hint Resolve hands_appendEntry : rel.

Lemma hands_resetRandomizedElectionTimeout : rel hands raft_resetRandomizedElectionTimeout.
Proof. unfold raft_resetRandomizedElectionTimeout, Intn. rel_auto. Qed.

Lemma hands_abortLeaderTransfer : rel hands raft_abortLeaderTransfer.
Proof. by apply hands_modify. Qed.

Lemma hands_reset_progress id : rel hands (reset_progress id).
Proof. unfold reset_progress. rel_auto. Qed.
Hint Resolve hands_resetRandomizedElectionTimeout hands_abortLeaderTransfer hands_reset_progress : rel.

Lemma hands_reset term : rel hands (raft_reset term).
Proof. unfold raft_reset. rel_auto. Qed.
Hint Resolve hands_reset : rel.

Lemma hands_becomeFollower term lead : rel hands (raft_becomeFollower term lead).
Proof. unfold raft_becomeFollower. rel_auto. Qed.

Lemma hands_becomeCandidate : rel hands raft_becomeCandidate.
Proof. unfold raft_becomeCandidate. rel_auto. Qed.

Lemma hands_becomePreCandidate : rel hands raft_becomePreCandidate.
Proof. unfold raft_becomePreCandidate. rel_auto. Qed.

Lemma hands_becomeLeader : rel hands raft_becomeLeader.
Proof. unfold raft_becomeLeader. rel_auto. Qed.
Hint Resolve hands_becomeFollower hands_becomeCandidate hands_becomePreCandidate hands_becomeLeader : rel.

Lemma hands_campaign t : rel hands (raft_campaign t).
Proof. unfold raft_campaign, campaign_send. rel_auto. Qed.
Hint Resolve hands_campaign : rel.

Lemma hands_hup t : rel hands (raft_hup t).
Proof. unfold raft_hup, raft_hasUnappliedConfChanges. rel_auto. Qed.

Lemma hands_poll id v : rel hands (raft_poll id v).
Proof. unfold raft_poll. rel_auto. Qed.

Lemma hands_answer_read req i : rel hands (answer_read req i).
Proof. unfold answer_read, raft_responseToReadIndexReq. rel_auto. Qed.
Hint Resolve hands_hup hands_poll hands_answer_read : rel.

Lemma hands_sendMsgReadIndexResponse m : rel hands (sendMsgReadIndexResponse m).
Proof. unfold sendMsgReadIndexResponse. rel_auto. Qed.
Hint Resolve hands_sendMsgReadIndexResponse : rel.

Lemma hands_releasePending : rel hands releasePendingReadIndexMessages.
Proof. unfold releasePendingReadIndexMessages, raft_committedEntryInCurrentTerm. rel_auto. Qed.
Hint Resolve hands_releasePending : rel.

Lemma hands_handleHeartbeat m : rel hands (raft_handleHeartbeat m).
Proof. unfold raft_handleHeartbeat. rel_auto. Qed.

Lemma hands_handleAppendEntries m :
  free = true → Forall (fun e => 0 <= Entry_GetIndex e) (Message_GetEntries m) → rel hands (raft_handleAppendEntries m).
Proof.
  intros Hf Hp. assert (∀ a c, logSlice_entries a = Message_GetEntries m → rel hands (on_log (raftLog_maybeAppend a c))) as Ha.
  { intros a c He. apply rel_on_log. intros r x l E. destruct (maybeAppend_hands _ _ _ _ _ E) as [Hh Ha]; [by rewrite He|].
    split; [|done]. intros Hl. split; [auto|congruence]. }
  unfold raft_handleAppendEntries. rel_auto. by apply Ha.
Qed.
Hint Resolve hands_handleHeartbeat : rel.

Lemma hands_switchToConfig cfg trk : rel hands (raft_switchToConfig cfg trk).
Proof. unfold raft_switchToConfig. rel_auto. Qed.
Hint Resolve hands_switchToConfig : rel.

Lemma hands_applyConfChange cc : rel hands (raft_applyConfChange cc).
Proof. unfold raft_applyConfChange. rel_auto. Qed.

(** Messages other than snapshots whose entries have their places. *)
Definition sane (m : Message) : Prop :=
  Message_GetType m ≠ MsgSnap ∧ Message_GetType m ≠ MsgStorageApplyResp ∧
  (Message_GetType m = MsgApp → free = true ∧ Forall (fun e => 0 <= Entry_GetIndex e) (Message_GetEntries m)) ∧
  (Message_GetType m = MsgStorageAppendResp → free = true ∧ Message_GetIndex m < MaxUint64 ∧ Message_GetSnapshot m = None).

Lemma hands_stepFollower m : sane m → rel hands (stepFollower m).
Proof.
  intros (Hs & _ & Ha & _). assert (Message_GetType m = MsgApp → rel hands (raft_handleAppendEntries m)) as Hh by (intros; by apply hands_handleAppendEntries; apply Ha).
  unfold stepFollower, forward_to_leader, hear_leader. destruct (Message_GetType m); try done; try specialize (Hh eq_refl); rel_auto.
Qed.

Lemma hands_stepCandidate m : sane m → rel hands (stepCandidate m).
Proof.
  intros (Hs & _ & Ha & _). assert (Message_GetType m = MsgApp → rel hands (raft_handleAppendEntries m)) as Hh by (intros; by apply hands_handleAppendEntries; apply Ha).
  unfold stepCandidate, stepCandidate_vote. destruct (Message_GetType m); try done; try specialize (Hh eq_refl); rel_auto.
Qed.

Lemma hands_check_prop_entries i es : rel hands (check_prop_entries i es).
Proof. revert i. induction es as [|e es IH]; intros i; cbn [check_prop_entries]; unfold check_prop_entry; rel_auto. Qed.

Lemma hands_send_all_loop n to : rel hands (send_all_loop n to).
Proof. induction n as [|n IH]; cbn [send_all_loop]; rel_auto. Qed.
Hint Resolve hands_check_prop_entries hands_send_all_loop : rel.

Lemma hands_stepLeader m : rel hands (stepLeader m).
Proof.
  assert (rel hands (stepLeader_AppResp_accept m)) as H1 by (unfold stepLeader_AppResp_accept, stepLeader_AppResp_state, send_all, raft_sendTimeoutNow; rel_auto).
  assert (rel hands (stepLeader_AppResp_reject m)) as H2 by (unfold stepLeader_AppResp_reject; rel_auto).
  assert (rel hands (stepLeader_HeartbeatResp m)) as H3 by (unfold stepLeader_HeartbeatResp; rel_auto).
  assert (rel hands (stepLeader_TransferLeader m)) as H4 by (unfold stepLeader_TransferLeader, raft_sendTimeoutNow; rel_auto).
  unfold stepLeader, with_sender, stepLeader_AppResp, stepLeader_Prop, stepLeader_ReadIndex, raft_committedEntryInCurrentTerm,
    stepLeader_CheckQuorum, stepLeader_SnapStatus, stepLeader_Unreachable. rel_auto.
Qed.
Hint Resolve hands_stepLeader : rel.

Lemma hands_Step_Vote m : rel hands (Step_Vote m).
Proof. unfold Step_Vote. rel_auto. Qed.

Lemma hands_higher_term m : rel hands (Step_higher_term m).
Proof. unfold Step_higher_term. rel_auto. Qed.
Hint Resolve hands_Step_Vote hands_higher_term : rel.

Lemma hands_AppendResp rec m :
  free = true → Message_GetIndex m < MaxUint64 → Message_GetSnapshot m = None → rel hands (Step_StorageAppendResp rec m).
Proof.
  intros Hf Hi Hs. assert (rel hands (on_log_ (raftLog_stableTo (mkentryID (Message_GetLogTerm m) (Message_GetIndex m))))) as Hst.
  { apply rel_on_log_. intros r l (u & Eu & [= <-])%bind_Ok. split; [|done]. intros Hh. split; [by eapply stableTo_held|congruence]. }
  unfold Step_StorageAppendResp. rewrite Hs. rel_auto.
Qed.

Lemma hands_Step_with rec m : sane m → rel hands (Step_with rec m).
Proof.
  intros Hm. pose proof (hands_stepFollower m Hm) as H1. pose proof (hands_stepCandidate m Hm) as H2. destruct Hm as (Hs & Hp & _ & Ha).
  assert (rel hands (Step_dispatch rec m)) as Hd.
  { assert (Message_GetType m = MsgStorageAppendResp → rel hands (Step_StorageAppendResp rec m)) as H3 by (intros; apply hands_AppendResp; by apply Ha).
    unfold Step_dispatch, run_step. destruct (Message_GetType m); try done; try specialize (H3 eq_refl); rel_auto. }
  assert (rel hands (Step_lower_term rec m)) as Hl.
  { unfold Step_lower_term. destruct (mt_eqb_spec (Message_GetType m) MsgStorageAppendResp) as [Ht|]; [|rel_auto]. destruct (Ha Ht) as (_ & _ & ->). rel_auto. }
  unfold Step_with. rel_auto.
Qed.

Lemma hands_Step m : sane m → rel hands (raft_Step m).
Proof. apply hands_Step_with. Qed.

Lemma hands_run_tick : rel hands raft_run_tick.
Proof.
  assert (∀ t id, t = MsgHup ∨ t = MsgCheckQuorum ∨ t = MsgBeat → rel hands (raft_Step (set_Message_From id (set_Message_Type (Some t) Message0)))) as Hs.
  { intros t id Ht. apply hands_Step. by destruct Ht as [->|[-> | ->]]. }
  unfold raft_run_tick, raft_tickElection, raft_tickHeartbeat. rel_auto; apply Hs; auto.
Qed.

End methods.

(** The application has applied entries. *)
Lemma ApplyResp_hands rec m r x r' :
  (∀ m, sane true m → rel (hands true) (rec m)) → Step_StorageApplyResp rec m r = Ok (x, r') →
  (held (raft_raftLog r) → held (raft_raftLog r')) ∧
  raftLog_applying (raft_raftLog r') = match last (Message_GetEntries m) with
    | Some e => Z.max (raftLog_applying (raft_raftLog r)) (Z.max (Entry_GetIndex e) (raftLog_applied (raft_raftLog r)))
    | None => raftLog_applying (raft_raftLog r)
    end ∧ raftLog_storage (raft_raftLog r') = raftLog_storage (raft_raftLog r).
Proof.
  intros Hrec E. unfold Step_StorageApplyResp in E. destruct (last _) as [e|]; [|by injection E as _ <-]. run_inv E.
  assert (raft_raftLog r' = raft_raftLog r0) as -> 
    by (revert E; unfold raft_reduceUncommittedSize, mbind, RM_bind, get; cbn beta iota; case_match; by intros [= _ <-]).
  clear E. unfold raft_appliedTo_with in E0. run_inv E0. injection E as <- <-. run_inv E0. apply on_log__inv in E as (l & -> & El).
  assert (hands true (set_raft_raftLog l r) r0) as (H2 & A2 & S2).
  { assert (rel (hands true) (rec (confChangeToMsg None))) as Hr.
    { apply Hrec. unfold sane, confChangeToMsg. by destruct (MarshalConfChange None). }
    clear El. rest_rel (hands true) E0. }
  cbn in H2, A2, S2. split; [intros; by apply H2, (appliedTo_held _ _ _ _ El)|]. rewrite A2, S2. clear -El.
  unfold raftLog_appliedTo in El. destruct (_ || _); [done|]. injection El as <-. by destruct (_ <? _).
Qed.

Lemma ApplyResp_step m r x r' :
  raft_Step m r = Ok (x, r') → Message_GetType m = MsgStorageApplyResp → Message_GetTerm m = 0 →
  (held (raft_raftLog r) → held (raft_raftLog r')) ∧
  raftLog_applying (raft_raftLog r') = match last (Message_GetEntries m) with
    | Some e => Z.max (raftLog_applying (raft_raftLog r)) (Z.max (Entry_GetIndex e) (raftLog_applied (raft_raftLog r)))
    | None => raftLog_applying (raft_raftLog r)
    end ∧ raftLog_storage (raft_raftLog r') = raftLog_storage (raft_raftLog r).
Proof.
  intros E Ht H0. unfold raft_Step, Step_with at 1 in E. run_inv E. injection E0 as <- <-. rewrite H0, Z.eqb_refl in E.
  unfold Step_dispatch in E. run_inv E. injection E0 as <- <-. rewrite Ht in E. run_inv E. injection E as _ <-.
  eapply ApplyResp_hands; [|exact E0]. intros. by apply hands_Step_with.
Qed.

End held.

(** ** Storage and log *)

Section disk.
Context {S : Type} `{Protobuf} `{!Storage S} `{!StorageLaws S}.
Implicit Types (r : raft S) (l : raftLog S) (s : S).

(** How many entries are in progress. *)
Definition in_progress (u : unstable) : nat := Z.to_nat (unstable_offsetInProgress u - unstable_offset u).

(** Storage starts with the log up to the entries in progress. *)
Lemma held_prefix l :
  log_wf l → held l →
  let u := raftLog_unstable l in let v := st_view (raftLog_storage l) in
  log_base l = sl_base v ∧ log_base_term l = sl_term v ∧
  take (Z.to_nat (unstable_offsetInProgress u - 1 - sl_base v)) (sl_ents v) = log_stable l ++ take (in_progress u) (unstable_entries u).
Proof.
  intros W [Sn _ P En _] u v. assert (log_base l = sl_base v) as Hb by (unfold log_base; by rewrite Sn).
  split; [done|]. split; [unfold log_base_term; by rewrite Sn|].
  pose proof (lwf_gap _ W) as Hg. fold u v in Hg, P, En, Sn. rewrite Sn in Hg. destruct Hg as [Hg _].
  pose proof (uwf_progress _ (lwf_unstable _ W)) as Hp. fold u in Hp.
  unfold log_stable. fold u v. rewrite Sn, Hb. set (a := Z.to_nat (unstable_offset u - sl_base v - 1)).
  replace (Z.to_nat (unstable_offsetInProgress u - 1 - sl_base v)) with (a + in_progress u)%nat by (unfold in_progress; subst a; lia).
  rewrite <- (take_take_drop (sl_ents v) a (in_progress u)). f_equal. apply list_eq. intros j.
  destruct (decide (j < in_progress u)%nat) as [Hj|]; [|by rewrite !lookup_take_ge by lia]. rewrite !lookup_take_lt, lookup_drop by done.
  specialize (En (unstable_offset u + Z.of_nat j)). unfold in_progress in Hj. unfold slog_at, unstable_entry in En.
  rewrite (proj2 (Z.ltb_lt _ _)), (proj2 (Z.ltb_ge _ _)) in En by lia.
  replace (Z.to_nat (unstable_offset u + Z.of_nat j - sl_base v - 1)) with (a + j)%nat in En by (subst a; lia).
  replace (Z.to_nat (unstable_offset u + Z.of_nat j - unstable_offset u)) with j in En by lia. apply En. lia.
Qed.

(** Nothing is left to store when all entries are in progress. *)
Lemma held_all l :
  log_wf l → held l → drop (in_progress (raftLog_unstable l)) (unstable_entries (raftLog_unstable l)) = [] →
  st_view (raftLog_storage l) = log_view l.
Proof.
  intros W Hh Hd. destruct (held_prefix l W Hh) as (Hb & Ht & Hp). set (u := raftLog_unstable l) in *. set (v := st_view _) in *.
  pose proof (uwf_progress _ (lwf_unstable _ W)) as Hr. fold u in Hr.
  assert (unstable_offsetInProgress u = unstable_offset u + len (unstable_entries u)) as Ho.
  { apply (f_equal length) in Hd. rewrite length_drop in Hd. unfold in_progress in Hd. cbn in Hd. unfold len in *. lia. }
  rewrite (take_ge (unstable_entries u)) in Hp by (unfold in_progress; rewrite Ho; unfold len; lia).
  unfold log_view. rewrite Hb, Ht. fold u. rewrite <- Hp. destruct v as [vb vt ve] eqn:Ev. cbn [sl_base sl_term sl_ents] in *. f_equal.
  symmetry. apply take_ge. assert (slog_last v = unstable_offsetInProgress u - 1) as Hl.
  { destruct (unstable_entries u) as [|e es] eqn:Ee; [|apply Hh; fold u; rewrite Ee; done].
    pose proof (lwf_gap _ W) as Hg. fold u in Hg. rewrite (si_snapshot _ _ Hh : unstable_snapshot u = None), Ee in Hg.
    destruct Hg as [_ Hg]. specialize (Hg eq_refl). rewrite Ho, len_nil. subst v. lia. }
  subst v. rewrite Ev in Hl. unfold slog_last, len in Hl. cbn in Hl. lia.
Qed.

(** Storing what is left makes storage and log the same. *)
Lemma held_append l :
  log_wf l → held l →
  let u := raftLog_unstable l in
  drop (in_progress u) (unstable_entries u) ≠ [] →
  slog_append (st_view (raftLog_storage l)) (unstable_offsetInProgress u - 1) (drop (in_progress u) (unstable_entries u)) = log_view l.
Proof.
  intros W Hh u Hd. destruct (held_prefix l W Hh) as (Hb & Ht & Hp). fold u in Hp. set (v := st_view _) in *.
  pose proof (lwf_gap _ W) as Hg. fold u v in Hg. rewrite (si_snapshot _ _ Hh : unstable_snapshot u = None) in Hg. destruct Hg as [Hg _].
  pose proof (uwf_progress _ (lwf_unstable _ W)) as Hr. fold u in Hr.
  unfold slog_append. assert (0 < len (drop (in_progress u) (unstable_entries u))) as Hn.
  { destruct (drop _ _); [done|]. rewrite len_cons. pose proof (len_nonneg l0). lia. }
  rewrite (proj2 (Z.leb_gt _ _)) by lia. rewrite Z.max_l by lia. rewrite Hp.
  replace (Z.to_nat (sl_base v - (unstable_offsetInProgress u - 1))) with 0%nat by lia. rewrite drop_0, <- app_assoc, take_drop.
  unfold log_view. by rewrite Hb, Ht.
Qed.

(** Storage that holds the whole log. *)
Lemma full_saves s l :
  log_wf l → unstable_snapshot (raftLog_unstable l) = None → st_ok s → st_view s = log_view l →
  log_wf (set_raftLog_storage s l) ∧ log_view (set_raftLog_storage s l) = log_view l.
Proof.
  intros W Sn Hok Hv. set (l' := set_raftLog_storage s l). pose proof (lwf_gap _ W) as Hg. rewrite Sn in Hg.
  assert (log_base l' = log_base l) as Hb by (unfold log_base at 1; cbn; rewrite Sn, Hv; done).
  assert (log_base_term l' = log_base_term l) as Ht by (unfold log_base_term at 1; cbn; rewrite Sn, Hv; done).
  assert (len (log_stable l) = unstable_offset (raftLog_unstable l) - log_base l - 1) as Hs by (by apply log_stable_len).
  assert (log_view l' = log_view l) as Hview.
  { unfold log_view. rewrite Hb, Ht. f_equal. f_equal. unfold log_stable at 1. cbn. rewrite Sn, Hb, Hv. cbn [sl_ents log_view].
    rewrite take_app_le by (unfold len in Hs; lia). apply take_ge. unfold len in Hs. lia. }
  split; [|done]. pose proof W as [_ Hu _ Hc Ha Hl]. split; rewrite ?Hview, ?Hb; try done. cbn. rewrite Sn, Hv.
  destruct Hg as [Hg _]. unfold log_base in Hs. rewrite Sn in Hs. 
  unfold slog_last. cbn [sl_base sl_ents log_view]. rewrite len_app, Hs. unfold log_base. rewrite Sn.
  pose proof (len_nonneg (unstable_entries (raftLog_unstable l))). split; [lia|]. intros ->. rewrite len_nil. lia.
Qed.

Lemma full_held l : 
  log_wf l → unstable_snapshot (raftLog_unstable l) = None → st_view (raftLog_storage l) = log_view l → held l.
Proof.
  intros W Sn Hv. assert (len (log_stable l) = unstable_offset (raftLog_unstable l) - log_base l - 1) as Hs by (by apply log_stable_len).
  destruct (lwf_unstable _ W) as [U1 _ _ _ U5 _ _]. split; [done|lia|lia| |].
  - intros k Hk. rewrite Hv. unfold slog_at, unstable_entry. cbn [sl_base sl_ents log_view]. pose proof (len_nonneg (log_stable l)).
    rewrite (proj2 (Z.ltb_lt _ _)), (proj2 (Z.ltb_ge _ _)) by lia. rewrite lookup_app_r by (unfold len in Hs; lia). f_equal. unfold len in Hs. lia.
  - intros _ ->. rewrite Hv. unfold slog_last. cbn [sl_base sl_ents log_view]. rewrite len_app, Hs. lia.
Qed.

(** What has been handed out may be acknowledged. *)
Lemma held_contract l :
  log_wf l → held l → unstable_offset (raftLog_unstable l) < unstable_offsetInProgress (raftLog_unstable l) →
  stable_contract l (unstable_offsetInProgress (raftLog_unstable l) - 1).
Proof.
  intros W Hh Hne. destruct (held_prefix l W Hh) as (Hb & Ht & Hp). set (u := raftLog_unstable l) in *. set (v := st_view _) in *.
  pose proof (lwf_gap _ W) as Hg. fold u v in Hg. rewrite (si_snapshot _ _ Hh : unstable_snapshot u = None) in Hg. destruct Hg as [Hg _].
  pose proof (uwf_progress _ (lwf_unstable _ W)) as Hr. fold u in Hr. pose proof (log_stable_len l W) as Hs. fold u in Hs.
  unfold stable_contract. cbn zeta. fold v. split_and!.
  - pose proof (f_equal length Hp) as Hl. rewrite length_take, length_app, length_take in Hl. unfold in_progress in Hl.
    unfold slog_last, len in *. lia.
  - rewrite Hb, Hp. cbn [sl_ents log_view]. rewrite take_app_ge by (unfold len in Hs; lia). f_equal. f_equal.
    unfold in_progress, len in *. lia.
  - intros Hl. assert (log_last l = unstable_offset u + len (unstable_entries u) - 1) as Hla.
    { unfold slog_last. cbn [sl_base sl_ents log_view]. fold u. rewrite len_app, Hs. lia. }
    apply Hh; fold u; [|lia]. intros Hz. rewrite Hz, len_nil in Hr. lia.
Qed.

End disk.
