(* ===== verification/RaftQuota.v ===== *)
(** * The size of what a leader has not committed

    A leader counts the payload of the entries that it has appended and that are
    not applied yet, and drops proposals beyond a limit.  The count stays within
    the limit or the size of a single proposal, whatever messages arrive. *)
From S2P Require Import Prelude Proto Quorum Inflights Progress Tracker Util Storage.
From S2P Require Import Unstable Log ConfChange ReadOnly Raft RaftStep RaftRel RaftSafety.

(** The payload of entries, without wrap-around. *)
Fixpoint payload_total (es : list Entry) : Z :=
  match es with
  | [] => 0
  | e :: es => payloadSize e + payload_total es
  end.

Lemma payload_total_nonneg es : 0 <= payload_total es.
Proof. induction es as [|e es IH]; cbn [payload_total]; [lia|]. pose proof (len_nonneg (Entry_GetData e)). unfold payloadSize. lia. Qed.

Lemma add64_le a c : 0 <= a + c → 0 <= a +! c <= a + c.
Proof. intros Hs. pose proof (add64_u64 a c) as Hu. unfold add64, is_u64 in *. split; [lia|]. by apply Z.mod_le. Qed.

Lemma payloadsSize_bound es : 0 <= payloadsSize es <= payload_total es.
Proof.
  unfold payloadsSize. assert (∀ s, 0 <= s → 0 <= foldl (fun s e => s +! payloadSize e) s es <= s + payload_total es) as Hg; [|by apply (Hg 0)].
  induction es as [|e es IH]; intros s Hs; cbn [payload_total foldl]; [lia|]. pose proof (len_nonneg (Entry_GetData e)) as Hp. fold (payloadSize e) in Hp.
  pose proof (add64_le s (payloadSize e)). specialize (IH (s +! payloadSize e)). lia.
Qed.

Lemma payload_total_clone t i es : payload_total (clone_entries t i es) = payload_total es.
Proof. revert i. induction es as [|e es IH]; intros i; cbn; [done|]. by rewrite IH. Qed.

Section quota.
Context {S : Type} `{Protobuf} `{!Storage S}.
Context (B : Z).
Hypothesis HB : 0 <= B.
Implicit Types r : raft S.

Definition within_quota r : Prop := raft_maxUncommittedSize r <= B ∧ 0 <= raft_uncommittedSize r <= B.

Definition quota r r' : Prop :=
  raft_maxUncommittedSize r' = raft_maxUncommittedSize r ∧ (within_quota r → within_quota r').

#[export] Instance quota_preorder : PreOrder quota.
Proof. split; [by intros r|]. intros r1 r2 r3 [M1 Q1] [M2 Q2]. split; [congruence|auto]. Qed.

Lemma quota_same r r' :
  raft_maxUncommittedSize r' = raft_maxUncommittedSize r → raft_uncommittedSize r' = raft_uncommittedSize r → quota r r'.
Proof. intros Em Eu. split; [done|]. unfold within_quota. by rewrite Em, Eu. Qed.

Lemma quota_modify f :
  (∀ r, raft_maxUncommittedSize (f r) = raft_maxUncommittedSize r ∧ raft_uncommittedSize (f r) = raft_uncommittedSize r) →
  rel quota (modify f).
Proof. intros Hf. apply rel_modify. intros r. destruct (Hf r). by apply quota_same. Qed.
Hint Extern 2 (rel quota (modify _)) => apply quota_modify; done : rel.

Lemma quota_on_log {A} (f : raftLog S → outcome (A * raftLog S)) : rel quota (on_log f).
Proof. apply rel_on_log. intros. by apply quota_same. Qed.

Lemma quota_on_log_ (f : raftLog S → outcome (raftLog S)) : rel quota (on_log_ f).
Proof. apply rel_on_log_. intros. by apply quota_same. Qed.
Hint Resolve quota_on_log quota_on_log_ : rel.

Lemma quota_zero : rel quota (modify (set_raft_uncommittedSize 0)).
Proof. apply rel_modify. intros r. split; [done|]. intros [? ?]. split; [done|cbn; lia]. Qed.
Hint Resolve quota_zero : rel.

Lemma quota_increase es : payload_total es <= B → rel quota (raft_increaseUncommittedSize es).
Proof.
  intros Hes. unfold raft_increaseUncommittedSize. apply rel_get_bind. intros r b r'. cbn zeta.
  pose proof (payloadsSize_bound es) as Hp. destruct (_ && _) eqn:Eb; [by intros [= _ <-]|]. intros [= _ <-]. split; [done|].
  intros [Hm Hu]. split; [done|]. cbn. pose proof (add64_le (raft_uncommittedSize r) (payloadsSize es)).
  apply andb_false_iff in Eb as [[Eb%Z.ltb_ge|Eb%Z.ltb_ge]%andb_false_iff|Eb%Z.ltb_ge]; lia.
Qed.

Lemma quota_reduce s : 0 <= s → rel quota (raft_reduceUncommittedSize s).
Proof.
  intros Hs. unfold raft_reduceUncommittedSize. apply rel_get_bind. intros r b r'. zcase; [by apply quota_zero|].
  intros [= _ <-]. split; [done|]. intros [Hm Hu]. split; [done|]. cbn. unfold sub64.
  pose proof (Z.mod_le (raft_uncommittedSize r - s) two64). pose proof (Z.mod_pos_bound (raft_uncommittedSize r - s) two64). lia.
Qed.

Lemma quota_get_pr id : rel quota (get_pr id).
Proof. unfold get_pr. rel_auto. Qed.

Lemma quota_put_pr id pr : rel quota (put_pr id pr).
Proof. by apply quota_modify. Qed.
Hint Resolve quota_get_pr quota_put_pr : rel.

Lemma quota_modify_pr id f : rel quota (modify_pr id f).
Proof. unfold modify_pr. rel_auto. Qed.
Hint Resolve quota_modify_pr : rel.

Lemma quota_send m : rel quota (raft_send m).
Proof. unfold raft_send. rel_auto. Qed.
Hint Resolve quota_send : rel.

Lemma quota_maybeSendSnapshot to : rel quota (raft_maybeSendSnapshot to).
Proof. unfold raft_maybeSendSnapshot. rel_auto. Qed.
Hint Resolve quota_maybeSendSnapshot : rel.

Lemma quota_maybeSendAppend to b : rel quota (raft_maybeSendAppend to b).
Proof. unfold raft_maybeSendAppend. rel_auto. Qed.
Hint Resolve quota_maybeSendAppend : rel.

Lemma quota_sendAppend to : rel quota (raft_sendAppend to).
Proof. unfold raft_sendAppend. rel_auto. Qed.

Lemma quota_sendHeartbeat to ctx : rel quota (raft_sendHeartbeat to ctx).
Proof. unfold raft_sendHeartbeat. rel_auto. Qed.
Hint Resolve quota_sendAppend quota_sendHeartbeat : rel.

Lemma quota_bcastAppend : rel quota raft_bcastAppend.
Proof. unfold raft_bcastAppend. rel_auto. Qed.

Lemma quota_bcastHeartbeatWithCtx ctx : rel quota (raft_bcastHeartbeatWithCtx ctx).
Proof. unfold raft_bcastHeartbeatWithCtx. rel_auto. Qed.
Hint Resolve quota_bcastAppend quota_bcastHeartbeatWithCtx : rel.

Lemma quota_bcastHeartbeat : rel quota raft_bcastHeartbeat.
Proof. unfold raft_bcastHeartbeat. rel_auto. Qed.
Hint Resolve quota_bcastHeartbeat : rel.

Lemma quota_maybeCommit : rel quota raft_maybeCommit.
Proof. unfold raft_maybeCommit. rel_auto. Qed.
Hint Resolve quota_maybeCommit : rel.

Lemma quota_appendEntry es : payload_total es <= B → rel quota (raft_appendEntry es).
Proof.
  intros Hes. assert (∀ t i, rel quota (raft_increaseUncommittedSize (clone_entries t i es))) as Hi
    by (intros t i; apply quota_increase; by rewrite payload_total_clone).
  unfold raft_appendEntry. rel_auto.
Qed.

Lemma quota_abortLeaderTransfer : rel quota raft_abortLeaderTransfer.
Proof. by apply quota_modify. Qed.
Hint Resolve quota_abortLeaderTransfer : rel.

Lemma quota_reset term : rel quota (raft_reset term).
Proof. unfold raft_reset, raft_resetRandomizedElectionTimeout, Intn, reset_progress. rel_auto. Qed.
Hint Resolve quota_reset : rel.

Lemma quota_becomeFollower term lead : rel quota (raft_becomeFollower term lead).
Proof. unfold raft_becomeFollower. rel_auto. Qed.

Lemma quota_becomeCandidate : rel quota raft_becomeCandidate.
Proof. unfold raft_becomeCandidate. rel_auto. Qed.

Lemma quota_becomePreCandidate : rel quota raft_becomePreCandidate.
Proof. unfold raft_becomePreCandidate. rel_auto. Qed.

Lemma quota_becomeLeader : rel quota raft_becomeLeader.
Proof. assert (rel quota (raft_appendEntry [mkEntry None None None None])) as Ha by (by apply quota_appendEntry). unfold raft_becomeLeader. rel_auto. Qed.
Hint Resolve quota_becomeFollower quota_becomeCandidate quota_becomePreCandidate quota_becomeLeader : rel.

Lemma quota_campaign t : rel quota (raft_campaign t).
Proof. unfold raft_campaign, campaign_send. rel_auto. Qed.
Hint Resolve quota_campaign : rel.

Lemma quota_hup t : rel quota (raft_hup t).
Proof. unfold raft_hup, raft_hasUnappliedConfChanges. rel_auto. Qed.

Lemma quota_poll id v : rel quota (raft_poll id v).
Proof. unfold raft_poll. rel_auto. Qed.

Lemma quota_answer_read req i : rel quota (answer_read req i).
Proof. unfold answer_read, raft_responseToReadIndexReq. rel_auto. Qed.
Hint Resolve quota_hup quota_poll quota_answer_read : rel.

Lemma quota_sendMsgReadIndexResponse m : rel quota (sendMsgReadIndexResponse m).
Proof. unfold sendMsgReadIndexResponse. rel_auto. Qed.
Hint Resolve quota_sendMsgReadIndexResponse : rel.

Lemma quota_releasePending : rel quota releasePendingReadIndexMessages.
Proof. unfold releasePendingReadIndexMessages, raft_committedEntryInCurrentTerm. rel_auto. Qed.

Lemma quota_handleHeartbeat m : rel quota (raft_handleHeartbeat m).
Proof. unfold raft_handleHeartbeat. rel_auto. Qed.

Lemma quota_handleAppendEntries m : rel quota (raft_handleAppendEntries m).
Proof. unfold raft_handleAppendEntries. rel_auto. Qed.

Lemma quota_switchToConfig cfg trk : rel quota (raft_switchToConfig cfg trk).
Proof. unfold raft_switchToConfig. rel_auto. Qed.
Hint Resolve quota_releasePending quota_handleHeartbeat quota_handleAppendEntries quota_switchToConfig : rel.

Lemma quota_handleSnapshot m : rel quota (raft_handleSnapshot m).
Proof. unfold raft_handleSnapshot, raft_restore. rel_auto. Qed.
Hint Resolve quota_handleSnapshot : rel.

Lemma quota_stepFollower m : rel quota (stepFollower m).
Proof. unfold stepFollower, forward_to_leader, hear_leader. rel_auto. Qed.

Lemma quota_stepCandidate m : rel quota (stepCandidate m).
Proof. unfold stepCandidate, stepCandidate_vote. rel_auto. Qed.

Lemma quota_send_all_loop n to : rel quota (send_all_loop n to).
Proof. induction n as [|n IH]; cbn [send_all_loop]; rel_auto. Qed.
Hint Resolve quota_stepFollower quota_stepCandidate quota_send_all_loop : rel.

(** A proposal is appended as it is, but for entries that are emptied. *)
Lemma check_prop_entries_total i es r es' r' :
  check_prop_entries i es r = Ok (es', r') → quota r r' ∧ payload_total es' <= payload_total es.
Proof.
  revert i es' r r'. induction es as [|e es IH]; intros i es' r r' E; cbn [check_prop_entries] in E; [by injection E as <- <-|].
  do 2 run_inv E. injection E as <- <-. apply IH in E1 as [Hq Hle]. cbn [payload_total].
  assert (quota r r0 ∧ payloadSize x <= payloadSize e) as [Hq0 Hx]; [|split; [by etrans|lia]].
  split.
  - assert (rel quota (check_prop_entry i e)) as Hr by (unfold check_prop_entry; rel_auto). by eapply Hr.
  - revert E0. unfold check_prop_entry. intros E0. run_inv E0. run_inv E0. destruct x2; [|by injection E0 as <- _].
    destruct (_ && _) in E0; [injection E0 as <- _; apply (len_nonneg (Entry_GetData e))|]. do 2 run_inv E0. by injection E0 as <- _.
Qed.

(** Proposals are limited in size. *)
Definition small (m : Message) : Prop := Message_GetType m = MsgProp → payload_total (Message_GetEntries m) <= B.

Lemma quota_Prop m : payload_total (Message_GetEntries m) <= B → rel quota (stepLeader_Prop m).
Proof.
  intros Hm. unfold stepLeader_Prop. apply rel_get_bind. intros r y r' E. destruct (_ =? 0); [done|].
  destruct (_ !! _); [|by injection E as _ <-]. destruct (negb _); [by injection E as _ <-|].
  run_inv E. apply check_prop_entries_total in E0 as [Hq Hle]. etrans; [exact Hq|]. clear Hq.
  assert (rel quota (raft_appendEntry x)) by (apply quota_appendEntry; lia). rest_rel quota E.
Qed.

Lemma quota_stepLeader m : small m → rel quota (stepLeader m).
Proof.
  intros Hm. assert (rel quota (stepLeader_AppResp_accept m)) as H1 by (unfold stepLeader_AppResp_accept, stepLeader_AppResp_state, send_all, raft_sendTimeoutNow; rel_auto).
  assert (rel quota (stepLeader_AppResp_reject m)) as H2 by (unfold stepLeader_AppResp_reject; rel_auto).
  assert (rel quota (stepLeader_HeartbeatResp m)) as H3 by (unfold stepLeader_HeartbeatResp; rel_auto).
  assert (rel quota (stepLeader_TransferLeader m)) as H4 by (unfold stepLeader_TransferLeader, raft_sendTimeoutNow; rel_auto).
  assert (Message_GetType m = MsgProp → rel quota (stepLeader_Prop m)) as H5 by (intros; by apply quota_Prop, Hm).
  unfold stepLeader, with_sender, stepLeader_AppResp, stepLeader_ReadIndex, raft_committedEntryInCurrentTerm,
    stepLeader_CheckQuorum, stepLeader_SnapStatus, stepLeader_Unreachable.
  destruct (Message_GetType m); try specialize (H5 eq_refl); rel_auto.
Qed.

Lemma quota_Step_with rec m :
  rel quota (rec (confChangeToMsg None)) → small m → rel quota (Step_with rec m).
Proof.
  intros Hrec Hm. pose proof (quota_stepLeader m Hm) as Hl.
  assert (∀ i n, rel quota (raft_appliedTo_with rec i n)) as Ha by (intros i n; unfold raft_appliedTo_with; rel_auto).
  assert (∀ s, rel quota (raft_appliedSnap_with rec s)) as Hs by (intros s; unfold raft_appliedSnap_with; rel_auto).
  assert (rel quota (raft_reduceUncommittedSize (payloadsSize (Message_GetEntries m)))) as Hr by (apply quota_reduce, payloadsSize_bound).
  unfold Step_with, Step_dispatch, Step_lower_term, Step_higher_term, run_step, Step_Vote, Step_StorageAppendResp, Step_StorageApplyResp. rel_auto.
Qed.

Lemma quota_Step m : small m → rel quota (raft_Step m).
Proof.
  intros Hm. apply quota_Step_with; [|done]. apply quota_Step_with; [apply rel_panic|by intros _].
Qed.

Lemma quota_run_tick : rel quota raft_run_tick.
Proof.
  assert (∀ t id, t = MsgHup ∨ t = MsgCheckQuorum ∨ t = MsgBeat → rel quota (raft_Step (set_Message_From id (set_Message_Type (Some t) Message0)))) as Hs.
  { intros t id Ht. apply quota_Step. by destruct Ht as [->|[-> | ->]]. }
  unfold raft_run_tick, raft_tickElection, raft_tickHeartbeat. rel_auto; apply Hs; auto.
Qed.

Lemma quota_applyConfChange cc : rel quota (raft_applyConfChange cc).
Proof. unfold raft_applyConfChange. rel_auto. Qed.

Lemma quota_newRaft_init (c : RaftConfig S) hs cs : rel quota (newRaft_init c hs cs).
Proof. unfold newRaft_init, raft_loadState. rel_auto. Qed.

End quota.

(** ** Runs of a node *)

Section runs.
Context {S : Type} `{Protobuf} `{!Storage S}.
Implicit Types r : raft S.

(** What drives a node: messages with proposals of at most [P] bytes, ticks, and
    configuration changes that are applied. *)
Inductive input : Type :=
  | Receive (m : Message)
  | Clock
  | Reconfigure (cc : ConfChangeV2).

Definition small_input (P : Z) (i : input) : bool :=
  match i with
  | Receive m => negb (mt_eqb (Message_GetType m) MsgProp) || (payload_total (Message_GetEntries m) <=? P)
  | _ => true
  end.

Definition take_input (i : input) r : outcome (raft S) :=
  match i with
  | Receive m => x ← raft_Step m r; Ok x.2
  | Clock => x ← raft_run_tick r; Ok x.2
  | Reconfigure cc => x ← raft_applyConfChange cc r; Ok x.2
  end.

Fixpoint take_inputs (xs : list input) r : outcome (raft S) :=
  match xs with
  | [] => Ok r
  | i :: xs => r ← take_input i r; take_inputs xs r
  end.

Lemma quota_input B P i r r' : 0 <= B → P <= B → small_input P i = true → take_input i r = Ok r' → quota B r r'.
Proof.
  intros HB HP Hs. destruct i as [m| |cc]; cbn [take_input]; intros ([x r1] & E & [= <-])%bind_Ok.
  - eapply quota_Step; [done| |exact E]. intros Ht. cbn in Hs. rewrite Ht in Hs. cbn in Hs. lia.
  - by eapply quota_run_tick.
  - by eapply quota_applyConfChange.
Qed.

Lemma quota_inputs B P xs r r' :
  0 <= B → P <= B → forallb (small_input P) xs = true → take_inputs xs r = Ok r' → quota B r r'.
Proof.
  intros HB HP. revert r. induction xs as [|i xs IH]; intros r; cbn; [by intros _ [= <-]|].
  rewrite andb_true_iff. intros [Hi His] (r1 & E1 & E2)%bind_Ok. etrans; [by eapply quota_input|by apply IH].
Qed.

(** The limit of a configuration; 0 stands for none. *)
Definition uncommitted_limit (conf : RaftConfig S) : Z :=
  if RaftConfig_MaxUncommittedEntriesSize conf =? 0 then noLimit else RaftConfig_MaxUncommittedEntriesSize conf.

Lemma newRaft_quota (conf : RaftConfig S) rands r :
  newRaft conf rands = Ok r → raft_maxUncommittedSize r = uncommitted_limit conf ∧ ∀ B, 0 <= B → uncommitted_limit conf <= B → within_quota B r.
Proof.
  unfold newRaft. destruct (Config_validate conf) as [[s c]|] eqn:Ev; [|done]. intros (l & _ & E)%bind_Ok.
  destruct (st_InitialState s) as [[hs cs]|]; [|done]. apply bind_Ok in E as ([u r1] & E & [= <-]).
  assert (RaftConfig_MaxUncommittedEntriesSize c = uncommitted_limit conf) as Hl.
  { revert Ev. unfold Config_validate. repeat (case_match; try done); intros [= _ <-]; cbn; unfold uncommitted_limit; repeat case_match; congruence. }
  split; [rewrite (proj1 (quota_newRaft_init 0 ltac:(lia) _ _ _ _ _ _ E)); done|]. intros B HB Hle.
  apply (quota_newRaft_init B HB _ _ _ _ _ _ E). split; cbn; lia.
Qed.

(** C12. The count of uncommitted payload is bounded: on a node that is started
    and driven by any messages, ticks and configuration changes, with proposals
    of at most [P] bytes, it never exceeds the configured limit, or [P] if that
    is more, and the limit stays as configured; sums that overflow do not break
    the bound. *)
Theorem uncommitted_bounded (conf : RaftConfig S) rands r0 P xs r :
  newRaft conf rands = Ok r0 → 0 <= P → forallb (small_input P) xs = true → take_inputs xs r0 = Ok r →
  raft_maxUncommittedSize r = uncommitted_limit conf ∧ 0 <= raft_uncommittedSize r <= Z.max (uncommitted_limit conf) P.
Proof.
  intros E0 HP Hs E. destruct (newRaft_quota _ _ _ E0) as [Hm Hq]. set (B := Z.max (uncommitted_limit conf) P).
  destruct (quota_inputs B P xs r0 r ltac:(lia) ltac:(lia) Hs E) as [Hm' Hq']. split; [congruence|].
  apply Hq', Hq; lia.
Qed.

End runs.

(** ** A leader at its limit *)

#[local] Existing Instances sample_Protobuf sample_ProtobufLaws.

Definition quota_conf : RaftConfig MemoryStorage :=
  mkRaftConfig 1 10 1 (Some ex_node_storage) 0 false noLimit 0 1 256 0 false false ReadOnlySafe false false false.

Definition quota_prop (data : bytes) : input :=
  Receive (set_Message_Entries [mkEntry None None None (Some data)] (set_Message_Type (Some MsgProp) Message0)).

(** It takes a first proposal of three bytes, and drops a second one. *)
Definition quota_inputs_ex : list input :=
  [Receive ex_hup; Receive (ex_vote_resp 1); Receive (ex_vote_resp 2);
   quota_prop [Byte.x61; Byte.x62; Byte.x63]; quota_prop [Byte.x64]; Clock].

Lemma uncommitted_bounded_witness :
  ∃ r, (r0 ← newRaft quota_conf []; take_inputs quota_inputs_ex r0) = Ok r ∧
    raft_uncommittedSize r = 3 ∧ 0 <= raft_uncommittedSize r <= Z.max 1 3.
Proof.
  destruct (newRaft quota_conf []) as [r0|w] eqn:E0; [|vm_compute in E0; discriminate E0].
  destruct (take_inputs quota_inputs_ex r0) as [r|w] eqn:E; [|vm_compute in E0; injection E0 as <-; vm_compute in E; discriminate E].
  exists r. split; [exact E|]. split; [vm_compute in E0; injection E0 as <-; vm_compute in E; injection E as <-; reflexivity|].
  destruct (uncommitted_bounded quota_conf [] r0 3 quota_inputs_ex r E0) as [_ Hb]; [lia|vm_compute; reflexivity|exact E|]. exact Hb.
Defined.
