(* ===== verification/RaftAck.v ===== *)
(** * What a node says and acknowledges

    Which messages a method of src/raft.go sends, beyond what RaftSafety.v and
    RaftInv.v say of them: the commit indexes that a leader announces, the
    entries that a follower acknowledges, and how a leader comes to know of
    them (the match indexes of its progress tracker). *)
From S2P Require Import Prelude Proto Quorum Inflights Progress Tracker Util Storage.
From S2P Require Import Unstable Log ConfChange ReadOnly Raft RaftStep RaftRel.
From S2P Require Import RaftSafety RaftInv.

(** An acknowledgement of entries. *)
Definition is_ack (m : Message) : Prop :=
  Message_GetType m = MsgAppResp ∧ Message_GetReject m = false ∧ 0 < Message_GetIndex m.

Section says.
Context {S : Type} `{Protobuf, !ProtobufLaws _} `{!Storage S} `{!StorageLaws S}.
Implicit Types (r : raft S) (l : raftLog S).

Definition prs r : ProgressMap := ProgressTracker_Progress (raft_trk r).

(** The match index that a leader has for a node. *)
Definition match_of r (x : Z) : option Z := Progress_Match <$> prs r !! x.

Abbreviation com r := (raftLog_committed (raft_raftLog r)).

(** ** A leader at work

    It stays the leader of its term, and knows no more than before; what it
    announces is committed, and to others only as far as they have it. *)

Definition speaks r (x : Message) : Prop :=
  Message_GetType x ≠ MsgVote ∧
  (Message_GetType x = MsgApp → Message_GetTerm x = raft_Term r ∧ Message_GetCommit x = com r) ∧
  (log_wf (raft_raftLog r) → slice_of (log_view (raft_raftLog r)) x) ∧
  (Message_GetType x = MsgHeartbeat → Message_GetTerm x = raft_Term r ∧ Message_GetCommit x <= com r ∧
     ∃ mt, match_of r (Message_GetTo x) = Some mt ∧ Message_GetCommit x <= mt).

(** What is the same before and after. *)
Definition standing r := (raft_id r, raft_state r, raft_Term r, ProgressTracker_Config (raft_trk r), com r).

Definition steady r r' : Prop :=
  raft_state r = StateLeader →
  standing r' = standing r ∧ (∀ x, match_of r' x = match_of r x) ∧ log_same (raft_raftLog r) (raft_raftLog r') ∧
  (∃ new, raft_msgs r' = raft_msgs r ++ new ∧ Forall (speaks r) new) ∧
  (∃ new, raft_msgsAfterAppend r' = raft_msgsAfterAppend r ++ new ∧ Forall (fun m => ¬ is_ack m) new).

Lemma speaks_same r r' x :
  standing r' = standing r → (∀ x, match_of r' x = match_of r x) → log_same (raft_raftLog r) (raft_raftLog r') →
  speaks r' x → speaks r x.
Proof.
  intros [= _ _ Ht _ Hc] Hm Hl (? & Ha & Hsl & Hh). split_and!; [done|by rewrite <- Ht, <- Hc| |by rewrite <- Ht, <- Hc, <- Hm].
  intros W. destruct (Hl W) as (W' & V & _). rewrite <- V. auto.
Qed.

#[export] Instance steady_preorder : PreOrder steady.
Proof.
  split.
  - intros r _. split_and!; [done..|exists []; by rewrite app_nil_r|exists []; by rewrite app_nil_r].
  - intros r1 r2 r3 H1 H2 Hs. destruct (H1 Hs) as (St1 & M1 & G1 & (n1 & E1 & F1) & (a1 & L1 & A1)).
    destruct H2 as (St2 & M2 & G2 & (n2 & E2 & F2) & (a2 & L2 & A2)); [injection St1; congruence|].
    split_and!; [congruence|intros x; by rewrite M2, M1|by etrans| |].
    + exists (n1 ++ n2). rewrite E2, E1, app_assoc. split; [done|]. apply Forall_app. split; [done|].
      eapply Forall_impl; [exact F2|]. intros x. by apply speaks_same.
    + exists (a1 ++ a2). rewrite L2, L1, app_assoc. split; [done|]. by apply Forall_app.
Qed.

Lemma steady_nothing r r' :
  standing r' = standing r → (∀ x, match_of r' x = match_of r x) → log_same (raft_raftLog r) (raft_raftLog r') →
  raft_msgs r' = raft_msgs r → raft_msgsAfterAppend r' = raft_msgsAfterAppend r → steady r r'.
Proof.
  intros Hs Hm Hl Em El _. split_and!; [done..| |]; exists []; by rewrite app_nil_r.
Qed.

Lemma steady_modify f :
  (∀ r, standing (f r) = standing r ∧ raft_trk (f r) = raft_trk r ∧ raft_raftLog (f r) = raft_raftLog r ∧
    raft_msgs (f r) = raft_msgs r ∧ raft_msgsAfterAppend (f r) = raft_msgsAfterAppend r) → rel steady (modify f).
Proof.
  intros Hf. apply rel_modify. intros r. destruct (Hf r) as (? & Ht & Hl & ? & ?). apply steady_nothing; try done.
  - intros x. unfold match_of, prs. by rewrite Ht.
  - by rewrite Hl.
Qed.
Hint Extern 2 (rel steady (modify _)) => apply steady_modify; done : rel.

Lemma steady_send_at m r u r' :
  raft_send m r = Ok (u, r') → (is_ack m → False) →
  (raft_state r = StateLeader → ∀ x, filled (raft_id r) m x → Message_GetCommit x = Message_GetCommit m →
    (is_vote_type (Message_GetType m) = false → Message_GetType m ≠ MsgProp → Message_GetType m ≠ MsgReadIndex →
     Message_GetTerm x = raft_Term r) → speaks r x) → steady r r'.
Proof.
  intros (x & Hx & Hc & Ht & Hr)%send_exact Ha Hsp Hs.
  assert (¬ is_ack x) as Hax.
  { destruct Hx as (Et & _ & Er & _ & _ & [= Ei _ _]). intros (? & ? & ?). apply Ha. split_and!; congruence. }
  specialize (Hsp Hs x Hx Hc Ht). destruct Hr as [[_ ->]|(_ & _ & ->)].
  - split_and!; try done; [exists []; by rewrite app_nil_r|]. exists [x]. split; [done|]. by apply Forall_singleton.
  - split_and!; try done; [|exists []; by rewrite app_nil_r]. exists [x]. split; [done|]. by apply Forall_singleton.
Qed.

(** Messages that announce nothing. *)
Lemma steady_send m :
  match Message_GetType m with MsgApp | MsgHeartbeat | MsgVote | MsgAppResp => False | _ => True end →
  rel steady (raft_send m).
Proof.
  intros Hm r u r' E. eapply steady_send_at; [exact E|intros (Ht & _); by rewrite Ht in Hm|].
  intros _ x (Et & _) _ _. unfold speaks, slice_of. rewrite Et. split_and!.
  - intros Ht. by rewrite Ht in Hm.
  - intros Ht. by rewrite Ht in Hm.
  - intros _ Ht. by rewrite Ht in Hm.
  - intros Ht. by rewrite Ht in Hm.
Qed.
Hint Extern 1 (rel steady (raft_send _)) => apply steady_send; exact I : rel.

(** A progress that keeps its match index. *)
Lemma steady_put r id pr pr0 :
  prs r !! id = Some pr0 → Progress_Match pr = Progress_Match pr0 →
  steady r (set_raft_trk (set_ProgressTracker_Progress (<[id := pr]> (ProgressTracker_Progress (raft_trk r))) (raft_trk r)) r).
Proof.
  intros H0 Hm. apply steady_nothing; try done. intros x. unfold match_of, prs. cbn.
  destruct (decide (x = id)) as [->|]; [|by rewrite lookup_insert_ne by done].
  rewrite lookup_insert_eq. unfold prs in H0. rewrite H0. cbn. by rewrite Hm.
Qed.

Lemma get_pr_inv id r pr r' : get_pr id r = Ok (pr, r') → r' = r ∧ prs r !! id = Some pr.
Proof.
  unfold get_pr. intros E. run_inv E. injection E0 as <- <-. unfold prs. destruct (_ !! id); [|done]. by injection E as -> <-.
Qed.

Lemma steady_get_pr id : rel steady (get_pr id).
Proof. intros r pr r' (-> & _)%get_pr_inv. done. Qed.

Lemma steady_modify_pr id f : (∀ pr, Progress_Match (f pr) = Progress_Match pr) → rel steady (modify_pr id f).
Proof.
  intros Hf r u r' E. unfold modify_pr in E. run_inv E. apply get_pr_inv in E0 as [-> Hp]. injection E as _ <-. by eapply steady_put.
Qed.
Hint Resolve steady_get_pr : rel.
Hint Extern 1 (rel steady (modify_pr _ _)) => apply steady_modify_pr; done : rel.

Lemma BecomeProbe_match pr : Progress_Match (Progress_BecomeProbe pr) = Progress_Match pr.
Proof. unfold Progress_BecomeProbe. by destruct (ps_eqb _ _). Qed.

Lemma SentEntries_match n bytes pr pr' : Progress_SentEntries n bytes pr = Ok pr' → Progress_Match pr' = Progress_Match pr.
Proof.
  unfold Progress_SentEntries. destruct (Progress_State pr); [| |done].
  - destruct (_ <? _); by intros [= <-].
  - intros (p & E & [= <-])%bind_Ok. cbn. destruct (_ <? _); [|by injection E as <-]. by apply bind_Ok in E as (? & _ & [= <-]).
Qed.

Lemma MaybeDecrTo_match rej hint pr : Progress_Match (Progress_MaybeDecrTo rej hint pr).2 = Progress_Match pr.
Proof. unfold Progress_MaybeDecrTo. repeat case_match; done. Qed.

Lemma steady_maybeSendSnapshot to : rel steady (raft_maybeSendSnapshot to).
Proof.
  intros r b r' E. unfold raft_maybeSendSnapshot in E. run_inv E. apply get_pr_inv in E0 as [-> Hp].
  destruct (negb _) in E; [by injection E as _ <-|]. run_inv E. injection E0 as <- <-.
  destruct (raftLog_snapshot _) as [sn|[]]; try done; [|by injection E as _ <-]. destruct (IsEmptySnap _); [done|]. do 3 run_inv E.
  apply bind_Ok in E0 as (? & _ & [= <- <-]). injection E1 as _ <-. injection E as _ <-.
  etrans; [by apply (steady_put r to (Progress_BecomeSnapshot (snap_index (Some sn)) x) x)|].
  by eapply (steady_send (set_Message_Snapshot (Some sn) (Msg MsgSnap (Some to)))); [|exact E2].
Qed.

Lemma steady_maybeSendAppend to b : rel steady (raft_maybeSendAppend to b).
Proof.
  intros r v r' E. unfold raft_maybeSendAppend in E. run_inv E. apply get_pr_inv in E0 as [-> Hp].
  destruct (Progress_IsPaused x); [by injection E as _ <-|]. run_inv E. injection E0 as <- <-. run_inv E.
  apply bind_Ok in E0 as (t & Et & [= <- <-]). destruct t as [t|]; [|by eapply steady_maybeSendSnapshot]. run_inv E.
  assert (r0 = r ∧ ∀ ents, x0 = Val ents → log_wf (raft_raftLog r) → ents `prefix_of`
    drop (Z.to_nat (Progress_Next x -! 1 - log_base (raft_raftLog r))) (sl_ents (log_view (raft_raftLog r)))) as [-> He].
  { destruct (_ || _) in E0.
    - apply bind_Ok in E0 as (e & Ee & [= <- <-]). split; [done|]. intros ents -> Hw.
      eapply entries_slice; [done..|]. apply term_answer_inv; [done|apply sub64_u64|done].
    - injection E0 as <- <-. split; [done|]. intros ents [= <-] _. apply prefix_nil. }
  destruct (_ && _) in E; [by injection E as _ <-|]. destruct x0 as [ents|]; [|by eapply steady_maybeSendSnapshot].
  do 3 run_inv E. injection E as _ <-. apply bind_Ok in E2 as (pr & Epr & [= <- <-]). injection E3 as _ <-.
  etrans; [eapply steady_send_at; [exact E1|by intros (Ht & _)|]|].
  - intros _ y (Ety & _ & _ & _ & _ & [= Ei El Ee]) Hc Ht. unfold speaks. rewrite Ety. split_and!; try done.
    + intros _. split; [by apply Ht|exact Hc].
    + intros Hw _. rewrite Ei, El, Ee. split; [apply term_answer_inv; [done|apply sub64_u64|done]|]. by apply He.
  - apply send_effect in E1 as (y & _ & [(_ & ->)|(_ & _ & ->)]); (eapply steady_put; [exact Hp|]); by apply SentEntries_match in Epr.
Qed.
Hint Resolve steady_maybeSendAppend : rel.

Lemma steady_sendHeartbeat to ctx : rel steady (raft_sendHeartbeat to ctx).
Proof.
  intros r v r' E. unfold raft_sendHeartbeat in E. run_inv E. apply get_pr_inv in E0 as [-> Hp]. run_inv E. injection E0 as <- <-.
  run_inv E. injection E as _ <-. etrans; [eapply steady_send_at; [exact E0|by intros (Ht & _)|]|].
  - intros _ y (Et & Eto & _) Hc Ht. unfold speaks, slice_of. rewrite Et, Hc, Eto. split_and!; try done. intros _.
    split_and!; [by apply Ht|cbn; lia|]. exists (Progress_Match x). unfold match_of. cbn. rewrite Hp. split; [done|lia].
  - apply send_effect in E0 as (y & _ & [(_ & ->)|(_ & _ & ->)]); by (eapply steady_put; [exact Hp|]).
Qed.
Hint Resolve steady_sendHeartbeat : rel.

Lemma steady_bcastAppend : rel steady raft_bcastAppend.
Proof. unfold raft_bcastAppend, raft_sendAppend. rel_auto. Qed.

Lemma steady_bcastHeartbeatWithCtx ctx : rel steady (raft_bcastHeartbeatWithCtx ctx).
Proof. unfold raft_bcastHeartbeatWithCtx. rel_auto. Qed.

Lemma steady_sendAppend to : rel steady (raft_sendAppend to).
Proof. unfold raft_sendAppend. rel_auto. Qed.
Hint Resolve steady_bcastAppend steady_bcastHeartbeatWithCtx steady_sendAppend : rel.


(** *** Reads *)

Lemma steady_bcastHeartbeat : rel steady raft_bcastHeartbeat.
Proof. unfold raft_bcastHeartbeat. rel_auto. Qed.
Hint Resolve steady_bcastHeartbeat : rel.

Lemma read_resp_type req i r resp r' :
  raft_responseToReadIndexReq req i r = Ok (resp, r') → Message_GetTo resp ≠ None_id → Message_GetType resp = MsgReadIndexResp.
Proof.
  unfold raft_responseToReadIndexReq. intros E Hto. run_inv E. injection E0 as <- <-. destruct (_ || _) in E.
  - do 2 run_inv E. by injection E as <- <-.
  - by injection E as <- <-.
Qed.

Lemma steady_answer_read req i : rel steady (answer_read req i).
Proof.
  intros r u r' E. unfold answer_read in E. run_inv E. pose proof (read_resp_type _ _ _ _ _ E0) as Ht. trans r0.
  - clear E. lazymatch type of E0 with ?m _ = _ => assert (rel steady m) as Hm by (unfold raft_responseToReadIndexReq; rel_auto); by eapply Hm end.
  - destruct (Z.eqb_spec (Message_GetTo x) None_id); cbn in E; [by injection E as _ <-|].
    eapply (steady_send x); [|exact E]. by rewrite Ht.
Qed.
Hint Resolve steady_answer_read : rel.

Lemma steady_sendMsgReadIndexResponse m : rel steady (sendMsgReadIndexResponse m).
Proof. unfold sendMsgReadIndexResponse. rel_auto. Qed.
Hint Resolve steady_sendMsgReadIndexResponse : rel.

Lemma steady_releasePending : rel steady releasePendingReadIndexMessages.
Proof. unfold releasePendingReadIndexMessages, raft_committedEntryInCurrentTerm. rel_auto. Qed.

Lemma steady_send_all_loop n to : rel steady (send_all_loop n to).
Proof. induction n as [|n IH]; cbn [send_all_loop]; rel_auto. Qed.
Hint Resolve steady_releasePending steady_send_all_loop : rel.

(** ** Messages to a leader *)

Lemma steady_put_same id pr0 r u r' (pr : Progress) :
  prs r !! id = Some pr0 → Progress_Match pr = Progress_Match pr0 → put_pr id pr r = Ok (u, r') →
  steady r r' ∧ prs r' !! id = Some pr.
Proof.
  intros Hp Hm [= _ <-]. split; [by eapply steady_put|]. unfold prs. cbn. by rewrite lookup_insert_eq.
Qed.

Lemma steady_AppResp_reject m : rel steady (stepLeader_AppResp_reject m).
Proof.
  intros r u r' E. unfold stepLeader_AppResp_reject in E. run_inv E. injection E0 as <- <-. run_inv E.
  assert (r0 = r) as ->.
  { destruct (_ <? _) in E0; [run_inv E0; apply bind_Ok in E1 as (? & _ & [= <- <-]); by injection E0 as _ <-|by injection E0 as _ <-]. }
  run_inv E. apply get_pr_inv in E1 as [-> Hp]. pose proof (MaybeDecrTo_match (Message_GetIndex m) x x0) as Hm.
  destruct (Progress_MaybeDecrTo _ _ _) as [dec pr]. cbn in Hm. run_inv E. apply (steady_put_same _ x0) in E1 as [H1 Hp1]; [|done..].
  trans r0; [done|]. destruct dec; [|by injection E as _ <-]. run_inv E. trans r1; [|by eapply steady_sendAppend].
  destruct (ps_eqb _ _) in E1; cbn in E1; [|by injection E1 as _ <-]. eapply steady_put_same; [exact Hp1|apply BecomeProbe_match|exact E1].
Qed.

Lemma steady_AppResp_state m : rel steady (stepLeader_AppResp_state m).
Proof.
  intros r u r' E. unfold stepLeader_AppResp_state in E. run_inv E. apply get_pr_inv in E0 as [-> Hp].
  destruct (Progress_State x).
  - by eapply (steady_put_same _ x _ _ _ (Progress_BecomeReplicate x)).
  - run_inv E. apply bind_Ok in E0 as (ins & _ & [= <- <-]). by eapply (steady_put_same _ x _ _ _ (set_Progress_Inflights ins x)).
  - do 2 run_inv E. injection E0 as <- <-. apply bind_Ok in E1 as (? & _ & [= <- <-]). destruct (_ <=? _); [|by injection E as _ <-].
    eapply (steady_put_same _ x _ _ _ (Progress_BecomeReplicate (Progress_BecomeProbe x))); [done|apply (BecomeProbe_match x)|exact E].
Qed.

(** A leader learns that a node has the entries up to an index. *)
Definition learns (m : Message) r r' : Prop :=
  standing r' = standing r ∧ raft_raftLog r' = raft_raftLog r ∧ raft_msgs r' = raft_msgs r ∧
  raft_msgsAfterAppend r' = raft_msgsAfterAppend r ∧
  ∀ x n, match_of r' x = Some n → match_of r x = Some n ∨ x = Message_GetFrom m ∧ n = Message_GetIndex m ∧ 0 < n.

(** What is committed by the match indexes. *)
Definition counts r r' : Prop :=
  ∃ b l, raftLog_maybeCommit (mkentryID (raft_Term r) (ProgressTracker_Committed (raft_trk r))) (raft_raftLog r) = Ok (b, l) ∧
    r' = set_raft_raftLog l r.

Definition match_ok r : Prop := ∀ x n, match_of r x = Some n → 0 <= n.

Lemma AppResp_accept_cases m r u r' :
  stepLeader_AppResp_accept m r = Ok (u, r') → match_ok r →
  ∃ r1, learns m r r1 ∧ (steady r1 r' ∨ ∃ r2 r3, steady r1 r2 ∧ counts r2 r3 ∧ steady r3 r').
Proof.
  intros E Hk. unfold stepLeader_AppResp_accept in E. run_inv E. apply get_pr_inv in E0 as [-> Hp].
  destruct (Progress_MaybeUpdate _ _) as [upd pr] eqn:Eu. run_inv E. injection E0 as _ <-.
  lazymatch type of E with _ ?r1 = _ => exists r1 end. split.
  { split_and!; try done. intros y n. unfold match_of, prs. cbn. destruct (decide (y = Message_GetFrom m)) as [->|];
      [|rewrite lookup_insert_ne by done; by left]. rewrite lookup_insert_eq. cbn. intros [= <-]. revert Eu.
    unfold Progress_MaybeUpdate. zcase; intros [= _ <-].
    - left. unfold prs in Hp. by rewrite Hp.
    - right. cbn. split_and!; [done..|]. pose proof (Hk (Message_GetFrom m) (Progress_Match x)). unfold match_of in H1. rewrite Hp in H1.
      specialize (H1 eq_refl). lia. }
  destruct (_ || _) in E; [|injection E as _ <-; by left]. right. do 2 run_inv E. exists r0, r1.
  split; [by eapply steady_AppResp_state|]. split.
  { unfold raft_maybeCommit in E1. run_inv E1. injection E2 as <- <-. apply on_log_inv in E1 as (l & -> & El). by exists x2, l. }
  clear Hk. assert (∀ b, rel steady (r ← get; if Message_GetFrom m =? raft_leadTransferee r then pr ← get_pr (Message_GetFrom m);
      last ← lift (raftLog_lastIndex (raft_raftLog r)); if Progress_Match pr =? last then raft_sendTimeoutNow (Message_GetFrom m) else mret b
      else mret b)) as Hend by (intros b; unfold raft_sendTimeoutNow; rel_auto).
  run_inv E. injection E2 as <- <-. run_inv E. trans r2.
  { destruct x2; [rest_rel steady E2|]. destruct (negb _) in E2; [rest_rel steady E2|by injection E2 as _ <-]. }
  run_inv E. trans r3; [destruct (negb _) in E3; cbn in E3; [unfold send_all in E3; rest_rel steady E3|by injection E3 as _ <-]|].
  by eapply Hend.
Qed.

(** ** Steps that announce nothing

    No entries and no commit index are sent and no entry is acknowledged; a vote
    is asked for with the last entry of the log. *)

Definition asks r (x : Message) : Prop :=
  Message_GetType x ≠ MsgApp ∧ Message_GetType x ≠ MsgHeartbeat ∧
  (Message_GetType x = MsgVote → log_wf (raft_raftLog r) →
     Message_GetIndex x = log_last (raft_raftLog r) ∧
     slog_term (log_view (raft_raftLog r)) (log_last (raft_raftLog r)) = Some (Message_GetLogTerm x)).

Definition mute r r' : Prop :=
  (raft_state r' = StateLeader → standing r' = standing r ∧ ∀ x, match_of r' x = match_of r x) ∧
  com r' = com r ∧ log_same (raft_raftLog r) (raft_raftLog r') ∧
  (∃ new, raft_msgs r' = raft_msgs r ++ new ∧ Forall (asks r) new) ∧
  (∃ new, raft_msgsAfterAppend r' = raft_msgsAfterAppend r ++ new ∧ Forall (fun m => ¬ is_ack m) new).

Lemma asks_same r r' x : log_same (raft_raftLog r) (raft_raftLog r') → asks r' x → asks r x.
Proof.
  intros Hl (? & ? & Hv). split_and!; [done..|]. intros Ht W. destruct (Hl W) as (W' & V & _). rewrite <- V. auto.
Qed.

#[export] Instance mute_preorder : PreOrder mute.
Proof.
  split.
  - intros r. split_and!; [done..|exists []; by rewrite app_nil_r|exists []; by rewrite app_nil_r].
  - intros r1 r2 r3 (S1 & C1 & G1 & (n1 & E1 & F1) & (a1 & L1 & A1)) (S2 & C2 & G2 & (n2 & E2 & F2) & (a2 & L2 & A2)).
    split_and!; [|congruence|by etrans| |].
    + intros Hs. destruct (S2 Hs) as [St2 M2]. destruct S1 as [St1 M1]; [injection St2; congruence|].
      split; [congruence|]. intros x. by rewrite M2, M1.
    + exists (n1 ++ n2). rewrite E2, E1, app_assoc. split; [done|]. apply Forall_app. split; [done|].
      eapply Forall_impl; [exact F2|]. intros x. by apply asks_same.
    + exists (a1 ++ a2). rewrite L2, L1, app_assoc. split; [done|]. by apply Forall_app.
Qed.

Lemma mute_nothing r r' :
  (raft_state r' = StateLeader → standing r' = standing r ∧ ∀ x, match_of r' x = match_of r x) → com r' = com r →
  log_same (raft_raftLog r) (raft_raftLog r') →
  raft_msgs r' = raft_msgs r → raft_msgsAfterAppend r' = raft_msgsAfterAppend r → mute r r'.
Proof. intros Hs Hc Hl Em El. split_and!; [done..| |]; exists []; by rewrite app_nil_r. Qed.

Lemma mute_modify f :
  (∀ r, standing (f r) = standing r ∧ raft_trk (f r) = raft_trk r ∧ raft_raftLog (f r) = raft_raftLog r ∧
    raft_msgs (f r) = raft_msgs r ∧ raft_msgsAfterAppend (f r) = raft_msgsAfterAppend r) → rel mute (modify f).
Proof.
  intros Hf. apply rel_modify. intros r. destruct (Hf r) as (? & Ht & Hl & ? & ?). apply mute_nothing; try done.
  - intros _. split; [done|]. intros x. unfold match_of, prs. by rewrite Ht.
  - by rewrite Hl.
  - by rewrite Hl.
Qed.
Hint Extern 2 (rel mute (modify _)) => apply mute_modify; done : rel.

Lemma mute_send_at m r u r' :
  raft_send m r = Ok (u, r') → (is_ack m → False) → (∀ x, filled (raft_id r) m x → asks r x) → mute r r'.
Proof.
  intros (x & Hx & Hr)%send_effect Ha Has.
  assert (¬ is_ack x) as Hax.
  { destruct Hx as (Et & _ & Er & _ & _ & [= Ei _ _]). intros (? & ? & ?). apply Ha. split_and!; congruence. }
  specialize (Has x Hx). destruct Hr as [[_ ->]|(_ & _ & ->)].
  - split_and!; try done; [exists []; by rewrite app_nil_r|]. exists [x]. split; [done|]. by apply Forall_singleton.
  - split_and!; try done; [|exists []; by rewrite app_nil_r]. exists [x]. split; [done|]. by apply Forall_singleton.
Qed.

Lemma mute_send m :
  match Message_GetType m with MsgApp | MsgHeartbeat | MsgVote => False | MsgAppResp => Message_GetIndex m = 0 | _ => True end →
  rel mute (raft_send m).
Proof.
  intros Hm r u r' E. eapply mute_send_at; [exact E|intros (Ht & _ & ?); rewrite Ht in Hm; lia|].
  intros x (Et & _). unfold asks. rewrite Et. split_and!; intros Ht; by rewrite Ht in Hm.
Qed.
Hint Extern 1 (rel mute (raft_send _)) => apply mute_send; first [exact I|reflexivity] : rel.

(** A change of role. *)
Lemma mute_role r r' :
  raft_state r' ≠ StateLeader → raft_raftLog r' = raft_raftLog r → raft_msgs r' = raft_msgs r →
  raft_msgsAfterAppend r' = raft_msgsAfterAppend r → mute r r'.
Proof. intros Hs Hl ? ?. apply mute_nothing; try done; by rewrite Hl. Qed.

Lemma mute_becomeFollower term lead : rel mute (raft_becomeFollower term lead).
Proof.
  intros r u r' (_ & _ & _ & _ & L & M & A & St & _)%becomeFollower_effect.
  apply mute_role; [rewrite St; cbn; by destruct (_ =? _)|..]; rewrite ?L, ?M, ?A; cbn; by destruct (_ =? _).
Qed.

Lemma mute_becomePreCandidate : rel mute raft_becomePreCandidate.
Proof.
  intros r u r' E. unfold raft_becomePreCandidate in E. run_inv E. injection E0 as <- <-. destruct (st_eqb _ _); [done|].
  injection E as _ <-. by apply mute_role.
Qed.

Lemma mute_becomeCandidate : rel mute raft_becomeCandidate.
Proof.
  intros r u r' E. unfold raft_becomeCandidate in E. run_inv E. injection E0 as <- <-. destruct (st_eqb _ _); [done|].
  run_inv E. injection E0 as _ <-. run_inv E. apply reset_effect in E0 as [(_ & _ & _ & _ & L & M & A & _) _]. injection E as _ <-.
  apply mute_role; cbn in *; rewrite ?L, ?M, ?A; by destruct (_ =? _).
Qed.
Hint Resolve mute_becomeFollower mute_becomePreCandidate mute_becomeCandidate : rel.

Lemma mute_campaign_send t term vm id :
  vm = MsgPreVote ∨ vm = MsgVote → rel mute (campaign_send t term vm id).
Proof.
  intros Hv r u r' E. unfold campaign_send in E. run_inv E. injection E0 as <- <-. destruct (_ =? _); run_inv E.
  - apply bind_Ok in E0 as (resp & Er & [= <- <-]). eapply mute_send; [|exact E]. by destruct Hv as [-> | ->]; injection Er as <-.
  - apply bind_Ok in E0 as (id0 & Ei & [= <- <-]). eapply mute_send_at; [exact E|by intros (Ht & _); destruct Hv; subst|].
    intros x (Et & _ & _ & _ & _ & [= Hi Hl _]). unfold asks. rewrite Et. cbn.
    split_and!; [by destruct Hv as [-> | ->]..|]. intros _ W. destruct (lastEntryID_ok _ W) as (t0 & E0 & Ht0). rewrite Ei in E0.
    injection E0 as ->. cbn in Hi, Hl. rewrite Hi, Hl. done.
Qed.

Lemma mute_campaign t : rel mute (raft_campaign t).
Proof.
  intros r u r' E. unfold raft_campaign in E. run_inv E.
  assert (mute r r0 ∧ (x.2 = MsgPreVote ∨ x.2 = MsgVote)) as [Hq Hx].
  { destruct t; run_inv E0; run_inv E0; injection E2 as <- <-; injection E0 as <- <-;
      (split; [|by auto]); [by eapply mute_becomePreCandidate|by eapply mute_becomeCandidate..]. }
  trans r0; [done|]. run_inv E. injection E1 as <- <-. eapply rel_for_each in E; [exact E|apply _|].
  intros id. by apply mute_campaign_send.
Qed.
Hint Resolve mute_campaign : rel.

Lemma mute_hup t : rel mute (raft_hup t).
Proof. unfold raft_hup, raft_hasUnappliedConfChanges. rel_auto. Qed.
Hint Resolve mute_hup : rel.

Lemma mute_forward m :
  match Message_GetType m with MsgProp | MsgTransferLeader | MsgReadIndex => True | _ => False end → rel mute (forward_to_leader m).
Proof.
  intros Hm. unfold forward_to_leader. apply rel_get_bind. intros r u r' E. eapply mute_send; [|exact E].
  change (Message_GetType (set_Message_To _ m)) with (Message_GetType m). by destruct (Message_GetType m).
Qed.

Lemma mute_Step_Vote m : rel mute (Step_Vote m).
Proof.
  apply rel_get_bind. intros r u r' E. run_inv E. apply bind_Ok in E0 as (? & _ & [= <- <-]). run_inv E.
  assert (r0 = r) as -> by (destruct (_ || _ || _) in E0; [apply bind_Ok in E0 as (? & _ & [= _ <-])|injection E0 as _ <-]; done).
  run_inv E. apply bind_Ok in E1 as (resp & Eresp & [= <- <-]).
  assert (resp = MsgVoteResp ∨ resp = MsgPreVoteResp) as Hrs
    by (revert Eresp; unfold voteRespMsgType; destruct (Message_GetType m); try done; intros [= <-]; auto).
  destruct x.
  - run_inv E. trans r0; [|rest_rel mute E]. eapply mute_send; [|exact E1]. cbn. by destruct Hrs as [-> | ->].
  - eapply mute_send; [|exact E]. cbn. by destruct Hrs as [-> | ->].
Qed.

Lemma mute_CheckQuorum : rel mute stepLeader_CheckQuorum.
Proof.
  assert (∀ id, rel mute (modify_pr (S:=S) id (set_Progress_RecentActive false))) as Hp.
  { intros id r u r' E. unfold modify_pr in E. run_inv E. apply get_pr_inv in E0 as [-> Hp]. injection E as _ <-.
    apply mute_nothing; try done. intros _. split; [done|]. intros y. unfold match_of, prs. cbn.
    destruct (decide (y = id)) as [->|]; [|by rewrite lookup_insert_ne by done]. rewrite lookup_insert_eq. unfold prs in Hp. by rewrite Hp. }
  unfold stepLeader_CheckQuorum. rel_auto.
Qed.

(** ** The cases of a step *)

(** A follower of the term [t], with the log and the messages it had. *)
Definition joins (t : Z) r r' : Prop :=
  raft_id r' = raft_id r ∧ raft_state r' = StateFollower ∧ raft_Term r' = t ∧ raft_Term r <= t ∧
  raft_raftLog r' = raft_raftLog r ∧ raft_msgs r' = raft_msgs r ∧ raft_msgsAfterAppend r' = raft_msgsAfterAppend r ∧
  (raft_Term r = t ∧ raft_Vote r' = raft_Vote r ∨ raft_Term r < t ∧ raft_Vote r' = None_id).

Lemma joins_trans t r1 r2 r3 : joins t r1 r2 → joins t r2 r3 → joins t r1 r3.
Proof.
  intros (? & ? & ? & ? & ? & ? & ? & V1) (? & ? & ? & ? & ? & ? & ? & V2). split_and!; try congruence; try lia.
Qed.

Lemma joins_becomeFollower term lead r u r' :
  raft_becomeFollower term lead r = Ok (u, r') → raft_Term r <= term → joins term r r'.
Proof.
  intros (_ & I & T & V & L & M & A & St & _)%becomeFollower_effect Hle. unfold joins.
  rewrite I, T, V, L, M, A, St. cbn. zcase; cbn; split_and!; try done; [left; done|right; split; [lia|done]].
Qed.

(** What a leader's message makes of a follower. *)
Definition obeys (m : Message) r r' : Prop :=
  ∃ u, Message_GetType m = MsgApp ∧ raft_handleAppendEntries m r = Ok (u, r') ∨
       Message_GetType m = MsgHeartbeat ∧ raft_handleHeartbeat m r = Ok (u, r') ∨
       Message_GetType m = MsgSnap ∧ raft_handleSnapshot m r = Ok (u, r').

Inductive does (m : Message) r : raft S → Prop :=
| does_mute r' : mute r r' → does m r r'
| does_obey r0 r' : joins (Message_GetTerm m) r r0 → obeys m r0 r' → does m r r'
| does_lead r' : raft_state r = StateLeader → steady r r' → does m r r'
| does_learn r1 r2 r' : raft_state r = StateLeader → counted_now m r → Message_GetType m = MsgAppResp →
    Message_GetReject m = false → steady r r1 → learns m r1 r2 → steady r2 r' → does m r r'
| does_commit r1 r2 r3 r4 r' : raft_state r = StateLeader → counted_now m r → Message_GetType m = MsgAppResp →
    Message_GetReject m = false → steady r r1 → learns m r1 r2 → steady r2 r3 → counts r3 r4 → steady r4 r' → does m r r'
| does_append r0 r1 es ok r2 r' : raft_state r = StateLeader → mute r r0 → raft_state r0 = StateLeader →
    steady r0 r1 → raft_appendEntry es r1 = Ok (ok, r2) → steady r2 r' → len es <= len (Message_GetEntries m) + 1 → does m r r'
| does_win u r2 r' : wins m r → counted_now m r →
    raft_becomeLeader (set_raft_trk (ProgressTracker_RecordVote (Message_GetFrom m) (negb (Message_GetReject m)) (raft_trk r)) r) = Ok (u, r2) →
    steady r2 r' → does m r r'.

Lemma joins_hear m r u r' :
  hear_leader m r = Ok (u, r') → raft_state r = StateFollower → Message_GetTerm m = raft_Term r → joins (Message_GetTerm m) r r'.
Proof. intros [= _ <-] Hs Ht. rewrite Ht. split_and!; try done. by left. Qed.

Lemma stepFollower_does m r u r' :
  stepFollower m r = Ok (u, r') → raft_state r = StateFollower →
  (leader_msg (Message_GetType m) = true → Message_GetTerm m = raft_Term r) → does m r r'.
Proof.
  unfold stepFollower. intros E Hs Ht. run_inv E. injection E0 as <- <-.
  assert (∀ m', m' = m → match Message_GetType m with MsgProp | MsgTransferLeader | MsgReadIndex => True | _ => False end →
    rel mute (forward_to_leader (S:=S) m')) as Hf by (intros m' ->; by apply mute_forward).
  destruct (Message_GetType m) eqn:Hty; try (apply does_mute; by injection E as _ <-).
  all: try (apply does_mute; specialize (Hf m eq_refl I); rest_rel mute E).
  all: try (run_inv E; run_inv E; injection E as _ <-; apply (does_obey _ _ r0); [eapply joins_hear; [exact E0|done|by apply Ht]|];
    exists x0; rewrite Hty; auto).
  all: apply does_mute; rest_rel mute E.
Qed.

Lemma stepCandidate_vote_does m r u r' :
  stepCandidate_vote m r = Ok (u, r') → raft_state r ≠ StateLeader → raft_state r ≠ StateFollower →
  (raft_state r = StateCandidate → Message_GetType m = MsgVoteResp ∧ counted_now m r) → does m r r'.
Proof.
  unfold stepCandidate_vote. intros E Hl Hf Hty. run_inv E. apply poll_effect in E0 as [-> ->]. run_inv E. injection E0 as <- <-.
  set (r1 := set_raft_trk _ r) in *.
  assert (mute r r1) as Hm by (by apply mute_role).
  destruct ((ProgressTracker_TallyVotes _).2) eqn:Et.
  - injection E as _ <-. by apply does_mute.
  - apply does_mute. trans r1; [done|]. by eapply mute_becomeFollower.
  - unfold st_eqb in E. case_bool_decide as Hp; [apply does_mute; trans r1; [done|]; by eapply mute_campaign|]. run_inv E.
    assert (raft_state r = StateCandidate) as Hs by (cbn in Hp; by destruct (raft_state r)).
    destruct (Hty Hs) as [Ht Hn]. eapply does_win; [|exact Hn|exact E0|by eapply steady_bcastAppend]. split_and!; [done|done|]. exact Et.
Qed.

Lemma stepCandidate_does m r u r' :
  stepCandidate m r = Ok (u, r') → raft_state r ≠ StateLeader → raft_state r ≠ StateFollower → counted_now m r →
  (leader_msg (Message_GetType m) = true → Message_GetTerm m = raft_Term r) → does m r r'.
Proof.
  unfold stepCandidate. intros E Hl Hf Hn Ht. run_inv E. injection E0 as <- <-.
  destruct (Message_GetType m) eqn:Hty; try (apply does_mute; by injection E as _ <-).
  all: try (run_inv E; run_inv E; injection E as _ <-; apply (does_obey _ _ r0);
    [eapply joins_becomeFollower; [exact E0|by rewrite Ht]|]; exists x0; rewrite Hty; by auto).
  - unfold st_eqb in E. case_bool_decide; [injection E as _ <-; by apply does_mute|]. run_inv E. injection E as _ <-.
    by eapply stepCandidate_vote_does.
  - unfold st_eqb in E. case_bool_decide; [|injection E as _ <-; by apply does_mute]. run_inv E. injection E as _ <-.
    eapply stepCandidate_vote_does; [done..|]. congruence.
Qed.

Lemma steady_check_prop_entries i es : rel steady (check_prop_entries i es).
Proof. revert i. induction es as [|e es IH]; intros i; cbn [check_prop_entries]; unfold check_prop_entry; rel_auto. Qed.

Lemma check_prop_entries_len i es r es' r' : check_prop_entries i es r = Ok (es', r') → len es' = len es.
Proof. intros E. by apply quiet_check_prop_entries in E as (_ & _ & ?). Qed.

Lemma stepLeader_Prop_does m0 m r0 u r' r :
  stepLeader_Prop m r0 = Ok (u, r') → raft_state r = StateLeader → mute r r0 → raft_state r0 = StateLeader →
  len (Message_GetEntries m) <= len (Message_GetEntries m0) + 1 → does m0 r r'.
Proof.
  unfold stepLeader_Prop. intros E Hs Hm Hs0 Hlen. run_inv E. injection E0 as <- <-. destruct (_ =? 0); [done|].
  destruct (_ !! raft_id r0); [|injection E as _ <-; by apply does_mute].
  destruct (negb _) in E; [injection E as _ <-; by apply does_mute|]. do 2 run_inv E.
  eapply (does_append _ _ r0 r1); [done|done|done| |exact E1| |].
  - by eapply steady_check_prop_entries.
  - destruct (negb _) in E; rest_rel steady E.
  - apply check_prop_entries_len in E0. lia.
Qed.

Lemma with_sender_does m (k : RM S unit) r u r' :
  with_sender m k r = Ok (u, r') → (∀ v r', k r = Ok (v, r') → does m r r') → does m r r'.
Proof.
  unfold with_sender. intros E Hk. run_inv E. injection E0 as <- <-. destruct (_ !! _); [|injection E as _ <-; by apply does_mute].
  run_inv E. injection E as _ <-. by eapply Hk.
Qed.

Lemma stepLeader_does m r u r' :
  stepLeader m r = Ok (u, r') → raft_state r = StateLeader → match_ok r → counted_now m r → does m r r'.
Proof.
  unfold stepLeader. intros E Hs Hk Hn.
  destruct (Message_GetType m) eqn:Hty; try (apply does_mute; by injection E as _ <-).
  all: try (apply does_lead; [done|]; rest_rel steady E).
  all: try (eapply with_sender_does; [exact E|]; clear E; intros v r1 E).
  all: try (run_inv E; injection E as _ <-).
  - eapply (stepLeader_Prop_does m m r); [exact E|done|done|done|lia].
  - unfold stepLeader_AppResp in E. run_inv E. assert (steady r r0) as H0 by (by eapply steady_modify_pr; [|exact E0]).
    assert (match_ok r0) as Hk0 by (intros y n Hy; destruct (H0 Hs) as (_ & Hm & _); rewrite Hm in Hy; by eapply Hk).
    destruct (Message_GetReject m) eqn:Hrej.
    + apply does_lead; [done|]. trans r0; [done|]. by eapply steady_AppResp_reject.
    + apply AppResp_accept_cases in E as (r2 & Hl & [Hst|(r3 & r4 & Hs3 & Hc & Hs4)]); [| |done].
      * by eapply does_learn.
      * by eapply does_commit.
  - apply does_lead; [done|]. unfold stepLeader_HeartbeatResp in E. rest_rel steady E.
  - apply does_lead; [done|]. unfold stepLeader_Unreachable in E. run_inv E. apply get_pr_inv in E0 as [-> Hp].
    destruct (ps_eqb _ _) in E; [|by injection E as _ <-]. eapply steady_put_same; [exact Hp|apply BecomeProbe_match|exact E].
  - apply does_lead; [done|]. unfold stepLeader_SnapStatus in E. run_inv E. apply get_pr_inv in E0 as [-> Hp].
    destruct (Progress_State x); try by injection E as _ <-. eapply steady_put_same; [exact Hp| |exact E].
    destruct (negb _); cbn; [apply BecomeProbe_match|apply (BecomeProbe_match (set_Progress_PendingSnapshot 0 x))].
  - apply does_mute. by eapply mute_CheckQuorum.
  - apply does_lead; [done|]. unfold stepLeader_TransferLeader, raft_abortLeaderTransfer, raft_sendTimeoutNow in E. rest_rel steady E.
  - apply does_lead; [done|]. unfold stepLeader_ReadIndex, raft_committedEntryInCurrentTerm in E0. rest_rel steady E0.
Qed.

(** *** Applied entries and the storage *)

Definition prop_rec (rec : Message → RM S (option error)) : Prop :=
  ∀ r u r', rec (confChangeToMsg None) r = Ok (u, r') → raft_step r = stepLeader_f →
    stepLeader_Prop (confChangeToMsg None) r = Ok (u, r').

Lemma prop_rec_Step rec : prop_rec (Step_with rec).
Proof.
  intros r u r' E Hs. revert E. unfold confChangeToMsg. destruct (MarshalConfChange None) as [typ data]. intros E.
  unfold Step_with in E. run_inv E. injection E0 as <- <-. cbn [Message_GetTerm set_Message_Entries] in E.
  unfold Step_dispatch in E. run_inv E. injection E0 as <- <-. rewrite Hs in E. exact E.
Qed.

Lemma confChangeToMsg_len c : len (Message_GetEntries (confChangeToMsg c)) = 1.
Proof. unfold confChangeToMsg. by destruct (MarshalConfChange c). Qed.

Lemma appliedTo_com i n l l' : raftLog_appliedTo i n l = Ok l' → raftLog_committed l' = raftLog_committed l.
Proof. unfold raftLog_appliedTo. destruct (_ || _); [done|]. intros [= <-]. by destruct (_ <? _). Qed.

Lemma mute_log r l : log_same (raft_raftLog r) l → raftLog_committed l = com r → mute r (set_raft_raftLog l r).
Proof. intros Hl Hc. apply mute_nothing; try done. intros _. split; [|done]. unfold standing. cbn. by rewrite Hc. Qed.

Lemma does_more m r r1 r2 : does m r r1 → leader_msg (Message_GetType m) = false → mute r1 r2 → steady r1 r2 → does m r r2.
Proof.
  intros Hd Hl Hm Hs. destruct Hd as [r1 H1|r0 r1 _ Ho|r1 ? H1|ra rb r1 ? ? ? ? ? ? H1|ra rb rc rd r1 ? ? ? ? ? ? ? ? H1|ra rb es ok rc r1 ? ? ? ? ? H1 ?|u rb r1 ? ? ? H1].
  - apply does_mute. by etrans.
  - exfalso. destruct Ho as (u & [[Ht _]|[[Ht _]|[Ht _]]]); by rewrite Ht in Hl.
  - apply does_lead; [done|by etrans].
  - eapply does_learn; [done..|]. by etrans.
  - eapply does_commit; [done..|]. by etrans.
  - eapply does_append; [done..| |done]. by etrans.
  - eapply does_win; [done..|]. by etrans.
Qed.

Lemma appliedTo_does rec m i n r r1 u r' :
  prop_rec rec → raft_appliedTo_with rec i n r1 = Ok (u, r') → coherent r1 → mute r r1 → does m r r'.
Proof.
  intros Hrec E Hc Hm. unfold raft_appliedTo_with in E. run_inv E. injection E0 as <- <-. run_inv E.
  apply on_log__inv in E0 as (l & -> & El).
  assert (mute r (set_raft_raftLog l r1)) as Hm1.
  { trans r1; [done|]. apply mute_log; [|by eapply appliedTo_com]. eapply appliedTo_same; [exact El|]. lia. }
  run_inv E. injection E0 as <- <-. destruct (_ && _ && _) eqn:Hb; [|injection E as _ <-; by apply does_mute].
  apply andb_true_iff in Hb as [_ Hs]. unfold st_eqb in Hs. apply bool_decide_eq_true in Hs. cbn in Hs.
  run_inv E. injection E as _ <-.
  assert (raft_step r1 = stepLeader_f) as Hst by (unfold coherent in Hc; rewrite Hs in Hc; by destruct Hc).
  specialize (Hrec _ _ _ E0 Hst).
  assert (raft_state r = StateLeader) as Hsr by (destruct Hm1 as (Hl & _); destruct (Hl Hs) as ([= _ ? _ _ _] & _); cbn in *; congruence).
  eapply stepLeader_Prop_does; [exact Hrec|done..|]. rewrite confChangeToMsg_len. pose proof (len_nonneg (Message_GetEntries m)). lia.
Qed.

Lemma ApplyResp_does rec m r u r' :
  prop_rec rec → Step_StorageApplyResp rec m r = Ok (u, r') → coherent r → Message_GetType m = MsgStorageApplyResp → does m r r'.
Proof.
  intros Hrec E Hc Hty. unfold Step_StorageApplyResp in E. destruct (last _); [|injection E as _ <-; by apply does_mute].
  run_inv E. eapply does_more; [by eapply appliedTo_does|by rewrite Hty|..]; unfold raft_reduceUncommittedSize in E;
    [rest_rel mute E|rest_rel steady E].
Qed.

Lemma appliedSnap_does rec m s r r1 u r' :
  prop_rec rec → raft_appliedSnap_with rec s r1 = Ok (u, r') → coherent r → Message_GetSnapshot m = Some s →
  (∃ l, r1 = set_raft_raftLog l r ∧ log_same (raft_raftLog r) (with_snap m l) ∧ raftLog_committed l = com r) → does m r r'.
Proof.
  intros Hrec E Hc Hs (l & -> & Hl & Hcom). unfold with_snap in Hl. rewrite Hs in Hl. unfold raft_appliedSnap_with in E. run_inv E.
  injection E0 as _ <-. eapply appliedTo_does; [done|exact E|exact (roles_coherent r _ eq_refl Hc)|].
  lazymatch goal with |- mute r ?r1 => change r1 with (set_raft_raftLog (raftLog_stableSnapTo (snap_index (Some s)) l) r) end.
  by apply mute_log.
Qed.

Lemma AppendResp_does rec m r u r' :
  prop_rec rec → ack_ok m (raft_raftLog r) → coherent r → Step_StorageAppendResp rec m r = Ok (u, r') → does m r r'.
Proof.
  intros Hrec [Hs Hst] Hc E. unfold Step_StorageAppendResp in E. run_inv E.
  assert (∃ l, r0 = set_raft_raftLog l r ∧ log_same (raft_raftLog r) (with_snap m l) ∧ raftLog_committed l = com r) as Hl.
  { destruct (Z.eqb_spec (Message_GetIndex m) 0); cbn in E0.
    - injection E0 as _ <-. exists (raft_raftLog r). by rewrite set_same_log.
    - apply on_log__inv in E0 as (l & -> & El). exists l. split_and!; [done|auto|]. revert El. unfold raftLog_stableTo.
      by intros (? & _ & [= <-])%bind_Ok. }
  destruct (Message_GetSnapshot m) as [s|] eqn:Es; [by eapply appliedSnap_does|].
  injection E as _ <-. destruct Hl as (l & -> & Hl & Hcom). unfold with_snap in Hl. rewrite Es in Hl. apply does_mute. by apply mute_log.
Qed.

(** *** Step *)

Lemma dispatch_does rec m r u r' :
  prop_rec rec → Step_dispatch rec m r = Ok (u, r') → coherent r → (raft_state r = StateLeader → match_ok r) → counted_now m r →
  (leader_msg (Message_GetType m) = true → Message_GetTerm m = raft_Term r) →
  (Message_GetType m = MsgStorageAppendResp → ack_ok m (raft_raftLog r)) → does m r r'.
Proof.
  intros Hrec E Hc Hk Hn Hl Hack. unfold Step_dispatch in E. run_inv E. injection E0 as <- <-.
  assert (run_step (raft_step r) m r = Ok (u, r') → does m r r') as Hrun.
  { clear E. intros E. pose proof Hc as Hc'. unfold coherent in Hc'. destruct (raft_step r) eqn:Hs; cbn [run_step] in E.
    - eapply stepFollower_does; [exact E|by apply coherent_follower|done].
    - eapply stepCandidate_does; [exact E| | |done|done]; intros Hst; rewrite Hst in Hc'; destruct Hc'; congruence.
    - assert (raft_state r = StateLeader) as Hsl by (destruct (raft_state r); naive_solver congruence).
      eapply stepLeader_does; [exact E|done|auto|done]. }
  destruct (Message_GetType m) eqn:Hty; try (by apply Hrun); run_inv E; injection E as _ <-.
  - apply does_mute. by eapply mute_hup.
  - apply does_mute. by eapply mute_Step_Vote.
  - apply does_mute. by eapply mute_Step_Vote.
  - eapply AppendResp_does; eauto.
  - by eapply ApplyResp_does.
Qed.

Lemma higher_term_cases m r b r' :
  Step_higher_term m r = Ok (b, r') → raft_Term r < Message_GetTerm m →
  r' = r ∧ (b = false ∨ Message_GetType m = MsgPreVote ∨ Message_GetType m = MsgPreVoteResp) ∨ joins (Message_GetTerm m) r r'.
Proof.
  unfold Step_higher_term. intros E Hlt. run_inv E. injection E0 as <- <-.
  assert (∀ lead, (_ ← raft_becomeFollower (Message_GetTerm m) lead; mret true) r = Ok (b, r') → joins (Message_GetTerm m) r r') as Hf.
  { intros lead E'. run_inv E'. injection E' as _ <-. eapply joins_becomeFollower; [exact E0|lia]. }
  cbn zeta in E. destruct (_ && (_ && _)) in E.
  { run_inv E. apply bind_Ok in E0 as (? & _ & [= <- <-]). injection E as <- <-. left. auto. }
  destruct (mt_eqb_spec (Message_GetType m) MsgPreVote) in E; [injection E as <- <-; left; auto|].
  destruct (mt_eqb_spec (Message_GetType m) MsgPreVoteResp) in E; cbn [andb] in E.
  - destruct (negb _) in E; [injection E as <- <-; left; auto|]. right. destruct (_ || _ || _) in E; by eapply Hf.
  - right. destruct (_ || _ || _) in E; by eapply Hf.
Qed.

Lemma joins_mute t r r' : joins t r r' → mute r r'.
Proof. intros (_ & Hs & _ & _ & ? & ? & ? & _). apply mute_role; try done. by rewrite Hs. Qed.

Lemma lower_term_does rec m r u r' :
  prop_rec rec → Step_lower_term rec m r = Ok (u, r') → coherent r →
  (Message_GetType m = MsgStorageAppendResp → ack_ok m (raft_raftLog r)) → does m r r'.
Proof.
  unfold Step_lower_term. intros Hrec E Hc Hack. run_inv E. injection E0 as <- <-.
  destruct (_ && _) in E; [apply does_mute; rest_rel mute E|]. destruct (mt_eqb _ MsgPreVote) in E; [apply does_mute; rest_rel mute E|].
  destruct (mt_eqb_spec (Message_GetType m) MsgStorageAppendResp) as [Ht|Ht] in E; [|apply does_mute; by injection E as _ <-].
  destruct (Message_GetSnapshot m) as [s|] eqn:Es; [|apply does_mute; by injection E as _ <-]. destruct (Hack Ht) as [Hs _].
  eapply appliedSnap_does; [done..|]. exists (raft_raftLog r). by rewrite set_same_log.
Qed.

(** What a step does. *)
Lemma Step_does m r u r' :
  raft_Step m r = Ok (u, r') → coherent r → msg_wf m → (raft_state r = StateLeader → match_ok r) →
  (Message_GetType m = MsgStorageAppendResp → ack_ok m (raft_raftLog r)) → does m r r'.
Proof.
  intros E Hc [Hwf Hlm] Hk Hack. unfold raft_Step, Step_with at 1 in E. run_inv E. injection E0 as <- <-.
  pose proof (prop_rec_Step (fun _ => panic "unreachable")) as Hrec.
  destruct (Z.eqb_spec (Message_GetTerm m) 0) as [H0|H0].
  { eapply dispatch_does; [done..|by left| |done]. intros Hl. by destruct (Hlm Hl). }
  destruct (Z.ltb_spec (raft_Term r) (Message_GetTerm m)) as [Hlt|Hge].
  - run_inv E. pose proof (higher_term_quiet _ _ _ _ E0) as [Hcq _]. apply higher_term_cases in E0 as [[-> Hx]|Hj]; [| |done].
    + destruct x; [|injection E as _ <-; by apply does_mute]. destruct Hx as [?|Hx]; [done|].
      unfold Step_dispatch in E. run_inv E. injection E0 as <- <-. destruct Hx as [Hx|Hx]; rewrite Hx in E.
      * run_inv E. injection E as _ <-. apply does_mute. by eapply mute_Step_Vote.
      * destruct (raft_step r) eqn:Hs; cbn [run_step] in E; unfold stepFollower, stepCandidate, stepLeader in E; rewrite Hx in E.
        -- run_inv E. injection E0 as <- <-. injection E as _ <-. by apply does_mute.
        -- run_inv E. injection E0 as <- <-. unfold st_eqb in E. case_bool_decide as Hp; [|injection E as _ <-; by apply does_mute].
           run_inv E. injection E as _ <-. eapply stepCandidate_vote_does; [exact E0|by rewrite Hp..|congruence].
        -- injection E as _ <-. by apply does_mute.
    + destruct x; [|injection E as _ <-; apply does_mute; by eapply joins_mute].
      assert (raft_state r0 = StateFollower ∧ raft_Term r0 = Message_GetTerm m) as [Hs0 Ht0] by (by destruct Hj as (_ & ? & ? & _)).
      apply dispatch_does in E; [|done|auto|congruence|by right|done|destruct Hj as (_ & _ & _ & _ & -> & _); done].
      destruct E as [r1 H1|ra r1 H1 Ho|r1 ? H1|ra rb r1 ? ? ? ? ? ? H1|ra rb rc rd r1 ? ? ? ? ? ? ? ? H1|ra rb es ok rc r1 ? ? ? ? ? H1 ?|v rb r1 Hw ? ? H1];
        try congruence.
      * apply does_mute. etrans; [by eapply joins_mute|done].
      * eapply does_obey; [by eapply joins_trans|done].
      * destruct Hw as (_ & ? & _). congruence.
  - destruct (Z.ltb_spec (Message_GetTerm m) (raft_Term r)).
    + run_inv E. injection E as _ <-. by eapply lower_term_does.
    + eapply dispatch_does; [done..|right; lia|intros _; lia|done].
Qed.

(** *** The clock *)

Lemma clock_dispatch m r u r' :
  raft_Step m r = Ok (u, r') → Message_GetTerm m = 0 →
  Step_dispatch (Step_with (fun _ => panic "unreachable")) m r = Ok (u, r').
Proof. intros E Ht. unfold raft_Step, Step_with at 1 in E. run_inv E. injection E0 as <- <-. by rewrite Ht in E. Qed.

Lemma mute_clock id t : t = MsgHup ∨ t = MsgCheckQuorum →
  rel mute (raft_Step (S:=S) (set_Message_From (Some id) (set_Message_Type (Some t) Message0))).
Proof.
  intros Ht r u r' E. apply clock_dispatch in E; [|done]. unfold Step_dispatch in E. run_inv E. injection E0 as <- <-.
  destruct Ht as [-> | ->]; cbn in E.
  - run_inv E. injection E as _ <-. by eapply mute_hup.
  - destruct (raft_step r); cbn in E; [unfold stepFollower in E|unfold stepCandidate in E|unfold stepLeader in E]; cbn in E.
    + run_inv E. injection E0 as <- <-. by injection E as _ <-.
    + run_inv E. injection E0 as <- <-. by injection E as _ <-.
    + run_inv E. injection E as _ <-. by eapply mute_CheckQuorum.
Qed.

Lemma steady_beat id :
  rel steady (raft_Step (S:=S) (set_Message_From (Some id) (set_Message_Type (Some MsgBeat) Message0))).
Proof.
  intros r u r' E. apply clock_dispatch in E; [|done]. unfold Step_dispatch in E. run_inv E. injection E0 as <- <-. cbn in E.
  destruct (raft_step r); cbn in E; [unfold stepFollower in E|unfold stepCandidate in E|unfold stepLeader in E]; cbn in E.
  - run_inv E. injection E0 as <- <-. by injection E as _ <-.
  - run_inv E. injection E0 as <- <-. by injection E as _ <-.
  - run_inv E. injection E as _ <-. by eapply steady_bcastHeartbeat.
Qed.

Lemma tick_does r u r' :
  raft_run_tick r = Ok (u, r') → ∃ r1, mute r r1 ∧ (r' = r1 ∨ raft_state r1 = StateLeader ∧ steady r1 r').
Proof.
  unfold raft_run_tick. intros E. run_inv E. injection E0 as <- <-.
  assert (∀ id t, t = MsgHup ∨ t = MsgCheckQuorum →
    rel mute (raft_Step (S:=S) (set_Message_From (Some id) (set_Message_Type (Some t) Message0)))) as Hc by (by intros; apply mute_clock).
  destruct (raft_tick r).
  - exists r'. split; [|by left]. unfold raft_tickElection in E. pose proof (fun id => Hc id MsgHup (or_introl eq_refl)) as Hh. rest_rel mute E.
  - unfold raft_tickHeartbeat in E. pose proof (fun id => Hc id MsgCheckQuorum (or_intror eq_refl)) as Hq. do 4 run_inv E.
    assert (mute r r3) as Hm.
    { trans r2; [injection E0 as _ <-; injection E1 as _ <-; injection E2 as <- <-; by apply mute_nothing|].
      unfold raft_abortLeaderTransfer in E3. rest_rel mute E3. }
    run_inv E. injection E4 as <- <-. exists r3. split; [done|]. unfold st_eqb in E. case_bool_decide as Hs; cbn in E; [|injection E as _ <-; by left].
    right. split; [done|]. pose proof steady_beat as Hb. destruct (_ <=? _) in E; rest_rel steady E.
Qed.

End says.
