(* ===== verification/LogTree.v ===== *)
(** * Logs as paths of one tree

    All the logs of a cluster and the slices that travel between its nodes are
    paths of one growing tree.  A node of the tree is an index and a term; it
    holds the entry and the term of its predecessor, so that a position
    determines everything before it.  This is the invariant behind the Log
    Matching property of src/raft.go and src/log.go. *)
From S2P Require Import Prelude Proto Util Storage Unstable Log Raft RaftStep RaftInv.

Abbreviation tree := (gmap (Z * Z) (Entry * Z)).

Implicit Types (H : tree) (g : slog).

(** Every entry of [g] is in the tree, after the entry before it. *)
Definition slog_path H g : Prop :=
  ∀ i e, slog_at g i = Some e →
    Entry_GetIndex e = i ∧ ∃ tp, slog_term g (i - 1) = Some tp ∧ H !! (i, Entry_GetTerm e) = Some (e, tp).

(** The slice that an append message carries. *)
Definition msg_slog (m : Message) : slog :=
  mkslog (Message_GetIndex m) (Message_GetLogTerm m) (Message_GetEntries m).

Definition msg_path H (m : Message) : Prop :=
  Message_GetType m = MsgApp → 0 <= Message_GetIndex m ∧ slog_path H (msg_slog m).

Lemma slog_path_mono H H' g : H ⊆ H' → slog_path H g → slog_path H' g.
Proof.
  intros Hs Hp i e Hi. destruct (Hp i e Hi) as (? & tp & ? & ?). split; [done|]. exists tp. split; [done|].
  by eapply lookup_weaken.
Qed.

Lemma msg_path_mono H H' m : H ⊆ H' → msg_path H m → msg_path H' m.
Proof. intros Hs Hp Ht. destruct (Hp Ht). split; [done|by eapply slog_path_mono]. Qed.

Lemma slog_path_nil H g : sl_ents g = [] → slog_path H g.
Proof. intros E i e. unfold slog_at. rewrite E. by destruct (_ <? _). Qed.

(** ** Positions *)

Lemma slog_at_inv g i e : slog_at g i = Some e → sl_base g < i <= slog_last g ∧ slog_term g i = Some (Entry_GetTerm e).
Proof.
  unfold slog_at, slog_term, slog_last, len. zcase; [|done]. intros E. pose proof (lookup_lt_Some _ _ _ E).
  split; [lia|]. repeat zcase; try lia. by rewrite E.
Qed.

Lemma slog_at_term g i t : slog_term g i = Some t → sl_base g < i → ∃ e, slog_at g i = Some e ∧ Entry_GetTerm e = t.
Proof.
  unfold slog_term, slog_at. intros E Hi. rewrite (proj2 (Z.ltb_lt _ _)) by lia. revert E. repeat zcase; try lia.
  destruct (sl_ents g !! _) as [e|]; [|done]. intros [= <-]. by exists e.
Qed.

Lemma slog_path_contiguous H g : slog_path H g → contiguous (sl_base g) (sl_ents g).
Proof.
  intros Hp k e He. destruct (Hp (sl_base g + 1 + Z.of_nat k) e) as [Hi _]; [|done].
  unfold slog_at. rewrite (proj2 (Z.ltb_lt _ _)) by lia. replace (Z.to_nat _) with k by lia. done.
Qed.

(** ** Log matching *)

(** Two paths that meet in an entry agree below it. *)
Lemma paths_match H g1 g2 i e1 e2 :
  slog_path H g1 → slog_path H g2 → slog_at g1 i = Some e1 → slog_at g2 i = Some e2 →
  Entry_GetTerm e1 = Entry_GetTerm e2 →
  ∀ j, sl_base g1 < j → sl_base g2 < j → j <= i → slog_at g1 j = slog_at g2 j.
Proof.
  intros P1 P2 E1 E2 Et j B1 B2 Hj. remember (Z.to_nat (i - j)) as n eqn:Hn.
  revert i e1 e2 E1 E2 Et Hj Hn. induction n as [|n IH]; intros i e1 e2 E1 E2 Et Hj Hn;
    destruct (P1 _ _ E1) as (_ & t1 & T1 & H1); destruct (P2 _ _ E2) as (_ & t2 & T2 & H2);
    rewrite Et, H2 in H1; injection H1 as -> ->.
  - replace j with i by lia. congruence.
  - destruct (slog_at_term _ _ _ T1) as (f1 & F1 & Q1); [lia|]. destruct (slog_at_term _ _ _ T2) as (f2 & F2 & Q2); [lia|].
    apply (IH (i - 1) f1 f2); [done|done|congruence|lia|lia].
Qed.

(** ** Slices, splices and extensions *)

Lemma slice_path H g m : slog_wf g → slog_path H g → slice_of g m → msg_path H m.
Proof.
  intros (Hb & _) Hp Hs Ht. destruct (Hs Ht) as [Hm [k Hk]]. pose proof (slog_term_bounds _ _ _ Hm) as Hbd. split; [lia|].
  assert (∀ i e, slog_at (msg_slog m) i = Some e → slog_at g i = Some e) as Hat.
  { intros i e. unfold slog_at. cbn. zcase; [|done]. intros He. rewrite (proj2 (Z.ltb_lt _ _)) by lia.
    assert (drop (Z.to_nat (Message_GetIndex m - sl_base g)) (sl_ents g) !! Z.to_nat (i - Message_GetIndex m - 1) = Some e) as Hd.
    { rewrite Hk. apply lookup_app_l_Some. done. }
    rewrite lookup_drop in Hd. rewrite <- Hd. f_equal. lia. }
  intros i e He. destruct (Hp i e (Hat _ _ He)) as (? & tp & Htp & ?). split; [done|]. exists tp. split; [|done].
  apply slog_at_inv in He as [Hi _]. cbn [sl_base msg_slog] in Hi.
  destruct (decide (i - 1 = Message_GetIndex m)) as [Ei|].
  - rewrite Ei in *. unfold slog_term. cbn. repeat zcase; try lia. congruence.
  - destruct (slog_term_some (msg_slog m) (i - 1)) as [t' Ht']; [cbn [sl_base msg_slog]; lia|]. rewrite Ht'. f_equal.
    apply slog_at_term in Ht' as (f & Hf & <-); [|cbn; lia]. apply Hat, slog_at_inv in Hf as [_ Hf]. congruence.
Qed.

(** A splice follows the log, then the slice. *)
Lemma splice_path H g (m : Message) k g' :
  slog_path H g → slog_path H (msg_slog m) →
  spliced g (Message_GetIndex m) (Message_GetLogTerm m) (Message_GetEntries m) k g' → slog_path H g'.
Proof.
  intros Pg Pm (Hm & Hag & Hk & Hkl & ->). pose proof (slog_term_bounds _ _ _ Hm) as Hb.
  set (p := Message_GetIndex m) in *. set (ents := Message_GetEntries m) in *. set (q := p + Z.of_nat k) in *.
  assert (slog_append g q (drop k ents) = mkslog (sl_base g) (sl_term g) (take (Z.to_nat (q - sl_base g)) (sl_ents g) ++ drop k ents)) as ->.
  { unfold slog_append, len. rewrite length_drop. zcase; [lia|]. replace (Z.to_nat (sl_base g - q)) with 0%nat by lia.
    rewrite drop_0, Z.max_l by lia. done. }
  set (g' := mkslog _ _ _). assert (length (take (Z.to_nat (q - sl_base g)) (sl_ents g)) = Z.to_nat (q - sl_base g)) as Hlen.
  { rewrite length_take. unfold slog_last, len in Hkl. lia. }
  assert (∀ i, i <= q → slog_term g' i = slog_term g i) as Hlow.
  { intros i Hi. unfold slog_term. cbn. repeat zcase; try done. f_equal. rewrite lookup_app_l by lia. by rewrite lookup_take_lt by lia. }
  assert (∀ i, q <= i → slog_term g' i = slog_term (msg_slog m) i) as Hhigh.
  { intros i Hi. destruct (decide (i = q)) as [->|].
    - rewrite Hlow by lia. destruct k as [|k].
      + replace q with p by lia. rewrite Hm. unfold slog_term. cbn. fold p. repeat zcase; try lia. done.
      + destruct (lookup_lt_is_Some_2 ents k) as [e He]; [lia|]. replace q with (p + 1 + Z.of_nat k) by lia.
        rewrite (Hag k e) by (done || lia). unfold slog_term. cbn. fold p ents. repeat zcase; try lia.
        replace (Z.to_nat _) with k by lia. by rewrite He.
    - unfold slog_term. cbn. fold p ents. repeat zcase; try lia. f_equal.
      rewrite lookup_app_r by lia. rewrite Hlen, lookup_drop. f_equal. lia. }
  intros i e He. destruct (Z.le_gt_cases i q) as [Hi|Hi].
  - assert (slog_at g i = Some e) as Hg.
    { revert He. unfold slog_at. cbn. zcase; [|done]. rewrite lookup_app_l by lia. by rewrite lookup_take_lt by lia. }
    rewrite Hlow by lia. by apply Pg.
  - assert (slog_at (msg_slog m) i = Some e) as Hg.
    { revert He. unfold slog_at. cbn. fold p ents. repeat zcase; try lia. rewrite lookup_app_r by lia. rewrite Hlen, lookup_drop.
      intros <-. f_equal. lia. }
    rewrite Hhigh by lia. by apply Pm.
Qed.

Lemma takes_path H g g' (m : Message) : slog_path H g → msg_path H m → takes m g g' → slog_path H g'.
Proof.
  intros Pg Pm [->|[E|(Ht & k & Hs)]]; [done|by apply slog_path_nil|]. destruct (Pm Ht) as [_ Hm].
  exact (splice_path H g m k g' Pg Hm Hs).
Qed.

Lemma slog_last_extends g new : slog_last (extends g new) = slog_last g + len new.
Proof. unfold slog_last. cbn. rewrite len_app. lia. Qed.

(** One more entry, of which the tree knows nothing yet. *)
Lemma extend_one H g e :
  slog_path H g → Entry_GetIndex e = slog_last g + 1 → H !! (slog_last g + 1, Entry_GetTerm e) = None →
  ∃ tp, H ⊆ <[(slog_last g + 1, Entry_GetTerm e) := (e, tp)]> H ∧
    slog_path (<[(slog_last g + 1, Entry_GetTerm e) := (e, tp)]> H) (extends g [e]).
Proof.
  intros Hp Hi Hf. destruct (slog_term_some g (slog_last g)) as [tp Htp]; [unfold slog_last; pose proof (len_nonneg (sl_ents g)); lia|].
  exists tp. set (H' := <[_ := _]> H). assert (H ⊆ H') as Hs by (by apply insert_subseteq). split; [done|].
  assert (∀ i, i <= slog_last g → slog_term (extends g [e]) i = slog_term g i) as Hlow.
  { intros i Hle. unfold slog_term. cbn. repeat zcase; try done. unfold slog_last, len in Hle. by rewrite lookup_app_l by lia. }
  intros i f Hat. pose proof Hat as [Hr _]%slog_at_inv. rewrite slog_last_extends, len_cons, len_nil in Hr. cbn in Hr.
  rewrite Hlow by lia. destruct (decide (i = slog_last g + 1)) as [->|].
  - assert (f = e) as ->.
    { revert Hat. unfold slog_at. cbn. zcase; [|done]. unfold slog_last, len.
      rewrite lookup_app_r by lia. replace (Z.to_nat _ - _)%nat with 0%nat by lia. by intros [= <-]. }
    split; [done|]. exists tp. replace (slog_last g + 1 - 1) with (slog_last g) by lia. split; [done|]. apply lookup_insert_eq.
  - eapply (slog_path_mono H) in Hp; [|exact Hs]. apply Hp. revert Hat. unfold slog_at. cbn. zcase; [|done].
    unfold slog_last, len in Hr. by rewrite lookup_app_l by (unfold slog_last, len in *; lia).
Qed.

(** A leader goes on with entries of its term. *)
Lemma extend_path H g new t :
  slog_path H g → contiguous (slog_last g) new → Forall (fun e => Entry_GetTerm e = t) new →
  (∀ i, slog_last g < i → H !! (i, t) = None) →
  ∃ H', H ⊆ H' ∧ slog_path H' (extends g new) ∧
    ∀ i t' x, H' !! (i, t') = Some x → H !! (i, t') = Some x ∨ t' = t ∧ slog_last g < i <= slog_last (extends g new).
Proof.
  revert H g. induction new as [|e new IH]; intros H g Hp Hc Hn Hf.
  { exists H. split_and!; [done|by rewrite extends_nil|by left]. }
  apply contiguous_cons in Hc as [Hi Hc]. apply Forall_cons in Hn as [Ht Hn].
  destruct (extend_one H g e Hp) as (tp & Hs & Hp1); [lia|rewrite Ht; apply Hf; lia|]. rewrite Ht in Hs, Hp1.
  set (H1 := <[_ := _]> H) in *. pose proof (slog_last_extends g [e]) as Hl1. rewrite len_cons, len_nil in Hl1.
  destruct (IH H1 (extends g [e])) as (H2 & Hs2 & Hp2 & Hb); [done|rewrite Hl1; by replace (_ + (0 + 1)) with (slog_last g + 1) by lia|done| |].
  { intros i Hli. subst H1. rewrite lookup_insert_ne by (intros [=]; lia). apply Hf. lia. }
  rewrite extends_app in Hp2, Hb. cbn [app] in Hp2, Hb. exists H2. split_and!; [by etrans|done|]. intros i t' x Hx.
  destruct (Hb _ _ _ Hx) as [H1x|[? ?]]; [|right; split; [done|lia]]. subst H1.
  apply lookup_insert_Some in H1x as [[[= <- <-] _]|[_ ?]]; [|by left]. right. split; [done|].
  rewrite slog_last_extends. cbn [app]. rewrite len_cons. pose proof (len_nonneg new). lia.
Qed.
