(* ===== verification/History.v ===== *)
(** * Elections, acknowledgements and commitment

    The history of a cluster as far as it decides what is committed: the tree of
    all entries (LogTree.v), for every term that was led the log at the election
    and the log since, and what each node has acknowledged in each term.  The
    main lemma is leader completeness: an entry that a majority has acknowledged
    in its own term is in the log of every later leader.  Nothing here mentions
    the code; NodeCommit.v connects the history with the nodes. *)
From stdpp Require Import functions.
From S2P Require Import Prelude Proto Quorum Util Storage Log RaftInv LogTree.

Implicit Types (T : tree) (g h : slog).

(** ** Logs that agree *)

Definition has g (k t : Z) : Prop := slog_term g k = Some t.

#[export] Instance has_dec g k t : Decision (has g k t).
Proof. unfold has. apply _. Defined.

Definition agree g h (k : Z) : Prop := ∀ i, i <= k → slog_term g i = slog_term h i.

Lemma agree_refl g k : agree g g k.
Proof. done. Qed.

Lemma agree_sym g h k : agree g h k → agree h g k.
Proof. intros Ha i Hi. symmetry. auto. Qed.

Lemma agree_trans g1 g2 g3 k : agree g1 g2 k → agree g2 g3 k → agree g1 g3 k.
Proof. intros H1 H2 i Hi. rewrite H1 by done. auto. Qed.

Lemma agree_le g h k k' : agree g h k → k' <= k → agree g h k'.
Proof. intros Ha Hk i Hi. apply Ha. lia. Qed.

Lemma has_bounds g k t : has g k t → sl_base g <= k <= slog_last g.
Proof. apply slog_term_bounds. Qed.

Lemma agree_has g h k i t : agree g h k → i <= k → has g i t → has h i t.
Proof. unfold has. intros Ha Hi <-. symmetry. auto. Qed.

Lemma extends_has g new k : k <= slog_last g → slog_term (extends g new) k = slog_term g k.
Proof.
  intros Hk. unfold slog_term. cbn. repeat zcase; try done. unfold slog_last, len in Hk. by rewrite lookup_app_l by lia.
Qed.

Lemma agree_extends g new k : k <= slog_last g → agree (extends g new) g k.
Proof. intros Hk i Hi. apply extends_has. lia. Qed.

(** An entry of the added part. *)
Lemma extends_new g new k t t' :
  Forall (fun e => Entry_GetTerm e = t) new → slog_last g < k → has (extends g new) k t' → t' = t.
Proof.
  intros Hn Hk Hh. pose proof (has_bounds _ _ _ Hh) as Hb. cbn in Hb. unfold slog_last, len in Hk.
  destruct (slog_at_term _ _ _ Hh) as (e & He & <-); [cbn; lia|]. revert He. unfold slog_at. cbn. zcase; [|done].
  rewrite lookup_app_r by lia. intros He. rewrite Forall_lookup in Hn. by eapply Hn.
Qed.

(** The id of the last entry. *)
Definition last_id g : entryID := mkentryID (default 0 (slog_term g (slog_last g))) (slog_last g).

Lemma last_has g : has g (slog_last g) (entryID_term (last_id g)).
Proof.
  unfold has. destruct (slog_term_some g (slog_last g)) as [t Ht]; [unfold slog_last; pose proof (len_nonneg (sl_ents g)); lia|].
  unfold last_id. cbn. by rewrite Ht.
Qed.

(** A candidate whose last entry is [id] is up to date with the log [g]. *)
Definition newer (id : entryID) g : Prop :=
  entryID_term (last_id g) < entryID_term id ∨
  entryID_term id = entryID_term (last_id g) ∧ slog_last g <= entryID_index id.

(** ** Paths from a common root *)

Section rooted.
Context (b bt : Z).

Definition rooted T g : Prop := sl_base g = b ∧ sl_term g = bt ∧ slog_path T g.

Lemma rooted_mono T T' g : T ⊆ T' → rooted T g → rooted T' g.
Proof. intros Hs (? & ? & ?). split_and!; [done..|by eapply slog_path_mono]. Qed.

Lemma rooted_agree T g h k t : rooted T g → rooted T h → has g k t → has h k t → agree g h k.
Proof.
  intros (B1 & R1 & P1) (B2 & R2 & P2) H1 H2 i Hi. destruct (Z.lt_total i b) as [Hlt|[->|Hgt]].
  - unfold slog_term. rewrite B1, B2. by rewrite (proj2 (Z.ltb_lt _ _)) by lia.
  - unfold slog_term. rewrite B1, B2, R1, R2. by rewrite Z.ltb_irrefl, Z.eqb_refl.
  - destruct (slog_at_term _ _ _ H1) as (e1 & E1 & T1); [lia|]. destruct (slog_at_term _ _ _ H2) as (e2 & E2 & T2); [lia|].
    assert (slog_at g i = slog_at h i) as Ha by (eapply paths_match; [exact P1|exact P2|done|done|congruence|lia..]).
    destruct (slog_term_some g i) as [t1 Ht1]; [apply has_bounds in H1; lia|].
    destruct (slog_at_term _ _ _ Ht1) as (e & E & <-); [lia|]. rewrite Ht1. rewrite Ha in E. by apply slog_at_inv in E as [_ ->].
Qed.

Lemma root_term T g k t : rooted T g → has g k t → k <= b → t = bt.
Proof.
  intros (B & R & _) Hk Hb. pose proof (has_bounds _ _ _ Hk) as Hbd. assert (k = b) as -> by lia.
  unfold has, slog_term in Hk. rewrite B, R, Z.ltb_irrefl, Z.eqb_refl in Hk. by injection Hk.
Qed.

(** A position above the root is in the tree. *)
Lemma rooted_key T g k t : rooted T g → has g k t → b < k → is_Some (T !! (k, t)).
Proof.
  intros (B & _ & P) Hh Hk. destruct (slog_at_term _ _ _ Hh) as (e & E & <-); [lia|].
  destruct (P _ _ E) as (_ & tp & _ & ->). done.
Qed.

(** Terms do not decrease along a log. *)
Definition tree_sorted T : Prop := ∀ k t e tp, T !! (k, t) = Some (e, tp) → tp <= t.

Lemma rooted_sorted T g i j ti tj : tree_sorted T → rooted T g → has g i ti → has g j tj → i <= j → ti <= tj.
Proof.
  intros Hs (B & _ & P) Hi Hj Hle. pose proof (has_bounds _ _ _ Hi) as Hbi. remember (Z.to_nat (j - i)) as n eqn:Hn.
  revert j tj Hj Hle Hn. induction n as [|n IH]; intros j tj Hj Hle Hn.
  { replace j with i in Hj by lia. unfold has in *. rewrite Hi in Hj. injection Hj as ->. lia. }
  destruct (slog_at_term _ _ _ Hj) as (e & E & <-); [lia|]. destruct (P _ _ E) as (_ & tp & Htp & Hk).
  specialize (IH (j - 1) tp Htp ltac:(lia) ltac:(lia)). specialize (Hs _ _ _ _ Hk). lia.
Qed.

(** All entries above the root are of terms up to [u], and the term after [u]
    may follow the root. *)
Definition within g (u : Z) : Prop := bt <= u + 1 ∧ ∀ k t, has g k t → b < k → t <= u.

(** A log that a leader of term [u] may start with. *)
Definition below g (u : Z) : Prop := 0 < u ∧ bt <= u ∧ ∀ k t, has g k t → b < k → t < u.

Lemma within_mono g u u' : u <= u' → within g u → within g u'.
Proof. intros Hu [Hb Ht]. split; [lia|]. intros k t Hk Hb'. specialize (Ht k t Hk Hb'). lia. Qed.

Lemma within_below g u u' : 0 <= u → u < u' → within g u → below g u'.
Proof. intros H0 Hu [Hb Ht]. split_and!; [lia..|]. intros k t Hk Hb'. specialize (Ht k t Hk Hb'). lia. Qed.

(** ** The history *)

Record history : Type := mkhistory {
  hy_tree : tree;
  hy_led : gset (Z * Z);          (* node, term *)
  hy_log : Z → slog;              (* the leader's log of a term, up to now *)
  hy_elect : Z → slog;            (* its log when it was elected *)
  hy_ack : Z → Z → Z;             (* node, term: the index acknowledged *)
}.
Implicit Types Y : history.

Definition term_led Y (t : Z) : Prop := ∃ j, (j, t) ∈ hy_led Y.

Definition in_tree Y (k t : Z) : Prop := is_Some (hy_tree Y !! (k, t)).

(** A leader of a later term that was elected without the entry. *)
Definition lost_at Y (k t u : Z) : Prop := t < u ∧ term_led Y u ∧ ¬ has (hy_elect Y u) k t.

(** The log of a node that has acknowledged the index [n] of term [t], when it
    is in term [u]: it has the entries of that term, or one of its later leaders
    did not have them. *)
Definition keeps Y g (u t n : Z) : Prop :=
  ∀ k, k <= n → in_tree Y k t → has g k t ∨ ∃ v, v <= u ∧ lost_at Y k t v.

(** A vote of term [u] for a candidate whose last entry is [id], by a node that
    has acknowledged [acks]. *)
Definition voted Y (acks : Z → Z) (u : Z) (id : entryID) : Prop :=
  ∃ g, rooted (hy_tree Y) g ∧ newer id g ∧ ∀ t, t < u → keeps Y g (u - 1) t (acks t).

Context (cfg : JointConfig).

Record history_ok (votes : Z → gmap Z Z) Y : Prop := mkhistory_ok {
  ho_sorted : tree_sorted (hy_tree Y);
  ho_above : ∀ k t, in_tree Y k t → b < k ∧ term_led Y t ∧ has (hy_log Y t) k t;
  ho_log : ∀ t, term_led Y t → rooted (hy_tree Y) (hy_log Y t);
  ho_elect : ∀ t, term_led Y t → rooted (hy_tree Y) (hy_elect Y t) ∧ below (hy_elect Y t) t ∧
    ∃ new, hy_log Y t = extends (hy_elect Y t) new ∧ Forall (fun e => Entry_GetTerm e = t) new;
  ho_ack : ∀ j t, hy_ack Y j t <= b ∨ term_led Y t ∧ hy_ack Y j t <= slog_last (hy_log Y t);
  ho_votes : ∀ i t, (i, t) ∈ hy_led Y → ∃ q, joint_majority cfg q ∧
    ∀ j, j ∈ q → votes j !! t = Some i ∧ voted Y (hy_ack Y j) t (last_id (hy_elect Y t));
}.

(** A majority has acknowledged an entry in its own term. *)
Definition committed_at Y (k t : Z) : Prop :=
  in_tree Y k t ∧ ∃ q, joint_majority cfg q ∧ ∀ j, j ∈ q → k <= hy_ack Y j t.

Section complete.
Context (votes : Z → gmap Z Z) (Y : history).
Hypothesis Hcfg : cfg.1 ≠ ∅.
Hypothesis Hok : history_ok votes Y.

Lemma elect_terms t k t' : term_led Y t → has (hy_elect Y t) k t' → b < k → t' < t.
Proof. intros Hl. destruct (ho_elect _ _ Hok t Hl) as (_ & (_ & _ & Hlt) & _). apply Hlt. Qed.

(** The entries of its term come after the election. *)
Lemma own_after k t : in_tree Y k t → slog_last (hy_elect Y t) < k.
Proof.
  intros Hk. destruct (ho_above _ _ Hok _ _ Hk) as (Hb & Hl & Hh). destruct (ho_elect _ _ Hok t Hl) as (Hr & Hlt & new & E & Hn).
  destruct (Z.le_gt_cases k (slog_last (hy_elect Y t))) as [Hle|]; [|lia]. rewrite E in Hh. unfold has in Hh.
  rewrite extends_has in Hh by done. apply elect_terms in Hh; [lia|done..].
Qed.

Lemma elect_log k t u : term_led Y u → t < u → has (hy_log Y u) k t → has (hy_elect Y u) k t.
Proof.
  intros Hl Hlt Hh. destruct (ho_elect _ _ Hok u Hl) as (Hr & _ & new & E & Hn). rewrite E in Hh.
  destruct (Z.le_gt_cases k (slog_last (hy_elect Y u))) as [Hle|Hgt].
  - unfold has in *. rewrite extends_has in Hh by done. done.
  - apply (extends_new _ _ _ u) in Hh; [lia|done|lia].
Qed.

Lemma log_elect k t u : term_led Y u → has (hy_elect Y u) k t → has (hy_log Y u) k t.
Proof.
  intros Hl Hh. destruct (ho_elect _ _ Hok u Hl) as (_ & _ & new & E & _). rewrite E. unfold has in *.
  rewrite extends_has; [done|]. apply slog_term_bounds in Hh. lia.
Qed.

(** A log that ends in an entry of a term from [t] on, and is no shorter than
    [k], has the committed entry. *)
Lemma newer_has k t u g :
  in_tree Y k t → rooted (hy_tree Y) g → (∀ v, t < v → v < u → term_led Y v → has (hy_elect Y v) k t) →
  below g u → t <= entryID_term (last_id g) → (t = entryID_term (last_id g) → k <= slog_last g) →
  has g k t.
Proof.
  intros Hk Hr IH (_ & _ & Hu) Ht Hl. set (lt := entryID_term (last_id g)) in *. pose proof (last_has g) as Hlast. fold lt in Hlast.
  destruct (ho_above _ _ Hok _ _ Hk) as (Hb & Hled & Hh).
  destruct (Z.le_gt_cases (slog_last g) b) as [Hle|Hgt].
  { exfalso. destruct Hr as (B & R & _). assert (slog_last g = b) as Hlb by (unfold slog_last in *; pose proof (len_nonneg (sl_ents g)); lia).
    destruct (ho_log _ _ Hok t Hled) as (B2 & R2 & P2) eqn:E. clear E.
    assert (has (hy_log Y t) b bt) as Hroot by (unfold has, slog_term; rewrite B2, R2, Z.ltb_irrefl, Z.eqb_refl; done).
    assert (lt = bt) as Hbt by (unfold has in Hlast; rewrite Hlb in Hlast; unfold slog_term in Hlast; rewrite B, R, Z.ltb_irrefl, Z.eqb_refl in Hlast; congruence).
    pose proof (rooted_sorted _ _ b k bt t (ho_sorted _ _ Hok) (conj B2 (conj R2 P2)) Hroot Hh ltac:(lia)) as Hs.
    assert (t = lt) as Htl by lia. specialize (Hl Htl). lia. }
  specialize (Hu _ _ Hlast Hgt).
  pose proof (rooted_key _ _ _ _ Hr Hlast Hgt) as Hkey. destruct (ho_above _ _ Hok _ _ Hkey) as (_ & Hledl & Hhl).
  pose proof (rooted_agree _ _ _ _ _ Hr (ho_log _ _ Hok lt Hledl) Hlast Hhl) as Hag.
  destruct (decide (t = lt)) as [<-|Hne].
  - unfold has. rewrite Hag by auto. done.
  - pose proof (IH lt ltac:(lia) ltac:(lia) Hledl) as He. pose proof (own_after _ _ Hkey) as Hown.
    pose proof (has_bounds _ _ _ He) as Hbe. unfold has. rewrite Hag by lia. by apply log_elect.
Qed.

(** Leader completeness. *)
Lemma leader_complete k t u : committed_at Y k t → t < u → term_led Y u → has (hy_elect Y u) k t.
Proof.
  intros [Hk (q & [Hq _] & Hack)]. remember (Z.to_nat (u - t)) as n eqn:Hn. revert u Hn.
  induction (lt_wf n) as [n _ IHn]. intros u Hn Htu [i Hi].
  assert (∀ v, t < v → v < u → term_led Y v → has (hy_elect Y v) k t) as IH.
  { intros v Hv1 Hv2 Hv. eapply (IHn (Z.to_nat (v - t))); [lia|done|done|done]. }
  assert (term_led Y u) as Hl by (by exists i). destruct (ho_elect _ _ Hok u Hl) as (Hr & Hlt & _).
  destruct (ho_votes _ _ Hok _ _ Hi) as (q' & [Hq' _] & Hv).
  destruct (majority_intersect _ _ _ Hcfg Hq Hq') as (j & _ & J1 & J2).
  destruct (Hv j J2) as [_ (g & Hg & Hnew & Hkeep)].
  assert (has g k t) as Hgk.
  { destruct (Hkeep t Htu k (Hack j J1) Hk) as [?|(v & Hvu & Hv1 & Hv2 & Hv3)]; [done|]. exfalso. apply Hv3, IH; [done|lia|done]. }
  pose proof (rooted_sorted _ _ _ _ _ _ (ho_sorted _ _ Hok) Hg Hgk (last_has g)) as Hs. pose proof (has_bounds _ _ _ Hgk) as Hbk.
  specialize (Hs ltac:(lia)). apply (newer_has k t u); try done; destruct Hnew as [?|[? ?]]; cbn in *; lia.
Qed.

(** Two committed entries are on one path. *)
Lemma committed_agree k t k' t' :
  committed_at Y k t → committed_at Y k' t' → t <= t' → agree (hy_log Y t) (hy_log Y t') (if t =? t' then k' else k).
Proof.
  intros Hc Hc' Hle. zcase; [by subst|]. destruct Hc as [Hk Hq] eqn:E. clear E. destruct (ho_above _ _ Hok _ _ Hk) as (_ & Hl & Hh).
  destruct Hc' as [Hk' _]. destruct (ho_above _ _ Hok _ _ Hk') as (_ & Hl' & _).
  eapply rooted_agree; [by apply Hok|by apply Hok|exact Hh|]. apply log_elect; [done|]. apply leader_complete; [by split|lia|done].
Qed.

End complete.

(** ** What a log promises *)

(** An index that may be acknowledged in a term: the leader's log reaches it. *)
Definition acked Y (t n : Z) : Prop := n <= b ∨ term_led Y t ∧ n <= slog_last (hy_log Y t).

(** The log [g] of a node in term [u], which has acknowledged [acks]. *)
Record promises Y g (u : Z) (acks : Z → Z) : Prop := mkpromises {
  pm_acked : ∀ t, acked Y t (acks t);
  pm_later : ∀ t, u < t → acks t <= b;
  pm_keeps : ∀ t, keeps Y g u t (acks t);
  pm_agree : b < acks u → agree g (hy_log Y u) (acks u);
}.

(** The index [k] of the log [g] is committed, by a leader of a term up to [u]. *)
Definition settled Y g (u k : Z) : Prop :=
  k <= b ∨ ∃ k' t, committed_at Y k' t ∧ t <= u ∧ k <= k' ∧ agree g (hy_log Y t) k.

Lemma settled_later Y g u u' k : u <= u' → settled Y g u k → settled Y g u' k.
Proof. intros Hu [?|(k' & t & ? & ? & ? & ?)]; [by left|]. right. exists k', t. split_and!; [done|lia|done..]. Qed.

Lemma settled_le Y g u k k' : k' <= k → settled Y g u k → settled Y g u k'.
Proof.
  intros Hk [?|(k1 & t & ? & ? & ? & ?)]; [left; lia|]. right. exists k1, t. split_and!; [done..|lia|by eapply agree_le].
Qed.

Lemma settled_agree Y g g' u k : agree g g' k → settled Y g u k → settled Y g' u k.
Proof.
  intros Hg [?|(k1 & t & ? & ? & ? & ?)]; [by left|]. right. exists k1, t. split_and!; [done..|].
  eapply agree_trans; [by apply agree_sym|done].
Qed.

Lemma promises_later Y g u u' acks : u <= u' → (∀ k t, in_tree Y k t → b < k) → promises Y g u acks → promises Y g u' acks.
Proof.
  intros Hu Hb [A L K G]. split; [done| | |].
  - intros t Ht. apply L. lia.
  - intros t k Hk Hin. destruct (K t k Hk Hin) as [?|(v & ? & ?)]; [by left|right; exists v; split; [lia|done]].
  - intros Ha. destruct (decide (u = u')) as [<-|]; [by apply G|]. specialize (L u' ltac:(lia)). lia.
Qed.

(** ** Evolution

    A history grows: leaders are elected and add entries to their logs, nodes
    acknowledge more of them, but no longer in a term before one in which they
    have voted. *)
Record evolved (votes : Z → gmap Z Z) Y Y' : Prop := mkevolved {
  el_tree : hy_tree Y ⊆ hy_tree Y';
  el_led : hy_led Y ⊆ hy_led Y';
  el_log : ∀ t, term_led Y t → ∃ new, hy_log Y' t = extends (hy_log Y t) new;
  el_elect : ∀ t, term_led Y t → hy_elect Y' t = hy_elect Y t;
  el_new : ∀ k t, in_tree Y' k t → in_tree Y k t ∨ b < k ∧ (term_led Y t → slog_last (hy_log Y t) < k);
  el_ack : ∀ j t, hy_ack Y j t <= hy_ack Y' j t;
  el_past : ∀ j t u, is_Some (votes j !! u) → t < u → hy_ack Y' j t = hy_ack Y j t;
}.

Lemma evolved_refl votes Y : evolved votes Y Y.
Proof. split; try done; [|auto]. intros t _. exists []. by rewrite extends_nil. Qed.

Lemma evolved_trans votes Y1 Y2 Y3 : evolved votes Y1 Y2 → evolved votes Y2 Y3 → evolved votes Y1 Y3.
Proof.
  intros [A1 B1 C1 D1 E1 F1 G1] [A2 B2 C2 D2 E2 F2 G2].
  assert (∀ t, term_led Y1 t → term_led Y2 t) as Hl by (intros t [j Hj]; exists j; by apply B1).
  split; [by etrans|by etrans| | | | |].
  - intros t Ht. destruct (C1 t Ht) as [n1 H1], (C2 t (Hl t Ht)) as [n2 H2]. exists (n1 ++ n2). by rewrite H2, H1, extends_app.
  - intros t Ht. rewrite D2 by auto. auto.
  - intros k t Hk. destruct (E2 k t Hk) as [Hk2|[? Hk2]]; [by apply E1|right]. split; [done|]. intros Ht.
    specialize (Hk2 (Hl t Ht)). destruct (C1 t Ht) as [n1 H1]. rewrite H1, slog_last_extends in Hk2. pose proof (len_nonneg n1). lia.
  - intros j t. specialize (F1 j t). specialize (F2 j t). lia.
  - intros j t u Hu Ht. rewrite (G2 j t u Hu Ht). by eapply G1.
Qed.

Lemma evolved_votes votes votes' Y Y' : (∀ j, votes j ⊆ votes' j) → evolved votes' Y Y' → evolved votes Y Y'.
Proof.
  intros Hv [A B C D E F G]. split; try done. intros j t u [x Hx] Ht. eapply G; [|exact Ht]. exists x. by eapply lookup_weaken.
Qed.

Section evolution.
Context (votes : Z → gmap Z Z) (Y Y' : history).
Hypothesis Hev : evolved votes Y Y'.

Lemma term_led_mono t : term_led Y t → term_led Y' t.
Proof. intros [j Hj]. exists j. by apply (el_led _ _ _ Hev). Qed.

Lemma in_tree_mono k t : in_tree Y k t → in_tree Y' k t.
Proof. intros [x Hx]. exists x. eapply lookup_weaken; [exact Hx|apply Hev]. Qed.

Lemma log_last_mono t : term_led Y t → slog_last (hy_log Y t) <= slog_last (hy_log Y' t).
Proof.
  intros Ht. destruct (el_log _ _ _ Hev t Ht) as [new ->]. rewrite slog_last_extends. pose proof (len_nonneg new). lia.
Qed.

Lemma log_agree_mono t k : term_led Y t → k <= slog_last (hy_log Y t) → agree (hy_log Y' t) (hy_log Y t) k.
Proof. intros Ht Hk. destruct (el_log _ _ _ Hev t Ht) as [new ->]. by apply agree_extends. Qed.

Lemma lost_at_mono k t u : lost_at Y k t u → lost_at Y' k t u.
Proof. intros (? & Hl & Hn). split_and!; [done|by apply term_led_mono|]. by rewrite (el_elect _ _ _ Hev u Hl). Qed.

Lemma acked_mono t n : acked Y t n → acked Y' t n.
Proof.
  intros [?|[Ht Hn]]; [by left|right]. split; [by apply term_led_mono|]. pose proof (log_last_mono t Ht). lia.
Qed.

Lemma keeps_mono g u t n : acked Y t n → keeps Y g u t n → keeps Y' g u t n.
Proof.
  intros Ha Hk k Hkn Hin. destruct (el_new _ _ _ Hev _ _ Hin) as [Hin'|[Hb Hl]].
  - destruct (Hk k Hkn Hin') as [?|(v & ? & ?)]; [by left|right]. exists v. split; [done|by apply lost_at_mono].
  - destruct Ha as [?|[Ht ?]]; [lia|]. specialize (Hl Ht). lia.
Qed.

Lemma voted_mono acks acks' u id :
  (∀ t, t < u → acked Y t (acks t)) → (∀ t, t < u → acks' t = acks t) → voted Y acks u id → voted Y' acks' u id.
Proof.
  intros Ha Heq (g & Hr & Hn & Hk). exists g. split_and!; [eapply rooted_mono; [apply Hev|done]|done|].
  intros t Ht. rewrite Heq by done. apply keeps_mono; auto.
Qed.

Lemma promises_mono g u acks : promises Y g u acks → promises Y' g u acks.
Proof.
  intros [A L K G]. split; [intros t; by apply acked_mono|done|intros t; by apply keeps_mono|].
  intros Hb. destruct (A u) as [?|[Ht Hl]]; [lia|]. eapply agree_trans; [by apply G|]. by apply agree_sym, log_agree_mono.
Qed.

Hypothesis Hok : history_ok votes Y.

Lemma committed_mono k t : committed_at Y k t → committed_at Y' k t.
Proof.
  intros [Hin (q & Hq & Ha)]. split; [by apply in_tree_mono|]. exists q. split; [done|]. intros j Hj.
  specialize (Ha j Hj). pose proof (el_ack _ _ _ Hev j t). lia.
Qed.

Lemma committed_last k t : committed_at Y k t → term_led Y t ∧ k <= slog_last (hy_log Y t).
Proof. intros [Hin _]. destruct (ho_above _ _ Hok _ _ Hin) as (_ & Hl & Hh). split; [done|]. apply has_bounds in Hh. lia. Qed.

Lemma settled_mono g u k : settled Y g u k → settled Y' g u k.
Proof.
  intros [?|(k' & t & Hc & ? & ? & Hg)]; [by left|]. right. exists k', t. destruct (committed_last _ _ Hc) as [Hl Hk].
  split_and!; [by apply committed_mono|done..|]. eapply agree_trans; [exact Hg|]. apply agree_sym, log_agree_mono; [done|lia].
Qed.

Lemma settled_last g u k : rooted (hy_tree Y) g → settled Y g u k → k <= slog_last g.
Proof.
  intros (B & _) Hs. assert (b <= slog_last g) as Hb by (unfold slog_last; pose proof (len_nonneg (sl_ents g)); lia).
  destruct Hs as [?|(k' & t & Hc & _ & Hk & Hg)]; [lia|]. destruct (committed_last _ _ Hc) as [Hl Hk'].
  destruct (Z.le_gt_cases k (slog_last g)) as [|Hgt]; [done|]. destruct (ho_log _ _ Hok t Hl) as (B' & _).
  destruct (slog_term_some (hy_log Y t) k) as [x Hx]; [lia|]. rewrite <- (Hg k ltac:(lia)) in Hx. apply slog_term_bounds in Hx. lia.
Qed.

(** What is committed of a leader's log stays so while the log grows. *)
Lemma settled_log_mono t k :
  term_led Y t → settled Y (hy_log Y t) t k → settled Y' (hy_log Y' t) t k.
Proof.
  intros Ht Hs. pose proof (settled_last _ _ _ (ho_log _ _ Hok t Ht) Hs) as Hk.
  eapply settled_agree; [|by apply settled_mono]. by apply agree_sym, log_agree_mono.
Qed.

End evolution.

(** ** What a follower does *)

Section follower.
Context (votes : Z → gmap Z Z) (Y : history).
Hypothesis Hok : history_ok votes Y.

Lemma log_terms t k t' : term_led Y t → has (hy_log Y t) k t' → t' <= t.
Proof.
  intros Hl Hk. destruct (ho_elect _ _ Hok t Hl) as (_ & (_ & Hb & _) & new & E & Hn).
  destruct (Z.le_gt_cases k b) as [Hkb|Hkb]; [by rewrite (root_term _ _ _ _ (ho_log _ _ Hok t Hl) Hk Hkb)|]. rewrite E in Hk.
  destruct (Z.le_gt_cases k (slog_last (hy_elect Y t))) as [Hle|Hgt].
  - unfold has in Hk. rewrite extends_has in Hk by done. pose proof (elect_terms _ _ Hok t k t' Hl Hk Hkb). lia.
  - apply (extends_new _ _ _ t) in Hk; [lia|done|lia].
Qed.

Lemma term_led_pos t : term_led Y t → 0 < t.
Proof. intros Hl. by destruct (ho_elect _ _ Hok t Hl) as (_ & (? & _) & _). Qed.

Lemma log_within t : term_led Y t → within (hy_log Y t) t.
Proof.
  intros Hl. destruct (ho_elect _ _ Hok t Hl) as (_ & (_ & Hb & _) & _). split; [lia|].
  intros k t' Hk _. by eapply log_terms.
Qed.

(** The log [g'] that a node in term [u] makes of [g] with entries of the
    leader's log up to [n]: nothing is lost that the leader has. *)
Lemma promises_follow g g' u n acks :
  term_led Y u → rooted (hy_tree Y) g' → agree g' (hy_log Y u) n → n <= slog_last (hy_log Y u) →
  (∀ k t, has g k t → has (hy_log Y u) k t → has g' k t) →
  promises Y g u acks → promises Y g' u (<[u := Z.max (acks u) n]> acks).
Proof.
  intros Hl Hr Hn Hln Hk [A L K G].
  assert (agree g' (hy_log Y u) (acks u) ∨ acks u <= b) as Ha.
  { destruct (Z.le_gt_cases (acks u) b) as [|Hb]; [by right|left]. destruct (A u) as [?|[_ Hla]]; [lia|].
    pose proof (ho_log _ _ Hok u Hl) as Hrl. destruct (slog_term_some (hy_log Y u) (acks u)) as [x Hx]; [destruct Hrl; lia|].
    eapply rooted_agree; [exact Hr|exact Hrl| |exact Hx]. apply Hk; [|done]. unfold has. rewrite (G ltac:(lia) (acks u)) by lia. done. }
  assert (acked Y u (Z.max (acks u) n)) as Hmax.
  { right. split; [done|]. destruct (A u) as [?|[_ ?]]; [|lia]. destruct (ho_log _ _ Hok u Hl) as (B & _).
    unfold slog_last in *. pose proof (len_nonneg (sl_ents (hy_log Y u))). lia. }
  assert (b < Z.max (acks u) n → agree g' (hy_log Y u) (Z.max (acks u) n)) as Hag.
  { intros Hb. destruct (Z.max_spec (acks u) n) as [[_ ->]|[? Em]]; [done|]. rewrite Em in Hb |- *. destruct Ha as [?|?]; [done|lia]. }
  split.
  - intros t. destruct (decide (t = u)) as [->|]; [by rewrite fn_lookup_insert|by rewrite fn_lookup_insert_ne].
  - intros t Ht. rewrite fn_lookup_insert_ne by lia. auto.
  - intros t k Hkn Hin. destruct (decide (t = u)) as [->|Hne].
    + rewrite fn_lookup_insert in Hkn. left. destruct (ho_above _ _ Hok _ _ Hin) as (? & _ & Hh).
      unfold has. rewrite Hag by lia. done.
    + rewrite fn_lookup_insert_ne in Hkn by done. destruct (K t k Hkn Hin) as [Hg|?]; [|by right].
      destruct (Z.lt_total t u) as [Hlt|[?|Hgt]]; [|done|].
      * destruct (decide (has (hy_elect Y u) k t)) as [He|He]; [left; apply Hk; [done|by apply (log_elect _ _ Hok)]|].
        right. exists u. split; [lia|]. by split_and!.
      * specialize (L t ltac:(lia)). destruct (ho_above _ _ Hok _ _ Hin). lia.
  - rewrite fn_lookup_insert. done.
Qed.

(** The commit index of a follower. *)
Lemma settled_follow g g' u n k c :
  agree g' (hy_log Y u) n → agree g' g c → settled Y g u c → settled Y (hy_log Y u) u k → k <= n →
  settled Y g' u (Z.max c k).
Proof.
  intros Hn Hc Hs Hk Hle. destruct (Z.max_spec c k) as [[_ ->]|[_ ->]].
  - eapply settled_agree; [|exact Hk]. eapply agree_le; [by apply agree_sym|done].
  - eapply settled_agree; [|exact Hs]. by apply agree_sym.
Qed.

(** A commit index may be acknowledged. *)
Lemma settled_promise (Hcfg : cfg.1 ≠ ∅) g u c :
  term_led Y u → rooted (hy_tree Y) g → settled Y g u c → agree g (hy_log Y u) c ∧ (c <= slog_last (hy_log Y u)).
Proof.
  intros Hl Hr Hs. pose proof (ho_log _ _ Hok u Hl) as Hrl.
  assert (agree g (hy_log Y u) c) as Ha.
  { destruct Hs as [Hb|(k & t & Hc & Htu & Hk & Hg)].
    - destruct Hr as (B1 & R1 & _), Hrl as (B2 & R2 & _). intros i Hi. unfold slog_term. rewrite B1, B2, R1, R2.
      repeat zcase; try done; lia.
    - eapply agree_trans; [exact Hg|]. destruct (decide (t = u)) as [->|Hne]; [done|].
      eapply agree_le; [|exact Hk]. destruct Hc as [Hin Hq] eqn:E. clear E. destruct (ho_above _ _ Hok _ _ Hin) as (_ & Hlt & Hh).
      eapply rooted_agree; [by apply (ho_log _ _ Hok)|done|exact Hh|]. apply (log_elect _ _ Hok); [done|].
      apply (leader_complete _ _ Hcfg Hok); [by split|lia|done]. }
  split; [done|]. eapply (settled_last _ _ Hok); [done|]. by eapply settled_agree.
Qed.

(** What two logs hold committed is the same. *)
Lemma settled_both (Hcfg : cfg.1 ≠ ∅) g g' u u' k :
  b < k → rooted (hy_tree Y) g → rooted (hy_tree Y) g' → settled Y g u k → settled Y g' u' k →
  ∃ e, slog_at g k = Some e ∧ slog_at g' k = Some e.
Proof.
  intros Hb Hg Hg' Hs Hs'. assert (agree g g' k) as Ha.
  { destruct Hs as [?|(k1 & t & Hc & Hu & Hk & Ha)]; [lia|]. destruct Hs' as [?|(k1' & t' & Hc' & Hu' & Hk' & Ha')]; [lia|].
    destruct (committed_last _ _ Hok _ _ Hc) as [Hl _]. destruct (committed_last _ _ Hok _ _ Hc') as [Hl' _].
    destruct (Z.le_ge_cases t t').
    - eapply agree_trans; [|by apply agree_sym]. apply (settled_promise Hcfg _ t'); [done..|]. right. by exists k1, t.
    - eapply agree_trans; [exact Ha|]. apply agree_sym. apply (settled_promise Hcfg _ t); [done..|]. right. by exists k1', t'. }
  pose proof (settled_last _ _ Hok _ _ _ Hg Hs) as Hla. destruct (slog_term_some g k) as [t Ht]; [destruct Hg; lia|].
  destruct (slog_at_term _ _ _ Ht) as (e & He & Et); [destruct Hg; lia|]. rewrite (Ha k ltac:(lia)) in Ht.
  destruct (slog_at_term _ _ _ Ht) as (e' & He' & Et'); [destruct Hg'; lia|]. exists e. split; [done|]. rewrite <- He. symmetry.
  destruct Hg as (B & _ & P), Hg' as (B' & _ & P'). apply (paths_match (hy_tree Y) g g' k e e'); (done || congruence || lia).
Qed.

End follower.

(** ** Growth *)

Definition hist_grow Y T (led : gset (Z * Z)) (u : Z) lg el : history :=
  mkhistory T led (<[u := lg]> (hy_log Y)) (<[u := el]> (hy_elect Y)) (hy_ack Y).

Definition hist_ack Y (i : Z) (acks : Z → Z) : history :=
  mkhistory (hy_tree Y) (hy_led Y) (hy_log Y) (hy_elect Y) (<[i := acks]> (hy_ack Y)).

Lemma history_ok_votes votes votes' Y : (∀ j, votes j ⊆ votes' j) → history_ok votes Y → history_ok votes' Y.
Proof.
  intros Hv [A B C D E F]. split; try done. intros i t Hi. destruct (F i t Hi) as (q & Hq & Hj). exists q. split; [done|].
  intros j Hjq. destruct (Hj j Hjq). split; [by eapply lookup_weaken|done].
Qed.

(** A node makes more acknowledgements durable. *)
Lemma hist_ack_evolved votes Y i d acks :
  (∀ t x, votes i !! t = Some x → t <= d) → (∀ t, hy_ack Y i t <= acks t) → (∀ t, t < d → acks t = hy_ack Y i t) →
  evolved votes Y (hist_ack Y i acks).
Proof.
  intros Hd Hle Heq. split; try done; cbn.
  - intros t _. exists []. by rewrite extends_nil.
  - by left.
  - intros j t. destruct (decide (j = i)) as [->|]; [rewrite fn_lookup_insert; auto|by rewrite fn_lookup_insert_ne].
  - intros j t u [x Hx] Ht. destruct (decide (j = i)) as [->|]; [|by rewrite fn_lookup_insert_ne].
    rewrite fn_lookup_insert. apply Heq. apply Hd in Hx. lia.
Qed.

Lemma hist_ack_ok votes Y i d acks :
  (∀ t x, votes i !! t = Some x → t <= d) → (∀ t, hy_ack Y i t <= acks t) → (∀ t, t < d → acks t = hy_ack Y i t) →
  (∀ t, acked Y t (acks t)) → history_ok votes Y → history_ok votes (hist_ack Y i acks).
Proof.
  intros Hd Hle Heq Ha Hok. pose proof (hist_ack_evolved _ _ _ _ _ Hd Hle Heq) as Hev. destruct Hok as [A B C D E F]. split; try done; cbn.
  - intros j t. destruct (decide (j = i)) as [->|]; [rewrite fn_lookup_insert; apply Ha|rewrite fn_lookup_insert_ne by done; apply E].
  - intros x t Hx. destruct (F x t Hx) as (q & Hq & Hj). exists q. split; [done|]. intros j Hjq. destruct (Hj j Hjq) as [Hv Hvo].
    split; [done|]. eapply (voted_mono _ _ _ Hev); [|  |exact Hvo]; [intros; apply E|]. intros t' Ht'.
    apply (el_past _ _ _ Hev j t' t); [by rewrite Hv|done].
Qed.

Section growth.
Context (votes : Z → gmap Z Z) (Y : history) (T : tree) (led : gset (Z * Z)) (i u : Z) (g el : slog) (old new : list Entry).
Hypothesis Hok : history_ok votes Y.
Hypothesis Hg : rooted (hy_tree Y) g.
Hypothesis Hel : rooted (hy_tree Y) el.
Hypothesis Hlt : below el u.
Hypothesis Hext : g = extends el old.
Hypothesis Hold : Forall (fun e => Entry_GetTerm e = u) old.
Hypothesis Hnew : Forall (fun e => Entry_GetTerm e = u) new.
Hypothesis Hsame : term_led Y u → hy_log Y u = g ∧ hy_elect Y u = el.
Hypothesis Htree : hy_tree Y ⊆ T.
Hypothesis Hpath : slog_path T (extends g new).
Hypothesis Hled : led = hy_led Y ∪ {[(i, u)]}.
Hypothesis Hkeys : ∀ k t x, T !! (k, t) = Some x → hy_tree Y !! (k, t) = Some x ∨ t = u ∧ slog_last g < k <= slog_last (extends g new).
Hypothesis Hvotes : ∃ q, joint_majority cfg q ∧ ∀ j, j ∈ q → votes j !! u = Some i ∧ voted Y (hy_ack Y j) u (last_id el).

Let Y' := hist_grow Y T led u (extends g new) el.

Lemma grow_led t : term_led Y' t → term_led Y t ∨ t = u.
Proof. unfold Y'. intros [j Hj]. cbn in Hj. rewrite Hled in Hj. apply elem_of_union in Hj as [?|[= -> ->]%elem_of_singleton]; [left; by exists j|by right]. Qed.

Lemma grow_now : term_led Y' u.
Proof. exists i. unfold Y'. cbn. rewrite Hled. set_solver. Qed.

Lemma grow_log t : t ≠ u → hy_log Y' t = hy_log Y t ∧ hy_elect Y' t = hy_elect Y t.
Proof. intros Ht. unfold Y'. cbn. by rewrite !fn_lookup_insert_ne. Qed.

Lemma grow_log_now : hy_log Y' u = extends g new ∧ hy_elect Y' u = el.
Proof. unfold Y'. cbn. by rewrite !fn_lookup_insert. Qed.

Lemma grow_base : b <= slog_last g.
Proof. destruct Hg as (B & _). unfold slog_last. pose proof (len_nonneg (sl_ents g)). lia. Qed.

Lemma grow_evolved : evolved votes Y Y'.
Proof.
  pose proof grow_base. split; try done.
  - unfold Y'. cbn. rewrite Hled. set_solver.
  - intros t Ht. destruct (decide (t = u)) as [->|Hne].
    + destruct (Hsame Ht) as [-> _]. destruct grow_log_now as [-> _]. by exists new.
    + destruct (grow_log t Hne) as [-> _]. exists []. by rewrite extends_nil.
  - intros t Ht. destruct (decide (t = u)) as [->|Hne]; [|by apply grow_log].
    destruct (Hsame Ht) as [_ ->]. apply grow_log_now.
  - intros k t [x Hx]. destruct (Hkeys _ _ _ Hx) as [?|[-> Hk]]; [left; by exists x|right]. split; [lia|].
    intros Ht. destruct (Hsame Ht) as [-> _]. lia.
Qed.

Lemma grow_terms k t : has (extends g new) k t → t <= u.
Proof.
  intros Hk. destruct (Z.le_gt_cases k (slog_last g)) as [Hle|Hgt]; [|apply (extends_new _ _ _ u) in Hk; [lia|done|lia]].
  unfold has in Hk. rewrite extends_has in Hk by done. destruct Hlt as (_ & Hb & Ht).
  destruct (Z.le_gt_cases k b) as [Hkb|Hkb]; [by rewrite (root_term _ _ _ _ Hg Hk Hkb)|].
  rewrite Hext in Hk. destruct (Z.le_gt_cases k (slog_last el)) as [Hle'|Hgt].
  - rewrite extends_has in Hk by done. specialize (Ht _ _ Hk Hkb). lia.
  - apply (extends_new _ _ _ u) in Hk; [lia|done|lia].
Qed.

Lemma grow_rooted : rooted T (extends g new).
Proof. destruct Hg as (? & ? & _). by split_and!. Qed.

Lemma grow_sorted : tree_sorted T.
Proof.
  intros k t e tp Hx. destruct (Hkeys _ _ _ Hx) as [Hx'|[-> Hk]]; [by eapply (ho_sorted _ _ Hok)|].
  pose proof grow_base. destruct Hg as (B & _). destruct (slog_term_some (extends g new) k) as [t Ht]; [cbn; lia|].
  assert (t = u) as -> by (eapply extends_new; [exact Hnew| |exact Ht]; lia).
  destruct (slog_at_term _ _ _ Ht) as (e' & He & Ete); [cbn; lia|]. destruct (Hpath _ _ He) as (_ & tp' & Htp & Hk').
  rewrite Ete, Hx in Hk'. injection Hk' as <- <-. by apply grow_terms in Htp.
Qed.

Lemma grow_above k t : in_tree Y' k t → b < k ∧ term_led Y' t ∧ has (hy_log Y' t) k t.
Proof.
  intros [x Hx]. destruct (Hkeys _ _ _ Hx) as [Hx'|[-> Hk]].
  - destruct (ho_above _ _ Hok k t) as (? & Hl & Hh); [by exists x|]. split_and!; [done|by apply (term_led_mono _ _ _ grow_evolved)|].
    destruct (el_log _ _ _ grow_evolved t Hl) as [ext ->]. unfold has in *. rewrite extends_has; [done|]. apply slog_term_bounds in Hh. lia.
  - pose proof grow_base. destruct Hg as (B & _). split_and!; [lia|apply grow_now|]. rewrite (proj1 grow_log_now).
    destruct (slog_term_some (extends g new) k) as [t Ht]; [cbn; lia|].
    assert (t = u) as -> by (eapply extends_new; [exact Hnew| |exact Ht]; lia). done.
Qed.

Lemma grow_ok : history_ok votes Y'.
Proof.
  pose proof grow_evolved as Hev. split.
  - apply grow_sorted.
  - apply grow_above.
  - intros t Ht. destruct (decide (t = u)) as [->|Hne]; [rewrite (proj1 grow_log_now); apply grow_rooted|].
    rewrite (proj1 (grow_log t Hne)). eapply rooted_mono; [exact Htree|]. apply Hok. by destruct (grow_led t Ht).
  - intros t Ht. destruct (decide (t = u)) as [->|Hne].
    + destruct grow_log_now as [-> ->]. split_and!; [by eapply rooted_mono|done|]. exists (old ++ new).
      split; [by rewrite Hext, extends_app|by apply Forall_app].
    + destruct (grow_log t Hne) as [-> ->]. destruct (ho_elect _ _ Hok t) as (? & ? & ?); [by destruct (grow_led t Ht)|].
      split_and!; [by eapply rooted_mono|done|done].
  - intros j t. apply (acked_mono _ _ _ Hev). apply (ho_ack _ _ Hok).
  - intros x t Hx. assert (∀ j id, voted Y (hy_ack Y j) t id → voted Y' (hy_ack Y' j) t id) as Hmono.
    { intros j id. apply (voted_mono _ _ _ Hev); [|done]. intros; apply (ho_ack _ _ Hok). }
    unfold Y' in Hx. cbn in Hx. rewrite Hled in Hx. apply elem_of_union in Hx as [Hx|[= -> ->]%elem_of_singleton].
    + destruct (ho_votes _ _ Hok x t Hx) as (q & Hq & Hj). exists q. split; [done|]. intros j Hjq. destruct (Hj j Hjq).
      rewrite (el_elect _ _ _ Hev t) by (by exists x). split; [done|auto].
    + destruct Hvotes as (q & Hq & Hj). exists q. split; [done|]. intros j Hjq. destruct (Hj j Hjq). rewrite (proj2 grow_log_now). auto.
Qed.

End growth.

End rooted.
