(* ===== verification/NodeCommit.v ===== *)
(** * What a node knows of the history

    The replication state of one node of src/raft.go with respect to the history
    of the cluster (History.v): its log keeps what it has acknowledged, what it
    holds committed is committed, the match indexes of a leader are backed by
    acknowledgements, and its messages announce nothing else.  The steps of
    RaftAck.v preserve it. *)
From stdpp Require Import functions.
From S2P Require Import Prelude Proto Quorum Inflights Progress Tracker Util Storage.
From S2P Require Import Unstable Log ConfChange ReadOnly Raft RaftStep RaftRel.
From S2P Require Import RaftSafety RaftRepl RaftInv RaftAck LogTree History.

(** ** Resetting the progress of the other nodes *)

Section reset.
Context {S : Type} `{Protobuf} `{!Storage S}.
Implicit Types r : raft S.

(** The match index of a node once its progress is reset. *)
Definition fresh_match r (x n : Z) : Prop := n = 0 ∨ x = raft_id r ∧ raftLog_lastIndex (raft_raftLog r) = Ok n.

Definition frame r r' : Prop :=
  raft_id r' = raft_id r ∧ raft_raftLog r' = raft_raftLog r ∧ ProgressTracker_Config (raft_trk r') = ProgressTracker_Config (raft_trk r).

#[local] Instance frame_preorder : PreOrder frame.
Proof. split; [done|]. intros r1 r2 r3 (? & ? & ?) (? & ? & ?). split_and!; congruence. Qed.

Definition kept_match r r' : Prop := frame r r' ∧ raft_trk r' = raft_trk r.

#[local] Instance kept_match_preorder : PreOrder kept_match.
Proof. split; [done|]. intros r1 r2 r3 [? E1] [? E2]. split; [by etrans|congruence]. Qed.

Lemma reset_loop ids r u r' :
  for_each reset_progress ids r = Ok (u, r') →
  frame r r' ∧ ∀ x n, match_of r' x = Some n → fresh_match r x n ∨ (x ∉ ids) ∧ match_of r x = Some n.
Proof.
  revert r. induction ids as [|id ids IH]; intros r E; cbn in E.
  { injection E as _ <-. split; [done|]. intros x n Hx. right. split; [set_solver|done]. }
  run_inv E. unfold reset_progress in E0. run_inv E0. injection E1 as <- <-. run_inv E0. apply get_pr_inv in E1 as [-> Hp].
  run_inv E0. apply bind_Ok in E1 as (li & El & [= <- <-]). injection E0 as _ <-. apply IH in E as [Hf Hm]. split; [exact Hf|].
  intros y n Hy. destruct (Hm y n Hy) as [[?|[? ?]]|[Hni Hy']]; [left; by left|left; by right|]. revert Hy'. unfold match_of, prs. cbn.
  destruct (decide (y = id)) as [->|Hne].
  - rewrite lookup_insert_eq. intros [= <-]. left. zcase; [by right|by left].
  - rewrite lookup_insert_ne by done. intros ?. right. split; [set_solver|done].
Qed.

Lemma reset_match term r u r' :
  raft_reset term r = Ok (u, r') → frame r r' ∧ ∀ x n, match_of r' x = Some n → fresh_match r x n.
Proof.
  unfold raft_reset. intros E. run_inv E. injection E0 as <- <-.
  do 7 run_inv E.
  assert (frame r r6) as Hf.
  { trans r0; [destruct (negb _) in E0; cbn in E0; [|by injection E0 as _ <-]; run_inv E0; injection E7 as _ <-; by injection E0 as _ <-|].
    injection E1 as _ <-. injection E2 as _ <-. injection E3 as _ <-. trans r4.
    { revert E4. unfold raft_resetRandomizedElectionTimeout, Intn. intros E4. run_inv E4. injection E1 as <- <-. run_inv E4.
      injection E4 as _ <-. run_inv E1. injection E2 as <- <-. run_inv E1. injection E1 as _ <-. injection E2 as _ <-. done. }
    injection E5 as _ <-. by injection E6 as _ <-. }
  run_inv E. unfold visit in E7. run_inv E7. injection E8 as <- <-. apply reset_loop in E7 as [Hf7 Hm].
  assert (kept_match r7 r') as [Hf' Ht].
  { do 2 run_inv E. injection E as _ <-. injection E8 as _ <-. by injection E7 as _ <-. }
  split; [trans r6; [done|by trans r7]|]. intros y n Hy.
  unfold match_of, prs in Hy. rewrite Ht in Hy. destruct (Hm y n Hy) as [Hfr|[Hni Hy6]].
  - unfold fresh_match in *. destruct Hf as (Ei & El & _). by rewrite Ei, El in Hfr.
  - exfalso. apply Hni, elem_of_Visit_ids. unfold match_of, prs in Hy6. destruct (_ !! y) eqn:Ey in Hy6; [|done]. by exists p.
Qed.

End reset.

Section repl.
Context {S : Type} `{Protobuf, !ProtobufLaws _} `{!Storage S} `{!StorageLaws S}.
Context (b bt : Z) (cfg : JointConfig).
Implicit Types (r : raft S) (l : raftLog S) (Y : history) (V : Z → Z) (m : Message).

Abbreviation view r := (log_view (raft_raftLog r)).
Abbreviation com r := (raftLog_committed (raft_raftLog r)).

(** ** The invariant *)

(** What a leader's messages announce. *)
Definition says_ok Y m : Prop :=
  let t := Message_GetTerm m in
  (Message_GetType m = MsgApp →
     term_led Y t ∧ slice_of (hy_log Y t) m ∧ settled b cfg Y (hy_log Y t) t (Message_GetCommit m)) ∧
  (Message_GetType m = MsgHeartbeat → Message_GetCommit m <= b ∨
     term_led Y t ∧ Message_GetCommit m <= hy_ack Y (Message_GetTo m) t ∧ settled b cfg Y (hy_log Y t) t (Message_GetCommit m)).

(** An acknowledgement that node [i] gives in a term up to [u]. *)
Definition owes V (i u : Z) m : Prop :=
  is_ack m → Message_GetFrom m = i ∧ Message_GetTerm m <= u ∧
    (Message_GetIndex m <= b ∨ Message_GetIndex m <= V (Message_GetTerm m)).

(** Node [x] has the leader's log of term [t] up to [n]; the leader itself may
    count what it had when it was elected. *)
Definition known Y (i t x n : Z) : Prop :=
  n <= b ∨ n <= hy_ack Y x t ∨ x = i ∧ n <= slog_last (hy_elect Y t).

Record leads_ok Y (i : Z) r : Prop := mkleads_ok {
  ld_led : term_led Y (raft_Term r);
  ld_log : ∃ new, hy_log Y (raft_Term r) = extends (view r) new;
  ld_cfg : ProgressTracker_Voters (raft_trk r) = cfg;
  ld_match : ∀ x n, match_of r x = Some n → 0 <= n ∧ known Y i (raft_Term r) x n;
}.

Record node_repl Y (i : Z) V r : Prop := mknode_repl {
  rp_id : raft_id r = i;
  rp_wf : log_wf (raft_raftLog r);
  rp_view : rooted b bt (hy_tree Y) (view r);
  rp_terms : within b bt (view r) (raft_Term r);
  rp_promise : promises b Y (view r) (raft_Term r) V;
  rp_settled : settled b cfg Y (view r) (raft_Term r) (com r);
  rp_lead : raft_state r = StateLeader → leads_ok Y i r;
  rp_msgs : Forall (fun m => Message_GetTo m ≠ i → says_ok Y m) (raft_msgs r);
  rp_later : Forall (owes V i (raft_Term r)) (raft_msgsAfterAppend r);
}.

Lemma owes_mono V V' i u u' m : (∀ t, V t <= V' t) → u <= u' → owes V i u m → owes V' i u' m.
Proof.
  intros Hv Hu Ho Hm. destruct (Ho Hm) as (? & ? & Hi). split_and!; [done|lia|]. specialize (Hv (Message_GetTerm m)). lia.
Qed.

(** ** Other nodes make progress *)

Section mono.
Context (votes : Z → gmap Z Z) (Y Y' : history).
Hypothesis Hev : evolved b votes Y Y'.
Hypothesis Hok : history_ok b bt cfg votes Y.

Lemma says_ok_mono m : says_ok Y m → says_ok Y' m.
Proof.
  intros [Ha Hh]. split; intros Ht.
  - destruct (Ha Ht) as (Hl & Hs & Hc). split_and!; [by apply (term_led_mono _ _ _ _ Hev)| |by eapply settled_log_mono].
    destruct (el_log _ _ _ _ Hev _ Hl) as [new ->]. by apply slice_extends.
  - destruct (Hh Ht) as [?|(Hl & Hc & Hs)]; [by left|right]. pose proof (el_ack _ _ _ _ Hev (Message_GetTo m) (Message_GetTerm m)).
    split_and!; [by apply (term_led_mono _ _ _ _ Hev)|lia|by eapply settled_log_mono].
Qed.

Lemma leads_ok_mono i r : leads_ok Y i r → leads_ok Y' i r.
Proof.
  intros [L [new G] C M]. split; [by apply (term_led_mono _ _ _ _ Hev)| |done|].
  - destruct (el_log _ _ _ _ Hev _ L) as [new' ->]. exists (new ++ new'). by rewrite G, extends_app.
  - intros x n Hx. destruct (M x n Hx) as [? Hk]. split; [done|]. unfold known in *. rewrite (el_elect _ _ _ _ Hev _ L).
    pose proof (el_ack _ _ _ _ Hev x (raft_Term r)). destruct Hk as [?|[?|?]]; [by left|right; left; lia|by right; right].
Qed.

Lemma node_repl_mono i V r : node_repl Y i V r → node_repl Y' i V r.
Proof.
  intros [I W R T P C L M A]. split; try done.
  - eapply rooted_mono; [apply Hev|done].
  - by eapply promises_mono.
  - by eapply settled_mono.
  - intros Hs. by apply leads_ok_mono, L.
  - eapply Forall_impl; [exact M|]. intros m Hm Hto. by apply says_ok_mono, Hm.
Qed.

End mono.

(** ** Steps *)

Section steps.
Context (votes : Z → gmap Z Z) (Y : history) (i : Z).
Hypothesis Hcfg : cfg.1 ≠ ∅.
Hypothesis Hb0 : 0 <= b.
Hypothesis Hok : history_ok b bt cfg votes Y.

Lemma above k t : in_tree Y k t → b < k.
Proof. intros Hin. by destruct (ho_above _ _ _ _ _ Hok _ _ Hin). Qed.

Lemma repl_mute V r r' :
  node_repl Y i V r → mute r r' → raft_id r' = raft_id r → raft_Term r <= raft_Term r' → node_repl Y i V r'.
Proof.
  intros [I W R T P C L M A] (Hs & Hc & Hl & (new & En & Fn) & (aft & Ea & Fa)) Hid Ht. destruct (Hl W) as (W' & Vw & _ & _).
  split; rewrite ?Vw, ?Hc; try done.
  - congruence.
  - by eapply within_mono.
  - eapply promises_later; [exact Ht|exact above|done].
  - by eapply settled_later.
  - intros Hst. destruct (Hs Hst) as [[= _ Es Et Ec _] Hm]. destruct (L ltac:(congruence)) as [L1 L2 L3 L4].
    split; rewrite ?Et, ?Vw; [done..| |].
    + unfold ProgressTracker_Voters. by rewrite Ec.
    + intros x n. rewrite Hm. apply L4.
  - rewrite En. apply Forall_app. split; [done|]. eapply Forall_impl; [exact Fn|]. intros m (H1 & H2 & _) _. split; congruence.
  - rewrite Ea. apply Forall_app. split; [eapply Forall_impl; [exact A|]; intros m; by apply owes_mono|].
    eapply Forall_impl; [exact Fa|]. intros m Hm ?. done.
Qed.

(** What is committed of a leader's log is committed of the history's. *)
Lemma lead_settled V r : node_repl Y i V r → raft_state r = StateLeader →
  settled b cfg Y (hy_log Y (raft_Term r)) (raft_Term r) (com r).
Proof.
  intros Hn Hs. destruct (rp_lead _ _ _ _ Hn Hs) as [_ [new E] _ _]. eapply settled_agree; [|apply (rp_settled _ _ _ _ Hn)].
  rewrite E. apply agree_sym, agree_extends. apply (lwf_committed _ (rp_wf _ _ _ _ Hn)).
Qed.

Lemma repl_speaks V r m :
  node_repl Y i V r → raft_state r = StateLeader → speaks r m → Message_GetTo m ≠ i → says_ok Y m.
Proof.
  intros Hn Hs (_ & Ha & Hsl & Hh) Hto. pose proof (lead_settled _ _ Hn Hs) as Hc. destruct (rp_lead _ _ _ _ Hn Hs) as [L [new E] _ M].
  split; intros Hty.
  - destruct (Ha Hty) as [Et Ec]. rewrite Et, Ec. split_and!; [done| |done]. rewrite E. apply slice_extends, Hsl, (rp_wf _ _ _ _ Hn).
  - destruct (Hh Hty) as (Et & Hle & mt & Hm & Hle'). rewrite Et. destruct (M _ _ Hm) as [_ [?|[?|[? _]]]]; [left; lia| |done].
    right. split_and!; [done|lia|]. eapply settled_le; [|exact Hc]. lia.
Qed.

Lemma standing_lead r r' : standing r' = standing r → raft_state r = StateLeader → raft_state r' = StateLeader ∧ raft_Term r' = raft_Term r.
Proof. intros [= _ -> -> _ _]. done. Qed.

Lemma repl_steady V r r' :
  node_repl Y i V r → raft_state r = StateLeader → steady r r' → node_repl Y i V r' ∧ raft_state r' = StateLeader ∧ raft_Term r' = raft_Term r.
Proof.
  intros Hn Hs Hst. destruct (Hst Hs) as (Hsd & Hm & Hl & (new & En & Fn) & (aft & Ea & Fa)).
  destruct (standing_lead _ _ Hsd Hs) as [Hs' Ht]. split; [|done]. injection Hsd as Ei _ _ Ec Eco.
  assert (Forall (fun m => Message_GetTo m ≠ i → says_ok Y m) new) as Hnew.
  { eapply Forall_impl; [exact Fn|]. intros m. by eapply repl_speaks. }
  destruct Hn as [I W R T P C L M A]. destruct (Hl W) as (W' & Vw & _). destruct (L Hs) as [L1 L2 L3 L4].
  split; rewrite ?Vw, ?Eco, ?Ht; try done; [congruence| | |].
  - intros _. split; rewrite ?Ht, ?Vw; [done..| |].
    + unfold ProgressTracker_Voters. by rewrite Ec.
    + intros x n. rewrite Hm. apply L4.
  - rewrite En. by apply Forall_app.
  - rewrite Ea. apply Forall_app. split; [done|]. eapply Forall_impl; [exact Fa|]. intros m Hmm ?. done.
Qed.

(** An acknowledgement that is in the history. *)
Definition ack_known m : Prop :=
  is_ack m → Message_GetIndex m <= b ∨ Message_GetIndex m <= hy_ack Y (Message_GetFrom m) (Message_GetTerm m).

Lemma repl_learns V r r' m :
  node_repl Y i V r → raft_state r = StateLeader → learns m r r' → counted_now m r → Message_GetType m = MsgAppResp →
  Message_GetReject m = false → ack_known m → node_repl Y i V r' ∧ raft_state r' = StateLeader ∧ raft_Term r' = raft_Term r.
Proof.
  intros [I W R T P C L M A] Hs (Hsd & El & Em & Ea & Hm) Hnow Hty Hrej Hack.
  destruct (standing_lead _ _ Hsd Hs) as [Hs' Ht]. split; [|done]. injection Hsd as Ei _ _ Ec _.
  destruct (L Hs) as [L1 L2 L3 L4]. split; rewrite ?El, ?Ht, ?Em, ?Ea; try done; [congruence|].
  intros _. split; rewrite ?Ht, ?El; [done..| |].
  - unfold ProgressTracker_Voters. by rewrite Ec.
  - intros x n Hx. destruct (Hm x n Hx) as [?|(-> & -> & Hpos)]; [by apply L4|]. split; [lia|].
    destruct Hack as [?|Hle]; [by split_and!|by left|]. destruct Hnow as [H0|<-]; [|right; by left].
    rewrite H0 in Hle. left. destruct (ho_ack _ _ _ _ _ Hok (Message_GetFrom m) 0) as [?|[Hl _]]; [lia|].
    by apply (term_led_pos _ _ _ _ _ Hok) in Hl.
Qed.

Lemma maybeCommit_inv (id : entryID) l ok l' :
  raftLog_maybeCommit id l = Ok (ok, l') → log_wf l →
  l' = l ∨ raftLog_committed l < entryID_index id <= log_last l ∧
    slog_term (log_view l) (entryID_index id) = Some (entryID_term id) ∧ l' = set_raftLog_committed (entryID_index id) l ∧ log_wf l'.
Proof.
  intros E W. unfold raftLog_maybeCommit in E. apply bind_Ok in E as (x & Ex & E). destruct x; [|injection E as _ <-; by left]. right.
  destruct (negb _ && _) eqn:Hb; [|done]. apply andb_true_iff in Hb as [_ Hlt%Z.ltb_lt]. apply bind_Ok in E as (l1 & El & [= _ <-]).
  unfold raftLog_commitTo in El. rewrite (proj2 (Z.ltb_lt _ _)) in El by done. rewrite lastIndex_ok in El by done.
  cbn [mbind outcome_bind] in El. revert El. zcase; [done|]. intros [= <-]. pose proof (log_last_bound _ W). pose proof (lwf_committed _ W).
  pose proof (log_base_bounds _ W). rewrite matchTerm_ok in Ex by (done || lia). injection Ex as Hm%bool_decide_eq_true.
  split_and!; [lia..|done|done|]. apply set_committed_wf; [done|lia].
Qed.

(** The commit rule. *)
Lemma repl_counts V r r' :
  node_repl Y i V r → raft_state r = StateLeader → counts r r' → node_repl Y i V r' ∧ raft_state r' = StateLeader ∧ raft_Term r' = raft_Term r.
Proof.
  intros Hn Hs (ok & l & E & ->). split; [|done]. apply maybeCommit_inv in E as [->|(Hk & Hm & -> & W')]; [by rewrite set_same_log| |apply Hn].
  set (k := entryID_index _) in *. cbn [entryID_term] in Hm. destruct Hn as [I W R T P C L M A]. destruct (L Hs) as [L1 [new L2] L3 L4].
  assert (b < k) as Hbk by (pose proof (lwf_committed _ W); destruct R as (B & _); cbn in B; lia).
  assert (committed_at cfg Y k (raft_Term r)) as Hcom.
  { assert (in_tree Y k (raft_Term r)) as Hin by (eapply rooted_key; [exact R|exact Hm|done]). split; [done|].
    pose proof (log_last_bound _ W). assert (quorum_acked r k) as [Q1 Q2] by (apply (quorum_acked_committed r k); [lia|]; unfold k; cbn; lia).
    rewrite L3 in Q1, Q2. clearbody k. exists (filter (fun x => k <= default 0 (match_of r x)) (cfg.1 ∪ cfg.2)). split.
    - split; [destruct Q1 as [?|Q1]; [by left|right]|destruct Q2 as [?|Q2]; [by left|right]]; etrans; try done;
        apply subseteq_size; intros x; unfold acked_ge, match_of, prs, AckedIndex, matchAckIndexer; set_solver.
    - intros x [Hx _]%elem_of_filter. destruct (match_of r x) as [n|] eqn:Ex; cbn in Hx; [|lia].
      destruct (L4 _ _ Ex) as [_ [?|[?|[_ Hle]]]]; [lia|lia|]. pose proof (own_after _ _ _ _ _ Hok _ _ Hin). lia. }
  split; try done.
  - right. exists k, (raft_Term r). clearbody k. split_and!; [done..|]. cbn [raft_raftLog set_raft_raftLog raftLog_committed set_raftLog_committed raft_Term]. rewrite L2. apply agree_sym, agree_extends. apply Hk.
  - intros _. split; [done|by exists new|done|exact L4].
Qed.

(** *** A follower *)

(** More is acknowledged in term [u]. *)
Definition raised V V' (u : Z) : Prop := ∀ t, V t <= V' t ∧ (t ≠ u → V' t = V t).

Lemma raised_refl V u : raised V V u.
Proof. done. Qed.

Lemma raised_insert V u n : raised V (<[u := Z.max (V u) n]> V) u.
Proof.
  intros t. destruct (decide (t = u)) as [->|]; [rewrite fn_lookup_insert; split; [lia|done]|by rewrite fn_lookup_insert_ne].
Qed.

Lemma raised_trans V1 V2 V3 u : raised V1 V2 u → raised V2 V3 u → raised V1 V3 u.
Proof. intros H1 H2 t. destruct (H1 t) as [? E1], (H2 t) as [? E2]. split; [lia|]. intros Ht. rewrite E2, E1; auto. Qed.

(** A log and what the entries after [p] make of it: unchanged where they agree,
    else cut at the first conflict and continued with them. *)
Definition spliced_at (g g' : slog) (p c : Z) (ents : list Entry) : Prop :=
  sl_base g' = sl_base g ∧ sl_term g' = sl_term g ∧
  (∀ k e, ents !! k = Some e → has g' (p + 1 + Z.of_nat k) (Entry_GetTerm e)) ∧
  (g' = g ∨ ∃ x, p < x <= p + len ents ∧ c < x ∧ slog_term g x ≠ slog_term g' x ∧
     (∀ y, y < x → slog_term g' y = slog_term g y) ∧ slog_last g' = p + len ents).

Lemma maybeAppend_cases a c l x l' :
  let p := entryID_index (logSlice_prev a) in
  let n := p + len (logSlice_entries a) in
  raftLog_maybeAppend a c l = Ok (x, l') → log_wf l → 0 <= p → contiguous p (logSlice_entries a) → n < MaxUint64 →
  room (len (logSlice_entries a)) l →
  x = None ∧ l' = l ∨
  x = Some n ∧ log_wf l' ∧ raftLog_committed l' = Z.max (raftLog_committed l) (Z.min c n) ∧
    has (log_view l) p (entryID_term (logSlice_prev a)) ∧
    spliced_at (log_view l) (log_view l') p (raftLog_committed l) (logSlice_entries a).
Proof.
  intros p n E W Hp Hc Hn Hr. pose proof (len_nonneg (logSlice_entries a)). unfold room in Hr. unfold n in *. clear n.
  pose proof (unstable_len _ W). pose proof (lwf_committed _ W) as Hcom. pose proof (log_base_bounds _ W).
  destruct (decide (slog_term (log_view l) p = Some (entryID_term (logSlice_prev a)))) as [Hm|Hm].
  2: { rewrite (maybeAppend_reject l a c W) in E by (fold p; done || lia). injection E as <- <-. by left. }
  destruct (maybeAppend_ok l a c) as (l1 & E1 & W' & C & _ & _ & _ & Hv & Ha); try done; try (fold p; lia).
  { intros k e He Hk. apply dec_stable. intros Hne.
    destruct (maybeAppend_conflict l a c W Hp Hc ltac:(fold p; lia) Hm) as [why Ep]; [by exists k, e|congruence]. }
  rewrite E in E1. injection E1 as -> <-. right. split_and!; [done..|]. destruct Hv as [(V & _)|(k & Hk & Hpk & V & Hne)].
  - rewrite V in Ha |- *. split_and!; [done..|by left].
  - fold p in Hpk, V, Ha, Hne. set (es := logSlice_entries a) in *. cbn [sl_base log_view] in Hcom.
    assert (sl_base (log_view l) <= p + Z.of_nat k <= log_last l) as Hq by (cbn [sl_base log_view]; lia).
    destruct (lookup_lt_is_Some_2 es k Hk) as [e He]. pose proof (Ha k e He) as Hae. rewrite V in Ha |- *. split_and!.
    + apply slog_append_base.
    + unfold slog_append. by destruct (_ <=? _).
    + exact Ha.
    + right. exists (p + 1 + Z.of_nat k). unfold len in *. split_and!; [lia..| | |].
      * rewrite <- V, Hae. exact (Hne e He).
      * intros y Hy. apply slog_append_term_old; [done|lia].
      * destruct (slog_append_last (log_view l) (p + Z.of_nat k) (drop k es) Hq) as [->|Ed].
        -- unfold len. rewrite length_drop. lia.
        -- apply (f_equal length) in Ed. rewrite length_drop in Ed. cbn in Ed. lia.
Qed.

(** With entries of the leader's log. *)
Lemma splice_follow T g g' h p pt c ents :
  rooted b bt T g → rooted b bt T h → slog_path T g' → has g p pt → has h p pt →
  (∀ k e, ents !! k = Some e → has h (p + 1 + Z.of_nat k) (Entry_GetTerm e)) → spliced_at g g' p c ents →
  rooted b bt T g' ∧ agree g' h (p + len ents) ∧ agree g' g c ∧ (∀ k t, has g k t → has h k t → has g' k t) ∧
  (∀ k t, has g' k t → has g k t ∨ has h k t).
Proof.
  intros Hg Hh Hp Hgp Hhp Hents (Eb & Et & Ha & Hs).
  assert (rooted b bt T g') as Hg' by (destruct Hg as (B & R & _); split_and!; [congruence..|done]).
  assert (has g' p pt) as Hpp.
  { destruct Hs as [->|(x & ? & _ & _ & Hlow & _)]; [done|]. unfold has. rewrite Hlow by lia. done. }
  assert (agree g' h (p + len ents)) as Hag.
  { destruct (last ents) as [e|] eqn:El.
    - rewrite last_lookup in El. pose proof (lookup_lt_Some _ _ _ El) as Hlt. unfold len.
      replace (p + Z.of_nat (length ents)) with (p + 1 + Z.of_nat (pred (length ents))) by lia.
      eapply rooted_agree; [exact Hg'|exact Hh|by apply Ha|by apply Hents].
    - apply last_None in El as ->. unfold len. cbn. rewrite Z.add_0_r. by eapply rooted_agree. }
  split_and!; [done|done| | |].
  - destruct Hs as [->|(x & ? & ? & _ & Hlow & _)]; [done|]. intros y Hy. apply Hlow. lia.
  - intros k t Hk1 Hk2. destruct Hs as [->|(x & Hx & _ & Hne & Hlow & _)]; [done|].
    destruct (Z.lt_ge_cases k x) as [Hlt|Hge]; [unfold has; by rewrite Hlow|]. exfalso. apply Hne.
    rewrite (rooted_agree _ _ _ _ _ _ _ Hg Hh Hk1 Hk2 x) by lia. symmetry. apply Hag. lia.
  - intros k t Hk. destruct Hs as [->|(x & _ & _ & _ & _ & Hl)]; [by left|right]. unfold has. rewrite <- Hag; [done|].
    apply has_bounds in Hk. lia.
Qed.

(** The entries of a slice. *)
Lemma slice_has g m : slice_of g m → Message_GetType m = MsgApp →
  has g (Message_GetIndex m) (Message_GetLogTerm m) ∧
  ∀ k e, Message_GetEntries m !! k = Some e → has g (Message_GetIndex m + 1 + Z.of_nat k) (Entry_GetTerm e).
Proof.
  intros Hs Ht. destruct (Hs Ht) as [Hm [rest Hr]]. split; [done|]. pose proof (slog_term_bounds _ _ _ Hm) as Hb. intros k e He.
  assert (drop (Z.to_nat (Message_GetIndex m - sl_base g)) (sl_ents g) !! k = Some e) as Hd by (rewrite Hr; by apply lookup_app_l_Some).
  rewrite lookup_drop in Hd. unfold has, slog_term. repeat zcase; try lia. replace (Z.to_nat _) with (Z.to_nat (Message_GetIndex m - sl_base g) + k)%nat by lia.
  by rewrite Hd.
Qed.

(** One message is sent with the rest unchanged. *)
Lemma send_later m r u r' :
  raft_send m r = Ok (u, r') → Message_GetType m = MsgAppResp → Message_GetFrom m = None_id →
  ∃ x, r' = set_raft_msgsAfterAppend (raft_msgsAfterAppend r ++ [x]) r ∧ Message_GetType x = MsgAppResp ∧
    Message_GetReject x = Message_GetReject m ∧ Message_GetFrom x = raft_id r ∧ Message_GetIndex x = Message_GetIndex m ∧
    Message_GetTerm x = raft_Term r.
Proof.
  intros (x & (Ht & _ & Hr & Hf & _ & [= Hi _ _]) & _ & Hte & Hs)%send_exact Hty Hfr. rewrite Hty in *. rewrite Hfr in Hf.
  destruct Hs as [[_ ->]|[Hp _]]; [|destruct Hp; by left]. exists x. split_and!; try done. by apply Hte.
Qed.

(** The log becomes [l] and what it now has is acknowledged. *)
Lemma repl_ack V r l n x :
  node_repl Y i V r → raft_state r = StateFollower → term_led Y (raft_Term r) → log_wf l →
  rooted b bt (hy_tree Y) (log_view l) → agree (log_view l) (hy_log Y (raft_Term r)) n → n <= slog_last (hy_log Y (raft_Term r)) →
  (∀ k t, has (view r) k t → has (hy_log Y (raft_Term r)) k t → has (log_view l) k t) →
  (∀ k t, has (log_view l) k t → has (view r) k t ∨ has (hy_log Y (raft_Term r)) k t) →
  settled b cfg Y (log_view l) (raft_Term r) (raftLog_committed l) →
  Message_GetFrom x = raft_id r → Message_GetIndex x = n → Message_GetTerm x = raft_Term r →
  let r' := set_raft_msgsAfterAppend (raft_msgsAfterAppend r ++ [x]) (set_raft_raftLog l r) in
  ∃ V', raised V V' (raft_Term r) ∧ node_repl Y i V' r'.
Proof.
  intros [I W R T P C L M A] Hs Hl W' R' Hag Hn Hk Ht Hc Hf Hi Hte r'. pose proof (raised_insert V (raft_Term r) n) as Hra.
  eexists. split; [exact Hra|]. split; try done.
  - split; [apply T|]. intros k t Hkt Hkb. change (raft_Term r') with (raft_Term r). destruct (Ht k t Hkt) as [?|Hh]; [by eapply T|].
    by eapply (log_terms _ _ _ _ _ Hok).
  - eapply (promises_follow _ _ _ _ _ Hok); [done..|]. exact P.
  - intros Hs'. cbn in Hs'. congruence.
  - cbn. apply Forall_app. split; [eapply Forall_impl; [exact A|]; intros m; apply owes_mono; [intros t; apply Hra|done]|].
    apply Forall_singleton. intros _. rewrite Hf, Hi, Hte. split_and!; [done..|]. right. rewrite fn_lookup_insert. lia.
Qed.

Lemma repl_append_msg V r m u r' :
  node_repl Y i V r → raft_state r = StateFollower → Message_GetType m = MsgApp → Message_GetTerm m = raft_Term r →
  says_ok Y m → msg_log_ok m r → raft_handleAppendEntries m r = Ok (u, r') → slog_path (hy_tree Y) (view r') →
  ∃ V', raised V V' (raft_Term r) ∧ node_repl Y i V' r'.
Proof.
  intros Hn Hs Hty Hte [Hsay _] (Hroom & Hfit & _) E Hp. destruct (Hsay Hty) as (Hl & Hsl & Hset). rewrite Hte in Hl, Hsl, Hset.
  destruct (Hfit Hty) as (H0 & Hcon & Hmax). destruct (slice_has _ _ Hsl Hty) as [Hh Hents].
  pose proof (rp_wf _ _ _ _ Hn) as W. pose proof (rp_view _ _ _ _ Hn) as R. pose proof (rp_settled _ _ _ _ Hn) as C.
  unfold raft_handleAppendEntries in E. run_inv E. injection E0 as <- <-. cbn [logSliceFromMsgApp logSlice_prev entryID_index] in E. destruct (Z.ltb_spec (Message_GetIndex m) (com r)) in E.
  - apply send_later in E as (x & -> & _ & _ & Hf & Hi & Hx); [|done..].
    destruct (settled_promise _ _ _ _ _ Hok Hcfg _ _ _ Hl R C) as [Hag Hle].
    pose proof (repl_ack V r (raft_raftLog r) (com r) x) as Hgo. cbn zeta in Hgo. rewrite set_same_log in Hgo. apply Hgo; auto.
  - run_inv E. apply on_log_inv in E0 as (l & -> & El). pose proof (len_nonneg (Message_GetEntries m)).
    apply maybeAppend_cases in El as [[-> ->]|(-> & W' & Hcm & Hgp & Hspl)]; [| |done..|eapply room_le; [|exact Hroom]; cbn; lia].
    + rewrite set_same_log in E. run_inv E. injection E0 as <- <-. run_inv E. apply bind_Ok in E0 as (? & _ & [= <- <-]).
      run_inv E. apply bind_Ok in E0 as (? & _ & [= <- <-]). run_inv E. apply bind_Ok in E0 as (? & _ & [= <- <-]).
      run_inv E. apply bind_Ok in E0 as (? & _ & [= <- <-]). exists V. split; [apply raised_refl|].
      apply send_later in E as (y & -> & _ & Hrej & _); [|done..]. destruct Hn as [I _ _ T P _ L M A]. split; try done; [intros Hs'; cbn in Hs'; congruence|]. cbn.
      apply Forall_app. split; [done|]. apply Forall_singleton. intros (_ & Hr & _). rewrite Hr in Hrej. done.
    + cbn [logSliceFromMsgApp logSlice_prev logSlice_entries entryID_index entryID_term] in *.
      apply send_later in E as (y & -> & _ & _ & Hf & Hi & Hx); [|done..].
      destruct (splice_follow _ _ _ _ _ _ _ _ R (ho_log _ _ _ _ _ Hok _ Hl) Hp Hgp Hh Hents Hspl) as (R' & Hag & Hgc & Hk & Ht).
      eapply (repl_ack V r l (Message_GetIndex m + len (Message_GetEntries m))); try done.
      * destruct (last (Message_GetEntries m)) as [e|] eqn:El.
        -- rewrite last_lookup in El. pose proof (Hents _ _ El) as Hb%has_bounds. apply lookup_lt_Some in El. unfold len. lia.
        -- apply last_None in El as ->. apply has_bounds in Hh. unfold len. cbn. lia.
      * rewrite Hcm. eapply settled_follow; [exact Hag|exact Hgc|exact C| |lia]. eapply settled_le; [|exact Hset]. lia.
Qed.

Lemma commitTo_inv c l l' :
  raftLog_commitTo c l = Ok l' → log_wf l →
  l' = set_raftLog_committed (Z.max (raftLog_committed l) c) l ∧ log_wf l'.
Proof.
  intros E W. destruct (Z.le_gt_cases c (log_last l)) as [Hle|Hgt].
  - destruct (commitTo_ok l c W Hle) as [E' W']. rewrite E' in E. by injection E as <-.
  - unfold raftLog_commitTo in E. pose proof (lwf_committed _ W). rewrite (proj2 (Z.ltb_lt _ _)) in E by lia.
    rewrite lastIndex_ok in E by done. cbn [mbind outcome_bind] in E. by rewrite (proj2 (Z.ltb_lt _ _)) in E by lia.
Qed.

Lemma repl_heartbeat V r m u r' :
  node_repl Y i V r → raft_state r = StateFollower → Message_GetType m = MsgHeartbeat → Message_GetTerm m = raft_Term r →
  says_ok Y m → Message_GetTo m = i → (∀ t, hy_ack Y i t <= V t) → raft_handleHeartbeat m r = Ok (u, r') → node_repl Y i V r'.
Proof.
  intros [I W R T P C L M A] Hs Hty Hte [_ Hsay] Hto Hle E. specialize (Hsay Hty). rewrite Hte, Hto in Hsay.
  unfold raft_handleHeartbeat in E. run_inv E. apply on_log__inv in E0 as (l & -> & El). apply commitTo_inv in El as [-> W']; [|done].
  assert (settled b cfg Y (view r) (raft_Term r) (Z.max (com r) (Message_GetCommit m))) as Hset.
  { destruct (Z.max_spec (com r) (Message_GetCommit m)) as [[_ ->]|[_ ->]]; [|done].
    destruct Hsay as [?|(Hl & Hc & Hset)]; [by left|]. destruct (Z.le_gt_cases (Message_GetCommit m) b) as [|Hgt]; [by left|].
    specialize (Hle (raft_Term r)). eapply settled_agree; [|exact Hset]. apply agree_sym.
    eapply agree_le; [apply (pm_agree _ _ _ _ _ P)|]; lia. }
  apply send_effect in E as (y & (Hx & _) & [[_ ->]|(_ & _ & ->)]); cbn in Hx.
  - split; try done; [intros Hs'; cbn in Hs'; congruence|]. cbn. apply Forall_app. split; [done|].
    apply Forall_singleton. intros (Ht & _). congruence.
  - split; try done; [intros Hs'; cbn in Hs'; congruence|]. cbn. apply Forall_app. split; [done|].
    apply Forall_singleton. intros _. split; intros Ht; congruence.
Qed.

Lemma repl_obeys V r m r' :
  node_repl Y i V r → raft_state r = StateFollower → Message_GetTerm m = raft_Term r → Message_GetType m ≠ MsgSnap →
  says_ok Y m → (Message_GetType m = MsgHeartbeat → Message_GetTo m = i) → (∀ t, hy_ack Y i t <= V t) → msg_log_ok m r → obeys m r r' → slog_path (hy_tree Y) (view r') →
  ∃ V', raised V V' (raft_Term r) ∧ node_repl Y i V' r'.
Proof.
  intros Hn Hs Ht Hty Hsay Hto Hle Hm (u & [[Hy E]|[[Hy E]|[? _]]]) Hp; [by eapply repl_append_msg| |done].
  exists V. split; [apply raised_refl|]. by eapply repl_heartbeat; auto.
Qed.

(** *** A leader appends *)

Lemma append_last es l li l' t :
  raftLog_append (clone_entries t (log_last l +! 1) es) l = Ok (li, l') → room (len es) l → log_wf l →
  log_adds t l l' ∧ li = log_last l' ∧ raftLog_committed l' = raftLog_committed l.
Proof.
  intros E Hr W. pose proof (append_adds _ _ _ _ _ E Hr W) as Ha. pose proof Ha as (W' & _). split; [done|].
  unfold raftLog_append in E. destruct (clone_entries _ _ _).
  - apply bind_Ok in E as (last & El & [= <- <-]). rewrite lastIndex_ok in El by done. by injection El as <-.
  - destruct (_ <? _); [done|]. apply bind_Ok in E as (u & _ & E). apply bind_Ok in E as (last & El & [= <- <-]).
    rewrite lastIndex_ok in El by done. by injection El as <-.
Qed.

(** What [appendEntry] does: nothing, or it appends and owes itself an
    acknowledgement. *)
Lemma appendEntry_inv es r ok r' :
  raft_appendEntry es r = Ok (ok, r') → room (len es) (raft_raftLog r) → log_wf (raft_raftLog r) →
  raft_id r' = raft_id r ∧ raft_state r' = raft_state r ∧ raft_Term r' = raft_Term r ∧ raft_trk r' = raft_trk r ∧
  raft_msgs r' = raft_msgs r ∧ log_adds (raft_Term r) (raft_raftLog r) (raft_raftLog r') ∧ com r' = com r ∧
  (raft_msgsAfterAppend r' = raft_msgsAfterAppend r ∨
   ∃ x, raft_msgsAfterAppend r' = raft_msgsAfterAppend r ++ [x] ∧ Message_GetFrom x = raft_id r ∧
     Message_GetTerm x = raft_Term r ∧ Message_GetIndex x = log_last (raft_raftLog r')).
Proof.
  intros E Hr W. unfold raft_appendEntry in E. run_inv E. injection E0 as <- <-. run_inv E.
  apply bind_Ok in E0 as (li & Eli & [= <- <-]). rewrite lastIndex_ok in Eli by done. injection Eli as <-. run_inv E.
  assert (∃ n, r0 = r ∨ r0 = set_raft_uncommittedSize n r) as [n Hr0].
  { revert E0. unfold raft_increaseUncommittedSize. intros E0. run_inv E0. injection E1 as <- <-.
    destruct (_ && _); [injection E0 as _ <-; exists 0; by left|]. run_inv E0. injection E1 as _ <-. injection E0 as _ <-. eexists. by right. }
  assert (raft_raftLog r0 = raft_raftLog r ∧ raft_Term r0 = raft_Term r ∧ raft_id r0 = raft_id r ∧ raft_state r0 = raft_state r ∧ raft_trk r0 = raft_trk r ∧
    raft_msgs r0 = raft_msgs r ∧ raft_msgsAfterAppend r0 = raft_msgsAfterAppend r) as (Hl & HT & HI & HS & HK & HM & HA) by (by destruct Hr0 as [-> | ->]).
  destruct x; cbn [negb] in E; [|injection E as _ <-; split_and!; try done; [rewrite Hl; by apply same_adds|by rewrite Hl|by left]].
  run_inv E. apply on_log_inv in E1 as (l & -> & El). run_inv E. injection E as _ <-.
  apply send_later in E1 as (y & -> & _ & _ & Hf & Hi & Ht); [|done..]. rewrite Hl in El.
  apply append_last in El as (Ha & -> & Hc); [|done..]. split_and!; try done.
  right. exists y. cbn in Hf, Ht. cbn [raft_msgsAfterAppend set_raft_msgsAfterAppend set_raft_raftLog].
  rewrite HA, Hf, Ht. split_and!; [done..|]. exact Hi.
Qed.

Lemma repl_append V r es ok r' :
  node_repl Y i V r → raft_state r = StateLeader → room (len es) (raft_raftLog r) → raft_appendEntry es r = Ok (ok, r') →
  (∃ new, hy_log Y (raft_Term r) = extends (view r') new) → slog_path (hy_tree Y) (view r') →
  ∃ V', raised V V' (raft_Term r) ∧ node_repl Y i V' r' ∧ raft_state r' = StateLeader ∧ raft_Term r' = raft_Term r.
Proof.
  intros [I W R T P C L M A] Hs Hr E Hlog Hp. destruct (L Hs) as [L1 _ L3 L4].
  destruct (appendEntry_inv _ _ _ _ E Hr W) as (Ei & Es & Et & Ek & Em & (W' & _ & _ & new & Vw & Hnew) & Ec & Ea).
  assert (rooted b bt (hy_tree Y) (view r')) as R' by (destruct R as (B & Q & _); rewrite Vw in Hp |- *; by split_and!).
  destruct Hlog as [ext Hlog].
  assert (agree (view r') (hy_log Y (raft_Term r)) (slog_last (view r')) ∧ slog_last (view r') <= slog_last (hy_log Y (raft_Term r))) as [Hag Hla].
  { rewrite Hlog. split; [by apply agree_sym, agree_extends|]. rewrite slog_last_extends. pose proof (len_nonneg ext). lia. }
  assert (∀ k t, has (view r) k t → has (view r') k t) as Hk.
  { intros k t Hk. unfold has. rewrite Vw, extends_has; [done|]. apply has_bounds in Hk. lia. }
  pose proof (raised_insert V (raft_Term r) (slog_last (view r'))) as Hra. eexists. split; [exact Hra|]. split_and!; [|congruence..].
  split; rewrite ?Ei, ?Es, ?Et, ?Em, ?Ec; try done.
  - split; [apply T|]. intros k t Hkt _. eapply (log_terms _ _ _ _ _ Hok); [exact L1|]. unfold has. rewrite <- Hag; [done|]. apply has_bounds in Hkt. lia.
  - eapply (promises_follow _ _ _ _ _ Hok); [done..| |exact P]. auto.
  - eapply settled_agree; [|exact C]. rewrite Vw. apply agree_sym, agree_extends. apply (lwf_committed _ W).
  - intros _. split; rewrite ?Et; [done|by exists ext|by rewrite Ek|]. unfold match_of, prs. rewrite Ek. exact L4.
  - assert (Forall (owes (<[raft_Term r := Z.max (V (raft_Term r)) (slog_last (view r'))]> V) i (raft_Term r)) (raft_msgsAfterAppend r)) as Hold.
    { eapply Forall_impl; [exact A|]. intros m. apply owes_mono; [intros t; apply Hra|done]. }
    destruct Ea as [->|(x & -> & Hf & Ht & Hi)]; [done|]. apply Forall_app. split; [done|]. apply Forall_singleton. intros _.
    rewrite Hf, Ht, Hi. split_and!; [done..|]. right. rewrite fn_lookup_insert. lia.
Qed.

(** *** An election is won *)

Lemma becomeLeader_inv r u r' :
  raft_becomeLeader r = Ok (u, r') →
  ∃ r1 ok, raft_appendEntry [Entry0] r1 = Ok (ok, r') ∧ raft_id r1 = raft_id r ∧ raft_state r1 = StateLeader ∧
    raft_Term r1 = raft_Term r ∧ raft_raftLog r1 = raft_raftLog r ∧ raft_msgs r1 = raft_msgs r ∧
    raft_msgsAfterAppend r1 = raft_msgsAfterAppend r ∧ ProgressTracker_Config (raft_trk r1) = ProgressTracker_Config (raft_trk r) ∧
    ∀ x n, match_of r1 x = Some n → fresh_match r x n.
Proof.
  unfold raft_becomeLeader. intros E. run_inv E. injection E0 as <- <-. destruct (st_eqb _ _); [done|].
  run_inv E. injection E0 as _ <-. run_inv E. pose proof (reset_effect _ _ _ _ E0) as [(_ & HI & HT & _ & HL & HM & HA & _) _].
  apply reset_match in E0 as [(_ & _ & HC) Hm]. cbn in HI, HT, HL, HM, HA. rewrite Z.eqb_refl in HI, HT, HL, HM, HA. cbn in HI, HT, HL, HM, HA.
  do 3 run_inv E. injection E0 as _ <-. injection E1 as _ <-. injection E2 as _ <-. run_inv E.
  unfold modify_pr in E0. run_inv E0. apply get_pr_inv in E1 as [-> Hp]. injection E0 as _ <-.
  run_inv E. injection E0 as <- <-. run_inv E. apply bind_Ok in E0 as (li & _ & [= <- <-]). run_inv E. injection E0 as _ <-. run_inv E.
  assert (r1 = r') as -> by (destruct (negb _); [done|by injection E as _ <-]).
  eexists _, _. split; [exact E0|]. split_and!; try done. intros y n Hy. apply (Hm y n). rewrite <- Hy.
  unfold match_of, prs in Hp |- *. cbn in Hp |- *. destruct (decide (y = raft_id r)) as [->|Hne].
  - rewrite Hp, lookup_insert_eq. done.
  - by rewrite lookup_insert_ne.
Qed.

Lemma repl_win V r p u r' :
  node_repl Y i V r → raft_state r = StateCandidate → ProgressTracker_Config p = ProgressTracker_Config (raft_trk r) →
  ProgressTracker_Voters (raft_trk r) = cfg → room 1 (raft_raftLog r) → raft_becomeLeader (set_raft_trk p r) = Ok (u, r') →
  term_led Y (raft_Term r) → hy_elect Y (raft_Term r) = view r →
  (∃ new, hy_log Y (raft_Term r) = extends (view r') new) → slog_path (hy_tree Y) (view r') →
  ∃ V', raised V V' (raft_Term r) ∧ node_repl Y i V' r' ∧ raft_state r' = StateLeader ∧ raft_Term r' = raft_Term r.
Proof.
  intros [I W R T P C L M A] Hs Hpc Hvo Hr E Hled Hel Hlog Hp.
  apply becomeLeader_inv in E as (r1 & ok & E & E1 & E2 & E3 & E4 & E5 & E6 & E7 & Hm). cbn in E1, E3, E4, E5, E6, E7.
  rewrite <- E3. eapply (repl_append V r1 [Entry0]); rewrite ?E3, ?E4; try done.
  split; rewrite ?E1, ?E2, ?E3, ?E4, ?E5, ?E6; try done. intros _. split; rewrite ?E3, ?E4; try done.
  - destruct (appendEntry_inv _ _ _ _ E) as (_ & _ & _ & _ & _ & (_ & _ & _ & new & Vw & _) & _); rewrite ?E4; [done..|].
    destruct Hlog as [ext Hlog]. rewrite E4 in Vw. exists (new ++ ext). by rewrite Hlog, Vw, extends_app.
  - unfold ProgressTracker_Voters in *. by rewrite E7, Hpc.
  - intros x n Hx. destruct (Hm x n Hx) as [->|[-> Hla]]; [split; [done|by left]|]. cbn in Hla. rewrite lastIndex_ok in Hla by done.
    injection Hla as <-. pose proof (log_last_bound _ W). split; [lia|]. right. right. rewrite Hel. split; [done|lia].
Qed.

(** *** Any step *)

Lemma obeys_stays m r r' : obeys m r r' → Message_GetType m ≠ MsgSnap → stays r r'.
Proof.
  assert (∀ A (f : raftLog S → outcome (A * raftLog S)), rel stays (on_log f)) as H1 by (intros; by apply rel_on_log).
  assert (∀ f : raftLog S → outcome (raftLog S), rel stays (on_log_ f)) as H2 by (intros; by apply rel_on_log_).
  assert (∀ m : Message, rel (S:=S) stays (raft_send m)) as H3 by (apply stays_send).
  intros (u & [[_ E]|[[_ E]|[? _]]]) ?; [| |done].
  - unfold raft_handleAppendEntries in E. rest_rel (@stays S) E.
  - unfold raft_handleHeartbeat in E. rest_rel (@stays S) E.
Qed.

Lemma steady_view V r r' : node_repl Y i V r → raft_state r = StateLeader → steady r r' → view r' = view r.
Proof. intros Hn Hs Hst. destruct (Hst Hs) as (_ & _ & Hl & _). by destruct (Hl (rp_wf _ _ _ _ Hn)) as (_ & ? & _). Qed.

(** The message of a step, as far as it bears on replication. *)
Record msg_repl m r : Prop := mkmsg_repl {
  mr_says : says_ok Y m;
  mr_to : Message_GetType m = MsgHeartbeat → Message_GetTo m = i;
  mr_ack : ack_known m;
  mr_type : Message_GetType m ≠ MsgSnap;
  mr_fits : msg_log_ok m r;
}.

Lemma repl_room V r r' n : node_repl Y i V r → log_same (raft_raftLog r) (raft_raftLog r') → room n (raft_raftLog r) → room n (raft_raftLog r').
Proof. intros Hn. apply room_same, (rp_wf _ _ _ _ Hn). Qed.

Lemma repl_does V r m r' :
  node_repl Y i V r → does m r r' → raft_id r' = raft_id r → raft_Term r <= raft_Term r' → msg_repl m r →
  ProgressTracker_Voters (raft_trk r) = cfg → (∀ t, hy_ack Y i t <= V t) → slog_path (hy_tree Y) (view r') →
  (raft_state r' = StateLeader → term_led Y (raft_Term r') ∧ ∃ new, hy_log Y (raft_Term r') = extends (view r') new) →
  (wins m r → counted_now m r → hy_elect Y (raft_Term r) = view r) →
  ∃ V', raised V V' (raft_Term r') ∧ node_repl Y i V' r'.
Proof.
  intros Hn Hd Hid Hte [Hsay Hto Hack Hty Hfit] Hvo Hle Hp Hlead Hwin.
  destruct Hd as [r' Hm|r0 r' Hj Ho|r' Hs Hst|r1 r2 r' Hs Hnow Hmt Hrej H1 Hln H2|r1 r2 r3 r4 r' Hs Hnow Hmt Hrej H1 Hln H3 Hct H4
    |r0 r1 es ok r2 r' Hs H0 Hs0 H1 Ha H2 Hlen|u r2 r' Hw Hnow Hbl H2].
  - exists V. split; [apply raised_refl|]. by eapply repl_mute.
  - pose proof Hj as (Ji & Js & Jt & Jle & Jl & _). assert (node_repl Y i V r0) as Hn0 by (eapply repl_mute; [exact Hn|by eapply joins_mute|done|lia]).
    destruct (obeys_stays _ _ _ Ho Hty) as [_ ->]. eapply repl_obeys; try done. unfold msg_log_ok. by rewrite Jl.
  - destruct (repl_steady _ _ _ Hn Hs Hst) as (Hn' & _). exists V. split; [apply raised_refl|done].
  - destruct (repl_steady _ _ _ Hn Hs H1) as (Hn1 & Hs1 & Ht1).
    destruct (repl_learns _ _ _ m Hn1 Hs1 Hln) as (Hn2 & Hs2 & Ht2); [unfold counted_now; by rewrite Ht1|done..|].
    destruct (repl_steady _ _ _ Hn2 Hs2 H2) as (Hn' & _). exists V. split; [apply raised_refl|done].
  - destruct (repl_steady _ _ _ Hn Hs H1) as (Hn1 & Hs1 & Ht1).
    destruct (repl_learns _ _ _ m Hn1 Hs1 Hln) as (Hn2 & Hs2 & Ht2); [unfold counted_now; by rewrite Ht1|done..|].
    destruct (repl_steady _ _ _ Hn2 Hs2 H3) as (Hn3 & Hs3 & _). destruct (repl_counts _ _ _ Hn3 Hs3 Hct) as (Hn4 & Hs4 & _).
    destruct (repl_steady _ _ _ Hn4 Hs4 H4) as (Hn' & _). exists V. split; [apply raised_refl|done].
  - assert (standing r0 = standing r) as Hst0 by (by apply H0). injection Hst0 as Hi0 _ Ht0 _ _.
    assert (node_repl Y i V r0) as Hn0 by (eapply repl_mute; [exact Hn|exact H0|done|lia]).
    destruct (repl_steady _ _ _ Hn0 Hs0 H1) as (Hn1 & Hs1 & Ht1).
    assert (room (len es) (raft_raftLog r1)) as Hr1.
    { eapply (repl_room V r0); [exact Hn0|by apply H1|]. eapply (repl_room V r); [exact Hn|apply H0|]. eapply room_le; [exact Hlen|apply Hfit]. }
    destruct (appendEntry_inv _ _ _ _ Ha Hr1 (rp_wf _ _ _ _ Hn1)) as (_ & Hs2 & Ht2 & _ & _ & (W2 & _) & _).
    rewrite Hs1 in Hs2. destruct (H2 Hs2) as (Hsd & _ & Hl2 & _). destruct (standing_lead _ _ Hsd Hs2) as [Hs' Ht'].
    destruct (Hl2 W2) as (_ & Vw & _). destruct (Hlead Hs') as [_ Hlog]. rewrite Ht', Vw, Ht2 in Hlog. rewrite Vw in Hp.
    destruct (repl_append _ _ _ _ _ Hn1 Hs1 Hr1 Ha Hlog Hp) as (V' & Hra & Hn2 & _). exists V'. rewrite Ht', Ht2. split; [done|].
    by eapply repl_steady.
  - pose proof (Hwin Hw Hnow) as Hel. destruct Hw as (_ & Hs & _). pose proof (stays_becomeLeader _ _ _ Hbl) as [Hs2 Ht2]. cbn in Ht2.
    pose proof (becomeLeader_grows _ _ _ Hbl) as [_ Hg]. assert (room 1 (raft_raftLog r)) as Hr.
    { eapply room_le; [|apply Hfit]. pose proof (len_nonneg (Message_GetEntries m)). lia. }
    destruct (Hg Hr (rp_wf _ _ _ _ Hn)) as [(W2 & _) _]. destruct (H2 Hs2) as (Hsd & _ & Hl2 & _).
    destruct (standing_lead _ _ Hsd Hs2) as [Hs' Ht']. destruct (Hl2 W2) as (_ & Vw & _).
    destruct (Hlead Hs') as [Hled Hlog]. rewrite Ht', Ht2 in Hled. rewrite Ht', Vw, Ht2 in Hlog. rewrite Vw in Hp.
    destruct (repl_win V r _ _ _ Hn Hs (RecordVote_config _ _ _) Hvo Hr Hbl Hled Hel Hlog Hp) as (V' & Hra & Hn2 & _).
    exists V'. rewrite Ht', Ht2. split; [done|]. by eapply repl_steady.
Qed.

(** The clock. *)
Lemma repl_tick V r u r' :
  node_repl Y i V r → raft_run_tick r = Ok (u, r') → raft_id r' = raft_id r → raft_Term r <= raft_Term r' → node_repl Y i V r'.
Proof.
  intros Hn E Hid Hte. apply tick_does in E as (r1 & Hm & [->|[Hs Hst]]); [by eapply repl_mute|].
  destruct (Hst Hs) as ([= Hi1 _ Ht1 _ _] & _). assert (node_repl Y i V r1) as Hn1 by (eapply repl_mute; [exact Hn|exact Hm|congruence|lia]).
  by eapply repl_steady.
Qed.

End steps.
End repl.

(** ** Elections *)

(** The last entry that a request for a vote names. *)
Definition msg_id (m : Message) : entryID := mkentryID (Message_GetLogTerm m) (Message_GetIndex m).

Section elect.
Context {S : Type} `{Protobuf, !ProtobufLaws _} `{!Storage S} `{!StorageLaws S}.
Context (b bt : Z) (cfg : JointConfig).
Implicit Types (r : raft S) (Y : history) (V : Z → Z) (m : Message) (sent : list Message) (votes : Z → gmap Z Z).

Abbreviation view r := (log_view (raft_raftLog r)).

(** A vote of term [t] for [i], by a node that has acknowledged [acks]: [i] has
    asked for it, or the term has a leader already. *)
Definition backed sent Y (acks : Z → Z) (t i : Z) : Prop :=
  term_led Y t ∨ ∃ m, m ∈ sent ∧ Message_GetType m = MsgVote ∧ Message_GetFrom m = i ∧ Message_GetTerm m = t ∧
    voted b bt Y acks t (msg_id m).

Definition vote_known sent votes Y (i t x : Z) : Prop :=
  x = i ∨ votes x !! t = Some i ∧ backed sent Y (hy_ack Y x) t i.

Definition grant_backed sent Y V (i u : Z) m : Prop :=
  is_grant m → Message_GetTo m = i ∨ Message_GetTerm m <= u ∧ backed sent Y V (Message_GetTerm m) (Message_GetTo m).

Record node_elect sent votes Y (i : Z) V r : Prop := mknode_elect {
  ne_terms : raft_state r = StateCandidate → below b bt (view r) (raft_Term r);
  ne_votes : raft_state r = StateCandidate → ∀ x, votes_of r !! x = Some true → vote_known sent votes Y i (raft_Term r) x;
  ne_asked : raft_state r = StateCandidate → ∀ m, m ∈ sent ∨ m ∈ raft_msgs r → Message_GetType m = MsgVote →
    Message_GetFrom m = i → Message_GetTerm m = raft_Term r → msg_id m = last_id (view r);
  ne_grants : Forall (grant_backed sent Y V i (raft_Term r)) (raft_msgsAfterAppend r);
}.

Section mono.
Context (votes votes' : Z → gmap Z Z) (Y Y' : history) (sent sent' : list Message).
Hypothesis Hev : evolved b votes Y Y'.
Hypothesis Hok : history_ok b bt cfg votes Y.
Hypothesis Hvo : ∀ x, votes x ⊆ votes' x.
Hypothesis Hsent : sent ⊆ sent'.

Lemma backed_mono acks acks' t i :
  (∀ u, u < t → acked b Y u (acks u)) → (∀ u, u < t → acks' u = acks u) → backed sent Y acks t i → backed sent' Y' acks' t i.
Proof.
  intros Ha Heq [?|(m & ? & ? & ? & ? & Hv)]; [left; by apply (term_led_mono _ _ _ _ Hev)|right].
  exists m. split_and!; [by apply Hsent|done..|]. by eapply voted_mono.
Qed.

Lemma vote_known_mono i t x : vote_known sent votes Y i t x → vote_known sent' votes' Y' i t x.
Proof.
  intros [?|[Hx Hb]]; [by left|right]. split; [by eapply lookup_weaken|]. eapply backed_mono; [..|exact Hb].
  - intros u _. apply (ho_ack _ _ _ _ _ Hok).
  - intros u Hu. apply (el_past _ _ _ _ Hev x u t); [by rewrite Hx|done].
Qed.

Lemma grant_backed_mono V i u m : (∀ t, acked b Y t (V t)) → grant_backed sent Y V i u m → grant_backed sent' Y' V i u m.
Proof.
  intros Ha Hg Hm. destruct (Hg Hm) as [?|[? Hb]]; [by left|right]. split; [done|]. by eapply backed_mono; auto.
Qed.

(** Other nodes have made progress; none of what they sent asks for votes in the
    name of [i]. *)
Lemma node_elect_mono i V r :
  (∀ m, m ∈ sent' → Message_GetType m = MsgVote → Message_GetFrom m = i → m ∈ sent ∨ m ∈ raft_msgs r) →
  (∀ t, acked b Y t (V t)) → node_elect sent votes Y i V r → node_elect sent' votes' Y' i V r.
Proof.
  intros Hnew Ha [T Vo A G]. split; [done| | |].
  - intros Hs x Hx. by apply vote_known_mono, Vo.
  - intros Hs m Hm Ht Hf. apply A; [done| |done..]. destruct Hm as [Hm|?]; [by apply Hnew|by right].
  - eapply Forall_impl; [exact G|]. intros m. by apply grant_backed_mono.
Qed.

End mono.

(** A granted vote is of a term between the two. *)
Lemma grant_terms G r r' m new :
  evolves G r r' → raft_msgsAfterAppend r' = raft_msgsAfterAppend r ++ new → m ∈ new → is_grant m →
  raft_Term r <= Message_GetTerm m <= raft_Term r'.
Proof.
  intros [_ _ _ _ _ _ _ _ _ (new' & E & _ & _ & Hh)] E' Hin Hg. rewrite E in E'. apply app_inv_head in E' as ->.
  pose (v := if raft_Vote r =? None_id then None else Some (raft_Vote r)).
  pose (h := fun w => partial_alter (fun _ => v) (raft_Term r) ({[Message_GetTerm m := w]} : gmap Z Z)).
  assert (∀ w, Message_GetTerm m < raft_Term r → hist_ok (h w) (raft_Term r) (raft_Vote r) ∧ h w !! Message_GetTerm m = Some w) as H1.
  { intros w Hlt. unfold h. split; [split|].
    - intros t x. destruct (decide (t = raft_Term r)) as [->|]; [done|]. rewrite lookup_partial_alter_ne by done.
      intros [<- _]%lookup_singleton_Some. lia.
    - by rewrite lookup_partial_alter_eq.
    - rewrite lookup_partial_alter_ne by lia. apply lookup_singleton_eq. }
  assert (∀ h0, hist_ok h0 (raft_Term r) (raft_Vote r) → ∃ h', h0 ⊆ h' ∧ hist_ok h' (raft_Term r') (raft_Vote r') ∧
    h' !! Message_GetTerm m = Some (Message_GetTo m)) as H2.
  { intros h0 H0. destruct (Hh h0 H0) as (h' & ? & ? & Hf). exists h'. split_and!; [done..|]. rewrite Forall_forall in Hf.
    by destruct (Hf m Hin Hg) as (_ & _ & ?). }
  split.
  - destruct (Z.le_gt_cases (raft_Term r) (Message_GetTerm m)) as [|Hlt]; [done|]. exfalso.
    destruct (H1 (Message_GetTo m + 1) ltac:(lia)) as [Hok Hl]. destruct (H2 _ Hok) as (h' & Hs & _ & Hl').
    eapply lookup_weaken in Hl; [|exact Hs]. rewrite Hl in Hl'. injection Hl'. lia.
  - destruct (H2 (if decide (v = None) then ∅ else {[raft_Term r := raft_Vote r]})) as (h' & _ & [Hle _] & Hl').
    + unfold v, hist_ok. destruct (_ =? _); cbn; [rewrite decide_True by done|rewrite decide_False by done].
      * split; [intros t x; by rewrite lookup_empty|apply lookup_empty].
      * split; [intros t x [<- _]%lookup_singleton_Some; lia|apply lookup_singleton_eq].
    + by eapply Hle.
Qed.

(** ** A step *)

Lemma does_candidate m r r' : does m r r' → Message_GetType m ≠ MsgSnap → raft_state r' = StateCandidate → mute r r'.
Proof.
  assert (∀ r1 r2 : raft S, steady r1 r2 → raft_state r1 = StateLeader → raft_state r2 = StateLeader) as Hst.
  { intros r1 r2 Hst Hs. destruct (Hst Hs) as ([= _ E _ _ _] & _). congruence. }
  intros Hd Hty Hc.
  destruct Hd as [r' ?|r0 r' (_ & Hs & _) Ho|r' ? H1|r1 r2 r' ? ? ? ? H1 Hln H2|r1 r2 r3 r4 r' ? ? ? ? H1 Hln H3 Hct H4
    |r0 r1 es ok r2 r' ? ? ? H1 Ha H2 ?|u r2 r' ? ? Hbl H2]; [done|exfalso..].
  - destruct (obeys_stays _ _ _ Ho Hty). congruence.
  - apply Hst in H1; congruence.
  - apply Hst in H1; [|done]. destruct Hln as ([= _ E _ _ _] & _). apply Hst in H2; congruence.
  - apply Hst in H1; [|done]. destruct Hln as ([= _ E _ _ _] & _). apply Hst in H3; [|congruence]. destruct Hct as (? & ? & _ & ->).
    apply Hst in H4; [congruence|done].
  - apply Hst in H1; [|done]. apply stays_appendEntry in Ha as [Ha _]. apply Hst in H2; congruence.
  - apply stays_becomeLeader in Hbl as [Hs _]. apply Hst in H2; congruence.
Qed.

Lemma does_leader m r r' : does m r r' → Message_GetType m ≠ MsgSnap → raft_state r' = StateLeader → raft_Term r' = raft_Term r.
Proof.
  assert (∀ r1 r2 : raft S, steady r1 r2 → raft_state r1 = StateLeader → raft_state r2 = StateLeader ∧ raft_Term r2 = raft_Term r1) as Hst.
  { intros r1 r2 Hst Hs. destruct (Hst Hs) as ([= _ E E' _ _] & _). split; congruence. }
  intros Hd Hty Hl.
  destruct Hd as [r' Hm|r0 r' (_ & Hs & _) Ho|r' ? H1|r1 r2 r' ? ? ? ? H1 Hln H2|r1 r2 r3 r4 r' ? ? ? ? H1 Hln H3 Hct H4
    |r0 r1 es ok r2 r' ? Hm Hs0 H1 Ha H2 ?|u r2 r' ? ? Hbl H2].
  - destruct Hm as [Hm _]. by destruct (Hm Hl) as [[= _ _ ? _ _] _].
  - destruct (obeys_stays _ _ _ Ho Hty). congruence.
  - by apply Hst in H1 as [_ ?].
  - apply Hst in H1 as [? ?]; [|done]. destruct Hln as ([= _ E Et _ _] & _). apply Hst in H2 as [_ ?]; congruence.
  - apply Hst in H1 as [? ?]; [|done]. destruct Hln as ([= _ E Et _ _] & _). apply Hst in H3 as [? ?]; [|congruence].
    destruct Hct as (? & ? & _ & ->). apply Hst in H4 as [_ Et4]; [cbn in Et4; congruence|done].
  - destruct Hm as [Hm _]. destruct (Hm Hs0) as [[= _ _ E0 _ _] _]. apply Hst in H1 as [? ?]; [|done].
    apply stays_appendEntry in Ha as [? ?]. apply Hst in H2 as [_ ?]; congruence.
  - apply stays_becomeLeader in Hbl as [? Ht]. cbn in Ht. apply Hst in H2 as [_ ?]; congruence.
Qed.

Lemma tick_candidate r u r' : raft_run_tick r = Ok (u, r') → raft_state r' = StateCandidate → mute r r'.
Proof.
  intros (r1 & Hm & [->|[Hs Hst]])%tick_does Hc; [done|]. destruct (Hst Hs) as ([= _ E _ _ _] & _). congruence.
Qed.

(** What a step may be granted. *)
Definition vote_grants sent votes Y (i : Z) m r : grants :=
  mkgrants (fun t v => Message_GetType m = MsgVote ∧ Message_GetFrom m = v ∧ Message_GetTerm m = t ∧
              up_to_date (msg_id m) (raft_raftLog r))
    (fun _ => True) (vote_known sent votes Y i).

Lemma vote_conditions sent votes Y i m r :
  (Message_GetType m = MsgVoteResp → Message_GetReject m = false → counted_now m r →
    vote_known sent votes Y i (raft_Term r) (Message_GetFrom m)) →
  Step_conditions (vote_grants sent votes Y i m r) m r.
Proof.
  intros Hk. split; [intros Hn; split; [by intros ?|intros Ht _ Hr; by apply Hk]|]. intros Ht Hu. cbn. split_and!; try done. by apply isUpToDate_spec.
Qed.

Lemma up_to_date_newer m l : log_wf l → up_to_date (msg_id m) l → newer (msg_id m) (log_view l).
Proof.
  intros W (last & E & Hu). destruct (lastEntryID_ok l W) as (t & E' & Ht). rewrite E in E'. injection E' as ->. cbn in Hu.
  unfold newer, last_id. cbn. rewrite Ht. cbn. destruct Hu as [?|[? ?]]; [by left|right; by split].
Qed.

(** The log speaks for a vote that is cast now. *)
Lemma voted_now Y g u t acks acks' id :
  rooted b bt (hy_tree Y) g → promises b Y g u acks → newer id g → u <= t → ¬ term_led Y t → (∀ t', t' < t → acks' t' <= acks t') →
  voted b bt Y acks' t id.
Proof.
  intros Hr Hp Hn Hu Hl Hle. exists g. split_and!; [done..|]. intros t' Ht k Hk Hin. specialize (Hle t' Ht).
  destruct (pm_keeps _ _ _ _ _ Hp t' k ltac:(lia) Hin) as [?|(v & Hv & Hlo)]; [by left|right]. exists v. split; [|done].
  destruct (decide (v = t)) as [->|]; [by destruct Hlo as (_ & ? & _)|lia].
Qed.

#[export] Instance term_led_dec Y t : Decision (term_led Y t).
Proof.
  destruct (decide (set_Exists (fun p => p.2 = t) (hy_led Y))) as [He|Hn]; [left|right].
  - destruct He as ([j u] & Hin & Hu). cbn in Hu. subst. by exists j.
  - intros [j Hj]. apply Hn. by exists (j, t).
Defined.

Lemma elect_step sent votes Y i V V' m r r' :
  node_elect sent votes Y i V r → raft_id r = i → log_wf (raft_raftLog r) → rooted b bt (hy_tree Y) (view r) →
  within b bt (view r) (raft_Term r) → 0 <= raft_Term r → promises b Y (view r) (raft_Term r) V →
  evolves (vote_grants sent votes Y i m r) r r' → raised V V' (raft_Term r') → (raft_state r' = StateCandidate → mute r r') →
  (∀ x, x ∈ sent ∨ x ∈ raft_msgs r → Message_GetType x = MsgVote → Message_GetFrom x = i → Message_GetTerm x <= raft_Term r) →
  (Message_GetType m = MsgVote → m ∈ sent) →
  node_elect sent votes Y i V' r'.
Proof.
  intros [T Vo A Gr] Hid W R Hte H0 Hp Hev Hra Hmu Hpast Hin. pose proof (ev_term _ _ _ Hev) as Hle. split.
  - intros Hs. destruct (Hmu Hs) as (_ & _ & Hl & _). destruct (Hl W) as (_ & -> & _).
    destruct (ev_cand _ _ _ Hev Hs) as [[Hs0 ->]|Hlt]; [by apply T|]. by eapply within_below.
  - intros Hs x Hx. destruct (ev_votes _ _ _ Hev Hs x Hx) as [(Hs0 & -> & Hx0)|?]; [by apply Vo|done].
  - intros Hs x Hx Hty Hf Ht. destruct (Hmu Hs) as (_ & _ & Hl & (new & En & Fn) & _). destruct (Hl W) as (_ & -> & _).
    rewrite En, elem_of_app in Hx.
    assert (x ∈ sent ∨ x ∈ raft_msgs r → msg_id x = last_id (view r)) as Hold.
    { intros Hx'. specialize (Hpast x Hx' Hty Hf). destruct (ev_cand _ _ _ Hev Hs) as [[Hs0 Et]|Hlt]; [|lia]. apply A; try done. congruence. }
    destruct Hx as [Hx|[Hx|Hx]]; [by apply Hold; left|by apply Hold; right|]. rewrite Forall_forall in Fn.
    destruct (Fn x Hx) as (_ & _ & Hv). destruct (Hv Hty W) as [Ei El]. unfold msg_id, last_id. rewrite Ei, El. done.
  - destruct (ev_later _ _ _ Hev) as (new & En & _ & Fa & _). rewrite En. apply Forall_app. split.
    + eapply Forall_impl; [exact Gr|]. intros x Hx Hg. destruct (Hx Hg) as [?|[? Hb]]; [by left|right]. split; [lia|].
      eapply (backed_mono votes Y Y sent); [apply evolved_refl|done|intros; apply Hp| |exact Hb]. intros u Hu. apply Hra. lia.
    + apply Forall_forall. intros x Hx Hg. rewrite Forall_forall in Fa. rewrite Hid in Fa.
      destruct (grant_terms _ _ _ _ _ Hev En Hx Hg) as [H1 H2]. destruct (Fa x Hx Hg) as [?|(Hty & Hf & Ht & Hu)]; [by left|right].
      split; [done|]. destruct (decide (term_led Y (Message_GetTerm x))) as [?|Hnl]; [by left|right]. exists m.
      split_and!; [by apply Hin|done..|]. eapply voted_now; [exact R|exact Hp|by apply up_to_date_newer|done|done|].
      intros t' Ht'. destruct (Hra t') as [_ ->]; lia.
Qed.

(** The votes that make a candidate the leader. *)
Lemma win_votes sent votes Y i V m r :
  node_elect sent votes Y i V r → rooted b bt (hy_tree Y) (view r) → promises b Y (view r) (raft_Term r) V →
  (∀ t, hy_ack Y i t <= V t) → ¬ term_led Y (raft_Term r) → wins m r → counted_now m r → ProgressTracker_Voters (raft_trk r) = cfg →
  (∀ j, votes_of r !! j = Some true → votes j !! raft_Term r = Some i) →
  (Message_GetReject m = false → votes (Message_GetFrom m) !! raft_Term r = Some i ∧ vote_known sent votes Y i (raft_Term r) (Message_GetFrom m)) →
  ∃ q, joint_majority cfg q ∧ ∀ j, j ∈ q → votes j !! raft_Term r = Some i ∧ voted b bt Y (hy_ack Y j) (raft_Term r) (last_id (view r)).
Proof.
  intros [T Vo A Gr] R Hp Hack Hnl (Hty & Hs & Hw) Hnow Hcfg Hvotes Hm. apply vote_won_majority in Hw as [Hw1 Hw2]. rewrite Hcfg in Hw1, Hw2.
  exists (voters_for m r cfg.1 ∪ voters_for m r cfg.2). split; [split; (eapply majority_mono; [|done]); set_solver|].
  intros j Hj. assert (votes j !! raft_Term r = Some i ∧ vote_known sent votes Y i (raft_Term r) j) as [Hv Hk].
  { assert (ProgressTracker_Votes (ProgressTracker_RecordVote (Message_GetFrom m) (negb (Message_GetReject m)) (raft_trk r)) !! j = Some true) as Hr
      by (apply elem_of_union in Hj as [Hj|Hj]; by apply elem_of_filter in Hj as [? _]).
    apply RecordVote_true in Hr as [Hr|[-> Hr]]; [split; [by apply Hvotes|by apply Vo]|]. apply Hm. by destruct (Message_GetReject m). }
  split; [done|]. destruct Hk as [->|[_ [?|(x & Hx & Hxt & Hxf & Hxte & Hvo)]]]; [|done|].
  - eapply voted_now; [exact R|exact Hp| |done|done|by intros; apply Hack]. right. done.
  - rewrite <- (A Hs x (or_introl Hx) Hxt Hxf Hxte). done.
Qed.

End elect.
