(* ===== verification/RawNode.v ===== *)
(** * The synchronous interface to a node (src/rawnode.go, src/bootstrap.go, src/status.go)

    [RawNode] wraps a node for an application that drives it: it hands out the
    outstanding work as a [Ready] (or, with asynchronous storage writes, as
    messages to local storage threads) and takes the results back. *)
From S2P Require Import Prelude Proto Quorum Inflights Progress Tracker Util Storage.
From S2P Require Import Unstable Log ConfChange ReadOnly Raft RaftStep RaftRel.
From S2P Require Import RaftSafety RaftRepl.

(** ** Data (src/node.go, src/rawnode.go) *)

Record SoftState : Type := mkSoftState {
  SoftState_Lead : Z;
  SoftState_RaftState : StateType;
}.

Definition SoftState_equal (a b : SoftState) : bool :=
  (SoftState_Lead a =? SoftState_Lead b) && st_eqb (SoftState_RaftState a) (SoftState_RaftState b).

Record Ready : Type := mkReady {
  Ready_SoftState : option SoftState;
  Ready_HardState : option HardState;
  Ready_ReadStates : list ReadState;
  Ready_Entries : list Entry;
  Ready_Snapshot : option Snapshot;
  Ready_CommittedEntries : list Entry;
  Ready_Messages : list Message;
  Ready_MustSync : bool;
}.

Record RawNode (S : Type) : Type := mkRawNode {
  rn_raft : raft S;
  rn_asyncStorageWrites : bool;
  rn_prevSoftSt : SoftState;
  rn_prevHardSt : option HardState;
  rn_stepsOnAdvance : list Message;
}.
Arguments mkRawNode {S}.
Arguments rn_raft {S} _.
Arguments rn_asyncStorageWrites {S} _.
Arguments rn_prevSoftSt {S} _.
Arguments rn_prevHardSt {S} _.
Arguments rn_stepsOnAdvance {S} _.

Definition set_rn_raft {S} (r : raft S) (rn : RawNode S) : RawNode S :=
  mkRawNode r (rn_asyncStorageWrites rn) (rn_prevSoftSt rn) (rn_prevHardSt rn) (rn_stepsOnAdvance rn).

(** ** Status (src/status.go) *)

Record BasicStatus : Type := mkBasicStatus {
  BasicStatus_ID : Z;
  BasicStatus_HardState : HardState;
  BasicStatus_SoftState : SoftState;
  BasicStatus_Applied : Z;
  BasicStatus_LeadTransferee : Z;
}.

(** The progress map of a status is nil unless the node is the leader. *)
Record Status : Type := mkStatus {
  Status_BasicStatus : BasicStatus;
  Status_Config : Config;
  Status_Progress : option (gmap Z Progress);
}.

Section rawnode.
Context {S : Type} `{Protobuf} `{!Storage S}.

Definition raft_softState (r : raft S) : SoftState := mkSoftState (raft_lead r) (raft_state r).

Definition getProgressCopy (r : raft S) : gmap Z Progress :=
  foldl (fun m id => match ProgressTracker_Progress (raft_trk r) !! id with
                     | Some pr => <[id := set_Progress_Inflights (Inflights_Clone (Progress_Inflights pr)) pr]> m
                     | None => m
                     end) ∅ (Visit_ids (raft_trk r)).

Definition getBasicStatus (r : raft S) : BasicStatus :=
  mkBasicStatus (raft_id r) (raft_hardState r) (raft_softState r) (raftLog_applied (raft_raftLog r))
    (raft_leadTransferee r).

Definition getStatus (r : raft S) : Status :=
  let s := getBasicStatus r in
  mkStatus s (Config_Clone (ProgressTracker_Config (raft_trk r)))
    (if st_eqb (SoftState_RaftState (BasicStatus_SoftState s)) StateLeader
     then Some (getProgressCopy r) else None).

Definition RawNode_Status (rn : RawNode S) : Status := getStatus (rn_raft rn).

Definition RawNode_BasicStatus (rn : RawNode S) : BasicStatus := getBasicStatus (rn_raft rn).

(** ** Construction and steps *)

(** [NewRawNode]; the returned error is always nil. *)
Definition NewRawNode (c : RaftConfig S) (rands : list Z) : outcome (RawNode S) :=
  r ← newRaft c rands;
  Ok (mkRawNode r (RaftConfig_AsyncStorageWrites c) (raft_softState r) (Some (raft_hardState r)) []).

(** A method of the wrapped node. *)
Definition on_raft {A} (m : RM S A) (rn : RawNode S) : outcome (A * RawNode S) :=
  x ← m (rn_raft rn); Ok (x.1, set_rn_raft x.2 rn).

Definition RawNode_Tick : RawNode S → outcome (unit * RawNode S) := on_raft raft_run_tick.

Definition RawNode_TickQuiesced : RawNode S → outcome (unit * RawNode S) :=
  on_raft (modify (fun r => set_raft_electionElapsed (raft_electionElapsed r + 1) r)).

Definition RawNode_Campaign : RawNode S → outcome (option error * RawNode S) :=
  on_raft (raft_Step (set_Message_Type (Some MsgHup) Message0)).

Definition RawNode_Propose (data : option bytes) : RawNode S → outcome (option error * RawNode S) :=
  on_raft (r ← get;
           raft_Step (set_Message_From (Some (raft_id r))
             (set_Message_Entries [mkEntry None None None data] (set_Message_Type (Some MsgProp) Message0)))).

Definition RawNode_ProposeConfChange (cc : option ConfChangeI) :
    RawNode S → outcome (option error * RawNode S) :=
  on_raft (raft_Step (confChangeToMsg cc)).

Definition RawNode_ApplyConfChange (cc : ConfChangeI) : RawNode S → outcome (ConfState * RawNode S) :=
  on_raft (raft_applyConfChange (AsV2 cc)).

Definition RawNode_Step (m : Message) (rn : RawNode S) : outcome (option error * RawNode S) :=
  if IsLocalMsg (Message_GetType m) && negb (IsLocalMsgTarget (Message_GetFrom m))
  then Ok (Some ErrStepLocalMsg, rn)
  else if IsResponseMsg (Message_GetType m) && negb (IsLocalMsgTarget (Message_GetFrom m))
          && match ProgressTracker_Progress (raft_trk (rn_raft rn)) !! Message_GetFrom m with
             | None => true | Some _ => false end
  then Ok (Some ErrStepPeerNotFound, rn)
  else on_raft (raft_Step m) rn.

Definition RawNode_ReportUnreachable (id : Z) : RawNode S → outcome (option error * RawNode S) :=
  on_raft (raft_Step (set_Message_From (Some id) (set_Message_Type (Some MsgUnreachable) Message0))).

Inductive SnapshotStatus : Type := SnapshotFinish | SnapshotFailure.

Definition RawNode_ReportSnapshot (id : Z) (status : SnapshotStatus) :
    RawNode S → outcome (option error * RawNode S) :=
  let rej := match status with SnapshotFailure => true | SnapshotFinish => false end in
  on_raft (raft_Step (set_Message_Reject (Some rej)
             (set_Message_From (Some id) (set_Message_Type (Some MsgSnapStatus) Message0)))).

Definition RawNode_TransferLeader (transferee : Z) : RawNode S → outcome (option error * RawNode S) :=
  on_raft (raft_Step (set_Message_From (Some transferee) (set_Message_Type (Some MsgTransferLeader) Message0))).

Definition RawNode_ForgetLeader : RawNode S → outcome (option error * RawNode S) :=
  on_raft (raft_Step (set_Message_Type (Some MsgForgetLeader) Message0)).

Definition RawNode_ReadIndex (rctx : option bytes) : RawNode S → outcome (option error * RawNode S) :=
  on_raft (raft_Step (set_Message_Entries [mkEntry None None None rctx]
             (set_Message_Type (Some MsgReadIndex) Message0))).

(** ** Ready *)

Definition RawNode_applyUnstableEntries (rn : RawNode S) : bool := negb (rn_asyncStorageWrites rn).

Definition MustSync (st prevst : option HardState) (entsnum : Z) : bool :=
  negb (entsnum =? 0) || negb (HardState_GetVote st =? HardState_GetVote prevst)
  || negb (HardState_GetTerm st =? HardState_GetTerm prevst).

Definition needStorageAppendMsg (r : raft S) (rd : Ready) : bool :=
  (0 <? len (Ready_Entries rd)) || negb (IsEmptyHardState (Ready_HardState rd))
  || negb (IsEmptySnap (Ready_Snapshot rd)) || (0 <? len (raft_msgsAfterAppend r)).

Definition needStorageAppendRespMsg (r : raft S) (rd : Ready) : bool :=
  raftLog_hasNextOrInProgressUnstableEnts (raft_raftLog r) || negb (IsEmptySnap (Ready_Snapshot rd)).

Definition newStorageAppendRespMsg (r : raft S) (rd : Ready) : outcome Message :=
  let m := set_Message_Term (Some (raft_Term r)) (set_Message_From (Some LocalAppendThread)
             (Msg MsgStorageAppendResp (Some (raft_id r)))) in
  m ← (if raftLog_hasNextOrInProgressUnstableEnts (raft_raftLog r) then
         last ← raftLog_lastEntryID (raft_raftLog r);
         Ok (set_Message_LogTerm (Some (entryID_term last)) (set_Message_Index (Some (entryID_index last)) m))
       else Ok m);
  Ok (if negb (IsEmptySnap (Ready_Snapshot rd)) then set_Message_Snapshot (Ready_Snapshot rd) m else m).

Definition newStorageAppendMsg (r : raft S) (rd : Ready) : outcome Message :=
  let m := set_Message_Entries (Ready_Entries rd) (set_Message_From (Some (raft_id r))
             (Msg MsgStorageAppend (Some LocalAppendThread))) in
  let m := if negb (IsEmptyHardState (Ready_HardState rd)) then
             set_Message_Commit (Some (HardState_GetCommit (Ready_HardState rd)))
               (set_Message_Vote (Some (HardState_GetVote (Ready_HardState rd)))
                 (set_Message_Term (Some (HardState_GetTerm (Ready_HardState rd))) m))
           else m in
  let m := if negb (IsEmptySnap (Ready_Snapshot rd)) then set_Message_Snapshot (Ready_Snapshot rd) m else m in
  let m := set_Message_Responses (raft_msgsAfterAppend r) m in
  if needStorageAppendRespMsg r rd then
    resp ← newStorageAppendRespMsg r rd;
    Ok (set_Message_Responses (Message_GetResponses m ++ [resp]) m)
  else Ok m.

Definition needStorageApplyMsg (rd : Ready) : bool := 0 <? len (Ready_CommittedEntries rd).

Definition needStorageApplyRespMsg (rd : Ready) : bool := needStorageApplyMsg rd.

Definition newStorageApplyRespMsg (r : raft S) (ents : list Entry) : Message :=
  set_Message_Entries ents (set_Message_Term (Some 0) (set_Message_From (Some LocalApplyThread)
    (Msg MsgStorageApplyResp (Some (raft_id r))))).

Definition newStorageApplyMsg (r : raft S) (rd : Ready) : Message :=
  let ents := Ready_CommittedEntries rd in
  set_Message_Responses [newStorageApplyRespMsg r ents] (set_Message_Entries ents
    (set_Message_Term (Some 0) (set_Message_From (Some (raft_id r))
      (Msg MsgStorageApply (Some LocalApplyThread))))).

Definition set_Ready_Messages (ms : list Message) (rd : Ready) : Ready :=
  mkReady (Ready_SoftState rd) (Ready_HardState rd) (Ready_ReadStates rd) (Ready_Entries rd)
    (Ready_Snapshot rd) (Ready_CommittedEntries rd) ms (Ready_MustSync rd).

Definition to_self (r : raft S) (m : Message) : bool := Message_GetTo m =? raft_id r.

Definition RawNode_readyWithoutAccept (rn : RawNode S) : outcome Ready :=
  let r := rn_raft rn in
  entries ← raftLog_nextUnstableEnts (raft_raftLog r);
  committed ← raftLog_nextCommittedEnts (RawNode_applyUnstableEntries rn) (raft_raftLog r);
  let rd := mkReady
    (if SoftState_equal (raft_softState r) (rn_prevSoftSt rn) then None else Some (raft_softState r))
    (if isHardStateEqual (Some (raft_hardState r)) (rn_prevHardSt rn) then None
     else Some (raft_hardState r))
    (raft_readStates r) entries
    (if raftLog_hasNextUnstableSnapshot (raft_raftLog r) then raftLog_nextUnstableSnapshot (raft_raftLog r)
     else None)
    committed (raft_msgs r)
    (MustSync (Some (raft_hardState r)) (rn_prevHardSt rn) (len entries)) in
  if rn_asyncStorageWrites rn then
    rd ← (if needStorageAppendMsg r rd then
            m ← newStorageAppendMsg r rd; Ok (set_Ready_Messages (Ready_Messages rd ++ [m]) rd)
          else Ok rd);
    Ok (if needStorageApplyMsg rd
        then set_Ready_Messages (Ready_Messages rd ++ [newStorageApplyMsg r rd]) rd else rd)
  else
    Ok (set_Ready_Messages
          (Ready_Messages rd ++ filter (fun m => to_self r m = false) (raft_msgsAfterAppend r)) rd).

(** What [acceptReady] adds to [stepsOnAdvance] without asynchronous writes. *)
Definition accept_steps (r : raft S) (rd : Ready) : outcome (list Message) :=
  let self := filter (fun m => to_self r m = true) (raft_msgsAfterAppend r) in
  append ← (if needStorageAppendRespMsg r rd then m ← newStorageAppendRespMsg r rd; Ok [m] else Ok []);
  let apply := if needStorageApplyRespMsg rd
               then [newStorageApplyRespMsg r (Ready_CommittedEntries rd)] else [] in
  Ok (self ++ append ++ apply).

Definition RawNode_acceptReady (rd : Ready) (rn : RawNode S) : outcome (RawNode S) :=
  let r := rn_raft rn in
  let prevSoftSt := match Ready_SoftState rd with Some s => s | None => rn_prevSoftSt rn end in
  let prevHardSt := if negb (IsEmptyHardState (Ready_HardState rd)) then Ready_HardState rd
                    else rn_prevHardSt rn in
  let r := if negb (len (Ready_ReadStates rd) =? 0) then set_raft_readStates [] r else r in
  steps ← (if rn_asyncStorageWrites rn then Ok (rn_stepsOnAdvance rn)
           else if negb (len (rn_stepsOnAdvance rn) =? 0)
           then Panic "two accepted Ready structs without call to Advance"
           else new ← accept_steps r rd; Ok (rn_stepsOnAdvance rn ++ new));
  let r := set_raft_msgsAfterAppend [] (set_raft_msgs [] r) in
  let r := set_raft_raftLog (raftLog_acceptUnstable (raft_raftLog r)) r in
  r ← match last (Ready_CommittedEntries rd) with
      | None => Ok r
      | Some e =>
          l ← raftLog_acceptApplying (Entry_GetIndex e) (entsSize (Ready_CommittedEntries rd))
                (RawNode_applyUnstableEntries rn) (raft_raftLog r);
          Ok (set_raft_raftLog l r)
      end;
  Ok (mkRawNode r (rn_asyncStorageWrites rn) prevSoftSt prevHardSt steps).

Definition RawNode_Ready (rn : RawNode S) : outcome (Ready * RawNode S) :=
  rd ← RawNode_readyWithoutAccept rn;
  rn ← RawNode_acceptReady rd rn;
  Ok (rd, rn).

Definition RawNode_HasReady (rn : RawNode S) : outcome bool :=
  let r := rn_raft rn in
  if negb (SoftState_equal (raft_softState r) (rn_prevSoftSt rn)) then Ok true
  else if negb (IsEmptyHardState (Some (raft_hardState r)))
          && negb (isHardStateEqual (Some (raft_hardState r)) (rn_prevHardSt rn)) then Ok true
  else if raftLog_hasNextUnstableSnapshot (raft_raftLog r) then Ok true
  else if (0 <? len (raft_msgs r)) || (0 <? len (raft_msgsAfterAppend r)) then Ok true
  else
    ents ← raftLog_hasNextUnstableEnts (raft_raftLog r);
    if ents || raftLog_hasNextCommittedEnts (RawNode_applyUnstableEntries rn) (raft_raftLog r) then Ok true
    else Ok (negb (len (raft_readStates r) =? 0)).

(** The errors of the steps are dropped. *)
Definition RawNode_Advance (rn : RawNode S) : outcome (RawNode S) :=
  if rn_asyncStorageWrites rn then Panic "Advance must not be called when using AsyncStorageWrites"
  else
    x ← for_each (fun m => _ ← raft_Step m; mret tt) (rn_stepsOnAdvance rn) (rn_raft rn);
    Ok (mkRawNode x.2 (rn_asyncStorageWrites rn) (rn_prevSoftSt rn) (rn_prevHardSt rn) []).

(** ** Bootstrap (src/bootstrap.go) *)

Record Peer : Type := mkPeer { Peer_ID : Z; Peer_Context : option bytes }.

Definition bootstrap_entry (i : Z) (peer : Peer) : Entry :=
  let cc := mkConfChange (Some ConfChangeAddNode) (Some (Peer_ID peer)) (Peer_Context peer) None in
  mkEntry (Some 1) (Some (i + 1)) (Some EntryConfChange) (Some (Marshal_ConfChange cc)).

Definition Bootstrap_raft (peers : list Peer) : RM S unit :=
  _ ← raft_becomeFollower 1 None_id;
  let ents := imap (fun i => bootstrap_entry (Z.of_nat i)) peers in
  _ ← on_log (raftLog_append ents);
  _ ← modify (fun r => set_raft_raftLog (set_raftLog_committed (len ents) (raft_raftLog r)) r);
  for_each (fun peer =>
    _ ← raft_applyConfChange (ConfChange_AsV2 (mkConfChange (Some ConfChangeAddNode) (Some (Peer_ID peer)) None None));
    mret tt) peers.

Definition RawNode_Bootstrap (peers : list Peer) (rn : RawNode S) : outcome (option error * RawNode S) :=
  if len peers =? 0 then Ok (Some (ErrText "must provide at least one peer to Bootstrap"), rn)
  else match st_LastIndex (raftLog_storage (raft_raftLog (rn_raft rn))) with
  | Err e => Ok (Some e, rn)
  | Val lastIndex =>
      if negb (lastIndex =? 0) then Ok (Some (ErrText "can't bootstrap a nonempty Storage"), rn)
      else
        x ← Bootstrap_raft peers (rn_raft rn);
        Ok (None, mkRawNode x.2 (rn_asyncStorageWrites rn) (rn_prevSoftSt rn) emptyState (rn_stepsOnAdvance rn))
  end.

End rawnode.

(** ** The work that a Ready hands out *)

Section rawnode_lemmas.
Context {S : Type} `{Protobuf, !ProtobufLaws _} `{!Storage S} `{!StorageLaws S}.
Implicit Types (r : raft S) (rn : RawNode S) (l : raftLog S).

Lemma nextEntries_ok (u : unstable) :
  unstable_wf u →
  unstable_nextEntries u =
    Ok (drop (Z.to_nat (unstable_offsetInProgress u - unstable_offset u)) (unstable_entries u)).
Proof.
  intros [Ho Hb Hl Hc Hp Hs Hsi]. unfold unstable_nextEntries. rewrite sub64_small by lia.
  unfold go_int. rewrite (proj2 (Z.ltb_lt _ _)) by lia. zcase.
  - rewrite drop_ge; [done|]. unfold len in *. lia.
  - apply go_from_Ok. lia.
Qed.

Lemma acceptUnstable_ok l :
  log_wf l →
  log_wf (raftLog_acceptUnstable l) ∧ log_view (raftLog_acceptUnstable l) = log_view l ∧
  raftLog_nextUnstableEnts (raftLog_acceptUnstable l) = Ok [] ∧
  raftLog_hasNextUnstableSnapshot (raftLog_acceptUnstable l) = false.
Proof.
  intros [Hst Hu Hgap Hcom Happ Happl].
  destruct (acceptInProgress_wf _ Hu) as (Hu' & He & Ho & Hs).
  assert (log_view (raftLog_acceptUnstable l) = log_view l) as Hv.
  { unfold log_view, log_stable, log_base_term, log_base, raftLog_acceptUnstable. cbn.
    by rewrite He, Ho, Hs. }
  assert (log_base (raftLog_acceptUnstable l) = log_base l) as Hb by exact (f_equal sl_base Hv).
  split_and!; [|done| |].
  - split; try done; [|by rewrite Hv, Hb]. cbn. by rewrite Hs, Ho, He.
  - unfold raftLog_nextUnstableEnts. cbn. rewrite nextEntries_ok, He, Ho by done. f_equal.
    unfold unstable_acceptInProgress. destruct (last (unstable_entries (raftLog_unstable l))) as [e|] eqn:El.
    + pose proof Hu as [Hoo Hbb _ Hc _ _ _]. apply (last_index_contiguous _ _ _ Hc) in El.
      assert (unstable_offsetInProgress (match unstable_snapshot (raftLog_unstable l) with
        | Some _ => set_unstable_snapshotInProgress true
                      (set_unstable_offsetInProgress (Entry_GetIndex e +! 1) (raftLog_unstable l))
        | None => set_unstable_offsetInProgress (Entry_GetIndex e +! 1) (raftLog_unstable l) end)
        = Entry_GetIndex e +! 1) as Eo by (by destruct (unstable_snapshot _)).
      pose proof (len_nonneg (unstable_entries (raftLog_unstable l))). cbn [unstable_snapshot set_unstable_offsetInProgress]. rewrite Eo, El, add64_small by lia.
      apply drop_ge. unfold len. lia.
    + apply last_None in El. by rewrite El, drop_nil.
  - unfold raftLog_hasNextUnstableSnapshot, raftLog_acceptUnstable, unstable_nextSnapshot,
      unstable_acceptInProgress. cbn. by destruct (last _), (unstable_snapshot (raftLog_unstable l)) eqn:Es;
      cbn; rewrite ?Es; cbn; rewrite ?Es.
Qed.

(** The next committed entries, also while a snapshot is pending. *)
Lemma nextCommitted_ok l allow :
  log_wf l → log_size_ok l →
  (raftLog_hasNextOrInProgressSnapshot l = false → log_base l <= raftLog_applying l) →
  total_size (sl_ents (log_view l)) < two64 →
  ∃ ents, raftLog_nextCommittedEnts allow l = Ok ents ∧ committed_batch allow l ents ∧
    raftLog_applying l + len ents <= raftLog_committed l.
Proof.
  intros Hwf Hs Hb Hsz. destruct (raftLog_hasNextOrInProgressSnapshot l) eqn:Es.
  - exists []. pose proof (lwf_applying _ Hwf). rewrite len_nil. split_and!; [|apply committed_batch_nil|lia].
    + unfold raftLog_nextCommittedEnts. rewrite Es. by destruct (raftLog_applyingEntsPaused l).
    + unfold raftLog_hasNextOrInProgressSnapshot in Es. intros (_ & E & _). by rewrite E in Es.
  - destruct (nextCommittedEnts_ok l allow Hwf Hs (Hb eq_refl)) as (ents & ? & ? & _ & ?);
      [by apply slog_range_size|]. by exists ents.
Qed.

(** The acknowledgement that storage gives back. *)
Lemma newStorageAppendRespMsg_ok r rd :
  log_wf (raft_raftLog r) →
  ∃ m, newStorageAppendRespMsg r rd = Ok m ∧ Message_GetType m = MsgStorageAppendResp ∧
    Message_GetTo m = raft_id r ∧ Message_GetTerm m = raft_Term r.
Proof.
  intros Hwf. destruct (lastEntryID_ok _ Hwf) as (t & E & _). unfold newStorageAppendRespMsg. rewrite E.
  destruct (raftLog_hasNextOrInProgressUnstableEnts _), (negb (IsEmptySnap _)); by eexists.
Qed.

(** A node whose work can be handed out. *)
Record rawnode_ok rn : Prop := mkrawnode_ok {
  rok_log : log_wf (raft_raftLog (rn_raft rn));
  rok_size : log_size_ok (raft_raftLog (rn_raft rn));
  rok_base : raftLog_hasNextOrInProgressSnapshot (raft_raftLog (rn_raft rn)) = false →
             log_base (raft_raftLog (rn_raft rn)) <= raftLog_applying (raft_raftLog (rn_raft rn));
  rok_total : total_size (sl_ents (log_view (raft_raftLog (rn_raft rn)))) < two64;
  rok_steps : rn_asyncStorageWrites rn = false → rn_stepsOnAdvance rn = [];
}.

Lemma accept_steps_ok r rd :
  log_wf (raft_raftLog r) →
  ∃ st, accept_steps r rd = Ok (filter (fun m => to_self r m = true) (raft_msgsAfterAppend r) ++ st) ∧
    Forall (fun m => Message_GetType m = MsgStorageAppendResp ∨ Message_GetType m = MsgStorageApplyResp) st.
Proof.
  intros Hwf. destruct (newStorageAppendRespMsg_ok r rd Hwf) as (m & E & Ht & _). unfold accept_steps. rewrite E.
  destruct (needStorageAppendRespMsg r rd), (needStorageApplyRespMsg rd); eexists; (split; [done|]);
    repeat (apply Forall_cons; split; [by auto|]); by apply Forall_nil.
Qed.

(** [readyWithoutAccept] without the messages. *)
Lemma readyWithoutAccept_ok rn :
  rawnode_ok rn →
  ∃ rd, RawNode_readyWithoutAccept rn = Ok rd ∧
    raftLog_nextUnstableEnts (raft_raftLog (rn_raft rn)) = Ok (Ready_Entries rd) ∧
    raftLog_nextCommittedEnts (RawNode_applyUnstableEntries rn) (raft_raftLog (rn_raft rn))
      = Ok (Ready_CommittedEntries rd) ∧
    Ready_SoftState rd = (if SoftState_equal (raft_softState (rn_raft rn)) (rn_prevSoftSt rn) then None
                          else Some (raft_softState (rn_raft rn))) ∧
    Ready_HardState rd = (if isHardStateEqual (Some (raft_hardState (rn_raft rn))) (rn_prevHardSt rn) then None
                          else Some (raft_hardState (rn_raft rn))) ∧
    Ready_ReadStates rd = raft_readStates (rn_raft rn) ∧
    Ready_Snapshot rd = unstable_nextSnapshot (raftLog_unstable (raft_raftLog (rn_raft rn))).
Proof.
  intros [Hwf Hs Hb Hsz _].
  assert ((if raftLog_hasNextUnstableSnapshot (raft_raftLog (rn_raft rn))
           then raftLog_nextUnstableSnapshot (raft_raftLog (rn_raft rn)) else None)
          = unstable_nextSnapshot (raftLog_unstable (raft_raftLog (rn_raft rn)))) as Esn.
  { unfold raftLog_hasNextUnstableSnapshot, raftLog_nextUnstableSnapshot. by destruct (unstable_nextSnapshot _). } destruct (nextCommitted_ok _ (RawNode_applyUnstableEntries rn) Hwf Hs Hb Hsz)
    as (ce & Ece & _). pose proof (nextEntries_ok _ (lwf_unstable _ Hwf)) as Ee.
  unfold RawNode_readyWithoutAccept, raftLog_nextUnstableEnts. rewrite Ee, Ece, Esn. cbn [mbind outcome_bind].
  match goal with |- context [set_Ready_Messages _ ?x] => set (rd0 := x) end.
  destruct (newStorageAppendRespMsg_ok (rn_raft rn) rd0 Hwf) as (m & Em & _).
  destruct (rn_asyncStorageWrites rn); [|by eexists].
  unfold newStorageAppendMsg. rewrite Em.
  destruct (needStorageAppendMsg _ _); [destruct (needStorageAppendRespMsg (rn_raft rn) rd0)|];
    cbn [mbind outcome_bind];
    (destruct (needStorageApplyMsg _); by eexists).
Qed.

Lemma SoftState_equal_refl a : SoftState_equal a a = true.
Proof. unfold SoftState_equal, st_eqb. by rewrite Z.eqb_refl, bool_decide_true. Qed.

Lemma isHardStateEqual_refl a : isHardStateEqual a a = true.
Proof. unfold isHardStateEqual. by rewrite !Z.eqb_refl. Qed.

(** Accepting the committed entries of a Ready. *)
Lemma accept_committed_ok l (ents : list Entry) size allow :
  log_wf l → contiguous (raftLog_applying l) ents → raftLog_applying l + len ents <= raftLog_committed l →
  ∃ l', match last ents with
        | None => Ok l
        | Some e => raftLog_acceptApplying (Entry_GetIndex e) size allow l
        end = Ok l' ∧ log_wf l' ∧ log_view l' = log_view l ∧ raftLog_unstable l' = raftLog_unstable l ∧
    raftLog_storage l' = raftLog_storage l ∧
    raftLog_committed l' = raftLog_committed l ∧ raftLog_applied l' = raftLog_applied l ∧
    raftLog_applying l' = raftLog_applying l + len ents.
Proof.
  intros Hwf Hc Hle. pose proof (len_nonneg ents). destruct (last ents) as [e|] eqn:El.
  - apply (last_index_contiguous _ _ _ Hc) in El. rewrite El.
    destruct (acceptApplying_ok l (raftLog_applying l + len ents) size allow) as (l' & E & ? & ? & ? & ? & ?);
      [done|lia|]. exists l'.
    assert (raftLog_unstable l' = raftLog_unstable l ∧ raftLog_storage l' = raftLog_storage l) as [? ?]; [|done].
    revert E. unfold raftLog_acceptApplying. destruct (_ <? _); [done|]. by intros [= <-].
  - apply last_None in El. subst ents. exists l. rewrite len_nil. split_and!; try done. lia.
Qed.

(** What is left to report once a Ready was accepted. *)
Lemma HasReady_accepted rn :
  SoftState_equal (raft_softState (rn_raft rn)) (rn_prevSoftSt rn) = true →
  (IsEmptyHardState (Some (raft_hardState (rn_raft rn))) = true ∨
   isHardStateEqual (Some (raft_hardState (rn_raft rn))) (rn_prevHardSt rn) = true) →
  raft_msgs (rn_raft rn) = [] → raft_msgsAfterAppend (rn_raft rn) = [] → raft_readStates (rn_raft rn) = [] →
  raftLog_nextUnstableEnts (raft_raftLog (rn_raft rn)) = Ok [] →
  raftLog_hasNextUnstableSnapshot (raft_raftLog (rn_raft rn)) = false →
  RawNode_HasReady rn = Ok (raftLog_hasNextCommittedEnts (RawNode_applyUnstableEntries rn) (raft_raftLog (rn_raft rn))).
Proof.
  intros Hss Hhs Hm Ha Hrs Hu Hsn. unfold RawNode_HasReady, raftLog_hasNextUnstableEnts.
  rewrite Hss, Hsn, Hm, Ha, Hrs, Hu. cbn [negb orb len length Z.of_nat Z.ltb Z.compare mbind outcome_bind].
  assert (negb (IsEmptyHardState (Some (raft_hardState (rn_raft rn)))) &&
    negb (isHardStateEqual (Some (raft_hardState (rn_raft rn))) (rn_prevHardSt rn)) = false) as ->.
  { destruct Hhs as [-> | ->]; [done|]. apply andb_false_r. }
  by destruct (raftLog_hasNextCommittedEnts _ _).
Qed.

End rawnode_lemmas.

Section rawnode_claims.
Context {S : Type} `{Protobuf, !ProtobufLaws _} `{!Storage S} `{!StorageLaws S}.
Implicit Types (r : raft S) (rn : RawNode S).

Lemma acceptReady_ok rn rd :
  rawnode_ok rn → contiguous (raftLog_applying (raft_raftLog (rn_raft rn))) (Ready_CommittedEntries rd) →
  raftLog_applying (raft_raftLog (rn_raft rn)) + len (Ready_CommittedEntries rd)
    <= raftLog_committed (raft_raftLog (rn_raft rn)) →
  Ready_ReadStates rd = raft_readStates (rn_raft rn) →
  ∃ l' steps, RawNode_acceptReady rd rn = Ok (mkRawNode
      (set_raft_raftLog l' (set_raft_msgsAfterAppend [] (set_raft_msgs [] (set_raft_readStates [] (rn_raft rn)))))
      (rn_asyncStorageWrites rn)
      (match Ready_SoftState rd with Some s => s | None => rn_prevSoftSt rn end)
      (if negb (IsEmptyHardState (Ready_HardState rd)) then Ready_HardState rd else rn_prevHardSt rn) steps) ∧
    log_wf l' ∧ log_view l' = log_view (raft_raftLog (rn_raft rn)) ∧
    raftLog_unstable l' = raftLog_unstable (raftLog_acceptUnstable (raft_raftLog (rn_raft rn))) ∧
    raftLog_committed l' = raftLog_committed (raft_raftLog (rn_raft rn)) ∧
    raftLog_applying l' = raftLog_applying (raft_raftLog (rn_raft rn)) + len (Ready_CommittedEntries rd) ∧
    raftLog_storage l' = raftLog_storage (raft_raftLog (rn_raft rn)) ∧
    (rn_asyncStorageWrites rn = false → accept_steps (rn_raft rn) rd = Ok steps ∧
      ∃ st, steps = filter (fun m => to_self (rn_raft rn) m = true) (raft_msgsAfterAppend (rn_raft rn)) ++ st ∧
        Forall (fun m => Message_GetType m = MsgStorageAppendResp ∨ Message_GetType m = MsgStorageApplyResp) st).
Proof.
  intros [Hwf _ _ _ Hst] Hc Hle Hrs.
  destruct (acceptUnstable_ok _ Hwf) as (Hwf1 & Hv1 & _).
  destruct (accept_committed_ok _ (Ready_CommittedEntries rd) (entsSize (Ready_CommittedEntries rd))
    (RawNode_applyUnstableEntries rn) Hwf1 Hc Hle) as (l' & El & Hwf' & Hv' & Hu' & Hst' & Hc' & _ & Ha').
  assert ((if negb (len (Ready_ReadStates rd) =? 0) then set_raft_readStates [] (rn_raft rn) else rn_raft rn)
          = set_raft_readStates [] (rn_raft rn)) as Hr.
  { rewrite Hrs. destruct (raft_readStates (rn_raft rn)) eqn:E; [|done]. cbn.
    destruct (rn_raft rn); cbn in *; by subst. }
  destruct (accept_steps_ok (set_raft_readStates [] (rn_raft rn)) rd Hwf) as (st & Es & Hf).
  set (steps := if rn_asyncStorageWrites rn then rn_stepsOnAdvance rn
                else filter (fun m => to_self (rn_raft rn) m = true) (raft_msgsAfterAppend (rn_raft rn)) ++ st).
  exists l', steps. split.
  - unfold RawNode_acceptReady. rewrite Hr.
    assert ((if rn_asyncStorageWrites rn then Ok (rn_stepsOnAdvance rn)
             else if negb (len (rn_stepsOnAdvance rn) =? 0)
             then Panic "two accepted Ready structs without call to Advance"
             else new ← accept_steps (set_raft_readStates [] (rn_raft rn)) rd; Ok (rn_stepsOnAdvance rn ++ new))
            = Ok steps) as ->.
    { unfold steps. destruct (rn_asyncStorageWrites rn); [done|]. rewrite Hst, Es by done. done. }
    cbn [mbind outcome_bind]. destruct (last (Ready_CommittedEntries rd)).
    + cbn [raft_raftLog set_raft_raftLog set_raft_msgsAfterAppend set_raft_msgs set_raft_readStates].
      by rewrite El.
    + by injection El as <-.
  - split_and!; try done; [by rewrite Hv'|]. intros Ha. unfold steps. rewrite Ha. split; [exact Es|]. by exists st.
Qed.

(** The entries that were not handed out to storage yet. *)
Lemma nextUnstableEnts_view l :
  log_wf l → raftLog_nextUnstableEnts l =
    Ok (slog_range (log_view l) (unstable_offsetInProgress (raftLog_unstable l)) (log_last l + 1)).
Proof.
  intros Hwf. pose proof (lwf_unstable _ Hwf) as Hu. pose proof (uwf_progress _ Hu) as Hp.
  unfold raftLog_nextUnstableEnts. rewrite nextEntries_ok by done. log_facts Hwf.
  rewrite view_range_unstable by (done || lia). f_equal. symmetry. apply take_ge.
  rewrite length_drop. unfold len in *. lia.
Qed.

(** C25. A Ready hands out all outstanding work exactly once.  For a node in
    order it never panics; the committed entries follow the applying position
    without a gap up to what may be applied, there are some whenever one is due,
    and they are one entry or fit the size limit ([committed_batch]); the
    position moves past exactly these; the entries to store are all entries of
    the log from the first that was not handed out before; a snapshot that was
    not handed out yet is in the Ready; the log itself does not change; and
    afterwards the only thing left to report is further committed entries that
    the size limit held back. *)
Theorem Ready_hands_out_work rn :
  rawnode_ok rn →
  ∃ rd rn', RawNode_Ready rn = Ok (rd, rn') ∧
    let l := raft_raftLog (rn_raft rn) in
    let l' := raft_raftLog (rn_raft rn') in
    committed_batch (RawNode_applyUnstableEntries rn) l (Ready_CommittedEntries rd) ∧
    raftLog_applying l' = raftLog_applying l + len (Ready_CommittedEntries rd) ∧
    raftLog_applying l' <= raftLog_committed l ∧
    Ready_Entries rd = slog_range (log_view l) (unstable_offsetInProgress (raftLog_unstable l)) (log_last l + 1) ∧
    unstable_offsetInProgress (raftLog_unstable l') = log_last l + 1 ∧
    Ready_Snapshot rd = (if unstable_snapshotInProgress (raftLog_unstable l) then None
                         else unstable_snapshot (raftLog_unstable l)) ∧
    log_wf l' ∧ log_view l' = log_view l ∧ raftLog_committed l' = raftLog_committed l ∧
    RawNode_HasReady rn' = Ok (raftLog_hasNextCommittedEnts (RawNode_applyUnstableEntries rn') l').
Proof.
  intros Hok. pose proof Hok as [Hwf Hs Hb Hsz Hst].
  destruct (nextCommitted_ok _ (RawNode_applyUnstableEntries rn) Hwf Hs Hb Hsz) as (ce & Ece & Hc & Hle).
  destruct (readyWithoutAccept_ok rn Hok) as (rd & Erd & Eu & Ec & Ess & Ehs & Ers & Esn).
  rewrite Ec in Ece. injection Ece as <-. rewrite nextUnstableEnts_view in Eu by done. injection Eu as Eu.
  destruct (acceptReady_ok rn rd Hok (cb_next _ _ _ Hc) Hle Ers) as (l' & steps & Ea & Hwf' & Hv' & Hu' & Hc' & Ha' & _ & _).
  destruct (acceptUnstable_ok _ Hwf) as (_ & _ & Hn & Hsn).
  assert (raftLog_nextUnstableEnts l' = Ok []) as Hn' by (unfold raftLog_nextUnstableEnts; by rewrite Hu').
  eexists rd, _. unfold RawNode_Ready. rewrite Erd. cbn [mbind outcome_bind]. rewrite Ea. split; [done|].
  cbv zeta. cbn [rn_raft raft_raftLog set_raft_raftLog]. split_and!; try done; [lia| | |].
  - pose proof (nextUnstableEnts_view l' Hwf') as E. rewrite Hn' in E. injection E as E.
    pose proof (uwf_progress _ (lwf_unstable _ Hwf')). log_facts Hwf'.
    apply (f_equal len) in E. rewrite len_nil, view_range_unstable in E by (done || lia).
    unfold len in E. rewrite length_take, length_drop in E. rewrite <- Hv'. unfold len in *. lia.
  - rewrite Esn. unfold unstable_nextSnapshot. by destruct (unstable_snapshot _), (unstable_snapshotInProgress _).
  - apply HasReady_accepted; try done.
    + cbn. rewrite Ess. destruct (SoftState_equal _ _) eqn:E; [exact E|]. apply SoftState_equal_refl.
    + cbn [rn_raft rn_prevHardSt]. change (raft_hardState (set_raft_raftLog l' _))
        with (mkHardState (Some (raft_Term (rn_raft rn))) (Some (raft_Vote (rn_raft rn))) (Some (raftLog_committed l'))).
      rewrite Hc'. fold (raft_hardState (rn_raft rn)). rewrite Ehs.
      destruct (isHardStateEqual (Some (raft_hardState (rn_raft rn))) (rn_prevHardSt rn)) eqn:E; [by right|].
      destruct (IsEmptyHardState (Some (raft_hardState (rn_raft rn)))); [by left|right].
      apply isHardStateEqual_refl.
    + unfold raftLog_hasNextUnstableSnapshot in *. cbn. by rewrite Hu'.
Qed.

(** The message [a] asks the append thread to store all of a Ready that is to be
    durable: its entries, its hard state and its snapshot; and to release what
    waits for that, in order, followed only by the acknowledgement. *)
Record stores_Ready r (rd : Ready) (a : Message) : Prop := mkstores_Ready {
  sr_type : Message_GetType a = MsgStorageAppend;
  sr_to : Message_GetTo a = LocalAppendThread;
  sr_entries : Message_GetEntries a = Ready_Entries rd;
  sr_state : IsEmptyHardState (Ready_HardState rd) = false →
    Message_GetTerm a = HardState_GetTerm (Ready_HardState rd) ∧
    Message_GetVote a = HardState_GetVote (Ready_HardState rd) ∧
    Message_GetCommit a = HardState_GetCommit (Ready_HardState rd);
  sr_snapshot : IsEmptySnap (Ready_Snapshot rd) = false → Message_GetSnapshot a = Ready_Snapshot rd;
  sr_responses : ∃ ack, Message_GetResponses a = raft_msgsAfterAppend r ++ ack ∧
    Forall (fun m => Message_GetType m = MsgStorageAppendResp) ack;
}.

(** The message to the append thread. *)
Lemma newStorageAppendMsg_ok r rd :
  log_wf (raft_raftLog r) → ∃ a, newStorageAppendMsg r rd = Ok a ∧ stores_Ready r rd a.
Proof.
  intros Hwf. destruct (newStorageAppendRespMsg_ok r rd Hwf) as (m & Em & Ht & _).
  unfold newStorageAppendMsg. rewrite Em.
  destruct (needStorageAppendRespMsg r rd); cbn [mbind outcome_bind]; (eexists; split; [done|]);
    destruct (IsEmptyHardState _) eqn:Eh, (IsEmptySnap _) eqn:Es; (split; [done..|try congruence; try done|congruence || done|]).
  all: (exists [m]; split; [done|by apply Forall_singleton]) || (exists []; split; [by rewrite app_nil_r|by apply Forall_nil]).
Qed.

Lemma ready_messages_sync rn rd :
  RawNode_readyWithoutAccept rn = Ok rd → rn_asyncStorageWrites rn = false →
  Ready_Messages rd = raft_msgs (rn_raft rn) ++
    filter (fun m => to_self (rn_raft rn) m = false) (raft_msgsAfterAppend (rn_raft rn)).
Proof.
  unfold RawNode_readyWithoutAccept. intros E Ha. apply bind_Ok in E as (en & _ & E).
  apply bind_Ok in E as (ce & _ & E). rewrite Ha in E. by injection E as <-.
Qed.

Lemma ready_messages_async rn rd :
  RawNode_readyWithoutAccept rn = Ok rd → rn_asyncStorageWrites rn = true → log_wf (raft_raftLog (rn_raft rn)) →
  ∃ storage, Ready_Messages rd = raft_msgs (rn_raft rn) ++ storage ∧
    Forall (fun m => stores_Ready (rn_raft rn) rd m ∨ Message_GetType m = MsgStorageApply) storage ∧
    (needStorageAppendMsg (rn_raft rn) rd = true → ∃ a, a ∈ storage ∧ stores_Ready (rn_raft rn) rd a).
Proof.
  unfold RawNode_readyWithoutAccept. intros E Ha Hwf. apply bind_Ok in E as (en & _ & E).
  apply bind_Ok in E as (ce & _ & E). rewrite Ha in E.
  match type of E with context [needStorageAppendMsg _ ?x] => set (rd0 := x) in E end.
  assert (∃ sa, (if needStorageAppendMsg (rn_raft rn) rd0 then
       m ← newStorageAppendMsg (rn_raft rn) rd0; Ok (set_Ready_Messages (Ready_Messages rd0 ++ [m]) rd0) else Ok rd0)
     = Ok (set_Ready_Messages (Ready_Messages rd0 ++ sa) rd0) ∧ Forall (stores_Ready (rn_raft rn) rd0) sa ∧
     (needStorageAppendMsg (rn_raft rn) rd0 = true → ∃ a, a ∈ sa ∧ stores_Ready (rn_raft rn) rd0 a)) as (sa & Esa & Hf & Hr).
  { destruct (needStorageAppendMsg (rn_raft rn) rd0) eqn:En.
    - destruct (newStorageAppendMsg_ok (rn_raft rn) rd0 Hwf) as (a & -> & Hst). exists [a].
      split; [done|]. split; [by apply Forall_singleton|]. intros _. exists a. split; [by apply list_elem_of_singleton|done].
    - exists []. rewrite app_nil_r. split; [done|]. split; [by apply Forall_nil|done]. }
  rewrite Esa in E. cbn [mbind outcome_bind] in E. injection E as <-.
  match goal with |- context [needStorageApplyMsg ?x] => set (rd1 := x) end.
  assert (∀ rd', Ready_Entries rd' = Ready_Entries rd0 → Ready_HardState rd' = Ready_HardState rd0 →
    Ready_Snapshot rd' = Ready_Snapshot rd0 → ∀ a, stores_Ready (rn_raft rn) rd0 a → stores_Ready (rn_raft rn) rd' a) as Hsame.
  { intros rd' E1 E2 E3 a [? ? ? ? ? ?]. split; rewrite ?E1, ?E2, ?E3; done. }
  destruct (needStorageApplyMsg rd1).
  - exists (sa ++ [newStorageApplyMsg (rn_raft rn) rd1]). split; [cbn; by rewrite <- app_assoc|]. split.
    + apply Forall_app. split; [|apply Forall_singleton; by right].
      eapply Forall_impl; [exact Hf|]. intros a Hs. left. by apply Hsame.
    + intros Hx. destruct (Hr Hx) as (a & Hin & Hs). exists a.
      split; [apply elem_of_app; by left|by apply Hsame].
  - exists sa. split; [done|]. split.
    + eapply Forall_impl; [exact Hf|]. intros a Hs. left. by apply Hsame.
    + intros Hx. destruct (Hr Hx) as (a & Hin & Hs). exists a. split; [done|by apply Hsame].
Qed.

(** C26. No message is lost or sent early.  A Ready holds the hard state of the
    node whenever it differs from the one of the Ready before.  Without
    asynchronous writes the responses to other nodes leave with the Ready, whose
    contract is to store its entries and hard state first, and the node's
    responses to itself wait for [Advance], followed only by the storage
    acknowledgements.  With asynchronous writes nothing that waits for an append
    is sent as such: whenever there are entries, a hard state, a snapshot or
    waiting messages, a [MsgStorageAppend] carries all of them, the term, vote
    and commit index included, and the waiting messages, in order and followed
    only by the acknowledgement, as its responses ([stores_Ready]).  Both queues
    of the node are empty afterwards. *)
Theorem Ready_message_discipline rn :
  rawnode_ok rn →
  ∃ rd rn', RawNode_Ready rn = Ok (rd, rn') ∧
    let r := rn_raft rn in
    raft_msgs (rn_raft rn') = [] ∧ raft_msgsAfterAppend (rn_raft rn') = [] ∧
    Ready_HardState rd =
      (if isHardStateEqual (Some (raft_hardState r)) (rn_prevHardSt rn) then None
       else Some (mkHardState (Some (raft_Term r)) (Some (raft_Vote r)) (Some (raftLog_committed (raft_raftLog r))))) ∧
    (rn_asyncStorageWrites rn = false →
      Ready_Messages rd = raft_msgs r ++ filter (fun m => to_self r m = false) (raft_msgsAfterAppend r) ∧
      ∃ st, rn_stepsOnAdvance rn' = filter (fun m => to_self r m = true) (raft_msgsAfterAppend r) ++ st ∧
        Forall (fun m => Message_GetType m = MsgStorageAppendResp ∨ Message_GetType m = MsgStorageApplyResp) st) ∧
    (rn_asyncStorageWrites rn = true →
      ∃ storage, Ready_Messages rd = raft_msgs r ++ storage ∧
        Forall (fun m => stores_Ready r rd m ∨ Message_GetType m = MsgStorageApply) storage ∧
        (Ready_Entries rd ≠ [] ∨ IsEmptyHardState (Ready_HardState rd) = false ∨
         IsEmptySnap (Ready_Snapshot rd) = false ∨ raft_msgsAfterAppend r ≠ [] →
         ∃ a, a ∈ storage ∧ stores_Ready r rd a)).
Proof.
  intros Hok. pose proof Hok as [Hwf Hs Hb Hsz Hst].
  destruct (nextCommitted_ok _ (RawNode_applyUnstableEntries rn) Hwf Hs Hb Hsz) as (ce & Ece & Hc & Hle).
  destruct (readyWithoutAccept_ok rn Hok) as (rd & Erd & _ & Ec & _ & Ehs & Ers & _).
  rewrite Ec in Ece. injection Ece as <-.
  destruct (acceptReady_ok rn rd Hok (cb_next _ _ _ Hc) Hle Ers) as (l' & steps & Ea & _ & _ & _ & _ & _ & _ & Hsteps).
  eexists rd, _. unfold RawNode_Ready. rewrite Erd. cbn [mbind outcome_bind]. rewrite Ea. split; [done|].
  cbv zeta. split_and!; [done|done|done| |].
  - intros Ha. split; [by apply ready_messages_sync|by apply Hsteps].
  - intros Ha. destruct (ready_messages_async rn rd Erd Ha Hwf) as (storage & Em & Hf & Hn).
    exists storage. split_and!; [done|done|]. intros Hx. apply Hn. unfold needStorageAppendMsg.
    destruct Hx as [Hx|[->|[->|Hx]]]; cbn [negb]; rewrite ?orb_true_r; try done.
    + by destruct (Ready_Entries rd).
    + destruct (raft_msgsAfterAppend (rn_raft rn)); [done|apply orb_true_r].
Qed.

End rawnode_claims.

(** ** The storage round trip *)

Section rawnode_memory.
Context `{Protobuf, !ProtobufLaws _}.
Implicit Types (r : raft MemoryStorage) (rn : RawNode MemoryStorage).

(** Stepping the acknowledgement of the append thread. *)
Lemma Step_append_ack m r l' :
  Message_GetType m = MsgStorageAppendResp → Message_GetTerm m = raft_Term r →
  Message_GetSnapshot m = None → Message_GetIndex m ≠ 0 →
  raftLog_stableTo (mkentryID (Message_GetLogTerm m) (Message_GetIndex m)) (raft_raftLog r) = Ok l' →
  raft_Step m r = Ok (None, set_raft_raftLog l' r).
Proof.
  intros Ht Hte Hsn Hi E.
  assert (∀ rec, Step_dispatch rec m r = Ok (None, set_raft_raftLog l' r)) as Hd.
  { intros rec. unfold Step_dispatch. run_fwd. rewrite Ht. unfold Step_StorageAppendResp.
    rewrite (proj2 (Z.eqb_neq _ _)) by done. cbn [negb when]. rewrite Hsn.
    unfold mbind at 1, RM_bind at 1. by run_fwd_with (on_log__run _ r _ E). }
  unfold raft_Step, Step_with. run_fwd. destruct (Message_GetTerm m =? 0); [apply Hd|].
  rewrite Hte, !Z.ltb_irrefl. apply Hd.
Qed.

Lemma hasUnstable_ne (l : raftLog MemoryStorage) :
  unstable_entries (raftLog_unstable l) ≠ [] → raftLog_hasNextOrInProgressUnstableEnts l = true.
Proof. unfold raftLog_hasNextOrInProgressUnstableEnts. by destruct (unstable_entries _). Qed.

Lemma ready_no_snapshot {S} `{!Storage S} (rn : RawNode S) rd :
  RawNode_readyWithoutAccept rn = Ok rd →
  unstable_snapshot (raftLog_unstable (raft_raftLog (rn_raft rn))) = None → Ready_Snapshot rd = None.
Proof.
  unfold RawNode_readyWithoutAccept. intros E Hs. apply bind_Ok in E as (en & _ & E).
  apply bind_Ok in E as (ce & _ & E).
  assert (raftLog_hasNextUnstableSnapshot (raft_raftLog (rn_raft rn)) = false) as Hn.
  { unfold raftLog_hasNextUnstableSnapshot, unstable_nextSnapshot. by rewrite Hs. }
  rewrite Hn in E. destruct (rn_asyncStorageWrites rn); [|by injection E as <-].
  apply bind_Ok in E as (rd1 & E1 & E). injection E as <-.
  assert (Ready_Snapshot rd1 = None) as H1; [|by destruct (needStorageApplyMsg rd1)].
  destruct (needStorageAppendMsg _ _); [|by injection E1 as <-]. apply bind_Ok in E1 as (m & _ & E1).
  by injection E1 as <-.
Qed.

Lemma accept_steps_ack r rd steps m :
  accept_steps r rd = Ok steps → newStorageAppendRespMsg r rd = Ok m → needStorageAppendRespMsg r rd = true →
  m ∈ steps.
Proof.
  unfold accept_steps. intros E Em En. rewrite En, Em in E. injection E as <-.
  apply elem_of_app. right. apply list_elem_of_here.
Qed.

(** C27. Entries become stable: when the application appends the entries of a
    Ready to its storage and the acknowledgement that the Ready left for it is
    stepped in the same term, nothing stays unstable, and the log that the node
    sees is the same before, between and after. *)
Theorem Ready_persist_acknowledge rn :
  rawnode_ok rn → rn_asyncStorageWrites rn = false →
  let l := raft_raftLog (rn_raft rn) in
  unstable_snapshot (raftLog_unstable l) = None → unstable_entries (raftLog_unstable l) ≠ [] →
  unstable_offsetInProgress (raftLog_unstable l) = unstable_offset (raftLog_unstable l) →
  len (ms_ents (raftLog_storage l)) + len (unstable_entries (raftLog_unstable l)) < 9223372036854775808 →
  ∃ rd rn' ms' m r',
    RawNode_Ready rn = Ok (rd, rn') ∧ ms_Append (Ready_Entries rd) (raftLog_storage l) = Ok ms' ∧
    m ∈ rn_stepsOnAdvance rn' ∧ Message_GetType m = MsgStorageAppendResp ∧
    let stored := set_raft_raftLog (set_raftLog_storage ms' (raft_raftLog (rn_raft rn'))) (rn_raft rn') in
    log_wf (raft_raftLog stored) ∧ log_view (raft_raftLog stored) = log_view l ∧
    raft_Step m stored = Ok (None, r') ∧
    log_wf (raft_raftLog r') ∧ log_view (raft_raftLog r') = log_view l ∧
    unstable_entries (raftLog_unstable (raft_raftLog r')) = [].
Proof.
  intros Hok Hsync l Hsn Hne Hip Hlb. pose proof Hok as [Hwf Hs Hb Hsz Hst]. fold l in Hwf, Hs, Hb, Hsz.
  destruct (nextCommitted_ok l (RawNode_applyUnstableEntries rn) Hwf Hs Hb Hsz) as (ce & Ece & Hc%cb_next & Hle).
  destruct (readyWithoutAccept_ok rn Hok) as (rd & Erd & Eu & Ec & _ & _ & Ers & _).
  unfold l in Ece. rewrite Ec in Ece. injection Ece as <-.
  pose proof (nextEntries_ok _ (lwf_unstable _ Hwf)) as Ee. rewrite Hip, Z.sub_diag in Ee.
  change (drop (Z.to_nat 0) ?x) with x in Ee. unfold raftLog_nextUnstableEnts in Eu. fold l in Eu.
  rewrite Ee in Eu. injection Eu as Hents.
  destruct (acceptReady_ok rn rd Hok Hc Hle Ers) as (l' & steps & Ea & Hwf' & Hv' & Hu' & _ & _ & Hst' & Hsteps).
  destruct (Hsteps Hsync) as [Eacc _]. fold l in Hv', Hu', Hst'.
  destruct (acceptInProgress_wf _ (lwf_unstable _ Hwf)) as (_ & He & _ & Hs').
  assert (unstable_entries (raftLog_unstable l') = Ready_Entries rd) as He' by (rewrite Hu', <- Hents; exact He).
  destruct (last (Ready_Entries rd)) as [e|] eqn:El.
  2:{ apply last_None in El. congruence. }
  destruct (lastEntryID_unstable l e Hwf) as [Eid Hie]; [by rewrite Hents|].
  destruct (persist_ack_ok l' (pbEntryID e) Hwf') as (ms' & l2 & Ems & Est & Hwf1 & Hv1 & Hwf2 & Hv2 & Hu2).
  { rewrite Hu'. exact (eq_trans Hs' Hsn). }
  { by rewrite He', El. }
  { by rewrite He', Hst', <- Hents. }
  assert (Ready_Snapshot rd = None) as Hrs by (by apply (ready_no_snapshot rn)).
  set (m := set_Message_LogTerm (Some (Entry_GetTerm e)) (set_Message_Index (Some (Entry_GetIndex e))
    (set_Message_Term (Some (raft_Term (rn_raft rn))) (set_Message_From (Some LocalAppendThread)
      (Msg MsgStorageAppendResp (Some (raft_id (rn_raft rn)))))))).
  assert (newStorageAppendRespMsg (rn_raft rn) rd = Ok m ∧ needStorageAppendRespMsg (rn_raft rn) rd = true) as [Em En].
  { unfold newStorageAppendRespMsg, needStorageAppendRespMsg. fold l. rewrite Hrs, Eid.
    assert (raftLog_hasNextOrInProgressUnstableEnts l = true) as -> by (by apply hasUnstable_ne). done. }
  eexists rd, _, ms', m, _. split; [unfold RawNode_Ready; rewrite Erd; cbn [mbind outcome_bind]; by rewrite Ea|].
  cbn [rn_raft rn_stepsOnAdvance raft_raftLog set_raft_raftLog]. rewrite He', Hst' in Ems.
  split; [exact Ems|]. split; [by eapply accept_steps_ack|]. split; [done|].
  split; [exact Hwf1|]. split; [exact (eq_trans Hv1 Hv')|].
  split; [apply Step_append_ack; [done..| |exact Est]|].
  { change (Message_GetIndex m) with (Entry_GetIndex e). rewrite Hie. pose proof (log_view_last l Hwf).
    pose proof (uwf_offset _ (lwf_unstable _ Hwf)). unfold len in *.
    destruct (unstable_entries (raftLog_unstable l)); [done|]. cbn [length] in *. lia. }
  split; [exact Hwf2|]. split; [by rewrite <- Hv'|exact Hu2].
Qed.

End rawnode_memory.

(** ** Concrete instances *)

#[local] Existing Instances sample_Protobuf sample_ProtobufLaws.

Definition ex_rawnode (async : bool) : RawNode MemoryStorage :=
  mkRawNode ex_leader async (mkSoftState 0 StateFollower) emptyState [].

Lemma ex_rawnode_ok async : rawnode_ok (ex_rawnode async).
Proof. split; [exact ex_leader_log|vm_compute; intuition congruence..]. Qed.

Lemma Ready_hands_out_work_witness :
  ∃ rd rn', RawNode_Ready (ex_rawnode false) = Ok (rd, rn') ∧ contiguous 5 (Ready_CommittedEntries rd) ∧
    Ready_CommittedEntries rd ≠ [].
Proof.
  destruct (Ready_hands_out_work (ex_rawnode false)) as (rd & rn' & E & [Hc _ Hs _] & _);
    [apply ex_rawnode_ok|]. exists rd, rn'. split; [exact E|]. split; [exact Hc|].
  apply Hs. vm_compute. intuition congruence.
Defined.

Lemma Ready_message_discipline_witness :
  ∃ rd rn' storage, RawNode_Ready (ex_rawnode true) = Ok (rd, rn') ∧ raft_msgs (rn_raft rn') = [] ∧
    Ready_Messages rd = raft_msgs ex_leader ++ storage ∧
    ∃ a, a ∈ storage ∧ Message_GetTerm a = 3 ∧ Message_GetVote a = 1.
Proof.
  destruct (Ready_message_discipline (ex_rawnode true)) as (rd & rn' & E & Hm & _ & Hh & _ & Ha);
    [apply ex_rawnode_ok|]. destruct (Ha eq_refl) as (storage & Hs & _ & Hst).
  exists rd, rn', storage. split; [exact E|]. split; [exact Hm|]. split; [exact Hs|].
  assert (Ready_HardState rd = Some (mkHardState (Some 3) (Some 1) (Some 7))) as Eh
    by (rewrite Hh; vm_compute; reflexivity).
  destruct Hst as (a & Hin & Ha'); [rewrite Eh; right; left; reflexivity|]. exists a. split; [exact Hin|].
  destruct (sr_state _ _ _ Ha') as (Ht & Hv & _); [rewrite Eh; reflexivity|]. rewrite Eh in Ht, Hv. split; [exact Ht|exact Hv].
Defined.

Lemma Ready_persist_acknowledge_witness :
  ∃ rd rn' ms' m r', RawNode_Ready (ex_rawnode false) = Ok (rd, rn') ∧
    ms_Append (Ready_Entries rd) ex_node_storage = Ok ms' ∧
    raft_Step m (set_raft_raftLog (set_raftLog_storage ms' (raft_raftLog (rn_raft rn'))) (rn_raft rn')) = Ok (None, r') ∧
    unstable_entries (raftLog_unstable (raft_raftLog r')) = [].
Proof.
  destruct (Ready_persist_acknowledge (ex_rawnode false)) as (rd & rn' & ms' & m & r' & E & Ems & _ & _ & _ & _ & Es & _ & _ & Hu);
    [apply ex_rawnode_ok|reflexivity|vm_compute; reflexivity|vm_compute; congruence|vm_compute; reflexivity..|].
  exists rd, rn', ms', m, r'. split; [exact E|]. split; [|split; [exact Es|exact Hu]].
  rewrite <- Ems. f_equal; vm_compute; reflexivity.
Defined.

(** [Status] does not report the [AutoLeave] flag of a joint configuration. *)
Lemma Status_drops_AutoLeave (r : raft MemoryStorage) : Config_AutoLeave (Status_Config (getStatus r)) = false.
Proof. done. Qed.

(** A cluster of one node, driven the way the documentation prescribes: store
    what a Ready contains, then advance. *)
Definition app_cycle (rn : RawNode MemoryStorage) : outcome (Ready * RawNode MemoryStorage) :=
  x ← RawNode_Ready rn;
  let rd := x.1 in
  let r := rn_raft x.2 in
  let ms := raftLog_storage (raft_raftLog r) in
  let ms := if negb (IsEmptyHardState (Ready_HardState rd)) then ms_SetHardState (Ready_HardState rd) ms else ms in
  ms ← ms_Append (Ready_Entries rd) ms;
  rn ← RawNode_Advance (set_rn_raft (set_raft_raftLog (set_raftLog_storage ms (raft_raftLog r)) r) x.2);
  Ok (rd, rn).

Definition ex_single : outcome (Ready * RawNode MemoryStorage) :=
  rn ← NewRawNode (mkRaftConfig 1 10 1 (Some NewMemoryStorage) 0 false noLimit 0 0 256 0 false false
                     ReadOnlySafe false false false) [];
  x ← RawNode_Bootstrap [mkPeer 1 None] rn;
  x ← app_cycle x.2;
  x ← RawNode_Campaign x.2;
  x ← app_cycle x.2;
  x ← app_cycle x.2;
  x ← RawNode_Propose (Some []) x.2;
  x ← app_cycle x.2;
  app_cycle x.2.

(** It elects itself, and its first proposal is committed and handed out. *)
Example single_node_commits :
  ∃ rd rn, ex_single = Ok (rd, rn) ∧ raft_state (rn_raft rn) = StateLeader ∧
    Ready_CommittedEntries rd = [mkEntry (Some 2) (Some 3) None (Some [])] ∧
    raftLog_applied (raft_raftLog (rn_raft rn)) = 3 ∧ RawNode_HasReady rn = Ok false.
Proof.
  eexists _, _. split; [vm_compute; reflexivity|]. split_and!; vm_compute; reflexivity.
Qed.
