(* ===== verification/Describe.v ===== *)
(** * What the library prints

    The [String] and [Describe] functions of src/quorum, src/tracker,
    src/confchange, src/log.go, src/status.go and src/util.go, with what they use
    of the package fmt.  A string is its bytes in UTF-8.  [DescribeConfState]
    reads fields of a pointer that may be nil, so that the functions that reach
    it may panic. *)
From S2P Require Import Prelude Proto Text Quorum Inflights Progress Tracker Util Storage Unstable Log ReadOnly Raft RawNode.

(** ** Formatting *)

(** A string constant of the source. *)
Definition lit (s : string) : bytes := String.list_byte_of_string s.

Definition newline : bytes := [Byte.x0a].

(** [strings.Repeat(s, n)] for a byte. *)
Definition Repeat (b : Byte.byte) (n : Z) : bytes := replicate (Z.to_nat n) b.

Definition hex_digit (d : Z) : Byte.byte := byte_of_Z (if d <? 10 then 48 + d else 87 + d).

(** [%x] for a [uint64]: 16 digits are enough. *)
Fixpoint hex_loop (fuel : nat) (n : Z) (buf : bytes) : bytes :=
  match fuel with
  | O => buf
  | S fuel =>
      let buf := hex_digit (n mod 16) :: buf in
      if n <? 16 then buf else hex_loop fuel (n / 16) buf
  end.

Definition format_hex (n : Z) : bytes := hex_loop 16 n [].

(** [strconv.Itoa] for an [int32]. *)
Definition format_int (n : Z) : bytes := if n <? 0 then lit "-" ++ format_uint (- n) else format_uint n.

(** [%5d]: at least five columns. *)
Definition pad5 (s : bytes) : bytes := Repeat Byte.x20 (5 - len s) ++ s.

(** [%v] and [%t] for a [bool]. *)
Definition format_bool (b : bool) : bytes := if b then lit "true" else lit "false".

(** The items with [sep] between them. *)
Fixpoint join (sep : bytes) (items : list bytes) : bytes :=
  match items with
  | [] => []
  | [x] => x
  | x :: items => x ++ sep ++ join sep items
  end.

(** [%v] for a slice whose elements print as [items]. *)
Definition format_slice (items : list bytes) : bytes := lit "[" ++ join (lit " ") items ++ lit "]".

(** ** Quoting ([%q])

    What of the Go library and the protobuf runtime is a table or a message
    text: which code points above 255 [strconv.IsPrint] accepts, and the text
    of the error of [proto.Unmarshal] for the data of an entry of a type. *)
Class TextTables : Type := {
  print_table : Z → bool;
  unmarshal_error : EntryType → bytes → bytes;
}.

Section quote.
Context `{TextTables}.

Definition IsPrint (r : Z) : bool :=
  if r <=? 255 then ((32 <=? r) && (r <? 127)) || ((161 <=? r) && negb (r =? 173))
  else print_table r.

(** A byte within bounds: a continuation byte of UTF-8 gives its six bits. *)
Definition cont (lo hi : Z) (b : Byte.byte) : option Z :=
  if (lo <=? Z_of_byte b) && (Z_of_byte b <=? hi) then Some (Z_of_byte b - 128) else None.

(** [utf8.DecodeRuneInString]: the code point and the number of bytes that encode
    it, or nothing where the bytes are not a valid encoding. *)
Definition DecodeRune (s : bytes) : option (Z * nat) :=
  match s with
  | [] => None
  | b :: s =>
      let b := Z_of_byte b in
      if b <? 128 then Some (b, 1%nat)
      else if (194 <=? b) && (b <=? 223) then
        match s with
        | b1 :: _ => c1 ← cont 128 191 b1; Some ((b - 192) * 64 + c1, 2%nat)
        | _ => None
        end
      else if (224 <=? b) && (b <=? 239) then
        match s with
        | b1 :: b2 :: _ =>
            c1 ← cont (if b =? 224 then 160 else 128) (if b =? 237 then 159 else 191) b1;
            c2 ← cont 128 191 b2;
            Some ((b - 224) * 4096 + c1 * 64 + c2, 3%nat)
        | _ => None
        end
      else if (240 <=? b) && (b <=? 244) then
        match s with
        | b1 :: b2 :: b3 :: _ =>
            c1 ← cont (if b =? 240 then 144 else 128) (if b =? 244 then 143 else 191) b1;
            c2 ← cont 128 191 b2;
            c3 ← cont 128 191 b3;
            Some ((b - 240) * 262144 + c1 * 4096 + c2 * 64 + c3, 4%nat)
        | _ => None
        end
      else None
  end.

(** The last [k] hexadecimal digits of [r]. *)
Fixpoint hex_digits (k : nat) (r : Z) : bytes :=
  match k with
  | O => []
  | S k => hex_digit ((r / 16 ^ Z.of_nat k) mod 16) :: hex_digits k r
  end.

(** [appendEscapedRune] for the rune [r] with the encoding [enc]. *)
Definition escaped_rune (r : Z) (enc : bytes) : bytes :=
  if (r =? 34) || (r =? 92) then Byte.x5c :: enc
  else if IsPrint r then enc
  else if r =? 7 then lit "\a" else if r =? 8 then lit "\b" else if r =? 12 then lit "\f"
  else if r =? 10 then lit "\n" else if r =? 13 then lit "\r" else if r =? 9 then lit "\t"
  else if r =? 11 then lit "\v"
  else if (r <? 32) || (r =? 127) then lit "\x" ++ hex_digits 2 r
  else if r <? 65536 then lit "\u" ++ hex_digits 4 r
  else lit "\U" ++ hex_digits 8 r.

(** The loop of [strconv.Quote]; every turn takes away at least one byte. *)
Fixpoint quote_loop (fuel : nat) (s : bytes) : bytes :=
  match fuel, s with
  | S fuel, b :: s' =>
      match DecodeRune s with
      | Some (r, width) => escaped_rune r (take width s) ++ quote_loop fuel (drop width s)
      | None => lit "\x" ++ hex_digits 2 (Z_of_byte b) ++ quote_loop fuel s'
      end
  | _, _ => []
  end.

Definition Quote (s : bytes) : bytes := Byte.x22 :: quote_loop (length s) s ++ [Byte.x22].

End quote.

(** ** Enumerations *)

Definition StateType_String (st : StateType) : bytes :=
  lit match st with
      | StateFollower => "StateFollower"
      | StateCandidate => "StateCandidate"
      | StateLeader => "StateLeader"
      | StatePreCandidate => "StatePreCandidate"
      end.

Definition ProgressStateType_String (st : ProgressStateType) : bytes :=
  lit match st with
      | StateProbe => "StateProbe"
      | StateReplicate => "StateReplicate"
      | StateSnapshot => "StateSnapshot"
      end.

Definition VoteResult_String (v : VoteResult) : bytes :=
  lit match v with VotePending => "VotePending" | VoteLost => "VoteLost" | VoteWon => "VoteWon" end.

Definition EntryType_String (t : EntryType) : bytes :=
  lit match t with
      | EntryNormal => "EntryNormal"
      | EntryConfChange => "EntryConfChange"
      | EntryConfChangeV2 => "EntryConfChangeV2"
      end.

Definition MessageType_String (t : MessageType) : bytes :=
  lit match t with
      | MsgHup => "MsgHup" | MsgBeat => "MsgBeat" | MsgProp => "MsgProp" | MsgApp => "MsgApp"
      | MsgAppResp => "MsgAppResp" | MsgVote => "MsgVote" | MsgVoteResp => "MsgVoteResp"
      | MsgSnap => "MsgSnap" | MsgHeartbeat => "MsgHeartbeat" | MsgHeartbeatResp => "MsgHeartbeatResp"
      | MsgUnreachable => "MsgUnreachable" | MsgSnapStatus => "MsgSnapStatus"
      | MsgCheckQuorum => "MsgCheckQuorum" | MsgTransferLeader => "MsgTransferLeader"
      | MsgTimeoutNow => "MsgTimeoutNow" | MsgReadIndex => "MsgReadIndex"
      | MsgReadIndexResp => "MsgReadIndexResp" | MsgPreVote => "MsgPreVote"
      | MsgPreVoteResp => "MsgPreVoteResp" | MsgStorageAppend => "MsgStorageAppend"
      | MsgStorageAppendResp => "MsgStorageAppendResp" | MsgStorageApply => "MsgStorageApply"
      | MsgStorageApplyResp => "MsgStorageApplyResp" | MsgForgetLeader => "MsgForgetLeader"
      end.

Definition ConfChangeTransition_String (t : ConfChangeTransition) : bytes :=
  match t with
  | ConfChangeTransitionAuto => lit "ConfChangeTransitionAuto"
  | ConfChangeTransitionJointImplicit => lit "ConfChangeTransitionJointImplicit"
  | ConfChangeTransitionJointExplicit => lit "ConfChangeTransitionJointExplicit"
  | ConfChangeTransitionUnknown n => format_int n
  end.

Definition ConfChangeType_String (t : ConfChangeType) : bytes :=
  match t with
  | ConfChangeAddNode => lit "ConfChangeAddNode"
  | ConfChangeRemoveNode => lit "ConfChangeRemoveNode"
  | ConfChangeUpdateNode => lit "ConfChangeUpdateNode"
  | ConfChangeAddLearnerNode => lit "ConfChangeAddLearnerNode"
  | ConfChangeTypeUnknown n => format_int n
  end.

(** ** Quorums (src/quorum) *)

Definition Index_String (i : Z) : bytes :=
  if i =? MaxUint64 then [Byte.xe2; Byte.x88; Byte.x9e] else format_uint i.

Fixpoint MajorityConfig_write (i : Z) (sl : list Z) : bytes :=
  match sl with
  | [] => []
  | id :: sl => (if 0 <? i then lit " " else []) ++ format_hex id ++ MajorityConfig_write (i + 1) sl
  end.

Definition MajorityConfig_String (c : MajorityConfig) : bytes :=
  lit "(" ++ MajorityConfig_write 0 (sort64 (elements c)) ++ lit ")".

Definition JointConfig_String (c : JointConfig) : bytes :=
  if bool_decide (c.2 ≠ ∅) then MajorityConfig_String c.1 ++ lit "&&" ++ MajorityConfig_String c.2
  else MajorityConfig_String c.1.

(** The rows that [Describe] works on. *)
Record tup : Type := mktup {
  tup_id : Z;
  tup_idx : Z;
  tup_ok : bool;
  tup_bar : Z;
}.

Definition set_tup_bar (v : Z) (t : tup) : tup := mktup (tup_id t) (tup_idx t) (tup_ok t) v.

(** The two orders of [slices.SortFunc]. *)
Definition tup_by_index (a b : tup) : Prop :=
  tup_idx a < tup_idx b ∨ (tup_idx a = tup_idx b ∧ tup_id a <= tup_id b).

Definition tup_by_id (a b : tup) : Prop := tup_id a <= tup_id b.

#[export] Instance tup_by_index_dec : RelDecision tup_by_index.
Proof. intros a b. unfold tup_by_index. apply _. Defined.

#[export] Instance tup_by_id_dec : RelDecision tup_by_id.
Proof. intros a b. unfold tup_by_id. apply _. Defined.

Definition info_of {L} `{AckedIndexer L} (l : L) (id : Z) : tup :=
  match AckedIndex l id with
  | Some idx => mktup id idx true 0
  | None => mktup id 0 false 0
  end.

(** The loop that fills [bar], at position [i] behind the row [prev]. *)
Fixpoint populate_bar (prev : tup) (i : Z) (info : list tup) : list tup :=
  match info with
  | [] => []
  | t :: info =>
      let t := set_tup_bar (if tup_idx prev <? tup_idx t then i else tup_bar prev) t in
      t :: populate_bar t (i + 1) info
  end.

Definition populate_bars (info : list tup) : list tup :=
  match info with [] => [] | t :: info => t :: populate_bar t 1 info end.

Definition describe_row (n : Z) (t : tup) : bytes :=
  (if negb (tup_ok t) then lit "?" ++ Repeat Byte.x20 n
   else Repeat Byte.x78 (tup_bar t) ++ lit ">" ++ Repeat Byte.x20 (n - tup_bar t))
  ++ lit " " ++ pad5 (format_uint (tup_idx t)) ++ lit "    (id=" ++ format_hex (tup_id t) ++ lit ")" ++ newline.

Definition MajorityConfig_Describe {L} `{AckedIndexer L} (c : MajorityConfig) (l : L) : bytes :=
  if bool_decide (c = ∅) then lit "<empty majority quorum>"
  else
    let info := map (info_of l) (elements c) in
    let n := len info in
    let info := populate_bars (merge_sort tup_by_index info) in
    let info := merge_sort tup_by_id info in
    Repeat Byte.x20 n ++ lit "    idx" ++ newline ++ concat (map (describe_row n) info).

Definition JointConfig_Describe {L} `{AckedIndexer L} (c : JointConfig) (l : L) : bytes :=
  MajorityConfig_Describe (JointConfig_IDs c) l.

(** ** Configurations and progress (src/tracker) *)

Definition Config_String (c : Config) : bytes :=
  lit "voters=" ++ JointConfig_String (Config_joint c)
  ++ match Config_Learners c with
     | Some s => lit " learners=" ++ MajorityConfig_String s
     | None => []
     end
  ++ match Config_LearnersNext c with
     | Some s => lit " learners_next=" ++ MajorityConfig_String s
     | None => []
     end
  ++ (if Config_AutoLeave c then lit " autoleave" else []).

Definition Progress_String (pr : Progress) : bytes :=
  ProgressStateType_String (Progress_State pr)
  ++ lit " match=" ++ format_uint (Progress_Match pr) ++ lit " next=" ++ format_uint (Progress_Next pr)
  ++ (if Progress_IsLearner pr then lit " learner" else [])
  ++ (if Progress_IsPaused pr then lit " paused" else [])
  ++ (if 0 <? Progress_PendingSnapshot pr
      then lit " pendingSnap=" ++ format_uint (Progress_PendingSnapshot pr) else [])
  ++ (if negb (Progress_RecentActive pr) then lit " inactive" else [])
  ++ let n := Inflights_Count (Progress_Inflights pr) in
     if 0 <? n then
       lit " inflight=" ++ format_int n
       ++ (if Inflights_Full (Progress_Inflights pr) then lit "[full]" else [])
     else [].

Fixpoint ProgressMap_write (m : gmap Z Progress) (ids : list Z) : bytes :=
  match ids with
  | [] => []
  | id :: ids =>
      match m !! id with
      | Some pr => format_uint id ++ lit ": " ++ Progress_String pr ++ newline
      | None => []
      end ++ ProgressMap_write m ids
  end.

Definition ProgressMap_String (m : gmap Z Progress) : bytes :=
  ProgressMap_write m (sort64 (elements (dom m))).

(** ** Configuration changes (src/confchange, src/util.go) *)

Fixpoint Describe_write (buf : bytes) (ccs : list ConfChangeSingle) : bytes :=
  match ccs with
  | [] => buf
  | cc :: ccs =>
      let buf := if 0 <? len buf then buf ++ lit " " else buf in
      Describe_write
        (buf ++ ConfChangeType_String (ConfChangeSingle_GetType cc) ++ lit "("
         ++ format_uint (ConfChangeSingle_GetNodeId cc) ++ lit ")") ccs
  end.

Definition confchange_Describe (ccs : list ConfChangeSingle) : bytes := Describe_write [] ccs.

Definition DescribeConfChange `{TextTables} (cc : ConfChangeI) : bytes :=
  let cv2 := AsV2 cc in
  lit "transition:" ++ ConfChangeTransition_String (ConfChangeV2_GetTransition cv2)
  ++ concat (map (fun c =>
       lit " changes:{type:" ++ ConfChangeType_String (ConfChangeSingle_GetType c)
       ++ lit " node_id:" ++ format_uint (ConfChangeSingle_GetNodeId c) ++ lit "}")
       (ConfChangeV2_GetChanges cv2))
  ++ (let context := default [] (ConfChangeV2_Context cv2) in
      if 0 <? len context then lit " context:" ++ Quote context else []).

(** ** The log (src/log.go) *)

Definition raftLog_String {S} (l : raftLog S) : bytes :=
  lit "committed=" ++ format_uint (raftLog_committed l)
  ++ lit ", applied=" ++ format_uint (raftLog_applied l)
  ++ lit ", applying=" ++ format_uint (raftLog_applying l)
  ++ lit ", unstable.offset=" ++ format_uint (unstable_offset (raftLog_unstable l))
  ++ lit ", unstable.offsetInProgress=" ++ format_uint (unstable_offsetInProgress (raftLog_unstable l))
  ++ lit ", len(unstable.Entries)=" ++ format_int (len (unstable_entries (raftLog_unstable l))).

(** ** States, entries, messages and Ready (src/util.go) *)

Definition DescribeHardState (hs : option HardState) : bytes :=
  lit "Term:" ++ format_uint (HardState_GetTerm hs)
  ++ (if negb (HardState_GetVote hs =? 0) then lit " Vote:" ++ format_uint (HardState_GetVote hs) else [])
  ++ lit " Commit:" ++ format_uint (HardState_GetCommit hs).

Definition DescribeSoftState (ss : SoftState) : bytes :=
  lit "Lead:" ++ format_uint (SoftState_Lead ss) ++ lit " State:" ++ StateType_String (SoftState_RaftState ss).

Definition format_ids (ids : list Z) : bytes := format_slice (map format_uint ids).

Definition DescribeConfState (state : option ConfState) : outcome bytes :=
  match state with
  | None => Panic "invalid memory address or nil pointer dereference"
  | Some s =>
      Ok (lit "Voters:" ++ format_ids (ConfState_Voters s)
          ++ lit " VotersOutgoing:" ++ format_ids (ConfState_VotersOutgoing s)
          ++ lit " Learners:" ++ format_ids (ConfState_Learners s)
          ++ lit " LearnersNext:" ++ format_ids (ConfState_LearnersNext s)
          ++ lit " AutoLeave:" ++ format_bool (ConfState_GetAutoLeave s))
  end.

Definition DescribeSnapshot (snap : option Snapshot) : outcome bytes :=
  let m := Snapshot_GetMetadata snap in
  cs ← DescribeConfState (SnapshotMetadata_GetConfState m);
  Ok (lit "Index:" ++ format_uint (SnapshotMetadata_GetIndex m)
      ++ lit " Term:" ++ format_uint (SnapshotMetadata_GetTerm m) ++ lit " ConfState:" ++ cs).

Definition describeTarget (id : Z) : bytes :=
  if id =? None_id then lit "None"
  else if id =? LocalAppendThread then lit "AppendThread"
  else if id =? LocalApplyThread then lit "ApplyThread"
  else format_hex id.

(** [EntryFormatter]; [None] is nil. *)
Abbreviation EntryFormatter := (option (bytes → bytes)).

Section describe.
Context `{Protobuf} `{TextTables}.

Definition formatConfChange (cc : ConfChangeI) : bytes := ConfChangesToString (ConfChangeV2_Changes (AsV2 cc)).

Definition DescribeEntry (e : Entry) (f : EntryFormatter) : bytes :=
  let f := match f with None => Quote | Some f => f end in
  let data := Entry_GetData e in
  let formatted :=
    match Entry_GetType e with
    | EntryNormal => f data
    | EntryConfChange =>
        match Unmarshal_ConfChange data with
        | None => unmarshal_error EntryConfChange data
        | Some cc => formatConfChange (CC1 cc)
        end
    | EntryConfChangeV2 =>
        match Unmarshal_ConfChangeV2 data with
        | None => unmarshal_error EntryConfChangeV2 data
        | Some cc => formatConfChange (CC2 cc)
        end
    end in
  let formatted := match formatted with [] => [] | _ => lit " " ++ formatted end in
  format_uint (Entry_GetTerm e) ++ lit "/" ++ format_uint (Entry_GetIndex e) ++ lit " "
  ++ EntryType_String (Entry_GetType e) ++ formatted.

Definition DescribeEntries (ents : list Entry) (f : EntryFormatter) : bytes :=
  concat (map (fun e => DescribeEntry e f ++ newline) ents).

(** The loop over the responses of a message, each printed by [d]. *)
Definition write_responses (d : Message → outcome bytes) : list Message → outcome bytes :=
  fix go rs :=
    match rs with
    | [] => Ok []
    | r :: rs => t ← d r; ts ← go rs; Ok (newline ++ t ++ ts)
    end.

Fixpoint describeMessageWithIndent (indent : bytes) (m : Message) (f : EntryFormatter) : outcome bytes :=
  let head :=
    indent ++ describeTarget (Message_GetFrom m) ++ lit "->" ++ describeTarget (Message_GetTo m)
    ++ lit " " ++ MessageType_String (Message_GetType m) ++ lit " Term:" ++ format_uint (Message_GetTerm m)
    ++ lit " Log:" ++ format_uint (Message_GetLogTerm m) ++ lit "/" ++ format_uint (Message_GetIndex m)
    ++ (if Message_GetReject m
        then lit " Rejected (Hint: " ++ format_uint (Message_GetRejectHint m) ++ lit ")" else [])
    ++ (if negb (Message_GetCommit m =? 0) then lit " Commit:" ++ format_uint (Message_GetCommit m) else [])
    ++ (if negb (Message_GetVote m =? 0) then lit " Vote:" ++ format_uint (Message_GetVote m) else [])
    ++ match Message_GetEntries m with
       | [] => []
       | [e] => lit " Entries:[" ++ DescribeEntry e f ++ lit "]"
       | ents =>
           lit " Entries:["
           ++ concat (map (fun e => newline ++ indent ++ lit "  " ++ DescribeEntry e f) ents)
           ++ newline ++ indent ++ lit "]"
       end in
  snap ← match Message_GetSnapshot m with
         | Some s =>
             if negb (IsEmptySnap (Some s))
             then d ← DescribeSnapshot (Some s); Ok (newline ++ indent ++ lit "  Snapshot: " ++ d)
             else Ok []
         | None => Ok []
         end;
  resps ← write_responses (fun r => describeMessageWithIndent (indent ++ lit "  ") r f) (Message_Responses m);
  Ok (head ++ snap
      ++ (if 0 <? len (Message_GetResponses m)
          then lit " Responses:[" ++ resps ++ newline ++ indent ++ lit "]" else [])).

Definition DescribeMessage (m : Message) (f : EntryFormatter) : outcome bytes :=
  describeMessageWithIndent [] m f.

Fixpoint DescribeMessages (ms : list Message) (f : EntryFormatter) : outcome bytes :=
  match ms with
  | [] => Ok []
  | m :: ms => d ← DescribeMessage m f; ds ← DescribeMessages ms f; Ok (d ++ newline ++ ds)
  end.

Definition format_ReadState (rs : ReadState) : bytes :=
  lit "{" ++ format_uint (ReadState_Index rs) ++ lit " "
  ++ format_slice (map (fun b => format_uint (Z_of_byte b)) (default [] (ReadState_RequestCtx rs))) ++ lit "}".

Definition DescribeReady (rd : Ready) (f : EntryFormatter) : outcome bytes :=
  let soft := match Ready_SoftState rd with Some ss => DescribeSoftState ss ++ newline | None => [] end in
  let hard := if negb (IsEmptyHardState (Ready_HardState rd))
              then lit "HardState " ++ DescribeHardState (Ready_HardState rd) ++ newline else [] in
  let reads := if 0 <? len (Ready_ReadStates rd)
               then lit "ReadStates " ++ format_slice (map format_ReadState (Ready_ReadStates rd)) ++ newline
               else [] in
  let ents := if 0 <? len (Ready_Entries rd)
              then lit "Entries:" ++ newline ++ DescribeEntries (Ready_Entries rd) f else [] in
  snap ← (if negb (IsEmptySnap (Ready_Snapshot rd))
          then d ← DescribeSnapshot (Ready_Snapshot rd); Ok (lit "Snapshot " ++ d ++ newline)
          else Ok []);
  let committed := if 0 <? len (Ready_CommittedEntries rd)
                   then lit "CommittedEntries:" ++ newline ++ DescribeEntries (Ready_CommittedEntries rd) f
                   else [] in
  msgs ← (if 0 <? len (Ready_Messages rd)
          then ds ← DescribeMessages (Ready_Messages rd) f; Ok (lit "Messages:" ++ newline ++ ds)
          else Ok []);
  let buf := soft ++ hard ++ reads ++ ents ++ snap ++ committed ++ msgs in
  Ok (if 0 <? len buf
      then lit "Ready MustSync=" ++ format_bool (Ready_MustSync rd) ++ lit ":" ++ newline ++ buf
      else lit "<empty Ready>").

(** ** JSON (src/util.go, src/status.go) *)

Definition StateType_MarshalJSON (st : StateType) : bytes := Quote (StateType_String st).

(** A key of a JSON object. *)
Definition key (s : string) : bytes := [Byte.x22] ++ lit s ++ [Byte.x22] ++ lit ":".

Definition quoted_hex (n : Z) : bytes := [Byte.x22] ++ format_hex n ++ [Byte.x22].

Definition progress_JSON (id : Z) (v : Progress) : bytes :=
  quoted_hex id ++ lit ":{" ++ key "match" ++ format_uint (Progress_Match v) ++ lit ","
  ++ key "next" ++ format_uint (Progress_Next v) ++ lit "," ++ key "state"
  ++ Quote (ProgressStateType_String (Progress_State v)) ++ lit "},".

(** The members of the progress map in the order [ids], each with a comma. *)
Fixpoint progresses_JSON (m : gmap Z Progress) (ids : list Z) : bytes :=
  match ids with
  | [] => []
  | id :: ids => match m !! id with Some v => progress_JSON id v | None => [] end ++ progresses_JSON m ids
  end.

Definition Status_MarshalJSON (s : Status) : bytes :=
  let b := Status_BasicStatus s in
  let hs := Some (BasicStatus_HardState b) in
  let j := lit "{" ++ key "id" ++ quoted_hex (BasicStatus_ID b) ++ lit ","
    ++ key "term" ++ format_uint (HardState_GetTerm hs) ++ lit ","
    ++ key "vote" ++ quoted_hex (HardState_GetVote hs) ++ lit ","
    ++ key "commit" ++ format_uint (HardState_GetCommit hs) ++ lit ","
    ++ key "lead" ++ quoted_hex (SoftState_Lead (BasicStatus_SoftState b)) ++ lit ","
    ++ key "raftState" ++ Quote (StateType_String (SoftState_RaftState (BasicStatus_SoftState b))) ++ lit ","
    ++ key "applied" ++ format_uint (BasicStatus_Applied b) ++ lit "," ++ key "progress" ++ lit "{" in
  let m := default ∅ (Status_Progress s) in
  let j := if bool_decide (m = ∅) then j ++ lit "},"
           else let j := j ++ progresses_JSON m (sort64 (elements (dom m))) in
                take (length j - 1) j ++ lit "}," in
  j ++ key "leadtransferee" ++ quoted_hex (BasicStatus_LeadTransferee b) ++ lit "}".

Definition Status_String (s : Status) : bytes := Status_MarshalJSON s.

End describe.

(** ** The picture of a quorum *)

(** How many of the indexes are smaller than [i]. *)
Definition rank (idxs : list Z) (i : Z) : Z := len (filter (fun j => j < i) idxs).

#[export] Instance rank_proper : Proper (Permutation ==> eq ==> eq) rank.
Proof. intros a b Hp i ? <-. unfold rank, len. by rewrite Hp. Qed.

Lemma rank_none idxs i : Forall (Z.le i) idxs → rank idxs i = 0.
Proof. induction 1; [done|]. unfold rank. by rewrite filter_cons_False by lia. Qed.

Lemma rank_app a b i : rank (a ++ b) i = rank a i + rank b i.
Proof. unfold rank, len. rewrite filter_app, length_app. lia. Qed.

Lemma rank_all idxs i : Forall (fun j => j < i) idxs → rank idxs i = len idxs.
Proof.
  induction 1; [done|]. unfold rank, len in *. rewrite filter_cons_True by lia. cbn [length]. lia.
Qed.

Lemma rank_map {A} (f : A → Z) (l : list A) i : rank (map f l) i = len (filter (fun x => f x < i) l).
Proof.
  induction l as [|x l IH]; [done|]. unfold rank, len in *. cbn [map]. rewrite !filter_cons.
  case_decide; cbn [length]; lia.
Qed.

(** Along rows sorted by index the loop gives every row its rank. *)
Lemma populate_bar_rank info pre prev :
  StronglySorted Z.le (pre ++ tup_idx prev :: map tup_idx info) →
  tup_bar prev = rank pre (tup_idx prev) →
  populate_bar prev (len pre + 1) info
  = map (fun t => set_tup_bar (rank (pre ++ tup_idx prev :: map tup_idx info) (tup_idx t)) t) info.
Proof.
  revert pre prev. induction info as [|t info IH]; intros pre prev Hs Hb; [done|]. cbn.
  set (t' := set_tup_bar _ t).
  assert (Hr : tup_bar t' = rank (pre ++ tup_idx prev :: map tup_idx (t :: info)) (tup_idx t)).
  { subst t'. cbn [set_tup_bar tup_bar map] in *.
    apply StronglySorted_app in Hs as (Hpre & _ & [Hp [Hi _]%StronglySorted_cons]%StronglySorted_cons).
    apply Forall_cons in Hp as [Hpt _]. rewrite rank_app. change (tup_idx prev :: ?l) with ([tup_idx prev] ++ l).
    rewrite rank_app, (rank_none (tup_idx t :: _)) by (constructor; [lia|done]).
    destruct (Z.ltb_spec (tup_idx prev) (tup_idx t)).
    - rewrite !rank_all; [unfold len; cbn [length]; lia|by constructor|]. apply Forall_forall. intros j Hj.
      specialize (Hpre j (tup_idx prev) Hj ltac:(left)). lia.
    - rewrite Hb. replace (tup_idx t) with (tup_idx prev) by lia. rewrite (rank_none [_]) by by constructor. lia. }
  f_equal; [subst t'; cbn in *; by rewrite Hr|].
  specialize (IH (pre ++ [tup_idx prev]) t'). rewrite <- (assoc_L (++)) in IH. cbn [app] in IH.
  replace (len pre + 1 + 1) with (len (pre ++ [tup_idx prev]) + 1) by (unfold len; rewrite length_app; cbn; lia).
  rewrite IH; [done|done|]. change (tup_idx t') with (tup_idx t). rewrite Hr. cbn [map].
  change (tup_idx prev :: ?a :: ?l) with ([tup_idx prev] ++ a :: l). rewrite (assoc_L (++)), (rank_app _ (tup_idx t :: _)).
  rewrite (rank_none (_ :: _)); [lia|].
  apply StronglySorted_app in Hs as (_ & _ & [_ [Hi _]%StronglySorted_cons]%StronglySorted_cons). by constructor.
Qed.

Section picture.
Context {L : Type} `{AckedIndexer L}.

(** A voter that has not reported counts as 0. *)
Definition acked_or_zero (l : L) (id : Z) : Z := default 0 (AckedIndex l id).

(** The row of a voter: its bar is as long as there are voters behind it. *)
Definition voter_row (l : L) (c : MajorityConfig) (id : Z) : tup :=
  mktup id (acked_or_zero l id) (bool_decide (is_Some (AckedIndex l id)))
    (Z.of_nat (size (filter (fun v => acked_or_zero l v < acked_or_zero l id) c))).

Lemma info_of_fields l id :
  tup_id (info_of l id) = id ∧ tup_idx (info_of l id) = acked_or_zero l id
  ∧ tup_ok (info_of l id) = bool_decide (is_Some (AckedIndex l id)).
Proof. unfold info_of, acked_or_zero. by destruct (AckedIndex l id). Qed.

Lemma rank_voters l c id :
  rank (map (acked_or_zero l) (elements c)) (acked_or_zero l id) = tup_bar (voter_row l c id).
Proof.
  rewrite rank_map. cbn. unfold len. f_equal. unfold size, set_size. cbn. apply Permutation_length, NoDup_Permutation.
  - apply NoDup_filter, NoDup_elements.
  - apply NoDup_elements.
  - intros v. rewrite list_elem_of_filter, !elem_of_elements, elem_of_filter. done.
Qed.

Lemma tup_by_index_sorted info : StronglySorted Z.le (map tup_idx (merge_sort tup_by_index info)).
Proof.
  change (map tup_idx) with (fmap (M:=list) tup_idx).
  eapply StronglySorted_fmap with (R1 := tup_by_index); [unfold tup_by_index; lia|].
  apply StronglySorted_merge_sort; unfold Transitive, Total, strict, tup_by_index; intros; lia.
Qed.

(** The rows after the bars are filled, in whatever order. *)
Lemma populate_bars_voters l c :
  ∃ ids, ids ≡ₚ elements c ∧
    populate_bars (merge_sort tup_by_index (map (info_of l) (elements c))) = map (voter_row l c) ids.
Proof.
  set (info := merge_sort _ _). set (ids := map tup_id info).
  assert (Hp : info ≡ₚ map (info_of l) (elements c)) by apply merge_sort_Permutation.
  assert (Hi : info = map (info_of l) ids).
  { subst ids. rewrite map_map. rewrite <- (map_id info) at 1. apply map_ext_in. intros t Ht. 
    assert (Ht' : In t (map (info_of l) (elements c))) by (by rewrite <- Hp).
    apply in_map_iff in Ht' as (id & <- & _). by rewrite (proj1 (info_of_fields l id)). }
  assert (Hids : ids ≡ₚ elements c).
  { subst ids. rewrite Hp, map_map. erewrite map_ext; [by rewrite map_id|]. intros id. apply info_of_fields. }
  exists ids. split; [done|].
  pose proof (tup_by_index_sorted (map (info_of l) (elements c))) as Hs. fold info in Hs.
  assert (Hx : map tup_idx info ≡ₚ map (acked_or_zero l) (elements c)).
  { rewrite Hp, map_map. erewrite map_ext; [reflexivity|]. intros id. apply info_of_fields. }
  assert (Hrow : ∀ id, set_tup_bar (rank (map tup_idx info) (tup_idx (info_of l id))) (info_of l id) = voter_row l c id).
  { intros id. destruct (info_of_fields l id) as (E1 & E2 & E3). unfold set_tup_bar. rewrite E1, E2, E3.
    by rewrite Hx, rank_voters. }
  clearbody info ids. subst info. destruct ids as [|id ids]; [done|]. cbn [map populate_bars] in *.
  assert (H0 : tup_bar (info_of l id) = 0) by (unfold info_of; by case_match).
  rewrite (populate_bar_rank _ [] (info_of l id)); cbn [app]; [|done|done].
  f_equal; [|rewrite map_map; apply map_ext, Hrow]. rewrite <- Hrow, rank_none.
  - unfold info_of. by case_match.
  - apply StronglySorted_cons in Hs as [Hs _]. by constructor.
Qed.

Lemma sort_by_id l c ids :
  ids ≡ₚ elements c → merge_sort tup_by_id (map (voter_row l c) ids) = map (voter_row l c) (MajorityConfig_Slice c).
Proof.
  intros Hids. set (rows := merge_sort _ _).
  assert (Hp : rows ≡ₚ map (voter_row l c) ids) by apply merge_sort_Permutation.
  assert (Hr : rows = map (voter_row l c) (map tup_id rows)).
  { rewrite map_map. rewrite <- (map_id rows) at 1. apply map_ext_in. intros t Ht.
    assert (Ht' : In t (map (voter_row l c) ids)) by (by rewrite <- Hp). by apply in_map_iff in Ht' as (id & <- & _). }
  rewrite Hr. f_equal. apply (StronglySorted_unique Z.le).
  - change (map tup_id) with (fmap (M:=list) tup_id). eapply StronglySorted_fmap with (R1 := tup_by_id); [done|].
    apply StronglySorted_merge_sort; unfold Transitive, Total, tup_by_id; intros; lia.
  - apply StronglySorted_merge_sort; apply _.
  - rewrite Hp, map_map. unfold MajorityConfig_Slice, sort64. rewrite merge_sort_Permutation, <- Hids.
    cbn. by rewrite map_id.
Qed.

(** The picture that [Describe] draws of a quorum: one row for every voter, in
    the order of their ids, in which the bar of a voter that has reported is as
    long as there are voters with a smaller index (a missing report counts as
    0), whatever order the map of voters is visited in. *)
Theorem MajorityConfig_Describe_spec (c : MajorityConfig) (l : L) :
  MajorityConfig_Describe c l =
    if bool_decide (c = ∅) then lit "<empty majority quorum>"
    else Repeat Byte.x20 (Z.of_nat (size c)) ++ lit "    idx" ++ newline
         ++ concat (map (fun id => describe_row (Z.of_nat (size c)) (voter_row l c id)) (MajorityConfig_Slice c)).
Proof.
  unfold MajorityConfig_Describe. case_bool_decide; [done|].
  destruct (populate_bars_voters l c) as (ids & Hids & ->). rewrite (sort_by_id l c ids Hids), map_map.
  unfold len. by rewrite length_map.
Qed.
End picture.

(** ** What can be printed *)

(** A snapshot that is printed needs a ConfState. *)
Definition snapshot_printable (s : option Snapshot) : bool :=
  IsEmptySnap s || bool_decide (is_Some (SnapshotMetadata_GetConfState (Snapshot_GetMetadata s))).

(** The same for the snapshot of a message and of its responses, at any depth. *)
Fixpoint message_printable (m : Message) : bool :=
  snapshot_printable (Message_Snapshot m)
  && forallb message_printable (Message_Responses m).

Definition Ready_printable (rd : Ready) : bool :=
  snapshot_printable (Ready_Snapshot rd) && forallb message_printable (Ready_Messages rd).

(** Nothing in a Ready for the application to do. *)
Definition Ready_empty (rd : Ready) : Prop :=
  Ready_SoftState rd = None ∧ IsEmptyHardState (Ready_HardState rd) = true ∧ Ready_ReadStates rd = []
  ∧ Ready_Entries rd = [] ∧ IsEmptySnap (Ready_Snapshot rd) = true ∧ Ready_CommittedEntries rd = []
  ∧ Ready_Messages rd = [].

Lemma Message_responses_ind (P : Message → Prop) :
  (∀ m, (∀ r, In r (Message_Responses m) → P r) → P m) → ∀ m, P m.
Proof.
  intros HP. fix IH 1. intros [? ? ? ? ? ? ? ? ? ? ? ? ? rs]. apply HP. cbn.
  induction rs as [|r rs IHrs]; intros r' Hr; [destruct Hr|]. destruct Hr as [<-|Hr]; [apply IH|apply IHrs, Hr].
Qed.

Section printable.
Context `{Protobuf} `{TextTables}.

Lemma DescribeSnapshot_Ok s :
  (∃ d, DescribeSnapshot s = Ok d) ↔ is_Some (SnapshotMetadata_GetConfState (Snapshot_GetMetadata s)).
Proof.
  unfold DescribeSnapshot. destruct (SnapshotMetadata_GetConfState _) as [cs|]; cbn; split; eauto.
  - intros [d [=]].
  - intros [cs [=]].
Qed.

Lemma bind2_Ok {A B C} (m : outcome A) (n : outcome B) (h : A → B → C) :
  (∃ c, (a ← m; b ← n; Ok (h a b)) = Ok c) ↔ (∃ a, m = Ok a) ∧ (∃ b, n = Ok b).
Proof. destruct m, n; cbn; naive_solver. Qed.

Lemma print_snapshot_Ok s (g : bytes → bytes) :
  (∃ t, (if negb (IsEmptySnap s) then d ← DescribeSnapshot s; Ok (g d) else Ok []) = Ok t) ↔ snapshot_printable s = true.
Proof.
  unfold snapshot_printable. destruct (IsEmptySnap s); cbn; [split; eauto|].
  rewrite bool_decide_eq_true, <- DescribeSnapshot_Ok. destruct (DescribeSnapshot s); cbn; naive_solver.
Qed.

Lemma write_responses_Ok d (P : Message → bool) rs :
  (∀ r, In r rs → (∃ t, d r = Ok t) ↔ P r = true) → (∃ t, write_responses d rs = Ok t) ↔ forallb P rs = true.
Proof.
  induction rs as [|r rs IH]; intros Hd; cbn; [split; eauto|].
  rewrite andb_true_iff, <- IH by (intros; apply Hd; by right). rewrite <- (Hd r) by by left. split.
  - intros (t & E). go_inv E. go_inv E. eauto.
  - intros [[t1 E1] [t2 E2]]. rewrite E1. cbn. rewrite E2. cbn. eauto.
Qed.

Lemma describeMessage_Ok m f :
  ∀ indent, (∃ d, describeMessageWithIndent indent m f = Ok d) ↔ message_printable m = true.
Proof.
  induction m as [m IH] using Message_responses_ind. intros indent.
  assert (Hrs : (∃ t, write_responses (fun r => describeMessageWithIndent (indent ++ lit "  ") r f) (Message_Responses m) = Ok t)
                ↔ forallb message_printable (Message_Responses m) = true).
  { apply write_responses_Ok. intros r Hr. by apply IH. }
  assert (Hm : message_printable m = snapshot_printable (Message_Snapshot m) && forallb message_printable (Message_Responses m))
    by by destruct m.
  rewrite Hm, andb_true_iff, <- Hrs. clear IH Hrs Hm. destruct m as [ty to from term lt ix ents cm vt snap rj rh ctx rs].
  cbn [describeMessageWithIndent Message_GetSnapshot Message_Snapshot Message_Responses].
  rewrite bind2_Ok. apply and_iff_compat_r. rewrite <- (print_snapshot_Ok snap (fun d => newline ++ indent ++ lit "  Snapshot: " ++ d)).
  by destruct snap.
Qed.

Lemma DescribeMessages_Ok ms f : (∃ d, DescribeMessages ms f = Ok d) ↔ forallb message_printable ms = true.
Proof.
  induction ms as [|m ms IH]; cbn; [split; eauto|]. rewrite andb_true_iff, <- IH, <- (describeMessage_Ok m f []).
  apply (bind2_Ok (DescribeMessage m f) (DescribeMessages ms f)).
Qed.

(** The text of a Ready with the text [buf] of its parts. *)
Lemma Ready_text (b : bool) buf :
  (if 0 <? len buf then lit "Ready MustSync=" ++ format_bool b ++ lit ":" ++ newline ++ buf else lit "<empty Ready>")
  = lit "<empty Ready>" ↔ buf = [].
Proof.
  destruct buf; cbn; [done|]. split; [|done]. change (0 <? len (_ :: _)) with true. cbn. discriminate.
Qed.

Lemma part_nil {A} (l : list A) (t u : bytes) : t ≠ [] → (if 0 <? len l then t ++ u else []) = [] ↔ l = [].
Proof.
  intros Ht. destruct l; [done|]. split; [|done]. change (0 <? len (_ :: _)) with true. cbn. by destruct t.
Qed.

(** [DescribeReady] panics exactly when the Ready, or a message of it at any
    depth of responses, holds a snapshot with an index but without a ConfState;
    and its answer is that of an empty Ready exactly when there is nothing in it
    for the application to do. *)
Theorem DescribeReady_spec (rd : Ready) (f : EntryFormatter) :
  ((∃ s, DescribeReady rd f = Ok s) ↔ Ready_printable rd = true)
  ∧ (DescribeReady rd f = Ok (lit "<empty Ready>") ↔ Ready_empty rd).
Proof.
  unfold DescribeReady, Ready_printable, Ready_empty. split.
  - rewrite andb_true_iff, bind2_Ok, print_snapshot_Ok. apply and_iff_compat_l.
    rewrite <- DescribeMessages_Ok with (f := f). destruct (Ready_Messages rd) as [|m ms]; [cbn; split; eauto|].
    change (0 <? len (m :: ms)) with true. cbn [negb]. destruct (DescribeMessages (m :: ms) f); cbn; naive_solver.
  - split.
    + intros E. go_inv E. go_inv E. apply Ok_inj, Ready_text in E.
      apply app_nil in E as [Hso E]. apply app_nil in E as [Hha E]. apply app_nil in E as [Hre E].
      apply app_nil in E as [Hen E]. apply app_nil in E as [-> E]. apply app_nil in E as [Hco ->].
      apply part_nil in Hre; [|done]. apply part_nil in Hen; [|done]. apply part_nil in Hco; [|done].
      split_and!; try done.
      * by destruct (Ready_SoftState rd).
      * by destruct (IsEmptyHardState _).
      * destruct (IsEmptySnap _); [done|]. by go_inv E0.
      * destruct (Ready_Messages rd); [done|]. change (0 <? len (_ :: _)) with true in E1. by go_inv E1.
    + intros (-> & -> & -> & -> & -> & -> & ->). done.
Qed.
End printable.

(** When [HasReady] says no, a Ready can be made, and there is nothing in it. *)
Theorem HasReady_false_empty {S} `{Protobuf} `{!Storage S} (rn : RawNode S) :
  RawNode_HasReady rn = Ok false → ∃ rd, RawNode_readyWithoutAccept rn = Ok rd ∧ Ready_empty rd.
Proof.
  unfold RawNode_HasReady, RawNode_readyWithoutAccept, Ready_empty, needStorageAppendMsg, needStorageApplyMsg.
  destruct (SoftState_equal _ _); [|done]. cbn [negb].
  destruct (IsEmptyHardState _) eqn:Eh, (isHardStateEqual (Some _) (rn_prevHardSt rn)) eqn:Ep; try done; cbn [negb andb].
  all: destruct (raftLog_hasNextUnstableSnapshot _); [done|].
  all: destruct (raft_msgs _) as [|]; [|done]; destruct (raft_msgsAfterAppend _) as [|]; [|done]; cbn [len length Z.of_nat Z.ltb orb].
  all: unfold raftLog_hasNextUnstableEnts; destruct (raftLog_nextUnstableEnts _) as [[|]|]; [|done|done]; cbn.
  all: assert (Hc : ∀ b, raftLog_hasNextCommittedEnts b (raft_raftLog (rn_raft rn)) = false →
                   raftLog_nextCommittedEnts b (raft_raftLog (rn_raft rn)) = Ok []) by
    (intros b; unfold raftLog_hasNextCommittedEnts, raftLog_nextCommittedEnts; repeat case_match; try done; lia).
  all: destruct (raftLog_hasNextCommittedEnts _ _) eqn:Ec; [done|]; rewrite (Hc _ Ec); cbn.
  all: destruct (raft_readStates _); [intros _|done].
  all: cbn [IsEmptyHardState] in Eh; destruct (rn_asyncStorageWrites rn); cbn; rewrite ?Eh; cbn; eexists; (split; [reflexivity|]); cbn; rewrite ?Eh; done.
Qed.

(** ** What is printed can be told apart *)

Lemma digits_split a b c d r s :
  forallb is_digit a = true → forallb is_digit b = true → is_digit c = false → is_digit d = false →
  a ++ c :: r = b ++ d :: s → a = b ∧ c :: r = d :: s.
Proof.
  revert b. induction a as [|x a IH]; intros [|y b]; cbn; intros Ha Hb Hc Hd E; simplify_eq.
  - done.
  - by rewrite Hc in Hb.
  - by rewrite Hd in Ha.
  - apply andb_true_iff in Ha as [_ Ha], Hb as [_ Hb]. destruct (IH b) as [-> ?]; done.
Qed.

Lemma format_uint_inj a b : is_u64 a → is_u64 b → format_uint a = format_uint b → a = b.
Proof.
  intros Ha Hb E. destruct (format_uint_spec a Ha) as (_ & _ & Ea), (format_uint_spec b Hb) as (_ & _ & Eb).
  rewrite E in Ea. congruence.
Qed.

Lemma uint_split a b c d r s :
  is_u64 a → is_u64 b → is_digit c = false → is_digit d = false →
  format_uint a ++ c :: r = format_uint b ++ d :: s → a = b ∧ c :: r = d :: s.
Proof.
  intros Ha Hb Hc Hd E. destruct (format_uint_spec a Ha) as (_ & Da & _), (format_uint_spec b Hb) as (_ & Db & _).
  destruct (digits_split _ _ _ _ _ _ Da Db Hc Hd E) as [Ef ?]. split; [by apply format_uint_inj|done].
Qed.

Definition HardState_u64 (hs : option HardState) : Prop :=
  is_u64 (HardState_GetTerm hs) ∧ is_u64 (HardState_GetVote hs) ∧ is_u64 (HardState_GetCommit hs).

(** Two hard states that print alike are equal. *)
Theorem DescribeHardState_inj a b :
  HardState_u64 a → HardState_u64 b → DescribeHardState a = DescribeHardState b → isHardStateEqual a b = true.
Proof.
  intros (Ta & Va & Ca) (Tb & Vb & Cb) E. unfold DescribeHardState in E. apply (inj (app (lit "Term:"))) in E.
  set (ra := _ ++ lit " Commit:" ++ format_uint (HardState_GetCommit a)) in E.
  set (rb := _ ++ lit " Commit:" ++ format_uint (HardState_GetCommit b)) in E.
  assert (Hra : ∃ x, ra = Byte.x20 :: x) by (subst ra; case_match; eexists; reflexivity).
  assert (Hrb : ∃ x, rb = Byte.x20 :: x) by (subst rb; case_match; eexists; reflexivity).
  destruct Hra as [xa Hxa], Hrb as [xb Hxb]. rewrite Hxa, Hxb in E.
  apply uint_split in E as [ET E]; try done. rewrite <- Hxa, <- Hxb in E. clear Hxa Hxb.
  subst ra rb. unfold isHardStateEqual. rewrite ET, Z.eqb_refl.
  destruct (Z.eqb_spec (HardState_GetVote a) 0) as [Ea|], (Z.eqb_spec (HardState_GetVote b) 0) as [Eb|];
    cbn [negb] in E; rewrite <- ?(assoc_L (++)) in E; try discriminate E.
  - apply (inj (app (lit " Commit:"))), format_uint_inj in E; [|done..]. rewrite Ea, Eb, E. by rewrite !Z.eqb_refl.
  - apply (inj (app (lit " Vote:"))), uint_split in E as [EV E]; [|done..].
    apply (inj (app (lit " Commit:")) _ (format_uint _)), format_uint_inj in E; [|done..].
    rewrite EV, E. by rewrite !Z.eqb_refl.
Qed.
