(* ===== verification/Interaction.v ===== *)
(** * The interaction environment (src/rafttest/)

    An application of the library that is part of its source: a group of nodes
    with their storage, the messages in flight between them, and a state machine
    that appends the data of committed entries (interaction_env.go and the
    handlers interaction_env_handler_*.go).  The text that the environment
    prints is left out; the operations behind its commands are modelled as they
    are written, and the commands themselves in Commands.v.  InteractionSafety.v proves
    what they achieve together with the library. *)
From S2P Require Import Prelude Proto Quorum Inflights Progress Tracker Util Storage.
From S2P Require Import Unstable Log ConfChange ReadOnly Raft RaftStep RawNode.

(** ** Storage

    [snapOverrideStorage] is a MemoryStorage whose snapshots come from the
    history of applied states, the field [History] of the node.  The closure
    that reads it makes the history a part of the storage here. *)

Record snapOverrideStorage : Type := mksnapOverrideStorage {
  so_Storage : MemoryStorage;
  so_History : list Snapshot;
}.

Definition set_so_Storage (ms : MemoryStorage) (s : snapOverrideStorage) : snapOverrideStorage :=
  mksnapOverrideStorage ms (so_History s).

Definition set_so_History (h : list Snapshot) (s : snapOverrideStorage) : snapOverrideStorage :=
  mksnapOverrideStorage (so_Storage s) h.

(** The last state; without one the source indexes out of range, which ends the
    caller as well ([maybeSendSnapshot] panics on the error). *)
Definition so_Snapshot (s : snapOverrideStorage) : result Snapshot :=
  match last (so_History s) with
  | Some snap => Val snap
  | None => Err (ErrText "index out of range")
  end.

#[export] Instance snapOverrideStorage_Storage `{Protobuf} : Storage snapOverrideStorage := {|
  st_InitialState := fun s => st_InitialState (so_Storage s);
  st_Entries := fun s => st_Entries (so_Storage s);
  st_Term := fun s => st_Term (so_Storage s);
  st_LastIndex := fun s => st_LastIndex (so_Storage s);
  st_FirstIndex := fun s => st_FirstIndex (so_Storage s);
  st_Snapshot := so_Snapshot;
|}.

#[export, refine] Instance snapOverrideStorage_Laws `{Protobuf, !ProtobufLaws _} : StorageLaws snapOverrideStorage := {|
  st_ok := fun s => st_ok (so_Storage s);
  st_view := fun s => st_view (so_Storage s);
|}.
Proof.
  all: intros s; destruct s as [ms h]; cbn [so_Storage st_FirstIndex st_LastIndex st_Term st_Entries snapOverrideStorage_Storage].
  - apply st_view_wf.
  - apply st_FirstIndex_ok.
  - apply st_LastIndex_ok.
  - apply st_Term_ok.
  - apply st_Entries_compacted.
  - apply st_Entries_ok.
  - apply st_Entries_prefix.
Defined.

(** ** Nodes and the environment *)

(** [Node]; its storage is the one of its [RawNode], its history is kept there. *)
Record INode : Type := mkINode {
  in_RawNode : RawNode snapOverrideStorage;
  in_Config : RaftConfig snapOverrideStorage;
  in_AppendWork : list Message;
  in_ApplyWork : list Message;
}.

Definition set_in_RawNode (rn : RawNode snapOverrideStorage) (n : INode) : INode :=
  mkINode rn (in_Config n) (in_AppendWork n) (in_ApplyWork n).

Definition set_in_AppendWork (ms : list Message) (n : INode) : INode :=
  mkINode (in_RawNode n) (in_Config n) ms (in_ApplyWork n).

Definition set_in_ApplyWork (ms : list Message) (n : INode) : INode :=
  mkINode (in_RawNode n) (in_Config n) (in_AppendWork n) ms.

Definition rn_storage (rn : RawNode snapOverrideStorage) : snapOverrideStorage :=
  raftLog_storage (raft_raftLog (rn_raft rn)).

Definition set_rn_storage (s : snapOverrideStorage) (rn : RawNode snapOverrideStorage) : RawNode snapOverrideStorage :=
  set_rn_raft (set_raft_raftLog (set_raftLog_storage s (raft_raftLog (rn_raft rn))) (rn_raft rn)) rn.

Definition in_History (n : INode) : list Snapshot := so_History (rn_storage (in_RawNode n)).

Record InteractionEnv : Type := mkInteractionEnv {
  env_Nodes : list INode;
  env_Messages : list Message;   (* in-flight messages *)
}.

Definition set_env_Nodes (ns : list INode) (e : InteractionEnv) : InteractionEnv :=
  mkInteractionEnv ns (env_Messages e).

Definition set_env_Messages (ms : list Message) (e : InteractionEnv) : InteractionEnv :=
  mkInteractionEnv (env_Nodes e) ms.

Definition NewInteractionEnv : InteractionEnv := mkInteractionEnv [] [].

(** ** A monad for the operations

    An operation may panic, or return an error after some of its effects. *)

Definition EnvM (A : Type) : Type := InteractionEnv → outcome (result A * InteractionEnv).

#[export] Instance EnvM_ret : MRet EnvM := fun A a e => Ok (Val a, e).
#[export] Instance EnvM_bind : MBind EnvM := fun A B f m e =>
  match m e with
  | Ok (Val a, e) => f a e
  | Ok (Err x, e) => Ok (Err x, e)
  | Panic w => Panic w
  end.

Definition env_get : EnvM InteractionEnv := fun e => Ok (Val e, e).

Definition env_modify (f : InteractionEnv → InteractionEnv) : EnvM unit := fun e => Ok (Val tt, f e).

Definition env_fail {A} (x : error) : EnvM A := fun e => Ok (Err x, e).

Definition env_lift {A} (o : outcome A) : EnvM A := fun e => a ← o; Ok (Val a, e).

(** [return err] *)
Definition env_return (x : option error) : EnvM unit :=
  match x with None => mret tt | Some x => env_fail x end.

Fixpoint env_each {A} (f : A → EnvM unit) (l : list A) : EnvM unit :=
  match l with
  | [] => mret tt
  | a :: l => _ ← f a; env_each f l
  end.

(** [&env.Nodes[idx]]: what [f] makes of the node is stored, also on an error. *)
Definition with_node {A} (idx : Z) (f : INode → outcome (result A * INode)) : EnvM A := fun e =>
  n ← go_index (env_Nodes e) idx;
  x ← f n;
  Ok (x.1, set_env_Nodes (<[Z.to_nat idx := x.2]> (env_Nodes e)) e).

Definition node_at (idx : Z) : EnvM INode := fun e => n ← go_index (env_Nodes e) idx; Ok (Val n, e).

(** A method of the node's [RawNode]. *)
Definition with_rawnode {A} (idx : Z) (f : RawNode snapOverrideStorage → outcome (A * RawNode snapOverrideStorage)) : EnvM A :=
  with_node idx (fun n => x ← f (in_RawNode n); Ok (Val x.1, set_in_RawNode x.2 n)).

(** ** Operations on one node *)

Section operations.
Context `{Protobuf}.

Definition env_Campaign (idx : Z) : EnvM unit :=
  x ← with_rawnode idx RawNode_Campaign; env_return x.

Definition env_Propose (idx : Z) (data : option bytes) : EnvM unit :=
  x ← with_rawnode idx (RawNode_Propose data); env_return x.

Definition env_ProposeConfChange (idx : Z) (c : ConfChangeI) : EnvM unit :=
  x ← with_rawnode idx (RawNode_ProposeConfChange (Some c)); env_return x.

Definition env_Tick (idx : Z) (num : Z) : EnvM unit :=
  env_each (fun _ => with_rawnode idx RawNode_Tick) (seq 0 (Z.to_nat num)).

Definition handleTickElection (idx : Z) : EnvM unit :=
  n ← node_at idx; env_Tick idx (RaftConfig_ElectionTick (in_Config n)).

Definition handleTickHeartbeat (idx : Z) : EnvM unit :=
  n ← node_at idx; env_Tick idx (RaftConfig_HeartbeatTick (in_Config n)).

Definition env_ForgetLeader (idx : Z) : EnvM unit :=
  _ ← with_rawnode idx RawNode_ForgetLeader; mret tt.

Definition env_transferLeadership (from to : Z) : EnvM unit :=
  _ ← with_rawnode (from -! 1) (RawNode_TransferLeader to); mret tt.

(** [handleReportUnreachable], with the indexes that it parses. *)
Definition handleReportUnreachable (sl : list Z) : EnvM unit :=
  match sl with
  | [i; j] =>
      n ← node_at j;
      _ ← with_rawnode i (RawNode_ReportUnreachable (RaftConfig_ID (in_Config n))); mret tt
  | _ => env_fail (ErrText "must specify exactly two node indexes: node on which to report, and reported node")
  end.

(** [RaftLog] prints the stored log: what it reads is returned here. *)
Definition env_RaftLog (idx : Z) : EnvM (list Entry) :=
  n ← node_at idx;
  let s := rn_storage (in_RawNode n) in
  match st_FirstIndex s, st_LastIndex s with
  | Val fi, Val li =>
      if li <? fi then mret []
      else
        ents ← env_lift (st_Entries s fi (li +! 1) MaxUint64);
        match ents with Val ents => mret ents | Err x => env_fail x end
  | Err x, _ => env_fail x
  | _, Err x => env_fail x
  end.

Definition env_Compact (idx : Z) (newFirstIndex : Z) : EnvM unit :=
  _ ← with_node idx (fun n =>
        let s := rn_storage (in_RawNode n) in
        x ← ms_Compact newFirstIndex (so_Storage s);
        Ok (x.1, set_in_RawNode (set_rn_storage (set_so_Storage x.2 s) (in_RawNode n)) n));
  _ ← env_RaftLog idx; mret tt.

(** ** Messages *)

Definition isLocalMsg (m : Message) : bool :=
  (Message_GetFrom m =? Message_GetTo m) || IsLocalMsgTarget (Message_GetFrom m) || IsLocalMsgTarget (Message_GetTo m).

(** The test of [splitMsgs]; a negative type is [None]. *)
Definition selects (to : Z) (typ : option MessageType) (drop : bool) (m : Message) : bool :=
  (Message_GetTo m =? to) && negb (drop && isLocalMsg m) &&
  match typ with None => true | Some t => mt_eqb (Message_GetType m) t end.

Fixpoint splitMsgs (msgs : list Message) (to : Z) (typ : option MessageType) (drop : bool) : list Message * list Message :=
  match msgs with
  | [] => ([], [])
  | m :: msgs =>
      let '(toMsgs, rmdr) := splitMsgs msgs to typ drop in
      if selects to typ drop m then (m :: toMsgs, rmdr) else (toMsgs, m :: rmdr)
  end.

Record Recipient : Type := mkRecipient { Recipient_ID : Z; Recipient_Drop : bool }.

(** [env.Nodes[toIdx].Step(msg)]; an error is only printed. *)
Definition env_deliver (m : Message) : EnvM unit :=
  _ ← with_rawnode (go_int (Message_GetTo m -! 1)) (RawNode_Step m); mret tt.

Fixpoint env_DeliverMsgs (typ : option MessageType) (rs : list Recipient) : EnvM Z :=
  match rs with
  | [] => mret 0
  | r :: rs =>
      e ← env_get;
      let '(msgs, rest) := splitMsgs (env_Messages e) (Recipient_ID r) typ (Recipient_Drop r) in
      _ ← env_modify (set_env_Messages rest);
      _ ← env_each (fun m => if Recipient_Drop r then mret tt else env_deliver m) msgs;
      n ← env_DeliverMsgs typ rs;
      mret (len msgs + n)
  end.

Definition env_SendSnapshot (fromIdx toIdx : Z) : EnvM unit :=
  n ← node_at fromIdx;
  match last (in_History n) with
  | None => env_lift (Panic "index out of range")
  | Some snap =>
      let st := RawNode_BasicStatus (in_RawNode n) in
      env_modify (fun e => set_env_Messages (env_Messages e ++
        [set_Message_Snapshot (Some snap) (set_Message_From (Some (fromIdx + 1))
           (set_Message_Term (Some (HardState_GetTerm (Some (BasicStatus_HardState st)))) (Msg MsgSnap (Some (toIdx + 1)))))]) e)
  end.

(** ** Storing and applying *)

Definition processAppend (st : option HardState) (ents : list Entry) (snap : option Snapshot) (n : INode) :
    outcome (result unit * INode) :=
  let s := rn_storage (in_RawNode n) in
  let ms := so_Storage s in
  let ms := if negb (IsEmptyHardState st) then ms_SetHardState st ms else ms in
  let put ms := set_in_RawNode (set_rn_storage (set_so_Storage ms s) (in_RawNode n)) n in
  if negb (IsEmptySnap snap) then
    if 0 <? len ents then Ok (Err (ErrText "can't apply snapshot and entries at the same time"), put ms)
    else let '(x, ms) := ms_ApplySnapshot snap ms in Ok (x, put ms)
  else
    ms ← ms_Append ents ms;
    Ok (Val tt, put ms).

(** A Go slice that [append] has grown from nil. *)
Definition grown_bytes (b : bytes) : option bytes := match b with [] => None | _ => Some b end.

(** What an entry does: the bytes to append, and the new configuration when it
    changes it. *)
Definition apply_update (ent : Entry) (rn : RawNode snapOverrideStorage) :
    outcome (result (bytes * option ConfState) * RawNode snapOverrideStorage) :=
  match Entry_GetType ent with
  | EntryConfChange =>
      match Unmarshal_ConfChange (Entry_GetData ent) with
      | None => Ok (Err (ErrText "proto: cannot parse invalid wire-format data"), rn)
      | Some cc =>
          x ← RawNode_ApplyConfChange (CC1 cc) rn;
          Ok (Val (default [] (ConfChange_Context cc), Some x.1), x.2)
      end
  | EntryConfChangeV2 =>
      match Unmarshal_ConfChangeV2 (Entry_GetData ent) with
      | None => Ok (Err (ErrText "proto: cannot parse invalid wire-format data"), rn)
      | Some cc =>
          x ← RawNode_ApplyConfChange (CC2 cc) rn;
          Ok (Val (default [] (ConfChangeV2_Context cc), Some x.1), x.2)
      end
  | EntryNormal => Ok (Val (Entry_GetData ent, None), rn)
  end.

(** The state after an entry: the data of the state before it with the update. *)
Definition next_state (lastSnap : Snapshot) (ent : Entry) (update : bytes) (cs : option ConfState) : Snapshot :=
  let snap := EnsureSnapshot None in
  let md := EnsureSnapshotMetadata (Snapshot_GetMetadata (Some snap)) in
  let md := set_SnapshotMetadata_Term (Some (Entry_GetTerm ent)) (set_SnapshotMetadata_Index (Some (Entry_GetIndex ent)) md) in
  let cs := match cs with
            | Some cs => Some cs
            | None => SnapshotMetadata_GetConfState (Snapshot_GetMetadata (Some lastSnap))
            end in
  mkSnapshot (grown_bytes (default [] (Snapshot_Data lastSnap) ++ update))
    (Some (set_SnapshotMetadata_ConfState cs md)).

Definition apply_entry (ent : Entry) (rn : RawNode snapOverrideStorage) :
    outcome (result unit * RawNode snapOverrideStorage) :=
  x ← apply_update ent rn;
  let '(res, rn) := x in
  match res with
  | Err x => Ok (Err x, rn)
  | Val (update, cs) =>
      let s := rn_storage rn in
      match last (so_History s) with
      | None => Panic "index out of range"
      | Some lastSnap =>
          Ok (Val tt, set_rn_storage (set_so_History (so_History s ++ [next_state lastSnap ent update cs]) s) rn)
      end
  end.

Fixpoint apply_entries (ents : list Entry) (rn : RawNode snapOverrideStorage) :
    outcome (result unit * RawNode snapOverrideStorage) :=
  match ents with
  | [] => Ok (Val tt, rn)
  | ent :: ents =>
      x ← apply_entry ent rn;
      match x.1 with
      | Err e => Ok (Err e, x.2)
      | Val _ => apply_entries ents x.2
      end
  end.

Definition processApply (ents : list Entry) (n : INode) : outcome (result unit * INode) :=
  x ← apply_entries ents (in_RawNode n); Ok (x.1, set_in_RawNode x.2 n).

(** ** Ready handling *)

(** One message of a [Ready]: work for a local thread, or to be sent. *)
Definition route_msg (idx : Z) (m : Message) : EnvM unit :=
  if IsLocalMsgTarget (Message_GetTo m) then
    with_node idx (fun n =>
      if negb (RaftConfig_AsyncStorageWrites (in_Config n)) then Panic "unexpected local msg target"
      else match Message_GetType m with
           | MsgStorageAppend => Ok (Val tt, set_in_AppendWork (in_AppendWork n ++ [m]) n)
           | MsgStorageApply => Ok (Val tt, set_in_ApplyWork (in_ApplyWork n ++ [m]) n)
           | _ => Panic "unexpected message type"
           end)
  else env_modify (fun e => set_env_Messages (env_Messages e ++ [m]) e).

Definition env_ProcessReady (idx : Z) : EnvM unit :=
  n ← node_at idx;
  let async := RaftConfig_AsyncStorageWrites (in_Config n) in
  rd ← with_rawnode idx RawNode_Ready;
  _ ← (if async then mret tt
       else
         _ ← with_node idx (processAppend (Ready_HardState rd) (Ready_Entries rd) (Ready_Snapshot rd));
         with_node idx (processApply (Ready_CommittedEntries rd)));
  _ ← env_each (route_msg idx) (Ready_Messages rd);
  if async then mret tt
  else with_rawnode idx (fun rn => rn ← RawNode_Advance rn; Ok (tt, rn)).

Definition env_ProcessAppendThread (idx : Z) : EnvM unit :=
  n ← node_at idx;
  match in_AppendWork n with
  | [] => mret tt
  | m :: ws =>
      _ ← with_node idx (fun n => Ok (Val tt, set_in_AppendWork ws n));
      let st := Some (mkHardState (Some (Message_GetTerm m)) (Some (Message_GetVote m)) (Some (Message_GetCommit m))) in
      _ ← with_node idx (processAppend st (Message_GetEntries m) (Some (EnsureSnapshot (Message_GetSnapshot m))));
      env_modify (fun e => set_env_Messages (env_Messages e ++ Message_GetResponses m) e)
  end.

Definition env_ProcessApplyThread (idx : Z) : EnvM unit :=
  n ← node_at idx;
  match in_ApplyWork n with
  | [] => mret tt
  | m :: ws =>
      _ ← with_node idx (fun n => Ok (Val tt, set_in_ApplyWork ws n));
      _ ← with_node idx (processApply (Message_GetEntries m));
      env_modify (fun e => set_env_Messages (env_Messages e ++ Message_GetResponses m) e)
  end.

(** The commands that take several nodes stop at the first error. *)
Definition handleProcessReady (idxs : list Z) : EnvM unit := env_each env_ProcessReady idxs.

Definition handleProcessAppendThread (idxs : list Z) : EnvM unit := env_each env_ProcessAppendThread idxs.

Definition handleProcessApplyThread (idxs : list Z) : EnvM unit := env_each env_ProcessApplyThread idxs.

(** ** Stabilize *)

(** [int(rn.Status().ID - 1)] of the node at a position. *)
Definition status_idx (p : Z) : EnvM Z :=
  n ← node_at p; mret (go_int (BasicStatus_ID (Status_BasicStatus (RawNode_Status (in_RawNode n))) -! 1)).

Definition stabilize_ready (done : bool) (p : Z) : EnvM bool :=
  n ← node_at p;
  has ← env_lift (RawNode_HasReady (in_RawNode n));
  if (has : bool) then idx ← status_idx p; _ ← env_ProcessReady idx; mret false else mret done.

Definition stabilize_deliver (done : bool) (p : Z) : EnvM bool :=
  n ← node_at p;
  let id := BasicStatus_ID (Status_BasicStatus (RawNode_Status (in_RawNode n))) in
  e ← env_get;
  if 0 <? len (splitMsgs (env_Messages e) id None false).1
  then _ ← env_DeliverMsgs None [mkRecipient id false]; mret false else mret done.

(** The inner loops take one piece of work each turn. *)
Definition stabilize_append (done : bool) (p : Z) : EnvM bool :=
  idx ← status_idx p;
  n ← node_at p;
  match in_AppendWork n with
  | [] => mret done
  | ws => _ ← env_each (fun _ => env_ProcessAppendThread idx) ws; mret false
  end.

(** The error of [ProcessApplyThread] is dropped here. *)
Definition stabilize_apply (done : bool) (p : Z) : EnvM bool :=
  idx ← status_idx p;
  n ← node_at p;
  match in_ApplyWork n with
  | [] => mret done
  | ws => _ ← env_each (fun _ e => x ← env_ProcessApplyThread idx e; Ok (Val tt, x.2)) ws; mret false
  end.

Fixpoint env_fold {A B} (f : B → A → EnvM B) (b : B) (l : list A) : EnvM B :=
  match l with
  | [] => mret b
  | a :: l => b ← f b a; env_fold f b l
  end.

Definition stabilize_round (ps : list Z) : EnvM bool :=
  done ← env_fold stabilize_ready true ps;
  done ← env_fold stabilize_deliver done ps;
  done ← env_fold stabilize_append done ps;
  env_fold stabilize_apply done ps.

(** [Stabilize] runs until nothing is left to do; [false] when the fuel runs out
    before.  Without indexes all nodes take part. *)
Fixpoint stabilize_loop (fuel : nat) (ps : list Z) : EnvM bool :=
  match fuel with
  | O => mret false
  | S fuel => done ← stabilize_round ps; if (done : bool) then mret true else stabilize_loop fuel ps
  end.

Definition env_Stabilize (fuel : nat) (idxs : list Z) : EnvM bool :=
  e ← env_get;
  stabilize_loop fuel (match idxs with [] => imap (fun i _ => Z.of_nat i) (env_Nodes e) | _ => idxs end).

(** ** New nodes *)

(** [raftConfigStub] *)
Definition raftConfigStub : RaftConfig snapOverrideStorage :=
  mkRaftConfig 0 3 1 None 0 false MaxUint64 0 0 2147483647 0 false false ReadOnlySafe false false false.

Definition with_id_storage (id : Z) (s : snapOverrideStorage) (c : RaftConfig snapOverrideStorage) : RaftConfig snapOverrideStorage :=
  mkRaftConfig id (RaftConfig_ElectionTick c) (RaftConfig_HeartbeatTick c) (Some s) (RaftConfig_Applied c)
    (RaftConfig_AsyncStorageWrites c) (RaftConfig_MaxSizePerMsg c) (RaftConfig_MaxCommittedSizePerReady c)
    (RaftConfig_MaxUncommittedEntriesSize c) (RaftConfig_MaxInflightMsgs c) (RaftConfig_MaxInflightBytes c)
    (RaftConfig_CheckQuorum c) (RaftConfig_PreVote c) (RaftConfig_ReadOnlyOption c) (RaftConfig_DisableProposalForwarding c)
    (RaftConfig_DisableConfChangeValidation c) (RaftConfig_StepDownOnRemoval c).

Context (OnConfig : option (RaftConfig snapOverrideStorage → RaftConfig snapOverrideStorage)).

(** The numbers that the node of an id draws. *)
Context (rands : Z → list Z).

(** The storage of a new node, and the snapshot with the term that it is given. *)
Definition bootstrap_storage (snap : Snapshot) : result (MemoryStorage * Snapshot) :=
  if snap_index (Some snap) <=? 1 then Err (ErrText "index must be specified as > 1 due to bootstrap")
  else
    let md := EnsureSnapshotMetadata (Snapshot_GetMetadata (Some snap)) in
    let snap := set_Snapshot_Metadata (Some (set_SnapshotMetadata_Term (Some 1) md)) snap in
    match ms_ApplySnapshot (Some snap) NewMemoryStorage with
    | (Err x, _) => Err x
    | (Val _, ms) =>
        if negb (ms_firstIndex ms =? snap_index (Some snap) +! 1) then Err (ErrText "failed to establish first index")
        else Val (ms, snap)
    end.

(** One turn of the loop of [AddNodes]; the snapshot is passed on, since the
    source updates it in place. *)
Definition add_node (cfg : RaftConfig snapOverrideStorage) (bootstrap : bool) (snap : Snapshot) : EnvM Snapshot :=
  e ← env_get;
  let id := 1 + len (env_Nodes e) in
  match (if bootstrap then bootstrap_storage snap else Val (NewMemoryStorage, snap)) with
  | Err x => env_fail x
  | Val (ms, snap) =>
      let s := mksnapOverrideStorage ms [snap] in
      let cfg := with_id_storage id s cfg in
      let cfg := match OnConfig with Some f => f cfg | None => cfg end in
      if negb (RaftConfig_ID cfg =? id) then env_fail (ErrText "OnConfig must not change the ID")
      else
        rn ← env_lift (NewRawNode cfg (rands id));
        let cfg := match Config_validate cfg with Val (_, c) => c | Err _ => cfg end in
        _ ← env_modify (fun e => set_env_Nodes (env_Nodes e ++ [mkINode rn cfg [] []]) e);
        mret snap
  end.

Fixpoint add_nodes (n : nat) (cfg : RaftConfig snapOverrideStorage) (bootstrap : bool) (snap : Snapshot) : EnvM unit :=
  match n with
  | O => mret tt
  | S n => snap ← add_node cfg bootstrap snap; add_nodes n cfg bootstrap snap
  end.

Definition env_AddNodes (n : Z) (cfg : RaftConfig snapOverrideStorage) (snap : option Snapshot) : EnvM unit :=
  let snap := EnsureSnapshot snap in
  let bootstrap := negb (bool_decide (snap = EnsureSnapshot None)) in
  add_nodes (Z.to_nat n) cfg bootstrap snap.

End operations.
