(* ===== verification/Commands.v ===== *)
(** * The commands of the interaction environment
    (src/rafttest/interaction_env_handler.go and its handlers)

    [Handle] takes a command of a data-driven test, with its arguments as text,
    and runs the operation of Interaction.v that it names.  The package
    datadriven has split the text into a command, arguments with their values,
    and further input; its [Scan] functions are parameters.  What is printed is
    left out; an error is what [Handle] would print. *)
From Stdlib Require Import Strings.String Strings.Byte.
From S2P Require Import Prelude Proto Text Quorum Inflights Progress Tracker Util Storage.
From S2P Require Import Unstable Log ConfChange ReadOnly Raft RaftStep RawNode Interaction.

Abbreviation str s := (list_byte_of_string s).

(** ** Test data *)

Record CmdArg : Type := mkCmdArg { CmdArg_Key : bytes; CmdArg_Vals : list bytes }.

Record TestData : Type := mkTestData {
  TestData_Cmd : bytes;
  TestData_CmdArgs : list CmdArg;
  TestData_Input : bytes;
}.

(** [CmdArg.Scan] of one value, by the type that is asked for, and
    [TestData.ScanArgs] of an argument by its key; [None] fails the test. *)
Class Datadriven : Type := {
  Scan_uint64 : bytes → option Z;
  Scan_int : bytes → option Z;
  Scan_bool : bytes → option bool;
  Scan_bytes : bytes → option bytes;
  ScanArgs_uint64 : TestData → bytes → option Z;
  ScanArgs_int : TestData → bytes → option Z;
}.

(** ** Parsing

    A parser may fail the test or return an error. *)

Definition Parse (A : Type) : Type := outcome (result A).

#[export] Instance Parse_ret : MRet Parse := fun A a => Ok (Val a).
#[export] Instance Parse_bind : MBind Parse := fun A B f m =>
  match m with
  | Ok (Val a) => f a
  | Ok (Err x) => Ok (Err x)
  | Panic w => Panic w
  end.

(** [t.Fatal] *)
Definition fatal {A} : Parse A := Panic "Fatal".

Definition perr {A} (x : error) : Parse A := Ok (Err x).

Definition or_fatal {A} (o : option A) : Parse A := match o with Some a => mret a | None => fatal end.

Definition parse_index {A} (l : list A) (i : Z) : Parse A := match go_index l i with Ok a => mret a | Panic w => Panic w end.

Fixpoint parse_fold {A B} (f : B → A → Parse B) (b : B) (l : list A) : Parse B :=
  match l with
  | [] => mret b
  | a :: l => b ← f b a; parse_fold f b l
  end.

(** [strconv.Atoi] *)
Definition Atoi (s : bytes) : result Z :=
  match s with
  | [] => Err ErrSyntax
  | c :: rest =>
      let neg := Byte.eqb c "-" in
      match ParseUint (if neg || Byte.eqb c "+" then rest else s) with
      | Err x => Err x
      | Val un =>
          if negb neg && (9223372036854775808 <=? un) then Err ErrRange
          else if neg && (9223372036854775808 <? un) then Err ErrRange
          else Val (if neg then - un else un)
      end
  end.

(** [strconv.ParseBool] *)
Definition ParseBool (s : bytes) : result bool :=
  if bool_decide (s ∈ [str "1"; str "t"; str "T"; str "TRUE"; str "true"; str "True"]) then Val true
  else if bool_decide (s ∈ [str "0"; str "f"; str "F"; str "FALSE"; str "false"; str "False"]) then Val false
  else Err ErrSyntax.

Definition firstAsInt (d : TestData) : Parse Z :=
  a ← parse_index (TestData_CmdArgs d) 0;
  match Atoi (CmdArg_Key a) with Val n => mret n | Err _ => fatal end.

Definition firstAsNodeIdx (d : TestData) : Parse Z := n ← firstAsInt d; mret (n - 1).

Definition nodeIdxs (d : TestData) : Parse (list Z) :=
  parse_fold (fun ints a =>
    match CmdArg_Vals a with
    | [] => match Atoi (CmdArg_Key a) with Val n => mret (ints ++ [n - 1]) | Err _ => fatal end
    | _ => mret ints
    end) [] (TestData_CmdArgs d).

(** ** Arguments of the commands *)

Definition set_conf_Applied (v : Z) (c : RaftConfig snapOverrideStorage) : RaftConfig snapOverrideStorage :=
  mkRaftConfig (RaftConfig_ID c) (RaftConfig_ElectionTick c) (RaftConfig_HeartbeatTick c) (RaftConfig_Storage c) v
    (RaftConfig_AsyncStorageWrites c) (RaftConfig_MaxSizePerMsg c) (RaftConfig_MaxCommittedSizePerReady c)
    (RaftConfig_MaxUncommittedEntriesSize c) (RaftConfig_MaxInflightMsgs c) (RaftConfig_MaxInflightBytes c)
    (RaftConfig_CheckQuorum c) (RaftConfig_PreVote c) (RaftConfig_ReadOnlyOption c)
    (RaftConfig_DisableProposalForwarding c) (RaftConfig_DisableConfChangeValidation c)
    (RaftConfig_StepDownOnRemoval c).

Definition set_conf_AsyncStorageWrites (v : bool) (c : RaftConfig snapOverrideStorage) : RaftConfig snapOverrideStorage :=
  mkRaftConfig (RaftConfig_ID c) (RaftConfig_ElectionTick c) (RaftConfig_HeartbeatTick c) (RaftConfig_Storage c)
    (RaftConfig_Applied c) v (RaftConfig_MaxSizePerMsg c) (RaftConfig_MaxCommittedSizePerReady c)
    (RaftConfig_MaxUncommittedEntriesSize c) (RaftConfig_MaxInflightMsgs c) (RaftConfig_MaxInflightBytes c)
    (RaftConfig_CheckQuorum c) (RaftConfig_PreVote c) (RaftConfig_ReadOnlyOption c)
    (RaftConfig_DisableProposalForwarding c) (RaftConfig_DisableConfChangeValidation c)
    (RaftConfig_StepDownOnRemoval c).

Definition set_conf_MaxCommittedSizePerReady (v : Z) (c : RaftConfig snapOverrideStorage) : RaftConfig snapOverrideStorage :=
  mkRaftConfig (RaftConfig_ID c) (RaftConfig_ElectionTick c) (RaftConfig_HeartbeatTick c) (RaftConfig_Storage c)
    (RaftConfig_Applied c) (RaftConfig_AsyncStorageWrites c) (RaftConfig_MaxSizePerMsg c) v
    (RaftConfig_MaxUncommittedEntriesSize c) (RaftConfig_MaxInflightMsgs c) (RaftConfig_MaxInflightBytes c)
    (RaftConfig_CheckQuorum c) (RaftConfig_PreVote c) (RaftConfig_ReadOnlyOption c)
    (RaftConfig_DisableProposalForwarding c) (RaftConfig_DisableConfChangeValidation c)
    (RaftConfig_StepDownOnRemoval c).

Definition set_conf_MaxInflightMsgs (v : Z) (c : RaftConfig snapOverrideStorage) : RaftConfig snapOverrideStorage :=
  mkRaftConfig (RaftConfig_ID c) (RaftConfig_ElectionTick c) (RaftConfig_HeartbeatTick c) (RaftConfig_Storage c)
    (RaftConfig_Applied c) (RaftConfig_AsyncStorageWrites c) (RaftConfig_MaxSizePerMsg c)
    (RaftConfig_MaxCommittedSizePerReady c) (RaftConfig_MaxUncommittedEntriesSize c) v (RaftConfig_MaxInflightBytes c)
    (RaftConfig_CheckQuorum c) (RaftConfig_PreVote c) (RaftConfig_ReadOnlyOption c)
    (RaftConfig_DisableProposalForwarding c) (RaftConfig_DisableConfChangeValidation c)
    (RaftConfig_StepDownOnRemoval c).

Definition set_conf_CheckQuorum (v : bool) (c : RaftConfig snapOverrideStorage) : RaftConfig snapOverrideStorage :=
  mkRaftConfig (RaftConfig_ID c) (RaftConfig_ElectionTick c) (RaftConfig_HeartbeatTick c) (RaftConfig_Storage c)
    (RaftConfig_Applied c) (RaftConfig_AsyncStorageWrites c) (RaftConfig_MaxSizePerMsg c)
    (RaftConfig_MaxCommittedSizePerReady c) (RaftConfig_MaxUncommittedEntriesSize c) (RaftConfig_MaxInflightMsgs c)
    (RaftConfig_MaxInflightBytes c) v (RaftConfig_PreVote c) (RaftConfig_ReadOnlyOption c)
    (RaftConfig_DisableProposalForwarding c) (RaftConfig_DisableConfChangeValidation c)
    (RaftConfig_StepDownOnRemoval c).

Definition set_conf_PreVote (v : bool) (c : RaftConfig snapOverrideStorage) : RaftConfig snapOverrideStorage :=
  mkRaftConfig (RaftConfig_ID c) (RaftConfig_ElectionTick c) (RaftConfig_HeartbeatTick c) (RaftConfig_Storage c)
    (RaftConfig_Applied c) (RaftConfig_AsyncStorageWrites c) (RaftConfig_MaxSizePerMsg c)
    (RaftConfig_MaxCommittedSizePerReady c) (RaftConfig_MaxUncommittedEntriesSize c) (RaftConfig_MaxInflightMsgs c)
    (RaftConfig_MaxInflightBytes c) (RaftConfig_CheckQuorum c) v (RaftConfig_ReadOnlyOption c)
    (RaftConfig_DisableProposalForwarding c) (RaftConfig_DisableConfChangeValidation c)
    (RaftConfig_StepDownOnRemoval c).

Definition set_conf_ReadOnlyOption (v : ReadOnlyOption) (c : RaftConfig snapOverrideStorage) : RaftConfig snapOverrideStorage :=
  mkRaftConfig (RaftConfig_ID c) (RaftConfig_ElectionTick c) (RaftConfig_HeartbeatTick c) (RaftConfig_Storage c)
    (RaftConfig_Applied c) (RaftConfig_AsyncStorageWrites c) (RaftConfig_MaxSizePerMsg c)
    (RaftConfig_MaxCommittedSizePerReady c) (RaftConfig_MaxUncommittedEntriesSize c) (RaftConfig_MaxInflightMsgs c)
    (RaftConfig_MaxInflightBytes c) (RaftConfig_CheckQuorum c) (RaftConfig_PreVote c) v
    (RaftConfig_DisableProposalForwarding c) (RaftConfig_DisableConfChangeValidation c)
    (RaftConfig_StepDownOnRemoval c).

Definition set_conf_DisableConfChangeValidation (v : bool) (c : RaftConfig snapOverrideStorage) : RaftConfig snapOverrideStorage :=
  mkRaftConfig (RaftConfig_ID c) (RaftConfig_ElectionTick c) (RaftConfig_HeartbeatTick c) (RaftConfig_Storage c)
    (RaftConfig_Applied c) (RaftConfig_AsyncStorageWrites c) (RaftConfig_MaxSizePerMsg c)
    (RaftConfig_MaxCommittedSizePerReady c) (RaftConfig_MaxUncommittedEntriesSize c) (RaftConfig_MaxInflightMsgs c)
    (RaftConfig_MaxInflightBytes c) (RaftConfig_CheckQuorum c) (RaftConfig_PreVote c) (RaftConfig_ReadOnlyOption c)
    (RaftConfig_DisableProposalForwarding c) v (RaftConfig_StepDownOnRemoval c).

Definition set_conf_StepDownOnRemoval (v : bool) (c : RaftConfig snapOverrideStorage) : RaftConfig snapOverrideStorage :=
  mkRaftConfig (RaftConfig_ID c) (RaftConfig_ElectionTick c) (RaftConfig_HeartbeatTick c) (RaftConfig_Storage c)
    (RaftConfig_Applied c) (RaftConfig_AsyncStorageWrites c) (RaftConfig_MaxSizePerMsg c)
    (RaftConfig_MaxCommittedSizePerReady c) (RaftConfig_MaxUncommittedEntriesSize c) (RaftConfig_MaxInflightMsgs c)
    (RaftConfig_MaxInflightBytes c) (RaftConfig_CheckQuorum c) (RaftConfig_PreVote c) (RaftConfig_ReadOnlyOption c)
    (RaftConfig_DisableProposalForwarding c) (RaftConfig_DisableConfChangeValidation c) v.

Definition on_conf_state (f : ConfState → ConfState) (s : Snapshot) : Snapshot :=
  let md := default (mkSnapshotMetadata None None None) (Snapshot_Metadata s) in
  set_Snapshot_Metadata (Some (set_SnapshotMetadata_ConfState (Some (f (default ConfState0 (SnapshotMetadata_ConfState md)))) md)) s.

Definition add_voter (id : Z) (cs : ConfState) : ConfState :=
  mkConfState (ConfState_Voters cs ++ [id]) (ConfState_Learners cs) (ConfState_VotersOutgoing cs) (ConfState_LearnersNext cs) (ConfState_AutoLeave cs).

Definition add_learner (id : Z) (cs : ConfState) : ConfState :=
  mkConfState (ConfState_Voters cs) (ConfState_Learners cs ++ [id]) (ConfState_VotersOutgoing cs) (ConfState_LearnersNext cs) (ConfState_AutoLeave cs).

Definition set_snap_index (i : Z) (s : Snapshot) : Snapshot :=
  let md := default (mkSnapshotMetadata None None None) (Snapshot_Metadata s) in
  set_Snapshot_Metadata (Some (set_SnapshotMetadata_Index (Some i) md)) s.

Abbreviation is_key k s := (bool_decide (k = str s)).

Section parse.
Context `{Datadriven}.

(** One value of an argument of add-nodes. *)
Definition add_nodes_arg (k : bytes) (x : Snapshot * RaftConfig snapOverrideStorage) (v : bytes) :
    Parse (Snapshot * RaftConfig snapOverrideStorage) :=
  let '(snap, cfg) := x in
  if is_key k "voters" then id ← or_fatal (Scan_uint64 v); mret (on_conf_state (add_voter id) snap, cfg)
  else if is_key k "learners" then id ← or_fatal (Scan_uint64 v); mret (on_conf_state (add_learner id) snap, cfg)
  else if is_key k "inflight" then n ← or_fatal (Scan_int v); mret (snap, set_conf_MaxInflightMsgs n cfg)
  else if is_key k "index" then
    idx ← or_fatal (Scan_uint64 v); mret (set_snap_index idx snap, set_conf_Applied idx cfg)
  else if is_key k "content" then b ← or_fatal (Scan_bytes v); mret (set_Snapshot_Data (Some b) snap, cfg)
  else if is_key k "async-storage-writes" then b ← or_fatal (Scan_bool v); mret (snap, set_conf_AsyncStorageWrites b cfg)
  else if is_key k "prevote" then b ← or_fatal (Scan_bool v); mret (snap, set_conf_PreVote b cfg)
  else if is_key k "checkquorum" then b ← or_fatal (Scan_bool v); mret (snap, set_conf_CheckQuorum b cfg)
  else if is_key k "max-committed-size-per-ready" then
    n ← or_fatal (Scan_uint64 v); mret (snap, set_conf_MaxCommittedSizePerReady n cfg)
  else if is_key k "disable-conf-change-validation" then
    b ← or_fatal (Scan_bool v); mret (snap, set_conf_DisableConfChangeValidation b cfg)
  else if is_key k "read-only" then
    if is_key v "safe" then mret (snap, set_conf_ReadOnlyOption ReadOnlySafe cfg)
    else if is_key v "lease-based" then mret (snap, set_conf_ReadOnlyOption ReadOnlyLeaseBased cfg)
    else perr (ErrText "invalid read-only option")
  else if is_key k "step-down-on-removal" then b ← or_fatal (Scan_bool v); mret (snap, set_conf_StepDownOnRemoval b cfg)
  else mret (snap, cfg).

Definition add_nodes_args (d : TestData) : Parse (Z * Snapshot * RaftConfig snapOverrideStorage) :=
  n ← firstAsInt d;
  x ← parse_fold (fun x a => parse_fold (add_nodes_arg (CmdArg_Key a)) x (CmdArg_Vals a))
        (EnsureSnapshot None, raftConfigStub) (tail (TestData_CmdArgs d));
  mret (n, x.1, x.2).

(** [raftpb.MessageType_value] *)
Definition MessageType_value (s : bytes) : option MessageType :=
  snd <$> find (fun x => bool_decide (str x.1 = s))
    [("MsgHup"%string, MsgHup); ("MsgBeat"%string, MsgBeat); ("MsgProp"%string, MsgProp); ("MsgApp"%string, MsgApp);
     ("MsgAppResp"%string, MsgAppResp); ("MsgVote"%string, MsgVote); ("MsgVoteResp"%string, MsgVoteResp); ("MsgSnap"%string, MsgSnap);
     ("MsgHeartbeat"%string, MsgHeartbeat); ("MsgHeartbeatResp"%string, MsgHeartbeatResp); ("MsgUnreachable"%string, MsgUnreachable);
     ("MsgSnapStatus"%string, MsgSnapStatus); ("MsgCheckQuorum"%string, MsgCheckQuorum); ("MsgTransferLeader"%string, MsgTransferLeader);
     ("MsgTimeoutNow"%string, MsgTimeoutNow); ("MsgReadIndex"%string, MsgReadIndex); ("MsgReadIndexResp"%string, MsgReadIndexResp);
     ("MsgPreVote"%string, MsgPreVote); ("MsgPreVoteResp"%string, MsgPreVoteResp); ("MsgStorageAppend"%string, MsgStorageAppend);
     ("MsgStorageAppendResp"%string, MsgStorageAppendResp); ("MsgStorageApply"%string, MsgStorageApply);
     ("MsgStorageApplyResp"%string, MsgStorageApplyResp); ("MsgForgetLeader"%string, MsgForgetLeader)].

(** One value of an argument of deliver-msgs. *)
Definition deliver_arg (k : bytes) (x : option MessageType * list Recipient) (v : bytes) : Parse (option MessageType * list Recipient) :=
  let '(typ, rs) := x in
  if is_key k "drop" then
    id ← or_fatal (Scan_uint64 v);
    if existsb (fun r => Recipient_ID r =? id) rs then fatal else mret (typ, rs ++ [mkRecipient id true])
  else if is_key k "type" then
    s ← or_fatal (Scan_bytes v);
    t ← or_fatal (MessageType_value s); mret (Some t, rs)
  else mret (typ, rs).

Definition deliver_args (d : TestData) : Parse (option MessageType * list Recipient) :=
  parse_fold (fun x a =>
    x ← (match CmdArg_Vals a with
         | [] => match ParseUint (CmdArg_Key a) with Val id => mret (x.1, x.2 ++ [mkRecipient id false]) | Err _ => fatal end
         | _ => mret x
         end);
    parse_fold (deliver_arg (CmdArg_Key a)) x (CmdArg_Vals a)) (None, []) (TestData_CmdArgs d).

(** One value of an argument of propose-conf-change: v1 and the transition. *)
Definition conf_change_arg (k : bytes) (x : bool * ConfChangeTransition) (v : bytes) : Parse (bool * ConfChangeTransition) :=
  let '(v1, transition) := x in
  if is_key k "v1" then match ParseBool v with Val b => mret (b, transition) | Err x => perr x end
  else if is_key k "transition" then
    if is_key v "auto" then mret (v1, ConfChangeTransitionAuto)
    else if is_key v "implicit" then mret (v1, ConfChangeTransitionJointImplicit)
    else if is_key v "explicit" then mret (v1, ConfChangeTransitionJointExplicit)
    else perr (ErrText "unknown transition")
  else perr (ErrText "unknown command").

Definition conf_change_args (d : TestData) : Parse (Z * ConfChangeI) :=
  idx ← firstAsNodeIdx d;
  x ← parse_fold (fun x a => parse_fold (conf_change_arg (CmdArg_Key a)) x (CmdArg_Vals a))
        (false, ConfChangeTransitionAuto) (tail (TestData_CmdArgs d));
  ccs ← (match ConfChangesFromString (TestData_Input d) with Val ccs => mret ccs | Err e => perr e end);
  if (x.1 : bool) then
    if (1 <? len ccs) || negb (bool_decide (x.2 = ConfChangeTransitionAuto))
    then perr (ErrText "v1 conf change can only have one operation and no transition")
    else
      cc ← parse_index ccs 0;
      mret (idx, CC1 (mkConfChange (Some (ConfChangeSingle_GetType cc)) (Some (ConfChangeSingle_GetNodeId cc)) None None))
  else mret (idx, CC2 (mkConfChangeV2 (Some x.2) ccs None)).

Definition propose_args (d : TestData) : Parse (Z * bytes) :=
  idx ← firstAsNodeIdx d;
  match TestData_CmdArgs d with
  | [_; a] => match CmdArg_Vals a with [] => mret (idx, CmdArg_Key a) | _ => fatal end
  | _ => fatal
  end.

(** [LogLevel]; the level itself is part of the output. *)
Definition lower (c : Byte.byte) : Z := let z := Z_of_byte c in if (65 <=? z) && (z <=? 90) then z + 32 else z.

Definition LogLevel (name : bytes) : Parse unit :=
  if existsb (fun s => bool_decide (map lower (str s) = map lower name))
       ["DEBUG"; "INFO"; "WARN"; "ERROR"; "FATAL"; "NONE"]%string
  then mret tt else perr (ErrText "log levels must be either of").

Definition stabilize_args (d : TestData) : Parse (list Z) :=
  idxs ← nodeIdxs d;
  _ ← parse_fold (fun _ a => parse_fold (fun _ v =>
        if is_key (CmdArg_Key a) "log-level" then level ← or_fatal (Scan_bytes v); LogLevel level else mret tt)
        tt (CmdArg_Vals a)) tt (TestData_CmdArgs d);
  mret idxs.

Definition raftlevel_args (d : TestData) : Parse unit := a ← parse_index (TestData_CmdArgs d) 0; LogLevel (CmdArg_Key a).

Definition compact_args (d : TestData) : Parse (Z * Z) :=
  idx ← firstAsNodeIdx d;
  a ← parse_index (TestData_CmdArgs d) 1;
  match ParseUint (CmdArg_Key a) with Val n => mret (idx, n) | Err x => perr x end.

Definition send_snapshot_args (d : TestData) : Parse (Z * Z) :=
  idxs ← nodeIdxs d;
  match idxs with [from; to] => mret (from, to) | _ => fatal end.

(** The ids of nodes that exist. *)
Definition transfer_args (nodes : Z) (d : TestData) : Parse (Z * Z) :=
  from ← or_fatal (ScanArgs_uint64 d (str "from"));
  to ← or_fatal (ScanArgs_uint64 d (str "to"));
  if (from =? 0) || (nodes <? from) then fatal
  else if (to =? 0) || (nodes <? to) then fatal
  else mret (from, to).

End parse.

(** ** Handlers *)

(** A parser before an operation. *)
Definition env_parse {A} (p : Parse A) : EnvM A := fun e =>
  match p with Ok x => Ok (x, e) | Panic w => Panic w end.

Section handle.
Context `{Protobuf} `{Datadriven}.
Context (OnConfig : option (RaftConfig snapOverrideStorage → RaftConfig snapOverrideStorage)).
Context (SetRandomizedElectionTimeout : option (RawNode snapOverrideStorage → Z → outcome (RawNode snapOverrideStorage))).
Context (rands : Z → list Z).
Context (fuel : nat).   (* rounds of [Stabilize] *)

Definition handleAddNodes (d : TestData) : EnvM unit :=
  x ← env_parse (add_nodes_args d);
  let '(n, snap, cfg) := x in env_AddNodes OnConfig rands n cfg (Some snap).

Definition handleCampaign (d : TestData) : EnvM unit := idx ← env_parse (firstAsNodeIdx d); env_Campaign idx.

Definition handleCompact (d : TestData) : EnvM unit := x ← env_parse (compact_args d); env_Compact x.1 x.2.

Definition handleDeliverMsgs (d : TestData) : EnvM unit :=
  x ← env_parse (deliver_args d); _ ← env_DeliverMsgs x.1 x.2; mret tt.

Definition handleForgetLeader (d : TestData) : EnvM unit := idx ← env_parse (firstAsNodeIdx d); env_ForgetLeader idx.

Definition handlePropose (d : TestData) : EnvM unit :=
  x ← env_parse (propose_args d); env_Propose x.1 (Some x.2).

Definition handleProposeConfChange (d : TestData) : EnvM unit :=
  x ← env_parse (conf_change_args d); env_ProposeConfChange x.1 x.2.

Definition handleRaftLog (d : TestData) : EnvM unit :=
  idx ← env_parse (firstAsNodeIdx d); _ ← env_RaftLog idx; mret tt.

Definition handleSendSnapshot (d : TestData) : EnvM unit :=
  x ← env_parse (send_snapshot_args d); env_SendSnapshot x.1 x.2.

Definition handleSetRandomizedElectionTimeout (d : TestData) : EnvM unit :=
  idx ← env_parse (firstAsNodeIdx d);
  timeout ← env_parse (or_fatal (ScanArgs_int d (str "timeout")));
  if timeout =? 0 then env_parse fatal
  else with_rawnode idx (fun rn =>
    match SetRandomizedElectionTimeout with
    | None => Panic "nil function"
    | Some f => rn ← f rn timeout; Ok (tt, rn)
    end).

Definition handleStabilize (d : TestData) : EnvM unit :=
  idxs ← env_parse (stabilize_args d); _ ← env_Stabilize fuel idxs; mret tt.

(** [Status] prints the progress of all followers: what it reads. *)
Definition handleStatus (d : TestData) : EnvM unit := idx ← env_parse (firstAsNodeIdx d); _ ← node_at idx; mret tt.

Definition handleTransferLeadership (d : TestData) : EnvM unit :=
  e ← env_get; x ← env_parse (transfer_args (len (env_Nodes e)) d); env_transferLeadership x.1 x.2.

Definition handleUnreachable (d : TestData) : EnvM unit := sl ← env_parse (nodeIdxs d); handleReportUnreachable sl.

(** The last line of a node in [handleRaftState]: id, role, whether it is a voter
    in its own view, term and leader. *)
Definition isVoter (id : Z) (st : Status) : bool :=
  bool_decide (id ∈ JointConfig_IDs (Config_joint (Status_Config st))).

Definition raft_state_line (n : INode) : Z * StateType * bool * Z * Z :=
  let st := RawNode_Status (in_RawNode n) in
  let b := Status_BasicStatus st in
  (BasicStatus_ID b, SoftState_RaftState (BasicStatus_SoftState b), isVoter (BasicStatus_ID b) st,
   HardState_GetTerm (Some (BasicStatus_HardState b)), SoftState_Lead (BasicStatus_SoftState b)).

Definition handleRaftState : EnvM (list (Z * StateType * bool * Z * Z)) :=
  e ← env_get; mret (map raft_state_line (env_Nodes e)).

Definition Handle (d : TestData) : EnvM unit :=
  let cmd s := is_key (TestData_Cmd d) s in
  if cmd "_breakpoint" then mret tt
  else if cmd "add-nodes" then handleAddNodes d
  else if cmd "campaign" then handleCampaign d
  else if cmd "compact" then handleCompact d
  else if cmd "deliver-msgs" then handleDeliverMsgs d
  else if cmd "process-ready" then idxs ← env_parse (nodeIdxs d); handleProcessReady idxs
  else if cmd "process-append-thread" then idxs ← env_parse (nodeIdxs d); handleProcessAppendThread idxs
  else if cmd "process-apply-thread" then idxs ← env_parse (nodeIdxs d); handleProcessApplyThread idxs
  else if cmd "log-level" then env_parse (raftlevel_args d)
  else if cmd "raft-log" then handleRaftLog d
  else if cmd "raft-state" then _ ← handleRaftState; mret tt
  else if cmd "set-randomized-election-timeout" then handleSetRandomizedElectionTimeout d
  else if cmd "stabilize" then handleStabilize d
  else if cmd "status" then handleStatus d
  else if cmd "tick-election" then idx ← env_parse (firstAsNodeIdx d); handleTickElection idx
  else if cmd "tick-heartbeat" then idx ← env_parse (firstAsNodeIdx d); handleTickHeartbeat idx
  else if cmd "transfer-leadership" then handleTransferLeadership d
  else if cmd "forget-leader" then handleForgetLeader d
  else if cmd "send-snapshot" then fun e => x ← handleSendSnapshot d e; Ok (Val tt, x.2)
  else if cmd "propose" then handlePropose d
  else if cmd "propose-conf-change" then handleProposeConfChange d
  else if cmd "report-unreachable" then handleUnreachable d
  else env_fail (ErrText "unknown command").

End handle.
