(* ===== verification/Node.v ===== *)
(** * The goroutine of a node (src/node.go)

    [run] serves the channels of a node one rendezvous at a time.  The state of
    its loop, with the channels that it has armed, is a record; the code before
    the [select] is [run_top], its cases are [run_case], and one turn of the loop
    is a case followed by [run_top].  Which case is taken is up to the scheduler:
    a run is a sequence of events.  The methods of the interface [Node] are the
    other ends of the channels. *)
From S2P Require Import Prelude Proto Quorum Inflights Progress Tracker Util Storage.
From S2P Require Import Unstable Log ConfChange ReadOnly Raft RaftStep RaftRel.
From S2P Require Import RaftSafety RawNode.

(** ** State *)

(** A channel variable of [run] is nil or the channel of the node. *)
Record node (S : Type) : Type := mknode {
  nd_rn : RawNode S;
  nd_ticks : Z;         (* buffered in [tickc] *)
  nd_done : bool;       (* [done] is closed, [run] has returned *)
  nd_propc : bool;
  nd_readyc : bool;
  nd_advancec : bool;
  nd_rd : Ready;
  nd_lead : Z;
}.
Arguments mknode {S}.
Arguments nd_rn {S} _.
Arguments nd_ticks {S} _.
Arguments nd_done {S} _.
Arguments nd_propc {S} _.
Arguments nd_readyc {S} _.
Arguments nd_advancec {S} _.
Arguments nd_rd {S} _.
Arguments nd_lead {S} _.

Definition Ready0 : Ready := mkReady None None [] [] None [] [] false.

Definition tickc_size : Z := 128.

(** What is received on a channel, or sent by the loop. *)
Inductive event : Type :=
  | EvProp (m : Message) (wait : bool)
  | EvRecv (m : Message)
  | EvConf (cc : ConfChangeV2)
  | EvTick
  | EvReady
  | EvAdvance
  | EvStatus
  | EvStop.

(** What the other end gets. *)
Inductive reply : Type :=
  | NoReply
  | ReplyErr (e : option error)
  | ReplyConfState (cs : ConfState)
  | ReplyReady (rd : Ready)
  | ReplyStatus (st : Status).

Section node.
Context {S : Type} `{Protobuf} `{!Storage S}.

Definition set_nd_rn (rn : RawNode S) (n : node S) : node S :=
  mknode rn (nd_ticks n) (nd_done n) (nd_propc n) (nd_readyc n) (nd_advancec n) (nd_rd n) (nd_lead n).

Definition set_nd_ticks (k : Z) (n : node S) : node S :=
  mknode (nd_rn n) k (nd_done n) (nd_propc n) (nd_readyc n) (nd_advancec n) (nd_rd n) (nd_lead n).

Definition set_nd_propc (b : bool) (n : node S) : node S :=
  mknode (nd_rn n) (nd_ticks n) (nd_done n) b (nd_readyc n) (nd_advancec n) (nd_rd n) (nd_lead n).

Definition newNode (rn : RawNode S) : node S := mknode rn 0 false false false false Ready0 None_id.

(** A method of the wrapped raft node. *)
Definition node_raft {A} (m : RM S A) (n : node S) : outcome (A * node S) :=
  x ← on_raft m (nd_rn n); Ok (x.1, set_nd_rn x.2 n).

(** ** The loop *)

(** Before the [select]: a new Ready unless one is outstanding, and proposals
    only while there is a leader. *)
Definition run_top (n : node S) : outcome (node S) :=
  let r := rn_raft (nd_rn n) in
  n ← (if nd_advancec n then Ok n
       else
         has ← RawNode_HasReady (nd_rn n);
         if (has : bool) then
           rd ← RawNode_readyWithoutAccept (nd_rn n);
           Ok (mknode (nd_rn n) (nd_ticks n) (nd_done n) (nd_propc n) true (nd_advancec n) rd (nd_lead n))
         else Ok n);
  Ok (if negb (nd_lead n =? raft_lead r)
      then mknode (nd_rn n) (nd_ticks n) (nd_done n) (raft_hasLeader r) (nd_readyc n) (nd_advancec n) (nd_rd n)
             (raft_lead r)
      else n).

Definition has_progress_of (r : raft S) (id : Z) : bool :=
  match ProgressTracker_Progress (raft_trk r) !! id with Some _ => true | None => false end.

(** A node that was just removed takes no proposals. *)
Definition run_conf (cc : ConfChangeV2) (n : node S) : outcome (ConfState * node S) :=
  let r := rn_raft (nd_rn n) in
  let okBefore := has_progress_of r (raft_id r) in
  x ← node_raft (raft_applyConfChange cc) n;
  let '(cs, n) := x in
  let r := rn_raft (nd_rn n) in
  let okAfter := has_progress_of r (raft_id r) in
  let found := existsb (Z.eqb (raft_id r)) (ConfState_Voters cs)
               || existsb (Z.eqb (raft_id r)) (ConfState_VotersOutgoing cs) in
  Ok (cs, if okBefore && negb okAfter && negb found then set_nd_propc false n else n).

(** The cases of the [select]; [None] when the case cannot be taken. *)
Definition run_case (ev : event) (n : node S) : outcome (option (reply * node S)) :=
  let r := rn_raft (nd_rn n) in
  match ev with
  | EvProp m wait =>
      if negb (nd_propc n) then Ok None
      else
        x ← node_raft (raft_Step (set_Message_From (Some (raft_id r)) m)) n;
        Ok (Some (if wait then ReplyErr x.1 else NoReply, x.2))
  | EvRecv m =>
      if IsResponseMsg (Message_GetType m) && negb (IsLocalMsgTarget (Message_GetFrom m))
         && negb (has_progress_of r (Message_GetFrom m))
      then Ok (Some (NoReply, n))
      else x ← node_raft (raft_Step m) n; Ok (Some (NoReply, x.2))
  | EvConf cc => x ← run_conf cc n; Ok (Some (ReplyConfState x.1, x.2))
  | EvTick =>
      if nd_ticks n <=? 0 then Ok None
      else x ← RawNode_Tick (nd_rn n); Ok (Some (NoReply, set_nd_ticks (nd_ticks n - 1) (set_nd_rn x.2 n)))
  | EvReady =>
      if negb (nd_readyc n) then Ok None
      else
        rn ← RawNode_acceptReady (nd_rd n) (nd_rn n);
        Ok (Some (ReplyReady (nd_rd n),
          if negb (rn_asyncStorageWrites rn)
          then mknode rn (nd_ticks n) (nd_done n) (nd_propc n) false true (nd_rd n) (nd_lead n)
          else mknode rn (nd_ticks n) (nd_done n) (nd_propc n) false (nd_advancec n) Ready0 (nd_lead n)))
  | EvAdvance =>
      if negb (nd_advancec n) then Ok None
      else
        rn ← RawNode_Advance (nd_rn n);
        Ok (Some (NoReply, mknode rn (nd_ticks n) (nd_done n) (nd_propc n) (nd_readyc n) false Ready0 (nd_lead n)))
  | EvStatus => Ok (Some (ReplyStatus (getStatus r), n))
  | EvStop =>
      Ok (Some (NoReply,
        mknode (nd_rn n) (nd_ticks n) true (nd_propc n) (nd_readyc n) (nd_advancec n) (nd_rd n) (nd_lead n)))
  end.

(** One turn, from [select] to [select]; a stopped loop takes none. *)
Definition run_turn (ev : event) (n : node S) : outcome (option (reply * node S)) :=
  if nd_done n then Ok None
  else
    x ← run_case ev n;
    match x with
    | None => Ok None
    | Some (out, n) => if nd_done n then Ok (Some (out, n)) else n ← run_top n; Ok (Some (out, n))
    end.

(** A sequence of turns. *)
Fixpoint node_runs (evs : list event) (n : node S) : outcome (option (node S)) :=
  match evs with
  | [] => Ok (Some n)
  | ev :: evs =>
      x ← run_turn ev n;
      match x with Some (_, n) => node_runs evs n | None => Ok None end
  end.

(** ** The interface *)

Definition setupNode (c : RaftConfig S) (rands : list Z) (peers : list Peer) : outcome (node S) :=
  if len peers =? 0 then Panic "no peers given; use RestartNode instead"
  else
    rn ← NewRawNode c rands;
    x ← RawNode_Bootstrap peers rn;
    Ok (newNode x.2).

(** Both start [run], which runs to its first [select]. *)
Definition StartNode (c : RaftConfig S) (rands : list Z) (peers : list Peer) : outcome (node S) :=
  n ← setupNode c rands peers; run_top n.

Definition RestartNode (c : RaftConfig S) (rands : list Z) : outcome (node S) :=
  rn ← NewRawNode c rands; run_top (newNode rn).

(** The tick is dropped when the buffer is full. *)
Definition node_Tick (n : node S) : node S :=
  if nd_done n then n else if nd_ticks n <? tickc_size then set_nd_ticks (nd_ticks n + 1) n else n.

(** The case that a [select] of a method takes. *)
Inductive pick : Type := PSend | PCtx | PDone.

(** A [select] between sending to the loop, the end of the context and the end
    of the node; [None] when the case cannot be taken. *)
Definition node_select {A} (p : pick) (ctx : option error) (n : node S)
    (send : outcome (option (A * node S))) (onErr : error → A) : outcome (option (A * node S)) :=
  match p with
  | PSend => send
  | PCtx => Ok (match ctx with Some e => Some (onErr e, n) | None => None end)
  | PDone => Ok (if nd_done n then Some (onErr ErrStopped, n) else None)
  end.

(** [p2] is the case of the [select] that waits for the result of a proposal;
    before it is taken the loop may have served the turns [between]. *)
Definition node_stepWithWaitOption (p p2 : pick) (between : list event) (ctx : option error) (m : Message) (wait : bool)
    (n : node S) : outcome (option (option error * node S)) :=
  if negb (mt_eqb (Message_GetType m) MsgProp) then
    node_select p ctx n
      (x ← run_turn (EvRecv m) n; Ok (y ← x; Some (None, y.2))) Some
  else
    node_select p ctx n
      (x ← run_turn (EvProp m wait) n;
       match x with
       | None => Ok None
       | Some (out, n) =>
           if negb wait then Ok (Some (None, n))
           else
             x ← node_runs between n;
             match x with
             | None => Ok None
             | Some n => node_select p2 ctx n (Ok (Some (match out with ReplyErr e => e | _ => None end, n))) Some
             end
       end) Some.

Definition node_step (p : pick) (ctx : option error) (m : Message) : node S → outcome (option (option error * node S)) :=
  node_stepWithWaitOption p p [] ctx m false.

Definition node_stepWait (p p2 : pick) (between : list event) (ctx : option error) (m : Message) :
    node S → outcome (option (option error * node S)) :=
  node_stepWithWaitOption p p2 between ctx m true.

(** [Step]; a nil message is an error. *)
Definition node_Step (p : pick) (ctx : option error) (m : option Message) (n : node S) :
    outcome (option (option error * node S)) :=
  match m with
  | None => Ok (Some (Some (ErrText "cannot step with nil message"), n))
  | Some m =>
      if IsLocalMsg (Message_GetType m) && negb (IsLocalMsgTarget (Message_GetFrom m)) then Ok (Some (None, n))
      else node_step p ctx m n
  end.

Definition node_Campaign (p : pick) (ctx : option error) : node S → outcome (option (option error * node S)) :=
  node_step p ctx (set_Message_Type (Some MsgHup) Message0).

Definition node_Propose (p p2 : pick) (between : list event) (ctx : option error) (data : option bytes) :
    node S → outcome (option (option error * node S)) :=
  node_stepWait p p2 between ctx (set_Message_Entries [mkEntry None None None data] (set_Message_Type (Some MsgProp) Message0)).

Definition node_ProposeConfChange (p : pick) (ctx : option error) (cc : option ConfChangeI) :
    node S → outcome (option (option error * node S)) :=
  node_Step p ctx (Some (confChangeToMsg cc)).

Definition node_ForgetLeader (p : pick) (ctx : option error) : node S → outcome (option (option error * node S)) :=
  node_step p ctx (set_Message_Type (Some MsgForgetLeader) Message0).

Definition node_ReadIndex (p : pick) (ctx : option error) (rctx : option bytes) :
    node S → outcome (option (option error * node S)) :=
  node_step p ctx (set_Message_Entries [mkEntry None None None rctx] (set_Message_Type (Some MsgReadIndex) Message0)).

(** The methods without a result. *)
Definition node_send (p : pick) (ctx : option error) (ev : event) (n : node S) : outcome (option (node S)) :=
  x ← node_select p ctx n (x ← run_turn ev n; Ok (y ← x; Some (tt, y.2))) (fun _ => tt);
  Ok (y ← x; Some y.2).

Definition node_ReportUnreachable (p : pick) (id : Z) : node S → outcome (option (node S)) :=
  node_send p None (EvRecv (set_Message_From (Some id) (set_Message_Type (Some MsgUnreachable) Message0))).

Definition node_ReportSnapshot (p : pick) (id : Z) (status : SnapshotStatus) : node S → outcome (option (node S)) :=
  let rej := match status with SnapshotFailure => true | SnapshotFinish => false end in
  node_send p None (EvRecv (set_Message_Reject (Some rej) (set_Message_From (Some id)
    (set_Message_Type (Some MsgSnapStatus) Message0)))).

Definition node_TransferLeadership (p : pick) (ctx : option error) (lead transferee : Z) :
    node S → outcome (option (node S)) :=
  node_send p ctx (EvRecv (set_Message_To (Some lead) (set_Message_From (Some transferee)
    (set_Message_Type (Some MsgTransferLeader) Message0)))).

Definition node_Advance (p : pick) : node S → outcome (option (node S)) := node_send p None EvAdvance.

Definition node_Stop (p : pick) : node S → outcome (option (node S)) := node_send p None EvStop.

(** A stopped node has no configuration state to return. *)
Definition node_ApplyConfChange (p : pick) (cc : ConfChangeI) (n : node S) :
    outcome (option (option ConfState * node S)) :=
  node_select p None n
    (x ← run_turn (EvConf (AsV2 cc)) n;
     Ok (y ← x; Some (match y.1 with ReplyConfState cs => Some cs | _ => None end, y.2)))
    (fun _ => None).

(** The zero [Status] of a stopped node is [None]. *)
Definition node_Status (p : pick) (n : node S) : outcome (option (option Status * node S)) :=
  node_select p None n
    (x ← run_turn EvStatus n;
     Ok (y ← x; Some (match y.1 with ReplyStatus st => Some st | _ => None end, y.2)))
    (fun _ => None).

(** Receiving from the channel that [Ready] returns. *)
Definition node_Ready (n : node S) : outcome (option (Ready * node S)) :=
  x ← run_turn EvReady n;
  Ok (y ← x; match y.1 with ReplyReady rd => Some (rd, y.2) | _ => None end).

End node.

(** ** What the loop guarantees *)

Section node_claims.
Context {S : Type} `{Protobuf} `{!Storage S}.
Implicit Types (n : node S) (rn : RawNode S).

(** A node at its [select]: started, then any sequence of turns and ticks. *)
Inductive node_reach : node S → Prop :=
  | reach_start c rands peers n : StartNode c rands peers = Ok n → node_reach n
  | reach_restart c rands n : RestartNode c rands = Ok n → node_reach n
  | reach_turn n ev out n' : node_reach n → run_turn ev n = Ok (Some (out, n')) → node_reach n'
  | reach_tick n : node_reach n → node_reach (node_Tick n).

(** Between a case and the next [select]. *)
Record loop_inv n : Prop := mkloop_inv {
  li_prop : nd_propc n = true → nd_lead n ≠ None_id;
  li_ticks : 0 <= nd_ticks n <= tickc_size;
  li_advance : nd_advancec n = true → nd_readyc n = false ∧ rn_asyncStorageWrites (nd_rn n) = false;
  li_steps : nd_advancec n = false → rn_stepsOnAdvance (nd_rn n) = [];
}.

(** At the [select]. *)
Record node_inv n : Prop := mknode_inv {
  ni_loop : loop_inv n;
  ni_lead : nd_lead n = raft_lead (rn_raft (nd_rn n));
  ni_fresh : nd_readyc n = true → RawNode_HasReady (nd_rn n) = Ok true →
    RawNode_readyWithoutAccept (nd_rn n) = Ok (nd_rd n);
}.

Lemma run_top_ok n n' : run_top n = Ok n' → loop_inv n →
  node_inv n' ∧ nd_rn n' = nd_rn n ∧ nd_advancec n' = nd_advancec n ∧ nd_done n' = nd_done n ∧
  (nd_lead n = raft_lead (rn_raft (nd_rn n)) → nd_propc n' = nd_propc n).
Proof.
  unfold run_top. intros (n1 & E & [= <-])%bind_Ok [Hp Ht Ha Hs].
  assert (loop_inv n1 ∧ nd_rn n1 = nd_rn n ∧ nd_lead n1 = nd_lead n ∧ nd_advancec n1 = nd_advancec n ∧
    nd_done n1 = nd_done n ∧ nd_propc n1 = nd_propc n ∧
    (nd_readyc n1 = true → RawNode_HasReady (nd_rn n) = Ok true →
     RawNode_readyWithoutAccept (nd_rn n) = Ok (nd_rd n1))) as ([Hp1 Ht1 Ha1 Hs1] & Er & El & Ea & Ed & Epc & Ef).
  { destruct (nd_advancec n) eqn:Eadv.
    - injection E as <-. split; [by split; rewrite ?Eadv|]. split_and!; try done.
      intros Hr. destruct (Ha eq_refl). congruence.
    - apply bind_Ok in E as (has & Eh & E). destruct has.
      + apply bind_Ok in E as (rd & Erd & [= <-]). split; [by split; cbn; rewrite ?Eadv|]. by split_and!.
      + injection E as <-. split; [by split; rewrite ?Eadv|]. split_and!; try done. rewrite Eh. done. }
  rewrite El, <- Er. destruct (Z.eqb_spec (nd_lead n) (raft_lead (rn_raft (nd_rn n1)))) as [Hl|Hl]; cbn [negb].
  - split_and!; try done. split; [done|congruence|by rewrite Er].
  - split_and!; try done. split; [split; try done|done|by cbn; rewrite Er]. cbn. unfold raft_hasLeader. rewrite negb_true_iff. lia.
Qed.

Lemma node_raft_inv {A} (m : RM S A) n x n' :
  node_raft m n = Ok (x, n') → ∃ r', m (rn_raft (nd_rn n)) = Ok (x, r') ∧ n' = set_nd_rn (set_rn_raft r' (nd_rn n)) n.
Proof.
  unfold node_raft, on_raft. intros ([y rn'] & ([z r'] & E & [= <- <-])%bind_Ok & [= <- <-])%bind_Ok. eauto.
Qed.

(** Cases that only change the wrapped node keep the loop in order. *)
Lemma loop_inv_raft n r' : loop_inv n → loop_inv (set_nd_rn (set_rn_raft r' (nd_rn n)) n).
Proof. by intros [? ? ? ?]. Qed.

Lemma accept_ready_steps rd rn rn' :
  RawNode_acceptReady rd rn = Ok rn' →
  rn_asyncStorageWrites rn' = rn_asyncStorageWrites rn ∧
  (rn_asyncStorageWrites rn = true → rn_stepsOnAdvance rn' = rn_stepsOnAdvance rn).
Proof.
  unfold RawNode_acceptReady. intros (steps & Es & (r' & _ & [= <-])%bind_Ok)%bind_Ok. cbn.
  split; [done|]. intros Ha. rewrite Ha in Es. by injection Es as <-.
Qed.

Lemma run_case_inv ev n out n' :
  run_case ev n = Ok (Some (out, n')) → node_inv n → loop_inv n'.
Proof.
  intros E [Hl _ _]. pose proof Hl as [Hp Ht Ha Hs]. destruct ev; cbn [run_case] in E.
  - destruct (negb _); [done|]. apply bind_Ok in E as ([x n1] & E & [= _ <-]).
    apply node_raft_inv in E as (r' & _ & ->). by apply loop_inv_raft.
  - destruct (_ && _ && _); [by injection E as _ <-|]. apply bind_Ok in E as ([x n1] & E & [= _ <-]).
    apply node_raft_inv in E as (r' & _ & ->). by apply loop_inv_raft.
  - apply bind_Ok in E as ([cs n1] & E & [= _ <-]). unfold run_conf in E.
    apply bind_Ok in E as ([cs1 n2] & E & [= _ <-]). apply node_raft_inv in E as (r' & _ & ->).
    destruct (_ && _); [|by apply loop_inv_raft]. by split.
  - destruct (Z.leb_spec (nd_ticks n) 0); [done|]. apply bind_Ok in E as ([u rn'] & E & [= _ <-]).
    apply bind_Ok in E as ([u' r'] & _ & [= _ <-]). split; try done. unfold tickc_size in *. cbn. lia.
  - destruct (nd_readyc n) eqn:Er; [|done]. cbn in E. apply bind_Ok in E as (rn' & E & [= _ <-]).
    apply accept_ready_steps in E as [Has Hst].
    assert (nd_advancec n = false) as Hna by (destruct (nd_advancec n); [by destruct (Ha eq_refl)|done]).
    destruct (rn_asyncStorageWrites rn') eqn:Easync; cbn [negb]; split; try done; cbn.
    + by rewrite Hna.
    + intros _. rewrite Hst by congruence. by apply Hs.
  - destruct (nd_advancec n) eqn:Ea; [|done]. cbn in E. apply bind_Ok in E as (rn' & E & [= _ <-]).
    revert E. unfold RawNode_Advance. destruct (rn_asyncStorageWrites (nd_rn n)); [done|].
    intros ([u r'] & _ & [= <-])%bind_Ok. by split.
  - by injection E as _ <-.
  - injection E as _ <-. by split.
Qed.

Lemma run_turn_inv ev n out n' :
  run_turn ev n = Ok (Some (out, n')) → node_inv n →
  nd_done n = false ∧ node_inv n' ∧
  ∃ n1, run_case ev n = Ok (Some (out, n1)) ∧ nd_rn n' = nd_rn n1 ∧ nd_advancec n' = nd_advancec n1 ∧
    nd_done n' = nd_done n1 ∧ (nd_lead n1 = raft_lead (rn_raft (nd_rn n1)) → nd_propc n' = nd_propc n1).
Proof.
  unfold run_turn. intros E Hi. destruct (nd_done n) eqn:Ed; [done|]. split; [done|].
  apply bind_Ok in E as ([[out1 n1]|] & Ec & E); [|done].
  pose proof (run_case_inv _ _ _ _ Ec Hi) as Hl. destruct (nd_done n1) eqn:Ed1.
  - injection E as <- <-. split; [|by exists n1].
    assert (ev = EvStop) as ->.
    { destruct ev; cbn [run_case] in Ec; [..|done]; exfalso; revert Ed1.
      - destruct (negb _); [done|]. apply bind_Ok in Ec as ([x n2] & Ec & [= _ <-]).
        apply node_raft_inv in Ec as (r' & _ & ->). cbn. congruence.
      - destruct (_ && _ && _); [injection Ec as _ <-; congruence|]. apply bind_Ok in Ec as ([x n2] & Ec & [= _ <-]).
        apply node_raft_inv in Ec as (r' & _ & ->). cbn. congruence.
      - apply bind_Ok in Ec as ([cs n2] & Ec & [= _ <-]). unfold run_conf in Ec.
        apply bind_Ok in Ec as ([cs1 n3] & Ec & [= _ <-]). apply node_raft_inv in Ec as (r' & _ & ->).
        destruct (_ && _); cbn; congruence.
      - destruct (_ <=? _); [done|]. apply bind_Ok in Ec as (x & _ & [= _ <-]). cbn. congruence.
      - destruct (negb _); [done|]. apply bind_Ok in Ec as (rn' & _ & [= _ <-]). destruct (negb _); cbn; congruence.
      - destruct (negb _); [done|]. apply bind_Ok in Ec as (rn' & _ & [= _ <-]). cbn. congruence.
      - injection Ec as _ <-. congruence. }
    cbn in Ec. injection Ec as _ <-. destruct Hi as [_ ? ?]. by split.
  - apply bind_Ok in E as (n2 & Et & [= <- <-]). apply run_top_ok in Et as (? & ? & ? & ? & ?); [|done].
    split; [done|]. exists n1. split_and!; try done; congruence.
Qed.

Lemma newNode_inv rn n : rn_stepsOnAdvance rn = [] → run_top (newNode rn) = Ok n → node_inv n.
Proof. intros Hs E. apply run_top_ok in E as [? _]; [done|]. split; try done. Qed.

Lemma reach_inv n : node_reach n → node_inv n.
Proof.
  induction 1 as [c rands peers n E|c rands n E|n ev out n' _ IH E|n _ IH].
  - apply bind_Ok in E as (n0 & E & Et). unfold setupNode in E. destruct (_ =? 0); [done|].
    apply bind_Ok in E as (rn & (r & _ & [= <-])%bind_Ok & E). apply bind_Ok in E as ([x rn'] & Eb & [= <-]).
    apply newNode_inv in Et; [done|]. revert Eb. unfold RawNode_Bootstrap.
    destruct (_ =? 0); [by intros [= _ <-]|]. destruct (st_LastIndex _); [|by intros [= _ <-]].
    destruct (negb _); [by intros [= _ <-]|]. by intros (? & _ & [= _ <-])%bind_Ok.
  - apply bind_Ok in E as (rn & (r & _ & [= <-])%bind_Ok & Et). by apply newNode_inv in Et.
  - by apply (run_turn_inv _ _ _ _ E IH).
  - destruct IH as [[Hp Ht Ha Hs] ? ?]. unfold node_Tick. destruct (nd_done n); [done|].
    destruct (Z.ltb_spec (nd_ticks n) tickc_size); [|done]. split; try done. split; try done. cbn. lia.
Qed.

(** The contract of [Ready] and [Advance]: without asynchronous writes every
    Ready is followed by [Advance] before the next one, with them [Advance] is
    not called.  The state is whether an [Advance] is due. *)
Fixpoint alternates (async : bool) (evs : list event) (due : bool) : option bool :=
  match evs with
  | [] => Some due
  | EvReady :: evs => if due then None else alternates async evs (negb async)
  | EvAdvance :: evs => if due then alternates async evs false else None
  | _ :: evs => alternates async evs due
  end.

Lemma run_case_due ev n out n' :
  run_case ev n = Ok (Some (out, n')) → loop_inv n →
  rn_asyncStorageWrites (nd_rn n') = rn_asyncStorageWrites (nd_rn n) ∧
  ∀ evs, alternates (rn_asyncStorageWrites (nd_rn n)) (ev :: evs) (nd_advancec n) =
         alternates (rn_asyncStorageWrites (nd_rn n)) evs (nd_advancec n').
Proof.
  intros E [_ _ Ha _]. destruct ev; cbn [run_case] in E; cbn [alternates].
  - destruct (negb _); [done|]. apply bind_Ok in E as ([x n1] & E & [= _ <-]).
    by apply node_raft_inv in E as (r' & _ & ->).
  - destruct (_ && _ && _); [by injection E as _ <-|]. apply bind_Ok in E as ([x n1] & E & [= _ <-]).
    by apply node_raft_inv in E as (r' & _ & ->).
  - apply bind_Ok in E as ([cs n1] & E & [= _ <-]). unfold run_conf in E.
    apply bind_Ok in E as ([cs1 n2] & E & [= _ <-]). apply node_raft_inv in E as (r' & _ & ->). by destruct (_ && _).
  - destruct (_ <=? _); [done|]. apply bind_Ok in E as ([u rn'] & E & [= _ <-]).
    by apply bind_Ok in E as ([u' r'] & _ & [= _ <-]).
  - destruct (nd_readyc n) eqn:Er; [|done]. cbn in E. apply bind_Ok in E as (rn' & E & [= _ <-]).
    apply accept_ready_steps in E as [<- _].
    assert (nd_advancec n = false) as -> by (destruct (nd_advancec n); [by destruct (Ha eq_refl)|done]).
    by destruct (rn_asyncStorageWrites rn') eqn:Ea; cbn; rewrite Ea.
  - destruct (nd_advancec n); [|done]. cbn in E. apply bind_Ok in E as (rn' & E & [= _ <-]).
    revert E. unfold RawNode_Advance. destruct (rn_asyncStorageWrites (nd_rn n)); [done|].
    by intros ([u r'] & _ & [= <-])%bind_Ok.
  - by injection E as _ <-.
  - by injection E as _ <-.
Qed.

(** C28. The loop keeps the contract of [Ready] and [Advance] on behalf of the
    application: over any sequence of turns without asynchronous writes the two
    alternate, with them [Advance] is never served; and whenever a Ready may be
    handed out nothing is left to step from the one before, and whenever
    [Advance] is served it is allowed, so neither panic of [RawNode] that guards
    the contract can fire. *)
Theorem Node_ready_advance n evs n' :
  node_reach n → node_runs evs n = Ok (Some n') →
  alternates (rn_asyncStorageWrites (nd_rn n)) evs (nd_advancec n) = Some (nd_advancec n') ∧
  (nd_readyc n' = true → nd_advancec n' = false ∧ rn_stepsOnAdvance (nd_rn n') = []) ∧
  (nd_advancec n' = true → rn_asyncStorageWrites (nd_rn n') = false).
Proof.
  intros Hr%reach_inv. revert n Hr. induction evs as [|ev evs IH]; intros n Hr; cbn [node_runs].
  - intros [= <-]. destruct Hr as [[_ _ Ha Hs] _ _]. split_and!; [done| |by apply Ha].
    intros Hrd. destruct (nd_advancec n); [by destruct (Ha eq_refl); congruence|auto].
  - intros ([[out n1]|] & E & E')%bind_Ok; [|done].
    destruct (run_turn_inv _ _ _ _ E Hr) as (_ & Hr1 & n2 & Ec & Ern & Eadv & _).
    destruct (run_case_due _ _ _ _ Ec (ni_loop _ Hr)) as [Hasync Halt].
    destruct (IH n1 Hr1 E') as [Ha Hrest]. split; [|done].
    rewrite Halt, <- Eadv, <- Hasync, <- Ern. done.
Qed.



(** A node that applies its own removal (it had a progress record, has none
    afterwards and is no voter of either half) takes no further proposal while
    the leader that it knows stays the same. *)
Theorem Node_removed_no_proposals n cc cs n' m wait :
  node_reach n → run_turn (EvConf cc) n = Ok (Some (ReplyConfState cs, n')) →
  let r := rn_raft (nd_rn n) in let r' := rn_raft (nd_rn n') in
  has_progress_of r (raft_id r) = true → has_progress_of r' (raft_id r') = false →
  raft_id r' ∉ ConfState_Voters cs → raft_id r' ∉ ConfState_VotersOutgoing cs → raft_lead r' = raft_lead r →
  run_turn (EvProp m wait) n' = Ok None.
Proof.
  intros Hr%reach_inv E r r' Hb Ha Hv Ho Hl. destruct (run_turn_inv _ _ _ _ E Hr) as (_ & _ & n1 & Ec & En & _ & _ & Ep).
  cbn in Ec. apply bind_Ok in Ec as ([cs1 n2] & Ec & [= <- <-]). unfold run_conf in Ec.
  apply bind_Ok in Ec as ([cs2 n3] & Ec & [= -> <-]). apply node_raft_inv in Ec as (r2 & _ & ->).
  assert (r' = r2) as Er by (unfold r'; rewrite En; by destruct (_ && _)). cbn in Ep, En.
  assert (∀ l, raft_id r2 ∉ l → existsb (Z.eqb (raft_id r2)) l = false) as Hex.
  { intros l Hn. apply not_true_iff_false. intros (x & Hx & ?)%existsb_exists. apply Hn, list_elem_of_In.
    by replace (raft_id r2) with x by lia. }
  rewrite Er in Hv, Ho, Ha, Hl. fold r in Ep. rewrite Hb, Ha, !Hex in Ep by done. cbn in Ep.
  assert (nd_propc n' = false) as Hnp. { apply Ep. rewrite (ni_lead _ Hr), Hl. done. }
  unfold run_turn. destruct (nd_done n'); [done|]. cbn. by rewrite Hnp.
Qed.

(** When [Propose] returns nil, the loop has taken the proposal and stepped it
    without an error, whatever it served before the caller went on. *)
Theorem Propose_nil_accepted p p2 between ctx data n n' :
  node_Propose p p2 between ctx data n = Ok (Some (None, n')) →
  ∃ m n1, Message_GetType m = MsgProp ∧ Entry_Data <$> Message_GetEntries m = [data] ∧
    run_turn (EvProp m true) n = Ok (Some (ReplyErr None, n1)) ∧ node_runs between n1 = Ok (Some n').
Proof.
  unfold node_Propose, node_stepWait, node_stepWithWaitOption. set (m := set_Message_Entries _ _). cbn [negb].
  change (mt_eqb (Message_GetType m) MsgProp) with true. cbn [negb]. destruct p; cbn [node_select].
  - intros E. apply bind_Ok in E as ([[out n1]|] & E1 & E); [|done]. apply bind_Ok in E as ([n2|] & E2 & E); [|done].
    assert (∃ e, out = ReplyErr e) as [e ->].
    { revert E1. unfold run_turn. destruct (nd_done n); [done|]. cbn [run_case]. destruct (negb _); [done|].
      intros (x & E1 & E3)%bind_Ok. apply bind_Ok in E1 as (y & _ & [= <-]). revert E3. destruct (nd_done _).
      - intros [= <- _]. by eexists.
      - intros (z & _ & [= <- _])%bind_Ok. by eexists. }
    destruct p2; cbn [node_select] in E.
    + injection E as -> <-. by exists m, n1.
    + by destruct ctx.
    + by destruct (nd_done n2).
  - by destruct ctx.
  - by destruct (nd_done n).
Qed.

End node_claims.

(** ** A node of three that campaigns *)

#[local] Existing Instances sample_Protobuf sample_ProtobufLaws.

Definition ex_node : node MemoryStorage :=
  Ok_or (newNode (mkRawNode ex_follower false (mkSoftState 0 StateFollower) None []))
    (RestartNode (ex_config noLimit) []).

Definition ex_events : list event := [EvReady; EvRecv ex_hup; EvAdvance; EvReady].

Definition ex_run (evs : list event) : option (node MemoryStorage) := Ok_or None (node_runs evs ex_node).

Lemma ex_node_reach : node_reach ex_node.
Proof. apply (reach_restart (ex_config noLimit) []). vm_compute. reflexivity. Qed.

Lemma Node_ready_advance_witness :
  ∃ n', ex_run ex_events = Some n' ∧ alternates false ex_events false = Some (nd_advancec n').
Proof.
  destruct (ex_run ex_events) as [n'|] eqn:E; [|vm_compute in E; discriminate E]. exists n'. split; [reflexivity|].
  destruct (Node_ready_advance ex_node ex_events n') as [Ha _]; [exact ex_node_reach| |exact Ha].
  unfold ex_run in E. destruct (node_runs ex_events ex_node) eqn:En; [|discriminate E]. cbn in E. by rewrite E.
Defined.


(** Node 1 hears of leader 2 and then applies its own removal. *)
Definition ex_heartbeat : Message :=
  set_Message_Term (Some 3) (set_Message_From (Some 2) (Msg MsgHeartbeat (Some 1))).

Definition ex_removal : ConfChangeV2 :=
  ConfChange_AsV2 (mkConfChange (Some ConfChangeRemoveNode) (Some 1) None None).

Definition ex_follows : node MemoryStorage := default ex_node (ex_run [EvRecv ex_heartbeat]).

Definition ex_removed : option (reply * node MemoryStorage) := Ok_or None (run_turn (EvConf ex_removal) ex_follows).

Lemma ex_follows_reach : node_reach ex_follows.
Proof.
  destruct (run_turn (EvRecv ex_heartbeat) ex_node) as [[[out n']|]|] eqn:E; [|vm_compute in E; discriminate E..].
  replace ex_follows with n'; [exact (reach_turn _ _ _ _ ex_node_reach E)|].
  unfold ex_follows, ex_run, node_runs. by rewrite E.
Qed.

Lemma Node_removed_no_proposals_witness :
  nd_propc ex_follows = true ∧ ∃ cs n', ex_removed = Some (ReplyConfState cs, n') ∧
    run_turn (EvProp Message0 true) n' = Ok None.
Proof.
  split; [vm_compute; reflexivity|].
  destruct (run_turn (EvConf ex_removal) ex_follows) as [[[[| |cs| |] n']|]|] eqn:E;
    try (vm_compute in E; discriminate E).
  exists cs, n'. split; [unfold ex_removed; by rewrite E|].
  apply (Node_removed_no_proposals ex_follows ex_removal cs n' Message0 true); [exact ex_follows_reach|exact E|..];
    vm_compute in E; injection E as <- <-; try (vm_compute; reflexivity);
    apply (bool_decide_unpack _); vm_compute; exact I.
Defined.
