(* ===== verification/Cluster.v ===== *)
(** * A cluster of nodes and election safety

    Nodes as [RawNode]s (src/rawnode.go), each with the hard state that its
    storage holds and the writes that its append thread has still to carry out,
    around a network that loses, duplicates and reorders messages and in which
    anything may be forged but a granted vote.  The application follows the
    contract of doc.go: it stores what a [Ready] tells it to before it sends the
    messages that wait for it.  Nodes crash and restart from their storage.

    The main result is election safety: over the whole run, two nodes that are
    leader of the same term are the same node. *)
From stdpp Require Import functions.
From S2P Require Import Prelude Proto Quorum Inflights Progress Tracker Util Storage.
From S2P Require Import Unstable Log ConfChange ReadOnly Raft RaftStep RaftRel.
From S2P Require Import RaftSafety RaftInv RawNode.

(** ** The cluster *)

(** The calls of an application, other than [Step], [Ready] and [Advance]. *)
Inductive call : Type :=
  | CTick
  | CTickQuiesced
  | CCampaign
  | CPropose (data : option bytes)
  | CProposeConfChange (cc : option ConfChangeI)
  | CApplyConfChange (cc : ConfChangeI)
  | CReportUnreachable (id : Z)
  | CReportSnapshot (id : Z) (status : SnapshotStatus)
  | CTransferLeader (transferee : Z)
  | CForgetLeader
  | CReadIndex (rctx : option bytes).

Record host (S : Type) : Type := mkhost {
  mb_node : RawNode S;
  mb_disk : option HardState;     (* the hard state that storage holds *)
  mb_writes : list Message;       (* [MsgStorageAppend]s handed out, not carried out *)
}.
Arguments mkhost {S}.
Arguments mb_node {S} _.
Arguments mb_disk {S} _.
Arguments mb_writes {S} _.

Record cluster (S : Type) : Type := mkcluster {
  cl_members : gmap Z (host S);
  cl_net : list Message;          (* every message ever sent *)
}.
Arguments mkcluster {S}.
Arguments cl_members {S} _.
Arguments cl_net {S} _.

Inductive action (S : Type) : Type :=
  | AStart (c : RaftConfig S) (rands : list Z)    (* start, or restart after a crash *)
  | ABootstrap (c : RaftConfig S) (rands : list Z) (peers : list Peer)
  | ACall (i : Z) (x : call)
  | ADeliver (i : Z) (k : nat)                    (* the k-th message of the network *)
  | AForge (i : Z) (m : Message)                  (* any other message *)
  | AReady (i : Z)
  | AAdvance (i : Z)
  | AWrite (i : Z)                                (* the append thread carries out a write *)
  | AStorage (i : Z) (s : S).                     (* the application changes its storage *)
Arguments AStart {S} _ _.
Arguments ABootstrap {S} _ _ _.
Arguments ACall {S} _ _.
Arguments ADeliver {S} _ _.
Arguments AForge {S} _ _.
Arguments AReady {S} _.
Arguments AAdvance {S} _.
Arguments AWrite {S} _.
Arguments AStorage {S} _ _.

Section cluster.
Context {S : Type} `{Protobuf} `{!Storage S}.

Definition run_call (x : call) (rn : RawNode S) : outcome (RawNode S) :=
  match x with
  | CTick => y ← RawNode_Tick rn; Ok y.2
  | CTickQuiesced => y ← RawNode_TickQuiesced rn; Ok y.2
  | CCampaign => y ← RawNode_Campaign rn; Ok y.2
  | CPropose data => y ← RawNode_Propose data rn; Ok y.2
  | CProposeConfChange cc => y ← RawNode_ProposeConfChange cc rn; Ok y.2
  | CApplyConfChange cc => y ← RawNode_ApplyConfChange cc rn; Ok y.2
  | CReportUnreachable id => y ← RawNode_ReportUnreachable id rn; Ok y.2
  | CReportSnapshot id st => y ← RawNode_ReportSnapshot id st rn; Ok y.2
  | CTransferLeader id => y ← RawNode_TransferLeader id rn; Ok y.2
  | CForgetLeader => y ← RawNode_ForgetLeader rn; Ok y.2
  | CReadIndex rctx => y ← RawNode_ReadIndex rctx rn; Ok y.2
  end.

(** Messages as nodes send them: terms leave room for the next one. *)
Definition msg_wf_b (m : Message) : bool :=
  (0 <=? Message_GetTerm m) && (Message_GetTerm m <? MaxUint64)
  && negb (leader_msg (Message_GetType m) && (Message_GetTerm m =? 0)).

Definition term_in_range_b (r : raft S) : bool := (0 <=? raft_Term r) && (raft_Term r <? MaxUint64).

Definition grants_vote (m : Message) : bool :=
  mt_eqb (Message_GetType m) MsgVoteResp && negb (Message_GetReject m).

(** What the append thread stores, as doc.go asks. *)
Definition stored_by (m : Message) (disk : option HardState) : option HardState :=
  let st := Some (mkHardState (Message_Term m) (Message_Vote m) (Message_Commit m)) in
  if IsEmptyHardState st then disk else st.

Definition is_write (m : Message) : bool := mt_eqb (Message_GetType m) MsgStorageAppend.

Context (cfg : JointConfig).

(** The configuration is fixed, steps that change the voters are not taken; and
    terms do not overflow. *)
Definition raft_guard (r : raft S) : bool :=
  bool_decide (ProgressTracker_Voters (raft_trk r) = cfg) && term_in_range_b r.

Definition node_ok (i : Z) (rn : RawNode S) : bool := (raft_id (rn_raft rn) =? i) && raft_guard (rn_raft rn).

(** The same for each of the steps that [Advance] takes. *)
Fixpoint advance_ok (ms : list Message) (r : raft S) : bool :=
  match ms with
  | [] => true
  | m :: ms =>
      raft_guard r && msg_wf_b m &&
      match raft_Step m r with Ok x => advance_ok ms x.2 | Panic _ => true end
  end.

Definition put_node (i : Z) (mb : host S) (rn : RawNode S) (c : cluster S) : option (cluster S) :=
  if node_ok i rn
  then Some (mkcluster (<[i := mkhost rn (mb_disk mb) (mb_writes mb)]> (cl_members c)) (cl_net c))
  else None.

(** A node that starts for the first time, or again from what it has stored. *)
Definition start_node (i : Z) (hs : option HardState) (rn : RawNode S) (c : cluster S) : option (cluster S) :=
  if node_ok i rn && match cl_members c !! i with Some mb => isHardStateEqual hs (mb_disk mb) | None => true end
  then Some (mkcluster (<[i := mkhost rn hs []]> (cl_members c)) (cl_net c))
  else None.

Definition initial_hs (c : RaftConfig S) : option HardState :=
  match RaftConfig_Storage c with
  | Some s => match st_InitialState s with Val (hs, _) => hs | Err _ => None end
  | None => None
  end.

Definition ready_member (mb : host S) : outcome (host S * list Message) :=
  x ← RawNode_Ready (mb_node mb);
  let '(rd, rn) := x in
  if rn_asyncStorageWrites rn
  then Ok (mkhost rn (mb_disk mb) (mb_writes mb ++ filter (fun m => is_write m = true) (Ready_Messages rd)),
           filter (fun m => is_write m = false) (Ready_Messages rd))
  else Ok (mkhost rn (if IsEmptyHardState (Ready_HardState rd) then mb_disk mb else Ready_HardState rd)
             (mb_writes mb), Ready_Messages rd).

Definition node_of (c : cluster S) (i : Z) : option (host S) := cl_members c !! i.

Definition from_ok {A} (o : outcome A) : option A := match o with Ok a => Some a | Panic _ => None end.

(** One action; [None] when it is not possible or the node panics. *)
Definition perform (a : action S) (c : cluster S) : option (cluster S) :=
  match a with
  | AStart conf rands =>
      rn ← from_ok (NewRawNode conf rands);
      start_node (RaftConfig_ID conf) (initial_hs conf) rn c
  | ABootstrap conf rands peers =>
      match cl_members c !! RaftConfig_ID conf with
      | Some _ => None
      | None =>
          rn ← from_ok (NewRawNode conf rands);
          if IsEmptyHardState (initial_hs conf) then
            x ← from_ok (RawNode_Bootstrap peers rn);
            start_node (RaftConfig_ID conf) (initial_hs conf) x.2 c
          else None
      end
  | ACall i x =>
      mb ← node_of c i;
      rn ← from_ok (run_call x (mb_node mb));
      put_node i mb rn c
  | ADeliver i k =>
      mb ← node_of c i;
      m ← cl_net c !! k;
      if (Message_GetTo m =? i) && msg_wf_b m then
        x ← from_ok (RawNode_Step m (mb_node mb));
        put_node i mb x.2 c
      else None
  | AForge i m =>
      mb ← node_of c i;
      if negb (grants_vote m) && msg_wf_b m then
        x ← from_ok (RawNode_Step m (mb_node mb));
        put_node i mb x.2 c
      else None
  | AReady i =>
      mb ← node_of c i;
      x ← from_ok (ready_member mb);
      Some (mkcluster (<[i := x.1]> (cl_members c)) (cl_net c ++ x.2))
  | AAdvance i =>
      mb ← node_of c i;
      if advance_ok (rn_stepsOnAdvance (mb_node mb)) (rn_raft (mb_node mb)) then
        rn ← from_ok (RawNode_Advance (mb_node mb));
        put_node i mb rn c
      else None
  | AWrite i =>
      mb ← node_of c i;
      match mb_writes mb with
      | [] => None
      | m :: ws =>
          Some (mkcluster (<[i := mkhost (mb_node mb) (stored_by m (mb_disk mb)) ws]> (cl_members c))
                  (cl_net c ++ Message_GetResponses m))
      end
  | AStorage i s =>
      mb ← node_of c i;
      let r := rn_raft (mb_node mb) in
      put_node i mb (set_rn_raft (set_raft_raftLog (set_raftLog_storage s (raft_raftLog r)) r) (mb_node mb)) c
  end.

Definition cl_step (c c' : cluster S) : Prop := ∃ a, perform a c = Some c'.

Definition cl_init : cluster S := mkcluster ∅ [].

(** A node is the leader of a term. *)
Definition leads (c : cluster S) (i term : Z) : Prop :=
  ∃ mb, cl_members c !! i = Some mb ∧ raft_state (rn_raft (mb_node mb)) = StateLeader ∧
    raft_Term (rn_raft (mb_node mb)) = term.

End cluster.

(** ** The invariant

    Ghost state: for each node the votes that it has given and stored, by term.
    A vote leaves a node only once it is stored, so the votes that a candidate
    counts and those that made a leader are stored by the nodes that gave them. *)

Section invariant.
Context {S : Type} `{Protobuf} `{!Storage S}.
Context (cfg : JointConfig).
Implicit Types (r : raft S) (rn : RawNode S) (mb : host S) (c : cluster S) (h vol : gmap Z Z).

Abbreviation votes := (Z → gmap Z Z).
Implicit Types g : votes.

Abbreviation hs_term hs := (HardState_GetTerm hs).
Abbreviation hs_vote hs := (HardState_GetVote hs).

Definition hs_hist h (hs : option HardState) : Prop := hist_ok h (hs_term hs) (hs_vote hs).

Definition same_vote (a b : option HardState) : Prop := hs_term a = hs_term b ∧ hs_vote a = hs_vote b.

(** From the stored hard state through the writes that are under way to the
    hard state handed out last: each write makes more votes durable, and the
    responses that wait for it are among them. *)
Fixpoint writes_ok (i : Z) h (disk : option HardState) (ws : list Message) vol (prev : option HardState) : Prop :=
  match ws with
  | [] => h ⊆ vol ∧ same_vote prev disk
  | m :: ws => ∃ h', h ⊆ h' ∧ hs_hist h' (stored_by m disk) ∧
      Forall (grant_ok i h') (Message_GetResponses m) ∧ writes_ok i h' (stored_by m disk) ws vol prev
  end.

(** Majorities of both halves have stored a vote for [i] in term [t]. *)
Definition elected g (i t : Z) : Prop :=
  ∃ q, joint_majority cfg q ∧ ∀ j, j ∈ q → g j !! t = Some i.

(** What a node believes about the votes of others. *)
Definition role_ok g (i : Z) r : Prop :=
  (raft_state r = StateCandidate → ∀ j, votes_of r !! j = Some true → g j !! raft_Term r = Some i) ∧
  (raft_state r = StateLeader → elected g i (raft_Term r)).

(** The node itself, with its votes [vol] of which not all need be stored. *)
Record raft_ok (i : Z) vol r : Prop := mkraft_ok {
  ro_id : raft_id r = i;
  ro_hist : hist_ok vol (raft_Term r) (raft_Vote r);
  ro_later : Forall (grant_ok i vol) (raft_msgsAfterAppend r);
  ro_now : Forall (msg_now i) (raft_msgs r);
}.

Definition self_grant (i : Z) h (m : Message) : Prop := grant_ok i h m ∧ (Message_GetType m = MsgVoteResp → Message_GetTo m = i).

Record member_ok g (i : Z) mb : Prop := mkmember_ok {
  mo_node : ∃ vol, raft_ok i vol (rn_raft (mb_node mb)) ∧
    writes_ok i (g i) (mb_disk mb) (mb_writes mb) vol (rn_prevHardSt (mb_node mb));
  mo_role : role_ok g i (rn_raft (mb_node mb));
  mo_disk : hs_hist (g i) (mb_disk mb);
  mo_prev : 0 <= hs_term (rn_prevHardSt (mb_node mb)) <= raft_Term (rn_raft (mb_node mb));
  mo_sync : rn_asyncStorageWrites (mb_node mb) = false → mb_writes mb = [];
  mo_steps : Forall (self_grant i (g i)) (rn_stepsOnAdvance (mb_node mb));
  mo_guard : node_ok cfg i (mb_node mb) = true;
  mo_named : i ≠ None_id;
}.

Record cl_inv g c : Prop := mkcl_inv {
  inv_members : ∀ i mb, cl_members c !! i = Some mb → member_ok g i mb;
  inv_net : ∀ m, m ∈ cl_net c → grant_ok (Message_GetFrom m) (g (Message_GetFrom m)) m;
  inv_absent : ∀ i, cl_members c !! i = None → g i = ∅;
}.

(** Votes only become durable, they are never taken back. *)
Definition votes_le g g' : Prop := ∀ i, g i ⊆ g' i.

#[export] Instance votes_le_preorder : PreOrder votes_le.
Proof. split; [by intros g i|]. intros g1 g2 g3 H1 H2 i. by trans (g2 i). Qed.

Lemma votes_le_insert g i h : g i ⊆ h → votes_le g (<[i := h]> g).
Proof.
  intros Hh j. destruct (decide (j = i)) as [->|]; [by rewrite fn_lookup_insert|by rewrite fn_lookup_insert_ne].
Qed.

Lemma elected_mono g g' i t : votes_le g g' → elected g i t → elected g' i t.
Proof. intros Hg (q & Hq & Hv). exists q. split; [done|]. intros j Hj. eapply lookup_weaken; [by apply Hv|apply Hg]. Qed.

Lemma role_ok_mono g g' i r : votes_le g g' → role_ok g i r → role_ok g' i r.
Proof.
  intros Hg [Hc Hl]. split; [|intros Hs; by eapply elected_mono, Hl].
  intros Hs j Hj. eapply lookup_weaken; [by apply Hc|apply Hg].
Qed.

(** Two leaders of one term share a voter, who voted once. *)
Lemma elected_unique g i j t : cfg.1 ≠ ∅ → elected g i t → elected g j t → i = j.
Proof.
  intros Hc (q1 & [H1 _] & V1) (q2 & [H2 _] & V2).
  destruct (majority_intersect _ _ _ Hc H1 H2) as (k & _ & K1 & K2).
  specialize (V1 _ K1). specialize (V2 _ K2). congruence.
Qed.

(** ** One node *)

Ltac member_cbn :=
  cbn [mb_node mb_disk mb_writes set_rn_raft rn_raft rn_asyncStorageWrites rn_prevSoftSt rn_prevHardSt
       rn_stepsOnAdvance].

(** What the votes of the cluster grant to node [i]. *)
Definition cl_grants g (i : Z) : grants :=
  mkgrants (fun _ _ => True) (elected g i) (fun t j => g j !! t = Some i).

Lemma role_evolves g i r r' : role_ok g i r → evolves (cl_grants g i) r r' → role_ok g i r'.
Proof.
  intros [Hc Hl] [_ _ _ _ _ _ L _ W _]. split.
  - intros Hs j Hj. destruct (W Hs j Hj) as [(Hs0 & -> & Hj0)|]; [by apply Hc|done].
  - intros Hs. destruct (L Hs) as [(Hs0 & ->)|]; [by apply Hl|done].
Qed.

Lemma raft_ok_evolves G i vol r r' :
  raft_ok i vol r → evolves G r r' → ∃ vol', vol ⊆ vol' ∧ raft_ok i vol' r'.
Proof.
  intros [I Hh La No] [I' _ _ _ (now & M & HM & _) _ _ _ _ (lat & A & _ & _ & HA)].
  destruct (HA vol Hh) as (vol' & Hs & Hh' & Hg). exists vol'. split; [done|]. split.
  - congruence.
  - done.
  - rewrite A. apply Forall_app. rewrite I in Hg. split; [|done].
    eapply Forall_impl; [exact La|]. intros m. by apply grant_ok_mono.
  - rewrite M. apply Forall_app. rewrite I in HM. done.
Qed.

(** The log does not matter. *)
Lemma raft_ok_set_log i vol r l : raft_ok i vol r → raft_ok i vol (set_raft_raftLog l r).
Proof. by intros []. Qed.

Lemma writes_ok_mono i h disk ws vol vol' prev :
  vol ⊆ vol' → writes_ok i h disk ws vol prev → writes_ok i h disk ws vol' prev.
Proof.
  intros Hv. revert h disk. induction ws as [|m ws IH]; intros h disk; cbn.
  - intros [? ?]. split; [by trans vol|done].
  - intros (h' & ? & ? & ? & ?). exists h'. auto.
Qed.

(** The votes counted by this message are those of the cluster. *)
Lemma step_conditions_ok g i (m : Message) r :
  role_ok g i r → ProgressTracker_Voters (raft_trk r) = cfg →
  (Message_GetType m = MsgVoteResp → Message_GetReject m = false → counted_now m r →
   g (Message_GetFrom m) !! raft_Term r = Some i) →
  Step_conditions (cl_grants g i) m r.
Proof.
  intros [Hc Hl] Hcfg Hm. split; [|by intros ?]. intros Hnow. split.
  - intros Ht Hf Hp Hw. cbn. destruct (decide (raft_state r = StateLeader)) as [Hs|Hs]; [by apply Hl|].
    assert (raft_state r = StateCandidate) as Hs' by (by destruct (raft_state r)).
    apply vote_won_majority in Hw as [Hw1 Hw2]. rewrite Hcfg in Hw1, Hw2.
    exists (voters_for m r cfg.1 ∪ voters_for m r cfg.2). split.
    + split; (eapply majority_mono; [|done]); set_solver.
    + intros j Hj. assert (ProgressTracker_Votes (ProgressTracker_RecordVote (Message_GetFrom m)
        (negb (Message_GetReject m)) (raft_trk r)) !! j = Some true) as Hv.
      { apply elem_of_union in Hj as [Hj|Hj]; by apply elem_of_filter in Hj as [? _]. }
      apply RecordVote_true in Hv as [Hv|[-> Hr]]; [by apply Hc|].
      apply Hm; [done|by destruct (Message_GetReject m)|done].
  - intros Ht Hs Hr. by apply Hm.
Qed.

Lemma msg_wf_b_spec m : msg_wf_b m = true → msg_wf m.
Proof.
  unfold msg_wf_b, msg_wf. repeat rewrite andb_true_iff. rewrite negb_true_iff, andb_false_iff.
  intros [[? ?] Hl]. split; [lia|]. intros HL. destruct Hl as [?|?]; [congruence|lia].
Qed.

Lemma raft_guard_spec r :
  raft_guard cfg r = true → ProgressTracker_Voters (raft_trk r) = cfg ∧ 0 <= raft_Term r < MaxUint64.
Proof.
  unfold raft_guard, term_in_range_b. repeat rewrite andb_true_iff. intros [Hv [? ?]].
  apply bool_decide_eq_true in Hv. split; [done|lia].
Qed.

Lemma node_ok_spec i rn :
  node_ok cfg i rn = true →
  raft_id (rn_raft rn) = i ∧ ProgressTracker_Voters (raft_trk (rn_raft rn)) = cfg ∧
  0 <= raft_Term (rn_raft rn) < MaxUint64.
Proof.
  unfold node_ok. rewrite andb_true_iff. intros [Hi Hr]. split; [lia|]. by apply raft_guard_spec.
Qed.

(** A granted vote that reaches node [i] counts. *)
Lemma counted_grant g i (m : Message) r :
  grant_ok (Message_GetFrom m) (g (Message_GetFrom m)) m → Message_GetTo m = i → i ≠ None_id →
  Message_GetType m = MsgVoteResp → Message_GetReject m = false → counted_now m r →
  g (Message_GetFrom m) !! raft_Term r = Some i.
Proof.
  intros Hg Hto Hi Ht Hr Hn. destruct Hg as (_ & Hnz & Hh); [split_and!; congruence|].
  destruct Hn as [?|Hn]; [done|]. by rewrite <- Hn, <- Hto.
Qed.

Lemma member_evolves g i mb r' :
  member_ok g i mb → evolves (cl_grants g i) (rn_raft (mb_node mb)) r' →
  node_ok cfg i (set_rn_raft r' (mb_node mb)) = true →
  member_ok g i (mkhost (set_rn_raft r' (mb_node mb)) (mb_disk mb) (mb_writes mb)).
Proof.
  intros [(vol & Hr & Hw) Ro Di Pr Sy St Gu Na] He Hok.
  destruct (raft_ok_evolves _ _ _ _ _ Hr He) as (vol' & Hs & Hr').
  split; try done; [|by eapply role_evolves|pose proof (ev_term _ _ _ He); member_cbn; lia].
  exists vol'. split; [done|]. by eapply writes_ok_mono.
Qed.

(** [on_raft] as a step of the wrapped node. *)
Lemma on_raft_inv {A} (m : RM S A) rn x rn' :
  on_raft m rn = Ok (x, rn') → ∃ r', m (rn_raft rn) = Ok (x, r') ∧ rn' = set_rn_raft r' rn.
Proof. unfold on_raft. intros ([y r'] & E & [= <- <-])%bind_Ok. eauto. Qed.

Lemma run_call_evolves G x rn rn' :
  run_call x rn = Ok rn' → 0 <= raft_Term (rn_raft rn) < MaxUint64 →
  ∃ r', rn' = set_rn_raft r' rn ∧ evolves G (rn_raft rn) r'.
Proof.
  intros E Ht. destruct x; cbn [run_call] in E; apply bind_Ok in E as ([y rn1] & E & [= <-]);
    apply on_raft_inv in E as (r' & E & ->); exists r'; (split; [done|]).
  all: try (eapply ev_Step_other; [exact E|done..]).
  - by eapply ev_run_tick.
  - injection E as _ <-. by apply core_evolves.
  - run_inv E. injection E0 as <- <-. eapply ev_Step_other; [exact E|done..].
  - destruct (confChangeToMsg_wf cc) as [? Hp]. eapply ev_Step_other; [exact E|done..| |]; congruence.
  - by eapply ev_applyConfChange.
Qed.

Lemma RawNode_Step_evolves G m rn x rn' :
  RawNode_Step m rn = Ok (x, rn') → 0 <= raft_Term (rn_raft rn) < MaxUint64 → msg_wf m →
  Step_conditions G m (rn_raft rn) →
  ∃ r', rn' = set_rn_raft r' rn ∧ evolves G (rn_raft rn) r'.
Proof.
  unfold RawNode_Step. intros E Ht Hm Hc.
  assert (rn = set_rn_raft (rn_raft rn) rn) as Hrn by (by destruct rn).
  destruct (_ && _) in E; [injection E as _ <-; by eexists|].
  destruct (_ && _ && _) in E; [injection E as _ <-; by eexists|].
  apply on_raft_inv in E as (r' & E & ->). exists r'. split; [done|]. by eapply ev_Step.
Qed.

(** The steps of [Advance]. *)
Lemma steps_evolve g i ms r u r' :
  for_each (fun m => _ ← raft_Step m; mret tt) ms r = Ok (u, r') → advance_ok cfg ms r = true →
  role_ok g i r → Forall (self_grant i (g i)) ms → i ≠ None_id → evolves (cl_grants g i) r r'.
Proof.
  revert r. induction ms as [|m ms IH]; intros r E Hok Hr Hg Hi; cbn in E; [by injection E as _ <-|].
  run_inv E. run_inv E0. injection E0 as _ ->. cbn [advance_ok] in Hok. rewrite E1 in Hok.
  repeat rewrite andb_true_iff in Hok. destruct Hok as [[Hgd Hwf] Hok].
  apply raft_guard_spec in Hgd as [Hcfg Ht]. apply msg_wf_b_spec in Hwf.
  apply Forall_cons in Hg as [[Hg1 Hto] Hg].
  assert (evolves (cl_grants g i) r r0) as He.
  { eapply ev_Step; [done..|]. apply step_conditions_ok; [done..|]. intros Hty Hrej Hn.
    assert (is_grant m) as Hgr by (split_and!; try done; by rewrite Hto).
    destruct (Hg1 Hgr) as (Hf & _). apply counted_grant; try done; [by rewrite Hf|auto]. }
  trans r0; [done|]. apply (IH r0); try done. by eapply role_evolves.
Qed.

(** ** Starting a node *)

(** What elections see of a node. *)
Definition elect r := (raft_id r, raft_Term r, raft_Vote r, raft_msgs r, raft_msgsAfterAppend r, raft_state r).

Lemma switchToConfig_elect conf trk r x r' :
  raft_switchToConfig conf trk r = Ok (x, r') → raft_state r ≠ StateLeader → elect r' = elect r.
Proof.
  unfold raft_switchToConfig. intros E Hs. run_inv E. injection E0 as _ <-. run_inv E. injection E0 as <- <-.
  run_inv E. injection E0 as _ <-. run_inv E. injection E0 as <- <-.
  replace (st_eqb (raft_state _) StateLeader) with false in E by (cbn; by destruct (raft_state r)).
  rewrite andb_false_r in E. cbn in E. by injection E as _ <-.
Qed.

Lemma on_log_elect f r u r' : on_log_ f r = Ok (u, r') → elect r' = elect r.
Proof.
  unfold on_log_. intros E. run_inv E. injection E0 as <- <-. run_inv E.
  apply bind_Ok in E0 as (? & _ & [= <- <-]). by injection E as _ <-.
Qed.

Lemma loadState_elect hs r u r' :
  raft_loadState hs r = Ok (u, r') →
  elect r' = elect (set_raft_Vote (hs_vote (Some hs)) (set_raft_Term (hs_term (Some hs)) r)).
Proof.
  unfold raft_loadState. intros E. run_inv E. injection E0 as <- <-. run_inv E.
  apply bind_Ok in E0 as (? & _ & [= <- <-]). destruct (_ || _); [done|]. by injection E as _ <-.
Qed.

Lemma IsEmptyHardState_spec hs : IsEmptyHardState hs = true → hs_term hs = 0 ∧ hs_vote hs = 0.
Proof.
  destruct hs as [hs|]; [|done]. unfold IsEmptyHardState, isHardStateEqual.
  repeat rewrite andb_true_iff. intros [[? ?] _]. cbn in *. lia.
Qed.

Lemma newRaft_init_elect (conf : RaftConfig S) hs cs r u r' :
  newRaft_init conf hs cs r = Ok (u, r') → raft_state r ≠ StateLeader → raft_Term r = 0 → raft_Vote r = 0 →
  elect r' = (raft_id r, hs_term hs, hs_vote hs, raft_msgs r, raft_msgsAfterAppend r, StateFollower).
Proof.
  unfold newRaft_init. intros E Hs Ht Hv. run_inv E. injection E0 as <- <-. run_inv E.
  apply bind_Ok in E0 as (? & _ & [= <- <-]). run_inv E. apply bind_Ok in E0 as (res & _ & [= <- <-]).
  destruct res as [[cf trk]|]; [|done]. run_inv E. apply switchToConfig_elect in E0; [|done].
  destruct (negb _); [done|]. run_inv E. run_inv E. run_inv E. injection E3 as <- <-.
  assert (elect r2 = elect r1) as E2' by (destruct (_ <? _); [by apply on_log_elect in E2|by injection E2 as _ <-]).
  apply becomeFollower_effect in E as (_ & I & T & V & _ & M & A & St & _). rewrite Z.eqb_refl in I, T, V, M, A.
  cbn in I, T, V, M, A, St. injection E0 as I0 T0 V0 M0 A0 _. injection E2' as I2 T2 V2 M2 A2 _.
  unfold elect. rewrite I, T, V, M, A, St, I2, T2, V2, M2, A2.
  assert (elect r1 = elect (set_raft_Vote (hs_vote hs) (set_raft_Term (hs_term hs) r0))) as E1'.
  { destruct hs as [st|]; [|injection E1 as _ <-; unfold elect; cbn; by rewrite T0, V0, Ht, Hv].
    destruct (IsEmptyHardState (Some st)) eqn:Ee; cbn [negb when] in E1; [|by apply loadState_elect in E1].
    injection E1 as _ <-. apply IsEmptyHardState_spec in Ee as [-> ->]. unfold elect; cbn. by rewrite T0, V0, Ht, Hv. }
  injection E1' as I1 T1 V1 M1 A1 _. cbn in *. by rewrite I1, T1, V1, M1, A1, I0, M0, A0.
Qed.

Lemma newRaft_elect (conf : RaftConfig S) rands r :
  newRaft conf rands = Ok r →
  RaftConfig_ID conf ≠ None_id ∧
  elect r = (RaftConfig_ID conf, hs_term (initial_hs conf), hs_vote (initial_hs conf), [], [], StateFollower).
Proof.
  unfold newRaft, initial_hs. destruct (Config_validate conf) as [[s conf']|] eqn:Ev; [|done]. intros E.
  assert (RaftConfig_ID conf ≠ None_id ∧ RaftConfig_Storage conf = Some s ∧ RaftConfig_ID conf' = RaftConfig_ID conf)
    as (Hid & Hs & Hid').
  { revert Ev. unfold Config_validate. destruct (Z.eqb_spec (RaftConfig_ID conf) None_id); [done|].
    repeat (case_match; try done); by intros [= <- <-]. }
  apply bind_Ok in E as (l & _ & E). rewrite Hs. destruct (st_InitialState s) as [[hs cs]|]; [|done].
  apply bind_Ok in E as ([u r1] & E & [= <-]). split; [done|].
  apply newRaft_init_elect in E; [|done..]. rewrite E. cbn. by rewrite Hid'.
Qed.

Lemma start_ok g i hs rn :
  node_ok cfg i rn = true → i ≠ None_id →
  elect (rn_raft rn) = (i, hs_term hs, hs_vote hs, [], [], StateFollower) →
  same_vote (rn_prevHardSt rn) hs → rn_stepsOnAdvance rn = [] → hs_hist (g i) hs →
  member_ok g i (mkhost rn hs []).
Proof.
  intros Hok Hi [= I T V M A St] Hp Hst Hh. pose proof (node_ok_spec _ _ Hok) as (_ & _ & Hr).
  destruct Hp as [Hp1 Hp2]. split; member_cbn; try done.
  - exists (g i). split; [split|]; [done|by rewrite T, V|rewrite A; by apply Forall_nil|rewrite M; by apply Forall_nil|].
    by split.
  - split; congruence.
  - lia.
  - rewrite Hst. by apply Forall_nil.
Qed.

(** The history of a node that starts for the first time. *)
Definition first_hist (hs : option HardState) : gmap Z Z :=
  if hs_vote hs =? None_id then ∅ else {[ hs_term hs := hs_vote hs ]}.

Lemma first_hist_ok hs : hs_hist (first_hist hs) hs.
Proof.
  unfold hs_hist, first_hist. destruct (Z.eqb_spec (hs_vote hs) None_id) as [E|E]; [rewrite E; by split|].
  split; [|rewrite lookup_singleton_eq; by rewrite (proj2 (Z.eqb_neq _ _))].
  intros t x. rewrite lookup_singleton_Some. intros [-> _]. lia.
Qed.

Lemma NewRawNode_inv (conf : RaftConfig S) rands rn :
  NewRawNode conf rands = Ok rn →
  RaftConfig_ID conf ≠ None_id ∧ rn_stepsOnAdvance rn = [] ∧ same_vote (rn_prevHardSt rn) (initial_hs conf) ∧
  elect (rn_raft rn) = (RaftConfig_ID conf, hs_term (initial_hs conf), hs_vote (initial_hs conf), [], [], StateFollower).
Proof.
  unfold NewRawNode. intros (r & E & [= <-])%bind_Ok. apply newRaft_elect in E as [? E]. split_and!; [done..| |done].
  injection E as _ T V _ _ _. unfold same_vote. cbn. by rewrite T, V.
Qed.

Lemma Bootstrap_raft_ok g i vol peers r u r' :
  Bootstrap_raft peers r = Ok (u, r') → raft_ok i vol r → role_ok g i r → raft_Term r <= 1 →
  ∃ vol', vol ⊆ vol' ∧ raft_ok i vol' r' ∧ role_ok g i r' ∧ raft_Term r <= raft_Term r'.
Proof.
  unfold Bootstrap_raft. intros E Hr Ho Ht. do 3 run_inv E. injection E2 as _ <-.
  apply (ev_becomeFollower (cl_grants g i)) in E0; [|done].
  apply on_log_inv in E1 as (l & -> & _).
  assert (evolves (cl_grants g i) (set_raft_raftLog (set_raftLog_committed
    (len (imap (fun k => bootstrap_entry (Z.of_nat k)) peers)) l) r0) r') as He.
  { eapply rel_for_each in E; [exact E|apply _|]. intros p. apply rel_bind; [apply _|apply ev_applyConfChange|].
    intros. apply rel_ret, _. }
  destruct (raft_ok_evolves _ _ _ _ _ Hr E0) as (v1 & Hs1 & Hr1).
  destruct (raft_ok_evolves _ _ _ _ _ (raft_ok_set_log _ _ _ _ Hr1) He) as (v2 & Hs2 & Hr2).
  exists v2. split_and!; [by trans v1|done| |].
  - eapply role_evolves, He. apply (role_evolves _ _ _ _ Ho E0).
  - pose proof (ev_term _ _ _ E0). pose proof (ev_term _ _ _ He). cbn in *. lia.
Qed.

Lemma bootstrap_ok g i hs peers rn x rn' :
  RawNode_Bootstrap peers rn = Ok (x, rn') → node_ok cfg i rn' = true → i ≠ None_id →
  elect (rn_raft rn) = (i, hs_term hs, hs_vote hs, [], [], StateFollower) →
  same_vote (rn_prevHardSt rn) hs → rn_stepsOnAdvance rn = [] → IsEmptyHardState hs = true → hs_hist (g i) hs →
  member_ok g i (mkhost rn' hs []).
Proof.
  intros E Hok Hi He Hp Hst Hem Hh. revert E. unfold RawNode_Bootstrap.
  destruct (_ =? 0); [intros [= _ <-]; by apply start_ok|]. destruct (st_LastIndex _); [|intros [= _ <-]; by apply start_ok].
  destruct (negb _); [intros [= _ <-]; by apply start_ok|]. intros ([u r'] & E & [= _ <-])%bind_Ok.
  injection He as I T V M A St. pose proof (IsEmptyHardState_spec _ Hem) as [Hz1 Hz2].
  assert (raft_ok i (g i) (rn_raft rn)) as Hr.
  { split; [done|by rewrite T, V|rewrite A; by apply Forall_nil|rewrite M; by apply Forall_nil]. }
  destruct (Bootstrap_raft_ok g i _ _ _ _ _ E Hr) as (vol & Hs & Hr' & Ho' & Hte); [split; congruence|lia|].
  split; member_cbn; try done; [|cbn; lia|rewrite Hst; by apply Forall_nil]. exists vol. split; [done|].
  split; [done|]. unfold same_vote. by rewrite Hz1, Hz2.
Qed.

(** ** Ready *)

(** The hard state of a Ready, and its messages in the two storage modes. *)
Lemma ready_shape rn rd :
  RawNode_readyWithoutAccept rn = Ok rd →
  Ready_HardState rd = (if isHardStateEqual (Some (raft_hardState (rn_raft rn))) (rn_prevHardSt rn) then None
                        else Some (raft_hardState (rn_raft rn))) ∧
  (rn_asyncStorageWrites rn = true →
   ∃ rd0 sa ap, Ready_HardState rd0 = Ready_HardState rd ∧
     Ready_Messages rd = raft_msgs (rn_raft rn) ++ sa ++ ap ∧
     Forall (fun m => Message_GetType m = MsgStorageApply) ap ∧
     (sa = [] ∧ needStorageAppendMsg (rn_raft rn) rd0 = false ∨
      ∃ m, sa = [m] ∧ newStorageAppendMsg (rn_raft rn) rd0 = Ok m)).
Proof.
  unfold RawNode_readyWithoutAccept. intros (ents & _ & E)%bind_Ok. apply bind_Ok in E as (com & _ & E).
  set (hs := if isHardStateEqual _ _ then _ else _) in E |- *.
  match type of E with context [needStorageAppendMsg _ ?x] => set (rd0 := x) in E end.
  destruct (rn_asyncStorageWrites rn); [|by injection E as <-].
  apply bind_Ok in E as (rd1 & E1 & E). injection E as <-.
  assert (∃ sa, rd1 = set_Ready_Messages (raft_msgs (rn_raft rn) ++ sa) rd0 ∧
    (sa = [] ∧ needStorageAppendMsg (rn_raft rn) rd0 = false ∨
     ∃ m, sa = [m] ∧ newStorageAppendMsg (rn_raft rn) rd0 = Ok m)) as (sa & -> & Hsa).
  { destruct (needStorageAppendMsg (rn_raft rn) rd0).
    - apply bind_Ok in E1 as (m & Em & [= <-]). exists [m]. split; [done|]. right. by exists m.
    - injection E1 as <-. exists []. rewrite app_nil_r. split; [done|]. by left. }
  destruct (needStorageApplyMsg _); (split; [done|]); intros _; exists rd0, sa; eexists; (split; [done|]).
  - split; [cbn; by rewrite <- app_assoc|]. split; [by apply Forall_singleton|done].
  - split; [cbn; by rewrite app_nil_r|]. split; [by apply Forall_nil|done].
Qed.

Lemma newStorageAppendRespMsg_type r rd m :
  newStorageAppendRespMsg r rd = Ok m → Message_GetType m = MsgStorageAppendResp.
Proof.
  unfold newStorageAppendRespMsg. intros (m3 & E3 & [= <-])%bind_Ok.
  assert (Message_GetType m3 = MsgStorageAppendResp) as Ht; [|by destruct (negb _)].
  destruct (raftLog_hasNextOrInProgressUnstableEnts _); [|by injection E3 as <-].
  by apply bind_Ok in E3 as (? & _ & [= <-]).
Qed.

(** The write carries the hard state of the Ready and all that waits for it. *)
Lemma newStorageAppendMsg_shape r rd m :
  newStorageAppendMsg r rd = Ok m →
  is_write m = true ∧
  (∀ disk, same_vote (stored_by m disk)
     (if IsEmptyHardState (Ready_HardState rd) then disk else Ready_HardState rd)) ∧
  ∃ ack, Message_GetResponses m = raft_msgsAfterAppend r ++ ack ∧
    Forall (fun m => Message_GetType m = MsgStorageAppendResp) ack.
Proof.
  unfold newStorageAppendMsg. set (m0 := set_Message_Entries _ _).
  set (m1 := if negb (IsEmptyHardState _) then _ else _). set (m2 := if negb (IsEmptySnap _) then _ else _).
  intros E.
  assert (∀ disk, same_vote (stored_by m1 disk)
     (if IsEmptyHardState (Ready_HardState rd) then disk else Ready_HardState rd)) as Hs.
  { intros disk. subst m1. unfold stored_by. destruct (IsEmptyHardState (Ready_HardState rd)) eqn:Ee; [done|].
    destruct (Ready_HardState rd) as [h|]; [|done]. cbn [negb].
    match goal with |- context [IsEmptyHardState ?x] => change (IsEmptyHardState x) with (IsEmptyHardState (Some h)) end.
    by rewrite Ee. }
  assert (∀ x disk, stored_by (set_Message_Responses x m2) disk = stored_by m1 disk) as Hm.
  { intros x disk. subst m2. by destruct (IsEmptySnap _). }
  assert (∀ x, is_write (set_Message_Responses x m2) = true) as Hw.
  { intros x. subst m2 m1. by destruct (IsEmptySnap _), (IsEmptyHardState _). }
  destruct (needStorageAppendRespMsg r rd).
  - apply bind_Ok in E as (resp & Er & [= <-]).
    change (set_Message_Responses ?a (set_Message_Responses _ m2)) with (set_Message_Responses a m2).
    split_and!; [apply Hw|intros; rewrite Hm; apply Hs|]. exists [resp]. split; [done|].
    apply Forall_singleton. by eapply newStorageAppendRespMsg_type.
  - injection E as <-. split_and!; [apply Hw|intros; rewrite Hm; apply Hs|]. exists []. by rewrite app_nil_r.
Qed.

(** What accepting a Ready does to the node. *)
Lemma accept_shape rd rn rn' :
  RawNode_acceptReady rd rn = Ok rn' →
  elect (rn_raft rn') = elect (set_raft_msgsAfterAppend [] (set_raft_msgs [] (rn_raft rn))) ∧
  raft_trk (rn_raft rn') = raft_trk (rn_raft rn) ∧
  rn_asyncStorageWrites rn' = rn_asyncStorageWrites rn ∧
  rn_prevHardSt rn' = (if IsEmptyHardState (Ready_HardState rd) then rn_prevHardSt rn else Ready_HardState rd) ∧
  if rn_asyncStorageWrites rn then rn_stepsOnAdvance rn' = rn_stepsOnAdvance rn
  else ∃ st, rn_stepsOnAdvance rn' =
      filter (fun m => to_self (rn_raft rn) m = true) (raft_msgsAfterAppend (rn_raft rn)) ++ st ∧
    Forall (fun m => Message_GetType m = MsgStorageAppendResp ∨ Message_GetType m = MsgStorageApplyResp) st.
Proof.
  unfold RawNode_acceptReady. intros (steps & Es & E)%bind_Ok. apply bind_Ok in E as (r' & Er & [= <-]).
  set (r1 := if negb (len (Ready_ReadStates rd) =? 0) then _ else _) in Es, Er.
  assert (∃ rs, r1 = set_raft_readStates rs (rn_raft rn)) as (rs & Hr1).
  { subst r1. clear Es Er. destruct (negb _); [by eexists|]. exists (raft_readStates (rn_raft rn)). by destruct (rn_raft rn). }
  rewrite Hr1 in Es, Er. clear r1 Hr1.
  assert (∃ l, r' = set_raft_raftLog l (set_raft_msgsAfterAppend [] (set_raft_msgs []
    (set_raft_readStates rs (rn_raft rn))))) as (l & ->).
  { destruct (last _); [|injection Er as <-; by eexists]. apply bind_Ok in Er as (l & _ & [= <-]). by eexists. }
  member_cbn. split_and!; [done..| |].
  - by destruct (IsEmptyHardState _).
  - destruct (rn_asyncStorageWrites rn); [by injection Es as <-|]. destruct (rn_stepsOnAdvance rn); [|done].
    cbn in Es. apply bind_Ok in Es as (new & En & [= <-]). revert En. unfold accept_steps.
    intros (ap & Ea & [= <-])%bind_Ok. eexists. split; [done|]. apply Forall_app. split.
    + destruct (needStorageAppendRespMsg _ _); [|injection Ea as <-; by apply Forall_nil].
      apply bind_Ok in Ea as (m & Em & [= <-]). apply Forall_singleton. left. by eapply newStorageAppendRespMsg_type.
    + destruct (needStorageApplyRespMsg _); [apply Forall_singleton; by right|by apply Forall_nil].
Qed.

Lemma same_vote_hist h a b : same_vote a b → hs_hist h b → hs_hist h a.
Proof. unfold same_vote, hs_hist. by intros [-> ->]. Qed.

#[export] Instance same_vote_equiv : Equivalence same_vote.
Proof.
  split; [done|by intros ? ? [? ?]|]. intros ? ? ? [? ?] [? ?]. split; congruence.
Qed.

(** The writes under way lead to the hard state handed out last. *)
Lemma writes_ok_prev i h disk ws vol prev :
  hs_hist h disk → writes_ok i h disk ws vol prev → ∃ h', h ⊆ h' ∧ h' ⊆ vol ∧ hs_hist h' prev.
Proof.
  revert h disk. induction ws as [|m ws IH]; intros h disk Hd; cbn.
  - intros [Hs Hp]. exists h. split_and!; [done..|]. by eapply same_vote_hist.
  - intros (h' & Hs & Hh & _ & Hw). destruct (IH _ _ Hh Hw) as (h2 & ? & ? & ?). exists h2. split_and!; [by trans h'|done..].
Qed.

Lemma writes_ok_app i h disk ws vol prev m prev' :
  writes_ok i h disk ws vol prev → hs_hist vol prev' → (∀ d, same_vote prev d → same_vote (stored_by m d) prev') →
  Forall (grant_ok i vol) (Message_GetResponses m) → writes_ok i h disk (ws ++ [m]) vol prev'.
Proof.
  intros Hw Hh Hm Hg. revert h disk Hw. induction ws as [|w ws IH]; intros h disk; cbn.
  - intros [Hs Hp]. apply Hm in Hp. exists vol. split_and!; [done|by eapply same_vote_hist|done..].
  - intros (h' & ? & ? & ? & Hw). exists h'. auto.
Qed.

(** After a Ready the hard state handed out last is the node's. *)
Lemma handed_out g i mb rd :
  member_ok g i mb → RawNode_readyWithoutAccept (mb_node mb) = Ok rd →
  same_vote (if IsEmptyHardState (Ready_HardState rd) then rn_prevHardSt (mb_node mb) else Ready_HardState rd)
    (Some (raft_hardState (rn_raft (mb_node mb)))).
Proof.
  intros [(vol & [_ Hh _ _] & Hw) _ Di Pr _ _ _ _] E. apply ready_shape in E as [-> _].
  destruct (isHardStateEqual _ _) eqn:Ee.
  - unfold isHardStateEqual in Ee. repeat rewrite andb_true_iff in Ee. destruct Ee as [[? ?] _].
    split; cbn [IsEmptyHardState]; lia.
  - destruct (IsEmptyHardState _) eqn:En; [|done]. apply IsEmptyHardState_spec in En as [Ht Hv]. cbn in Ht, Hv.
    destruct (writes_ok_prev _ _ _ _ _ _ Di Hw) as (h & _ & Hs & Hp). rewrite Ht, Hv in Hh. rewrite Ht in Pr.
    assert (hs_term (rn_prevHardSt (mb_node mb)) = 0) as H0 by lia. unfold hs_hist in Hp. rewrite H0 in Hp.
    destruct Hp as [_ Hp], Hh as [_ Hh]. split; cbn; [by rewrite Ht|rewrite Hv].
    destruct (Z.eqb_spec (hs_vote (rn_prevHardSt (mb_node mb))) None_id) as [|Hn]; [done|].
    apply (lookup_weaken _ _ _ _ Hp) in Hs. by rewrite Hs in Hh.
Qed.

Lemma not_grant i h (m : Message) : Message_GetType m ≠ MsgVoteResp → grant_ok i h m.
Proof. by intros Ht [? _]. Qed.

Lemma now_not_grant i h ms : Forall (msg_now i) ms → Forall (grant_ok i h) ms.
Proof.
  intros Hm. eapply Forall_impl; [exact Hm|]. intros m (Hp & _). apply not_grant. intros Ht. apply Hp. right. by left.
Qed.

Lemma ready_node_ok rd i rn rn' : RawNode_acceptReady rd rn = Ok rn' → node_ok cfg i rn = true → node_ok cfg i rn' = true.
Proof.
  intros (E & Ht & _)%accept_shape. injection E as I T _ _ _ _. unfold node_ok, raft_guard, term_in_range_b.
  by rewrite I, T, Ht.
Qed.

(** Without asynchronous writes the application stores before it sends. *)
Lemma ready_sync_ok g i mb mb' out :
  member_ok g i mb → rn_asyncStorageWrites (mb_node mb) = false → ready_member mb = Ok (mb', out) →
  ∃ h, g i ⊆ h ∧ member_ok (<[i := h]> g) i mb' ∧ Forall (grant_ok i h) out.
Proof.
  intros Hmb Ha E. apply bind_Ok in E as ([rd rn'] & E & E'). apply bind_Ok in E as (rd1 & Er & E).
  apply bind_Ok in E as (rn1 & Eacc & [= <- <-]). pose proof (handed_out _ _ _ _ Hmb Er) as Hho.
  pose proof (ready_messages_sync _ _ Er Ha) as Hmsg. pose proof (ready_node_ok _ i _ _ Eacc) as Hok.
  apply accept_shape in Eacc as (Hel & Htrk & Has & Hp & Hst). rewrite Ha in Has, Hst. rewrite Has in E'.
  injection E' as <- <-. destruct Hmb as [(vol & [I Hh La No] & Hw) Ro Di Pr Sy St Gu Na].
  rewrite (Sy Ha) in Hw |- *. destruct Hw as [Hs Hpd]. destruct Hst as (st & Hst & Hty). exists vol.
  injection Hel as I' T' V' M' A' S'. split_and!; [done| |].
  - split; member_cbn; rewrite ?fn_lookup_insert; auto.
    + exists vol. split.
      * split; [congruence|by rewrite T', V'|by rewrite A'|by rewrite M'].
      * split; [done|]. rewrite Hp. by destruct (IsEmptyHardState _).
    + eapply role_ok_mono; [by apply votes_le_insert|]. unfold role_ok, votes_of. by rewrite T', S', Htrk.
    + assert (same_vote (if IsEmptyHardState (Ready_HardState rd1) then mb_disk mb else Ready_HardState rd1)
        (Some (raft_hardState (rn_raft (mb_node mb))))) as Hd.
      { etrans; [|exact Hho]. destruct (IsEmptyHardState _); [by symmetry|done]. }
      eapply same_vote_hist; [exact Hd|]. exact Hh.
    + rewrite Hp, T'. destruct Hho as [-> _]. cbn. apply node_ok_spec in Gu. lia.
    + rewrite Hst. apply Forall_app. split.
      * apply Forall_forall. intros m [Hto Hm]%list_elem_of_filter. split.
        -- rewrite Forall_forall in La. by apply La.
        -- intros _. unfold to_self in Hto. lia.
      * eapply Forall_impl; [exact Hty|]. intros m Hm. split; [apply not_grant|intros Hv]; destruct Hm; congruence.
  - rewrite Hmsg. apply Forall_app. split; [by apply now_not_grant|].
    apply Forall_forall. intros m [_ Hm]%list_elem_of_filter. rewrite Forall_forall in La. by apply La.
Qed.

(** With asynchronous writes the promises travel with the write. *)
Lemma ready_async_ok g i mb mb' out :
  member_ok g i mb → rn_asyncStorageWrites (mb_node mb) = true → ready_member mb = Ok (mb', out) →
  member_ok g i mb' ∧ Forall (grant_ok i (g i)) out.
Proof.
  intros Hmb Ha E. apply bind_Ok in E as ([rd rn'] & E & E'). apply bind_Ok in E as (rd1 & Er & E).
  apply bind_Ok in E as (rn1 & Eacc & [= <- <-]). pose proof (handed_out _ _ _ _ Hmb Er) as Hho.
  apply ready_shape in Er as [_ Er]. destruct (Er Ha) as (rd0 & sa & ap & Hrd & Hmsg & Hap & Hsa). clear Er.
  pose proof (ready_node_ok _ i _ _ Eacc) as Hok.
  apply accept_shape in Eacc as (Hel & Htrk & Has & Hp & Hst). rewrite Ha in Has, Hst. rewrite Has in E'.
  injection E' as <- <-. destruct Hmb as [(vol & [I Hh La No] & Hw) Ro Di Pr Sy St Gu Na].
  injection Hel as I' T' V' M' A' S'.
  assert (filter (fun m => is_write m = true) (Ready_Messages rd1) = sa ∧
    Forall (grant_ok i (g i)) (filter (fun m => is_write m = false) (Ready_Messages rd1))) as [-> Hout].
  { assert (Forall (fun m => is_write m = false) (raft_msgs (rn_raft (mb_node mb)) ++ ap)) as Hno.
    { apply Forall_app. split; (eapply Forall_impl; [eassumption|]); cbn; intros m Hm; unfold is_write.
      - destruct (mt_eqb_spec (Message_GetType m) MsgStorageAppend); [|done]. by destruct Hm as (_ & ? & _).
      - by rewrite Hm. }
    assert (Forall (fun m => is_write m = true) sa) as Hwr.
    { destruct Hsa as [[-> _]|(m & -> & Em)]; [by apply Forall_nil|]. apply Forall_singleton.
      by apply newStorageAppendMsg_shape in Em as (? & _). }
    apply Forall_app in Hno as [Hn1 Hn2]. rewrite Hmsg. split.
    - rewrite !filter_app, (filter_all _ sa Hwr). rewrite !filter_none; [by rewrite app_nil_r|..];
        (eapply Forall_impl; [eassumption|]); cbn; congruence.
    - apply Forall_forall. intros m [Hw1 Hm]%list_elem_of_filter.
      rewrite !elem_of_app in Hm. destruct Hm as [Hm|[Hm|Hm]].
      + apply (now_not_grant i (g i)) in No. rewrite Forall_forall in No. by apply No.
      + rewrite Forall_forall in Hwr. apply Hwr in Hm. congruence.
      + apply not_grant. rewrite Forall_forall in Hap. apply Hap in Hm. congruence. }
  split; [|done]. split; member_cbn; auto; try done.
  - exists vol. split; [split; [congruence|by rewrite T', V'|by rewrite A'|by rewrite M']|].
    destruct Hsa as [(-> & Hn)|(m & -> & Em)].
    + rewrite app_nil_r, Hp. revert Hn. unfold needStorageAppendMsg. rewrite Hrd. rewrite !orb_false_iff.
      intros [[[_ Hn] _] _]. rewrite negb_false_iff in Hn. by rewrite Hn.
    + apply newStorageAppendMsg_shape in Em as (_ & Hsv & ack & Hresp & Hack). rewrite Hrd in Hsv.
      eapply writes_ok_app; [exact Hw| | |].
      * rewrite Hp. eapply same_vote_hist; [exact Hho|exact Hh].
      * intros d Hd. rewrite Hsv, Hp. by destruct (IsEmptyHardState _).
      * rewrite Hresp. apply Forall_app. split; [done|]. eapply Forall_impl; [exact Hack|].
        intros x Hx. apply not_grant. by rewrite Hx.
  - unfold role_ok, votes_of in *. by rewrite T', S', Htrk.
  - rewrite Hp, T'. destruct Hho as [-> _]. cbn. apply node_ok_spec in Gu. lia.
  - congruence.
  - by rewrite Hst.
Qed.

(** The append thread. *)
Lemma write_ok g i mb m ws :
  member_ok g i mb → mb_writes mb = m :: ws →
  ∃ h, g i ⊆ h ∧ member_ok (<[i := h]> g) i (mkhost (mb_node mb) (stored_by m (mb_disk mb)) ws) ∧
    Forall (grant_ok i h) (Message_GetResponses m).
Proof.
  intros [(vol & Hr & Hw) Ro Di Pr Sy St Gu Na] Ew. rewrite Ew in Hw. destruct Hw as (h & Hs & Hh & Hg & Hw).
  exists h. split_and!; [done| |done]. split; member_cbn; rewrite ?fn_lookup_insert; auto.
  - by exists vol.
  - eapply role_ok_mono; [by apply votes_le_insert|done].
  - intros Ha. rewrite (Sy Ha) in Ew. done.
  - eapply Forall_impl; [exact St|]. intros x [Hx Ht]. split; [by eapply grant_ok_mono|done].
Qed.

(** ** The cluster *)

Lemma member_ok_other g g' j mb : votes_le g g' → g' j = g j → member_ok g j mb → member_ok g' j mb.
Proof.
  intros Hle Ej [No Ro Di Pr Sy St Gu Na]. split; rewrite ?Ej; auto. by eapply role_ok_mono.
Qed.

(** One node changes, its votes become durable and it sends messages. *)
Lemma inv_update g h c i mb' out :
  cl_inv g c → g i ⊆ h → member_ok (<[i := h]> g) i mb' → Forall (grant_ok i h) out →
  cl_inv (<[i := h]> g) (mkcluster (<[i := mb']> (cl_members c)) (cl_net c ++ out)).
Proof.
  intros [Mem Net Abs] Hs Hm Hout. pose proof (votes_le_insert _ _ _ Hs) as Hle. split; cbn.
  - intros j mb. destruct (decide (j = i)) as [->|Hj]; [rewrite lookup_insert_eq; by intros [= <-]|].
    rewrite lookup_insert_ne by done. intros Hmb. eapply member_ok_other; [done|by rewrite fn_lookup_insert_ne|auto].
  - intros m [Hin|Hin]%elem_of_app.
    + eapply grant_ok_mono; [apply Hle|by apply Net].
    + rewrite Forall_forall in Hout. intros Hg. destruct (Hout m Hin Hg) as (Hf & ? & ?).
      by rewrite Hf, fn_lookup_insert.
  - intros j. destruct (decide (j = i)) as [->|Hj]; [by rewrite lookup_insert_eq|].
    rewrite lookup_insert_ne, fn_lookup_insert_ne by done. apply Abs.
Qed.

Lemma fn_insert_same g i : ∀ j, (<[i := g i]> g) j = g j.
Proof. intros j. destruct (decide (j = i)) as [->|]; [by rewrite fn_lookup_insert|by rewrite fn_lookup_insert_ne]. Qed.

Lemma member_ok_ext g g' i mb : (∀ j, g' j = g j) → member_ok g i mb → member_ok g' i mb.
Proof. intros Hg. apply member_ok_other; [|done]. intros j. by rewrite Hg. Qed.

(** One node changes without giving new votes. *)
Lemma inv_put g c i mb' out :
  cl_inv g c → member_ok g i mb' → Forall (grant_ok i (g i)) out →
  ∃ g', votes_le g g' ∧ cl_inv g' (mkcluster (<[i := mb']> (cl_members c)) (cl_net c ++ out)).
Proof.
  intros Hc Hm Ho. exists (<[i := g i]> g). split; [by apply votes_le_insert|].
  apply inv_update; [done..| |done]. eapply member_ok_ext; [|exact Hm]. apply fn_insert_same.
Qed.

Lemma inv_put_node g c c' i mb r' :
  cl_inv g c → cl_members c !! i = Some mb →
  (member_ok g i mb → evolves (cl_grants g i) (rn_raft (mb_node mb)) r') →
  put_node cfg i mb (set_rn_raft r' (mb_node mb)) c = Some c' →
  ∃ g', votes_le g g' ∧ cl_inv g' c'.
Proof.
  intros Hc Hm He. unfold put_node. destruct (node_ok _ _ _) eqn:Hok; [|done]. intros [= <-].
  pose proof (inv_members _ _ Hc _ _ Hm) as Hmb.
  replace (cl_net c) with (cl_net c ++ []) by apply app_nil_r. apply inv_put; [done| |by apply Forall_nil].
  apply member_evolves; auto.
Qed.

Lemma inv_start g c c' i hs rn :
  cl_inv g c → start_node cfg i hs rn c = Some c' →
  (∀ g', hs_hist (g' i) hs → node_ok cfg i rn = true → member_ok g' i (mkhost rn hs [])) →
  ∃ g', votes_le g g' ∧ cl_inv g' c'.
Proof.
  intros Hc E Hm. revert E. unfold start_node. destruct (node_ok cfg i rn && _) eqn:Hg; [|done]. intros [= <-].
  apply andb_true_iff in Hg as [Hok Hd].
  assert (∃ h, g i ⊆ h ∧ hs_hist h hs) as (h & Hs & Hh).
  { destruct (cl_members c !! i) as [mb|] eqn:Em.
    - exists (g i). split; [done|]. apply (same_vote_hist _ _ (mb_disk mb)); [|by apply (inv_members _ _ Hc i mb)].
      unfold isHardStateEqual in Hd. repeat rewrite andb_true_iff in Hd. split; lia.
    - exists (first_hist hs). split; [|apply first_hist_ok]. rewrite (inv_absent _ _ Hc i Em). apply map_empty_subseteq. }
  exists (<[i := h]> g). split; [by apply votes_le_insert|].
  replace (cl_net c) with (cl_net c ++ []) by apply app_nil_r. apply inv_update; [done..| |by apply Forall_nil].
  apply Hm; [by rewrite fn_lookup_insert|done].
Qed.

Lemma from_ok_inv {A} (o : outcome A) a : from_ok o = Some a → o = Ok a.
Proof. destruct o; [|done]. by intros [= ->]. Qed.

Lemma inv_step_message g c c' i mb (m : Message) x :
  cl_inv g c → cl_members c !! i = Some mb → msg_wf_b m = true →
  (Message_GetType m = MsgVoteResp → Message_GetReject m = false →
   Message_GetTo m = i ∧ grant_ok (Message_GetFrom m) (g (Message_GetFrom m)) m) →
  RawNode_Step m (mb_node mb) = Ok x → put_node cfg i mb x.2 c = Some c' →
  ∃ g', votes_le g g' ∧ cl_inv g' c'.
Proof.
  intros Hc Hm Hwf Hg E Hput. destruct x as [e rn'].
  pose proof (inv_members _ _ Hc _ _ Hm) as Hmb. pose proof (node_ok_spec _ _ (mo_guard _ _ _ Hmb)) as (_ & Hcfg & Ht).
  eapply (RawNode_Step_evolves (cl_grants g i)) in E as (r' & -> & He); [|done|by apply msg_wf_b_spec|].
  - eapply inv_put_node; eauto.
  - apply step_conditions_ok; [apply Hmb|done|]. intros Hty Hrej Hn. destruct (Hg Hty Hrej) as [Hto Hgr].
    apply counted_grant; try done. apply Hmb.
Qed.

Lemma inv_advance g c c' i mb u r' :
  cl_inv g c → cl_members c !! i = Some mb →
  for_each (fun m => _ ← raft_Step m; mret tt) (rn_stepsOnAdvance (mb_node mb)) (rn_raft (mb_node mb)) = Ok (u, r') →
  advance_ok cfg (rn_stepsOnAdvance (mb_node mb)) (rn_raft (mb_node mb)) = true →
  put_node cfg i mb (mkRawNode r' (rn_asyncStorageWrites (mb_node mb)) (rn_prevSoftSt (mb_node mb))
    (rn_prevHardSt (mb_node mb)) []) c = Some c' →
  ∃ g', votes_le g g' ∧ cl_inv g' c'.
Proof.
  intros Hc Hm Es Hok. unfold put_node. destruct (node_ok _ _ _) eqn:Hno; [|done]. intros [= <-].
  pose proof (inv_members _ _ Hc _ _ Hm) as Hmb. replace (cl_net c) with (cl_net c ++ []) by apply app_nil_r.
  apply inv_put; [done| |by apply Forall_nil].
  assert (evolves (cl_grants g i) (rn_raft (mb_node mb)) r') as He.
  { eapply steps_evolve; [done..| | |]; apply Hmb. }
  apply member_evolves in He as [? ? ? ? ? _ ? ?]; [|done..]. by split; [..|apply Forall_nil| |].
Qed.

Lemma cl_inv_step g c c' : cl_inv g c → cl_step cfg c c' → ∃ g', votes_le g g' ∧ cl_inv g' c'.
Proof.
  intros Hc [a E]. destruct a as [conf rands|conf rands peers|i x|i k|i m|i|i|i|i s]; cbn [perform] in E.
  - apply bind_Some in E as (rn & En%from_ok_inv & E). apply NewRawNode_inv in En as (? & ? & ? & ?).
    eapply inv_start; [done..|]. intros. by apply start_ok.
  - destruct (cl_members c !! RaftConfig_ID conf); [done|].
    apply bind_Some in E as (rn & En%from_ok_inv & E). apply NewRawNode_inv in En as (? & ? & ? & ?).
    destruct (IsEmptyHardState _) eqn:Ee; [|done]. apply bind_Some in E as ([y rn'] & Eb%from_ok_inv & E).
    eapply inv_start; [done..|]. intros. by eapply bootstrap_ok.
  - apply bind_Some in E as (mb & Hm & E). apply bind_Some in E as (rn & Er%from_ok_inv & E).
    pose proof (inv_members _ _ Hc _ _ Hm) as Hmb. pose proof (node_ok_spec _ _ (mo_guard _ _ _ Hmb)) as (_ & _ & Ht).
    apply (run_call_evolves (cl_grants g i)) in Er as (r' & -> & He); [|done]. eapply inv_put_node; eauto.
  - apply bind_Some in E as (mb & Hm & E). apply bind_Some in E as (m & Hk & E).
    destruct (_ && _) eqn:Hg; [|done]. apply andb_true_iff in Hg as [Hto Hwf].
    apply bind_Some in E as (x & Ex%from_ok_inv & E). eapply inv_step_message; [done..| |done|done].
    intros _ _. split; [lia|]. apply (inv_net _ _ Hc). by apply list_elem_of_lookup_2 in Hk.
  - apply bind_Some in E as (mb & Hm & E). destruct (_ && _) eqn:Hg; [|done].
    apply andb_true_iff in Hg as [Hn Hwf]. apply bind_Some in E as (x & Ex%from_ok_inv & E).
    eapply inv_step_message; [done..| |done|done]. intros Hty Hrej. unfold grants_vote in Hn. by rewrite Hty, Hrej in Hn.
  - apply bind_Some in E as (mb & Hm & E). apply bind_Some in E as ([mb' out] & Er%from_ok_inv & [= <-]).
    pose proof (inv_members _ _ Hc _ _ Hm) as Hmb. destruct (rn_asyncStorageWrites (mb_node mb)) eqn:Ha.
    + destruct (ready_async_ok _ _ _ _ _ Hmb Ha Er) as [? ?]. by apply inv_put.
    + destruct (ready_sync_ok _ _ _ _ _ Hmb Ha Er) as (h & Hs & ? & ?).
      exists (<[i := h]> g). split; [by apply votes_le_insert|by apply inv_update].
  - apply bind_Some in E as (mb & Hm & E). destruct (advance_ok _ _ _) eqn:Hok; [|done].
    apply bind_Some in E as (rn & Er%from_ok_inv & E). revert Er. unfold RawNode_Advance.
    destruct (rn_asyncStorageWrites (mb_node mb)) eqn:Ha; [done|]. intros ([u r'] & Es & [= <-])%bind_Ok.
    by eapply inv_advance; [..|rewrite Ha; exact E].
  - apply bind_Some in E as (mb & Hm & E). destruct (mb_writes mb) as [|m ws] eqn:Ew; [done|]. injection E as <-.
    pose proof (inv_members _ _ Hc _ _ Hm) as Hmb. destruct (write_ok _ _ _ _ _ Hmb Ew) as (h & Hs & ? & ?).
    exists (<[i := h]> g). split; [by apply votes_le_insert|by apply inv_update].
  - apply bind_Some in E as (mb & Hm & E). eapply inv_put_node; [done..| |exact E].
    intros _. by apply ev_set_log.
Qed.

Lemma cl_inv_init : cl_inv (fun _ => ∅) (cl_init (S:=S)).
Proof. split; [done| |done]. cbn. intros m Hm. by apply elem_of_nil in Hm. Qed.

Lemma cl_inv_steps g c c' : cl_inv g c → rtc (cl_step cfg) c c' → ∃ g', votes_le g g' ∧ cl_inv g' c'.
Proof.
  intros Hc Hs. revert g Hc. induction Hs as [c|c c1 c2 H1 _ IH]; intros g Hc; [by exists g|].
  destruct (cl_inv_step _ _ _ Hc H1) as (g1 & Hle1 & Hc1). destruct (IH _ Hc1) as (g2 & Hle2 & Hc2).
  exists g2. split; [by trans g1|done].
Qed.

Lemma inv_leads g c i t : cl_inv g c → leads c i t → elected g i t.
Proof. intros Hc (mb & Hm & Hl & <-). by apply (inv_members _ _ Hc _ _ Hm). Qed.

End invariant.

Fixpoint performs (cfg : JointConfig) {S} `{Protobuf} `{!Storage S} (acts : list (action S)) (c : cluster S) :
    option (cluster S) :=
  match acts with
  | [] => Some c
  | a :: acts => c' ← perform cfg a c; performs cfg acts c'
  end.

Lemma performs_rtc {S} `{Protobuf} `{!Storage S} cfg acts (c c' : cluster S) :
  performs cfg acts c = Some c' → rtc (cl_step cfg) c c'.
Proof.
  revert c. induction acts as [|a acts IH]; intros c; cbn; [by intros [= ->]|].
  intros (c1 & E & E1)%bind_Some. eapply rtc_l; [by exists a|auto].
Qed.

(** C4. Election safety: in a cluster with a fixed configuration, whatever
    messages are lost, duplicated, reordered or forged (short of granted votes)
    and whenever nodes crash and restart from what they have stored, two nodes
    that lead the same term, even at different times, are the same node.  Both
    storage modes are allowed, also mixed. *)
Theorem election_safety {S} `{Protobuf} `{!Storage S} (cfg : JointConfig) (c1 c2 : cluster S) i j term :
  cfg.1 ≠ ∅ →
  rtc (cl_step cfg) cl_init c1 → leads c1 i term →
  rtc (cl_step cfg) c1 c2 → leads c2 j term →
  i = j.
Proof.
  intros Hcfg H1 L1 H2 L2. destruct (cl_inv_steps cfg _ _ _ (cl_inv_init cfg) H1) as (g1 & _ & I1).
  destruct (cl_inv_steps cfg _ _ _ I1 H2) as (g2 & Hle & I2).
  eapply elected_unique; [done| |by eapply inv_leads]. eapply elected_mono; [done|by eapply inv_leads].
Qed.

(** ** Roles in the cluster *)

Section roles.
Context {S : Type} `{Protobuf, !ProtobufLaws _} `{!Storage S} `{!StorageLaws S}.
Context (cfg : JointConfig).
Implicit Types (r : raft S) (rn : RawNode S) (mb : host S) (c : cluster S).

Definition roles_in_order c : Prop := ∀ i mb, cl_members c !! i = Some mb → coherent (rn_raft (mb_node mb)).

Lemma on_raft_coherent {A} (m : RM S A) rn x rn' :
  on_raft m rn = Ok (x, rn') → rel coh m → coherent (rn_raft rn) → coherent (rn_raft rn').
Proof. intros (r' & E & ->)%on_raft_inv Hm. exact (Hm _ _ _ E). Qed.

Lemma run_call_coherent x rn rn' : run_call x rn = Ok rn' → coherent (rn_raft rn) → coherent (rn_raft rn').
Proof.
  intros E. destruct x; cbn [run_call] in E; apply bind_Ok in E as ([y rn1] & E & [= <-]);
    (eapply on_raft_coherent; [exact E|]); clear E.
  1: apply coh_run_tick.
  1: by apply coh_modify.
  2: apply rel_bind; [apply _|apply rel_get, _|intros].
  4: apply coh_applyConfChange.
  all: apply coh_Step.
Qed.

Lemma RawNode_Step_coherent m rn x rn' :
  RawNode_Step m rn = Ok (x, rn') → coherent (rn_raft rn) → coherent (rn_raft rn').
Proof.
  unfold RawNode_Step. intros E. destruct (_ && _) in E; [by injection E as _ <-|].
  destruct (_ && _ && _) in E; [by injection E as _ <-|]. eapply on_raft_coherent; [exact E|apply coh_Step].
Qed.

Lemma NewRawNode_coherent (conf : RaftConfig S) rands rn : NewRawNode conf rands = Ok rn → coherent (rn_raft rn).
Proof. unfold NewRawNode. intros (r & E & [= <-])%bind_Ok. by eapply newRaft_coherent. Qed.

Lemma Bootstrap_coherent peers rn x rn' :
  RawNode_Bootstrap peers rn = Ok (x, rn') → coherent (rn_raft rn) → coherent (rn_raft rn').
Proof.
  unfold RawNode_Bootstrap. intros E. destruct (_ =? 0); [by injection E as _ <-|].
  destruct (st_LastIndex _); [|by injection E as _ <-]. destruct (negb _); [by injection E as _ <-|].
  apply bind_Ok in E as ([u r'] & E & [= _ <-]). cbn. assert (rel coh (Bootstrap_raft (S:=S) peers)) as Hb; [|exact (Hb _ _ _ E)].
  unfold Bootstrap_raft. apply rel_bind; [apply _|apply coh_quiet, quiet_becomeFollower|]. intros _.
  apply rel_bind; [apply _|apply coh_on_log|]. intros _. apply rel_bind; [apply _|by apply coh_modify|]. intros _.
  apply rel_for_each; [apply _|]. intros p. apply rel_bind; [apply _|apply coh_applyConfChange|]. intros. apply rel_ret, _.
Qed.

Lemma acceptReady_coherent rd rn rn' :
  RawNode_acceptReady rd rn = Ok rn' → coherent (rn_raft rn) → coherent (rn_raft rn').
Proof.
  unfold RawNode_acceptReady. intros (steps & _ & E)%bind_Ok. apply bind_Ok in E as (r' & Er & [= <-]).
  cbn [rn_raft]. apply roles_coherent. revert Er. generalize (last (Ready_CommittedEntries rd)).
  intros [e|]; [intros (l & _ & [= <-])%bind_Ok|intros [= <-]]; by destruct (negb _).
Qed.

Lemma ready_member_coherent mb x :
  ready_member mb = Ok x → coherent (rn_raft (mb_node mb)) → coherent (rn_raft (mb_node x.1)).
Proof.
  intros ([rd rn] & E & E')%bind_Ok Hc. apply bind_Ok in E as (rd1 & _ & E).
  apply bind_Ok in E as (rn1 & E & [= <- <-]). apply acceptReady_coherent in E; [|done].
  destruct (rn_asyncStorageWrites rn1); by injection E' as <-.
Qed.

Lemma Advance_coherent rn rn' : RawNode_Advance rn = Ok rn' → coherent (rn_raft rn) → coherent (rn_raft rn').
Proof.
  unfold RawNode_Advance. destruct (rn_asyncStorageWrites rn); [done|]. intros ([u r'] & E & [= <-])%bind_Ok.
  assert (rel coh (for_each (fun m => _ ← raft_Step (S:=S) m; mret tt) (rn_stepsOnAdvance rn))) as Hm; [|exact (Hm _ _ _ E)].
  apply rel_for_each; [apply _|]. intros m. apply rel_bind; [apply _|apply coh_Step|]. intros. apply rel_ret, _.
Qed.

(** One node changes. *)
Lemma roles_insert i mb c net :
  roles_in_order c → coherent (rn_raft (mb_node mb)) → roles_in_order (mkcluster (<[i := mb]> (cl_members c)) net).
Proof.
  intros Hc Hm j mb'. cbn. destruct (decide (j = i)) as [->|]; [rewrite lookup_insert_eq; by intros [= <-]|].
  rewrite lookup_insert_ne by done. apply Hc.
Qed.

Lemma roles_put i mb rn c c' :
  put_node cfg i mb rn c = Some c' → roles_in_order c → coherent (rn_raft rn) → roles_in_order c'.
Proof. unfold put_node. destruct (node_ok _ _ _); [|done]. intros [= <-] ? ?. by apply roles_insert. Qed.

Lemma roles_start i hs rn c c' :
  start_node cfg i hs rn c = Some c' → roles_in_order c → coherent (rn_raft rn) → roles_in_order c'.
Proof. unfold start_node. destruct (_ && _); [|done]. intros [= <-] ? ?. by apply roles_insert. Qed.

Lemma roles_step c c' : cl_step cfg c c' → roles_in_order c → roles_in_order c'.
Proof.
  intros [a E] Hc. destruct a as [conf rands|conf rands peers|i x|i k|i m|i|i|i|i s]; cbn [perform] in E.
  - apply bind_Some in E as (rn & En%from_ok_inv & E). eapply roles_start; [done..|]. by eapply NewRawNode_coherent.
  - destruct (cl_members c !! RaftConfig_ID conf); [done|].
    apply bind_Some in E as (rn & En%from_ok_inv & E). destruct (IsEmptyHardState _); [|done].
    apply bind_Some in E as ([y rn'] & Eb%from_ok_inv & E). eapply roles_start; [done..|].
    eapply Bootstrap_coherent; [done|]. by eapply NewRawNode_coherent.
  - apply bind_Some in E as (mb & Hm & E). apply bind_Some in E as (rn & Er%from_ok_inv & E).
    eapply roles_put; [done..|]. eapply run_call_coherent; [done|by eapply Hc].
  - apply bind_Some in E as (mb & Hm & E). apply bind_Some in E as (m & Hk & E). destruct (_ && _); [|done].
    apply bind_Some in E as ([e rn] & Ex%from_ok_inv & E). eapply roles_put; [done..|].
    eapply RawNode_Step_coherent; [done|by eapply Hc].
  - apply bind_Some in E as (mb & Hm & E). destruct (_ && _); [|done].
    apply bind_Some in E as ([e rn] & Ex%from_ok_inv & E). eapply roles_put; [done..|].
    eapply RawNode_Step_coherent; [done|by eapply Hc].
  - apply bind_Some in E as (mb & Hm & E). apply bind_Some in E as (x & Er%from_ok_inv & [= <-]).
    apply roles_insert; [done|]. eapply ready_member_coherent; [done|by eapply Hc].
  - apply bind_Some in E as (mb & Hm & E). destruct (advance_ok _ _ _); [|done].
    apply bind_Some in E as (rn & Er%from_ok_inv & E). eapply roles_put; [done..|].
    eapply Advance_coherent; [done|by eapply Hc].
  - apply bind_Some in E as (mb & Hm & E). destruct (mb_writes mb); [done|]. injection E as <-.
    apply roles_insert; [done|]. exact (Hc _ _ Hm).
  - apply bind_Some in E as (mb & Hm & E). eapply roles_put; [done..|].
    eapply (roles_coherent (rn_raft (mb_node mb))); [done|exact (Hc _ _ Hm)].
Qed.

(** C11. In every reachable cluster each node is of one piece: a follower steps
    and ticks as a follower, a candidate knows no leader, and a leader steps as a
    leader, sends heartbeats and takes itself for the leader. *)
Theorem nodes_in_order c i mb :
  rtc (cl_step cfg) cl_init c → cl_members c !! i = Some mb → coherent (rn_raft (mb_node mb)).
Proof.
  intros Hs. revert i mb. change (roles_in_order c).
  assert (roles_in_order cl_init) as H0 by (intros j mb E; discriminate E). revert H0. induction Hs as [|c0 c1 c2 H1 _ IH]; [done|].
  intros H0. by apply IH, (roles_step _ _ H1).
Qed.

End roles.

(** ** An election *)

#[local] Existing Instances sample_Protobuf sample_ProtobufLaws.

Definition ex_conf (id : Z) (async : bool) : RaftConfig MemoryStorage :=
  mkRaftConfig id 10 1 (Some ex_node_storage) 0 async noLimit 0 0 256 0 false false ReadOnlySafe
    false false false.

Definition ex_cfg : JointConfig := ({[1; 2; 3]}, ∅).

(** Node 1 campaigns, its vote requests reach node 2 after a crash of that node,
    and the vote of node 2, stored by its append thread, elects node 1. *)
Definition ex_election : list (action MemoryStorage) :=
  [AStart (ex_conf 1 false) []; AStart (ex_conf 2 true) []; AStart (ex_conf 3 true) [];
   ACall 1 CCampaign; AReady 1; AStart (ex_conf 2 true) []; ADeliver 2 0; AAdvance 1;
   AReady 2; AWrite 2; ADeliver 1 3].

(** Node 2 crashes after that, and node 3 answers the vote request too late. *)
Definition ex_next : list (action MemoryStorage) :=
  [AReady 1; AStart (mkRaftConfig 2 10 1 (Some (ms_SetHardState (Some (mkHardState (Some 3) (Some 1) (Some 7)))
       ex_node_storage)) 0 false noLimit 0 0 256 0 false false ReadOnlySafe false false false) [];
   ADeliver 3 1; AReady 3; AWrite 3; ADeliver 1 3].

Definition ex_cluster (acts : list (action MemoryStorage)) : cluster MemoryStorage :=
  default cl_init (performs ex_cfg acts cl_init).

Definition ex_elected : cluster MemoryStorage := ex_cluster ex_election.

Definition ex_later : cluster MemoryStorage := default cl_init (performs ex_cfg ex_next ex_elected).

Lemma ex_elected_run : performs ex_cfg ex_election cl_init = Some ex_elected.
Proof. vm_compute. reflexivity. Qed.

Lemma ex_later_run : performs ex_cfg ex_next ex_elected = Some ex_later.
Proof. vm_compute. reflexivity. Qed.

Lemma leads_check (c : cluster MemoryStorage) i t :
  match cl_members c !! i with
  | Some mb => bool_decide (raft_state (rn_raft (mb_node mb)) = StateLeader) && (raft_Term (rn_raft (mb_node mb)) =? t)
  | None => false
  end = true → leads c i t.
Proof.
  destruct (cl_members c !! i) as [mb|] eqn:E; [|done]. rewrite andb_true_iff, bool_decide_eq_true.
  intros [? ?]. exists mb. split_and!; [done..|lia].
Qed.

Lemma election_safety_witness : ∃ i j, leads ex_elected i 3 ∧ leads ex_later j 3 ∧ i = j.
Proof.
  assert (leads ex_elected 1 3) as L1 by (apply leads_check; vm_compute; reflexivity).
  assert (leads ex_later 1 3) as L2 by (apply leads_check; vm_compute; reflexivity).
  exists 1, 1. split; [exact L1|]. split; [exact L2|].
  apply (election_safety ex_cfg ex_elected ex_later 1 1 3); [|apply (performs_rtc _ _ _ _ ex_elected_run)|exact L1
    |apply (performs_rtc _ _ _ _ ex_later_run)|exact L2].
  apply (bool_decide_unpack _). vm_compute. exact I.
Defined.

Lemma nodes_in_order_witness :
  ∃ mb, cl_members ex_elected !! 1 = Some mb ∧ raft_state (rn_raft (mb_node mb)) = StateLeader ∧
    coherent (rn_raft (mb_node mb)).
Proof.
  destruct (cl_members ex_elected !! 1) as [mb|] eqn:E; [|vm_compute in E; discriminate E].
  exists mb. split; [reflexivity|]. split.
  - vm_compute in E. injection E as <-. reflexivity.
  - exact (nodes_in_order ex_cfg ex_elected 1 mb (performs_rtc _ _ _ _ ex_elected_run) E).
Defined.

(** ** Asynchronous writes and the durability of a term

    With asynchronous writes the vote requests of a candidate and the appends of
    a new leader are sent without waiting for the write that makes its term
    durable; only its own vote waits.  The application below does what doc.go
    asks of it: it sends messages at once, and its append thread saves entries
    and hard state before it sends the responses. *)

Inductive app_step : Type :=
  | Do (a : action MemoryStorage)
  | Save (i : Z).   (* the append thread of node [i] handles its next message *)

Definition saved (i : Z) (c : cluster MemoryStorage) : option MemoryStorage :=
  mb ← cl_members c !! i;
  m ← head (mb_writes mb);
  s ← from_ok (ms_Append (Message_GetEntries m) (raftLog_storage (raft_raftLog (rn_raft (mb_node mb)))));
  Some (ms_SetHardState (stored_by m (mb_disk mb)) s).

Definition app_event (e : app_step) (c : cluster MemoryStorage) : option (cluster MemoryStorage) :=
  match e with
  | Do a => perform ex_cfg a c
  | Save i => s ← saved i c; performs ex_cfg [AStorage i s; AWrite i] c
  end.

Fixpoint app_events (es : list app_step) (c : cluster MemoryStorage) : option (cluster MemoryStorage) :=
  match es with
  | [] => Some c
  | e :: es => c' ← app_event e c; app_events es c'
  end.

(** Nodes 2 and 3 elect node 1, whose own write is still under way; it
    replicates an entry with data "x" to node 2. *)
Definition first_reign : list app_step :=
  [Do (AStart (ex_conf 1 true) []); Do (AStart (ex_conf 2 true) []); Do (AStart (ex_conf 3 true) []);
   Do (ACall 1 CCampaign); Do (AReady 1);
   Do (ADeliver 2 0); Do (AReady 2); Save 2; Do (ADeliver 3 1); Do (AReady 3); Save 3;
   Do (ADeliver 1 4); Do (ADeliver 1 6); Do (ACall 1 (CPropose (Some [Byte.x78]))); Do (AReady 1);
   Do (ADeliver 2 7); Do (AReady 2); Save 2; Do (ADeliver 1 9); Do (ADeliver 2 10); Do (AReady 1);
   Do (ADeliver 2 11); Do (AReady 2); Save 2].

(** Node 1 crashes, campaigns in the same term again, and is elected by itself
    and node 3; it replicates an entry with data "y". *)
Definition second_reign : list app_step :=
  [Do (AStart (ex_conf 1 true) []); Do (ACall 1 CCampaign); Do (AReady 1); Save 1;
   Do (ADeliver 3 15); Do (AReady 3); Save 3; Do (ADeliver 1 17); Do (ADeliver 1 18);
   Do (ACall 1 (CPropose (Some [Byte.x79]))); Do (AReady 1); Save 1;
   Do (ADeliver 1 21); Do (ADeliver 1 22); Do (ADeliver 1 23); Do (ADeliver 2 13);
   Do (ADeliver 2 19); Do (AReady 2); Save 2; Do (ADeliver 1 24); Do (AReady 1);
   Do (ADeliver 2 25); Do (AReady 2); Save 2; Do (ADeliver 1 28); Do (AReady 1); Do (ADeliver 2 29)].

(** The data of the entry at an index, if it is committed at node [i]. *)
Definition committed_data (c : cluster MemoryStorage) (i index : Z) : option (option bytes) :=
  mb ← cl_members c !! i;
  let l := raft_raftLog (rn_raft (mb_node mb)) in
  if index <=? raftLog_committed l then Entry_Data <$> slog_at (log_view l) index else None.

(** C13. With asynchronous storage writes a term can be led twice and committed
    entries can differ.  In a run in which every node follows the documented
    contract, no message is forged or delivered twice and one node restarts
    once, node 1 leads term 3 before its term is durable, restarts, leads term 3
    again, and nodes 1 and 2 end with different committed entries at index 10. *)
Theorem async_writes_diverge :
  ∃ c1 c2, app_events first_reign cl_init = Some c1 ∧ leads c1 1 3 ∧
    app_events second_reign c1 = Some c2 ∧ leads c2 1 3 ∧
    committed_data c2 1 10 = Some (Some [Byte.x79]) ∧ committed_data c2 2 10 = Some (Some [Byte.x78]).
Proof.
  exists (default cl_init (app_events first_reign cl_init)),
    (default cl_init (app_events (first_reign ++ second_reign) cl_init)).
  split_and!; try (apply leads_check); vm_compute; reflexivity.
Qed.
