(* ===== verification/RaftLimit.v ===== *)
(** * A size limit of zero

    The methods of src/raft.go change the log of a node only in three ways: they
    set its unstable part, its commit index, and what has been applied.  So a
    property of the log that these keep is kept by a node.  With it: a node whose
    limits for the size of messages and of committed entries are 0, which the
    documentation of src/raft.go allows, never hands out an entry to apply. *)
From S2P Require Import Prelude Proto Quorum Inflights Progress Tracker Util Storage.
From S2P Require Import Unstable Log ConfChange ReadOnly Raft RaftStep RaftRel RaftSafety RawNode Cluster.

Section log_keeps.
Context {S : Type} `{Protobuf} `{!Storage S}.
Context (P : raftLog S → Prop).
Hypothesis P_unstable : ∀ u l, P l → P (set_raftLog_unstable u l).
Hypothesis P_committed : ∀ c l, P l → P (set_raftLog_committed c l).
Hypothesis P_applied : ∀ i n l l', raftLog_appliedTo i n l = Ok l' → 0 <= n → P l → P l'.
Implicit Types r : raft S.

Definition keeps_log r r' : Prop := P (raft_raftLog r) → P (raft_raftLog r').

#[export] Instance keeps_log_preorder : PreOrder keeps_log.
Proof. split; unfold keeps_log; [by intros r|auto]. Qed.

Lemma keeps_modify f : (∀ r, raft_raftLog (f r) = raft_raftLog r) → rel keeps_log (modify f).
Proof. intros Hf. apply rel_modify. intros r. unfold keeps_log. by rewrite Hf. Qed.
Hint Extern 2 (rel keeps_log (modify _)) => apply keeps_modify; done : rel.

(** ** Operations of the log *)

Lemma keeps_commitTo i : rel keeps_log (on_log_ (raftLog_commitTo i)).
Proof.
  apply rel_on_log_. intros r l. unfold raftLog_commitTo, keeps_log. zcase; [|by intros [= <-]].
  intros (last & _ & E)%bind_Ok. destruct (_ <? _); [done|]. injection E as <-. apply P_committed.
Qed.

Lemma keeps_maybeCommit_log id : rel keeps_log (on_log (raftLog_maybeCommit id)).
Proof.
  apply rel_on_log. intros r b l E. unfold raftLog_maybeCommit in E. apply bind_Ok in E as (ok & _ & E).
  destruct ok; [|injection E as _ <-; by intros Hp]. apply bind_Ok in E as (l1 & E1 & [= _ <-]).
  exact (keeps_commitTo _ r tt _ (on_log__run _ r _ E1)).
Qed.

Lemma append_keeps ents l x l' : raftLog_append ents l = Ok (x, l') → P l → P l'.
Proof.
  unfold raftLog_append. destruct ents as [|e ents]; [by intros (last & _ & [= _ <-])%bind_Ok|].
  destruct (_ <? _); [done|]. intros (u & _ & E)%bind_Ok. apply bind_Ok in E as (last & _ & [= _ <-]). apply P_unstable.
Qed.

Lemma keeps_append ents : rel keeps_log (on_log (raftLog_append ents)).
Proof. apply rel_on_log. intros r x l E. exact (append_keeps _ _ _ _ E). Qed.

Lemma keeps_maybeAppend a c : rel keeps_log (on_log (raftLog_maybeAppend a c)).
Proof.
  apply rel_on_log. intros r x l E Hp. change (P (raft_raftLog (set_raft_raftLog l r))). cbn.
  unfold raftLog_maybeAppend in E. apply bind_Ok in E as (m & _ & E). destruct (negb m); [by injection E as _ <-|].
  apply bind_Ok in E as (ci & _ & E). apply bind_Ok in E as (l1 & E1 & E).
  assert (P l1) as Hp1.
  { destruct (_ =? 0); [by injection E1 as <-|]. destruct (_ <=? _); [done|]. destruct (_ <? _); [done|].
    apply bind_Ok in E1 as (es & _ & E1). apply bind_Ok in E1 as ([y l2] & E1 & [= <-]). exact (append_keeps _ _ _ _ E1 Hp). }
  apply bind_Ok in E as (l2 & E2 & [= _ <-]).
  exact (keeps_commitTo _ (set_raft_raftLog l1 r) tt _ (on_log__run _ (set_raft_raftLog l1 r) _ E2) Hp1).
Qed.

Lemma keeps_stableTo id : rel keeps_log (on_log_ (raftLog_stableTo id)).
Proof. apply rel_on_log_. intros r l (u & _ & [= <-])%bind_Ok. intros Hp. by apply P_unstable. Qed.

Lemma keeps_appliedTo i n : 0 <= n → rel keeps_log (on_log_ (raftLog_appliedTo i n)).
Proof. intros Hn. apply rel_on_log_. intros r l E. exact (P_applied _ _ _ _ E Hn). Qed.

Lemma keeps_restore s : rel keeps_log (modify (fun r => set_raft_raftLog (raftLog_restore s (raft_raftLog r)) r)).
Proof. apply rel_modify. intros r Hp. by apply P_unstable, P_committed. Qed.

Lemma keeps_stableSnapTo i : rel keeps_log (modify (fun r => set_raft_raftLog (raftLog_stableSnapTo i (raft_raftLog r)) r)).
Proof. apply rel_modify. intros r Hp. by apply P_unstable. Qed.

Lemma keeps_set_committed c :
  rel keeps_log (modify (fun r => set_raft_raftLog (set_raftLog_committed c (raft_raftLog r)) r)).
Proof. apply rel_modify. intros r Hp. by apply P_committed. Qed.
Hint Resolve keeps_commitTo keeps_maybeCommit_log keeps_append keeps_maybeAppend keeps_stableTo keeps_restore
  keeps_stableSnapTo keeps_set_committed : rel.

(** ** Methods *)

Lemma keeps_get_pr id : rel keeps_log (get_pr id).
Proof. unfold get_pr. rel_auto. Qed.

Lemma keeps_put_pr id pr : rel keeps_log (put_pr id pr).
Proof. by apply keeps_modify. Qed.
Hint Resolve keeps_get_pr keeps_put_pr : rel.

Lemma keeps_modify_pr id f : rel keeps_log (modify_pr id f).
Proof. unfold modify_pr. rel_auto. Qed.
Hint Resolve keeps_modify_pr : rel.

Lemma keeps_send m : rel keeps_log (raft_send m).
Proof. unfold raft_send. rel_auto. Qed.
Hint Resolve keeps_send : rel.

Lemma keeps_maybeSendAppend to b : rel keeps_log (raft_maybeSendAppend to b).
Proof. unfold raft_maybeSendAppend, raft_maybeSendSnapshot. rel_auto. Qed.
Hint Resolve keeps_maybeSendAppend : rel.

Lemma keeps_sendAppend to : rel keeps_log (raft_sendAppend to).
Proof. unfold raft_sendAppend. rel_auto. Qed.

Lemma keeps_sendHeartbeat to ctx : rel keeps_log (raft_sendHeartbeat to ctx).
Proof. unfold raft_sendHeartbeat. rel_auto. Qed.
Hint Resolve keeps_sendAppend keeps_sendHeartbeat : rel.


Lemma keeps_bcastAppend : rel keeps_log raft_bcastAppend.
Proof. unfold raft_bcastAppend. rel_auto. Qed.

Lemma keeps_bcastHeartbeatWithCtx ctx : rel keeps_log (raft_bcastHeartbeatWithCtx ctx).
Proof. unfold raft_bcastHeartbeatWithCtx. rel_auto. Qed.
Hint Resolve keeps_bcastHeartbeatWithCtx : rel.

Lemma keeps_bcastHeartbeat : rel keeps_log raft_bcastHeartbeat.
Proof. unfold raft_bcastHeartbeat. rel_auto. Qed.

Lemma keeps_maybeCommit : rel keeps_log raft_maybeCommit.
Proof. unfold raft_maybeCommit. rel_auto. Qed.

Lemma keeps_appendEntry es : rel keeps_log (raft_appendEntry es).
Proof. unfold raft_appendEntry, raft_increaseUncommittedSize. rel_auto. Qed.

Lemma keeps_reset term : rel keeps_log (raft_reset term).
Proof. unfold raft_reset, raft_resetRandomizedElectionTimeout, Intn, reset_progress, raft_abortLeaderTransfer. rel_auto. Qed.
Hint Resolve keeps_bcastAppend keeps_bcastHeartbeat keeps_maybeCommit keeps_appendEntry keeps_reset : rel.

Lemma keeps_becomeFollower term lead : rel keeps_log (raft_becomeFollower term lead).
Proof. unfold raft_becomeFollower. rel_auto. Qed.

Lemma keeps_becomeCandidate : rel keeps_log raft_becomeCandidate.
Proof. unfold raft_becomeCandidate. rel_auto. Qed.

Lemma keeps_becomePreCandidate : rel keeps_log raft_becomePreCandidate.
Proof. unfold raft_becomePreCandidate. rel_auto. Qed.

Lemma keeps_becomeLeader : rel keeps_log raft_becomeLeader.
Proof. unfold raft_becomeLeader. rel_auto. Qed.
Hint Resolve keeps_becomeFollower keeps_becomeCandidate keeps_becomePreCandidate keeps_becomeLeader : rel.

Lemma keeps_campaign t : rel keeps_log (raft_campaign t).
Proof. unfold raft_campaign, campaign_send. rel_auto. Qed.
Hint Resolve keeps_campaign : rel.

Lemma keeps_hup t : rel keeps_log (raft_hup t).
Proof. unfold raft_hup, raft_hasUnappliedConfChanges. rel_auto. Qed.

Lemma keeps_poll id v : rel keeps_log (raft_poll id v).
Proof. unfold raft_poll. rel_auto. Qed.

Lemma keeps_answer_read req i : rel keeps_log (answer_read req i).
Proof. unfold answer_read, raft_responseToReadIndexReq. rel_auto. Qed.
Hint Resolve keeps_hup keeps_poll keeps_answer_read : rel.

Lemma keeps_sendMsgReadIndexResponse m : rel keeps_log (sendMsgReadIndexResponse m).
Proof. unfold sendMsgReadIndexResponse. rel_auto. Qed.
Hint Resolve keeps_sendMsgReadIndexResponse : rel.

Lemma keeps_releasePending : rel keeps_log releasePendingReadIndexMessages.
Proof. unfold releasePendingReadIndexMessages, raft_committedEntryInCurrentTerm. rel_auto. Qed.

Lemma keeps_switchToConfig cfg trk : rel keeps_log (raft_switchToConfig cfg trk).
Proof. unfold raft_switchToConfig, raft_abortLeaderTransfer. rel_auto. Qed.
Hint Resolve keeps_releasePending keeps_switchToConfig : rel.

Lemma keeps_handleSnapshot m : rel keeps_log (raft_handleSnapshot m).
Proof. unfold raft_handleSnapshot, raft_restore. rel_auto. Qed.
Hint Resolve keeps_handleSnapshot : rel.

Lemma keeps_stepFollower m : rel keeps_log (stepFollower m).
Proof. unfold stepFollower, forward_to_leader, hear_leader, raft_handleAppendEntries, raft_handleHeartbeat. rel_auto. Qed.

Lemma keeps_stepCandidate m : rel keeps_log (stepCandidate m).
Proof. unfold stepCandidate, stepCandidate_vote, raft_handleAppendEntries, raft_handleHeartbeat. rel_auto. Qed.

Lemma keeps_send_all_loop n to : rel keeps_log (send_all_loop n to).
Proof. induction n as [|n IH]; cbn [send_all_loop]; rel_auto. Qed.

Lemma keeps_check_prop_entries i es : rel keeps_log (check_prop_entries i es).
Proof. revert i. induction es as [|e es IH]; intros i; cbn [check_prop_entries]; unfold check_prop_entry; rel_auto. Qed.
Hint Resolve keeps_stepFollower keeps_stepCandidate keeps_send_all_loop keeps_check_prop_entries : rel.

Lemma keeps_stepLeader m : rel keeps_log (stepLeader m).
Proof.
  assert (rel keeps_log (stepLeader_AppResp_accept m)) as H1 by (unfold stepLeader_AppResp_accept, stepLeader_AppResp_state, send_all, raft_sendTimeoutNow; rel_auto).
  assert (rel keeps_log (stepLeader_AppResp_reject m)) as H2 by (unfold stepLeader_AppResp_reject; rel_auto).
  assert (rel keeps_log (stepLeader_Prop m)) as H3 by (unfold stepLeader_Prop; rel_auto).
  unfold stepLeader, with_sender, stepLeader_AppResp, stepLeader_ReadIndex, raft_committedEntryInCurrentTerm,
    stepLeader_CheckQuorum, stepLeader_SnapStatus, stepLeader_Unreachable, stepLeader_HeartbeatResp,
    stepLeader_TransferLeader, raft_sendTimeoutNow, raft_abortLeaderTransfer.
  rel_auto.
Qed.

Lemma entsSize_nonneg ents : 0 <= entsSize ents.
Proof.
  unfold entsSize. assert (∀ s, 0 <= s → 0 <= foldl (fun size e => size +! proto_Size e) s ents) as Hg; [|by apply Hg].
  induction ents as [|e es IH]; intros s Hs; [done|]. apply IH, add64_u64.
Qed.
Hint Resolve keeps_stepLeader : rel.

Lemma keeps_Step_with rec m : rel keeps_log (rec (confChangeToMsg None)) → rel keeps_log (Step_with rec m).
Proof.
  intros Hrec. assert (∀ i n, 0 <= n → rel keeps_log (raft_appliedTo_with rec i n)) as Ha.
  { intros i n Hn. pose proof (λ i, keeps_appliedTo i n Hn). unfold raft_appliedTo_with. rel_auto. }
  assert (∀ s, rel keeps_log (raft_appliedSnap_with rec s)) as Hs.
  { intros s. unfold raft_appliedSnap_with. rel_auto. by apply Ha. }
  assert (∀ i, rel keeps_log (raft_appliedTo_with rec i (entsSize (Message_GetEntries m)))) as He
    by (intros i; apply Ha, entsSize_nonneg).
  unfold Step_with, Step_dispatch, Step_lower_term, Step_higher_term, run_step, Step_Vote, Step_StorageAppendResp,
    Step_StorageApplyResp, raft_reduceUncommittedSize. rel_auto.
Qed.

Lemma keeps_Step m : rel keeps_log (raft_Step m).
Proof. apply keeps_Step_with, keeps_Step_with, rel_panic. Qed.
Hint Resolve keeps_Step : rel.

Lemma keeps_run_tick : rel keeps_log raft_run_tick.
Proof. unfold raft_run_tick, raft_tickElection, raft_tickHeartbeat, raft_abortLeaderTransfer. rel_auto. Qed.

Lemma keeps_applyConfChange cc : rel keeps_log (raft_applyConfChange cc).
Proof. unfold raft_applyConfChange. rel_auto. Qed.
Hint Resolve keeps_run_tick keeps_applyConfChange : rel.

Lemma keeps_newRaft_init (c : RaftConfig S) hs cs : rel keeps_log (newRaft_init c hs cs).
Proof. pose proof (λ i, keeps_appliedTo i 0 ltac:(lia)). unfold newRaft_init, raft_loadState. rel_auto. Qed.

Lemma keeps_Bootstrap peers : rel keeps_log (Bootstrap_raft peers).
Proof. unfold Bootstrap_raft. rel_auto. Qed.

Lemma keeps_on_raft {A} (m : RM S A) rn x rn' :
  on_raft m rn = Ok (x, rn') → rel keeps_log m → keeps_log (rn_raft rn) (rn_raft rn').
Proof. intros (r' & E & ->)%on_raft_inv Hm. exact (Hm _ _ _ E). Qed.

Lemma keeps_call x rn rn' : run_call x rn = Ok rn' → keeps_log (rn_raft rn) (rn_raft rn').
Proof.
  intros E. destruct x; cbn [run_call] in E; apply bind_Ok in E as ([y rn1] & E & [= <-]);
    (eapply keeps_on_raft; [exact E|]); clear E; rel_auto.
Qed.

Lemma keeps_steps ms : rel keeps_log (for_each (fun m => _ ← raft_Step m; mret tt) ms).
Proof. rel_auto. Qed.

End log_keeps.

(** ** Runs of an application *)

(** What an application does with a node, in any order: the methods of
    [RawNode], messages, and changes of the storage that it shares with the
    node. *)
Inductive app_op (S : Type) : Type :=
  | OCall (x : call)
  | OMessage (m : Message)
  | OReady
  | OAdvance
  | OBootstrap (peers : list Peer)
  | OStorage (s : S).
Arguments OCall {S} _.
Arguments OMessage {S} _.
Arguments OReady {S}.
Arguments OAdvance {S}.
Arguments OBootstrap {S} _.
Arguments OStorage {S} _.

Section runs.
Context {S : Type} `{Protobuf} `{!Storage S}.
Implicit Types (r : raft S) (rn : RawNode S) (l : raftLog S).

Definition run_op (o : app_op S) rn : outcome (RawNode S) :=
  match o with
  | OCall x => run_call x rn
  | OMessage m => x ← RawNode_Step m rn; Ok x.2
  | OReady => x ← RawNode_Ready rn; Ok x.2
  | OAdvance => RawNode_Advance rn
  | OBootstrap peers => x ← RawNode_Bootstrap peers rn; Ok x.2
  | OStorage s =>
      Ok (set_rn_raft (set_raft_raftLog (set_raftLog_storage s (raft_raftLog (rn_raft rn))) (rn_raft rn)) rn)
  end.

Fixpoint run_ops (os : list (app_op S)) rn : outcome (RawNode S) :=
  match os with
  | [] => Ok rn
  | o :: os => rn ← run_op o rn; run_ops os rn
  end.

Definition zero_limit l : Prop := raftLog_maxApplyingEntsSize l = 0 ∧ raftLog_applyingEntsSize l = 0.

Lemma zero_limit_applied i n l l' : raftLog_appliedTo i n l = Ok l' → 0 <= n → zero_limit l → zero_limit l'.
Proof.
  unfold raftLog_appliedTo. destruct (_ || _); [done|]. intros [= <-] Hn [Hm Hs]. cbn. rewrite Hs.
  rewrite (proj2 (Z.ltb_ge _ _)) by done. by split.
Qed.

Abbreviation keeps_zero := (keeps_log (S := S) zero_limit).

(** Nothing is handed out to apply, and what is due makes the node panic. *)
Lemma zero_limit_committed allow l :
  zero_limit l → raftLog_nextCommittedEnts allow l = Ok [] ∧ raftLog_hasNextCommittedEnts allow l = false ∨
    (∃ why, raftLog_nextCommittedEnts allow l = Panic why) ∧ raftLog_hasNextCommittedEnts allow l = true.
Proof.
  intros [Hm Hs]. unfold raftLog_nextCommittedEnts, raftLog_hasNextCommittedEnts. rewrite Hm, Hs.
  destruct (raftLog_applyingEntsPaused l); [by left|]. destruct (raftLog_hasNextOrInProgressSnapshot l); [by left|].
  cbv zeta. destruct (Z.leb_spec (raftLog_maxAppliableIndex allow l +! 1) (raftLog_applying l +! 1)).
  - left. split; [done|]. apply Z.ltb_ge. done.
  - right. split; [by eexists|]. apply Z.ltb_lt. done.
Qed.

Lemma readyWithoutAccept_committed rn rd :
  RawNode_readyWithoutAccept rn = Ok rd →
  raftLog_nextCommittedEnts (RawNode_applyUnstableEntries rn) (raft_raftLog (rn_raft rn)) = Ok (Ready_CommittedEntries rd).
Proof.
  unfold RawNode_readyWithoutAccept. intros (en & _ & E)%bind_Ok. apply bind_Ok in E as (ce & Ec & E). rewrite Ec. f_equal.
  destruct (rn_asyncStorageWrites rn); [|by injection E as <-]. apply bind_Ok in E as (rd1 & E1 & [= <-]).
  assert (Ready_CommittedEntries rd1 = ce) as <-; [|by destruct (needStorageApplyMsg rd1)].
  destruct (needStorageAppendMsg _ _); [|by injection E1 as <-]. by apply bind_Ok in E1 as (m & _ & [= <-]).
Qed.

Lemma zero_limit_ready rn rd :
  zero_limit (raft_raftLog (rn_raft rn)) → RawNode_readyWithoutAccept rn = Ok rd → Ready_CommittedEntries rd = [].
Proof.
  intros Hz E%readyWithoutAccept_committed.
  destruct (zero_limit_committed (RawNode_applyUnstableEntries rn) _ Hz) as [[E' _]|[[why E'] _]]; congruence.
Qed.

Lemma zero_limit_accept rn rd rn' :
  Ready_CommittedEntries rd = [] → RawNode_acceptReady rd rn = Ok rn' → keeps_zero (rn_raft rn) (rn_raft rn').
Proof.
  intros Hc. unfold RawNode_acceptReady. intros (steps & _ & E)%bind_Ok. rewrite Hc in E. cbn in E. injection E as <-.
  intros Hz. by destruct (negb _).
Qed.

Lemma zero_limit_op o rn rn' : run_op o rn = Ok rn' → keeps_zero (rn_raft rn) (rn_raft rn').
Proof.
  assert (∀ u l, zero_limit l → zero_limit (set_raftLog_unstable u l)) as Hu by done.
  assert (∀ c l, zero_limit l → zero_limit (set_raftLog_committed c l)) as Hc by done.
  destruct o as [x|m| | |peers|s]; cbn [run_op]; intros E.
  - by eapply (keeps_call _ Hu Hc zero_limit_applied).
  - apply bind_Ok in E as ([y rn1] & E & [= <-]). unfold RawNode_Step in E.
    destruct (_ && _); [by injection E as _ <-|]. destruct (_ && _); [by injection E as _ <-|].
    eapply keeps_on_raft; [exact E|]. by apply (keeps_Step _ Hu Hc zero_limit_applied).
  - apply bind_Ok in E as ([rd rn1] & E & [= <-]). unfold RawNode_Ready in E.
    apply bind_Ok in E as (rd1 & Er & E). apply bind_Ok in E as (rn2 & Ea & [= <- <-]).
    intros Hz. eapply zero_limit_accept; [by eapply zero_limit_ready|exact Ea|done].
  - unfold RawNode_Advance in E. destruct (rn_asyncStorageWrites rn); [done|].
    apply bind_Ok in E as ([y r1] & E & [= <-]). by eapply (keeps_steps _ Hu Hc zero_limit_applied).
  - apply bind_Ok in E as ([y rn1] & E & [= <-]). unfold RawNode_Bootstrap in E.
    destruct (_ =? 0); [by injection E as _ <-|]. destruct (st_LastIndex _); [|by injection E as _ <-].
    destruct (negb _); [by injection E as _ <-|]. apply bind_Ok in E as ([z r1] & E & [= _ <-]).
    by eapply (keeps_Bootstrap _ Hu Hc).
  - injection E as <-. by intros Hz.
Qed.

Lemma zero_limit_new conf rands rn :
  RaftConfig_MaxSizePerMsg conf = 0 → RaftConfig_MaxCommittedSizePerReady conf = 0 →
  NewRawNode conf rands = Ok rn → zero_limit (raft_raftLog (rn_raft rn)).
Proof.
  intros Hm Hc. unfold NewRawNode, newRaft. intros (r & E & [= <-])%bind_Ok.
  destruct (Config_validate conf) as [[s c]|] eqn:Ev; [|done]. apply bind_Ok in E as (l & El & E).
  destruct (st_InitialState s) as [[hs cs]|]; [|done]. apply bind_Ok in E as ([u r1] & E & [= <-]).
  assert (RaftConfig_MaxCommittedSizePerReady c = 0) as Hl.
  { revert Ev. unfold Config_validate. rewrite Hm, Hc. repeat (case_match; try done); by intros [= _ <-]. }
  eapply (keeps_newRaft_init zero_limit); [done|apply zero_limit_applied|exact E|]. cbn.
  revert El. unfold newLogWithSize. rewrite Hl. do 2 (case_match; try done). by intros [= <-].
Qed.

(** C40. With the limits for the size of messages and of committed entries at 0,
    which the documentation allows ("0 for at most one entry per message"), a
    node is started, but never applies anything, whatever its application does:
    no [Ready] has committed entries, and as soon as there is one to hand out,
    making a [Ready] panics. *)
Theorem zero_size_limit_applies_nothing (conf : RaftConfig S) rands rn0 os rn :
  RaftConfig_MaxSizePerMsg conf = 0 → RaftConfig_MaxCommittedSizePerReady conf = 0 →
  NewRawNode conf rands = Ok rn0 → run_ops os rn0 = Ok rn →
  (∀ rd, RawNode_readyWithoutAccept rn = Ok rd → Ready_CommittedEntries rd = []) ∧
  (raftLog_hasNextCommittedEnts (RawNode_applyUnstableEntries rn) (raft_raftLog (rn_raft rn)) = true →
   ∃ why, RawNode_readyWithoutAccept rn = Panic why).
Proof.
  intros Hm Hc E0 E. pose proof (zero_limit_new _ _ _ Hm Hc E0) as Hz. clear E0.
  assert (zero_limit (raft_raftLog (rn_raft rn))) as Hz'.
  { revert rn0 Hz E. induction os as [|o os IH]; intros rn0 Hz E; cbn in E; [by injection E as <-|].
    apply bind_Ok in E as (rn1 & E1 & E). apply (IH rn1); [by eapply zero_limit_op|done]. }
  split; [intros rd; by apply zero_limit_ready|]. intros Hn. destruct (RawNode_readyWithoutAccept rn) as [rd|why] eqn:Er; [|by exists why].
  apply readyWithoutAccept_committed in Er.
  destruct (zero_limit_committed (RawNode_applyUnstableEntries rn) _ Hz') as [[_ E']|[[why E'] _]]; congruence.
Qed.

End runs.

(** ** A node that has committed entries to apply *)

#[local] Existing Instances sample_Protobuf sample_ProtobufLaws.

Lemma zero_size_limit_applies_nothing_witness :
  ∃ rn0 rn why, NewRawNode (ex_config 0) [] = Ok rn0 ∧ run_ops [OMessage ex_vote] rn0 = Ok rn ∧
    RawNode_readyWithoutAccept rn = Panic why.
Proof.
  destruct (NewRawNode (ex_config 0) []) as [rn0|w] eqn:E0; [|vm_compute in E0; discriminate E0].
  destruct (run_ops [OMessage ex_vote] rn0) as [rn|w] eqn:E; [|vm_compute in E0; injection E0 as <-; vm_compute in E; discriminate E].
  destruct (zero_size_limit_applies_nothing (ex_config 0) [] rn0 [OMessage ex_vote] rn) as [_ Hp];
    [vm_compute; reflexivity|vm_compute; reflexivity|exact E0|exact E|].
  destruct Hp as [why Hw]; [vm_compute in E0; injection E0 as <-; vm_compute in E; injection E as <-; vm_compute; reflexivity|].
  exists rn0, rn, why. split; [reflexivity|]. split; [exact E|exact Hw].
Defined.
