(* ===== verification/NodeLog.v ===== *)
(** * The log of one node in the tree

    What a node keeps true of its log with respect to the tree of all logs of
    the cluster (LogTree.v) and of the votes that are stored (Cluster.v), and how
    the steps of src/raft.go, the clock, a Ready and a restart preserve it. *)
From S2P Require Import Prelude Proto Quorum Inflights Progress Tracker Util Storage.
From S2P Require Import Unstable Log ConfChange ReadOnly Raft RaftStep RaftRel.
From S2P Require Import RaftSafety RaftInv LogTree RawNode Cluster.

Section node_log.
Context {S : Type} `{Protobuf, !ProtobufLaws _} `{!Storage S} `{!StorageLaws S}.
Context (cfg : JointConfig).
Implicit Types (r : raft S) (l : raftLog S) (T : tree) (g : Z → gmap Z Z) (led : gset (Z * Z)) (asked : Z → Z → Prop).

(** The tree and the terms that were led: every entry was appended by the leader
    of its term, and a leader was elected. *)
Record tree_ok g T led : Prop := mktree_ok {
  to_led : ∀ k t x, T !! (k, t) = Some x → ∃ j, (j, t) ∈ led;
  to_elected : ∀ j t, (j, t) ∈ led → elected cfg g j t;
}.

(** What waits for a write: promises, and granted votes that were asked for. *)
Definition waits asked (i : Z) (m : Message) : Prop :=
  msg_later m ∧ (is_grant m → Message_GetTo m = i ∨ asked (Message_GetTerm m) (Message_GetTo m)).

(** Node [i], whose storage holds the term [d]. *)
Record node_log g asked (i d : Z) T led r : Prop := mknode_log {
  nl_id : raft_id r = i;
  nl_role : role_ok cfg g i r;
  nl_coherent : coherent r;
  nl_wf : log_wf (raft_raftLog r);
  nl_path : slog_path T (log_view (raft_raftLog r));
  nl_stored : slog_path T (st_view (raftLog_storage (raft_raftLog r)));
  nl_msgs : Forall (fun m => msg_path T m ∧ asks_ok i (raft_Term r) m) (raft_msgs r);
  nl_later : Forall (waits asked i) (raft_msgsAfterAppend r);
  (* a candidate has votes only once its term is stored *)
  nl_heard : raft_state r = StateCandidate → ∀ j, votes_of r !! j = Some true → raft_Term r <= d;
  (* a leader has all the entries of its term *)
  nl_lead : raft_state r = StateLeader → (i, raft_Term r) ∈ led ∧
    ∀ k x, T !! (k, raft_Term r) = Some x → k <= log_last (raft_raftLog r);
  (* no term is led twice *)
  nl_led : ∀ t, (i, t) ∈ led → t <= d ∧ (raft_Term r = t → raft_state r ≠ StateCandidate);
  nl_durable : d <= raft_Term r;
}.

(** What one node may add to the tree. *)
Record grown g (i : Z) T led T' led' : Prop := mkgrown {
  gr_tree : T ⊆ T';
  gr_led : led ⊆ led';
  gr_new : ∀ k t x, T' !! (k, t) = Some x → T !! (k, t) = Some x ∨ (i, t) ∈ led';
  gr_by : ∀ j t, (j, t) ∈ led' → (j, t) ∈ led ∨ j = i ∧ elected cfg g i t;
}.

Lemma grown_refl g i T led : grown g i T led T led.
Proof. split; [done..| |]; auto. Qed.

Lemma grown_trans g i T1 led1 T2 led2 T3 led3 :
  grown g i T1 led1 T2 led2 → grown g i T2 led2 T3 led3 → grown g i T1 led1 T3 led3.
Proof.
  intros [A1 B1 C1 D1] [A2 B2 C2 D2]. split; [by etrans|by etrans| |].
  - intros k t x Hx. destruct (C2 _ _ _ Hx) as [Hx2|?]; [|by right]. destruct (C1 _ _ _ Hx2) as [?|?]; [by left|right; set_solver].
  - intros j t Hj. destruct (D2 _ _ Hj) as [Hj2|?]; [|by right]. by apply D1.
Qed.

Lemma tree_ok_grown g i T led T' led' : tree_ok g T led → grown g i T led T' led' → tree_ok g T' led'.
Proof.
  intros [A B] [C D E F]. split.
  - intros k t x Hx. destruct (E _ _ _ Hx) as [Hx1|?]; [|by exists i]. destruct (A _ _ _ Hx1) as [j ?]. exists j. set_solver.
  - intros j t Hj. destruct (F _ _ Hj) as [?|[-> ?]]; auto.
Qed.

(** ** Monotonicity *)

Lemma waits_mono asked asked' i m : (∀ t v, asked t v → asked' t v) → waits asked i m → waits asked' i m.
Proof. intros Ha [? Hg]. split; [done|]. intros Hm. destruct (Hg Hm); auto. Qed.

(** Another node has moved on. *)
Lemma node_log_other g asked asked' g' i d T led T' led' j r :
  cfg.1 ≠ ∅ → j ≠ i → votes_le g g' → (∀ t v, asked t v → asked' t v) → tree_ok g' T' led' → grown g' i T led T' led' →
  node_log g asked j d T led r → node_log g' asked' j d T' led' r.
Proof.
  intros Hc Hij Hg Ha [To Te] [Gt Gl Gn Gb] [I Ro Co W P St Ms La He Le Ld Du].
  assert (∀ t, (j, t) ∈ led' → (j, t) ∈ led) as Hback by (intros t Ht; destruct (Gb _ _ Ht) as [?|[? _]]; done).
  split; auto.
  - by eapply role_ok_mono.
  - by eapply slog_path_mono.
  - by eapply slog_path_mono.
  - eapply Forall_impl; [exact Ms|]. intros m [? ?]. split; [by eapply msg_path_mono|done].
  - eapply Forall_impl; [exact La|]. intros m. by apply waits_mono.
  - intros Hs. destruct (Le Hs) as [Hl Hk]. split; [by apply Gl|]. intros k x Hx.
    destruct (Gn _ _ _ Hx) as [?|Hi]; [by eapply Hk|]. exfalso. apply Hij.
    eapply (elected_unique cfg g' _ _ (raft_Term r)); [done|apply Te; by apply Gl|by apply Te].
Qed.

(** The same node, with more that was asked for. *)
Lemma node_log_mono g asked g' asked' i d T led r :
  votes_le g g' → (∀ t v, asked t v → asked' t v) → node_log g asked i d T led r → node_log g' asked' i d T led r.
Proof.
  intros Hg Ha [I Ro Co W P St Ms La He Le Ld Du]. split; auto; [by eapply role_ok_mono|].
  eapply Forall_impl; [exact La|]. intros m. by apply waits_mono.
Qed.

(** ** A step *)

(** What a step may be granted: votes for the nodes that asked, and leadership
    on stored votes in a stored term. *)
Definition log_grants g asked (i d : Z) (m : Message) r : grants :=
  mkgrants asked
    (fun t => (raft_state r = StateLeader ∨ wins m r ∧ counted_now m r) ∧ t = raft_Term r ∧ elected cfg g i t ∧ t <= d)
    (fun t j => g j !! t = Some i ∧ t <= d).

Lemma evolves_mono (G G' : grants) r r' :
  (∀ t v, g_vote G t v → g_vote G' t v) → (∀ t, g_lead G t → g_lead G' t) → (∀ t j, g_heard G t j → g_heard G' t j) →
  evolves G r r' → evolves G' r r'.
Proof.
  intros Hv Hl Hh [A B C D E F L K V (new & N1 & N2 & N3 & N4)]. split; auto.
  - destruct F as [?|[?|[?|?]]]; auto.
  - intros Hs. destruct (L Hs); auto.
  - intros Hs j Hj. destruct (V Hs j Hj); auto.
  - exists new. split_and!; [done..| |done]. eapply Forall_impl; [exact N3|]. intros m Hm Hg. destruct (Hm Hg); auto.
Qed.

Lemma log_role g asked i d m r r1 r2 : role_ok cfg g i r1 → evolves (log_grants g asked i d m r) r1 r2 → role_ok cfg g i r2.
Proof.
  intros Hr He. eapply role_evolves; [exact Hr|]. eapply evolves_mono; [..|exact He]; cbn; [done| |].
  - by intros t (_ & _ & ? & _).
  - by intros t j [? _].
Qed.

(** The node after a step, given what became of its log. *)
Lemma node_log_next g asked i d (m : Message) T led T' led' r r0 r' :
  node_log g asked i d T led r → evolves (log_grants g asked i d m r0) r r' → grown g i T led T' led' →
  coherent r' → log_wf (raft_raftLog r') → slog_path T' (log_view (raft_raftLog r')) →
  raftLog_storage (raft_raftLog r') = raftLog_storage (raft_raftLog r) → sends (log_view (raft_raftLog r')) r r' →
  (raft_state r' = StateLeader → (i, raft_Term r') ∈ led' ∧
    ∀ k x, T' !! (k, raft_Term r') = Some x → k <= log_last (raft_raftLog r')) →
  (∀ t, (i, t) ∈ led' → (i, t) ∈ led ∨ t <= d ∧ raft_state r' = StateLeader) →
  node_log g asked i d T' led' r'.
Proof.
  intros [I Ro Co W P St Ms La He Le Ld Du] Hev [Gt Gl _ _] Co' W' P' St' Sn Le' Ld'.
  pose proof (log_role _ _ _ _ _ _ _ _ Ro Hev) as Ro'.
  destruct Hev as [I' Te _ _ (new & E & _ & Ea) _ _ K V (later & El & L1 & L2 & _)]. split; auto.
  - congruence.
  - rewrite St'. by eapply slog_path_mono.
  - destruct Sn as (new' & E' & Hn). rewrite E in E'. apply app_inv_head in E' as ->. rewrite E. apply Forall_app. split.
    + eapply Forall_impl; [exact Ms|]. intros x [? Hx]. split; [by eapply msg_path_mono|]. intros Ht. destruct (Hx Ht). split; [done|lia].
    + rewrite I in Ea. eapply Forall_impl; [apply Forall_and; split; [exact Hn|exact Ea]|]. intros x [Hx ?].
      split; [|done]. eapply slice_path; [by apply log_view_wf|exact P'|exact Hx].
  - rewrite El. apply Forall_app. split; [done|]. rewrite I in L2. apply Forall_and; split; [exact L1|]. exact L2.
  - intros Hs j Hj. destruct (V Hs j Hj) as [(? & -> & ?)|[_ ?]]; [by eapply He|done].
  - intros t Ht. destruct (Ld' t Ht) as [Hin|[? Hs]]; [|split; [done|congruence]]. destruct (Ld t Hin) as [? Hn]. split; [done|].
    intros Ht' Hs. destruct (K Hs) as [[? ?]|?]; [apply Hn; congruence|lia].
  - lia.
Qed.

(** A step that leaves the log alone. *)
Lemma node_log_quiet g asked i d (m : Message) T led r r0 r' :
  node_log g asked i d T led r → evolves (log_grants g asked i d m r0) r r' → quiet r r' →
  (raft_state r' = StateLeader → raft_state r = StateLeader ∧ raft_Term r' = raft_Term r) →
  node_log g asked i d T led r'.
Proof.
  intros Hn Hev (Hc & Hl & Hs) Hlead. destruct (Hl (nl_wf _ _ _ _ _ _ _ Hn)) as (W' & V' & _ & St').
  eapply node_log_next; [exact Hn|exact Hev|apply grown_refl|..]; rewrite ?V'; try done.
  - by apply Hc, (nl_coherent _ _ _ _ _ _ _ Hn).
  - apply (nl_path _ _ _ _ _ _ _ Hn).
  - apply Hs, (nl_wf _ _ _ _ _ _ _ Hn).
  - intros Hst. destruct (Hlead Hst) as [? ->]. by apply (nl_lead _ _ _ _ _ _ _ Hn).
  - auto.
Qed.

(** Entries that the node adds to its log in its term are all that is new. *)
Definition adds (i : Z) r r' T led T' led' : Prop :=
  led' = led ∪ {[(i, raft_Term r)]} ∧
  (∀ k t x, T' !! (k, t) = Some x → T !! (k, t) = Some x ∨
    t = raft_Term r ∧ log_last (raft_raftLog r) < k <= log_last (raft_raftLog r')) ∧
  ∃ new, log_view (raft_raftLog r') = extends (log_view (raft_raftLog r)) new ∧
    Forall (fun e => Entry_GetTerm e = raft_Term r) new.

(** A node that leads its term, or now comes to lead it, appends entries. *)
Lemma node_log_grow g asked i d (m : Message) T led n r r' :
  node_log g asked i d T led r → evolves (log_grants g asked i d m r) r r' → grows n r r' → room n (raft_raftLog r) →
  elected cfg g i (raft_Term r) → raft_Term r <= d → (∀ k, log_last (raft_raftLog r) < k → T !! (k, raft_Term r) = None) →
  (raft_state r' = StateLeader → raft_Term r' = raft_Term r) → (i, raft_Term r) ∈ led ∨ raft_state r' = StateLeader →
  ∃ T' led', grown g i T led T' led' ∧ node_log g asked i d T' led' r' ∧ adds i r r' T led T' led'.
Proof.
  intros Hn Hev [Hc Hg] Hroom Hel Hd Hf Hte Hled. pose proof (nl_wf _ _ _ _ _ _ _ Hn) as W.
  destruct (Hg Hroom W) as [(W' & _ & St & new & V & Ft) Sn]. pose proof (log_view_wf _ W') as (_ & _ & Hcon).
  rewrite V in Hcon. apply contiguous_app in Hcon as [_ Hcon].
  destruct (extend_path T (log_view (raft_raftLog r)) new (raft_Term r)) as (T' & Hs & P' & Hk); [apply Hn|done..|].
  exists T', (led ∪ {[(i, raft_Term r)]}).
  assert (grown g i T led T' (led ∪ {[(i, raft_Term r)]})) as Hgr.
  { split; [done|set_solver| |].
    - intros k t x Hx. destruct (Hk _ _ _ Hx) as [?|[-> _]]; [by left|right; set_solver].
    - intros j t [?|[= -> ->]%elem_of_singleton]%elem_of_union; auto. }
  split; [done|]. split.
  2: { split_and!; [done| |by exists new]. intros k t x Hx. rewrite V. destruct (Hk _ _ _ Hx) as [?|[? ?]]; auto. }
  eapply node_log_next; [exact Hn|exact Hev|exact Hgr|..]; auto.
  - by apply Hc, Hn.
  - by rewrite V.
  - intros Hs'. rewrite (Hte Hs'). split; [set_solver|]. intros k x Hx. rewrite V.
    destruct (Hk _ _ _ Hx) as [Hx1|[_ ?]]; [|lia]. rewrite slog_last_extends. pose proof (len_nonneg new).
    destruct (Z.le_gt_cases k (log_last (raft_raftLog r))) as [|Hgt]; [lia|]. rewrite Hf in Hx1 by lia. done.
  - intros t [?|[= ->]%elem_of_singleton]%elem_of_union; [by left|]. destruct Hled; auto.
Qed.

(** A message that may be stepped: what it carries is in the tree, the grant that
    it carries is stored, and the vote that it requests is stored by the one who
    asks. *)
Record msg_log g asked (i d : Z) T (m : Message) r : Prop := mkmsg_log {
  ml_wf : msg_wf m;
  ml_fits : msg_log_ok m r;
  ml_ack : Message_GetType m = MsgStorageAppendResp → ack_ok m (raft_raftLog r);
  ml_path : msg_path T m;
  ml_grant : Message_GetType m = MsgVoteResp → Message_GetReject m = false → counted_now m r →
    g (Message_GetFrom m) !! raft_Term r = Some i ∧ raft_Term r <= d;
  ml_asked : Message_GetType m = MsgVote → asked (Message_GetTerm m) (Message_GetFrom m);
}.

Lemma log_conditions g asked i d T led (m : Message) r :
  cfg.1 ≠ ∅ → node_log g asked i d T led r → msg_log g asked i d T m r → ProgressTracker_Voters (raft_trk r) = cfg →
  Step_conditions (log_grants g asked i d m r) m r.
Proof.
  intros Hc Hn Hm Hcfg.
  destruct (step_conditions_ok cfg g i m r) as [Hwon _]; [apply Hn|done|by intros; apply Hm|]. split; [|intros Hty _; by apply Hm].
  intros Hnow. destruct (Hwon Hnow) as [Hwon' _]. split.
  2: { intros Hty _ Hrej. by apply (ml_grant _ _ _ _ _ _ _ Hm). }
  intros Hty Hf Hp Hw. pose proof (Hwon' Hty Hf Hp Hw) as Hel. cbn in Hel |- *.
  destruct (decide (raft_state r = StateLeader)) as [Hs|Hs].
  { split_and!; auto. by apply (nl_led _ _ _ _ _ _ _ Hn), (nl_lead _ _ _ _ _ _ _ Hn). }
  assert (raft_state r = StateCandidate) as Hs' by (by destruct (raft_state r)).
  split_and!; [right; by split|done|done|]. apply vote_won_majority in Hw as [Hw _]. rewrite Hcfg in Hw.
  destruct (majority_intersect _ _ _ Hc Hw Hw) as (j & _ & Hj & _). apply elem_of_filter in Hj as [Hj _].
  apply RecordVote_true in Hj as [Hj|[-> Hr]]; [by eapply nl_heard|].
  apply (ml_grant _ _ _ _ _ _ _ Hm); [done|by destruct (Message_GetReject m)|done].
Qed.

(** A new leader finds nothing of its term in the tree. *)
Lemma win_fresh g asked i d T led (m : Message) r :
  cfg.1 ≠ ∅ → tree_ok g T led → node_log g asked i d T led r → wins m r → elected cfg g i (raft_Term r) →
  ∀ k, T !! (k, raft_Term r) = None.
Proof.
  intros Hc [To Te] Hn (_ & Hs & _) Hel k. destruct (T !! (k, raft_Term r)) as [x|] eqn:E; [|done].
  destruct (To _ _ _ E) as [j Hj]. assert (j = i) as -> by (eapply elected_unique; [done|by apply Te|done]).
  by destruct (nl_led _ _ _ _ _ _ _ Hn _ Hj) as [_ []].
Qed.

Lemma leader_fresh g asked i d T led r :
  node_log g asked i d T led r → raft_state r = StateLeader →
  ∀ k, log_last (raft_raftLog r) < k → T !! (k, raft_Term r) = None.
Proof.
  intros Hn Hs k Hk. destruct (T !! (k, raft_Term r)) as [x|] eqn:E; [|done].
  destruct (nl_lead _ _ _ _ _ _ _ Hn Hs) as [_ Hle]. apply Hle in E. lia.
Qed.

(** Whatever message a node steps, the logs stay paths of one tree. *)
Lemma node_log_step g asked i d T led (m : Message) r u r' :
  cfg.1 ≠ ∅ → tree_ok g T led → node_log g asked i d T led r → msg_log g asked i d T m r → raft_guard cfg r = true →
  raft_Step m r = Ok (u, r') →
  ∃ T' led', grown g i T led T' led' ∧ node_log g asked i d T' led' r' ∧
    (T' = T ∧ led' = led ∧ raft_state r' ≠ StateLeader ∨
     adds i r r' T led T' led' ∧ (raft_state r = StateLeader ∨ wins m r ∧ counted_now m r ∧ raft_state r' = StateLeader)).
Proof.
  intros Hc Ht Hn Hm Hgd E. apply raft_guard_spec in Hgd as [Hcfg Hterm]. pose proof (log_conditions _ _ _ _ _ _ _ _ Hc Hn Hm Hcfg) as Hcond.
  pose proof (ev_Step _ _ _ _ _ E Hterm (ml_wf _ _ _ _ _ _ _ Hm) Hcond) as Hev. pose proof (nl_coherent _ _ _ _ _ _ _ Hn) as Hco.
  destruct Hm as [Hwf Hfit Hack Hpath _ _]. pose proof (proj1 Hfit) as Hroom.
  assert (raft_state r = StateLeader → grows (len (Message_GetEntries m) + 1) r r' →
    (raft_state r' = StateLeader → raft_Term r' = raft_Term r) →
    ∃ T' led', grown g i T led T' led' ∧ node_log g asked i d T' led' r' ∧ adds i r r' T led T' led') as Hleader.
  { intros Hs Hg Hte. pose proof (nl_lead _ _ _ _ _ _ _ Hn Hs) as [Hin _].
    eapply node_log_grow; [exact Hn|exact Hev|exact Hg|done|by apply (to_elected _ _ _ Ht)| |by eapply leader_fresh|done|by left].
    by apply (nl_led _ _ _ _ _ _ _ Hn). }
  assert (raft_state r = StateLeader → raft_Term r' = raft_Term r → coherent r → grows (len (Message_GetEntries m) + 1) r r') as Hgrow.
  { intros Hs Hte Hco'. unfold coherent in Hco'. rewrite Hs in Hco'. destruct Hco' as [Hco' _]. by eapply leader_step_grows. }
  destruct (decide (raft_state r' = StateLeader)) as [Hs'|Hs'].
  - destruct (ev_lead _ _ _ Hev Hs') as [[Hs Hte]|([Hs|[Hw Hnow]] & Hte & Hel & Hd)].
    + destruct (Hleader Hs (Hgrow Hs Hte Hco) (fun _ => Hte)) as (T' & led' & ? & ? & ?). exists T', led'. auto 10.
    + destruct (Hleader Hs (Hgrow Hs Hte Hco) (fun _ => Hte)) as (T' & led' & ? & ? & ?). exists T', led'. auto 10.
    + rewrite Hte in Hel, Hd. destruct (win_step _ _ _ _ E Hco Hw Hnow) as (_ & _ & Hg).
      destruct (node_log_grow g asked i d m T led 1 r r' Hn Hev Hg) as (T' & led' & ? & ? & ?); [|done|done| |done|by right|exists T', led'; auto 10].
      * eapply room_le; [|exact Hroom]. pose proof (len_nonneg (Message_GetEntries m)). lia.
      * intros k _. by eapply win_fresh.
  - destruct (Step_effect _ _ _ _ E Hco Hfit Hack) as [[[Hck Hk] Hf]|[Hg [Hs|[Hw Hnow]]]].
    + exists T, led. split; [apply grown_refl|]. split; [|by left]. pose proof (nl_wf _ _ _ _ _ _ _ Hn) as W.
      destruct (Hk W) as (W' & _ & _ & St & _). destruct (Hf W) as [Htk Sn].
      eapply node_log_next; [exact Hn|exact Hev|apply grown_refl|..]; auto; [|done].
      eapply takes_path; [apply Hn|exact Hpath|exact Htk].
    + destruct (Hleader Hs Hg ltac:(congruence)) as (T' & led' & ? & ? & ?). exists T', led'. auto 10.
    + by destruct (win_step _ _ _ _ E Hco Hw Hnow).
Qed.

(** ** A Ready *)

Lemma nextCommitted_bounds l allow ents :
  log_wf l → raftLog_nextCommittedEnts allow l = Ok ents →
  contiguous (raftLog_applying l) ents ∧ raftLog_applying l + len ents <= raftLog_committed l.
Proof.
  intros W. log_facts W. unfold raftLog_nextCommittedEnts.
  assert (contiguous (raftLog_applying l) [] ∧ raftLog_applying l + len (@nil Entry) <= raftLog_committed l) as Hnil.
  { split; [auto with raft|]. rewrite len_nil. lia. }
  destruct (raftLog_applyingEntsPaused l); [by intros [= <-]|]. destruct (raftLog_hasNextOrInProgressSnapshot l); [by intros [= <-]|].
  pose proof (maxAppliableIndex_ok l allow W) as Hmax. set (hi := raftLog_maxAppliableIndex allow l) in *.
  assert (0 <= hi <= raftLog_committed l) as Hhi by (destruct allow; lia).
  rewrite !add64_small by lia. zcase; [by intros [= <-]|]. destruct (_ <=? 0); [done|].
  intros ([es|] & Es & E)%bind_Ok; [|done]. injection E as <-.
  apply slice_prefix in Es as [Hbs [rest Hpre]]; [|done|lia..]. pose proof (log_view_wf _ W) as Hv. clear Hc Hp.
  pose proof (slog_range_contiguous (log_view l) (raftLog_applying l + 1) (hi + 1) Hv) as Hc.
  pose proof (slog_range_length (log_view l) (raftLog_applying l + 1) (hi + 1)) as Hlen. cbn [sl_base log_view] in Hc, Hlen.
  rewrite Hpre in Hc, Hlen. replace (raftLog_applying l + 1 - 1) with (raftLog_applying l) in Hc by lia.
  rewrite len_app in Hlen. pose proof (len_nonneg rest). split; [|lia]. by apply contiguous_app in Hc as [? _]; [|lia].
Qed.

Lemma accept_log rd (rn rn' : RawNode S) :
  RawNode_readyWithoutAccept rn = Ok rd → RawNode_acceptReady rd rn = Ok rn' →
  log_same (raft_raftLog (rn_raft rn)) (raft_raftLog (rn_raft rn')) ∧
  (log_wf (raft_raftLog (rn_raft rn)) → raftLog_committed (raft_raftLog (rn_raft rn')) = raftLog_committed (raft_raftLog (rn_raft rn))).
Proof.
  intros Er Ea. apply forall_and_distr. intros W. set (l := raft_raftLog (rn_raft rn)) in *.
  assert (raftLog_nextCommittedEnts (RawNode_applyUnstableEntries rn) l = Ok (Ready_CommittedEntries rd)) as Hc.
  { revert Er. unfold RawNode_readyWithoutAccept. intros (ents & _ & E)%bind_Ok. apply bind_Ok in E as (com & Hcom & E).
    fold l in Hcom. rewrite Hcom. f_equal. destruct (rn_asyncStorageWrites rn); [|by injection E as <-].
    apply bind_Ok in E as (rd1 & E1 & E). injection E as <-.
    assert (Ready_CommittedEntries rd1 = com) as <-; [|by destruct (needStorageApplyMsg _)].
    destruct (needStorageAppendMsg _ _) in E1; [apply bind_Ok in E1 as (m & _ & [= <-])|injection E1 as <-]; done. }
  apply nextCommitted_bounds in Hc as [Hc Hle]; [|done]. destruct (acceptUnstable_ok _ W) as (W1 & V1 & _).
  destruct (accept_committed_ok (raftLog_acceptUnstable l) (Ready_CommittedEntries rd) (entsSize (Ready_CommittedEntries rd))
    (RawNode_applyUnstableEntries rn) W1 Hc Hle) as (l' & El & W' & V' & _ & St' & C' & _).
  assert (raft_raftLog (rn_raft rn') = l') as ->.
  { revert Ea. unfold RawNode_acceptReady. intros (steps & _ & E)%bind_Ok. apply bind_Ok in E as (r1 & Er1 & [= <-]). cbn [rn_raft].
    assert (∀ b : bool, raft_raftLog (if b then set_raft_readStates [] (rn_raft rn) else rn_raft rn) = l) as Hl by (by intros []).
    revert Er1 El. destruct (last (Ready_CommittedEntries rd)).
    - intros (l1 & E1 & [= <-])%bind_Ok E2. cbn in E1 |- *. rewrite Hl in E1. congruence.
    - intros [= <-] [= <-]. cbn. by rewrite Hl. }
  split_and!; [done|congruence|by rewrite C'|done|done].
Qed.

(** The messages of a Ready are sent once its hard state is stored. *)
Lemma node_log_ready g asked g' asked' i d d' T led r r' :
  node_log g asked i d T led r → votes_le g g' → (∀ t v, asked t v → asked' t v) →
  log_same (raft_raftLog r) (raft_raftLog r') → raft_trk r' = raft_trk r → coherent r' →
  elect r' = elect (set_raft_msgsAfterAppend [] (set_raft_msgs [] r)) → d' = raft_Term r →
  node_log g' asked' i d' T led r'.
Proof.
  intros [I Ro Co W P St Ms La He Le Ld Du] Hg Ha Hl Ht Hc [= I' T' V' M' A' S'] ->.
  destruct (Hl W) as (W' & Vw & _ & Sto). split; try done.
  - congruence.
  - eapply role_ok_mono; [exact Hg|]. unfold role_ok, votes_of in *. by rewrite T', S', Ht.
  - by rewrite Vw.
  - by rewrite Sto.
  - by rewrite M'.
  - by rewrite A'.
  - intros _ _ _. rewrite T'. done.
  - rewrite S', T', Vw. done.
  - intros t Hin. destruct (Ld t Hin). rewrite T', S'. split; [lia|done].
  - rewrite T'. done.
Qed.

(** ** The application's storage *)

(** The entries of one log, in another. *)
Definition piece_of (a b : slog) : Prop :=
  ∀ i e, slog_at a i = Some e → slog_at b i = Some e ∧ slog_term a (i - 1) = slog_term b (i - 1).

#[export] Instance piece_of_preorder : PreOrder piece_of.
Proof.
  split; [by intros g i e|]. intros a b c H1 H2 i e Hi. destruct (H1 i e Hi) as [Hb ->]. by apply H2.
Qed.

Lemma piece_path T a b : piece_of a b → slog_path T b → slog_path T a.
Proof. intros Hp Hb i e Hi. destruct (Hp i e Hi) as [Hi' ->]. by apply Hb. Qed.

(** The application saves entries of the log or lets go of old ones: what the
    storage holds is part of the log, or of what it held, and the log that the
    node sees ends where it did. *)
Definition storage_ok (s : S) l : Prop :=
  let l' := set_raftLog_storage s l in
  log_wf l' ∧ piece_of (log_view l') (log_view l) ∧ log_last l' = log_last l ∧
  (piece_of (st_view s) (log_view l) ∨ piece_of (st_view s) (st_view (raftLog_storage l))).

Lemma node_log_storage g asked i d T led s r :
  node_log g asked i d T led r → storage_ok s (raft_raftLog r) →
  node_log g asked i d T led (set_raft_raftLog (set_raftLog_storage s (raft_raftLog r)) r).
Proof.
  intros [I Ro Co W P St Ms La He Le Ld Du] (W' & Hp & Hl & Hs). split; try done; cbn [raft_raftLog set_raft_raftLog].
  - by eapply piece_path.
  - destruct Hs as [Hs|Hs]; by eapply piece_path.
  - intros Hst. destruct (Le Hst) as [? Hk]. split; [done|]. rewrite Hl. exact Hk.
Qed.

(** ** Starting *)

Lemma loadState_log hs r u r' :
  raft_loadState hs r = Ok (u, r') → log_same (raft_raftLog r) (raft_raftLog r').
Proof.
  unfold raft_loadState. intros E W. run_inv E. injection E0 as <- <-. run_inv E.
  apply bind_Ok in E0 as (li & Hli & [= <- <-]). rewrite lastIndex_ok in Hli by done. injection Hli as <-.
  destruct (_ || _) eqn:Hb; [done|]. apply orb_false_iff in Hb as [H1 H2]. injection E as _ <-. cbn [raft_raftLog set_raft_raftLog set_raft_Term set_raft_Vote].
  split_and!; [apply set_committed_wf; [done|]; cbn in *; lia|done|cbn in *; lia|done].
Qed.

Lemma newRaft_log (conf : RaftConfig S) rands s r :
  newRaft conf rands = Ok r → RaftConfig_Storage conf = Some s → st_ok s →
  log_wf (raft_raftLog r) ∧ log_view (raft_raftLog r) = st_view s ∧ raftLog_storage (raft_raftLog r) = s.
Proof.
  unfold newRaft. intros E Hs Hok. destruct (Config_validate conf) as [[s' c]|] eqn:Ev; [|done].
  assert (s' = s) as ->.
  { revert Ev. unfold Config_validate. repeat (case_match; try done); intros [= <- <-]; congruence. }
  apply bind_Ok in E as (l & El & E). destruct (newLog_ok s (RaftConfig_MaxCommittedSizePerReady c) Hok) as (l1 & El1 & W & V & _).
  rewrite El in El1. injection El1 as <-.
  assert (raftLog_storage l = s) as Hst.
  { revert El. unfold newLogWithSize. repeat (case_match; try done). by intros [= <-]. }
  destruct (st_InitialState s) as [[hs cs]|]; [|done]. apply bind_Ok in E as ([u r1] & E & [= <-]).
  assert (log_same l (raft_raftLog r1)) as Hl.
  2: { destruct (Hl W) as (? & ? & _ & ?). split_and!; [done|congruence..]. }
  unfold newRaft_init in E. run_inv E. injection E0 as <- <-. do 2 run_inv E.
  apply bind_Ok in E0 as (? & _ & [= <- <-]). apply bind_Ok in E1 as (res & _ & [= <- <-]). destruct res as [[cf trk]|]; [|done].
  run_inv E. apply quiet_switchToConfig in E0 as (_ & L0 & _). destruct (negb _); [done|]. do 2 run_inv E. run_inv E. injection E2 as <- <-.
  etrans; [exact L0|]. trans (raft_raftLog r0).
  { destruct hs as [st|]; [|by injection E0 as _ <-]. destruct (negb _) in E0; [by eapply loadState_log|by injection E0 as _ <-]. }
  trans (raft_raftLog r2).
  { destruct (_ <? _) in E1; [|by injection E1 as _ <-]. cbn in E1. apply on_log__inv in E1 as (l2 & -> & E1). eapply appliedTo_same; [exact E1|].
    revert E1. unfold raftLog_appliedTo. destruct (_ || _) eqn:Hb; [done|]. apply orb_false_iff in Hb. intros _. lia. }
  by apply becomeFollower_inv in E as (_ & -> & _).
Qed.

(** ** Calls of the application *)

Definition no_grants : grants := mkgrants (fun _ _ => False) (fun _ => False) (fun _ _ => False).

Lemma node_log_silent g asked i d T led r r' :
  node_log g asked i d T led r → evolves no_grants r r' → quiet r r' → node_log g asked i d T led r'.
Proof.
  intros Hn He Hq. eapply (node_log_quiet _ _ _ _ Message0 _ _ _ r); [exact Hn| |exact Hq|].
  - eapply evolves_mono; [..|exact He]; done.
  - intros Hs. by destruct (ev_lead _ _ _ He Hs) as [?|[]].
Qed.

(** Messages that carry neither votes nor entries of other nodes. *)
Definition plain_msg (m : Message) : Prop :=
  msg_wf m ∧ len (Message_GetEntries m) <= 1 ∧
  match Message_GetType m with MsgVote | MsgVoteResp | MsgApp | MsgSnap | MsgStorageAppendResp => False | _ => True end.

Lemma plain_msg_log g asked i d T m r : plain_msg m → room 2 (raft_raftLog r) → msg_log g asked i d T m r.
Proof.
  intros (Hw & Hl & Ht) Hr. split; [done| |intros E; by rewrite E in Ht..].
  split; [eapply room_le; [|exact Hr]; lia|]. split; intros E; by rewrite E in Ht.
Qed.

Lemma run_call_log g asked i d T led x (rn rn' : RawNode S) :
  cfg.1 ≠ ∅ → tree_ok g T led → node_log g asked i d T led (rn_raft rn) → raft_guard cfg (rn_raft rn) = true →
  room 2 (raft_raftLog (rn_raft rn)) → run_call x rn = Ok rn' →
  ∃ T' led' r', rn' = set_rn_raft r' rn ∧ grown g i T led T' led' ∧ node_log g asked i d T' led' r'.
Proof.
  intros Hc Ht Hn Hgd Hr E.
  assert (∀ m u r', plain_msg m → raft_Step m (rn_raft rn) = Ok (u, r') →
    ∃ T' led' r'', set_rn_raft r' rn = set_rn_raft r'' rn ∧ grown g i T led T' led' ∧ node_log g asked i d T' led' r'') as Hstep.
  { intros m u r' Hm Es. eapply node_log_step in Es as (T' & led' & ? & ? & _); [|done..| |done]; [by exists T', led', r'|].
    by apply plain_msg_log. }
  assert (∀ r', evolves no_grants (rn_raft rn) r' → quiet (rn_raft rn) r' →
    ∃ T' led' r'', set_rn_raft r' rn = set_rn_raft r'' rn ∧ grown g i T led T' led' ∧ node_log g asked i d T' led' r'') as Hquiet.
  { intros r' He Hq. exists T, led, r'. split_and!; [done|apply grown_refl|by eapply node_log_silent]. }
  pose proof (raft_guard_spec _ _ Hgd) as [_ Hte].
  destruct x; cbn [run_call] in E; apply bind_Ok in E as ([y rn1] & E & [= <-]); apply on_raft_inv in E as (r' & E & ->).
  all: try (eapply Hstep; [|exact E]; by repeat split).
  - apply Hquiet; [by eapply ev_run_tick|by eapply quiet_run_tick].
  - injection E as _ <-. apply Hquiet; [by apply core_evolves|by apply roles_quiet].
  - run_inv E. injection E0 as <- <-. eapply Hstep; [|exact E]. by repeat split.
  - eapply Hstep; [|exact E]. destruct (confChangeToMsg_wf cc) as [? Hp]. split; [done|]. rewrite Hp. split; [|done].
    unfold confChangeToMsg. by destruct (MarshalConfChange cc).
  - apply Hquiet; [by eapply ev_applyConfChange|by eapply quiet_applyConfChange].
Qed.

(** ** Advance *)

(** The indexes fit and the storage holds what the message acknowledges. *)
Definition step_fits (m : Message) r : Prop :=
  room (len (Message_GetEntries m) + 1) (raft_raftLog r) ∧
  (Message_GetType m = MsgApp → Message_GetIndex m + len (Message_GetEntries m) < MaxUint64) ∧
  (Message_GetType m = MsgSnap → snap_index (Message_GetSnapshot m) < MaxUint64) ∧
  (Message_GetType m = MsgStorageAppendResp → ack_ok m (raft_raftLog r)).

Fixpoint steps_fit (ms : list Message) r : Prop :=
  match ms with
  | [] => True
  | m :: ms => step_fits m r ∧ match raft_Step m r with Ok x => steps_fit ms x.2 | Panic _ => True end
  end.

Lemma fits_msg_log g asked i d T m r :
  msg_wf m → step_fits m r → msg_path T m →
  (Message_GetType m = MsgVoteResp → Message_GetReject m = false → counted_now m r →
    g (Message_GetFrom m) !! raft_Term r = Some i ∧ raft_Term r <= d) →
  (Message_GetType m = MsgVote → asked (Message_GetTerm m) (Message_GetFrom m)) →
  msg_log g asked i d T m r.
Proof.
  intros Hw (Hr & Ha & Hs & Hk) Hp Hg Hv. split; [done| |done..]. split; [done|]. split; [|done].
  intros Ht. destruct (Hp Ht) as [? Hpath]. split_and!; [done|exact (slog_path_contiguous _ _ Hpath)|by apply Ha].
Qed.

(** The node's own promises, and acknowledgements of its storage. *)
Definition own_msg (m : Message) : Prop :=
  msg_later m ∨ Message_GetType m = MsgStorageAppendResp ∨ Message_GetType m = MsgStorageApplyResp.

Lemma own_msg_type m : own_msg m → Message_GetType m ≠ MsgApp ∧ Message_GetType m ≠ MsgVote.
Proof. intros [[?|[?|?]]|[?|?]]; split; congruence. Qed.

Lemma node_log_steps g asked i d T led ms r u r' :
  cfg.1 ≠ ∅ → tree_ok g T led → node_log g asked i d T led r → i ≠ None_id →
  (∀ t, g i !! t = Some i → t <= d) → Forall (self_grant i (g i)) ms → Forall own_msg ms →
  advance_ok cfg ms r = true → steps_fit ms r →
  for_each (fun m => _ ← raft_Step m; mret tt) ms r = Ok (u, r') →
  ∃ T' led', grown g i T led T' led' ∧ node_log g asked i d T' led' r'.
Proof.
  intros Hc Ht Hn Hi Hd. revert T led Ht r Hn.
  induction ms as [|m ms IH]; intros T led Ht r Hn Hg Ho Hok Hf E; cbn in E; [injection E as _ <-; exists T, led; auto using grown_refl|].
  run_inv E. run_inv E0. injection E0 as _ ->. cbn [advance_ok] in Hok. rewrite E1 in Hok.
  repeat rewrite andb_true_iff in Hok. destruct Hok as [[Hgd Hwf] Hok].
  cbn [steps_fit] in Hf. rewrite E1 in Hf. destruct Hf as [Hfm Hf].
  apply Forall_cons in Hg as [[Hg1 Hto] Hg]. apply Forall_cons in Ho as [[Ha Hv]%own_msg_type Ho].
  destruct (node_log_step g asked i d T led m r x0 r0) as (T1 & led1 & Hgr & Hn1 & _); try done.
  - apply fits_msg_log; [by apply msg_wf_b_spec|done|intros ?; done| |done]. intros Hty Hrej Hnow.
    destruct Hg1 as (Hfr & Hnz & Hh); [split_and!; [done..|by rewrite Hto]|]. destruct Hnow as [?|Hnow]; [done|].
    rewrite Hto, Hnow in Hh by done. rewrite Hfr. auto.
  - pose proof (tree_ok_grown _ _ _ _ _ _ Ht Hgr) as Ht1. destruct (IH T1 led1 Ht1 r0) as (T2 & led2 & Hgr2 & Hn2); try done.
    exists T2, led2. split; [by eapply grown_trans|done].
Qed.

End node_log.
