(* ===== verification/ClusterLog.v ===== *)
(** * Log matching in a cluster

    The logs of the nodes of a cluster (Cluster.v) whose applications write
    their storage before they send, as paths of one tree (LogTree.v): if two
    logs have an entry with the same index and term, they agree up to it.  The
    application may lose messages, deliver them twice and in any order, crash
    and restart nodes, store entries late and compact its storage. *)
From stdpp Require Import functions.
From S2P Require Import Prelude Proto Quorum Inflights Progress Tracker Util Storage.
From S2P Require Import Unstable Log ConfChange ReadOnly Raft RaftStep RaftRel.
From S2P Require Import RaftSafety RaftInv LogTree RawNode Cluster NodeLog.

Abbreviation mb_raft mb := (rn_raft (mb_node mb)).
Abbreviation mb_log mb := (raft_raftLog (rn_raft (mb_node mb))).
Abbreviation disk_term mb := (HardState_GetTerm (mb_disk mb)).

Section cluster_log.
Context {S : Type} `{Protobuf, !ProtobufLaws _} `{!Storage S} `{!StorageLaws S}.
Context (cfg : JointConfig).
Implicit Types (r : raft S) (rn : RawNode S) (mb : host S) (c : cluster S) (T : tree) (led : gset (Z * Z)).

(** ** What the application keeps to *)

Definition at_node c (i : Z) (P : host S → Prop) : Prop := ∀ mb, cl_members c !! i = Some mb → P mb.

(** Storage is written before messages are sent; a node starts with no entries,
    or with those that its storage holds; appends and requests for votes come
    from nodes; storage acknowledges what it holds, and indexes do not overflow. *)
Definition log_contract (a : action S) c : Prop :=
  match a with
  | AStart conf _ =>
      RaftConfig_AsyncStorageWrites conf = false ∧ ∃ s, RaftConfig_Storage conf = Some s ∧ st_ok s ∧
      match cl_members c !! RaftConfig_ID conf with
      | Some mb => st_view s = st_view (raftLog_storage (mb_log mb))
      | None => sl_ents (st_view s) = []
      end
  | ABootstrap _ _ _ => False
  | ACall i _ => at_node c i (fun mb => room 2 (mb_log mb))
  | ADeliver i k => ∀ m, cl_net c !! k = Some m → at_node c i (fun mb => step_fits m (mb_raft mb))
  | AForge i m => Message_GetType m ≠ MsgApp ∧ Message_GetType m ≠ MsgVote ∧
      at_node c i (fun mb => step_fits m (mb_raft mb))
  | AAdvance i => at_node c i (fun mb => steps_fit (rn_stepsOnAdvance (mb_node mb)) (mb_raft mb))
  | AStorage i s => at_node c i (fun mb => storage_ok s (mb_log mb))
  | AReady _ | AWrite _ => True
  end.

Definition log_step c c' : Prop := ∃ a, log_contract a c ∧ perform cfg a c = Some c'.

(** The application saves all entries of the node. *)
Definition saves (s : S) (l : raftLog S) : Prop :=
  let l' := set_raftLog_storage s l in log_wf l' ∧ log_view l' = log_view l ∧ st_view s = log_view l.

Lemma saves_storage_ok s l : saves s l → storage_ok s l.
Proof. intros (W & V & St). split_and!; [done|by rewrite V|by rewrite V|]. left. by rewrite St. Qed.

(** ** The invariant *)

(** The storage of [v] holds the term [t]. *)
Definition asked c (t v : Z) : Prop := ∃ mb, cl_members c !! v = Some mb ∧ t <= disk_term mb.

Record member_log (g : Z → gmap Z Z) c T led (i : Z) mb : Prop := mkmember_log {
  mg_sync : rn_asyncStorageWrites (mb_node mb) = false;
  mg_own : Forall own_msg (rn_stepsOnAdvance (mb_node mb));
  mg_node : node_log cfg g (asked c) i (disk_term mb) T led (mb_raft mb);
}.

Definition net_log c T (m : Message) : Prop :=
  msg_path T m ∧ (Message_GetType m = MsgVote → asked c (Message_GetTerm m) (Message_GetFrom m)) ∧
  (is_grant m → asked c (Message_GetTerm m) (Message_GetTo m)).

Record log_inv (g : Z → gmap Z Z) T led c : Prop := mklog_inv {
  li_inv : cl_inv cfg g c;
  li_tree : tree_ok cfg g T led;
  li_members : ∀ i mb, cl_members c !! i = Some mb → member_log g c T led i mb;
  li_led : ∀ i t, (i, t) ∈ led → is_Some (cl_members c !! i);
  li_net : ∀ m, m ∈ cl_net c → net_log c T m;
}.

Lemma tree_ok_votes g g' T led : votes_le g g' → tree_ok cfg g T led → tree_ok cfg g' T led.
Proof. intros Hg [A B]. split; [done|]. intros j t Hj. eapply elected_mono; [done|auto]. Qed.

Lemma grown_votes g g' i T led T' led' : votes_le g g' → grown cfg g i T led T' led' → grown cfg g' i T led T' led'.
Proof.
  intros Hg [A B C D]. split; [done..|]. intros j t Hj. destruct (D _ _ Hj) as [?|[-> ?]]; [by left|right].
  split; [done|by eapply elected_mono].
Qed.

(** One node moves on. *)
Lemma log_inv_update g g' T led T' led' c i mb' out :
  let c' := mkcluster (<[i := mb']> (cl_members c)) (cl_net c ++ out) in
  cfg.1 ≠ ∅ → log_inv g T led c → cl_inv cfg g' c' → votes_le g g' → grown cfg g i T led T' led' →
  at_node c i (fun mb => disk_term mb <= disk_term mb') →
  ((∀ t v, asked c t v → asked c' t v) → member_log g' c' T' led' i mb') →
  ((∀ t v, asked c t v → asked c' t v) → Forall (net_log c' T') out) →
  log_inv g' T' led' c'.
Proof.
  intros c' Hc [Hi Ht Hm Hl Hn] Hi' Hg Hgr Hd Hmb Hout.
  assert (∀ t v, asked c t v → asked c' t v) as Ha.
  { intros t v (mb & Hv & ?). destruct (decide (v = i)) as [->|Hne].
    - exists mb'. split; [apply lookup_insert_eq|]. specialize (Hd _ Hv). cbn in Hd. lia.
    - exists mb. split; [by rewrite <- Hv; apply lookup_insert_ne|done]. }
  specialize (Hmb Ha). specialize (Hout Ha).
  pose proof (tree_ok_grown _ _ _ _ _ _ _ (tree_ok_votes _ _ _ _ Hg Ht) (grown_votes _ _ _ _ _ _ _ Hg Hgr)) as Ht'.
  split; [done..| | |].
  - intros j mb. cbn. destruct (decide (j = i)) as [->|Hne]; [rewrite lookup_insert_eq; by intros [= <-]|].
    rewrite lookup_insert_ne by done. intros Hj. destruct (Hm _ _ Hj) as [? ? ?]. split; [done..|].
    eapply node_log_other; [exact Hc|exact Hne|exact Hg|exact Ha|exact Ht'|by eapply grown_votes|done].
  - intros j t Hj. cbn. destruct (gr_by _ _ _ _ _ _ _ Hgr _ _ Hj) as [Hin|[-> _]]; [|by rewrite lookup_insert_eq].
    destruct (decide (j = i)) as [->|]; [by rewrite lookup_insert_eq|]. rewrite lookup_insert_ne by done. by eapply Hl.
  - intros m. cbn. intros [Hin|Hin]%elem_of_app; [|rewrite Forall_forall in Hout; by apply Hout].
    destruct (Hn m Hin) as (? & ? & ?). split_and!; auto. eapply msg_path_mono; [apply Hgr|done].
Qed.

(** A node steps without writing its hard state. *)
Lemma log_inv_put g g' T led T' led' c c' i mb rn' :
  cfg.1 ≠ ∅ → log_inv g T led c → cl_members c !! i = Some mb → put_node cfg i mb rn' c = Some c' →
  cl_inv cfg g' c' → votes_le g g' → grown cfg g i T led T' led' →
  rn_asyncStorageWrites rn' = rn_asyncStorageWrites (mb_node mb) →
  (rn_stepsOnAdvance rn' = rn_stepsOnAdvance (mb_node mb) ∨ rn_stepsOnAdvance rn' = []) →
  node_log cfg g (asked c) i (disk_term mb) T' led' (rn_raft rn') →
  log_inv g' T' led' c'.
Proof.
  intros Hc Hi Hm Hput Hi' Hg Hgr Has Hst Hn. revert Hput Hi'. unfold put_node. destruct (node_ok _ _ _); [|done]. intros [= <-].
  replace (cl_net c) with (cl_net c ++ []) by apply app_nil_r. intros Hi'. destruct (li_members _ _ _ _ Hi _ _ Hm) as [Hs Ho _].
  eapply log_inv_update; [exact Hc|exact Hi|exact Hi'|exact Hg|exact Hgr| | |].
  - intros mb0 Hm0. rewrite Hm in Hm0. injection Hm0 as <-. done.
  - intros Ha. split; cbn; [congruence| |by eapply node_log_mono].
    destruct Hst as [-> | ->]; [done|by apply Forall_nil].
  - intros _. by apply Forall_nil.
Qed.

(** ** The actions *)

Lemma log_inv_start g g' T led c c' (conf : RaftConfig S) rands :
  cfg.1 ≠ ∅ → log_inv g T led c → log_contract (AStart conf rands) c → perform cfg (AStart conf rands) c = Some c' →
  cl_inv cfg g' c' → votes_le g g' → log_inv g' T led c'.
Proof.
  intros Hc Hi (Ha & s & Hs & Hok & Hst) E Hi' Hg. cbn in E. apply bind_Some in E as (rn & En%from_ok_inv & E).
  pose proof (NewRawNode_coherent _ _ _ En) as Hco. pose proof (NewRawNode_inv _ _ _ En) as (_ & Hadv & _ & Hel). injection Hel as I Te V M A St.
  revert En. unfold NewRawNode. intros (r & En & [= <-])%bind_Ok. cbn in I, Te, V, M, A, St, Hco.
  destruct (newRaft_log _ _ _ _ En Hs Hok) as (W & Vw & Sto). unfold start_node in E. destruct (_ && _) eqn:Hb; [|done].
  apply andb_true_iff in Hb as [_ Hb]. injection E as <-. set (i := RaftConfig_ID conf) in *.
  assert (slog_path T (st_view s)) as Hp.
  { destruct (cl_members c !! i) as [mb|] eqn:Em; [|by apply slog_path_nil]. rewrite Hst. apply (li_members _ _ _ _ Hi _ _ Em). }
  assert (∀ mb, cl_members c !! i = Some mb → disk_term mb = HardState_GetTerm (initial_hs conf)) as Hd.
  { intros mb Em. rewrite Em in Hb. unfold isHardStateEqual in Hb. repeat rewrite andb_true_iff in Hb. lia. }
  replace (cl_net c) with (cl_net c ++ []) in * by apply app_nil_r.
  eapply log_inv_update; [exact Hc|exact Hi|exact Hi'|exact Hg|apply grown_refl| | |by intros; apply Forall_nil].
  - intros mb Em. cbn [mb_node mb_disk rn_raft rn_asyncStorageWrites rn_stepsOnAdvance]. rewrite (Hd _ Em). done.
  - intros _. split; [done|by apply Forall_nil|]. cbn [mb_node mb_disk rn_raft rn_asyncStorageWrites rn_stepsOnAdvance]. split; try done.
    + exact (mo_role _ _ _ _ (inv_members _ _ _ Hi' i _ (lookup_insert_eq _ _ _))).
    + by rewrite Vw.
    + by rewrite Sto.
    + rewrite M. by apply Forall_nil.
    + rewrite A. by apply Forall_nil.
    + intros ?. congruence.
    + intros ?. congruence.
    + intros t Hin. split; [|intros _; congruence]. destruct (li_led _ _ _ _ Hi _ _ Hin) as [mb Em]. rewrite <- (Hd _ Em).
      by apply (nl_led _ _ _ _ _ _ _ _ (mg_node _ _ _ _ _ _ (li_members _ _ _ _ Hi _ _ Em))).
    + rewrite Te. done.
Qed.

(** [RawNode.Step] ignores some messages and hands the others to the node. *)
Lemma RawNode_Step_run m rn x rn' :
  RawNode_Step m rn = Ok (x, rn') →
  ∃ r', rn' = set_rn_raft r' rn ∧ (r' = rn_raft rn ∨ ∃ u, raft_Step m (rn_raft rn) = Ok (u, r')).
Proof.
  unfold RawNode_Step. intros E. assert (rn = set_rn_raft (rn_raft rn) rn) as Hrn by (by destruct rn).
  destruct (_ && _) in E; [injection E as _ <-; eauto|]. destruct (_ && _ && _) in E; [injection E as _ <-; eauto|].
  apply on_raft_inv in E as (r' & E & ->). eauto.
Qed.

Lemma log_inv_message g g' T led c c' i mb (m : Message) x :
  cfg.1 ≠ ∅ → log_inv g T led c → cl_members c !! i = Some mb → msg_wf_b m = true → step_fits m (mb_raft mb) →
  msg_path T m → (Message_GetType m = MsgVote → asked c (Message_GetTerm m) (Message_GetFrom m)) →
  (Message_GetType m = MsgVoteResp → Message_GetReject m = false →
   Message_GetTo m = i ∧ grant_ok (Message_GetFrom m) (g (Message_GetFrom m)) m ∧ asked c (Message_GetTerm m) i) →
  RawNode_Step m (mb_node mb) = Ok x → put_node cfg i mb x.2 c = Some c' → cl_inv cfg g' c' → votes_le g g' →
  ∃ T' led', T ⊆ T' ∧ log_inv g' T' led' c'.
Proof.
  intros Hc Hi Hm Hwf Hf Hp Hv Hgr E Hput Hi' Hg. destruct x as [e rn'].
  pose proof (li_members _ _ _ _ Hi _ _ Hm) as [_ _ Hn]. pose proof (inv_members _ _ _ (li_inv _ _ _ _ Hi) _ _ Hm) as Hmo.
  apply RawNode_Step_run in E as (r' & -> & [->|(u & E)]).
  { exists T, led. split; [done|]. eapply log_inv_put; [exact Hc|exact Hi|exact Hm|exact Hput|done|done|apply grown_refl|done|by left|done]. }
  destruct (node_log_step cfg g (asked c) i (disk_term mb) T led m (mb_raft mb) u r') as (T' & led' & Hgw & Hn' & _); [done|apply Hi|done| | |done|].
  - apply fits_msg_log; [by apply msg_wf_b_spec|done..| |done]. intros Hty Hrej Hnow. destruct (Hgr Hty Hrej) as (Hto & Hgo & Has).
    pose proof (mo_named _ _ _ _ Hmo) as Hna. split; [by apply counted_grant|].
    destruct Hgo as (_ & Hnz & _); [split_and!; congruence|]. destruct Hnow as [?|Hnow]; [done|].
    destruct Has as (mb0 & Hm0 & Hle). rewrite Hm in Hm0. injection Hm0 as <-. lia.
  - pose proof (mo_guard _ _ _ _ Hmo) as Hgd. unfold node_ok in Hgd. by apply andb_true_iff in Hgd as [_ ?].
  - exists T', led'. split; [apply Hgw|]. eapply log_inv_put; [exact Hc|exact Hi|exact Hm|exact Hput|done|done|exact Hgw|done|by left|done].
Qed.

Lemma log_inv_ready g g' T led c i mb mb' out :
  let c' := mkcluster (<[i := mb']> (cl_members c)) (cl_net c ++ out) in
  cfg.1 ≠ ∅ → log_inv g T led c → cl_members c !! i = Some mb → ready_member mb = Ok (mb', out) →
  cl_inv cfg g' c' → votes_le g g' → log_inv g' T led c'.
Proof.
  intros c' Hc Hi Hm E Hi' Hg. pose proof (li_members _ _ _ _ Hi _ _ Hm) as [Hs Ho Hn].
  pose proof (inv_members _ _ _ (li_inv _ _ _ _ Hi) _ _ Hm) as Hmo.
  pose proof (ready_member_coherent _ _ E (nl_coherent _ _ _ _ _ _ _ _ Hn)) as Hco. cbn in Hco.
  apply bind_Ok in E as ([rd rn'] & E & E'). apply bind_Ok in E as (rd1 & Er & E).
  apply bind_Ok in E as (rn1 & Eacc & [= <- <-]). pose proof (handed_out _ _ _ _ _ Hmo Er) as Hho.
  pose proof (ready_messages_sync _ _ Er Hs) as Hmsg. pose proof (accept_log _ _ _ Er Eacc) as [Hl _].
  apply accept_shape in Eacc as (Hel & Htrk & Has & Hp & Hst). rewrite Hs in Has, Hst. rewrite Has in E'. injection E' as <- <-.
  set (r := mb_raft mb) in *.
  assert (HardState_GetTerm (if IsEmptyHardState (Ready_HardState rd1) then mb_disk mb else Ready_HardState rd1) = raft_Term r) as Hd.
  { destruct Hmo as [(vol & _ & Hw) _ _ _ Sy _ _ _]. rewrite (Sy Hs) in Hw. destruct Hw as [_ [Hpd _]]. destruct Hho as [Hho _].
    cbn in Hho. rewrite <- Hho. destruct (IsEmptyHardState _); done. }
  assert (disk_term mb <= raft_Term r) as Hdu by (apply Hn).
  eapply log_inv_update; [exact Hc|exact Hi|exact Hi'|exact Hg|apply grown_refl| | |].
  - intros mb0 Hm0. rewrite Hm in Hm0. injection Hm0 as <-. cbn [mb_node mb_disk rn_raft rn_asyncStorageWrites rn_stepsOnAdvance]. rewrite Hd. done.
  - intros Ha. split; cbn [mb_node mb_disk rn_raft rn_asyncStorageWrites rn_stepsOnAdvance]; [done| |].
    + destruct Hst as (st & -> & Hty). apply Forall_app. split.
      * apply Forall_forall. intros m [_ Hin]%list_elem_of_filter. left.
        pose proof (nl_later _ _ _ _ _ _ _ _ Hn) as La. rewrite Forall_forall in La. by apply La.
      * eapply Forall_impl; [exact Hty|]. intros m Hm0. by right.
    + eapply node_log_ready; [exact Hn|done..].
  - intros Ha. assert (asked c' (raft_Term r) i) as Hme.
    { eexists. split; [apply lookup_insert_eq|]. cbn [mb_node mb_disk rn_raft rn_asyncStorageWrites rn_stepsOnAdvance]. rewrite Hd. done. }
    assert (∀ t, t <= raft_Term r → asked c' t i) as Hme' by (intros t Hle; destruct Hme as (mb0 & ? & ?); exists mb0; split; [done|lia]).
    rewrite Hmsg. apply Forall_app. split.
    + eapply Forall_impl; [apply Forall_and; split; [exact (nl_msgs _ _ _ _ _ _ _ _ Hn)|]|].
      { destruct Hmo as [(vol & [_ _ _ No] & _) _ _ _ _ _ _ _]. exact No. }
      intros m [[Hpa Hask] (Hnp & _)]. split_and!; [done| |].
      * intros Ht. destruct (Hask Ht) as [-> ?]. by apply Hme'.
      * intros (Ht & _). exfalso. apply Hnp. right. by left.
    + apply Forall_forall. intros m [Hns Hin]%list_elem_of_filter.
      pose proof (nl_later _ _ _ _ _ _ _ _ Hn) as La. rewrite Forall_forall in La. destruct (La m Hin) as [Hla Hgr].
      split_and!.
      * intros Ht. destruct Hla as [?|[?|?]]; congruence.
      * intros Ht. destruct Hla as [?|[?|?]]; congruence.
      * intros Hg'. destruct (Hgr Hg') as [Hto|?]; [|by apply Ha]. exfalso. unfold to_self in Hns.
        pose proof (nl_id _ _ _ _ _ _ _ _ Hn) as Hid. fold r in Hid. rewrite Hid, Hto, Z.eqb_refl in Hns. done.
Qed.

Lemma log_inv_step g T led c c' :
  cfg.1 ≠ ∅ → log_inv g T led c → log_step c c' →
  ∃ g' T' led', votes_le g g' ∧ T ⊆ T' ∧ log_inv g' T' led' c'.
Proof.
  intros Hc Hi (a & Hk & E). destruct (cl_inv_step cfg g c c' (li_inv _ _ _ _ Hi)) as (g' & Hg & Hi'); [by exists a|].
  exists g'. assert (∀ T' led', T ⊆ T' → log_inv g' T' led' c' →
    ∃ T' led', votes_le g g' ∧ T ⊆ T' ∧ log_inv g' T' led' c') as Hdone by (intros T1 led1 ? ?; exists T1, led1; done).
  assert ((∃ T' led', T ⊆ T' ∧ log_inv g' T' led' c') → ∃ T' led', votes_le g g' ∧ T ⊆ T' ∧ log_inv g' T' led' c') as Hdone'
    by (intros (T1 & led1 & ? & ?); exists T1, led1; done).
  destruct a as [conf rands|conf rands peers|i x|i k|i m|i|i|i|i s]; [|done|..]; cbn [perform] in E.
  - apply (Hdone T led); [done|]. by eapply log_inv_start.
  - apply bind_Some in E as (mb & Hm & E). apply bind_Some in E as (rn & Er%from_ok_inv & E).
    pose proof (li_members _ _ _ _ Hi _ _ Hm) as [_ _ Hn]. pose proof (inv_members _ _ _ (li_inv _ _ _ _ Hi) _ _ Hm) as Hmo.
    pose proof (mo_guard _ _ _ _ Hmo) as Hgd. unfold node_ok in Hgd. apply andb_true_iff in Hgd as [_ Hgd].
    destruct (run_call_log cfg g (asked c) i (disk_term mb) T led x (mb_node mb) rn) as (T' & led' & r' & -> & Hgw & Hn'); try done.
    { apply Hi. } { by apply Hk. }
    apply (Hdone T' led'); [apply Hgw|]. eapply log_inv_put; [exact Hc|exact Hi|exact Hm|exact E|done|done|exact Hgw|done|by left|done].
  - apply bind_Some in E as (mb & Hm & E). apply bind_Some in E as (m & Hin & E).
    destruct (_ && _) eqn:Hb; [|done]. apply andb_true_iff in Hb as [Hto Hwf].
    apply bind_Some in E as (x & Ex%from_ok_inv & E). apply Hdone'. pose proof (Hk m Hin mb Hm) as Hf.
    apply list_elem_of_lookup_2 in Hin. destruct (li_net _ _ _ _ Hi m Hin) as (Hp & Hv & Hgr).
    eapply log_inv_message; [exact Hc|exact Hi|exact Hm|done|done|done|done| |exact Ex|exact E|done|done].
    intros Hty Hrej. assert (Message_GetTo m = i) as Hti by lia. pose proof (mo_named _ _ _ _ (inv_members _ _ _ (li_inv _ _ _ _ Hi) _ _ Hm)).
    split_and!; [done|by apply (inv_net _ _ _ (li_inv _ _ _ _ Hi))|]. rewrite <- Hti. apply Hgr. split_and!; congruence.
  - apply bind_Some in E as (mb & Hm & E). destruct (_ && _) eqn:Hb; [|done]. destruct Hk as (Hk1 & Hk2 & Hk).
    apply andb_true_iff in Hb as [Hn Hwf]. apply bind_Some in E as (x & Ex%from_ok_inv & E). apply Hdone'.
    eapply log_inv_message; [exact Hc|exact Hi|exact Hm|done|by apply Hk|intros ?; done|intros ?; done| |exact Ex|exact E|done|done].
    intros Hty Hrej. unfold grants_vote in Hn. by rewrite Hty, Hrej in Hn.
  - apply bind_Some in E as (mb & Hm & E). apply bind_Some in E as ([mb' out] & Er%from_ok_inv & [= <-]).
    apply (Hdone T led); [done|]. by eapply log_inv_ready.
  - apply bind_Some in E as (mb & Hm & E). destruct (advance_ok _ _ _) eqn:Hok; [|done].
    apply bind_Some in E as (rn & Er%from_ok_inv & E). revert Er. unfold RawNode_Advance.
    destruct (rn_asyncStorageWrites (mb_node mb)) eqn:Has; [done|]. intros ([u r'] & Es & [= <-])%bind_Ok.
    pose proof (li_members _ _ _ _ Hi _ _ Hm) as [_ Ho Hn]. pose proof (inv_members _ _ _ (li_inv _ _ _ _ Hi) _ _ Hm) as Hmo.
    destruct (node_log_steps cfg g (asked c) i (disk_term mb) T led (rn_stepsOnAdvance (mb_node mb)) (mb_raft mb) u r')
      as (T' & led' & Hgw & Hn'); try done; [apply Hi|apply Hmo| |apply Hmo|by apply Hk|].
    { intros t Ht. by eapply (mo_disk _ _ _ _ Hmo). }
    apply (Hdone T' led'); [apply Hgw|]. eapply log_inv_put; [exact Hc|exact Hi|exact Hm|exact E|done|done|exact Hgw|done|by right|done].
  - apply bind_Some in E as (mb & Hm & E). pose proof (inv_members _ _ _ (li_inv _ _ _ _ Hi) _ _ Hm) as Hmo.
    rewrite (mo_sync _ _ _ _ Hmo) in E; [done|]. apply (li_members _ _ _ _ Hi _ _ Hm).
  - apply bind_Some in E as (mb & Hm & E). apply (Hdone T led); [done|].
    eapply log_inv_put; [exact Hc|exact Hi|exact Hm|exact E|done|done|apply grown_refl|done|by left|].
    cbn [rn_raft set_rn_raft]. apply node_log_storage; [apply (li_members _ _ _ _ Hi _ _ Hm)|by apply Hk].
Qed.

Lemma log_inv_init : log_inv (fun _ => ∅) ∅ ∅ cl_init.
Proof.
  split; [apply cl_inv_init|split; [|set_solver]|done|set_solver|set_solver].
  intros k t x. by rewrite lookup_empty.
Qed.

Lemma log_inv_steps g T led c c' :
  cfg.1 ≠ ∅ → log_inv g T led c → rtc log_step c c' → ∃ g' T' led', votes_le g g' ∧ T ⊆ T' ∧ log_inv g' T' led' c'.
Proof.
  intros Hc Hi Hs. revert g T led Hi. induction Hs as [c|c c1 c2 H1 _ IH]; intros g T led Hi; [by exists g, T, led|].
  destruct (log_inv_step _ _ _ _ _ Hc Hi H1) as (g1 & T1 & l1 & Hg1 & HT1 & Hi1).
  destruct (IH _ _ _ Hi1) as (g2 & T2 & l2 & Hg2 & HT2 & Hi2). exists g2, T2, l2. split_and!; [by trans g1|by trans T1|done].
Qed.

(** C5. Log matching: in a cluster with a fixed configuration whose applications
    store what a Ready holds before they send its messages, whatever messages
    are lost, delivered twice or out of order and whenever nodes crash and
    restart, if the logs of two nodes, even at different times, hold an entry
    with the same index and term, they hold the same entries up to that index,
    as far as neither is compacted. *)
Theorem log_matching c1 c2 i j mb1 mb2 index e1 e2 :
  cfg.1 ≠ ∅ →
  rtc log_step cl_init c1 → cl_members c1 !! i = Some mb1 →
  rtc log_step c1 c2 → cl_members c2 !! j = Some mb2 →
  let g1 := log_view (mb_log mb1) in
  let g2 := log_view (mb_log mb2) in
  slog_at g1 index = Some e1 → slog_at g2 index = Some e2 → Entry_GetTerm e1 = Entry_GetTerm e2 →
  ∀ k, sl_base g1 < k → sl_base g2 < k → k <= index → slog_at g1 k = slog_at g2 k.
Proof.
  intros Hc H1 M1 H2 M2 g1 g2 E1 E2 Et.
  destruct (log_inv_steps _ _ _ _ _ Hc log_inv_init H1) as (v1 & T1 & l1 & _ & _ & I1).
  destruct (log_inv_steps _ _ _ _ _ Hc I1 H2) as (v2 & T2 & l2 & _ & HT & I2).
  apply (paths_match T2 _ _ index e1 e2); [|apply (li_members _ _ _ _ I2 _ _ M2)|done..].
  eapply slog_path_mono; [exact HT|]. apply (li_members _ _ _ _ I1 _ _ M1).
Qed.

End cluster_log.

(** ** An application on MemoryStorage

    Its runs keep to the contract: a node stores its unstable entries and its
    hard state in one go, and restarts from what it has stored. *)

Section memory.
Context `{Protobuf, !ProtobufLaws _}.
Context (cfg : JointConfig).
Implicit Types (r : raft MemoryStorage) (l : raftLog MemoryStorage) (c : cluster MemoryStorage).

#[export] Instance slog_eq_dec : EqDecision slog.
Proof. solve_decision. Defined.

Inductive mem_event : Type :=
  | Act (a : action MemoryStorage)
  | Keep (i : Z)                                        (* store the unstable entries *)
  | Reboot (i : Z) (conf : RaftConfig MemoryStorage).   (* crash and restart from storage *)

Definition fits_check (m : Message) r : bool :=
  (log_last (raft_raftLog r) + (len (Message_GetEntries m) + 1) <? 9223372036854775808) &&
  match Message_GetType m with
  | MsgApp => Message_GetIndex m + len (Message_GetEntries m) <? MaxUint64
  | MsgSnap => snap_index (Message_GetSnapshot m) <? MaxUint64
  | MsgStorageAppendResp =>
      let l := raft_raftLog r in
      match Message_GetSnapshot m, unstable_snapshot (raftLog_unstable l) with
      | None, None => (0 <=? Message_GetIndex m) && (Message_GetIndex m <? MaxUint64) &&
          (Message_GetIndex m <=? log_last l) && bool_decide (st_view (raftLog_storage l) = log_view l)
      | _, _ => false
      end
  | _ => true
  end.

Fixpoint steps_check (ms : list Message) r : bool :=
  match ms with
  | [] => true
  | m :: ms => fits_check m r && match raft_Step m r with Ok x => steps_check ms x.2 | Panic _ => true end
  end.

Definition check_node c (i : Z) (f : host MemoryStorage → bool) : bool :=
  match cl_members c !! i with Some mb => f mb | None => true end.

Definition contract_check (a : action MemoryStorage) c : bool :=
  match a with
  | AStart conf _ =>
      negb (RaftConfig_AsyncStorageWrites conf) &&
      match RaftConfig_Storage conf, cl_members c !! RaftConfig_ID conf with
      | Some s, None => match ms_ents s with [d] => (0 <=? Entry_GetIndex d) && (Entry_GetIndex d <? MaxUint64) | _ => false end
      | _, _ => false
      end
  | ABootstrap _ _ _ | AStorage _ _ => false
  | ACall i _ => check_node c i (fun mb => log_last (mb_log mb) + 2 <? 9223372036854775808)
  | ADeliver i k => match cl_net c !! k with Some m => check_node c i (fun mb => fits_check m (mb_raft mb)) | None => true end
  | AForge i m => negb (mt_eqb (Message_GetType m) MsgApp) && negb (mt_eqb (Message_GetType m) MsgVote) &&
      check_node c i (fun mb => fits_check m (mb_raft mb))
  | AAdvance i => check_node c i (fun mb => steps_check (rn_stepsOnAdvance (mb_node mb)) (mb_raft mb))
  | AReady _ | AWrite _ => true
  end.

Definition keep (mb : host MemoryStorage) : option MemoryStorage :=
  let l := mb_log mb in
  match unstable_snapshot (raftLog_unstable l), unstable_entries (raftLog_unstable l) with
  | None, _ :: _ =>
      if len (ms_ents (raftLog_storage l)) + len (unstable_entries (raftLog_unstable l)) <? 9223372036854775808
      then from_ok (ms_Append (unstable_entries (raftLog_unstable l)) (raftLog_storage l)) else None
  | _, _ => None
  end.

(** The configuration with the node's own storage. *)
Definition reboot (i : Z) (conf : RaftConfig MemoryStorage) (mb : host MemoryStorage) : RaftConfig MemoryStorage :=
  mkRaftConfig i (RaftConfig_ElectionTick conf) (RaftConfig_HeartbeatTick conf)
    (Some (ms_SetHardState (mb_disk mb) (raftLog_storage (mb_log mb)))) (RaftConfig_Applied conf) false
    (RaftConfig_MaxSizePerMsg conf) (RaftConfig_MaxCommittedSizePerReady conf) (RaftConfig_MaxUncommittedEntriesSize conf)
    (RaftConfig_MaxInflightMsgs conf) (RaftConfig_MaxInflightBytes conf) (RaftConfig_CheckQuorum conf) (RaftConfig_PreVote conf)
    (RaftConfig_ReadOnlyOption conf) (RaftConfig_DisableProposalForwarding conf) (RaftConfig_DisableConfChangeValidation conf)
    (RaftConfig_StepDownOnRemoval conf).

Definition mem_event_run (e : mem_event) c : option (cluster MemoryStorage) :=
  match e with
  | Act a => if contract_check a c then perform cfg a c else None
  | Keep i => mb ← cl_members c !! i; s ← keep mb; perform cfg (AStorage i s) c
  | Reboot i conf => mb ← cl_members c !! i; perform cfg (AStart (reboot i conf mb) []) c
  end.

Fixpoint mem_run (es : list mem_event) c : option (cluster MemoryStorage) :=
  match es with
  | [] => Some c
  | e :: es => c' ← mem_event_run e c; mem_run es c'
  end.

(** *** The runs keep to the contract *)

Lemma fits_check_ok m r : fits_check m r = true → step_fits m r.
Proof.
  unfold fits_check. rewrite andb_true_iff. intros [Hr Ht]. split; [unfold room; lia|].
  split_and!; intros Hty; rewrite Hty in Ht; [lia..|]. cbn zeta in Ht.
  destruct (Message_GetSnapshot m) eqn:Es; [done|]. destruct (unstable_snapshot _) eqn:Eu; [done|].
  repeat rewrite andb_true_iff in Ht. destruct Ht as [[[? ?] Hl] Hv%bool_decide_eq_true].
  apply ack_ok_entries; [done|done|lia|]. intros _. unfold stable_contract. cbn zeta. rewrite Hv. split_and!; [lia|done|done].
Qed.

Lemma steps_check_ok ms r : steps_check ms r = true → steps_fit ms r.
Proof.
  revert r. induction ms as [|m ms IH]; intros r; [done|]. cbn. rewrite andb_true_iff. intros [Hf%fits_check_ok Hs].
  split; [done|]. destruct (raft_Step m r); [|done]. by apply IH.
Qed.

Lemma check_node_ok c i f (P : host MemoryStorage → Prop) :
  check_node c i f = true → (∀ mb, f mb = true → P mb) → at_node c i P.
Proof. unfold check_node. intros E Hf mb Hm. rewrite Hm in E. auto. Qed.

Lemma contract_check_ok a c : contract_check a c = true → log_contract a c.
Proof.
  destruct a as [conf rands|conf rands peers|i x|i k|i m|i|i|i|i s]; cbn [contract_check log_contract]; try done.
  - rewrite andb_true_iff, negb_true_iff. intros [Ha Hs]. split; [done|]. destruct (RaftConfig_Storage conf) as [s|]; [|done].
    destruct (cl_members c !! _); [done|]. exists s. split; [done|]. cbn. unfold ms_ok, ms_view.
    destruct (ms_ents s) as [|d [|]]; [done| |done]. apply andb_true_iff in Hs as [? ?]. split; [|done]. split_and!; [done| |done].
    split_and!; cbn; [lia| |auto with raft]. unfold slog_last. cbn. rewrite len_nil. lia.
  - intros E. eapply check_node_ok; [exact E|]. cbn. intros mb Hr. unfold room. lia.
  - intros E m Hm. rewrite Hm in E. eapply check_node_ok; [exact E|]. intros mb. apply fits_check_ok.
  - repeat rewrite andb_true_iff. intros [[H1 H2] E]. split_and!.
    + intros Ht. by rewrite Ht in H1.
    + intros Ht. by rewrite Ht in H2.
    + eapply check_node_ok; [exact E|]. intros mb. apply fits_check_ok.
  - intros E. eapply check_node_ok; [exact E|]. intros mb. apply steps_check_ok.
Qed.

(** Saving the unstable entries makes storage and log the same. *)
Lemma keep_saves mb s : log_wf (mb_log mb) → keep mb = Some s → saves s (mb_log mb).
Proof.
  intros W. unfold keep. set (l := mb_log mb) in *. destruct (unstable_snapshot _) eqn:Eu; [done|].
  destruct (unstable_entries (raftLog_unstable l)) as [|e es] eqn:Ee; [done|]. zcase; [|done]. intros Es%from_ok_inv.
  rewrite <- Ee in *. destruct (persist_ok l W Eu) as (ms' & E & W' & V & (Hl & Ht & Hla)); [by rewrite Ee|done|].
  rewrite Es in E. injection E as <-. specialize (Hla (f_equal slog_last (eq_sym V))).
  split_and!; [done|done|]. rewrite <- V.
  set (l' := set_raftLog_storage s l) in *. change (raftLog_storage l') with s in Ht, Hla.
  assert (log_base l' = sl_base (st_view s)) as Hb by (unfold l', log_base; cbn; by rewrite Eu).
  assert (log_base_term l' = sl_term (st_view s)) as Hbt by (unfold l', log_base_term; cbn; by rewrite Eu).
  assert (len (sl_ents (log_view l')) = log_last l - sl_base (st_view s)) as Hn.
  { rewrite <- V, <- Hb. unfold slog_last. cbn [sl_base log_view]. lia. }
  unfold slog_last at 1 in Hla. rewrite Hb, !take_ge in Ht by (unfold len in *; lia).
  destruct (st_view s) as [b t ents]. unfold log_view in Ht |- *. rewrite Hb, Hbt. cbn [sl_base sl_term sl_ents] in Ht |- *. by f_equal.
Qed.

Lemma mem_event_ok e c c' :
  cfg.1 ≠ ∅ → rtc (log_step cfg) cl_init c → mem_event_run e c = Some c' → log_step cfg c c'.
Proof.
  intros Hc Hs. destruct (log_inv_steps cfg _ _ _ _ _ Hc (log_inv_init cfg) Hs) as (g & T & led & _ & _ & Hi).
  destruct e as [a|i|i conf]; cbn [mem_event_run].
  - destruct (contract_check a c) eqn:E; [|done]. intros Ep. exists a. split; [by apply contract_check_ok|done].
  - intros (mb & Hm & E)%bind_Some. apply bind_Some in E as (s & Es & Ep). exists (AStorage i s). split; [|done].
    intros mb0 Hm0. rewrite Hm in Hm0. injection Hm0 as <-. apply saves_storage_ok, keep_saves; [apply (li_members _ _ _ _ _ Hi _ _ Hm)|done].
  - intros (mb & Hm & Ep)%bind_Some. exists (AStart (reboot i conf mb) []). split; [|done]. split; [done|].
    eexists. split; [done|]. cbn [RaftConfig_ID reboot]. rewrite Hm. split; [|done].
    apply (lwf_storage _ (nl_wf _ _ _ _ _ _ _ _ (mg_node _ _ _ _ _ _ _ (li_members _ _ _ _ _ Hi _ _ Hm)))).
Qed.

Lemma mem_run_ok es c c' :
  cfg.1 ≠ ∅ → rtc (log_step cfg) cl_init c → mem_run es c = Some c' → rtc (log_step cfg) c c'.
Proof.
  intros Hc. revert c. induction es as [|e es IH]; intros c Hs; cbn; [by intros [= ->]|].
  intros (c1 & E & E1)%bind_Some. apply mem_event_ok in E; [|done..]. eapply rtc_l; [exact E|]. apply IH; [|done].
  by eapply rtc_r.
Qed.

End memory.

(** ** A run *)

#[local] Existing Instances sample_Protobuf sample_ProtobufLaws.

(** A new node: no entries, and a snapshot that lists the members. *)
Definition ex_new_conf (id : Z) : RaftConfig MemoryStorage :=
  mkRaftConfig id 10 1 (Some (mkMemoryStorage None (Some (mkSnapshot None (Some (mkSnapshotMetadata
      (Some (mkConfState [1; 2; 3] [] [] [] None)) None None)))) [Entry0]))
    0 false noLimit 0 0 256 0 false false ReadOnlySafe false false false.

(** Node 1 is elected by node 2, which crashes and restarts before the vote
    arrives, and replicates the entry of its election. *)
Definition ex_first : list mem_event :=
  [Act (AStart (ex_new_conf 1) []); Act (AStart (ex_new_conf 2) []); Act (AStart (ex_new_conf 3) []);
   Act (ACall 1 CCampaign); Act (AReady 1); Act (AAdvance 1);
   Act (ADeliver 2 0); Act (AReady 2); Reboot 2 (ex_new_conf 2); Act (ADeliver 1 2);
   Act (AReady 1); Keep 1; Act (AAdvance 1); Act (ADeliver 2 3); Act (AReady 2); Keep 2; Act (AAdvance 2)].

(** Node 2 acknowledges it, node 1 replicates a proposal, and node 2 stores it,
    crashes and restarts. *)
Definition ex_second : list mem_event :=
  [Act (ADeliver 1 5); Act (ACall 1 (CPropose (Some [Byte.x78]))); Act (AReady 1); Keep 1; Act (AAdvance 1);
   Act (ADeliver 2 7); Act (AReady 2); Keep 2; Reboot 2 (ex_new_conf 2)].

Definition run_of (es : list mem_event) (c : cluster MemoryStorage) : cluster MemoryStorage :=
  default cl_init (mem_run ex_cfg es c).

Definition ex_matching : cluster MemoryStorage := run_of (ex_first ++ ex_second) cl_init.

Lemma ex_matching_run : mem_run ex_cfg (ex_first ++ ex_second) cl_init = Some ex_matching.
Proof. vm_compute. reflexivity. Qed.

Lemma log_matching_witness :
  ∃ mb1 mb2 e1 e2, cl_members ex_matching !! 1 = Some mb1 ∧ cl_members ex_matching !! 2 = Some mb2 ∧
    slog_at (log_view (mb_log mb1)) 2 = Some e1 ∧ slog_at (log_view (mb_log mb2)) 2 = Some e2 ∧
    slog_at (log_view (mb_log mb1)) 1 = slog_at (log_view (mb_log mb2)) 1.
Proof.
  assert (ex_cfg.1 ≠ ∅) as Hc by (apply (bool_decide_unpack _); vm_compute; exact I).
  destruct (cl_members ex_matching !! 1) as [mb1|] eqn:E1; [|vm_compute in E1; discriminate E1].
  destruct (cl_members ex_matching !! 2) as [mb2|] eqn:E2; [|vm_compute in E2; discriminate E2].
  assert (slog_at (log_view (mb_log mb1)) 2 = Some (mkEntry (Some 1) (Some 2) None (Some [Byte.x78]))) as A1
    by (vm_compute in E1; injection E1 as <-; reflexivity).
  assert (slog_at (log_view (mb_log mb2)) 2 = Some (mkEntry (Some 1) (Some 2) None (Some [Byte.x78]))) as A2
    by (vm_compute in E2; injection E2 as <-; reflexivity).
  exists mb1, mb2, (mkEntry (Some 1) (Some 2) None (Some [Byte.x78])), (mkEntry (Some 1) (Some 2) None (Some [Byte.x78])).
  split; [reflexivity|]. split; [reflexivity|]. split; [exact A1|]. split; [exact A2|].
  apply (log_matching ex_cfg ex_matching ex_matching 1 2 mb1 mb2 2 _ _ Hc
    (mem_run_ok ex_cfg _ _ _ Hc (rtc_refl _ _) ex_matching_run) E1 (rtc_refl _ _) E2 A1 A2 eq_refl).
  - vm_compute in E1. injection E1 as <-. vm_compute. reflexivity.
  - vm_compute in E2. injection E2 as <-. vm_compute. reflexivity.
  - lia.
Defined.
