(* ===== verification/ClusterCommit.v ===== *)
(** * State machine safety in a cluster

    The cluster of Cluster.v and ClusterLog.v with the history of History.v: what
    nodes hold committed is committed, so that no two nodes ever hold different
    entries committed at the same index, and a leader has all that was committed
    in earlier terms. *)
From stdpp Require Import functions.
From S2P Require Import Prelude Proto Quorum Inflights Progress Tracker Util Storage.
From S2P Require Import Unstable Log ConfChange ReadOnly Raft RaftStep RaftRel.
From S2P Require Import RaftSafety RaftInv RaftAck LogTree History NodeCommit RawNode Cluster NodeLog ClusterLog.

Section node.
Context {S : Type} `{Protobuf, !ProtobufLaws _} `{!Storage S} `{!StorageLaws S}.
Context (b bt : Z) (cfg : JointConfig).
Implicit Types (r : raft S) (Y : history) (V : Z → Z) (m : Message) (sent : list Message) (g : Z → gmap Z Z) (asked : Z → Z → Prop).

Abbreviation view r := (log_view (raft_raftLog r)).
Abbreviation stored r := (st_view (raftLog_storage (raft_raftLog r))).

(** What the storage of a node holds: the log [s], the term [d] and the commit
    index [dc]. *)
Record node_disk Y (i d dc : Z) V (s : slog) : Prop := mknode_disk {
  dk_view : rooted b bt (hy_tree Y) s;
  dk_terms : within b bt s d;
  dk_promise : promises b Y s d (hy_ack Y i);
  dk_settled : settled b cfg Y s d dc;
  dk_acks : ∀ t, hy_ack Y i t <= V t;
  dk_past : ∀ t, t < d → V t = hy_ack Y i t;
}.

Record node_state g asked sent Y (i d dc : Z) V r : Prop := mknode_state {
  ns_log : node_log cfg g asked i d (hy_tree Y) (hy_led Y) r;
  ns_repl : node_repl b bt cfg Y i V r;
  ns_elect : node_elect b bt sent g Y i V r;
  ns_disk : node_disk Y i d dc V (stored r);
  ns_exact : raft_state r = StateLeader → hy_log Y (raft_Term r) = view r;
  ns_commit : dc <= raftLog_committed (raft_raftLog r);
}.

(** The history moves on with a step of node [i]. *)
Record moved g (i : Z) Y Y' : Prop := mkmoved {
  mv_evolved : evolved b g Y Y';
  mv_grown : grown cfg g i (hy_tree Y) (hy_led Y) (hy_tree Y') (hy_led Y');
  mv_ack : ∀ x, hy_ack Y' x = hy_ack Y x;
  mv_log : ∀ j t, j ≠ i → (j, t) ∈ hy_led Y → hy_log Y' t = hy_log Y t;
}.

Lemma moved_refl g i Y : moved g i Y Y.
Proof. split; [apply evolved_refl|apply grown_refl|done..]. Qed.

Lemma moved_trans g i Y1 Y2 Y3 : moved g i Y1 Y2 → moved g i Y2 Y3 → moved g i Y1 Y3.
Proof.
  intros [A1 B1 C1 D1] [A2 B2 C2 D2]. split; [by eapply evolved_trans|by eapply grown_trans|intros x; by rewrite C2, C1|].
  intros j t Hj Ht. rewrite (D2 j t Hj); [by eapply D1|]. by apply (gr_led _ _ _ _ _ _ _ B1).
Qed.

(** The message of a step. *)
Record msg_commit g sent Y (i : Z) m r : Prop := mkmsg_commit {
  mc_says : says_ok b cfg Y m;
  mc_to : Message_GetType m = MsgHeartbeat → Message_GetTo m = i;
  mc_ack : ack_known b Y m;
  mc_type : Message_GetType m ≠ MsgSnap;
  mc_grant : Message_GetType m = MsgVoteResp → Message_GetReject m = false → counted_now m r →
    vote_known b bt sent g Y i (raft_Term r) (Message_GetFrom m);
  mc_vote : Message_GetType m = MsgVote → m ∈ sent;
}.

Section steps.
Context (g : Z → gmap Z Z) (asked : Z → Z → Prop) (sent : list Message) (i d dc : Z).
Hypothesis Hcfg : cfg.1 ≠ ∅.
Hypothesis Hb0 : 0 <= b.
Hypothesis Hpast : ∀ x, x ∈ sent → Message_GetType x = MsgVote → Message_GetFrom x = i → Message_GetTerm x <= d.

Lemma node_disk_mono Y Y' V V' s u :
  evolved b g Y Y' → history_ok b bt cfg g Y → hy_ack Y' i = hy_ack Y i → raised V V' u → d <= u →
  node_disk Y i d dc V s → node_disk Y' i d dc V' s.
Proof.
  intros Hev Hok Hack Hra Hu [A B C D E F]. split; rewrite ?Hack; try done.
  - eapply rooted_mono; [apply Hev|done].
  - by eapply promises_mono.
  - by eapply settled_mono.
  - intros t. destruct (Hra t). specialize (E t). lia.
  - intros t Ht. destruct (Hra t) as [_ ->]; [auto|lia].
Qed.


(** The history after a step. *)
Lemma hist_step Y V m r u r' :
  history_ok b bt cfg g Y → tree_ok cfg g (hy_tree Y) (hy_led Y) → node_state g asked sent Y i d dc V r →
  msg_log g asked i d (hy_tree Y) m r → msg_commit g sent Y i m r → raft_guard cfg r = true → raft_Step m r = Ok (u, r') → does m r r' →
  ∃ Y', moved g i Y Y' ∧ history_ok b bt cfg g Y' ∧ node_log cfg g asked i d (hy_tree Y') (hy_led Y') r' ∧
    (raft_state r' = StateLeader → hy_log Y' (raft_Term r') = view r') ∧
    (wins m r → counted_now m r → hy_elect Y' (raft_Term r) = view r).
Proof.
  intros Hok Ht [Nl Nr Ne Nd Nx Nc] Ml Mc Hg E Hd. destruct (raft_guard_spec _ _ Hg) as [Hvo _].
  pose proof (node_log_step _ _ _ _ _ _ _ _ _ _ _ Hcfg Ht Nl Ml Hg E) as (T' & led' & Hgr & Nl' & HD).
  pose proof (does_leader _ _ _ Hd (mc_type _ _ _ _ _ _ Mc)) as Hlt. set (t := raft_Term r) in *.
  pose proof (nl_coherent _ _ _ _ _ _ _ _ Nl) as Hco. pose proof (rp_view _ _ _ _ _ _ _ Nr) as Rv.
  destruct HD as [(-> & -> & Hs')|[(Hled & Hkeys & new & Vw & Hnew) Hcase]].
  { exists Y. split_and!; [apply moved_refl|done|done|done|]. intros Hw Hnow. exfalso. apply Hs'. by apply (win_step _ _ _ _ E Hco Hw Hnow). }
  assert (∃ el old, rooted b bt (hy_tree Y) el ∧ below b bt el t ∧ view r = extends el old ∧
    Forall (fun e => Entry_GetTerm e = t) old ∧ (term_led Y t → hy_log Y t = view r ∧ hy_elect Y t = el) ∧
    (∃ q, joint_majority cfg q ∧ ∀ j, j ∈ q → g j !! t = Some i ∧ voted b bt Y (hy_ack Y j) t (last_id el)) ∧
    (wins m r → el = view r)) as (el & old & Hel & Hlast & Hext & Hold & Hsame & Hvotes & Hwe).
  { destruct Hcase as [Hs|(Hw & Hnow & Hs')].
    - destruct (nl_lead _ _ _ _ _ _ _ _ Nl Hs) as [Hin _]. assert (term_led Y t) as Hl by (by exists i).
      destruct (ho_elect _ _ _ _ _ Hok t Hl) as (He & Hla & old & Ho & Hf). exists (hy_elect Y t), old. rewrite <- (Nx Hs).
      split_and!; try done; [by apply (ho_votes _ _ _ _ _ Hok)|]. intros (_ & ? & _). congruence.
    - destruct (log_conditions _ _ _ _ _ _ _ _ _ Hcfg Nl Ml Hvo) as [Hcond _]. destruct (Hcond Hnow) as [Hwon _].
      pose proof Hw as (Hty & Hs & Hvw). destruct (Hwon Hty ltac:(congruence) ltac:(congruence) Hvw) as (_ & _ & Hele & _). fold t in Hele.
      assert (¬ term_led Y t) as Hnl.
      { intros [j Hj]. assert (j = i) as -> by (eapply elected_unique; [exact Hcfg|by apply (to_elected _ _ _ _ Ht)|done]).
        by destruct (nl_led _ _ _ _ _ _ _ _ Nl _ Hj) as [_ []]. }
      exists (view r), []. rewrite extends_nil. split_and!; try done; [by apply Ne|].
      eapply win_votes; [exact Ne|exact Rv|apply Nr|apply Nd|done|exact Hw|exact Hnow|exact Hvo| |].
      + intros j Hj. by apply (nl_role _ _ _ _ _ _ _ _ Nl).
      + intros Hrej. split; [by apply (ml_grant _ _ _ _ _ _ _ Ml)|by apply Mc]. }
  assert (slog_path T' (extends (view r) new)) as Hpath by (rewrite <- Vw; apply Nl').
  rewrite Vw in Hkeys.
  pose proof (grow_evolved b bt cfg g Y T' led' i t (view r) el old new Hok Rv Hel Hlast Hext Hold Hnew Hsame (gr_tree _ _ _ _ _ _ _ Hgr) Hpath Hled Hkeys Hvotes) as Hev.
  pose proof (grow_ok b bt cfg g Y T' led' i t (view r) el old new Hok Rv Hel Hlast Hext Hold Hnew Hsame (gr_tree _ _ _ _ _ _ _ Hgr) Hpath Hled Hkeys Hvotes) as Hok'.
  exists (hist_grow Y T' led' t (extends (view r) new) el). split_and!; [split; [done..|]|done|done| |].
  - intros j t' Hj Hin. cbn. rewrite fn_lookup_insert_ne; [done|]. intros <-. apply Hj.
    assert (elected cfg g i t) as He by (destruct Hvotes as (q & Hq & Hv); exists q; split; [done|]; intros x Hx; by apply Hv).
    eapply elected_unique; [exact Hcfg|by apply (to_elected _ _ _ _ Ht)|done].
  - intros Hs. rewrite Hlt by done. cbn. by rewrite fn_lookup_insert.
  - intros Hw _. cbn. rewrite fn_lookup_insert. auto.
Qed.

Lemma msg_commit_moved Y Y' m r :
  moved g i Y Y' → history_ok b bt cfg g Y → msg_commit g sent Y i m r → msg_commit g sent Y' i m r.
Proof.
  intros [Hev _ Hack _] Hok [A B C D E F]. split; try done.
  - by eapply says_ok_mono.
  - intros Hm. rewrite Hack. by apply C.
  - intros H1 H2 H3. eapply vote_known_mono; [exact Hev|exact Hok|done|done|by apply E].
Qed.

Lemma asked_past Y V r x :
  node_state g asked sent Y i d dc V r → x ∈ sent ∨ x ∈ raft_msgs r → Message_GetType x = MsgVote → Message_GetFrom x = i →
  Message_GetTerm x <= raft_Term r.
Proof.
  intros [Nl _ _ _ _ _] [Hx|Hx] Ht Hf.
  - specialize (Hpast x Hx Ht Hf). pose proof (nl_durable _ _ _ _ _ _ _ _ Nl). lia.
  - pose proof (nl_msgs _ _ _ _ _ _ _ _ Nl) as Hm. rewrite Forall_forall in Hm. by destruct (Hm x Hx) as [_ [_ ?]].
Qed.

Lemma node_log_moved Y V r r' Y' :
  moved g i Y Y' → history_ok b bt cfg g Y → node_state g asked sent Y i d dc V r →
  node_repl b bt cfg Y' i V r ∧ node_elect b bt sent g Y' i V r.
Proof.
  intros [Hev _ _ _] Hok [Nl Nr Ne _ _ _]. split; [by eapply node_repl_mono|].
  eapply node_elect_mono; [exact Hev|exact Hok|done|done|by left|apply Nr|done].
Qed.

(** Any step of a node. *)
Lemma node_step Y V m r u r' :
  history_ok b bt cfg g Y → tree_ok cfg g (hy_tree Y) (hy_led Y) → node_state g asked sent Y i d dc V r →
  msg_log g asked i d (hy_tree Y) m r → msg_commit g sent Y i m r → raft_guard cfg r = true → raft_Step m r = Ok (u, r') →
  ∃ Y' V', moved g i Y Y' ∧ history_ok b bt cfg g Y' ∧ node_state g asked sent Y' i d dc V' r'.
Proof.
  intros Hok Ht Hn Ml Mc Hg E. pose proof Hn as [Nl Nr Ne Nd Nx Nc]. destruct (raft_guard_spec _ _ Hg) as [Hvo Hte].
  pose proof (nl_coherent _ _ _ _ _ _ _ _ Nl) as Hco. pose proof (ml_ack _ _ _ _ _ _ _ Ml) as Hack.
  assert (does m r r') as Hd.
  { eapply Step_does; [exact E|done|apply Ml| |done]. intros Hs x n Hx. by apply (ld_match _ _ _ _ _ (rp_lead _ _ _ _ _ _ _ Nr Hs)) in Hx as [? _]. }
  destruct (hist_step Y V m r u r') as (Y' & Hmv & Hok' & Nl' & Hex & Hwin); try done. exists Y'.
  pose proof (ev_Step (vote_grants b bt sent g Y i m r) _ _ _ _ E Hte (ml_wf _ _ _ _ _ _ _ Ml) (vote_conditions _ _ _ _ _ _ _ _ (mc_grant _ _ _ _ _ _ Mc))) as Hev.
  destruct (node_log_moved Y V r r' Y' Hmv Hok Hn) as [Nr1 Ne1]. pose proof (msg_commit_moved _ _ _ _ Hmv Hok Mc) as Mc'.
  destruct (repl_does b bt cfg g Y' i Hcfg Hb0 Hok' V r m r') as (V' & Hra & Nr'); try done.
  - apply (ev_id _ _ _ Hev).
  - apply (ev_term _ _ _ Hev).
  - split; apply Mc' || apply Ml.
  - rewrite (mv_ack _ _ _ _ Hmv). apply Nd.
  - apply Nl'.
  - intros Hs. split; [exists i; by apply (nl_lead _ _ _ _ _ _ _ _ Nl')|]. exists []. by rewrite extends_nil, Hex.
  - exists V'. split_and!; [done..|]. split; try done.
    + eapply (elect_step b bt sent g Y' i V V' m r); [exact Ne1|apply Nr|apply Nr|apply Nr1|apply Nr1|apply Hte|apply Nr1| |exact Hra| | |apply Mc].
      * eapply evolves_mono; [..|exact Hev]; try done. intros t x Hx. eapply vote_known_mono; [apply Hmv|exact Hok|done|done|exact Hx].
      * by apply (does_candidate m), Mc.
      * intros x. by eapply asked_past.
    + assert (raftLog_storage (raft_raftLog r') = raftLog_storage (raft_raftLog r)) as ->.
      { pose proof (nl_wf _ _ _ _ _ _ _ _ Nl) as W.
        destruct (Step_effect _ _ _ _ E Hco (ml_fits _ _ _ _ _ _ _ Ml) Hack) as [[[_ Hk] _]|[[_ Hgw] Hc]]; [by destruct (Hk W) as (_ & _ & _ & ? & _)|].
        destruct Hgw as [(_ & _ & ? & _) _]; [|done..]. apply Ml. }
      eapply node_disk_mono; [apply Hmv|exact Hok|apply Hmv|exact Hra| |done]. apply (nl_durable _ _ _ _ _ _ _ _ Nl').
    + pose proof (ev_commit _ _ _ Hev). lia.
Qed.

(** Steps that leave the log alone and need no message. *)
Lemma node_silent Y V r r' :
  history_ok b bt cfg g Y → node_state g asked sent Y i d dc V r → 0 <= raft_Term r → evolves no_grants r r' → quiet r r' → node_repl b bt cfg Y i V r' →
  (raft_state r' = StateCandidate → mute r r') → node_state g asked sent Y i d dc V r'.
Proof.
  intros Hok Hn H0 Hev Hq Nr' Hmu. pose proof Hn as [Nl Nr Ne Nd Nx Nc]. destruct (proj1 (proj2 Hq) (nl_wf _ _ _ _ _ _ _ _ Nl)) as (_ & Vw & _ & St).
  split; [by eapply node_log_silent|done| |by rewrite St| |].
  - eapply (elect_step b bt sent g Y i V V Message0 r); [exact Ne|apply Nr..|exact H0|apply Nr| |apply raised_refl|done| |done].
    + eapply evolves_mono; [..|exact Hev]; done.
    + intros x. by eapply asked_past.
  - intros Hs. destruct (ev_lead _ _ _ Hev Hs) as [[Hs0 ->]|[]]. rewrite Vw. auto.
  - pose proof (ev_commit _ _ _ Hev). lia.
Qed.

Lemma call_msg_commit Y m r :
  match Message_GetType m with MsgApp | MsgHeartbeat | MsgAppResp | MsgSnap | MsgVoteResp | MsgVote => False | _ => True end →
  msg_commit g sent Y i m r.
Proof.
  intros Ht. split; try (intros E; by rewrite E in Ht).
  - split; intros E; by rewrite E in Ht.
  - intros (E & _). by rewrite E in Ht.
Qed.

Definition not_conf_change (x : call) : Prop := match x with CApplyConfChange _ => False | _ => True end.

(** The application's calls. *)
Lemma node_call Y V x (rn rn' : RawNode S) :
  history_ok b bt cfg g Y → tree_ok cfg g (hy_tree Y) (hy_led Y) → node_state g asked sent Y i d dc V (rn_raft rn) →
  raft_guard cfg (rn_raft rn) = true → room 2 (raft_raftLog (rn_raft rn)) → not_conf_change x → run_call x rn = Ok rn' →
  ∃ Y' V' r', rn' = set_rn_raft r' rn ∧ moved g i Y Y' ∧ history_ok b bt cfg g Y' ∧ node_state g asked sent Y' i d dc V' r'.
Proof.
  intros Hok Ht Hn Hg Hr Hx E.
  assert (∀ m u r', plain_msg m → msg_commit g sent Y i m (rn_raft rn) → raft_Step m (rn_raft rn) = Ok (u, r') →
    ∃ Y' V' r'', set_rn_raft r' rn = set_rn_raft r'' rn ∧ moved g i Y Y' ∧ history_ok b bt cfg g Y' ∧ node_state g asked sent Y' i d dc V' r'') as Hstep.
  { intros m u r' Hm Hmc Es. destruct (node_step Y V m (rn_raft rn) u r') as (Y' & V' & ? & ? & ?); try done; [by apply plain_msg_log|]. by exists Y', V', r'. }
  assert (∀ r', node_state g asked sent Y i d dc V r' →
    ∃ Y' V' r'', set_rn_raft r' rn = set_rn_raft r'' rn ∧ moved g i Y Y' ∧ history_ok b bt cfg g Y' ∧ node_state g asked sent Y' i d dc V' r'') as Hquiet.
  { intros r' Hn'. exists Y, V, r'. split_and!; [done|apply moved_refl|done..]. }
  pose proof (raft_guard_spec _ _ Hg) as [_ Hte].
  destruct x; cbn [run_call] in E; apply bind_Ok in E as ([y rn1] & E & [= <-]); apply on_raft_inv in E as (r' & E & ->); try done.
  all: try (eapply Hstep; [| |exact E]; [by repeat split|by apply call_msg_commit]).
  - apply Hquiet. pose proof (ev_run_tick no_grants _ _ _ E Hte) as Hev. eapply node_silent; [done|exact Hn|apply Hte|exact Hev|by eapply quiet_run_tick| |by eapply tick_candidate].
    eapply (repl_tick b bt cfg g); [done|apply Hn|exact E|apply Hev|apply Hev].
  - injection E as _ <-. apply Hquiet. assert (mute (rn_raft rn) (set_raft_electionElapsed (raft_electionElapsed (rn_raft rn) + 1) (rn_raft rn))) as Hm by (by apply mute_nothing).
    eapply node_silent; [done|exact Hn|apply Hte|by apply core_evolves|by apply roles_quiet| |done]. by eapply (repl_mute b bt cfg g); [done|apply Hn|exact Hm|..].
  - run_inv E. injection E0 as <- <-. eapply Hstep; [| |exact E]; [by repeat split|by apply call_msg_commit].
  - destruct (confChangeToMsg_wf cc) as [? Hp]. eapply Hstep; [| |exact E].
    + split; [done|]. rewrite Hp. split; [|done]. unfold confChangeToMsg. by destruct (MarshalConfChange cc).
    + apply call_msg_commit. by rewrite Hp.
Qed.

(** The steps of [Advance]. *)
Lemma node_steps ms r u r' Y V :
  history_ok b bt cfg g Y → tree_ok cfg g (hy_tree Y) (hy_led Y) → node_state g asked sent Y i d dc V r → i ≠ None_id →
  (∀ t, g i !! t = Some i → t <= d) → Forall (self_grant i (g i)) ms → Forall own_msg ms → Forall (ack_known b Y) ms →
  advance_ok cfg ms r = true → steps_fit ms r →
  for_each (fun m => _ ← raft_Step m; mret tt) ms r = Ok (u, r') →
  ∃ Y' V', moved g i Y Y' ∧ history_ok b bt cfg g Y' ∧ node_state g asked sent Y' i d dc V' r'.
Proof.
  revert Y V r. induction ms as [|m ms IH]; intros Y V r Hok Ht Hn Hi Hd Hg Ho Hk Hadv Hf E; cbn in E.
  { injection E as _ <-. exists Y, V. split_and!; [apply moved_refl|done..]. }
  run_inv E. run_inv E0. injection E0 as _ ->. cbn [advance_ok] in Hadv. rewrite E1 in Hadv.
  repeat rewrite andb_true_iff in Hadv. destruct Hadv as [[Hgd Hwf] Hadv]. cbn [steps_fit] in Hf. rewrite E1 in Hf. destruct Hf as [Hfm Hf].
  apply Forall_cons in Hg as [[Hg1 Hto] Hg]. apply Forall_cons in Hk as [Hk1 Hk]. apply Forall_cons in Ho as [Ho1 Ho].
  pose proof (own_msg_type _ Ho1) as [Ha Hv].
  assert (Message_GetType m = MsgVoteResp → Message_GetReject m = false → counted_now m r → Message_GetFrom m = i ∧ g i !! raft_Term r = Some i) as Hgr.
  { intros Hty Hrej Hnow. destruct Hg1 as (Hfr & Hnz & Hh); [split_and!; [done..|by rewrite Hto]|]. destruct Hnow as [?|Hnow]; [done|].
    by rewrite Hto, Hnow in Hh by done. }
  destruct (node_step Y V m r x0 r0) as (Y1 & V1 & Hm1 & Hok1 & Hn1); try done.
  - apply fits_msg_log; [by apply msg_wf_b_spec|done|intros ?; done| |done]. intros Hty Hrej Hnow.
    destruct (Hgr Hty Hrej Hnow) as [-> ?]. auto.
  - split; try done.
    + split; intros Hty; [done|]. destruct Ho1 as [[?|[?|?]]|[?|?]]; congruence.
    + intros Hty. destruct Ho1 as [[?|[?|?]]|[?|?]]; congruence.
    + intros Hty. destruct Ho1 as [[?|[?|?]]|[?|?]]; congruence.
    + intros Hty Hrej Hnow. left. by destruct (Hgr Hty Hrej Hnow).
  - destruct (IH Y1 V1 r0) as (Y2 & V2 & Hm2 & Hok2 & Hn2); try done.
    + eapply tree_ok_grown; [exact Ht|apply Hm1].
    + eapply Forall_impl; [exact Hk|]. intros x1 Hx1 Hx2. rewrite (mv_ack _ _ _ _ Hm1). by apply Hx1.
    + exists Y2, V2. split_and!; [by eapply moved_trans|done..].
Qed.

End steps.

(** ** Starting *)

(** The commit index of a new node is the stored one, or the start of its log. *)
Lemma newRaft_commit (conf : RaftConfig S) rands s r :
  newRaft conf rands = Ok r → RaftConfig_Storage conf = Some s → st_ok s →
  HardState_GetCommit (initial_hs conf) <= raftLog_committed (raft_raftLog r) ∧
  (raftLog_committed (raft_raftLog r) = sl_base (st_view s) ∨
   raftLog_committed (raft_raftLog r) = HardState_GetCommit (initial_hs conf)).
Proof.
  unfold newRaft. intros E Hs Hok. destruct (Config_validate conf) as [[s' c]|] eqn:Ev; [|done].
  assert (s' = s) as ->.
  { revert Ev. unfold Config_validate. repeat (case_match; try done); intros [= <- <-]; congruence. }
  apply bind_Ok in E as (l & El & E). destruct (newLog_ok s (RaftConfig_MaxCommittedSizePerReady c) Hok) as (l1 & El1 & W & V & _ & Hc).
  rewrite El in El1. injection El1 as <-. unfold initial_hs. rewrite Hs. destruct (st_InitialState s) as [[hs cs]|]; [|done].
  apply bind_Ok in E as ([u r1] & E & [= <-]). unfold newRaft_init in E. run_inv E. injection E0 as <- <-. do 2 run_inv E.
  apply bind_Ok in E0 as (? & _ & [= <- <-]). apply bind_Ok in E1 as (res & _ & [= <- <-]). destruct res as [[cf trk]|]; [|done].
  run_inv E. assert (raft_raftLog r = l) as Hl.
  { revert E0. unfold raft_switchToConfig. intros E0. run_inv E0. injection E1 as _ <-. run_inv E0. injection E1 as <- <-.
    run_inv E0. injection E1 as _ <-. run_inv E0. injection E1 as <- <-. cbn in E0. rewrite andb_false_r in E0. cbn in E0. by injection E0 as _ <-. }
  destruct (negb _); [done|]. do 2 run_inv E. run_inv E. injection E3 as <- <-.
  assert (raftLog_committed (raft_raftLog r1) = raftLog_committed (raft_raftLog r0)) as ->.
  { apply becomeFollower_inv in E as (_ & -> & _). destruct (_ <? _) in E2; [|by injection E2 as _ <-]. cbn in E2.
    apply on_log__inv in E2 as (l2 & -> & E2). by eapply appliedTo_committed. }
  pose proof (st_view_wf s Hok) as (Hb & _). destruct hs as [st|].
  2: { injection E1 as _ <-. rewrite Hl, Hc. split; [cbn; lia|by left]. }
  destruct (IsEmptyHardState (Some st)) eqn:Ee; cbn [negb when] in E1.
  - injection E1 as _ <-. rewrite Hl, Hc. split; [|by left]. revert Ee. unfold IsEmptyHardState, isHardStateEqual.
    repeat rewrite andb_true_iff. intros [_ Hz]. cbn in *. lia.
  - unfold raft_loadState in E1. run_inv E1. injection E3 as <- <-. run_inv E1. apply bind_Ok in E3 as (? & _ & [= <- <-]).
    destruct (_ || _) in E1; [done|]. injection E1 as _ <-. cbn. split; [done|by right].
Qed.

End node.

Abbreviation disk_commit mb := (HardState_GetCommit (mb_disk mb)).

Section cluster_commit.
Context {S : Type} `{Protobuf, !ProtobufLaws _} `{!Storage S} `{!StorageLaws S}.
Context (b bt : Z) (cfg : JointConfig).
Implicit Types (r : raft S) (rn : RawNode S) (mb : host S) (c : cluster S) (Y : history) (g : Z → gmap Z Z) (m : Message).

Abbreviation view r := (log_view (raft_raftLog r)).

(** ** What the application keeps to *)

(** Beyond ClusterLog.v: logs start at a common entry [b] of term [bt] and are
    not compacted, no snapshots are sent, configurations do not change, and
    acknowledgements and heartbeats come from nodes. *)
Definition commit_contract (a : action S) c : Prop :=
  log_contract a c ∧
  match a with
  | AStart conf _ =>
      cl_members c !! RaftConfig_ID conf = None →
      bt <= HardState_GetTerm (initial_hs conf) + 1 ∧ HardState_GetCommit (initial_hs conf) <= b ∧
      ∀ s, RaftConfig_Storage conf = Some s → sl_base (st_view s) = b ∧ sl_term (st_view s) = bt
  | ACall _ x => not_conf_change x
  | ADeliver _ k => ∀ m, cl_net c !! k = Some m → Message_GetType m ≠ MsgSnap
  | AForge _ m => match Message_GetType m with MsgHeartbeat | MsgAppResp | MsgSnap => False | _ => True end
  | AAdvance _ => True
  | ABootstrap _ _ _ | AReady _ | AWrite _ | AStorage _ _ => False
  end.

(** A [Ready] is taken, and stored at once. *)
Definition store_step c c' : Prop :=
  ∃ i s c1, perform cfg (AReady i) c = Some c1 ∧ at_node c1 i (fun mb => saves s (mb_log mb)) ∧
    perform cfg (AStorage i s) c1 = Some c'.

Definition commit_step c c' : Prop :=
  (∃ a, commit_contract a c ∧ perform cfg a c = Some c') ∨ store_step c c'.

(** ** The invariant *)

Definition member_commit g c Y (i : Z) mb : Prop :=
  (∃ V, node_state b bt cfg g (asked c) (cl_net c) Y i (disk_term mb) (disk_commit mb) V (mb_raft mb)) ∧
  Forall (ack_known b Y) (rn_stepsOnAdvance (mb_node mb)).

Definition net_commit g c Y m : Prop :=
  says_ok b cfg Y m ∧ ack_known b Y m ∧
  (is_grant m → vote_known b bt (cl_net c) g Y (Message_GetTo m) (Message_GetTerm m) (Message_GetFrom m)).

Record commit_inv g Y c : Prop := mkcommit_inv {
  ci_log : log_inv cfg g (hy_tree Y) (hy_led Y) c;
  ci_hist : history_ok b bt cfg g Y;
  ci_members : ∀ i mb, cl_members c !! i = Some mb → member_commit g c Y i mb;
  ci_net : ∀ m, m ∈ cl_net c → net_commit g c Y m;
  ci_absent : ∀ i, cl_members c !! i = None → ∀ t, hy_ack Y i t <= b;
}.

Lemma ack_known_mono g Y Y' m : evolved b g Y Y' → ack_known b Y m → ack_known b Y' m.
Proof.
  intros Hev Hk Hm. destruct (Hk Hm) as [?|?]; [by left|right]. pose proof (el_ack _ _ _ _ Hev (Message_GetFrom m) (Message_GetTerm m)). lia.
Qed.

(** A vote request in the network was sent from a stored term. *)
Lemma sent_past g Y c i mb x :
  commit_inv g Y c → cl_members c !! i = Some mb → x ∈ cl_net c → Message_GetType x = MsgVote → Message_GetFrom x = i →
  Message_GetTerm x <= disk_term mb.
Proof.
  intros Hi Hm Hx Ht Hf. destruct (li_net _ _ _ _ _ (ci_log _ _ _ Hi) x Hx) as (_ & Ha & _). destruct (Ha Ht) as (mb' & Hm' & ?).
  rewrite Hf, Hm in Hm'. by injection Hm' as <-.
Qed.

(** One node moves on, and sends [out]. *)
Lemma commit_inv_update g g' Y Y' c i mb' out :
  let c' := mkcluster (<[i := mb']> (cl_members c)) (cl_net c ++ out) in
  commit_inv g Y c → log_inv cfg g' (hy_tree Y') (hy_led Y') c' → history_ok b bt cfg g' Y' → evolved b g Y Y' → votes_le g g' →
  (∀ j, j ≠ i → hy_ack Y' j = hy_ack Y j) → (∀ j t, j ≠ i → (j, t) ∈ hy_led Y → hy_log Y' t = hy_log Y t) →
  member_commit g' c' Y' i mb' → Forall (net_commit g' c' Y') out →
  Forall (fun m => Message_GetType m = MsgVote → Message_GetFrom m = i) out →
  commit_inv g' Y' c'.
Proof.
  intros c' [Hl Ho Hm Hn Ha] Hl' Ho' Hev Hg Hack Hlog Hmb Hout Hfrom. split; [done|done| | |].
  - intros j mb Hj. destruct (decide (j = i)) as [->|Hne].
    { unfold c' in Hj. cbn in Hj. rewrite lookup_insert_eq in Hj. by injection Hj as <-. }
    pose proof (mg_node _ _ _ _ _ _ _ (li_members _ _ _ _ _ Hl' j mb Hj)) as Nl'. unfold c' in Hj. cbn in Hj. rewrite lookup_insert_ne in Hj by done.
    destruct (Hm j mb Hj) as [(V & [Nl Nr Ne Nd Nx Nc]) Hs]. split.
    + exists V. split; [exact Nl'|by eapply node_repl_mono| | | |done].
      * eapply node_elect_mono; [exact Hev|exact Ho|exact Hg| | |apply Nr|exact Ne].
        -- intros x Hx. apply elem_of_app. by left.
        -- intros x [Hx|Hx]%elem_of_app Ht Hf; [by left|]. rewrite Forall_forall in Hfrom. by specialize (Hfrom x Hx Ht); congruence.
      * eapply node_disk_mono; [exact Hev|exact Ho|by apply Hack|apply (raised_refl _ (raft_Term (mb_raft mb)))|apply Nl|done].
      * intros Hst. rewrite (Hlog j); [by apply Nx|done|]. by apply (nl_lead _ _ _ _ _ _ _ _ Nl).
    + eapply Forall_impl; [exact Hs|]. intros x. by eapply ack_known_mono.
  - intros m [Hin|Hin]%elem_of_app; [|rewrite Forall_forall in Hout; by apply Hout]. destruct (Hn m Hin) as (Hs & Hk & Hgr). split_and!.
    + by eapply says_ok_mono.
    + by eapply ack_known_mono.
    + intros Hm'. eapply vote_known_mono; [exact Hev|exact Ho|exact Hg| |by apply Hgr]. intros x Hx. apply elem_of_app. by left.
  - intros j Hj. unfold c' in Hj. cbn in Hj. assert (j ≠ i) as Hne by (intros ->; by rewrite lookup_insert_eq in Hj).
    rewrite lookup_insert_ne in Hj by done. rewrite Hack by done. by apply Ha.
Qed.

(** A node steps without writing anything. *)
Lemma commit_inv_put g g' Y Y' V c c' i mb rn' :
  cfg.1 ≠ ∅ → commit_inv g Y c → cl_members c !! i = Some mb → put_node cfg i mb rn' c = Some c' →
  cl_inv cfg g' c' → votes_le g g' → moved b cfg g i Y Y' → history_ok b bt cfg g Y' →
  rn_asyncStorageWrites rn' = rn_asyncStorageWrites (mb_node mb) →
  (rn_stepsOnAdvance rn' = rn_stepsOnAdvance (mb_node mb) ∨ rn_stepsOnAdvance rn' = []) →
  node_state b bt cfg g (asked c) (cl_net c) Y' i (disk_term mb) (disk_commit mb) V (rn_raft rn') →
  commit_inv g' Y' c'.
Proof.
  intros Hc Hi Hm Hput Hi' Hg Hmv Ho' Has Hst Hn. pose proof Hn as [Nl Nr Ne Nd Nx Nc].
  pose proof (log_inv_put _ _ _ _ _ _ _ _ _ _ _ _ Hc (ci_log _ _ _ Hi) Hm Hput Hi' Hg (mv_grown _ _ _ _ _ _ Hmv) Has Hst Nl) as Hl'.
  revert Hput Hl'. unfold put_node. destruct (node_ok _ _ _); [|done]. intros [= <-] Hl'.
  pose proof (mg_node _ _ _ _ _ _ _ (li_members _ _ _ _ _ Hl' i _ (lookup_insert_eq _ _ _))) as Nl'. destruct (ci_members _ _ _ Hi _ _ Hm) as [_ Hsteps].
  assert (history_ok b bt cfg g' Y') as Ho'' by (by eapply history_ok_votes).
  assert (cl_net c = cl_net c ++ []) as Hnet by (by rewrite app_nil_r). rewrite Hnet in Hl', Nl' |- *.
  eapply commit_inv_update; [exact Hi|exact Hl'|done|apply Hmv|done|by intros; apply Hmv|apply Hmv| |by apply Forall_nil|by apply Forall_nil].
  rewrite <- Hnet in Nl' |- *. split.
  - exists V. split; [exact Nl'|done| |done..]. cbn [cl_net mb_node rn_raft].
    eapply (node_elect_mono b bt cfg g g' Y' Y'); [apply evolved_refl|done|done|done|by left|apply Nr|done].
  - cbn [mb_node rn_stepsOnAdvance]. destruct Hst as [-> | ->]; [|by apply Forall_nil]. eapply Forall_impl; [exact Hsteps|].
    intros x. eapply ack_known_mono. apply Hmv.
Qed.

(** ** The actions *)

Section actions.
Hypothesis Hcfg : cfg.1 ≠ ∅.
Hypothesis Hb0 : 0 <= b.

Lemma commit_inv_message g g' Y c c' i mb m x :
  commit_inv g Y c → cl_members c !! i = Some mb → msg_wf_b m = true → step_fits m (mb_raft mb) →
  msg_path (hy_tree Y) m → (Message_GetType m = MsgVote → asked c (Message_GetTerm m) (Message_GetFrom m) ∧ m ∈ cl_net c) →
  (Message_GetType m = MsgVoteResp → Message_GetReject m = false →
   Message_GetTo m = i ∧ grant_ok (Message_GetFrom m) (g (Message_GetFrom m)) m ∧ asked c (Message_GetTerm m) i ∧
   vote_known b bt (cl_net c) g Y i (Message_GetTerm m) (Message_GetFrom m)) →
  says_ok b cfg Y m → ack_known b Y m → (Message_GetType m = MsgHeartbeat → Message_GetTo m = i) → Message_GetType m ≠ MsgSnap →
  RawNode_Step m (mb_node mb) = Ok x → put_node cfg i mb x.2 c = Some c' → cl_inv cfg g' c' → votes_le g g' →
  ∃ Y', evolved b g Y Y' ∧ commit_inv g' Y' c'.
Proof.
  intros Hi Hm Hwf Hf Hp Hv Hgr Hsay Hack Hto Hty E Hput Hi' Hg. destruct x as [e rn'].
  pose proof (li_inv _ _ _ _ _ (ci_log _ _ _ Hi)) as Hci. pose proof (inv_members _ _ _ Hci _ _ Hm) as Hmo. pose proof (mo_named _ _ _ _ Hmo) as Hna.
  destruct (ci_members _ _ _ Hi _ _ Hm) as [(V & Hn) _].
  apply RawNode_Step_run in E as (r' & -> & [->|(u & E)]).
  { exists Y. split; [apply evolved_refl|]. eapply commit_inv_put; [done|exact Hi|exact Hm|exact Hput|done|done|apply moved_refl|apply Hi|done|by left|exact Hn]. }
  destruct (node_step b bt cfg g (asked c) (cl_net c) i (disk_term mb) (disk_commit mb) Hcfg Hb0) with (Y := Y) (V := V) (m := m) (r := mb_raft mb) (u := u) (r' := r')
    as (Y' & V' & Hmv & Ho' & Hn'); try done.
  - intros y. by eapply sent_past.
  - apply Hi.
  - apply (ci_log _ _ _ Hi).
  - apply fits_msg_log; [by apply msg_wf_b_spec|done..| |intros Ht; by apply Hv]. intros Ht Hrej Hnow. destruct (Hgr Ht Hrej) as (Hti & Hgo & Has & _).
    split; [by apply counted_grant|]. destruct Hgo as (_ & Hnz & _); [split_and!; congruence|]. destruct Hnow as [?|Hnow]; [done|].
    destruct Has as (mb0 & Hm0 & Hle). rewrite Hm in Hm0. injection Hm0 as <-. lia.
  - split; try done; [|intros Ht; by apply Hv]. intros Ht Hrej Hnow. destruct (Hgr Ht Hrej) as (Hti & Hgo & _ & Hk).
    destruct Hgo as (_ & Hnz & _); [split_and!; congruence|]. destruct Hnow as [?|<-]; done.
  - pose proof (mo_guard _ _ _ _ Hmo) as Hgd. unfold node_ok in Hgd. by apply andb_true_iff in Hgd as [_ ?].
  - exists Y'. split; [apply Hmv|]. eapply commit_inv_put; [done|exact Hi|exact Hm|exact Hput|done|done|exact Hmv|exact Ho'|done|by left|exact Hn'].
Qed.

(** A node that starts has promised what its storage holds. *)
Lemma promises_root Y s d acks : (∀ t, acks t <= b) → (∀ k t, in_tree Y k t → b < k) → promises b Y s d acks.
Proof.
  intros Ha Hin. split; [by left; apply Ha|intros t _; apply Ha| |].
  - intros t k Hk Hin'. specialize (Ha t). specialize (Hin _ _ Hin'). lia.
  - intros Hb. specialize (Ha d). lia.
Qed.

Lemma disk_start g Y c (conf : RaftConfig S) s :
  commit_inv g Y c → RaftConfig_Storage conf = Some s → st_ok s →
  match cl_members c !! RaftConfig_ID conf with
  | Some mb => st_view s = st_view (raftLog_storage (mb_log mb)) ∧ isHardStateEqual (initial_hs conf) (mb_disk mb) = true
  | None => sl_ents (st_view s) = [] ∧ sl_base (st_view s) = b ∧ sl_term (st_view s) = bt ∧
      bt <= HardState_GetTerm (initial_hs conf) + 1 ∧ HardState_GetCommit (initial_hs conf) <= b
  end →
  node_disk b bt cfg Y (RaftConfig_ID conf) (HardState_GetTerm (initial_hs conf)) (HardState_GetCommit (initial_hs conf))
    (hy_ack Y (RaftConfig_ID conf)) (st_view s).
Proof.
  intros Hi Hs Hok Hst. destruct (cl_members c !! RaftConfig_ID conf) as [mb|] eqn:Em.
  - destruct Hst as [-> Heq]. unfold isHardStateEqual in Heq. repeat rewrite andb_true_iff in Heq. destruct Heq as [[Ht _] Hc].
    apply Z.eqb_eq in Ht as ->. apply Z.eqb_eq in Hc as ->. destruct (ci_members _ _ _ Hi _ _ Em) as [(V & [_ _ _ [A B C D _ _] _ _]) _]. by split.
  - destruct Hst as (He & B & R & Ht & Hc). split; try done.
    + split_and!; [done..|by apply slog_path_nil].
    + split; [done|]. intros k t Hk. pose proof (has_bounds _ _ _ Hk) as Hb. unfold slog_last in Hb. rewrite He, len_nil in Hb. lia.
    + apply promises_root; [by apply (ci_absent _ _ _ Hi)|]. intros k t Hin. by apply (ho_above _ _ _ _ _ (ci_hist _ _ _ Hi)) in Hin as [? _].
    + by left.
Qed.

Lemma commit_inv_start g g' Y c c' (conf : RaftConfig S) rands :
  commit_inv g Y c → commit_contract (AStart conf rands) c → perform cfg (AStart conf rands) c = Some c' →
  cl_inv cfg g' c' → votes_le g g' → commit_inv g' Y c'.
Proof.
  intros Hi [Hlc Hcc] E Hi' Hg. pose proof (log_inv_start _ _ _ _ _ _ _ _ _ Hcfg (ci_log _ _ _ Hi) Hlc E Hi' Hg) as Hl'.
  destruct Hlc as (Ha & s & Hs & Hok & Hst). cbn in E. apply bind_Some in E as (rn & En%from_ok_inv & E).
  pose proof (NewRawNode_inv _ _ _ En) as (_ & Hadv & _ & Hel). injection Hel as I Te _ M A St.
  revert En. unfold NewRawNode. intros (r & En & [= <-])%bind_Ok. cbn in I, Te, M, A, St.
  destruct (newRaft_log _ _ _ _ En Hs Hok) as (W & Vw & Sto). destruct (newRaft_commit _ _ _ _ En Hs Hok) as [Hdc Hcom].
  unfold start_node in E. destruct (_ && _) eqn:Hb; [|done]. apply andb_true_iff in Hb as [_ Hb]. injection E as <-. set (i := RaftConfig_ID conf) in *.
  assert (node_disk b bt cfg Y i (HardState_GetTerm (initial_hs conf)) (HardState_GetCommit (initial_hs conf)) (hy_ack Y i) (st_view s)) as Nd.
  { apply (disk_start g Y c conf s Hi Hs Hok). fold i. destruct (cl_members c !! i) as [mb|] eqn:Em; [done|].
    destruct (Hcc eq_refl) as (? & ? & Hroot). by destruct (Hroot s Hs). }
  pose proof (mg_node _ _ _ _ _ _ _ (li_members _ _ _ _ _ Hl' i _ (lookup_insert_eq _ _ _))) as Nl'.
  assert (cl_net c = cl_net c ++ []) as Hnet by (by rewrite app_nil_r). rewrite Hnet in Hl', Nl' |- *.
  assert (history_ok b bt cfg g' Y) as Ho' by (eapply history_ok_votes; [exact Hg|apply Hi]).
  eapply commit_inv_update; [exact Hi|exact Hl'|done|apply evolved_refl|done..| |by apply Forall_nil|by apply Forall_nil].
  split; [|by apply Forall_nil]. exists (hy_ack Y i). cbn [mb_node mb_disk rn_raft] in Nl' |- *. split; cbn [cl_net]; try done.
  - split; rewrite ?Vw, ?Te, ?M, ?A; try done; try apply Nd; [| |by apply Forall_nil..].
    + destruct Hcom as [-> | ->]; [|apply Nd]. left. by rewrite (proj1 (dk_view _ _ _ _ _ _ _ _ _ Nd)).
    + intros Hs'. rewrite St in Hs'. done.
  - split; try (intros Hs'; rewrite St in Hs'; done). rewrite A. by apply Forall_nil.
  - by rewrite Sto.
  - intros Hs'. rewrite St in Hs'. done.
Qed.

(** What a [Ready] without asynchronous writes hands out. *)
Lemma ready_facts g i mb mb' out :
  member_ok cfg g i mb → rn_asyncStorageWrites (mb_node mb) = false → log_wf (mb_log mb) → ready_member mb = Ok (mb', out) →
  let r := mb_raft mb in let r' := mb_raft mb' in
  elect r' = elect (set_raft_msgsAfterAppend [] (set_raft_msgs [] r)) ∧ raft_trk r' = raft_trk r ∧
  log_wf (mb_log mb') ∧ view r' = view r ∧ raftLog_committed (mb_log mb') = raftLog_committed (mb_log mb) ∧
  disk_term mb' = raft_Term r ∧ (disk_commit mb' = disk_commit mb ∨ disk_commit mb' = raftLog_committed (mb_log mb)) ∧
  out = raft_msgs r ++ filter (fun m => to_self r m = false) (raft_msgsAfterAppend r) ∧
  ∃ st, rn_stepsOnAdvance (mb_node mb') = filter (fun m => to_self r m = true) (raft_msgsAfterAppend r) ++ st ∧
    Forall (fun m => Message_GetType m = MsgStorageAppendResp ∨ Message_GetType m = MsgStorageApplyResp) st.
Proof.
  intros Hmo Hs W E r r'. apply bind_Ok in E as ([rd rn'] & E & E'). apply bind_Ok in E as (rd1 & Er & E).
  apply bind_Ok in E as (rn1 & Eacc & [= <- <-]). pose proof (handed_out _ _ _ _ _ Hmo Er) as Hho.
  pose proof (ready_messages_sync _ _ Er Hs) as Hmsg. destruct (accept_log _ _ _ Er Eacc) as [Hl Hc]. destruct (Hl W) as (W' & V' & _).
  apply accept_shape in Eacc as (Hel & Htrk & Has & Hp & Hst). rewrite Hs in Has, Hst. rewrite Has in E'. injection E' as <- <-.
  subst r r'. cbn [mb_node mb_disk rn_raft rn_asyncStorageWrites rn_stepsOnAdvance]. split_and!; try done.
  - by apply Hc.
  - destruct Hmo as [(vol & _ & Hw) _ _ _ Sy _ _ _]. rewrite (Sy Hs) in Hw. destruct Hw as [_ [Hpd _]]. destruct Hho as [Hho _].
    cbn in Hho. rewrite <- Hho. destruct (IsEmptyHardState _); done.
  - apply ready_shape in Er as [-> _]. destruct (isHardStateEqual _ _); [by left|]. by destruct (IsEmptyHardState (Some (raft_hardState (mb_raft mb)))); [left|right].
Qed.

(** The node once its messages are sent and its entries stored. *)
Lemma repl_stored Y i V r r1 s :
  node_repl b bt cfg Y i V r → elect r1 = elect (set_raft_msgsAfterAppend [] (set_raft_msgs [] r)) → raft_trk r1 = raft_trk r →
  view r1 = view r → raftLog_committed (raft_raftLog r1) = raftLog_committed (raft_raftLog r) → saves s (raft_raftLog r1) →
  node_repl b bt cfg Y i V (set_raft_raftLog (set_raftLog_storage s (raft_raftLog r1)) r1).
Proof.
  intros [I W R T P C L M A] [= I1 T1 _ M1 A1 S1] Ht V1 C1 (W2 & V2 & _). split.
  - by rewrite <- I.
  - exact W2.
  - cbn [raft_raftLog set_raft_raftLog]. by rewrite V2, V1.
  - cbn [raft_raftLog set_raft_raftLog raft_Term]. rewrite V2, V1, T1. done.
  - cbn [raft_raftLog set_raft_raftLog raft_Term]. by rewrite V2, V1, T1.
  - cbn [raft_raftLog set_raft_raftLog raft_Term raftLog_committed set_raftLog_storage]. by rewrite V2, V1, T1, C1.
  - cbn [raft_state set_raft_raftLog]. rewrite S1. intros Hs. destruct (L Hs) as [L1 L2 L3 L4]. split; cbn [raft_raftLog set_raft_raftLog raft_Term raft_trk].
    + by rewrite T1.
    + by rewrite T1, V2, V1.
    + by rewrite Ht.
    + unfold match_of, prs. cbn [raft_trk set_raft_raftLog]. rewrite Ht, T1. exact L4.
  - cbn [raft_msgs set_raft_raftLog]. rewrite M1. by apply Forall_nil.
  - cbn [raft_msgsAfterAppend set_raft_raftLog]. rewrite A1. by apply Forall_nil.
Qed.

Lemma elect_stored sent g Y i V r r2 :
  raft_state r2 = raft_state r → raft_Term r2 = raft_Term r → raft_trk r2 = raft_trk r → raft_msgs r2 = [] → raft_msgsAfterAppend r2 = [] →
  view r2 = view r → node_elect b bt sent g Y i V r → node_elect b bt sent g Y i V r2.
Proof.
  intros Es Et Ek Em Ea Ev [T Vo A G]. split; rewrite ?Es, ?Et, ?Ev, ?Em, ?Ea; unfold votes_of; rewrite ?Ek; try done.
  intros Hs m Hm. apply A; [done|]. destruct Hm as [?|Hm]; [by left|]. by apply elem_of_nil in Hm.
Qed.

Lemma promise_type m : msg_later m → Message_GetType m ≠ MsgApp ∧ Message_GetType m ≠ MsgHeartbeat ∧ Message_GetType m ≠ MsgVote.
Proof. intros [?|[?|?]]; split_and!; congruence. Qed.

Lemma commit_inv_store g Y c c' :
  commit_inv g Y c → store_step c c' → ∃ g' Y', votes_le g g' ∧ evolved b g Y Y' ∧ commit_inv g' Y' c'.
Proof.
  intros Hi (i & s & c1 & E1 & Hsv & E2). pose proof (ci_log _ _ _ Hi) as Hl.
  destruct (cl_inv_step cfg g c c1 (li_inv _ _ _ _ _ Hl)) as (g1 & Hg1 & Hi1); [by exists (AReady i)|].
  destruct (cl_inv_step cfg g1 c1 c' Hi1) as (g2 & Hg2 & Hi2); [by exists (AStorage i s)|].
  cbn in E1. apply bind_Some in E1 as (mb & Hm & E1). apply bind_Some in E1 as ([mb1 out] & Er%from_ok_inv & [= <-]). cbn [fst snd] in *.
  pose proof (log_inv_ready _ _ _ _ _ _ _ _ _ _ Hcfg Hl Hm Er Hi1 Hg1) as Hl1.
  set (c1 := mkcluster (<[i := mb1]> (cl_members c)) (cl_net c ++ out)) in *.
  assert (cl_members c1 !! i = Some mb1) as Hm1 by apply lookup_insert_eq. cbn in E2. unfold node_of in E2. rewrite Hm1 in E2. cbn in E2.
  specialize (Hsv _ Hm1). cbn in Hsv. pose proof (li_members _ _ _ _ _ Hl1 _ _ Hm1) as [_ _ Nl1].
  pose proof (log_inv_put _ _ _ _ _ _ _ _ _ _ _ _ Hcfg Hl1 Hm1 E2 Hi2 Hg2 (grown_refl _ _ _ _ _) eq_refl (or_introl eq_refl)
    (node_log_storage _ _ _ _ _ _ _ _ _ Nl1 (saves_storage_ok _ _ Hsv))) as Hl2.
  revert E2 Hi2 Hl2. unfold put_node. destruct (node_ok _ _ _); [|done]. intros [= <-]. cbn [cl_members cl_net c1]. rewrite insert_insert_eq. intros Hi2 Hl2.
  destruct (ci_members _ _ _ Hi _ _ Hm) as [(V & [Nl Nr Ne Nd Nx Nc]) Hsteps]. pose proof (inv_members _ _ _ (li_inv _ _ _ _ _ Hl) _ _ Hm) as Hmo.
  pose proof (li_members _ _ _ _ _ Hl _ _ Hm) as [Hsync _ _].
  destruct (ready_facts _ _ _ _ _ Hmo Hsync (nl_wf _ _ _ _ _ _ _ _ Nl) Er) as (Hel & Htrk & W1 & V1 & C1 & D1 & Dc1 & Hout & st & Hst & Hty).
  pose proof Hel as Hel0. injection Hel as I1 T1 _ M1 A1 S1. pose proof Hsv as (W2 & V2 & St2).
  pose proof (mo_disk _ _ _ _ Hmo) as [Hvd _]. set (Y' := hist_ack Y i V).
  pose proof (hist_ack_evolved b g Y i (disk_term mb) V Hvd (dk_acks _ _ _ _ _ _ _ _ _ Nd) (dk_past _ _ _ _ _ _ _ _ _ Nd)) as Hev.
  pose proof (hist_ack_ok b bt cfg g Y i (disk_term mb) V Hvd (dk_acks _ _ _ _ _ _ _ _ _ Nd) (dk_past _ _ _ _ _ _ _ _ _ Nd)
    (pm_acked _ _ _ _ _ (rp_promise _ _ _ _ _ _ _ Nr)) (ci_hist _ _ _ Hi)) as Ho'. fold Y' in Hev, Ho'.
  assert (votes_le g g2) as Hg by (by trans g1). exists g2, Y'. split_and!; [done..|].
  assert (history_ok b bt cfg g2 Y') as Ho2 by (by eapply history_ok_votes).
  assert (∀ x, owes b V i (raft_Term (mb_raft mb)) x → ack_known b Y' x) as Howe.
  { intros x Hx Ha. destruct (Hx Ha) as (-> & _ & Hi'). unfold Y'. cbn. by rewrite fn_lookup_insert. }
  pose proof (node_repl_mono _ _ _ _ _ _ Hev (ci_hist _ _ _ Hi) _ _ _ Nr) as Nr'.
  assert (∀ x, x ∈ out → Message_GetType x = MsgVote → x ∈ raft_msgs (mb_raft mb)) as Hask.
  { intros x. rewrite Hout. intros [?|[_ Hx]%list_elem_of_filter]%elem_of_app Ht; [done|].
    pose proof (nl_later _ _ _ _ _ _ _ _ Nl) as La. rewrite Forall_forall in La. destruct (La x Hx) as [Hp _].
    by destruct (promise_type _ Hp) as (_ & _ & ?). }
  eapply commit_inv_update; [exact Hi|exact Hl2|done|done|done|intros j Hj; unfold Y'; cbn; by rewrite fn_lookup_insert_ne|done| | |].
  - pose proof (mg_node _ _ _ _ _ _ _ (li_members _ _ _ _ _ Hl2 i _ (lookup_insert_eq _ _ _))) as Nl2. split.
    + exists V. cbn [mb_node mb_disk rn_raft set_rn_raft cl_net] in Nl2 |- *. split; [exact Nl2|by apply (repl_stored _ _ _ (mb_raft mb))| | | |].
      * eapply (elect_stored _ _ _ _ _ (mb_raft mb)); try done; [cbn [raft_raftLog set_raft_raftLog]; by rewrite V2|].
        eapply node_elect_mono; [exact Hev|apply Hi|exact Hg| | |apply Nr|exact Ne].
        -- intros x Hx. apply elem_of_app. by left.
        -- intros x [Hx|Hx]%elem_of_app Ht Hf; [by left|right; by apply Hask].
      * cbn [raft_raftLog set_raft_raftLog raftLog_storage set_raftLog_storage]. rewrite St2, V1, D1. unfold Y'. destruct Nr' as [_ _ R T P C _ _ _]. split; try done.
        -- cbn. by rewrite fn_lookup_insert.
        -- destruct Dc1 as [-> | ->]; [|done]. eapply settled_le; [exact Nc|done].
        -- intros t. cbn. by rewrite fn_lookup_insert.
        -- intros t _. cbn. by rewrite fn_lookup_insert.
      * cbn [raft_raftLog set_raft_raftLog]. change (raft_state (set_raft_raftLog ?l ?r)) with (raft_state r). change (raft_Term (set_raft_raftLog ?l ?r)) with (raft_Term r).
        rewrite S1, T1, V2, V1. exact Nx.
      * cbn [raft_raftLog set_raft_raftLog raftLog_committed set_raftLog_storage]. rewrite C1. destruct Dc1 as [-> | ->]; lia.
    + cbn [mb_node rn_stepsOnAdvance set_rn_raft]. rewrite Hst. apply Forall_app. split.
      * apply Forall_forall. intros x [_ Hx]%list_elem_of_filter. apply Howe. pose proof (rp_later _ _ _ _ _ _ _ Nr) as La. rewrite Forall_forall in La. auto.
      * eapply Forall_impl; [exact Hty|]. intros x Hx (Ht & _). destruct Hx; congruence.
  - apply Forall_forall. intros x Hx. pose proof Hx as Hx0. rewrite Hout in Hx0. apply elem_of_app in Hx0 as [Hx0|[Hns Hx0]%list_elem_of_filter].
    + destruct Hmo as [(vol & [_ _ _ No] & _) _ _ _ _ _ _ _]. rewrite Forall_forall in No. destruct (No x Hx0) as (Hnp & _ & Hto). split_and!.
      * pose proof (rp_msgs _ _ _ _ _ _ _ Nr') as Ms. rewrite Forall_forall in Ms. auto.
      * intros (Ht & _). exfalso. apply Hnp. by left.
      * intros (Ht & _). exfalso. apply Hnp. right. by left.
    + pose proof (nl_later _ _ _ _ _ _ _ _ Nl) as La. rewrite Forall_forall in La. destruct (La x Hx0) as [Hp _].
      destruct (promise_type _ Hp) as (H1 & H2 & _). split_and!; [by split| |].
      * apply Howe. pose proof (rp_later _ _ _ _ _ _ _ Nr) as Lo. rewrite Forall_forall in Lo. auto.
      * intros Hgr. pose proof (ne_grants _ _ _ _ _ _ _ _ Ne) as Gs. rewrite Forall_forall in Gs.
        destruct (inv_net _ _ _ Hi2 x) as (_ & _ & Hvo); [apply elem_of_app; by right|done|].
        destruct Hmo as [(vol & [Hid _ Lv _] & _) _ _ _ _ _ _ _]. rewrite Forall_forall in Lv. destruct (Lv x Hx0 Hgr) as (Hfr & _ & _).
        destruct (Gs x Hx0 Hgr) as [Hto|[_ Hb]].
        { exfalso. unfold to_self in Hns. rewrite Hto, Hid, Z.eqb_refl in Hns. done. }
        right. split; [done|]. rewrite Hfr. eapply backed_mono; [exact Hev| | | |exact Hb].
        -- intros y Hy. apply elem_of_app. by left.
        -- intros u _. apply Nr.
        -- intros u _. unfold Y'. cbn. by rewrite fn_lookup_insert.
  - apply Forall_forall. intros x Hx Ht. pose proof (nl_msgs _ _ _ _ _ _ _ _ Nl) as Ms. rewrite Forall_forall in Ms.
    by destruct (Ms x (Hask x Hx Ht)) as [_ [? _]].
Qed.

Lemma commit_inv_step g Y c c' :
  commit_inv g Y c → commit_step c c' → ∃ g' Y', votes_le g g' ∧ evolved b g Y Y' ∧ commit_inv g' Y' c'.
Proof.
  intros Hi [(a & [Hlc Hk] & E)|Hst]; [|by eapply commit_inv_store].
  pose proof (ci_log _ _ _ Hi) as Hl. pose proof (li_inv _ _ _ _ _ Hl) as Hci.
  destruct (cl_inv_step cfg g c c' Hci) as (g' & Hg & Hi'); [by exists a|]. exists g'.
  assert ((∃ Y', evolved b g Y Y' ∧ commit_inv g' Y' c') → ∃ Y', votes_le g g' ∧ evolved b g Y Y' ∧ commit_inv g' Y' c') as Hdone
    by (intros (Y1 & ? & ?); by exists Y1).
  destruct a as [conf rands|conf rands peers|i x|i k|i m|i|i|i|i s]; try done; apply Hdone.
  - exists Y. split; [apply evolved_refl|]. by eapply commit_inv_start.
  - cbn in E. apply bind_Some in E as (mb & Hm & E). apply bind_Some in E as (rn & Er%from_ok_inv & E).
    pose proof (mo_guard _ _ _ _ (inv_members _ _ _ Hci _ _ Hm)) as Hgd. unfold node_ok in Hgd. apply andb_true_iff in Hgd as [_ Hgd].
    destruct (ci_members _ _ _ Hi _ _ Hm) as [(V & Hn) _].
    destruct (node_call b bt cfg g (asked c) (cl_net c) i (disk_term mb) (disk_commit mb) Hcfg Hb0) with (Y := Y) (V := V) (x := x) (rn := mb_node mb) (rn' := rn)
      as (Y' & V' & r' & -> & Hmv & Ho' & Hn'); try done.
    { intros y. by eapply sent_past. } { apply Hi. } { apply Hl. } { by apply (Hlc mb). }
    exists Y'. split; [apply Hmv|]. eapply commit_inv_put; [done|exact Hi|exact Hm|exact E|done|done|exact Hmv|exact Ho'|done|by left|exact Hn'].
  - cbn in E. apply bind_Some in E as (mb & Hm & E). apply bind_Some in E as (m & Hin & E). destruct (_ && _) eqn:Hb; [|done].
    apply andb_true_iff in Hb as [Hto%Z.eqb_eq Hwf]. apply bind_Some in E as (x & Ex%from_ok_inv & E). pose proof (Hlc m Hin mb Hm) as Hf. pose proof (Hk m Hin) as Hty.
    apply list_elem_of_lookup_2 in Hin. destruct (li_net _ _ _ _ _ Hl m Hin) as (Hp & Hv & Hgr). destruct (ci_net _ _ _ Hi m Hin) as (Hs & Ha & Hvk).
    pose proof (mo_named _ _ _ _ (inv_members _ _ _ Hci _ _ Hm)) as Hna.
    eapply commit_inv_message; [exact Hi|exact Hm|done|done|done|auto| |done|done|done|done|exact Ex|exact E|done|done].
    intros Ht Hrej. assert (is_grant m) as Hig by (split_and!; congruence). rewrite Hto in Hgr, Hvk. split_and!; auto. by apply (inv_net _ _ _ Hci).
  - cbn in E. apply bind_Some in E as (mb & Hm & E). destruct (_ && _) eqn:Hb; [|done]. apply andb_true_iff in Hb as [Hn Hwf].
    apply bind_Some in E as (x & Ex%from_ok_inv & E). destruct Hlc as (Ha & Hv & Hf).
    eapply commit_inv_message; [exact Hi|exact Hm|done|by apply Hf|intros ?; done|intros ?; done| | | |..|exact Ex|exact E|done|done].
    + intros Ht Hrej. unfold grants_vote in Hn. by rewrite Ht, Hrej in Hn.
    + split; intros Ht; [done|by rewrite Ht in Hk].
    + intros (Ht & _). by rewrite Ht in Hk.
    + intros Ht. by rewrite Ht in Hk.
    + intros Ht. by rewrite Ht in Hk.
  - cbn in E. apply bind_Some in E as (mb & Hm & E). destruct (advance_ok _ _ _) eqn:Hok; [|done].
    apply bind_Some in E as (rn & Er%from_ok_inv & E). revert Er. unfold RawNode_Advance.
    destruct (rn_asyncStorageWrites (mb_node mb)) eqn:Has; [done|]. intros ([u r'] & Es & [= <-])%bind_Ok.
    pose proof (li_members _ _ _ _ _ Hl _ _ Hm) as [_ Ho _]. pose proof (inv_members _ _ _ Hci _ _ Hm) as Hmo.
    destruct (ci_members _ _ _ Hi _ _ Hm) as [(V & Hn) Hs].
    destruct (node_steps b bt cfg g (asked c) (cl_net c) i (disk_term mb) (disk_commit mb) Hcfg Hb0) with (Y := Y) (V := V) (ms := rn_stepsOnAdvance (mb_node mb)) (r := mb_raft mb) (u := u) (r' := r')
      as (Y' & V' & Hmv & Ho' & Hn'); try done.
    { intros y. by eapply sent_past. } { apply Hi. } { apply Hl. } { apply Hmo. }
    { intros t Ht. by eapply (mo_disk _ _ _ _ Hmo). } { apply Hmo. } { by apply Hlc. }
    exists Y'. split; [apply Hmv|]. eapply commit_inv_put; [done|exact Hi|exact Hm|exact E|done|done|exact Hmv|exact Ho'|done|by right|exact Hn'].
Qed.

(** Nothing has happened yet. *)
Definition no_history : history := mkhistory ∅ ∅ (fun _ => mkslog b bt []) (fun _ => mkslog b bt []) (fun _ _ => b).

Lemma commit_inv_init : commit_inv (fun _ => ∅) no_history cl_init.
Proof.
  split; [apply log_inv_init| |done|intros m Hm; by apply elem_of_nil in Hm|done].
  assert (∀ t, ¬ term_led no_history t) as Hn by (intros t [j Hj]; set_solver).
  split; try (intros t Ht; by destruct (Hn t)); try done.
  - intros k t [x Hx]. done.
  - by left.
Qed.

Lemma commit_inv_steps g Y c c' :
  commit_inv g Y c → rtc commit_step c c' → ∃ g' Y', votes_le g g' ∧ evolved b g Y Y' ∧ commit_inv g' Y' c'.
Proof.
  intros Hi Hs. revert g Y Hi. induction Hs as [c|c c1 c2 H1 _ IH]; intros g Y Hi; [exists g, Y; split_and!; [done|apply evolved_refl|done]|].
  destruct (commit_inv_step _ _ _ _ Hi H1) as (g1 & Y1 & Hg1 & He1 & Hi1). destruct (IH _ _ Hi1) as (g2 & Y2 & Hg2 & He2 & Hi2).
  exists g2, Y2. split_and!; [by trans g1| |done]. eapply evolved_trans; [exact He1|]. by eapply evolved_votes.
Qed.

(** The log of a node, with what it holds committed, at a later time. *)
Lemma committed_later g Y c i mb g' Y' c' k :
  commit_inv g Y c → cl_members c !! i = Some mb → evolved b g Y Y' → commit_inv g' Y' c' → k <= raftLog_committed (mb_log mb) →
  rooted b bt (hy_tree Y') (log_view (mb_log mb)) ∧ settled b cfg Y' (log_view (mb_log mb)) (raft_Term (mb_raft mb)) k.
Proof.
  intros Hi Hm He Hi' Hk. destruct (ci_members _ _ _ Hi _ _ Hm) as [(V & [_ Nr _ _ _ _]) _]. split.
  - eapply rooted_mono; [apply He|apply Nr].
  - eapply settled_le; [exact Hk|]. eapply settled_mono; [exact He|apply Hi|apply Nr].
Qed.

(** Two nodes, then or later, hold the same entry at an index that both hold
    committed. *)
Lemma committed_same c1 c2 i j mb1 mb2 index :
  rtc commit_step cl_init c1 → cl_members c1 !! i = Some mb1 →
  rtc commit_step c1 c2 → cl_members c2 !! j = Some mb2 →
  b < index → index <= Z.min (raftLog_committed (mb_log mb1)) (raftLog_committed (mb_log mb2)) →
  ∃ e, slog_at (log_view (mb_log mb1)) index = Some e ∧ slog_at (log_view (mb_log mb2)) index = Some e.
Proof.
  intros H1 M1 H2 M2 Hb Hk. assert (index <= raftLog_committed (mb_log mb1)) as K1 by lia. assert (index <= raftLog_committed (mb_log mb2)) as K2 by lia.
  destruct (commit_inv_steps _ _ _ _ commit_inv_init H1) as (g1 & Y1 & _ & _ & I1).
  destruct (commit_inv_steps _ _ _ _ I1 H2) as (g2 & Y2 & _ & He & I2).
  destruct (committed_later _ _ _ _ _ _ _ _ _ I1 M1 He I2 K1) as [R1 S1].
  destruct (committed_later _ _ _ _ _ _ _ _ _ I2 M2 (evolved_refl _ _ _) I2 K2) as [R2 S2].
  by eapply (settled_both b bt cfg g2 Y2 (ci_hist _ _ _ I2) Hcfg).
Qed.

(** C1. State machine safety: in a cluster with a fixed configuration whose
    applications store what a Ready holds before they send its messages, whatever
    messages are lost, delivered twice or out of order and whenever nodes crash
    and restart, if two nodes, even at different times, hold an index committed,
    they hold the same entry at it.  (Logs start at a common index and are not
    compacted.) *)
Theorem state_machine_safety c1 c2 i j mb1 mb2 index :
  rtc commit_step cl_init c1 → cl_members c1 !! i = Some mb1 →
  rtc commit_step c1 c2 → cl_members c2 !! j = Some mb2 →
  b < index → index <= raftLog_committed (mb_log mb1) → index <= raftLog_committed (mb_log mb2) →
  ∃ e, slog_at (log_view (mb_log mb1)) index = Some e ∧ slog_at (log_view (mb_log mb2)) index = Some e.
Proof. intros H1 M1 H2 M2 Hb K1 K2. eapply committed_same; [exact H1|exact M1|exact H2|exact M2|exact Hb|lia]. Qed.

(** C2. Leader completeness: under the same conditions, what any node holds
    committed is in the log of every leader that has, then or later, the same or
    a later term. *)
Theorem leader_completeness c1 c2 i j mb1 mb2 index :
  rtc commit_step cl_init c1 → cl_members c1 !! i = Some mb1 →
  rtc commit_step c1 c2 → cl_members c2 !! j = Some mb2 →
  raft_state (mb_raft mb2) = StateLeader → raft_Term (mb_raft mb1) <= raft_Term (mb_raft mb2) →
  b < index → index <= raftLog_committed (mb_log mb1) →
  ∃ e, slog_at (log_view (mb_log mb1)) index = Some e ∧ slog_at (log_view (mb_log mb2)) index = Some e.
Proof.
  intros H1 M1 H2 M2 Hs Ht Hb K1. destruct (commit_inv_steps _ _ _ _ commit_inv_init H1) as (g1 & Y1 & _ & _ & I1).
  destruct (commit_inv_steps _ _ _ _ I1 H2) as (g2 & Y2 & _ & He & I2).
  destruct (committed_later _ _ _ _ _ _ _ _ _ I1 M1 He I2 K1) as [R1 S1].
  destruct (ci_members _ _ _ I2 _ _ M2) as [(V & [Nl Nr _ _ Nx _]) _]. pose proof (ld_led _ _ _ _ _ (rp_lead _ _ _ _ _ _ _ Nr Hs)) as Hl.
  eapply settled_later in S1; [|exact Ht].
  destruct (settled_promise b bt cfg g2 Y2 (ci_hist _ _ _ I2) Hcfg _ _ _ Hl R1 S1) as [Ha _].
  eapply (settled_both b bt cfg g2 Y2 (ci_hist _ _ _ I2) Hcfg); [done|exact R1|apply Nr|exact S1|].
  eapply settled_agree; [|exact S1]. by rewrite <- (Nx Hs).
Qed.

End actions.
End cluster_commit.

(** ** An application on MemoryStorage

    It stores what a [Ready] holds at once, and recovers from what it has stored. *)

Section memory.
Context `{Protobuf, !ProtobufLaws _}.
Context (b bt : Z) (cfg : JointConfig).
Implicit Types (r : raft MemoryStorage) (l : raftLog MemoryStorage) (c : cluster MemoryStorage).

Inductive commit_event : Type :=
  | Do (a : action MemoryStorage)
  | Save (i : Z)                                          (* take a Ready and store it *)
  | Recover (i : Z) (conf : RaftConfig MemoryStorage).    (* crash and restart from storage *)

Definition commit_check (a : action MemoryStorage) c : bool :=
  contract_check a c &&
  match a with
  | AStart conf _ =>
      (bt <=? HardState_GetTerm (initial_hs conf) + 1) && (HardState_GetCommit (initial_hs conf) <=? b) &&
      match RaftConfig_Storage conf with
      | Some s => (sl_base (st_view s) =? b) && (sl_term (st_view s) =? bt)
      | None => false
      end
  | ACall _ (CApplyConfChange _) => false
  | ACall _ _ => true
  | ADeliver _ k => match cl_net c !! k with Some m => negb (mt_eqb (Message_GetType m) MsgSnap) | None => true end
  | AForge _ m => match Message_GetType m with MsgHeartbeat | MsgAppResp | MsgSnap => false | _ => true end
  | AAdvance _ => true
  | ABootstrap _ _ _ | AReady _ | AWrite _ | AStorage _ _ => false
  end.

(** What the storage becomes: nothing may be left to save. *)
Definition save (mb : host MemoryStorage) : option MemoryStorage :=
  match keep mb with
  | Some s => Some s
  | None => if bool_decide (st_view (raftLog_storage (mb_log mb)) = log_view (mb_log mb)) then Some (raftLog_storage (mb_log mb)) else None
  end.

Definition commit_event_run (e : commit_event) c : option (cluster MemoryStorage) :=
  match e with
  | Do a => if commit_check a c then perform cfg a c else None
  | Save i => c1 ← perform cfg (AReady i) c; mb ← cl_members c1 !! i; s ← save mb; perform cfg (AStorage i s) c1
  | Recover i conf => mb ← cl_members c !! i; perform cfg (AStart (reboot i conf mb) []) c
  end.

Fixpoint commit_run (es : list commit_event) c : option (cluster MemoryStorage) :=
  match es with
  | [] => Some c
  | e :: es => c' ← commit_event_run e c; commit_run es c'
  end.

Lemma commit_check_ok a c : commit_check a c = true → commit_contract b bt a c.
Proof.
  unfold commit_check. rewrite andb_true_iff. intros [Hc%contract_check_ok Ha]. split; [done|].
  destruct a as [conf rands|conf rands peers|i x|i k|i m|i|i|i|i s]; try done.
  - repeat rewrite andb_true_iff in Ha. destruct Ha as [[? ?] Hs]. intros _. split_and!; [lia..|]. intros s Es. rewrite Es in Hs. apply andb_true_iff in Hs. lia.
  - by destruct x.
  - intros m Hm. rewrite Hm in Ha. destruct (mt_eqb_spec (Message_GetType m) MsgSnap); done.
  - by destruct (Message_GetType m).
Qed.

Lemma save_saves mb s : log_wf (mb_log mb) → save mb = Some s → saves s (mb_log mb).
Proof.
  unfold save. intros W. destruct (keep mb) as [s'|] eqn:Ek; [intros [= <-]; by apply keep_saves|]. case_bool_decide as Hv; [|done].
  intros [= <-]. assert (set_raftLog_storage (raftLog_storage (mb_log mb)) (mb_log mb) = mb_log mb) as El by (by destruct (mb_log mb)).
  unfold saves. by rewrite El.
Qed.

Lemma commit_event_ok e c c' :
  cfg.1 ≠ ∅ → 0 <= b → rtc (commit_step b bt cfg) cl_init c → commit_event_run e c = Some c' → commit_step b bt cfg c c'.
Proof.
  intros Hc Hb Hs. destruct (commit_inv_steps b bt cfg Hc Hb _ _ _ _ (commit_inv_init b bt cfg Hc) Hs) as (g & Y & _ & _ & Hi).
  pose proof (ci_log _ _ _ _ _ _ Hi) as Hl. destruct e as [a|i|i conf]; cbn [commit_event_run].
  - destruct (commit_check a c) eqn:E; [|done]. intros Ep. left. exists a. split; [by apply commit_check_ok|done].
  - intros (c1 & E1 & E)%bind_Some. apply bind_Some in E as (mb & Hm & E). apply bind_Some in E as (s & Es & Ep). right.
    exists i, s, c1. split_and!; [done| |done]. intros mb0 Hm0. rewrite Hm in Hm0. injection Hm0 as <-. apply save_saves; [|done].
    destruct (log_inv_step cfg _ _ _ c c1 Hc Hl) as (g1 & T1 & led1 & _ & _ & Hl1); [by exists (AReady i)|]. apply (li_members _ _ _ _ _ Hl1 _ _ Hm).
  - intros (mb & Hm & Ep)%bind_Some. left. exists (AStart (reboot i conf mb) []). split; [|done]. split; [|intros Hn; cbn in Hn; by rewrite Hm in Hn].
    split; [done|]. eexists. split; [done|]. cbn [RaftConfig_ID reboot]. rewrite Hm. split; [|done].
    apply (lwf_storage _ (nl_wf _ _ _ _ _ _ _ _ (mg_node _ _ _ _ _ _ _ (li_members _ _ _ _ _ Hl _ _ Hm)))).
Qed.

Lemma commit_run_ok es c c' :
  cfg.1 ≠ ∅ → 0 <= b → rtc (commit_step b bt cfg) cl_init c → commit_run es c = Some c' → rtc (commit_step b bt cfg) c c'.
Proof.
  intros Hc Hb. revert c. induction es as [|e es IH]; intros c Hs; cbn; [by intros [= ->]|].
  intros (c1 & E & E1)%bind_Some. apply commit_event_ok in E; [|done..]. eapply rtc_l; [exact E|]. apply IH; [|done]. by eapply rtc_r.
Qed.

End memory.

(** ** A run *)

#[local] Existing Instances sample_Protobuf sample_ProtobufLaws.

(** Node 1 is elected by node 2, which crashes and recovers before the vote
    arrives; the entry of the election and a proposal reach node 2, and node 1
    commits both. *)
Definition ex_replicate : list commit_event :=
  [Do (AStart (ex_new_conf 1) []); Do (AStart (ex_new_conf 2) []); Do (AStart (ex_new_conf 3) []);
   Do (ACall 1 CCampaign); Save 1; Do (AAdvance 1); Do (ADeliver 2 0); Save 2; Recover 2 (ex_new_conf 2); Do (ADeliver 1 2);
   Save 1; Do (AAdvance 1); Do (ADeliver 2 3); Save 2; Do (AAdvance 2); Do (ADeliver 1 5);
   Do (ACall 1 (CPropose (Some [Byte.x78]))); Save 1; Do (AAdvance 1); Do (ADeliver 2 6); Do (ADeliver 2 7); Save 2; Do (AAdvance 2);
   Do (ADeliver 1 9)].

(** Node 2 is elected in the next term by node 3, which has no entries; node 1
    follows it, and node 2 commits what it has. *)
Definition ex_takeover : list commit_event :=
  [Do (ACall 2 CCampaign); Save 2; Do (AAdvance 2); Do (ADeliver 3 11); Save 3; Do (AAdvance 3); Do (ADeliver 2 12); Save 2;
   Do (AAdvance 2); Do (ADeliver 1 13); Save 1; Do (AAdvance 1); Do (ADeliver 2 16)].

Definition commits_of (es : list commit_event) (c : cluster MemoryStorage) : cluster MemoryStorage :=
  default cl_init (commit_run 0 0 ex_cfg es c).

Definition ex_before : cluster MemoryStorage := commits_of ex_replicate cl_init.

Definition ex_after : cluster MemoryStorage := commits_of ex_takeover ex_before.

Lemma ex_before_run : commit_run 0 0 ex_cfg ex_replicate cl_init = Some ex_before.
Proof. vm_compute. reflexivity. Qed.

Lemma ex_after_run : commit_run 0 0 ex_cfg ex_takeover ex_before = Some ex_after.
Proof. vm_compute. reflexivity. Qed.

Lemma ex_cfg_voters : ex_cfg.1 ≠ ∅.
Proof. apply (bool_decide_unpack _). vm_compute. exact I. Qed.

Lemma ex_commit_steps :
  rtc (commit_step 0 0 ex_cfg) cl_init ex_before ∧ rtc (commit_step 0 0 ex_cfg) ex_before ex_after.
Proof.
  assert (rtc (commit_step 0 0 ex_cfg) cl_init ex_before) as H1 by (eapply commit_run_ok; [apply ex_cfg_voters|done|apply rtc_refl|apply ex_before_run]).
  split; [done|]. eapply commit_run_ok; [apply ex_cfg_voters|done|exact H1|apply ex_after_run].
Qed.

Lemma state_machine_safety_witness :
  ∃ mb1 mb2 e, cl_members ex_before !! 1 = Some mb1 ∧ cl_members ex_after !! 2 = Some mb2 ∧
    raftLog_committed (mb_log mb1) = 2 ∧ raftLog_committed (mb_log mb2) = 3 ∧
    slog_at (log_view (mb_log mb1)) 2 = Some e ∧ slog_at (log_view (mb_log mb2)) 2 = Some e.
Proof.
  destruct (cl_members ex_before !! 1) as [mb1|] eqn:E1; [|vm_compute in E1; discriminate E1].
  destruct (cl_members ex_after !! 2) as [mb2|] eqn:E2; [|vm_compute in E2; discriminate E2].
  assert (raftLog_committed (mb_log mb1) = 2) as C1 by (vm_compute in E1; injection E1 as <-; reflexivity).
  assert (raftLog_committed (mb_log mb2) = 3) as C2 by (vm_compute in E2; injection E2 as <-; reflexivity).
  destruct (state_machine_safety 0 0 ex_cfg ex_cfg_voters ltac:(lia) ex_before ex_after 1 2 mb1 mb2 2
    (proj1 ex_commit_steps) E1 (proj2 ex_commit_steps) E2) as (e & A1 & A2); [lia|lia|lia|].
  exists mb1, mb2, e. split; [reflexivity|]. split; [reflexivity|]. split; [exact C1|]. split; [exact C2|]. split; [exact A1|exact A2].
Defined.

Lemma leader_completeness_witness :
  ∃ mb1 mb2 e, cl_members ex_before !! 1 = Some mb1 ∧ cl_members ex_after !! 2 = Some mb2 ∧
    raft_state (mb_raft mb2) = StateLeader ∧ raft_Term (mb_raft mb1) = 1 ∧ raft_Term (mb_raft mb2) = 2 ∧
    raftLog_committed (mb_log mb1) = 2 ∧
    slog_at (log_view (mb_log mb1)) 2 = Some e ∧ slog_at (log_view (mb_log mb2)) 2 = Some e.
Proof.
  destruct (cl_members ex_before !! 1) as [mb1|] eqn:E1; [|vm_compute in E1; discriminate E1].
  destruct (cl_members ex_after !! 2) as [mb2|] eqn:E2; [|vm_compute in E2; discriminate E2].
  assert (raftLog_committed (mb_log mb1) = 2) as C1 by (vm_compute in E1; injection E1 as <-; reflexivity).
  assert (raft_Term (mb_raft mb1) = 1) as T1 by (vm_compute in E1; injection E1 as <-; reflexivity).
  assert (raft_Term (mb_raft mb2) = 2) as T2 by (vm_compute in E2; injection E2 as <-; reflexivity).
  assert (raft_state (mb_raft mb2) = StateLeader) as S2 by (vm_compute in E2; injection E2 as <-; reflexivity).
  destruct (leader_completeness 0 0 ex_cfg ex_cfg_voters ltac:(lia) ex_before ex_after 1 2 mb1 mb2 2
    (proj1 ex_commit_steps) E1 (proj2 ex_commit_steps) E2 S2) as (e & A1 & A2); [lia|lia|lia|].
  exists mb1, mb2, e. split; [reflexivity|]. split; [reflexivity|]. split; [exact S2|]. split; [exact T1|]. split; [exact T2|].
  split; [exact C1|]. split; [exact A1|exact A2].
Defined.
