(* ===== verification/InteractionSafety.v ===== *)
(** * Applied states agree

    The environment of Interaction.v, whose nodes store before they send, keeps
    to the contract of the library: each of its operations is a sequence of
    steps of a cluster (ClusterCommit.v).  So the states that its nodes have
    applied are prefixes of each other. *)
From S2P Require Import Prelude Proto Quorum Inflights Progress Tracker Util Storage.
From S2P Require Import Unstable Log ConfChange ReadOnly Raft RaftStep RaftRel RaftSafety.
From S2P Require Import RaftInv RaftDisk LogTree History NodeCommit RawNode Interaction.
From S2P Require Import Cluster NodeLog ClusterLog ClusterCommit.

Abbreviation rn_log rn := (raft_raftLog (rn_raft rn)).

(** ** A Ready of a node that stores at once *)

Section ready.
Context {S : Type} `{Protobuf, !ProtobufLaws _} `{!Storage S} `{!StorageLaws S}.
Implicit Types (r : raft S) (l : raftLog S) (rn : RawNode S).

(** The entries to apply are those of the log after the ones handed out. *)
Lemma nextCommitted_slice l allow ents :
  log_wf l → raftLog_nextCommittedEnts allow l = Ok ents →
  ents = [] ∨ log_base l <= raftLog_applying l ∧
    ents `prefix_of` drop (Z.to_nat (raftLog_applying l - log_base l)) (sl_ents (log_view l)).
Proof.
  intros W. log_facts W. unfold raftLog_nextCommittedEnts.
  destruct (raftLog_applyingEntsPaused l); [intros [= <-]; by left|]. destruct (raftLog_hasNextOrInProgressSnapshot l); [intros [= <-]; by left|].
  pose proof (maxAppliableIndex_ok l allow W) as Hmax. set (hi := raftLog_maxAppliableIndex allow l) in *.
  assert (0 <= hi <= raftLog_committed l) as Hhi by (destruct allow; lia).
  rewrite !add64_small by lia. zcase; [intros [= <-]; by left|]. destruct (_ <=? 0); [done|].
  intros ([es|] & Es & E)%bind_Ok; [|done]. injection E as <-. right.
  apply slice_prefix in Es as [Hbs [rest Hpre]]; [|done|lia..]. split; [lia|]. unfold slog_range in Hpre. cbn [sl_base log_view] in Hpre.
  replace (raftLog_applying l + 1 - log_base l - 1) with (raftLog_applying l - log_base l) in Hpre by lia.
  eexists (rest ++ drop _ _). rewrite app_assoc, <- Hpre. symmetry. apply take_drop.
Qed.

Lemma ready_parts rn rd :
  RawNode_readyWithoutAccept rn = Ok rd →
  raftLog_nextUnstableEnts (rn_log rn) = Ok (Ready_Entries rd) ∧
  raftLog_nextCommittedEnts (RawNode_applyUnstableEntries rn) (rn_log rn) = Ok (Ready_CommittedEntries rd).
Proof.
  unfold RawNode_readyWithoutAccept. intros (ents & He & E)%bind_Ok. apply bind_Ok in E as (com & Hcom & E). rewrite He, Hcom.
  destruct (rn_asyncStorageWrites rn); [|by injection E as <-]. apply bind_Ok in E as (rd1 & E1 & [= <-]).
  assert (Ready_Entries rd1 = ents ∧ Ready_CommittedEntries rd1 = com) as [<- <-]; [|by destruct (needStorageApplyMsg _)].
  destruct (needStorageAppendMsg _ _) in E1; [apply bind_Ok in E1 as (m & _ & [= <-])|injection E1 as <-]; done.
Qed.

(** What [acceptReady] makes of the log. *)
Lemma accept_parts rn rd rn' :
  log_wf (rn_log rn) → RawNode_readyWithoutAccept rn = Ok rd → RawNode_acceptReady rd rn = Ok rn' →
  let l := rn_log rn in let l' := rn_log rn' in
  raftLog_unstable l' = unstable_acceptInProgress (raftLog_unstable l) ∧ raftLog_storage l' = raftLog_storage l ∧
  raftLog_applied l' = raftLog_applied l ∧ raftLog_applying l' = raftLog_applying l + len (Ready_CommittedEntries rd).
Proof.
  intros W Er Ea l l'. pose proof (ready_parts _ _ Er) as [_ Hc]. apply nextCommitted_bounds in Hc as [Hc Hle]; [|done].
  destruct (acceptUnstable_ok _ W) as (W1 & V1 & _).
  destruct (accept_committed_ok (raftLog_acceptUnstable l) (Ready_CommittedEntries rd) (entsSize (Ready_CommittedEntries rd))
    (RawNode_applyUnstableEntries rn) W1 Hc Hle) as (l1 & El & W' & V' & U' & St' & C' & A' & P').
  assert (l' = l1) as ->; [|by rewrite U', St', A', P'].
  revert Ea. unfold RawNode_acceptReady. intros (steps & _ & E)%bind_Ok. apply bind_Ok in E as (r1 & Er1 & Ern). unfold l'. injection Ern as <-. cbn [rn_raft].
  assert (∀ b : bool, raft_raftLog (if b then set_raft_readStates [] (rn_raft rn) else rn_raft rn) = l) as Hl by (by intros []).
  revert Er1 El. destruct (last (Ready_CommittedEntries rd)).
  - intros (l2 & E1 & [= <-])%bind_Ok E2. cbn in E1 |- *. rewrite Hl in E1. congruence.
  - intros [= <-] [= <-]. cbn. by rewrite Hl.
Qed.

(** Everything is in progress after a Ready. *)
Lemma accept_progress l :
  log_wf l → unstable_snapshot (raftLog_unstable l) = None →
  let u := unstable_acceptInProgress (raftLog_unstable l) in
  unstable_snapshot u = None ∧
  unstable_offset u = unstable_offset (raftLog_unstable l) ∧ unstable_entries u = unstable_entries (raftLog_unstable l) ∧
  (unstable_entries u ≠ [] → unstable_offset u < unstable_offsetInProgress u ∧ unstable_offsetInProgress u - 1 = log_last l).
Proof.
  intros W Sn u. destruct (acceptInProgress_wf _ (lwf_unstable _ W)) as (_ & He & Ho & Hs). fold u in He, Ho, Hs.
  split_and!; [congruence|done|done|]. rewrite He. intros Hne. log_facts W.
  destruct (last (unstable_entries (raftLog_unstable l))) as [e|] eqn:El; [|by apply last_None in El].
  pose proof (last_index_contiguous _ _ _ Hc El) as Hie. unfold u, unstable_acceptInProgress. rewrite El. cbn. rewrite Sn. cbn.
  pose proof (log_last_bound l W). destruct (unstable_entries (raftLog_unstable l)) as [|x xs]; [done|]. rewrite len_cons in *. pose proof (len_nonneg xs).
  rewrite Hie, add64_small by lia. lia.
Qed.

(** The messages that wait for [Advance]. *)
Lemma accept_waiting rn rd rn' :
  log_wf (rn_log rn) → unstable_snapshot (raftLog_unstable (rn_log rn)) = None → rn_asyncStorageWrites rn = false →
  rn_stepsOnAdvance rn = [] → RawNode_readyWithoutAccept rn = Ok rd → RawNode_acceptReady rd rn = Ok rn' →
  ∃ app apply, rn_stepsOnAdvance rn' = filter (fun m => to_self (rn_raft rn) m = true) (raft_msgsAfterAppend (rn_raft rn)) ++ app ++ apply ∧
    (app = [] ∨ unstable_entries (raftLog_unstable (rn_log rn)) ≠ [] ∧ ∃ m, app = [m] ∧ Message_GetType m = MsgStorageAppendResp ∧
      Message_GetSnapshot m = None ∧ Message_GetIndex m = log_last (rn_log rn) ∧ Message_GetEntries m = []) ∧
    (apply = [] ∨ apply = [newStorageApplyRespMsg (rn_raft rn) (Ready_CommittedEntries rd)]).
Proof.
  intros W Sn Hs Hst Er Ea. revert Ea. unfold RawNode_acceptReady. rewrite Hs, Hst. intros (steps & E1 & E)%bind_Ok.
  apply bind_Ok in E as (r1 & _ & [= <-]). cbn [rn_stepsOnAdvance]. cbn in E1. apply bind_Ok in E1 as (new & E1 & [= <-]).
  set (r0 := if negb _ then _ else _) in E1. assert (raft_raftLog r0 = rn_log rn ∧ raft_id r0 = raft_id (rn_raft rn) ∧
    raft_msgsAfterAppend r0 = raft_msgsAfterAppend (rn_raft rn)) as (Hl & Hi & Hm) by (subst r0; by destruct (negb _)).
  unfold accept_steps in E1. apply bind_Ok in E1 as (app & Ea & [= <-]).
  exists app, (if needStorageApplyRespMsg rd then [newStorageApplyRespMsg (rn_raft rn) (Ready_CommittedEntries rd)] else []). split_and!.
  - cbn. rewrite Hm. f_equal; [|f_equal].
    + apply list_filter_iff. intros m. unfold to_self. by rewrite Hi.
    + unfold newStorageApplyRespMsg. by rewrite Hi.
  - assert (Ready_Snapshot rd = None) as Hrs by (by apply (ready_no_snapshot rn)).
    revert Ea. unfold needStorageAppendRespMsg, newStorageAppendRespMsg. rewrite Hrs, Hl. cbn. rewrite orb_false_r.
    unfold raftLog_hasNextOrInProgressUnstableEnts. destruct (Z.ltb_spec 0 (len (unstable_entries (raftLog_unstable (rn_log rn))))) as [Hpos|]; [|intros [= <-]; by left].
    intros (m & Em & [= <-])%bind_Ok. right. split; [intros Hz; by rewrite Hz in Hpos|]. destruct (lastEntryID_ok _ W) as (t & Et & _). rewrite Et in Em. cbn in Em.
    injection Em as <-. eexists. split; [done|]. done.
  - destruct (needStorageApplyRespMsg rd); auto.
Qed.

End ready.

(** ** Advance *)

Section advance.
Context {S : Type} `{Protobuf, !ProtobufLaws _} `{!Storage S} `{!StorageLaws S}.
Context (cfg : JointConfig).
Implicit Types (r : raft S) (l : raftLog S) (rn : RawNode S).

Lemma step_wf m r x r' :
  raft_Step m r = Ok (x, r') → coherent r → log_wf (raft_raftLog r) → msg_log_ok m r →
  (Message_GetType m = MsgStorageAppendResp → ack_ok m (raft_raftLog r)) → coherent r' ∧ log_wf (raft_raftLog r').
Proof.
  intros E Hc W Hm Ha. assert (kept r r') as [Hk Hl].
  { destruct (Step_effect _ _ _ _ E Hc Hm Ha) as [[? _]|[Hg _]]; [done|]. eapply grows_kept_raft; [exact Hg|apply Hm]. }
  split; [auto|]. by destruct (Hl W).
Qed.

(** Indexes do not overflow, the configuration stays. *)
Fixpoint advance_fits (ms : list Message) r : bool :=
  match ms with
  | [] => true
  | m :: ms =>
      raft_guard cfg r && msg_wf_b m && (log_last (raft_raftLog r) + (len (Message_GetEntries m) + 1) <? 9223372036854775808) &&
      match raft_Step m r with Ok x => advance_fits ms x.2 | Panic _ => true end
  end.

Lemma advance_fits_ok ms r : advance_fits ms r = true → advance_ok cfg ms r = true.
Proof.
  revert r. induction ms as [|m ms IH]; intros r; [done|]. cbn. repeat rewrite andb_true_iff. intros [[[-> ->] _] Hs].
  split_and!; [done..|]. destruct (raft_Step m r); auto.
Qed.

Lemma advance_fits_cons m ms r x r' :
  advance_fits (m :: ms) r = true → raft_Step m r = Ok (x, r') →
  room (len (Message_GetEntries m) + 1) (raft_raftLog r) ∧ advance_fits ms r' = true.
Proof. cbn. repeat rewrite andb_true_iff. intros [[_ Hr] Hs] E. rewrite E in Hs. split; [unfold room; lia|done]. Qed.

Abbreviation steps ms := (for_each (fun m => _ ← raft_Step m; mret tt) ms).

Lemma steps_cons m ms r x r' :
  steps (m :: ms) r = Ok (x, r') → ∃ y r1, raft_Step m r = Ok (y, r1) ∧ steps ms r1 = Ok (x, r').
Proof. cbn [for_each]. intros E. run_inv E. run_inv E0. injection E0 as _ <-. eauto. Qed.

(** The node between the steps of an [Advance]: [r0] is where it started. *)
Record between r0 r : Prop := mkbetween {
  bw_coherent : coherent r;
  bw_wf : log_wf (raft_raftLog r);
  bw_held : held (raft_raftLog r);
  bw_applying : raftLog_applying (raft_raftLog r) = raftLog_applying (raft_raftLog r0);
  bw_storage : raftLog_storage (raft_raftLog r) = raftLog_storage (raft_raftLog r0);
}.

(** What the rest of the steps asks for and achieves. *)
Definition goes_well ms r0 r : Prop :=
  steps_fit ms r ∧ ∀ x r', steps ms r = Ok (x, r') →
    held (raft_raftLog r') ∧ raftLog_applying (raft_raftLog r') = raftLog_applying (raft_raftLog r0) ∧
    raftLog_storage (raft_raftLog r') = raftLog_storage (raft_raftLog r0).

Lemma goes_nil r0 r : between r0 r → goes_well [] r0 r.
Proof. intros [_ _ Hh Ha Hs]. split; [done|]. by intros x r' [= _ <-]. Qed.

(** One step: its message fits, and the rest goes well afterwards. *)
Lemma goes_cons m ms r0 r :
  between r0 r → advance_fits (m :: ms) r = true → Message_GetType m ≠ MsgApp → Message_GetType m ≠ MsgSnap →
  (Message_GetType m = MsgStorageAppendResp → ack_ok m (raft_raftLog r)) →
  (∀ x r', raft_Step m r = Ok (x, r') → coherent r' → log_wf (raft_raftLog r') → advance_fits ms r' = true → goes_well ms r0 r') →
  goes_well (m :: ms) r0 r.
Proof.
  intros [Hc W Hh Ha _] Hf Ht1 Ht2 Hack Hrest.
  assert (room (len (Message_GetEntries m) + 1) (raft_raftLog r)) as Hr.
  { cbn in Hf. repeat rewrite andb_true_iff in Hf. unfold room. lia. }
  assert (msg_log_ok m r) as Hm by (by split_and!).
  assert (∀ x r', raft_Step m r = Ok (x, r') → goes_well ms r0 r') as Hg.
  { intros x r' E. destruct (step_wf _ _ _ _ E Hc W Hm Hack) as [Hc' W']. destruct (advance_fits_cons _ _ _ _ _ Hf E) as [_ Hf']. eauto. }
  split.
  - cbn [steps_fit]. split; [by split_and!|]. destruct (raft_Step m r) as [[x r']|] eqn:E; [|done]. by destruct (Hg x r' eq_refl).
  - intros x r' (y & r1 & E1 & E2)%steps_cons. destruct (Hg _ _ E1) as [_ Hd]. by eapply Hd.
Qed.

Lemma own_sane free m : msg_later m → sane free m.
Proof. intros Hm. destruct (promise_type _ Hm) as (? & ? & ?). destruct Hm as [Ht|[Ht|Ht]]; unfold sane; rewrite Ht; done. Qed.

(** The node's own answers come first, they only add entries at the end. *)
Lemma goes_own ms rest r0 r :
  Forall msg_later ms → between r0 r → advance_fits (ms ++ rest) r = true →
  (∀ r', between r0 r' → tail_only (raftLog_unstable (raft_raftLog r)) (raftLog_unstable (raft_raftLog r')) →
     advance_fits rest r' = true → goes_well rest r0 r') →
  goes_well (ms ++ rest) r0 r.
Proof.
  revert r. induction ms as [|m ms IH]; intros r Hms Hb Hf Hrest; [by apply Hrest|].
  apply Forall_cons in Hms as [Hm Hms]. assert (Message_GetType m ≠ MsgStorageAppendResp) as Hns by (destruct Hm as [->|[-> | ->]]; done).
  apply goes_cons; try done; try (destruct Hm as [->|[-> | ->]]; done).
  intros x r' E Hc' W' Hf'. destruct (hands_Step false m (own_sane _ _ Hm) _ _ _ E) as (Hh & Hap & Hst). destruct (Hh (bw_held _ _ Hb)) as [Hh' Ht].
  apply IH; try done.
  - destruct Hb. split; try done; congruence.
  - intros r2 Hb2 Ht2. apply Hrest; [done|]. etrans; [by apply Ht|done].
Qed.

(** Then storage answers, and the application. *)
Lemma goes_apply r0 r (ents : list Entry) (q : raft S) :
  between r0 r → (∀ e, last ents = Some e → Entry_GetIndex e <= raftLog_applying (raft_raftLog r0)) →
  advance_fits [newStorageApplyRespMsg q ents] r = true → goes_well [newStorageApplyRespMsg q ents] r0 r.
Proof.
  intros Hb Hl Hf. apply goes_cons; try done. intros x r' E Hc' W' _. split; [done|]. intros y r2 [= _ <-].
  destruct (ApplyResp_step _ _ _ _ E) as (Hh & Ha & Hs); [done..|]. destruct Hb as [_ W Hd Ea Es]. split_and!; [auto| |congruence]. rewrite Ha.
  change (Message_GetEntries (newStorageApplyRespMsg q ents)) with ents. pose proof (lwf_applied _ W).
  destruct (last ents) as [e|] eqn:El; [|done]. specialize (Hl e eq_refl). lia.
Qed.

Lemma goes_stored r0 r m rest :
  between r0 r → Message_GetType m = MsgStorageAppendResp → Message_GetSnapshot m = None →
  (let u := raftLog_unstable (raft_raftLog r) in unstable_offset u < unstable_offsetInProgress u ∧ Message_GetIndex m = unstable_offsetInProgress u - 1) →
  advance_fits (m :: rest) r = true →
  (∀ r', between r0 r' → advance_fits rest r' = true → goes_well rest r0 r') → goes_well (m :: rest) r0 r.
Proof.
  intros Hb Ht Hs [Ho Hi] Hf Hrest. pose proof Hb as [_ W Hh Ha Hst].
  assert (0 <= Message_GetIndex m < MaxUint64) as Hbd by (destruct (lwf_unstable _ W); lia).
  apply goes_cons; try done; try congruence.
  - intros _. apply ack_ok_entries; [done|apply Hh|done|]. intros _. rewrite Hi. by apply held_contract.
  - intros x r' E Hc' W' Hf'. destruct (hands_Step true m) with (a := x) (r := r) (r' := r') as (Hh' & Ha' & Hs'); [|done|].
    { unfold sane. rewrite Ht. split_and!; done || (intros _; split_and!; [done|lia|done]). }
    apply Hrest; [|done]. split; try done; [by apply Hh'|congruence..].
Qed.

End advance.

(** ** Applied states *)

(** The states that follow [s] when the entries are applied. *)
Fixpoint states_after (s : Snapshot) (ents : list Entry) : list Snapshot :=
  match ents with
  | [] => []
  | e :: ents => let s' := next_state s e (Entry_GetData e) None in s' :: states_after s' ents
  end.

Definition state_after (s : Snapshot) (ents : list Entry) : Snapshot :=
  foldl (fun s e => next_state s e (Entry_GetData e) None) s ents.

Lemma states_after_app s xs ys : states_after s (xs ++ ys) = states_after s xs ++ states_after (state_after s xs) ys.
Proof. revert s. induction xs as [|x xs IH]; intros s; [done|]. cbn. by rewrite IH. Qed.

Lemma states_after_last s ents : last (s :: states_after s ents) = Some (state_after s ents).
Proof. revert s. induction ents as [|e ents IH]; intros s; [done|]. cbn [states_after state_after foldl]. rewrite last_cons. by rewrite IH. Qed.

Lemma states_after_prefix s xs ys : xs `prefix_of` ys → states_after s xs `prefix_of` states_after s ys.
Proof. intros [zs ->]. rewrite states_after_app. by apply prefix_app_r. Qed.

Section states.
Context `{Protobuf, !ProtobufLaws _}.

Definition normal_entry (e : Entry) : bool := bool_decide (Entry_GetType e = EntryNormal).

(** Applying entries without configuration changes extends the history. *)
Lemma apply_entries_normal ents rn s :
  forallb normal_entry ents = true → last (so_History (rn_storage rn)) = Some s →
  apply_entries ents rn =
    Ok (Val tt, set_rn_storage (set_so_History (so_History (rn_storage rn) ++ states_after s ents) (rn_storage rn)) rn).
Proof.
  revert rn s. induction ents as [|e ents IH]; intros rn s; cbn [apply_entries forallb states_after].
  - intros _ _. rewrite app_nil_r. destruct rn as [r ? ? ? ?]. unfold rn_storage, set_rn_storage, set_so_History. cbn.
    do 2 f_equal. destruct r as [? ? ? ? l]. cbn. destruct l as [st]. cbn. by destruct st.
  - rewrite andb_true_iff. intros [He%bool_decide_eq_true Hes] Hl. unfold apply_entry, apply_update. rewrite He. cbn [mbind outcome_bind].
    rewrite Hl. cbn [fst snd]. set (s' := next_state _ _ _ _). 
    cbn [mbind outcome_bind fst snd]. rewrite (IH _ s'); [|done|]; unfold rn_storage at 1; cbn; [|by rewrite last_app]. by rewrite <- app_assoc.
Qed.

End states.
(** ** New nodes *)

Section start.
Context {S : Type} `{Protobuf, !ProtobufLaws _} `{!Storage S} `{!StorageLaws S}.

Lemma Config_validate_kept (conf : RaftConfig S) s c :
  Config_validate conf = Val (s, c) →
  RaftConfig_Storage conf = Some s ∧ RaftConfig_AsyncStorageWrites c = RaftConfig_AsyncStorageWrites conf.
Proof. unfold Config_validate. repeat (case_match; try done); by intros [= <- <-]. Qed.

(** A new node has handed out nothing, and has applied what its storage starts
    after. *)
Lemma newRaft_held (conf : RaftConfig S) rands s r :
  newRaft conf rands = Ok r → RaftConfig_Storage conf = Some s → st_ok s →
  held (raft_raftLog r) ∧ sl_base (st_view s) <= raftLog_applying (raft_raftLog r).
Proof.
  unfold newRaft. intros E Hs Hok. destruct (Config_validate conf) as [[s' c]|] eqn:Ev; [|done].
  apply Config_validate_kept in Ev as [Es _]. rewrite Hs in Es. injection Es as <-.
  apply bind_Ok in E as (l & El & E). destruct (st_InitialState s) as [[hs cs]|]; [|done]. apply bind_Ok in E as ([u r1] & E & [= <-]).
  assert (held l ∧ raftLog_applying l = sl_base (st_view s)) as [Hh Ha].
  { revert El. unfold newLogWithSize. pose proof (st_view_wf s Hok) as (Hb & Hl & _). unfold slog_last in Hl. pose proof (len_nonneg (sl_ents (st_view s))).
    rewrite st_FirstIndex_ok, st_LastIndex_ok by done. intros [= <-]. unfold slog_last. rewrite !add64_small, sub64_small by lia. split; [|cbn; lia].
    split; cbn; try done; rewrite ?len_nil; lia. }
  unfold newRaft_init in E. run_inv E. injection E0 as <- <-. do 2 run_inv E.
  apply bind_Ok in E0 as (? & _ & [= <- <-]). apply bind_Ok in E1 as (res & _ & [= <- <-]). destruct res as [[cf trk]|]; [|done].
  run_inv E. apply (hands_switchToConfig true) in E0 as (H0 & A0 & _). destruct (negb _); [done|]. do 2 run_inv E. run_inv E. injection E2 as <- <-.
  cbn in A0, H0. apply (hands_becomeFollower true) in E as (H3 & A3 & _).
  assert (held (raft_raftLog r0) ∧ raftLog_applying (raft_raftLog r0) = raftLog_applying (raft_raftLog r)) as [Hh0 Ha0].
  { destruct hs as [st|]; [|injection E0 as _ <-; split; [by apply H0|done]]. destruct (negb _) in E0; [|injection E0 as _ <-; split; [by apply H0|done]].
    unfold when, raft_loadState in E0. run_inv E0. injection E as <- <-. run_inv E0. apply bind_Ok in E as (? & _ & [= <- <-]).
    destruct (_ || _) in E0; [done|]. injection E0 as _ <-. split; [by apply H0|done]. }
  assert (held (raft_raftLog r2) ∧ raftLog_applying (raft_raftLog r0) <= raftLog_applying (raft_raftLog r2)) as [Hh2 Ha2].
  { destruct (_ <? _) in E1; [|by injection E1 as _ <-]. cbn in E1. apply on_log__inv in E1 as (l2 & -> & E1). split; [by eapply appliedTo_held|].
    revert E1. unfold raftLog_appliedTo. destruct (_ || _); [done|]. intros [= <-]. cbn. destruct (_ <? _); cbn; lia. }
  split; [by apply H3|]. lia.
Qed.

End start.

(** ** The environment as a cluster *)

Lemma env_bind_inv {A B} (m : EnvM A) (k : A → EnvM B) e y e' :
  (m ≫= k) e = Ok (y, e') →
  (∃ a e1, m e = Ok (Val a, e1) ∧ k a e1 = Ok (y, e')) ∨ (∃ x, m e = Ok (Err x, e') ∧ y = Err x).
Proof.
  unfold mbind, EnvM_bind. destruct (m e) as [[[a|x] e1]|]; [|intros [= <- <-]|done]; [left|right]; eauto.
Qed.

Lemma with_node_inv {A} idx (f : INode → outcome (result A * INode)) e y e' :
  with_node idx f e = Ok (y, e') →
  0 <= idx ∧ ∃ n n', env_Nodes e !! Z.to_nat idx = Some n ∧ f n = Ok (y, n') ∧
    e' = set_env_Nodes (<[Z.to_nat idx := n']> (env_Nodes e)) e.
Proof.
  unfold with_node. intros (n & Hn & E)%bind_Ok. apply bind_Ok in E as ([z n'] & Ef & [= <- <-]).
  apply go_index_inv in Hn as [[? _] Hn]. split; [done|]. by exists n, n'.
Qed.

Lemma with_rawnode_inv {A} idx (f : RawNode snapOverrideStorage → outcome (A * RawNode snapOverrideStorage)) e y e' :
  with_rawnode idx f e = Ok (y, e') →
  0 <= idx ∧ ∃ n a rn', env_Nodes e !! Z.to_nat idx = Some n ∧ f (in_RawNode n) = Ok (a, rn') ∧ y = Val a ∧
    e' = set_env_Nodes (<[Z.to_nat idx := set_in_RawNode rn' n]> (env_Nodes e)) e.
Proof.
  intros (Hi & n & n' & Hn & Ef & ->)%with_node_inv. split; [done|]. apply bind_Ok in Ef as ([a rn'] & Ef & [= <- <-]).
  by exists n, a, rn'.
Qed.

Section env.
Context `{Protobuf, !ProtobufLaws _}.
Context (b bt : Z) (cfg : JointConfig) (s0 : Snapshot).
Hypothesis Hcfg : cfg.1 ≠ ∅.
Hypothesis Hb0 : 0 <= b.
Implicit Types (e : InteractionEnv) (n : INode) (c : cluster snapOverrideStorage) (l : raftLog snapOverrideStorage) (mb : host snapOverrideStorage).

Abbreviation runs := (rtc (commit_step b bt cfg)).
Abbreviation in_log n := (raft_raftLog (rn_raft (in_RawNode n))).

(** The history of a node is the initial state and those of the entries of its
    log that were handed out to be applied. *)
Definition chronicle l (h : list Snapshot) : Prop :=
  b <= raftLog_applying l ∧
  h = s0 :: states_after s0 (take (Z.to_nat (raftLog_applying l - b)) (sl_ents (log_view l))).

(** The node [i] of the cluster is the node [n] of the environment. *)
Record linked c (i : Z) n : Prop := mklinked {
  lk_member : ∃ mb, cl_members c !! i = Some mb ∧ mb_node mb = in_RawNode n;
  lk_sync : RaftConfig_AsyncStorageWrites (in_Config n) = false;
  lk_steps : rn_stepsOnAdvance (in_RawNode n) = [];
  lk_held : held (in_log n);
  lk_history : chronicle (in_log n) (in_History n);
  lk_work : in_AppendWork n = [] ∧ in_ApplyWork n = [];
}.

Record env_inv e c : Prop := mkenv_inv {
  ei_runs : runs cl_init c;
  ei_nodes : ∀ p n, env_Nodes e !! p = Some n → linked c (Z.of_nat p + 1) n;
  ei_msgs : ∀ m, m ∈ env_Messages e → m ∈ cl_net c;
}.

(** What the cluster knows about a node. *)
Lemma member_facts c i mb :
  runs cl_init c → cl_members c !! i = Some mb →
  coherent (mb_raft mb) ∧ log_wf (mb_log mb) ∧ log_base (mb_log mb) = b ∧ rn_asyncStorageWrites (mb_node mb) = false ∧
  raft_guard cfg (mb_raft mb) = true ∧ Forall msg_later (raft_msgsAfterAppend (mb_raft mb)).
Proof.
  intros Hr Hm. destruct (commit_inv_steps b bt cfg Hcfg Hb0 _ _ _ _ (commit_inv_init b bt cfg Hcfg) Hr) as (g & Y & _ & _ & Hi).
  destruct (ci_members _ _ _ _ _ _ Hi _ _ Hm) as [(V & [Nl Nr _ _ _ _]) _]. pose proof (li_members _ _ _ _ _ (ci_log _ _ _ _ _ _ Hi) _ _ Hm) as [Hs _ _].
  pose proof (mo_guard _ _ _ _ (inv_members _ _ _ (li_inv _ _ _ _ _ (ci_log _ _ _ _ _ _ Hi)) _ _ Hm)) as Hg. unfold node_ok in Hg.
  apply andb_true_iff in Hg as [_ Hg]. split_and!; [apply Nl|apply Nl| |done|done|].
  - destruct (rp_view _ _ _ _ _ _ _ Nr) as (B & _). exact B.
  - eapply Forall_impl; [apply (nl_later _ _ _ _ _ _ _ _ Nl)|]. by intros m [? _].
Qed.

(** Two nodes hold the same entries where both have committed. *)
Lemma applied_same c1 c2 i j n1 n2 a :
  runs cl_init c1 → (∃ mb, cl_members c1 !! i = Some mb ∧ mb_node mb = in_RawNode n1) →
  runs c1 c2 → (∃ mb, cl_members c2 !! j = Some mb ∧ mb_node mb = in_RawNode n2) →
  a <= raftLog_applying (in_log n1) → a <= raftLog_applying (in_log n2) →
  take (Z.to_nat (a - b)) (sl_ents (log_view (in_log n1))) = take (Z.to_nat (a - b)) (sl_ents (log_view (in_log n2))).
Proof.
  intros Hr (mb & Hm & En) Hr' (mb' & Hm' & En') Ha Ha'.
  destruct (member_facts c1 i mb Hr Hm) as (_ & W & B & _). destruct (member_facts c2 j mb' (transitivity Hr Hr') Hm') as (_ & W' & B' & _).
  rewrite En in W, B. rewrite En' in W', B'.
  pose proof (lwf_committed _ W) as Hcm. pose proof (lwf_committed _ W') as Hcm'. pose proof (lwf_applying _ W) as Hap. pose proof (lwf_applying _ W') as Hap'.
  apply list_eq. intros k. destruct (decide (k < Z.to_nat (a - b))%nat) as [Hk|]; [|by rewrite !lookup_take_ge by lia].
  rewrite !lookup_take_lt by done. destruct (committed_same b bt cfg Hcfg Hb0 c1 c2 i j mb mb' (b + 1 + Z.of_nat k) Hr Hm Hr' Hm') as (x & E1 & E2); [lia|rewrite En, En'; lia|].
  rewrite En in E1. rewrite En' in E2. unfold slog_at in E1, E2. cbn [sl_base log_view] in E1, E2. rewrite B in E1. rewrite B' in E2.
  rewrite (proj2 (Z.ltb_lt _ _)) in E1, E2 by lia. replace (Z.to_nat (b + 1 + Z.of_nat k - b - 1)) with k in E1, E2 by lia. congruence.
Qed.

(** The applied entries of a node do not change. *)
Lemma chronicle_kept c c' i n n' :
  runs cl_init c → runs c c' → (∃ mb, cl_members c !! i = Some mb ∧ mb_node mb = in_RawNode n) → chronicle (in_log n) (in_History n) →
  (∃ mb, cl_members c' !! i = Some mb ∧ mb_node mb = in_RawNode n') →
  raftLog_applying (in_log n') = raftLog_applying (in_log n) → in_History n' = in_History n → chronicle (in_log n') (in_History n').
Proof.
  intros Hr Hr' Hm [Hb Hc] Hm' Ha Hh. split; [lia|]. rewrite Hh, Hc, Ha. do 2 f_equal. eapply applied_same; [exact Hr|exact Hm|exact Hr'|exact Hm'|done|lia].
Qed.

(** One node moves. *)
Lemma env_inv_update e c c' p n' ms :
  env_inv e c → runs c c' → (∀ j, j ≠ Z.of_nat p + 1 → cl_members c' !! j = cl_members c !! j) → (∀ m, m ∈ ms → m ∈ cl_net c') →
  linked c' (Z.of_nat p + 1) n' → env_inv (mkInteractionEnv (<[p := n']> (env_Nodes e)) ms) c'.
Proof.
  intros [R N M] Hr Ho Hms Hl. split; [by etrans| |done]. cbn. intros q n Hq. destruct (decide (q = p)) as [->|Hne].
  - rewrite list_lookup_insert_Some in Hq. destruct Hq as [(_ & -> & _)|[? _]]; done.
  - rewrite list_lookup_insert_ne in Hq by done. destruct (N _ _ Hq) as [(mb & Hm & E) ? ? ? ? ?]. split; try done.
    exists mb. rewrite Ho by lia. done.
Qed.

(** *** Calls *)

Lemma call_hands x (rn rn' : RawNode snapOverrideStorage) :
  run_call x rn = Ok rn' → not_conf_change x → hands true (rn_raft rn) (rn_raft rn') ∧ rn_stepsOnAdvance rn' = rn_stepsOnAdvance rn.
Proof.
  assert (∀ A (m : RM snapOverrideStorage A), rel (hands true) m → ∀ y, on_raft m rn = Ok y → hands true (rn_raft rn) (rn_raft y.2) ∧ rn_stepsOnAdvance y.2 = rn_stepsOnAdvance rn) as Ho.
  { intros A m Hm y (z & Ez & [= <-])%bind_Ok. destruct z as [a r]. cbn. split; [|done]. by eapply Hm. }
  intros E Hx. destruct x; cbn [run_call] in E; try (apply bind_Ok in E as (y & E & [= <-])); try done;
    (eapply Ho; [|exact E]).
  - apply hands_run_tick.
  - by apply hands_modify.
  - by apply hands_Step.
  - apply rel_get_bind. intros r. by apply hands_Step.
  - apply hands_Step. unfold sane, confChangeToMsg. by destruct (MarshalConfChange cc).
  - by apply hands_Step.
  - by apply hands_Step.
  - by apply hands_Step.
  - by apply hands_Step.
  - by apply hands_Step.
Qed.

(** A move of one node by a single action of the cluster. *)
Lemma env_inv_act e c c' a p n rn' :
  env_inv e c → env_Nodes e !! p = Some n → commit_contract b bt a c → perform cfg a c = Some c' →
  (∃ mb, cl_members c' = <[Z.of_nat p + 1 := mb]> (cl_members c) ∧ mb_node mb = rn') → cl_net c' = cl_net c →
  hands true (rn_raft (in_RawNode n)) (rn_raft rn') → rn_stepsOnAdvance rn' = rn_stepsOnAdvance (in_RawNode n) →
  env_inv (set_env_Nodes (<[p := set_in_RawNode rn' n]> (env_Nodes e)) e) c'.
Proof.
  intros Hi Hn Hc E (mb & Hm & Hmn) Hnet (Hh & Ha & Hs) Hst. pose proof (ei_nodes _ _ Hi _ _ Hn) as Hl.
  assert (runs c c') as Hr by (apply rtc_once; left; by exists a).
  assert (∃ mb, cl_members c' !! (Z.of_nat p + 1) = Some mb ∧ mb_node mb = in_RawNode (set_in_RawNode rn' n)) as Hmb.
  { exists mb. split; [rewrite Hm; apply lookup_insert_eq|done]. }
  apply (env_inv_update e c); [done|done| | |].
  - intros j Hj. rewrite Hm. by apply lookup_insert_ne.
  - rewrite Hnet. apply Hi.
  - split; [done|apply Hl|cbn; rewrite Hst; apply Hl|apply Hh, Hl| |apply Hl].
    eapply chronicle_kept; [apply Hi|exact Hr|apply Hl|apply Hl|exact Hmb|exact Ha|]. unfold in_History, rn_storage. cbn. by rewrite Hs.
Qed.

Lemma put_node_inv i mb (rn : RawNode snapOverrideStorage) c :
  node_ok cfg i rn = true →
  put_node cfg i mb rn c = Some (mkcluster (<[i := mkhost rn (mb_disk mb) (mb_writes mb)]> (cl_members c)) (cl_net c)).
Proof. unfold put_node. by intros ->. Qed.

Lemma call_sim e c p n x rn' :
  env_inv e c → env_Nodes e !! p = Some n → room 2 (in_log n) → not_conf_change x → run_call x (in_RawNode n) = Ok rn' →
  node_ok cfg (Z.of_nat p + 1) rn' = true →
  ∃ c', runs c c' ∧ env_inv (set_env_Nodes (<[p := set_in_RawNode rn' n]> (env_Nodes e)) e) c'.
Proof.
  intros Hi Hn Hr Hx E Hok. destruct (lk_member _ _ _ (ei_nodes _ _ Hi _ _ Hn)) as (mb & Hm & En). set (i := Z.of_nat p + 1) in *.
  eexists. assert (perform cfg (ACall i x) c = Some (mkcluster (<[i := mkhost rn' (mb_disk mb) (mb_writes mb)]> (cl_members c)) (cl_net c))) as Ep.
  { cbn. unfold node_of. rewrite Hm. cbn. rewrite En, E. cbn. by apply put_node_inv. }
  assert (commit_contract b bt (ACall i x) c) as Hc.
  { split; [|done]. intros mb0 Hm0. rewrite Hm in Hm0. injection Hm0 as <-. by rewrite En. }
  split; [apply rtc_once; left; by exists (ACall i x)|]. destruct (call_hands _ _ _ E Hx).
  eapply env_inv_act; [exact Hi|exact Hn|exact Hc|exact Ep|by eexists|done..].
Qed.

(** *** Messages *)

(** A message between nodes, other than a snapshot, whose fields are in range. *)
Definition peer_msg (m : Message) : bool :=
  match Message_GetType m with
  | MsgSnap | MsgStorageAppendResp | MsgStorageApplyResp => false
  | MsgApp => forallb (fun x => 0 <=? Entry_GetIndex x) (Message_GetEntries m) && (Message_GetIndex m + len (Message_GetEntries m) <? MaxUint64)
  | _ => true
  end.

Lemma peer_sane m : peer_msg m = true → sane true m.
Proof.
  unfold peer_msg, sane. destruct (Message_GetType m); try done. rewrite andb_true_iff. intros [Hf _]. split_and!; try done.
  intros _. split; [done|]. apply Forall_forall. intros x Hx. rewrite forallb_forall in Hf. apply list_elem_of_In in Hx. specialize (Hf x Hx). lia.
Qed.

Lemma deliver_sim e c p n m x rn' :
  env_inv e c → env_Nodes e !! p = Some n → m ∈ cl_net c → Message_GetTo m = Z.of_nat p + 1 → peer_msg m = true → msg_wf_b m = true →
  room (len (Message_GetEntries m) + 1) (in_log n) → RawNode_Step m (in_RawNode n) = Ok (x, rn') →
  node_ok cfg (Z.of_nat p + 1) rn' = true →
  ∃ c', runs c c' ∧ env_inv (set_env_Nodes (<[p := set_in_RawNode rn' n]> (env_Nodes e)) e) c'.
Proof.
  intros Hi Hn [k Hk]%list_elem_of_lookup Hto Hp Hw Hr E Hok. destruct (lk_member _ _ _ (ei_nodes _ _ Hi _ _ Hn)) as (mb & Hm & En). set (i := Z.of_nat p + 1) in *.
  eexists. assert (perform cfg (ADeliver i k) c = Some (mkcluster (<[i := mkhost rn' (mb_disk mb) (mb_writes mb)]> (cl_members c)) (cl_net c))) as Ep.
  { cbn. unfold node_of. rewrite Hm. cbn. rewrite Hk. cbn. rewrite Hto, Z.eqb_refl, Hw. cbn. rewrite En, E. cbn. by apply put_node_inv. }
  assert (commit_contract b bt (ADeliver i k) c) as Hc.
  { split; intros m0 Hm0; rewrite Hk in Hm0; injection Hm0 as <-.
    - intros mb0 Hm1. rewrite Hm in Hm1. injection Hm1 as <-. rewrite En. unfold peer_msg in Hp.
      split_and!; [done|intros Ht; rewrite Ht in Hp; apply andb_true_iff in Hp; lia|intros Ht; by rewrite Ht in Hp..].
    - intros Ht. unfold peer_msg in Hp. by rewrite Ht in Hp. }
  split; [apply rtc_once; left; by exists (ADeliver i k)|].
  assert (hands true (rn_raft (in_RawNode n)) (rn_raft rn') ∧ rn_stepsOnAdvance rn' = rn_stepsOnAdvance (in_RawNode n)) as [Hh Hst].
  { revert E. unfold RawNode_Step. destruct (_ && _); [by intros [= _ <-]|]. destruct (_ && _); [by intros [= _ <-]|].
    intros ([y r] & Es & [= _ <-])%bind_Ok. split; [|done]. eapply hands_Step; [by apply peer_sane|exact Es]. }
  eapply env_inv_act; [exact Hi|exact Hn|exact Hc|exact Ep|by eexists|done..].
Qed.

(** *** Ready *)

Lemma route_sync idx n ms e y e' :
  env_Nodes e !! Z.to_nat idx = Some n → RaftConfig_AsyncStorageWrites (in_Config n) = false →
  env_each (route_msg idx) ms e = Ok (y, e') → y = Val tt ∧ e' = set_env_Messages (env_Messages e ++ ms) e.
Proof.
  intros Hn Hs. revert e Hn. induction ms as [|m ms IH]; intros e Hn; cbn [env_each].
  - intros [= <- <-]. split; [done|]. rewrite app_nil_r. by destruct e.
  - assert (∀ z e1, route_msg idx m e = Ok (z, e1) → z = Val tt ∧ e1 = set_env_Messages (env_Messages e ++ [m]) e) as Hr.
    { intros z e1. unfold route_msg. destruct (IsLocalMsgTarget (Message_GetTo m)); [|by intros [= <- <-]].
      intros (_ & n0 & n' & Hn0 & E & _)%with_node_inv. rewrite Hn in Hn0. injection Hn0 as <-. by rewrite Hs in E. }
    intros [(a & e1 & [_ ->]%Hr & E)|(x & [? _]%Hr & _)]%env_bind_inv; [|done]. apply IH in E as [-> ->]; [|done]. split; [done|].
    unfold set_env_Messages. cbn. by rewrite <- app_assoc.
Qed.

(** The storage of a Ready, without a snapshot. *)
Lemma processAppend_stores rd (n : INode) l :
  let s := rn_storage (in_RawNode n) in
  Ready_Snapshot rd = None → log_wf l → held l → raftLog_storage l = s →
  Ready_Entries rd = drop (in_progress (raftLog_unstable l)) (unstable_entries (raftLog_unstable l)) →
  len (ms_ents (so_Storage s)) + len (Ready_Entries rd) < 9223372036854775808 →
  ∃ ms, processAppend (Ready_HardState rd) (Ready_Entries rd) (Ready_Snapshot rd) n =
      Ok (Val tt, set_in_RawNode (set_rn_storage (set_so_Storage ms s) (in_RawNode n)) n) ∧
    st_ok ms ∧ st_view ms = log_view l.
Proof.
  intros s Hsn W Hh Hs He Hlen. unfold processAppend. rewrite Hsn. change (IsEmptySnap None) with true. cbn [negb]. fold s.
  set (ms1 := if negb (IsEmptyHardState _) then _ else _). assert (ms_ents ms1 = ms_ents (so_Storage s)) as Hm1 by (subst ms1; by destruct (negb _)).
  assert (st_ok ms1 ∧ st_view ms1 = st_view (so_Storage s)) as [Hok1 Hv1].
  { pose proof (lwf_storage _ W) as Hok. rewrite Hs in Hok. cbn in Hok |- *. subst ms1. destruct (negb _); [|done]. split; done. }
  pose proof (lwf_gap _ W) as Hg. rewrite (si_snapshot _ _ Hh : unstable_snapshot (raftLog_unstable l) = None), Hs in Hg. destruct Hg as [Hg _].
  destruct (lwf_unstable _ W) as [U1 U2 U3 U4 U5 _ _]. set (u := raftLog_unstable l) in *.
  set (ents := drop (in_progress u) (unstable_entries u)) in *. rewrite He in Hlen |- *. destruct ents as [|x xs] eqn:Ex.
  { exists ms1. split; [done|]. split; [done|]. rewrite Hv1. change (st_view (so_Storage s)) with (st_view s). rewrite <- Hs. by apply held_all. }
  rewrite <- Ex in *. assert (contiguous (unstable_offsetInProgress u - 1) ents) as Hc.
  { replace (unstable_offsetInProgress u - 1) with (unstable_offset u - 1 + Z.of_nat (in_progress u)) by (unfold in_progress; lia).
    apply contiguous_drop; [|done]. unfold in_progress, len in *. lia. }
  assert (len ents = unstable_offset u + len (unstable_entries u) - unstable_offsetInProgress u) as Hle.
  { unfold ents, len. rewrite length_drop. unfold in_progress, len in *. lia. }
  pose proof (log_last_bound l W) as Hlast. log_facts W. fold u in Hla.
  assert (unstable_offsetInProgress u - 1 <= slog_last (ms_view ms1)) as Hge.
  { change (ms_view ms1) with (st_view ms1). rewrite Hv1. change (st_view (so_Storage s)) with (st_view s). destruct (Z.eq_dec (unstable_offsetInProgress u) (unstable_offset u)) as [->|]; [lia|].
    destruct (held_contract l W Hh) as (Hk & _); [fold u; lia|]. fold u in Hk. rewrite Hs in Hk. exact Hk. }
  destruct (ms_Append_view ms1 (unstable_offsetInProgress u - 1) ents) as (ms2 & E2 & Hok2 & Hv2 & _); try done.
  { by rewrite Ex. } { lia. } { lia. } { by rewrite Hm1. }
  exists ms2. rewrite E2. cbn [mbind outcome_bind]. split; [done|]. split; [done|]. change (st_view ms2) with (ms_view ms2). rewrite Hv2.
  change (ms_view ms1) with (st_view ms1). rewrite Hv1. change (st_view (so_Storage s)) with (st_view s). rewrite <- Hs.
  apply held_append; [done|done|]. fold u ents. by rewrite Ex.
Qed.

(** What the environment makes of the storage with a Ready. *)
Lemma ready_stored c i n rd rn1 :
  runs cl_init c → linked c i n → RawNode_Ready (in_RawNode n) = Ok (rd, rn1) → forallb normal_entry (Ready_CommittedEntries rd) = true →
  len (ms_ents (so_Storage (rn_storage (in_RawNode n)))) + len (Ready_Entries rd) < 9223372036854775808 →
  ∃ n2 s, let rn3 := set_rn_storage s rn1 in
    processAppend (Ready_HardState rd) (Ready_Entries rd) (Ready_Snapshot rd) (set_in_RawNode rn1 n) = Ok (Val tt, n2) ∧
    processApply (Ready_CommittedEntries rd) n2 = Ok (Val tt, set_in_RawNode rn3 n) ∧
    saves s (rn_log rn1) ∧ held (rn_log rn3) ∧ chronicle (rn_log rn3) (so_History s).
Proof.
  intros Hr [(mb & Hm & En) Hsy Hst Hh [Hb Hhist] _] E Hno Hlen. destruct (member_facts c i mb Hr Hm) as (Hco & W & B & Hsync & _). rewrite En in *.
  apply bind_Ok in E as (rd1 & Er & E). apply bind_Ok in E as (rn2 & Ea & [= <- <-]). set (l := in_log n) in *.
  pose proof (si_snapshot _ _ Hh : unstable_snapshot (raftLog_unstable l) = None) as Sn.
  destruct (ready_parts _ _ Er) as [Hents Hcom]. fold l in Hents, Hcom.
  unfold raftLog_nextUnstableEnts in Hents. rewrite (nextEntries_ok _ (lwf_unstable _ W)) in Hents. injection Hents as Hents.
  destruct (accept_parts _ _ _ W Er Ea) as (Hu & Hs & Had & Hap). fold l in Hu, Hs, Had, Hap. set (l1 := rn_log rn2) in *.
  destruct (accept_log _ _ _ Er Ea) as [Hls Hcm]. fold l in Hls, Hcm. fold l1 in Hls, Hcm. destruct (Hls W) as (W1 & V1 & _).
  destruct (accept_progress l W Sn) as (Sn1 & _). rewrite <- Hu in Sn1. pose proof (nextCommitted_bounds _ _ _ W Hcom) as [_ Hle].
  assert (rn_storage rn2 = rn_storage (in_RawNode n)) as Hsto by exact Hs.
  destruct (processAppend_stores rd1 (set_in_RawNode rn2 n) l) as (ms & Epa & Hok & Hv); cbn [in_RawNode set_in_RawNode]; rewrite ?Hsto; try done.
  { by apply (ready_no_snapshot (in_RawNode n)). }
  cbn [in_RawNode set_in_RawNode] in Epa. eexists _, (set_so_History (so_History (rn_storage rn2) ++ states_after
    (state_after s0 (take (Z.to_nat (raftLog_applying l - b)) (sl_ents (log_view l)))) (Ready_CommittedEntries rd1)) (set_so_Storage ms (rn_storage rn2))).
  cbn zeta. split; [exact Epa|]. split.
  { unfold processApply. cbn [in_RawNode set_in_RawNode]. erewrite apply_entries_normal; [|done|].
    - cbn. done.
    - cbn. change (so_History (rn_storage rn2)) with (so_History (rn_storage rn2)). rewrite Hsto. fold (in_History n). rewrite Hhist. apply states_after_last. }
  set (s := set_so_History _ _). assert (st_ok s ∧ st_view s = log_view l1) as [Hok3 Hv3] by (split; [exact Hok|]; rewrite V1; exact Hv).
  destruct (full_saves s l1 W1 Sn1 Hok3 Hv3) as [W3 V3]. split; [by split_and!|]. change (rn_log (set_rn_storage s rn2)) with (set_raftLog_storage s l1).
  split; [apply full_held; [done|exact Sn1|by rewrite V3]|]. unfold chronicle. cbn [raftLog_applying set_raftLog_storage]. rewrite Hap, V3, V1.
  split; [pose proof (len_nonneg (Ready_CommittedEntries rd1)); lia|]. subst s. cbn [so_History set_so_History]. rewrite Hsto. fold (in_History n). rewrite Hhist.
  rewrite <- app_comm_cons. f_equal. rewrite <- states_after_app. f_equal. set (a := raftLog_applying l) in *. set (ce := Ready_CommittedEntries rd1) in *.
  replace (Z.to_nat (a + len ce - b)) with (Z.to_nat (a - b) + length ce)%nat by (unfold len; lia).
  rewrite <- take_take_drop. f_equal. destruct (nextCommitted_slice _ _ _ W Hcom) as [->|[_ [rest Hp]]]; [done|]. fold a in Hp. rewrite B in Hp.
  by rewrite Hp, take_app_length.
Qed.

Lemma node_guard c i mb : runs cl_init c → cl_members c !! i = Some mb → node_ok cfg i (mb_node mb) = true.
Proof.
  intros Hr Hm. destruct (commit_inv_steps b bt cfg Hcfg Hb0 _ _ _ _ (commit_inv_init b bt cfg Hcfg) Hr) as (g & Y & _ & _ & Hi).
  apply (mo_guard _ _ _ _ (inv_members _ _ _ (li_inv _ _ _ _ _ (ci_log _ _ _ _ _ _ Hi)) _ _ Hm)).
Qed.

(** A Ready is taken and stored. *)
Lemma ready_store c i n rd rn1 s :
  runs cl_init c → linked c i n → RawNode_Ready (in_RawNode n) = Ok (rd, rn1) → saves s (rn_log rn1) →
  ∃ c2 mb2, store_step cfg c c2 ∧ cl_members c2 = <[i := mb2]> (cl_members c) ∧ mb_node mb2 = set_rn_storage s rn1 ∧
    cl_net c2 = cl_net c ++ Ready_Messages rd.
Proof.
  intros Hr [(mb & Hm & En) _ _ _ _ _] E Hs. destruct (member_facts c i mb Hr Hm) as (_ & _ & _ & Hsync & _).
  pose proof (node_guard c i mb Hr Hm) as Hg. rewrite En in *. pose proof E as E'.
  apply bind_Ok in E as (rd1 & Er & E). apply bind_Ok in E as (rn2 & Ea & Eq). injection Eq as -> ->.
  apply accept_shape in Ea as ([= I T _ _ _ _] & Ht & Has & _). rewrite Hsync in Has.
  set (d := if IsEmptyHardState (Ready_HardState rd) then mb_disk mb else Ready_HardState rd).
  set (c1 := mkcluster (<[i := mkhost rn1 d (mb_writes mb)]> (cl_members c)) (cl_net c ++ Ready_Messages rd)).
  assert (perform cfg (AReady i) c = Some c1) as E1.
  { cbn. unfold node_of. rewrite Hm. cbn. unfold ready_member. rewrite En, E'. cbn. by rewrite Has. }
  assert (node_ok cfg i (set_rn_storage s rn1) = true) as Hg'.
  { revert Hg. unfold node_ok, raft_guard, term_in_range_b. cbn. by rewrite I, T, Ht. }
  eexists _, _. split; [exists i, s, c1; split; [exact E1|split]|].
  - intros mb1 Hm1. unfold c1 in Hm1. cbn in Hm1. rewrite lookup_insert_eq in Hm1. injection Hm1 as <-. exact Hs.
  - cbn. unfold node_of, c1. cbn. rewrite lookup_insert_eq. cbn. by apply put_node_inv.
  - cbn. by rewrite insert_insert_eq.
Qed.

(** Then it is acknowledged. *)
Lemma ready_advance c c2 i n rd rn1 s mb2 rn4 :
  runs cl_init c → linked c i n → RawNode_Ready (in_RawNode n) = Ok (rd, rn1) → store_step cfg c c2 → cl_members c2 !! i = Some mb2 →
  let rn3 := set_rn_storage s rn1 in
  mb_node mb2 = rn3 → held (rn_log rn3) → advance_fits cfg (rn_stepsOnAdvance rn3) (rn_raft rn3) = true →
  RawNode_Advance rn3 = Ok rn4 → node_ok cfg i rn4 = true →
  ∃ c3 mb4, commit_step b bt cfg c2 c3 ∧ cl_members c3 = <[i := mb4]> (cl_members c2) ∧ mb_node mb4 = rn4 ∧ cl_net c3 = cl_net c2 ∧
    held (rn_log rn4) ∧ raftLog_applying (rn_log rn4) = raftLog_applying (rn_log rn3) ∧ rn_storage rn4 = s ∧ rn_stepsOnAdvance rn4 = [].
Proof.
  intros Hr [(mb & Hm & En) _ Hst Hh _ _] E Hss Hm2 rn3 En3 Hh3 Hf Ead Hok.
  destruct (member_facts c i mb Hr Hm) as (_ & W & _ & Hsync & _ & Hown). rewrite En in *.
  assert (runs cl_init c2) as Hr2 by (eapply rtc_r; [exact Hr|by right]).
  destruct (member_facts c2 i mb2 Hr2 Hm2) as (Hco3 & W3 & _ & Hsync3 & _). rewrite En3 in *.
  apply bind_Ok in E as (rd1 & Er & E). apply bind_Ok in E as (rn2 & Ea & Eq). injection Eq as -> ->.
  pose proof (si_snapshot _ _ Hh : unstable_snapshot (raftLog_unstable (in_log n)) = None) as Sn.
  destruct (accept_parts _ _ _ W Er Ea) as (Hu & _ & _ & Hap). destruct (accept_progress _ W Sn) as (_ & _ & Hpe & Hpr). rewrite <- Hu in Hpr, Hpe.
  destruct (accept_waiting _ _ _ W Sn Hsync Hst Er Ea) as (app & apply & Hsteps & Happ & Happly).
  change (rn_stepsOnAdvance rn3) with (rn_stepsOnAdvance rn1) in Hf. set (r3 := rn_raft rn3) in *.
  assert (between r3 r3) as Hbw by done.
  assert (goes_well (rn_stepsOnAdvance rn1) r3 r3) as [Hfit Hend].
  { rewrite Hsteps in Hf |- *. apply (goes_own cfg); [|done|done|].
    { apply Forall_forall. intros m [_ Hin]%list_elem_of_filter. rewrite Forall_forall in Hown. auto. }
    intros r' Hb' Ht Hf'. assert (∀ r1, between r3 r1 → advance_fits cfg apply r1 = true → goes_well apply r3 r1) as Hlast.
    { intros r1 Hb1 Hf1. destruct Happly as [-> | ->]; [by apply goes_nil|]. apply (goes_apply cfg); [done| |done].
      intros e El. change (raftLog_applying (raft_raftLog r3)) with (raftLog_applying (rn_log rn1)). rewrite Hap.
      destruct (ready_parts _ _ Er) as [_ Hcom]. apply nextCommitted_bounds in Hcom as [Hcc _]; [|done].
      rewrite (last_index_contiguous _ _ _ Hcc El). lia. }
    destruct Happ as [->|(Hne & m & -> & Hty & Hsn & Hix & _)]; [by apply Hlast|].
    apply (goes_stored cfg r3 r' m apply); try done. destruct (Hpr ltac:(by rewrite Hpe)) as [Hlt Hla].
    destruct Ht as [Ht _]. change (raftLog_unstable (raft_raftLog r3)) with (raftLog_unstable (rn_log rn1)) in Ht.
    destruct (Ht Hlt) as [E1 E2]. cbn zeta. rewrite E1, E2. split; [done|]. rewrite Hix. lia. }
  revert Ead. unfold RawNode_Advance. rewrite Hsync3. intros ([u r4] & Es & Eq)%bind_Ok. injection Eq as <-. cbn in Hok.
  change (rn_raft rn3) with r3 in Es. destruct (Hend u r4 Es) as (Hh4 & Ha4 & Hs4).
  eexists _, (mkhost _ (mb_disk mb2) (mb_writes mb2)). split; [left; exists (AAdvance i); split|split_and!].
  - split; [|done]. intros mb0 Hm0. rewrite Hm2 in Hm0. injection Hm0 as <-. rewrite En3. exact Hfit.
  - cbn. unfold node_of. rewrite Hm2. cbn. rewrite En3. fold r3. change (rn_stepsOnAdvance rn3) with (rn_stepsOnAdvance rn1).
    rewrite (advance_fits_ok cfg _ _ Hf). unfold RawNode_Advance. rewrite Hsync3. fold r3.
    change (rn_stepsOnAdvance rn3) with (rn_stepsOnAdvance rn1) in Es |- *. rewrite Es. cbn. by apply put_node_inv.
  - cbn. done.
  - cbn. done.
  - done.
  - exact Hh4.
  - exact Ha4.
  - exact Hs4.
  - done.
Qed.

Lemma env_bind_Ok {A B} (m : EnvM A) (k : A → EnvM B) e a e1 : m e = Ok (Val a, e1) → (m ≫= k) e = k a e1.
Proof. unfold mbind, EnvM_bind. by intros ->. Qed.

Lemma with_node_run {A} (f : INode → outcome (result A * INode)) p e n :
  env_Nodes e !! p = Some n →
  with_node (Z.of_nat p) f e = (x ← f n; Ok (x.1, set_env_Nodes (<[p := x.2]> (env_Nodes e)) e)).
Proof. intros Hn. unfold with_node. rewrite (go_index_Ok _ _ n) by (rewrite ?Nat2Z.id; done || lia). by rewrite Nat2Z.id. Qed.

Lemma node_at_run p e n : env_Nodes e !! p = Some n → node_at (Z.of_nat p) e = Ok (Val n, e).
Proof. intros Hn. unfold node_at. by rewrite (go_index_Ok _ _ n) by (rewrite ?Nat2Z.id; done || lia). Qed.

(** What taking a Ready asks for: no change of configuration is applied, and
    indexes do not overflow. *)
Definition ready_fits (p : nat) n : bool :=
  match RawNode_Ready (in_RawNode n) with
  | Panic _ => true
  | Ok (rd, rn1) =>
      forallb normal_entry (Ready_CommittedEntries rd) &&
      (len (ms_ents (so_Storage (rn_storage (in_RawNode n)))) + len (Ready_Entries rd) <? 9223372036854775808) &&
      match processAppend (Ready_HardState rd) (Ready_Entries rd) (Ready_Snapshot rd) (set_in_RawNode rn1 n) with
      | Panic _ => true
      | Ok (_, n2) =>
          match processApply (Ready_CommittedEntries rd) n2 with
          | Panic _ => true
          | Ok (_, n3) =>
              advance_fits cfg (rn_stepsOnAdvance (in_RawNode n3)) (rn_raft (in_RawNode n3)) &&
              match RawNode_Advance (in_RawNode n3) with Ok rn4 => node_ok cfg (Z.of_nat p + 1) rn4 | Panic _ => true end
          end
      end
  end.

(** The parts of [ProcessReady] for a node that stores at once. *)
Lemma ready_run e p n rd rn1 n2 n3 y e' :
  env_Nodes e !! p = Some n → RaftConfig_AsyncStorageWrites (in_Config n) = false →
  RawNode_Ready (in_RawNode n) = Ok (rd, rn1) →
  processAppend (Ready_HardState rd) (Ready_Entries rd) (Ready_Snapshot rd) (set_in_RawNode rn1 n) = Ok (Val tt, n2) →
  processApply (Ready_CommittedEntries rd) n2 = Ok (Val tt, n3) → in_Config n3 = in_Config n →
  env_ProcessReady (Z.of_nat p) e = Ok (y, e') →
  y = Val tt ∧ ∃ rn4, RawNode_Advance (in_RawNode n3) = Ok rn4 ∧
    e' = mkInteractionEnv (<[p := set_in_RawNode rn4 n3]> (env_Nodes e)) (env_Messages e ++ Ready_Messages rd).
Proof.
  intros Hn Hs E1 E2 E3 Hc. unfold env_ProcessReady.
  assert (∀ z, <[p := z]> (env_Nodes e) !! p = Some z) as Hz by (intros z; apply list_lookup_insert_eq, lookup_lt_Some with n, Hn).
  rewrite (env_bind_Ok (node_at (Z.of_nat p)) _ e n e) by (by apply node_at_run). rewrite Hs.
  erewrite env_bind_Ok; [|unfold with_rawnode; rewrite (with_node_run _ p _ _ Hn), E1; reflexivity]. cbn [fst snd].
  erewrite env_bind_Ok; [|erewrite env_bind_Ok; [|rewrite (with_node_run _ p (set_env_Nodes _ _) _ (Hz _)), E2; reflexivity]; cbn [env_Nodes set_env_Nodes fst snd]; rewrite list_insert_insert_eq;
    rewrite (with_node_run _ p (set_env_Nodes _ _) _ (Hz _)), E3; reflexivity]. cbn [fst snd env_Nodes set_env_Nodes]. rewrite list_insert_insert_eq.
  intros [(u & e1 & Er & E)|(x & Er & _)]%env_bind_inv; (eapply (route_sync _ n3) in Er as [Ey Ee]; [|rewrite Nat2Z.id; apply Hz|by rewrite Hc]); [|done].
  subst e1. revert E. unfold with_rawnode. rewrite (with_node_run _ p (set_env_Messages _ (set_env_Nodes _ _)) _ (Hz _)). intros (z & (w & (rn4 & Ea & [= <-])%bind_Ok & [= <-])%bind_Ok & [= <- <-])%bind_Ok.
  split; [done|]. exists rn4. split; [done|]. cbn. by rewrite list_insert_insert_eq.
Qed.

(** Taking a Ready is two steps of the cluster. *)
Lemma ready_sim e c p n y e' :
  env_inv e c → env_Nodes e !! p = Some n → ready_fits p n = true → env_ProcessReady (Z.of_nat p) e = Ok (y, e') →
  y = Val tt ∧ ∃ c', runs c c' ∧ env_inv e' c'.
Proof.
  intros Hi Hn Hf E. pose proof (ei_nodes _ _ Hi _ _ Hn) as Hl. pose proof (ei_runs _ _ Hi) as Hr. pose proof (lk_sync _ _ _ Hl) as Hs.
  destruct (RawNode_Ready (in_RawNode n)) as [[rd rn1]|] eqn:E1.
  2:{ exfalso. revert E. unfold env_ProcessReady. rewrite (env_bind_Ok (node_at (Z.of_nat p)) _ e n e) by (by apply node_at_run).
      unfold with_rawnode, mbind at 1, EnvM_bind. by rewrite (with_node_run _ p _ _ Hn), E1. }
  revert Hf. unfold ready_fits. rewrite E1. rewrite !andb_true_iff. intros [[Hno Hlen] Hrest].
  destruct (ready_stored c _ n rd rn1 Hr Hl E1 Hno ltac:(lia)) as (n2 & s & Ep & Eq & Hsv & Hh3 & Hch3). cbn zeta in Hh3, Hch3, Eq.
  set (rn3 := set_rn_storage s rn1) in *. rewrite Ep, Eq in Hrest. cbn [in_RawNode set_in_RawNode] in Hrest. apply andb_true_iff in Hrest as [Hadv Hok].
  destruct (ready_run _ _ _ _ _ _ _ _ _ Hn Hs E1 Ep Eq eq_refl E) as (-> & rn4 & Ea & ->). split; [done|]. cbn [in_RawNode set_in_RawNode] in Ea. rewrite Ea in Hok.
  destruct (ready_store c _ n rd rn1 s Hr Hl E1 Hsv) as (c2 & mb2 & Hst & Hm2 & En2 & Hnet2).
  assert (cl_members c2 !! (Z.of_nat p + 1) = Some mb2) as Hl2 by (rewrite Hm2; apply lookup_insert_eq).
  destruct (ready_advance c c2 _ n rd rn1 s mb2 rn4 Hr Hl E1 Hst Hl2 En2 Hh3 Hadv Ea Hok) as (c3 & mb4 & Hcs & Hm3 & En4 & Hnet3 & Hh4 & Ha4 & Hs4 & Hst4).
  assert (runs c c2) as Hr2 by (apply rtc_once; by right). assert (runs c2 c3) as Hr3 by (by apply rtc_once).
  exists c3. split; [by etrans|]. apply (env_inv_update e c); [done|by etrans| | |].
  - intros j Hj. by rewrite Hm3, Hm2, !lookup_insert_ne.
  - intros m. rewrite Hnet3, Hnet2, !elem_of_app. intros [?|?]; [left; by apply Hi|by right].
  - assert (∃ mb, cl_members c3 !! (Z.of_nat p + 1) = Some mb ∧ mb_node mb = rn4) as Hmb by (exists mb4; split; [rewrite Hm3; apply lookup_insert_eq|done]).
    split; [done..| |apply Hl]. apply (chronicle_kept c2 c3 (Z.of_nat p + 1) (set_in_RawNode rn3 n)); try done.
    + by etrans.
    + by exists mb2.
    + unfold in_History. cbn [in_RawNode set_in_RawNode]. by rewrite Hs4.
Qed.

(** ** Commands *)

(** A bound that is checked before an operation runs. *)
Abbreviation fit := (InteractionEnv → bool).

Definition sim {A} (g : fit) (m : EnvM A) : Prop := ∀ e c y e',
  env_inv e c → g e = true → m e = Ok (y, e') → ∃ c', runs c c' ∧ env_inv e' c'.

Definition seq_fits {A} (g : fit) (m : EnvM A) (k : A → fit) : fit := fun e =>
  g e && match m e with Ok (Val a, e1) => k a e1 | _ => true end.

Fixpoint each_fits {A} (g : A → fit) (f : A → EnvM unit) (l : list A) : fit :=
  match l with
  | [] => fun _ => true
  | a :: l => seq_fits (g a) (f a) (fun _ => each_fits g f l)
  end.

Fixpoint fold_fits {A B} (g : A → fit) (f : B → A → EnvM B) (b : B) (l : list A) : fit :=
  match l with
  | [] => fun _ => true
  | a :: l => seq_fits (g a) (f b a) (fun b => fold_fits g f b l)
  end.

Lemma sim_ret {A} g (a : A) : sim g (mret a).
Proof. intros e c y e' Hi _ [= <- <-]. by exists c. Qed.

Lemma sim_bind {A B} g k (m : EnvM A) (f : A → EnvM B) :
  sim g m → (∀ a, sim (k a) (f a)) → sim (seq_fits g m k) (m ≫= f).
Proof.
  intros Hm Hf e c y e' Hi Hg. unfold seq_fits in Hg. apply andb_true_iff in Hg as [Hg Hk].
  intros [(a & e1 & E1 & E2)|(x & E1 & _)]%env_bind_inv.
  - rewrite E1 in Hk. destruct (Hm _ _ _ _ Hi Hg E1) as (c1 & Hr1 & Hi1). destruct (Hf a _ _ _ _ Hi1 Hk E2) as (c2 & Hr2 & Hi2).
    exists c2. split; [by etrans|done].
  - by eapply Hm.
Qed.

(** An operation after which nothing changes. *)
Lemma sim_then {A B} g (m : EnvM A) (f : A → EnvM B) :
  sim g m → (∀ a e, ∃ y, f a e = Ok (y, e)) → sim g (m ≫= f).
Proof.
  intros Hm Hf e c y e' Hi Hg [(a & e1 & E1 & E2)|(x & E1 & _)]%env_bind_inv; [|by eapply Hm].
  destruct (Hf a e1) as [z Ez]. rewrite Ez in E2. injection E2 as _ <-. by eapply Hm.
Qed.

Lemma sim_each {A} g (f : A → EnvM unit) (l : list A) : (∀ a, sim (g a) (f a)) → sim (each_fits g f l) (env_each f l).
Proof. intros Hf. induction l as [|a l IH]; [apply sim_ret|]. by apply sim_bind. Qed.

Lemma sim_fold {A B} g (f : B → A → EnvM B) z (l : list A) : (∀ y a, sim (g a) (f y a)) → sim (fold_fits g f z l) (env_fold f z l).
Proof. intros Hf. revert z. induction l as [|a l IH]; intros z; [apply sim_ret|]. cbn. apply sim_bind; [done|]. auto. Qed.

(** *** Operations on one node *)

Definition node_fits (idx : Z) (g : nat → INode → bool) : fit := fun e =>
  match env_Nodes e !! Z.to_nat idx with Some n => g (Z.to_nat idx) n | None => true end.

Definition call_fits (x : call) (p : nat) n : bool :=
  (log_last (in_log n) + 2 <? 9223372036854775808) &&
  match run_call x (in_RawNode n) with Ok rn => node_ok cfg (Z.of_nat p + 1) rn | Panic _ => true end.

Definition deliver_fits m : fit :=
  node_fits (go_int (Message_GetTo m -! 1)) (fun p n =>
    (Message_GetTo m =? Z.of_nat p + 1) && peer_msg m && msg_wf_b m &&
    (log_last (in_log n) + (len (Message_GetEntries m) + 1) <? 9223372036854775808) &&
    match RawNode_Step m (in_RawNode n) with Ok x => node_ok cfg (Z.of_nat p + 1) x.2 | Panic _ => true end).

Lemma sim_call {A} idx x (f : RawNode snapOverrideStorage → outcome (A * RawNode snapOverrideStorage)) :
  not_conf_change x → (∀ rn, run_call x rn = (y ← f rn; Ok y.2)) → sim (node_fits idx (call_fits x)) (with_rawnode idx f).
Proof.
  intros Hx Hf e c y e' Hi Hg (_ & n & a & rn' & Hn & E & _ & ->)%with_rawnode_inv. unfold node_fits, call_fits in Hg. rewrite Hn, Hf, E in Hg.
  apply andb_true_iff in Hg as [Hr Hok]. eapply call_sim; try done; [unfold room; lia|]. by rewrite Hf, E.
Qed.

Lemma deliver_step e c m y e' :
  env_inv e c → m ∈ cl_net c → deliver_fits m e = true → env_deliver m e = Ok (y, e') → ∃ c', runs c c' ∧ env_inv e' c'.
Proof.
  intros Hi Hm Hg E. assert (∃ z, with_rawnode (go_int (Message_GetTo m -! 1)) (RawNode_Step m) e = Ok (z, e')) as [z Ez].
  { apply env_bind_inv in E as [(a & e1 & E & [= _ ->])|(x & E & _)]; eauto. }
  apply with_rawnode_inv in Ez as (_ & n & a & rn' & Hn & Es & _ & ->). unfold deliver_fits, node_fits in Hg. rewrite Hn, Es in Hg.
  rewrite !andb_true_iff in Hg. destruct Hg as ((((Hto & Hp) & Hw) & Hr) & Hok). eapply deliver_sim; try done; [by apply Z.eqb_eq|]. unfold room. by apply Z.ltb_lt.
Qed.

(** Messages that were sent are not forgotten by the cluster. *)
Lemma perform_net (a : action snapOverrideStorage) c c' m : perform cfg a c = Some c' → m ∈ cl_net c → m ∈ cl_net c'.
Proof.
  assert (∀ (o : option (cluster snapOverrideStorage)) (t : bool), (if t then o else None) = Some c' → o = Some c') as Hif by (by intros o []).
  intros E Hm. destruct a; cbn [perform] in E; unfold put_node, start_node in E;
    repeat first [apply bind_Some in E as (? & ? & E) | apply Hif in E | case_match; try done];
    injection E as <-; try done; apply elem_of_app; by left.
Qed.

Lemma runs_net c c' m : runs c c' → m ∈ cl_net c → m ∈ cl_net c'.
Proof.
  induction 1 as [c|c c1 c' [(a & _ & E)|(i & s & c0 & E1 & _ & E2)] _ IH]; [done|..]; intros Hm; apply IH;
    eauto using perform_net.
Qed.

(** *** Delivering messages *)

Abbreviation handle r := (fun m => if Recipient_Drop r then mret tt else env_deliver m).
Abbreviation handle_fits r := (fun m => if Recipient_Drop r then fun _ => true else deliver_fits m).

Fixpoint deliver_all_fits (typ : option MessageType) (rs : list Recipient) : fit :=
  match rs with
  | [] => fun _ => true
  | r :: rs => fun e =>
      let '(msgs, rest) := splitMsgs (env_Messages e) (Recipient_ID r) typ (Recipient_Drop r) in
      seq_fits (each_fits (handle_fits r) (handle r) msgs) (env_each (handle r) msgs) (fun _ => deliver_all_fits typ rs) (set_env_Messages rest e)
  end.

Lemma splitMsgs_elem ms to typ drop m :
  m ∈ (splitMsgs ms to typ drop).1 ∨ m ∈ (splitMsgs ms to typ drop).2 → m ∈ ms.
Proof.
  induction ms as [|x ms IH]; cbn; [by intros []|]. destruct (splitMsgs ms to typ drop) as [a b0]. cbn in IH.
  destruct (selects to typ drop x); cbn; rewrite !elem_of_cons; naive_solver.
Qed.

Lemma handle_all_sim r ms e c y e' :
  env_inv e c → (∀ m, m ∈ ms → m ∈ cl_net c) → each_fits (handle_fits r) (handle r) ms e = true →
  env_each (handle r) ms e = Ok (y, e') → ∃ c', runs c c' ∧ env_inv e' c'.
Proof.
  revert e c. induction ms as [|m ms IH]; intros e c Hi Hin Hf; cbn [env_each]; [intros [= <- <-]; by exists c|].
  cbn [each_fits] in Hf. unfold seq_fits in Hf. apply andb_true_iff in Hf as [Hf Hk].
  assert (∀ z e1, handle r m e = Ok (z, e1) → ∃ c1, runs c c1 ∧ env_inv e1 c1) as Hs.
  { intros z e1 E. destruct (Recipient_Drop r); [injection E as <- <-; by exists c|]. eapply deliver_step; [exact Hi|apply Hin; left|done|exact E]. }
  intros [(a & e1 & E1 & E2)|(x & E1 & _)]%env_bind_inv; [|by eapply Hs]. rewrite E1 in Hk. destruct (Hs _ _ E1) as (c1 & Hr & Hi1).
  destruct (IH _ _ Hi1) as (c2 & Hr2 & Hi2); [|done|done|].
  { intros x Hx. eapply runs_net; [exact Hr|]. apply Hin. by right. }
  exists c2. split; [by etrans|done].
Qed.

Lemma sim_deliver typ rs : sim (deliver_all_fits typ rs) (env_DeliverMsgs typ rs).
Proof.
  induction rs as [|r rs IH]; [apply sim_ret|]. intros e c y e' Hi Hf. cbn [env_DeliverMsgs]. rewrite (env_bind_Ok env_get _ e e e eq_refl).
  cbn [deliver_all_fits] in Hf. pose proof (splitMsgs_elem (env_Messages e) (Recipient_ID r) typ (Recipient_Drop r)) as Hsp.
  destruct (splitMsgs _ _ _ _) as [msgs rest]. cbn in Hsp. rewrite (env_bind_Ok (env_modify _) _ e tt (set_env_Messages rest e)) by done.
  unfold seq_fits in Hf. apply andb_true_iff in Hf as [Hf Hk].
  assert (env_inv (set_env_Messages rest e) c) as Hi' by (destruct Hi as [R N M]; split; [done..|]; intros m Hm; apply M, Hsp; by right).
  assert (∀ m, m ∈ msgs → m ∈ cl_net c) as Hin by (intros m Hm; apply (ei_msgs _ _ Hi), Hsp; by left).
  intros [(a & e1 & E1 & E2)|(x & E1 & _)]%env_bind_inv; [|by eapply handle_all_sim]. rewrite E1 in Hk.
  destruct (handle_all_sim _ _ _ _ _ _ Hi' Hin Hf E1) as (c1 & Hr & Hi1).
  destruct (sim_then _ _ (fun k : Z => mret (len msgs + k)) IH ltac:(intros; eexists; done) _ _ _ _ Hi1 Hk E2) as (c2 & Hr2 & Hi2). exists c2. split; [by etrans|done].
Qed.

(** *** Ready and Stabilize *)

Lemma sim_ready idx : sim (node_fits idx ready_fits) (env_ProcessReady idx).
Proof.
  intros e c y e' Hi Hg E. assert (∃ n, 0 <= idx ∧ env_Nodes e !! Z.to_nat idx = Some n) as (n & Hx & Hn).
  { revert E. unfold env_ProcessReady, mbind, EnvM_bind, node_at. destruct (go_index (env_Nodes e) idx) as [n|] eqn:En; [|done].
    apply go_index_inv in En as [? ?]. exists n. split; [lia|done]. }
  unfold node_fits in Hg. rewrite Hn in Hg. rewrite <- (Z2Nat.id idx Hx) in E. destruct (ready_sim _ _ _ _ _ _ Hi Hn Hg E) as [_ ?]. done.
Qed.

Definition stabilize_ready_fits (p : Z) : fit := fun e =>
  match env_Nodes e !! Z.to_nat p with
  | Some n =>
      match RawNode_HasReady (in_RawNode n) with
      | Ok true => node_fits (go_int (raft_id (rn_raft (in_RawNode n)) -! 1)) ready_fits e
      | _ => true
      end
  | None => true
  end.

Definition stabilize_deliver_fits (p : Z) : fit := fun e =>
  match env_Nodes e !! Z.to_nat p with
  | Some n => deliver_all_fits None [mkRecipient (raft_id (rn_raft (in_RawNode n))) false] e
  | None => true
  end.

Lemma node_at_bind {A} p (f : INode → EnvM A) e y e' :
  (node_at p ≫= f) e = Ok (y, e') → ∃ n, env_Nodes e !! Z.to_nat p = Some n ∧ f n e = Ok (y, e').
Proof.
  unfold mbind, EnvM_bind, node_at. destruct (go_index (env_Nodes e) p) as [n|] eqn:En; [|done]. cbn. apply go_index_inv in En as [_ ?]. eauto.
Qed.

Lemma sim_stabilize_ready d p : sim (stabilize_ready_fits p) (stabilize_ready d p).
Proof.
  intros e c y e' Hi Hg (n & Hn & E)%node_at_bind. unfold stabilize_ready_fits in Hg. rewrite Hn in Hg.
  unfold mbind at 1, EnvM_bind, env_lift in E. destruct (RawNode_HasReady (in_RawNode n)) as [[]|]; [| |done]; cbn in E; [|injection E as <- <-; by exists c].
  unfold status_idx in E. apply env_bind_inv in E as [(i & e1 & E1 & E)|(x & E1 & _)]; apply node_at_bind in E1 as (n1 & Hn1 & E1); [|done].
  injection E1 as <- <-. rewrite Hn in Hn1. injection Hn1 as <-.
  eapply (sim_then _ _ _ (sim_ready _)); [|exact Hi|exact Hg|exact E]. eauto.
Qed.

Lemma sim_stabilize_deliver d p : sim (stabilize_deliver_fits p) (stabilize_deliver d p).
Proof.
  intros e c y e' Hi Hg (n & Hn & E)%node_at_bind. unfold stabilize_deliver_fits in Hg. rewrite Hn in Hg.
  rewrite (env_bind_Ok env_get _ e e e eq_refl) in E. destruct (0 <? _); [|injection E as <- <-; by exists c].
  eapply (sim_then _ _ _ (sim_deliver _ _)); [|exact Hi|exact Hg|exact E]. eauto.
Qed.

(** There is no work for the storage threads. *)
Lemma sim_stabilize_threads d p : sim (fun _ => true) (stabilize_append d p) ∧ sim (fun _ => true) (stabilize_apply d p).
Proof.
  split; intros e c y e' Hi _ E; apply env_bind_inv in E as [(i & e1 & E1 & E)|(x & E1 & _)];
    apply node_at_bind in E1 as (n1 & Hn1 & E1); try done; injection E1 as <- <-; apply node_at_bind in E as (n & Hn & E);
    destruct (lk_work _ _ _ (ei_nodes _ _ Hi _ _ Hn)) as [W1 W2]; rewrite ?W1, ?W2 in E; injection E as <- <-; by exists c.
Qed.

Definition round_fits (ps : list Z) : fit :=
  seq_fits (fold_fits stabilize_ready_fits stabilize_ready true ps) (env_fold stabilize_ready true ps)
    (fun d => fold_fits stabilize_deliver_fits stabilize_deliver d ps).

Lemma fold_free {A B} (f : B → A → EnvM B) z (l : list A) : (∀ y a, sim (fun _ => true) (f y a)) → sim (fun _ => true) (env_fold f z l).
Proof.
  intros Hf. revert z. induction l as [|a l IH]; intros z; [apply sim_ret|]. intros e c y e' Hi _ E.
  eapply (sim_bind (fun _ => true) (fun _ _ => true)); [apply Hf|apply IH|exact Hi| |exact E]. unfold seq_fits. by destruct (f z a e) as [[[]]|].
Qed.

Lemma sim_round ps : sim (round_fits ps) (stabilize_round ps).
Proof.
  apply sim_bind; [apply sim_fold, sim_stabilize_ready|]. intros d e c y e' Hi Hg E. revert E.
  apply (sim_bind (fold_fits stabilize_deliver_fits stabilize_deliver d ps) (fun _ _ => true)); [apply sim_fold, sim_stabilize_deliver| |done|].
  2:{ unfold seq_fits. rewrite Hg. by destruct (env_fold _ _ _ _) as [[[]]|]. }
  clear. intros d e c y e' Hi _ E. revert E.
  apply (sim_bind (fun _ => true) (fun _ _ => true)); [apply fold_free, sim_stabilize_threads| |done|].
  - intros d'. apply fold_free, sim_stabilize_threads.
  - unfold seq_fits. by destruct (env_fold _ _ _ _) as [[[]]|].
Qed.

Fixpoint loop_fits (fuel : nat) (ps : list Z) : fit :=
  match fuel with
  | O => fun _ => true
  | Datatypes.S fuel => seq_fits (round_fits ps) (stabilize_round ps) (fun d e => (d : bool) || loop_fits fuel ps e)
  end.

Definition stabilize_fits (fuel : nat) (idxs : list Z) : fit := fun e =>
  loop_fits fuel (match idxs with [] => imap (fun i _ => Z.of_nat i) (env_Nodes e) | _ => idxs end) e.

Lemma sim_loop fuel ps : sim (loop_fits fuel ps) (stabilize_loop fuel ps).
Proof.
  induction fuel as [|fuel IH]; [apply sim_ret|]. apply sim_bind; [apply sim_round|]. intros []; [apply sim_ret|]. cbn. exact IH.
Qed.

Lemma sim_stabilize fuel idxs : sim (stabilize_fits fuel idxs) (env_Stabilize fuel idxs).
Proof. intros e c y e' Hi Hg E. by eapply sim_loop. Qed.

(** *** Scripts *)

(** The commands of a script; [Handle] prints the error of one and goes on. *)
Inductive command : Type :=
  | ICampaign (idx : Z)
  | IPropose (idx : Z) (data : option bytes)
  | IProposeConfChange (idx : Z) (cc : ConfChangeI)
  | ITickElection (idx : Z)
  | ITickHeartbeat (idx : Z)
  | IForgetLeader (idx : Z)
  | ITransferLeadership (from to : Z)
  | IReportUnreachable (sl : list Z)
  | IDeliverMsgs (typ : option MessageType) (rs : list Recipient)
  | IProcessReady (idxs : list Z)
  | IStabilize (fuel : nat) (idxs : list Z)
  | IRaftLog (idx : Z).

Definition run_command (x : command) e : outcome InteractionEnv :=
  let run {A} (m : EnvM A) := z ← m e; Ok z.2 in
  match x with
  | ICampaign idx => run (env_Campaign idx)
  | IPropose idx data => run (env_Propose idx data)
  | IProposeConfChange idx cc => run (env_ProposeConfChange idx cc)
  | ITickElection idx => run (handleTickElection idx)
  | ITickHeartbeat idx => run (handleTickHeartbeat idx)
  | IForgetLeader idx => run (env_ForgetLeader idx)
  | ITransferLeadership from to => run (env_transferLeadership from to)
  | IReportUnreachable sl => run (handleReportUnreachable sl)
  | IDeliverMsgs typ rs => run (env_DeliverMsgs typ rs)
  | IProcessReady idxs => run (handleProcessReady idxs)
  | IStabilize fuel idxs => run (env_Stabilize fuel idxs)
  | IRaftLog idx => run (env_RaftLog idx)
  end.

Definition ticks_fit (ticks : RaftConfig snapOverrideStorage → Z) (idx : Z) : fit := fun e =>
  match env_Nodes e !! Z.to_nat idx with
  | Some n => each_fits (fun _ => node_fits idx (call_fits CTick)) (fun _ => with_rawnode idx RawNode_Tick) (seq 0 (Z.to_nat (ticks (in_Config n)))) e
  | None => true
  end.

Definition command_fits (x : command) : fit :=
  match x with
  | ICampaign idx => node_fits idx (call_fits CCampaign)
  | IPropose idx data => node_fits idx (call_fits (CPropose data))
  | IProposeConfChange idx cc => node_fits idx (call_fits (CProposeConfChange (Some cc)))
  | ITickElection idx => ticks_fit RaftConfig_ElectionTick idx
  | ITickHeartbeat idx => ticks_fit RaftConfig_HeartbeatTick idx
  | IForgetLeader idx => node_fits idx (call_fits CForgetLeader)
  | ITransferLeadership from to => node_fits (from -! 1) (call_fits (CTransferLeader to))
  | IReportUnreachable sl => fun e =>
      match sl with
      | [i; j] => match env_Nodes e !! Z.to_nat j with
                  | Some n => node_fits i (call_fits (CReportUnreachable (RaftConfig_ID (in_Config n)))) e
                  | None => true
                  end
      | _ => true
      end
  | IDeliverMsgs typ rs => deliver_all_fits typ rs
  | IProcessReady idxs => each_fits (fun idx => node_fits idx ready_fits) env_ProcessReady idxs
  | IStabilize fuel idxs => stabilize_fits fuel idxs
  | IRaftLog _ => fun _ => true
  end.

Lemma sim_ticks ticks idx :
  sim (ticks_fit ticks idx) (n ← node_at idx; env_Tick idx (ticks (in_Config n))).
Proof.
  intros e c y e' Hi Hg (n & Hn & E)%node_at_bind. unfold ticks_fit in Hg. rewrite Hn in Hg.
  eapply sim_each; [|exact Hi|exact Hg|exact E]. intros k. by apply sim_call.
Qed.

Lemma sim_unreachable i j :
  sim (command_fits (IReportUnreachable [i; j])) (handleReportUnreachable [i; j]).
Proof.
  intros e c y e' Hi Hg (n & Hn & E)%node_at_bind. cbn [command_fits] in Hg. rewrite Hn in Hg.
  eapply sim_then; [|by eauto|exact Hi|exact Hg|exact E]. by apply sim_call.
Qed.

Lemma env_return_same x e : ∃ y, env_return x e = Ok (y, e).
Proof. destruct x; eexists; done. Qed.

Lemma RaftLog_same idx e y e' : env_RaftLog idx e = Ok (y, e') → e' = e.
Proof.
  intros (n & _ & E)%node_at_bind. cbn zeta in E. repeat (case_match; try (injection E as _ <-; done)).
  apply env_bind_inv in E as [(es & e1 & Ee & E)|(x & Ee & _)]; apply bind_Ok in Ee as (o & _ & Ee); [|done]. injection Ee as _ <-.
  case_match; by injection E as _ <-.
Qed.

(** Every command is a run of the cluster. *)
Lemma command_sim x e c e' :
  env_inv e c → command_fits x e = true → run_command x e = Ok e' → ∃ c', runs c c' ∧ env_inv e' c'.
Proof.
  intros Hi Hf E.
  assert (∀ A (m : EnvM A), sim (command_fits x) m → (z ← m e; Ok z.2) = Ok e' → ∃ c', runs c c' ∧ env_inv e' c') as Hrun.
  { intros A m Hm ([y e1] & Em & [= <-])%bind_Ok. by eapply Hm. }
  destruct x; cbn [run_command] in E; (eapply Hrun; [|exact E]); cbn [command_fits].
  - apply sim_then; [by apply sim_call|apply env_return_same].
  - apply sim_then; [by apply sim_call|apply env_return_same].
  - apply sim_then; [by apply sim_call|apply env_return_same].
  - apply sim_ticks.
  - apply sim_ticks.
  - apply sim_then; [by apply sim_call|by eauto].
  - apply sim_then; [by apply sim_call|by eauto].
  - assert (∀ x, sim (fun _ => true) (env_fail (A := unit) x)) as Hno by (intros x e1 c1 y e2 Hi1 _ [= _ <-]; by exists c1).
    destruct sl as [|i [|j [|]]]; try apply Hno. apply sim_unreachable.
  - apply sim_deliver.
  - apply sim_each, sim_ready.
  - apply sim_stabilize.
  - intros e1 c1 y e2 Hi1 _ ->%RaftLog_same. by exists c1.
Qed.

(** A script; [None] when it panics or leaves the bounds. *)
Fixpoint run_script (xs : list command) e : option InteractionEnv :=
  match xs with
  | [] => Some e
  | x :: xs => if command_fits x e then match run_command x e with Ok e => run_script xs e | Panic _ => None end else None
  end.

Lemma script_sim xs e c e' : env_inv e c → run_script xs e = Some e' → ∃ c', runs c c' ∧ env_inv e' c'.
Proof.
  revert e c. induction xs as [|x xs IH]; intros e c Hi; cbn [run_script]; [intros [= <-]; by exists c|].
  destruct (command_fits x e) eqn:Hf; [|done]. destruct (run_command x e) as [e1|] eqn:E; [|done]. intros E'.
  destruct (command_sim _ _ _ _ Hi Hf E) as (c1 & Hr & Hi1). destruct (IH _ _ Hi1 E') as (c2 & Hr2 & Hi2). exists c2. split; [by etrans|done].
Qed.

(** *** Histories *)

(** What two nodes applied, at two times. *)
Lemma chronicles_agree c1 c2 i j n1 n2 :
  runs cl_init c1 → linked c1 i n1 → runs c1 c2 → linked c2 j n2 →
  in_History n1 `prefix_of` in_History n2 ∨ in_History n2 `prefix_of` in_History n1.
Proof.
  intros Hr L1 Hr2 L2. destruct (lk_history _ _ _ L1) as [Hb1 ->]. destruct (lk_history _ _ _ L2) as [Hb2 ->].
  set (a1 := raftLog_applying (in_log n1)) in *. set (a2 := raftLog_applying (in_log n2)) in *.
  assert (take (Z.to_nat (Z.min a1 a2 - b)) (sl_ents (log_view (in_log n1))) = take (Z.to_nat (Z.min a1 a2 - b)) (sl_ents (log_view (in_log n2)))) as Heq.
  { eapply applied_same; [exact Hr|apply L1|exact Hr2|apply L2|fold a1; lia|fold a2; lia]. }
  assert (∀ k1 k2 (xs : list Entry), (k1 <= k2)%nat → s0 :: states_after s0 (take k1 xs) `prefix_of` s0 :: states_after s0 (take k2 xs)) as Hpre.
  { intros k1 k2 xs Hk. apply prefix_cons. replace k2 with (k1 + (k2 - k1))%nat by lia. rewrite <- take_take_drop, states_after_app. by eexists. }
  destruct (Z.le_ge_cases a1 a2).
  - left. rewrite Z.min_l in Heq by done. rewrite Heq. apply Hpre. lia.
  - right. rewrite Z.min_r in Heq by done. rewrite <- Heq. apply Hpre. lia.
Qed.


End env.

(** *** The first state *)

(** The snapshot that the nodes start from. *)
Definition first_state (snap : Snapshot) : Snapshot :=
  set_Snapshot_Metadata (Some (set_SnapshotMetadata_Term (Some 1) (EnsureSnapshotMetadata (Snapshot_GetMetadata (Some snap))))) snap.

Lemma first_state_idem snap : first_state (first_state snap) = first_state snap.
Proof. destruct snap as [? [[[[? ? ? ? [|]]|] ? ?]|]]; done. Qed.

Lemma first_state_index snap : snap_index (Some (first_state snap)) = snap_index (Some snap).
Proof. destruct snap as [? [[? ? ?]|]]; done. Qed.

Lemma bootstrap_storage_ok snap ms s1 :
  bootstrap_storage snap = Val (ms, s1) → snap_index (Some snap) < MaxUint64 →
  1 < snap_index (Some snap) ∧ s1 = first_state snap ∧ ms_ok ms ∧ ms_view ms = mkslog (snap_index (Some snap)) 1 [] ∧ ms_hardState ms = None.
Proof.
  unfold bootstrap_storage. fold (first_state snap). zcase; [done|]. cbn [ms_ApplySnapshot].
  assert (∃ ms1, ms_ApplySnapshot (Some (first_state snap)) NewMemoryStorage = (Val tt, ms1) ∧ ms_ents ms1 = [mkEntry (Some 1) (Some (snap_index (Some snap))) None None] ∧ ms_hardState ms1 = None) as (ms1 & -> & Hes & Hh).
  { unfold ms_ApplySnapshot. cbn. eexists. split; [done|]. split; [|done]. by destruct snap as [? [[? ? ?]|]]. }
  destruct (negb _); [done|]. intros [= <- <-] Hlt. assert (ms_view ms1 = mkslog (snap_index (Some snap)) 1 []) as Hv by (unfold ms_view; by rewrite Hes).
  split; [lia|]. split; [done|]. split; [|done]. unfold ms_ok. rewrite Hv, Hes. split; [done|]. split; [|done].
  unfold slog_wf, slog_last. change (0 <= snap_index (Some snap) ∧ snap_index (Some snap) + 0 < MaxUint64 ∧ contiguous (snap_index (Some snap)) []). split; [lia|]. split; [lia|done].
Qed.

Section first.
Context `{Protobuf, !ProtobufLaws _}.
Context (rands : Z → list Z) (conf : RaftConfig snapOverrideStorage) (cfg : JointConfig) (b : Z) (s0 : Snapshot).
Hypothesis Hcfg : cfg.1 ≠ ∅.
Hypothesis Hb : b < MaxUint64.
Hypothesis Hsync : RaftConfig_AsyncStorageWrites conf = false.
Implicit Types (e : InteractionEnv) (c : cluster snapOverrideStorage).

Abbreviation nodes_ok e := (∀ p n, env_Nodes e !! p = Some n → node_ok cfg (Z.of_nat p + 1) (in_RawNode n) = true).
Abbreviation env_ok e c := (env_inv b 1 cfg s0 e c ∧ ∀ i, Z.of_nat (length (env_Nodes e)) < i → cl_members c !! i = None).

Lemma add_node_sim snap y e e' c :
  first_state snap = s0 → snap_index (Some snap) = b → env_ok e c →
  add_node None rands conf true snap e = Ok (Val y, e') → nodes_ok e' → y = s0 ∧ 1 < b ∧ ∃ c', env_ok e' c'.
Proof.
  intros Hs Hi [He Hno]. unfold add_node. rewrite (env_bind_Ok env_get _ e e e eq_refl).
  destruct (bootstrap_storage snap) as [[ms s1]|] eqn:Eb; [|done].
  apply bootstrap_storage_ok in Eb as (H1 & -> & Hok & Hv & Hhs); [|lia]. rewrite Hs, Hi in *. set (st := mksnapOverrideStorage ms [s0]).
  set (id := 1 + len (env_Nodes e)). set (conf' := with_id_storage id st conf). change (RaftConfig_ID conf') with id. rewrite Z.eqb_refl. cbn [negb].
  intros [(rn & e1 & E1 & E)|(x & _ & ?)]%env_bind_inv; [|done]. apply bind_Ok in E1 as (rn1 & En & [= <- <-]).
  set (conf1 := match Config_validate conf' with Val (_, c0) => c0 | Err _ => conf' end) in E.
  assert (RaftConfig_AsyncStorageWrites conf1 = false) as Hs1.
  { subst conf1. destruct (Config_validate conf') as [[s c0]|] eqn:Ev; [|exact Hsync]. apply Config_validate_kept in Ev as [_ ->]. exact Hsync. }
  set (n := mkINode rn1 conf1 [] []) in *.
  injection E as <- <-. intros Hok'. split; [done|]. split; [done|].
  assert (id = Z.of_nat (length (env_Nodes e)) + 1) as Hid by (unfold id, len; lia).
  specialize (Hok' (length (env_Nodes e)) n). cbn [env_Nodes set_env_Nodes] in Hok'. rewrite <- Hid in Hok'.
  assert ((env_Nodes e ++ [n]) !! length (env_Nodes e) = Some n) as Hln by (by rewrite lookup_app_r, Nat.sub_diag).
  specialize (Hok' Hln). cbn [in_RawNode n] in Hok'.
  set (c' := mkcluster (<[id := mkhost rn1 None []]> (cl_members c)) (cl_net c)).
  assert (cl_members c !! id = None) as Hnew by (apply Hno; lia).
  assert (perform cfg (AStart conf' (rands id)) c = Some c') as Ep.
  { cbn [perform]. rewrite En. cbn. unfold start_node. change (RaftConfig_ID conf') with id. rewrite Hok', Hnew. cbn. unfold initial_hs, c'. cbn. by rewrite Hhs. }
  assert (commit_contract b 1 (AStart conf' (rands id)) c) as Hcon.
  { split.
    - split; [exact Hsync|]. exists st. change (RaftConfig_ID conf') with id. rewrite Hnew. cbn. rewrite Hv. done.
    - intros _. unfold initial_hs. cbn. rewrite Hhs. cbn. split_and!; [lia|lia|]. intros s [= <-]. cbn. by rewrite Hv. }
  assert (rtc (commit_step b 1 cfg) c c') as Hr by (apply rtc_once; left; by exists (AStart conf' (rands id))).
  exists c'. split.
  2:{ intros i. cbn. rewrite length_app. cbn. intros Hlt. rewrite lookup_insert_ne by lia. apply Hno. lia. }
  destruct He as [R N M]. split; [by etrans| |exact M]. cbn [env_Nodes set_env_Nodes]. intros p n0 Hp.
  apply lookup_app_Some in Hp as [Hp|[Hge Hp]].
  - destruct (N _ _ Hp) as [(mb & Hm & En') ? ? ? ? ?]. split; try done. exists mb. split; [|done]. cbn. rewrite lookup_insert_ne; [done|].
    apply lookup_lt_Some in Hp. lia.
  - apply list_lookup_singleton_Some in Hp as [Hz <-]. assert (Z.of_nat p + 1 = id) as -> by lia.
    pose proof (NewRawNode_inv _ _ _ En) as (_ & Hadv & _). revert En. unfold NewRawNode. intros (r & En & [= <-])%bind_Ok.
    assert (st_ok st) as Hok2 by exact Hok.
    destruct (newRaft_held _ _ st _ En eq_refl Hok2) as [Hh Ha]. destruct (newRaft_log _ _ st _ En eq_refl Hok2) as (_ & Vw & Sto).
    split; try done.
    + eexists. split; [apply lookup_insert_eq|done].
    + change (st_view st) with (ms_view ms) in Ha, Vw. rewrite Hv in Ha, Vw. split; [exact Ha|]. unfold in_History, rn_storage, n. cbn [in_RawNode rn_raft].
      rewrite Sto, Vw. cbn [sl_ents]. by rewrite take_nil.
Qed.

Lemma add_node_grows snap e y e' :
  add_node None rands conf true snap e = Ok (y, e') → env_Nodes e `prefix_of` env_Nodes e'.
Proof.
  unfold add_node. rewrite (env_bind_Ok env_get _ e e e eq_refl). destruct (bootstrap_storage snap) as [[ms s1]|]; [|by intros [= _ <-]].
  destruct (negb _); [by intros [= _ <-]|]. intros [(rn & e1 & E1 & E)|(x & E1 & _)]%env_bind_inv; apply bind_Ok in E1 as (rn1 & _ & E1); [|done].
  injection E1 as <- <-. injection E as _ <-. by eexists.
Qed.

Lemma add_nodes_grow k snap e y e' :
  add_nodes None rands k conf true snap e = Ok (y, e') → env_Nodes e `prefix_of` env_Nodes e'.
Proof.
  revert snap e. induction k as [|k IH]; intros snap e; cbn [add_nodes]; [by intros [= _ <-]|].
  intros [(s1 & e1 & E1 & E)|(x & E1 & _)]%env_bind_inv; apply add_node_grows in E1; [|done]. etrans; [exact E1|by eapply IH].
Qed.

Lemma add_nodes_sim k snap e e' c :
  first_state snap = s0 → snap_index (Some snap) = b → env_ok e c →
  add_nodes None rands k conf true snap e = Ok (Val tt, e') → nodes_ok e' → ∃ c', env_ok e' c'.
Proof.
  revert snap e c. induction k as [|k IH]; intros snap e c Hs Hi He; cbn [add_nodes]; [intros [= <-]; by exists c|].
  intros [(s1 & e1 & E1 & E)|(x & _ & ?)]%env_bind_inv Hok; [|done].
  destruct (add_node_sim _ _ _ _ _ Hs Hi He E1) as (-> & _ & c1 & He1).
  { intros p n Hp. apply Hok. destruct (add_nodes_grow _ _ _ _ _ E) as [rest ->]. by apply lookup_app_l_Some. }
  eapply IH; [..|exact He1|exact E|done]; [rewrite <- Hs; apply first_state_idem|]. rewrite <- Hs, first_state_index. done.
Qed.

End first.

(** Every node has the configuration [cfg], its position as id and a term in
    range. *)
Definition nodes_fit `{Protobuf} (cfg : JointConfig) (e : InteractionEnv) : bool :=
  forallb id (imap (fun p n => node_ok cfg (Z.of_nat p + 1) (in_RawNode n)) (env_Nodes e)).

Lemma nodes_fit_ok `{Protobuf} cfg e p n :
  nodes_fit cfg e = true → env_Nodes e !! p = Some n → node_ok cfg (Z.of_nat p + 1) (in_RawNode n) = true.
Proof.
  unfold nodes_fit. rewrite forallb_forall. intros Hf Hn. apply Hf. apply list_elem_of_In, list_elem_of_lookup. exists p.
  by rewrite list_lookup_imap, Hn.
Qed.

Lemma AddNodes_sim `{Protobuf, !ProtobufLaws _} cfg rands n conf snap e0 :
  RaftConfig_AsyncStorageWrites conf = false → 1 < snap_index (Some snap) < MaxUint64 →
  env_AddNodes None rands n conf (Some snap) NewInteractionEnv = Ok (Val tt, e0) → nodes_fit cfg e0 = true →
  ∃ c, env_inv (snap_index (Some snap)) 1 cfg (first_state (EnsureSnapshot (Some snap))) e0 c.
Proof.
  intros Hs Hb E Hf. assert (snap_index (Some (EnsureSnapshot (Some snap))) = snap_index (Some snap)) as Hi by (by destruct snap as [? [[? ? ?]|]]).
  unfold env_AddNodes in E. rewrite bool_decide_false in E.
  2:{ intros Hz. rewrite Hz in Hi. change (0 = snap_index (Some snap)) in Hi. lia. }
  edestruct (add_nodes_sim rands conf cfg (snap_index (Some snap)) (first_state (EnsureSnapshot (Some snap)))) as (c & Hc & _);
    [lia|exact Hs|done|exact Hi| |exact E| |by exists c].
  - split; [split; [done|done|]|done]. intros m Hm. by apply elem_of_nil in Hm.
  - intros p n0. by apply nodes_fit_ok.
Qed.

(** The nodes of an environment apply the same states in the same order: what one
    node has applied at one time and another one at a later time are prefixes of
    each other. *)
Lemma script_histories `{Protobuf, !ProtobufLaws _} cfg rands n conf snap e0 xs ys e1 e2 p q n1 n2 :
  cfg.1 ≠ ∅ → RaftConfig_AsyncStorageWrites conf = false → 1 < snap_index (Some snap) < MaxUint64 →
  env_AddNodes None rands n conf (Some snap) NewInteractionEnv = Ok (Val tt, e0) → nodes_fit cfg e0 = true →
  run_script cfg xs e0 = Some e1 → run_script cfg ys e1 = Some e2 →
  env_Nodes e1 !! p = Some n1 → env_Nodes e2 !! q = Some n2 →
  in_History n1 `prefix_of` in_History n2 ∨ in_History n2 `prefix_of` in_History n1.
Proof.
  intros Hcfg Hs Hb E Hf E1 E2 Hn1 Hn2. destruct (AddNodes_sim _ _ _ _ _ _ Hs Hb E Hf) as (c0 & Hi0).
  assert (0 <= snap_index (Some snap)) as H0 by lia.
  destruct (script_sim _ _ _ _ Hcfg H0 _ _ _ _ Hi0 E1) as (c1 & _ & Hi1). destruct (script_sim _ _ _ _ Hcfg H0 _ _ _ _ Hi1 E2) as (c2 & Hr2 & Hi2).
  eapply chronicles_agree; [exact Hcfg|exact H0|apply Hi1|by apply Hi1|exact Hr2|by apply Hi2].
Qed.
