(* ===== verification/CommandSafety.v ===== *)
(** * Data-driven tests apply the same states

    [Handle] of Commands.v runs commands that are text.  Each of them is one of
    the commands of InteractionSafety.v, or changes nothing; so all that is
    proved there holds of data-driven tests. *)
From Stdlib Require Import Strings.String Strings.Byte.
From S2P Require Import Prelude Proto Text Quorum Inflights Progress Tracker Util Storage.
From S2P Require Import Unstable Log ConfChange ReadOnly Raft RaftStep RawNode Interaction Commands.
From S2P Require Import Cluster NodeLog ClusterLog ClusterCommit InteractionSafety.

(** What the text of a command stands for. *)
Inductive meaning : Type :=
  | MCommand (x : command)
  | MNothing                 (* an error, or nothing to change *)
  | MOther.                  (* new nodes, compaction, snapshots, asynchronous storage, timeouts *)

Section data.
Context `{Protobuf, !ProtobufLaws _} `{Datadriven}.
Context (SetRandomizedElectionTimeout : option (RawNode snapOverrideStorage → Z → outcome (RawNode snapOverrideStorage))).
Context (rands : Z → list Z) (fuel : nat).
Implicit Types (d : TestData) (e : InteractionEnv).

Abbreviation handle := (Handle None SetRandomizedElectionTimeout rands fuel).

Definition meant {A} (p : Parse A) (f : A → command) : meaning :=
  match p with Ok (Val a) => MCommand (f a) | _ => MNothing end.

Definition meaning_of (nodes : Z) d : meaning :=
  let cmd s := is_key (TestData_Cmd d) s in
  if cmd "_breakpoint" then MNothing
  else if cmd "add-nodes" then MOther
  else if cmd "campaign" then meant (firstAsNodeIdx d) ICampaign
  else if cmd "compact" then MOther
  else if cmd "deliver-msgs" then meant (deliver_args d) (fun x => IDeliverMsgs x.1 x.2)
  else if cmd "process-ready" then meant (nodeIdxs d) IProcessReady
  else if cmd "process-append-thread" then MOther
  else if cmd "process-apply-thread" then MOther
  else if cmd "log-level" then MNothing
  else if cmd "raft-log" then meant (firstAsNodeIdx d) IRaftLog
  else if cmd "raft-state" then MNothing
  else if cmd "set-randomized-election-timeout" then MOther
  else if cmd "stabilize" then meant (stabilize_args d) (IStabilize fuel)
  else if cmd "status" then MNothing
  else if cmd "tick-election" then meant (firstAsNodeIdx d) ITickElection
  else if cmd "tick-heartbeat" then meant (firstAsNodeIdx d) ITickHeartbeat
  else if cmd "transfer-leadership" then meant (transfer_args nodes d) (fun x => ITransferLeadership x.1 x.2)
  else if cmd "forget-leader" then meant (firstAsNodeIdx d) IForgetLeader
  else if cmd "send-snapshot" then MOther
  else if cmd "propose" then meant (propose_args d) (fun x => IPropose x.1 (Some x.2))
  else if cmd "propose-conf-change" then meant (conf_change_args d) (fun x => IProposeConfChange x.1 x.2)
  else if cmd "report-unreachable" then meant (nodeIdxs d) IReportUnreachable
  else MNothing.

(** The operation that follows a parser is the command that it stands for. *)
Definition means (k : meaning) e e' : Prop :=
  match k with MCommand x => run_command x e = Ok e' | MNothing => e' = e | MOther => True end.

Lemma meant_run {A B} (p : Parse A) (f : A → command) (k : A → EnvM B) e y e' :
  (∀ a z, k a e = Ok (z, e') → run_command (f a) e = Ok e') →
  (a ← env_parse p; k a) e = Ok (y, e') → means (meant p f) e e'.
Proof.
  intros Hk. unfold meant, mbind, EnvM_bind, env_parse. destruct p as [[a|x]|w]; [apply Hk|by intros [= _ <-]|done].
Qed.

Lemma done_run {A} (m : EnvM A) e y e' : (_ ← m; mret tt) e = Ok (y, e') → (z ← m e; Ok z.2) = Ok e'.
Proof. unfold mbind, EnvM_bind. by destruct (m e) as [[[a|x] e1]|]; [intros [= _ <-]..|]. Qed.

Lemma all_run {A} (m : EnvM A) e y e' : m e = Ok (y, e') → (z ← m e; Ok z.2) = Ok e'.
Proof. by intros ->. Qed.

Lemma look_same {A B} (p : Parse A) (k : A → EnvM B) e y e' :
  (∀ a z, k a e = Ok (z, e') → e' = e) → (a ← env_parse p; k a) e = Ok (y, e') → e' = e.
Proof. intros Hk. unfold mbind, EnvM_bind, env_parse. destruct p as [[a|x]|w]; [apply Hk|by intros [= _ <-]|done]. Qed.

Ltac next_command d := match goal with |- context [bool_decide (TestData_Cmd d = ?s)] => destruct (bool_decide (TestData_Cmd d = s)) end.

(** The text of a command does what it stands for. *)
Lemma Handle_means d e y e' : handle d e = Ok (y, e') → means (meaning_of (len (env_Nodes e)) d) e e'.
Proof.
  unfold Handle, meaning_of. cbn zeta.
  repeat (next_command d; [first [done | by intros [= _ <-] | by (apply (meant_run _ _ _ _ _ _); intros a z; (apply all_run || apply done_run))
    | by (apply (meant_run _ (fun x => ITransferLeadership x.1 x.2)); intros a z; apply all_run) | idtac]|]).
  - intros E. unfold env_parse in E. cbn. destruct (raftlevel_args d) as [x|w]; [|done]. by injection E as _ <-.
  - intros E. eapply look_same; [|exact E]. by intros a z (n & _ & [= _ <-])%node_at_bind.
  - by intros [= _ <-].
Qed.

(** ** Scripts of text *)

Context (cfg : JointConfig).

Definition data_fits d e : bool :=
  match meaning_of (len (env_Nodes e)) d with
  | MCommand x => command_fits cfg x e
  | MNothing => true
  | MOther => false
  end.

(** [None] when the test fails, a node panics, or a command is not covered. *)
Fixpoint run_data (ds : list TestData) e : option InteractionEnv :=
  match ds with
  | [] => Some e
  | d :: ds => if data_fits d e then match handle d e with Ok (_, e) => run_data ds e | Panic _ => None end else None
  end.

Lemma run_data_script ds e e' : run_data ds e = Some e' → ∃ xs, run_script cfg xs e = Some e'.
Proof.
  revert e. induction ds as [|d ds IH]; intros e; cbn [run_data]; [intros [= <-]; by exists []|].
  destruct (data_fits d e) eqn:Hf; [|done]. destruct (handle d e) as [[y e1]|] eqn:E; [|done]. intros (xs & Hx)%IH.
  apply Handle_means in E. unfold data_fits in Hf. unfold means in E. destruct (meaning_of _ d) as [x| |]; [|subst e1; by exists xs|done].
  exists (x :: xs). cbn [run_script]. by rewrite Hf, E.
Qed.

(** C3. Data-driven tests apply the same states: after add-nodes, with synchronous
    storage, whatever text of campaigns, proposals, ticks, transfers of
    leadership, deliveries and losses of messages, Ready handling and stabilizing
    is handled, the states that one node has applied at one time and those that
    another one has applied at a later time are prefixes of each other. *)
Theorem histories_agree d0 n snap conf e0 ds1 ds2 e1 e2 p q n1 n2 :
  cfg.1 ≠ ∅ → TestData_Cmd d0 = str "add-nodes" → add_nodes_args d0 = Ok (Val (n, snap, conf)) →
  RaftConfig_AsyncStorageWrites conf = false → 1 < snap_index (Some snap) < MaxUint64 →
  handle d0 NewInteractionEnv = Ok (Val tt, e0) → nodes_fit cfg e0 = true →
  run_data ds1 e0 = Some e1 → run_data ds2 e1 = Some e2 →
  env_Nodes e1 !! p = Some n1 → env_Nodes e2 !! q = Some n2 →
  in_History n1 `prefix_of` in_History n2 ∨ in_History n2 `prefix_of` in_History n1.
Proof.
  intros Hcfg Hd Ha Hs Hb E Hf [xs E1]%run_data_script [ys E2]%run_data_script Hn1 Hn2.
  assert (env_AddNodes None rands n conf (Some snap) NewInteractionEnv = Ok (Val tt, e0)) as E0.
  { revert E. unfold Handle. rewrite Hd. cbn zeta. change (is_key (str "add-nodes") "_breakpoint") with false. change (is_key (str "add-nodes") "add-nodes") with true.
    cbn iota. unfold handleAddNodes. rewrite Ha. done. }
  eapply script_histories; [exact Hcfg|exact Hs|exact Hb|exact E0|done|exact E1|exact E2|exact Hn1|exact Hn2].
Qed.

End data.

(** ** An example *)

#[local] Existing Instances sample_Protobuf sample_ProtobufLaws.

Definition from_result {A} (x : result A) : option A := match x with Val a => Some a | Err _ => None end.

(** The single value of an argument. *)
Definition sample_arg (d : TestData) (k : bytes) : option bytes :=
  a ← find (fun a => bool_decide (CmdArg_Key a = k)) (TestData_CmdArgs d);
  match CmdArg_Vals a with [v] => Some v | _ => None end.

#[local] Instance sample_Datadriven : Datadriven := {|
  Scan_uint64 := fun s => from_result (ParseUint s);
  Scan_int := fun s => from_result (Atoi s);
  Scan_bool := fun s => from_result (ParseBool s);
  Scan_bytes := Some;
  ScanArgs_uint64 := fun d k => s ← sample_arg d k; from_result (ParseUint s);
  ScanArgs_int := fun d k => s ← sample_arg d k; from_result (Atoi s);
|}.

Definition word (s : string) : CmdArg := mkCmdArg (str s) [].

Definition line (cmd : string) (args : list CmdArg) : TestData := mkTestData (str cmd) args [].

Definition iex_cfg : JointConfig := (list_to_set [1; 2; 3], ∅).

Definition iex_add : TestData :=
  line "add-nodes" [word "3"; mkCmdArg (str "voters") [str "1"; str "2"; str "3"]; mkCmdArg (str "index") [str "2"]].

(** The first node is elected and applies a proposal that only the second one
    knows of. *)
Definition iex_first : list TestData :=
  [line "campaign" [word "1"]; line "stabilize" []; line "propose" [word "1"; word "prop_1"]; line "process-ready" [word "1"];
   line "deliver-msgs" [word "2"; mkCmdArg (str "drop") [str "3"]]; line "process-ready" [word "2"];
   line "deliver-msgs" [word "1"]; line "process-ready" [word "1"]].

(** Then the second one is elected. *)
Definition iex_second : list TestData := [line "campaign" [word "2"]; line "raft-state" []; line "stabilize" []].

Abbreviation iex_handle := (Handle None None (fun _ => []) 20).
Abbreviation iex_run := (run_data None (fun _ => []) 20 iex_cfg).

Definition iex_env0 : InteractionEnv := match iex_handle iex_add NewInteractionEnv with Ok (_, e) => e | _ => NewInteractionEnv end.

Definition iex_env1 : InteractionEnv := default NewInteractionEnv (iex_run iex_first iex_env0).

Definition iex_env2 : InteractionEnv := default NewInteractionEnv (iex_run iex_second iex_env1).

Lemma iex_runs :
  iex_handle iex_add NewInteractionEnv = Ok (Val tt, iex_env0) ∧
  iex_run iex_first iex_env0 = Some iex_env1 ∧ iex_run iex_second iex_env1 = Some iex_env2.
Proof. split; [|split]; vm_compute; reflexivity. Qed.

Lemma histories_agree_witness :
  ∃ n1 n2, env_Nodes iex_env1 !! 0%nat = Some n1 ∧ env_Nodes iex_env2 !! 2%nat = Some n2 ∧
    length (in_History n1) = 3%nat ∧ length (in_History n2) = 4%nat ∧
    (in_History n1 `prefix_of` in_History n2 ∨ in_History n2 `prefix_of` in_History n1).
Proof.
  destruct (env_Nodes iex_env1 !! 0%nat) as [n1|] eqn:E1; [|vm_compute in E1; discriminate E1].
  destruct (env_Nodes iex_env2 !! 2%nat) as [n2|] eqn:E2; [|vm_compute in E2; discriminate E2].
  exists n1, n2. split; [reflexivity|]. split; [reflexivity|].
  split; [vm_compute in E1; injection E1 as <-; reflexivity|]. split; [vm_compute in E2; injection E2 as <-; reflexivity|].
  destruct iex_runs as (A0 & A1 & A2).
  eapply (histories_agree None (fun _ => []) 20 iex_cfg iex_add _ _ _ iex_env0 iex_first iex_second iex_env1 iex_env2 0 2 n1 n2).
  - apply (bool_decide_unpack _). vm_compute. exact I.
  - reflexivity.
  - vm_compute. reflexivity.
  - reflexivity.
  - split; reflexivity.
  - exact A0.
  - vm_compute. reflexivity.
  - exact A1.
  - exact A2.
  - exact E1.
  - exact E2.
Defined.
